(* ===== verification/_CoqProject ===== *)
-Q . S2P
Prelude.v
AppError.v
Types.v
Json.v
Decode.v
Redis.v
Postgres.v
Effects.v
Rules.v
Reference.v
MonitorJSON.v
RedisStore.v
Scheduler.v
Security.v
Http.v
Config.v
Infra.v
Dto.v
User.v
MonitorSvc.v
Handlers.v
Api.v
Middleware.v
Executor.v
Result.v
Pipeline.v
Protocol.v
Coherence.v
Quota.v
Debt.v
Delivery.v
Hazards.v
Container.v
Budget.v
Drain.v
Shutdown.v
