(* ===== verification/Prelude.v ===== *)
(** * Monit: a verification development of the uptime monitoring service

    Monit checks URLs at intervals and alerts when they fail.  Users register
    and manage their monitors over HTTP; Redis holds the queue of checks, a
    cache of monitors and the state of outages; Postgres holds users, monitors
    and incidents.  In each process a scheduler fetches due monitors from Redis
    and hands them to the executor's workers through a channel; the executor
    runs the HTTP checks; the result processor stores statuses, counts
    failures, records incidents and sends alerts; a reclaimer puts back the
    jobs of workers that died.

    ** Files, and the code they model

    - Prelude (this file): Go's integers, [float64] rounding, durations,
      [strings.Split] and [strconv.ParseInt], lemmas on strings, maps and
      lists, the tactic [inv_all].
    - AppError: pkg/apperror and pkg/utils/errorbuilder.go.  Go's [error] is
      the type of the errors that reach the code, with [errors.Is] and
      [errors.As] over the chain of wrapped errors.
    - Types: UUIDs and the structs that the components exchange.
    - Json, Decode: encoding/json as far as the code uses it, a printer, the
      scanner as a state machine over bytes, and decoding into structs.
    - MonitorJSON: the cached form of a monitor (monitor/domain.go and the
      calls of json in monitor/service.go).
    - Redis: the commands that the code uses, as relations between the
      contents of a server before and after ([rcall_spec]), and Lua scripts
      as programs over them ([lua]), which run atomically.
    - Postgres: pkg/utils/converters.go, the tables of migration/ with their
      constraints, and the statements of pkg/db as relations ([query_spec]).
    - Effects: programs ([prog], a tree of commands), the outside world
      ([Services] and its laws), the channels of a process, [exec] and [run];
      two logics over programs, [wp] (total correctness in a world) and
      [obeys] (an automaton over commands and replies, for every environment).
    - Rules: the rules of [wp], one per command.
    - Reference: a concrete world on which the laws hold and every witness runs.
    - RedisStore: pkg/redisstore, the client with its retries.
    - Scheduler: internals/modules/scheduler, Lua scripts included.
    - Security: internals/security.  Http: pkg/utils/response.go and
      internals/middleware.  Dto: the requests and responses of
      user/dto.go and monitor/dto.go with their tags, their validation and
      their JSON.  User: internals/modules/user.
    - Config: config, with viper and the validator as classes with laws.
    - Infra: the connections, pkg/redisstore/client.go, pkg/db/dbConn.go and
      pkg/httpclient.
    - MonitorSvc: internals/modules/monitor, with the interfaces [Cache],
      [UserService] and [MonitorService] of the code as classes; the executor
      and the result processor are verified against [MonitorService].
    - Handlers: the HTTP handlers, their routes and internals/app/router.go.
    - Api: theorems on all requests to all routes, from bytes to bytes.
    - Middleware: logging, metrics and request ids of internals/middleware,
      and pkg/logger.
    - Executor: internals/modules/executor; the causes of an error ([cause]) and
      the report of a check ([checked]) are specified on the chain of wrapped
      errors, apart from the code that classifies them.  Result:
      internals/modules/result.
    - Pipeline: the components of any number of processes as a pool of
      interleaved tasks, with a step relation; the channels are open.
    - Protocol: from an automaton that every task follows to an invariant of
      the pool.  Its clients: Coherence (the cache and the table), Quota (the
      counts of users) and Delivery (a monitor on its way through the queue,
      the channels and the tasks, by the protocol of Debt), each under
      concurrency.
    - Hazards: two ways in which the queue fails its users, in general form: the
      job of a disabled monitor, in every interleaving, by a protocol of its
      own; and a job that is acknowledged but not scheduled.
    - Container: internals/app/container.go, internals/server/server.go and
      cmd/api/main.go, the life of one process as a step relation over its
      goroutines, channels and wait groups, from [main] to the end of
      [Shutdown].
    - Budget: what one turn of each loop may spend, an automaton, and how the
      commands keep to it.
    - Drain: the pool of Pipeline comes to rest when nothing new is set off.
    - Shutdown: the invariant of the life of a process, and what follows.

    A Go function is a definition with its name; what it reads and writes
    outside is a command of [prog], in the order of the code.  A component's
    state is the part of Redis and Postgres it owns (its keys and tables) and
    the channels of the process ([proc]).  Methods of one Go type are in a
    Module where names clash ([Repository], [Service]).

    ** What the theorems show

    - The queue: a fetch takes exactly the earliest due jobs out of the schedule
      and puts them in flight, ticks never lose a monitor whatever fails, and
      when nothing fails reclaiming makes the jobs of dead workers due again
      (Scheduler); a job that is taken stays tracked until its result is
      handled, and costs a slot exactly if a check is started (Executor); in every
      interleaving no monitor is forgotten: it is queued, in a channel, or with
      a task that passes it on before it ends; and none is doubled, as long as
      no job outlives the visibility timeout (Delivery).
    - Checks: what is reported for every answer and every cause of an error,
      with the latency that was measured (Executor).
    - Outages: when Redis answers, the failure and success handlers refine a
      policy on abstract outages ([fail_step]), one alert per outage if the
      channel of the alerts has room; whatever fails, in every interleaving of
      every number of processes alerts do not exceed the clearings of an
      incident by more than one (Result, Pipeline).
    - Progress: from every state that is reached, if no new tick or request
      starts, every continuation is finite and ends with empty channels, free
      slots and no task, and then a monitor whose check was begun is in the
      queue again (Drain).
    - Resources: running checks are bounded by the semaphore and no slot is
      lost; no task panics while the channels are open (Pipeline).
    - The life of a process: [main] ends with an error or serves with the
      goroutines and channels that are configured; whatever the world replies,
      only the scheduler can panic; when the shutdown has returned the
      channels are empty and the goroutines it waits for are gone; and it
      returns after a bounded number of steps of the pipeline (Shutdown).
    - Configuration: a configuration is loaded exactly if every field satisfies
      its tags, defaults included, and the error of a refused one names fields
      that do not (Config).
    - Monitors: the cache agrees with the table in every interleaving of
      requests and workers (Coherence), a read through it is equivalent to a
      read of the table, and its JSON loses nothing; users see their own
      monitors only, and however many creations are served at once no user
      gets more than were counted (MonitorSvc, MonitorJSON, Quota).
    - Accounts and HTTP: registration, login and tokens fit together, every
      protected route is authenticated, errors tell nothing internal, and the
      endpoints do what their services promise, with the status of each case
      (Security, User, Handlers); a client reads every field of every response
      of every route from its bytes (Api), and every request is logged with its
      status and length (Middleware).
    - Defects: theorems that state behaviour the code should not have, such as
      the ignored interval, the lost job after an acknowledgement and the job
      of a disabled monitor that circulates for ever (Hazards), the leak of the
      quota, the stale cache entry after enabling, the request to
      disable that is always refused, the panic at shutdown, the log without
      request ids.

    The commands may fail: [any_reply] lets every command fail at any time, with
    or without having had its effect, [db_may_fail] only statements,
    [no_fault] none; [ack_answered] spares one command of the queue; each
    theorem says which it assumes.  The theorems on
    interleavings (Pipeline, Coherence, Quota, Delivery, Hazards, Drain)
    are about every reply, but that Delivery excludes what takes its monitor
    away ([undisturbed]), and Hazards what would enable it
    ([found_disabled]).

    ** Bounds

    Loops are structural: retries by their number of attempts (two or three
    in the code), batches by the list fetched, the scanner of JSON by the bytes
    that are left; no fuel is needed.  The steps
    of a shutdown are bounded by [measure], a weight of what the channels and
    the goroutines still hold; the weights are those of Budget, and the
    theorem shows that they suffice.  A tick or a request of the pool has no
    such bound; its program is a well-founded tree, and Drain orders pools by
    these trees first ([lower]).  Times are
    unbounded nanoseconds; scores of sorted sets are rounded to doubles, which
    is exact below 2^53 milliseconds.

    ** Not modelled

    The lines that the code logs on its way, and how zerolog formats them;
    the lines that [Logger] writes for requests are modelled.  Of chi: the
    matching of paths, [Recoverer] and [Timeout].  net/http: a server is its
    address and how it ends ([Server_Start]; the end of the process when it
    cannot listen is not a step); the requests it serves are part of what
    happens elsewhere in the steps of a process.  Hashing, signing, the validator's
    rules for addresses and URLs, viper, and the drivers of Redis and
    Postgres are interfaces with laws.  A goroutine that panics stays where
    it is in the model, where Go ends the process.  The alert statements of
    pkg/db, the codes of pkg/apperror and the constants of pkg/utils, which
    nothing uses. *)

From Stdlib Require Export ZArith Lia.
From stdpp Require Export sorting strings pretty.
From stdpp Require Export base tactics list gmap option.
Open Scope Z_scope.

(** ** Machine integers of Go *)

(** Two's complement wrap-around of a [w]-bit signed integer. *)
Definition wrap (w : Z) (z : Z) : Z :=
  (z + 2 ^ (w - 1)) mod 2 ^ w - 2 ^ (w - 1).

(** The conversions [int32(x)] and [int64(x)]. *)
Definition int32 (z : Z) : Z := wrap 32 z.
Definition int64 (z : Z) : Z := wrap 64 z.

Definition is_int32 (z : Z) : Prop := - 2 ^ 31 <= z < 2 ^ 31.
Definition is_int64 (z : Z) : Prop := - 2 ^ 63 <= z < 2 ^ 63.

Lemma wrap_id w z : 0 < w -> - 2 ^ (w - 1) <= z < 2 ^ (w - 1) -> wrap w z = z.
Proof.
  intros Hw Hz. unfold wrap.
  assert (2 ^ w = 2 * 2 ^ (w - 1)) as ->.
  { rewrite <- Z.pow_succ_r by lia. f_equal. lia. }
  rewrite Z.mod_small; lia.
Qed.

Lemma int32_id z : is_int32 z -> int32 z = z.
Proof. intros H. apply wrap_id; [lia | exact H]. Qed.

Lemma int64_id z : is_int64 z -> int64 z = z.
Proof. intros H. apply wrap_id; [lia | exact H]. Qed.

(** [float64(x)] of an integer: exact up to 53 significant bits, beyond that
    rounded to the nearest multiple of the unit in the last place, ties to
    even.  Redis keeps sorted-set scores as such doubles. *)
Definition round_half_even (z ulp : Z) : Z :=
  let q := z / ulp in
  let r := z mod ulp in
  if decide (2 * r < ulp) then q * ulp
  else if decide (ulp < 2 * r) then (q + 1) * ulp
  else if Z.even q then q * ulp else (q + 1) * ulp.

Definition float64_of_int (z : Z) : Z :=
  if decide (Z.abs z <= 2 ^ 53) then z
  else round_half_even z (2 ^ (Z.log2 (Z.abs z) - 52)).

Lemma float64_of_int_exact z : Z.abs z <= 2 ^ 53 -> float64_of_int z = z.
Proof. intros H. unfold float64_of_int. by rewrite decide_True. Qed.

(** Rounding does not cross an integer that is exact. *)
Lemma float64_of_int_ge T z : 0 <= T <= 2 ^ 53 -> T <= z -> T <= float64_of_int z.
Proof.
  intros HT Hz. unfold float64_of_int. case_decide as Hs; [done|].
  assert (2 ^ 53 < z) as Hbig by lia. rewrite Z.abs_eq by lia.
  pose proof (Z.log2_spec z ltac:(lia)) as [Hl _].
  assert (53 <= Z.log2 z) as H53 by (apply Z.log2_le_pow2; lia).
  set (ulp := 2 ^ (Z.log2 z - 52)).
  assert (0 < ulp) as Hu by (apply Z.pow_pos_nonneg; lia).
  assert (2 ^ Z.log2 z = 2 ^ 52 * ulp) as El.
  { unfold ulp. rewrite <- Z.pow_add_r by lia. f_equal. lia. }
  assert (2 ^ 53 <= 2 ^ Z.log2 z) as H2 by (apply Z.pow_le_mono_r; lia).
  assert (2 ^ 52 <= z / ulp) as Hq by (apply Z.div_le_lower_bound; lia).
  assert (2 ^ 53 <= z / ulp * ulp) as Hlow by nia.
  unfold round_half_even. repeat case_match; lia.
Qed.

(** ** Time and durations: nanoseconds *)

Definition Microsecond : Z := 1000.
Definition Millisecond : Z := 1000000.
Definition Second : Z := 1000000000.
Definition Minute : Z := 60 * Second.
Definition Hour : Z := 60 * Minute.

(** A [time.Time] is the number of nanoseconds since the Unix epoch. *)
Definition UnixMilli (t : Z) : Z := t / Millisecond.
Definition Unix (t : Z) : Z := t / Second.
(** [Duration.Milliseconds] truncates towards zero. *)
Definition Milliseconds (d : Z) : Z := Z.quot d Millisecond.

(** ** Options, lists and maps *)

Lemma fold_left_delete_lookup {V} (l : list string) (m : gmap string V) k :
  fold_left (fun m k => delete k m) l m !! k =
  if decide (k ∈ l) then None else m !! k.
Proof.
  revert m. induction l as [|x l IH]; intros m; cbn.
  - by rewrite decide_False by apply not_elem_of_nil.
  - rewrite IH. destruct (decide (k = x)) as [->|Hne].
    + rewrite (decide_True (P := x ∈ x :: l)) by left.
      case_decide; [done | apply lookup_delete_eq].
    + rewrite lookup_delete_ne by done.
      destruct (decide (k ∈ l)) as [Hin|Hin].
      * rewrite decide_True; [done | by right].
      * rewrite decide_False; [done | by rewrite elem_of_cons; intros [|]].
Qed.

Lemma size_fold_left_delete {V} (l : list string) (m : gmap string V) :
  NoDup l -> (forall k, k ∈ l -> is_Some (m !! k)) ->
  size (fold_left (fun m k => delete k m) l m) = (size m - length l)%nat.
Proof.
  intros Hnd. revert m. induction Hnd as [|x l Hx Hnd IH]; intros m Hin; cbn.
  - lia.
  - rewrite IH.
    + rewrite map_size_delete_Some by (apply Hin; by left). lia.
    + intros k Hk. rewrite lookup_delete_ne by (intros ->; done). apply Hin. by right.
Qed.

(** A duplicate-free list of keys as long as the map holds all of them. *)
Lemma NoDup_keys_all {V} (l : list string) (m : gmap string V) :
  NoDup l -> (forall k, k ∈ l -> is_Some (m !! k)) -> (size m <= length l)%nat ->
  forall k, is_Some (m !! k) -> k ∈ l.
Proof.
  intros Hnd Hin Hsz k [v Hk]. destruct (decide (k ∈ l)) as [|Hn]; [done|].
  pose proof (size_fold_left_delete l m Hnd Hin) as Hs.
  assert (size (fold_left (fun m k => delete k m) l m) = 0%nat) as H0 by lia.
  apply map_size_empty_inv in H0.
  assert (fold_left (fun m k => delete k m) l m !! k = Some v) as Hk'.
  { by rewrite fold_left_delete_lookup, decide_False. }
  by rewrite H0, lookup_empty in Hk'.
Qed.

(** Sums over lists, and how they change with the list. *)
Definition sum_of {A} (f : A -> nat) (l : list A) : nat := sum_list_with f l.

Lemma sum_of_app {A} (f : A -> nat) l1 l2 : sum_of f (l1 ++ l2) = (sum_of f l1 + sum_of f l2)%nat.
Proof. apply sum_list_with_app. Qed.

Lemma sum_of_snoc {A} (f : A -> nat) l x : sum_of f (l ++ [x]) = (sum_of f l + f x)%nat.
Proof. rewrite sum_of_app. unfold sum_of. cbn. lia. Qed.

(** One element replaced by some. *)
Definition put {A} (j : nat) (ys l : list A) : list A := take j l ++ ys ++ drop (S j) l.

Lemma sum_of_put {A} (f : A -> nat) l j x ys :
  l !! j = Some x -> (sum_of f (put j ys l) + f x = sum_of f l + sum_of f ys)%nat.
Proof.
  intros H. unfold put. rewrite <- (take_drop_middle l j x H) at 3. rewrite !sum_of_app. unfold sum_of. cbn. lia.
Qed.

Lemma put_insert {A} j (x y : A) l : l !! j = Some x -> put j [y] l = <[j := y]> l.
Proof. intros H. apply lookup_lt_Some in H. by rewrite insert_take_drop. Qed.

Lemma put_delete {A} j (l : list A) : put j [] l = delete j l.
Proof. by rewrite delete_take_drop. Qed.

Lemma sum_of_insert {A} (f : A -> nat) l j x y :
  l !! j = Some x -> (sum_of f (<[j := y]> l) + f x = sum_of f l + f y)%nat.
Proof. intros H. rewrite <- (put_insert j x y l H), (sum_of_put f l j x [y] H). unfold sum_of. cbn. lia. Qed.

Lemma sum_of_delete {A} (f : A -> nat) l j x : l !! j = Some x -> (sum_of f (delete j l) + f x = sum_of f l)%nat.
Proof. intros H. rewrite <- put_delete, (sum_of_put f l j x [] H). unfold sum_of. cbn. lia. Qed.

Lemma Forall_put {A} (P : A -> Prop) j ys l : Forall P l -> Forall P ys -> Forall P (put j ys l).
Proof.
  intros Hl Hy. unfold put. apply Forall_app. split; [by apply Forall_take|].
  apply Forall_app. split; [done|by apply Forall_drop].
Qed.

Lemma fmap_put {A B} (f : A -> B) j ys l : f <$> put j ys l = put j (f <$> ys) (f <$> l).
Proof. unfold put. by rewrite !fmap_app, fmap_take, fmap_drop. Qed.

Lemma sum_of_pos {A} (f : A -> nat) l : (0 < sum_of f l)%nat -> exists x, x ∈ l /\ (0 < f x)%nat.
Proof.
  unfold sum_of. induction l as [|x l IH]; cbn; [lia|]. intros H. destruct (decide (0 < f x)%nat) as [Hx|Hx].
  - exists x. split; [left|done].
  - destruct IH as (y & Hy & ?); [lia|]. exists y. split; [by right|done].
Qed.

Lemma sum_of_elem {A} (f : A -> nat) l x : x ∈ l -> (f x <= sum_of f l)%nat.
Proof. intros [i Hi]%list_elem_of_lookup. pose proof (sum_of_delete f l i x Hi). lia. Qed.

Lemma sum_of_two {A} (f : A -> nat) l i j x y :
  i <> j -> l !! i = Some x -> l !! j = Some y -> (f x + f y <= sum_of f l)%nat.
Proof.
  intros Hne Hx Hy. rewrite <- (sum_of_delete f l i x Hx), Nat.add_comm.
  apply Nat.add_le_mono_r, sum_of_elem, list_elem_of_lookup.
  destruct (decide (j < i)%nat); [exists j; by rewrite list_lookup_delete_lt|].
  exists (pred j). rewrite list_lookup_delete_ge by lia. by replace (S (pred j)) with j by lia.
Qed.

Lemma sum_of_le {A} (f g : A -> nat) l : (forall x, x ∈ l -> (f x <= g x)%nat) -> (sum_of f l <= sum_of g l)%nat.
Proof.
  unfold sum_of. induction l as [|x l IH]; intros H; cbn; [lia|].
  pose proof (H x ltac:(left)). pose proof (IH ltac:(intros; apply H; by right)). lia.
Qed.

(** ** Strings *)

(** [strings.Split(s, sep)] for a separator of one character. *)
Fixpoint Split (sep : Ascii.ascii) (s : string) : list string :=
  match s with
  | EmptyString => [""]
  | String c s =>
      if decide (c = sep) then "" :: Split sep s
      else match Split sep s with
           | part :: parts => String c part :: parts
           | [] => [String c ""]
           end
  end.

Definition space : Ascii.ascii := Ascii.ascii_of_N 32.

(** Whether a character occurs. *)
Fixpoint contains (c : Ascii.ascii) (s : string) : bool :=
  match s with EmptyString => false | String c' s => bool_decide (c = c') || contains c s end.

Lemma Split_single sep s : contains sep s = false -> Split sep s = [s].
Proof.
  induction s as [|c s IH]; cbn; [done|]. intros [H1 H2]%orb_false_iff.
  rewrite decide_False by (by apply bool_decide_eq_false in H1). by rewrite IH.
Qed.

Lemma Split_app sep s t : contains sep s = false -> Split sep (s +:+ String sep t) = s :: Split sep t.
Proof.
  induction s as [|c s IH]; cbn [contains].
  - intros _. change ("" +:+ String sep t) with (String sep t). cbn [Split]. by rewrite decide_True.
  - intros [H1 H2]%orb_false_iff. apply bool_decide_eq_false in H1.
    change (String c s +:+ String sep t) with (String c (s +:+ String sep t)). cbn [Split].
    by rewrite decide_False, (IH H2).
Qed.

(** Concatenation; [String.append] does not simplify. *)
Lemma sapp_cons c s t : String c s +:+ t = String c (s +:+ t).
Proof. done. Qed.

Lemma sapp_empty s : "" +:+ s = s.
Proof. done. Qed.

Lemma sapp_assoc (s t u : string) : (s +:+ t) +:+ u = s +:+ (t +:+ u).
Proof. induction s as [|c s IH]; [done|]. by rewrite !sapp_cons, IH. Qed.

Lemma sapp_nil (s : string) : s +:+ "" = s.
Proof. induction s as [|c s IH]; [done|]. by rewrite sapp_cons, IH. Qed.

Lemma string_app_length (s t : string) : String.length (s +:+ t) = (String.length s + String.length t)%nat.
Proof. induction s as [|c s IH]; [done|]. rewrite sapp_cons. cbn [String.length]. by rewrite IH. Qed.

Ltac sapp := rewrite ?sapp_assoc, ?sapp_cons, ?sapp_empty.

(** Decimal numbers: the value of a digit, of a string of digits, and of a
    string of at least one digit. *)
Definition digit (c : Ascii.ascii) : option Z :=
  let n := Z.of_nat (Ascii.nat_of_ascii c) in
  if decide (48 <= n <= 57) then Some (n - 48) else None.

Fixpoint decimal (acc : Z) (s : string) : option Z :=
  match s with
  | EmptyString => Some acc
  | String c s => d ← digit c; decimal (10 * acc + d) s
  end.

Definition unsigned (s : string) : option Z := if decide (s = "") then None else decimal 0 s.

(** [strconv.ParseInt(s, 10, 32)], the error dropped: an optional sign, one or
    more digits, and a value of 32 bits. *)
Definition ParseInt32 (s : string) : option Z :=
  n ← match s with
      | String c s' =>
          if decide (c = Ascii.ascii_of_N 43) then unsigned s'
          else if decide (c = Ascii.ascii_of_N 45) then Z.opp <$> unsigned s'
          else unsigned s
      | EmptyString => None
      end;
  if decide (- 2 ^ 31 <= n < 2 ^ 31) then Some n else None.

Lemma ParseInt32_bounds s n : ParseInt32 s = Some n -> - 2 ^ 31 <= n < 2 ^ 31.
Proof using Type.
  unfold ParseInt32. intros H. apply bind_Some in H as (m & _ & H). case_decide; [|done]. congruence.
Qed.

(** ** Automation *)

(** Facts about the parts of programs, used by the tactics on programs. *)
Create HintDb monit discriminated.

(** Splits conjunctions and existentials of the context, substitutes, and
    simplifies equalities between constructors. *)
Ltac inv_all :=
  repeat match goal with
  | H : _ /\ _ |- _ => destruct H
  | H : exists _, _ |- _ => destruct H
  | H : False |- _ => destruct H
  | H : Some _ = Some _ |- _ => injection H as H
  | H : inl _ = inl _ |- _ => injection H as H
  | H : inr _ = inr _ |- _ => injection H as H
  | H : (_, _) = (_, _) |- _ => injection H as H
  | H : Some _ = None |- _ => discriminate H
  | H : None = Some _ |- _ => discriminate H
  | H : inl _ = inr _ |- _ => discriminate H
  | H : inr _ = inl _ |- _ => discriminate H
  end; subst.
