(* ===== verification/AppError.v ===== *)
(** * pkg/apperror and pkg/utils/errorbuilder.go: the error values of the service

    Go's [error] is an interface; the dynamic types that reach the code of
    this repository are the constructors of [error] below: the service's own
    [*apperror.Error] and the error values of the standard library, of the
    Redis client and of the Postgres driver that the code tests for with
    [errors.Is] and [errors.As]. *)

From S2P Require Import Prelude.
From stdpp Require Import gmap list strings pretty sorting.
#[local] Open Scope Z_scope.

(** ** kind.go *)

(** [type Kind string] *)
Definition Kind := string.
Definition InvalidInput : Kind := "invalid_input".
Definition AlreadyExists : Kind := "already_exist".
Definition NotFound : Kind := "not_found".
Definition Conflict : Kind := "conflict".
Definition Unauthorised : Kind := "unauthorised".
Definition Forbidden : Kind := "forbidden".
Definition RequestTimeout : Kind := "request_timeout".
Definition Internal : Kind := "internal".
Definition Dependency : Kind := "dependency_failure".
Definition DatabaseErr : Kind := "database_error".

(** ** apperror.go: the data *)

(** [apperror.Error]; [E] is the type of the wrapped error, and of the stack
    trace only its presence is kept. *)
Record Error (E : Type) := MkError {
  e_Kind : Kind;
  e_Op : string;
  e_Err : option E;
  e_Message : string;
  e_Stack : bool
}.
Arguments MkError {_}.
Arguments e_Kind {_}.
Arguments e_Op {_}.
Arguments e_Err {_}.
Arguments e_Message {_}.
Arguments e_Stack {_}.

(** Dynamic types of [error] values.  Only [AppError] is the repository's; the
    others are the standard library's ([Canceled], [DeadlineExceeded] of
    context, [DNSError], [OpError], other [NetError]s with their [Timeout()],
    [UrlError] of net/url, [Wrapped] of [fmt.Errorf("%w")], [OtherError]) and
    the sentinel values of go-redis and pgx. *)
Inductive error : Type :=
| AppError (e : Error error)
| Canceled
| DeadlineExceeded
| RedisNil
| ErrNoRows
| PgError (code : string)
| DNSError (timeout : bool)
| NetError (timeout : bool) (msg : string)
| OpError (inner : error)
| UrlError (inner : error)
| Wrapped (msg : string) (inner : error)
| OtherError (msg : string).

(** ** Standard library: errors.Unwrap, errors.Is, errors.As *)

(** The value of [Timeout()], for the types that have the method. *)
Fixpoint Timeout (e : error) : option bool :=
  match e with
  | DeadlineExceeded => Some true
  | DNSError t | NetError t _ => Some t
  | OpError i | UrlError i => Some (default false (Timeout i))
  | _ => None
  end.

(** The first error of the unwrap chain that satisfies [f]. *)
Fixpoint errors_find {A} (f : error -> option A) (e : error) : option A :=
  match f e with
  | Some a => Some a
  | None =>
    match e with
    | AppError a => match e_Err a with
                    | Some i => errors_find f i
                    | None => None
                    end
    | OpError i | UrlError i | Wrapped _ i => errors_find f i
    | _ => None
    end
  end.

Definition is_Canceled (e : error) : option unit :=
  match e with Canceled => Some tt | _ => None end.
Definition is_DeadlineExceeded (e : error) : option unit :=
  match e with DeadlineExceeded => Some tt | _ => None end.
Definition is_ErrNoRows (e : error) : option unit :=
  match e with ErrNoRows => Some tt | _ => None end.

(** [err == redis.Nil] *)
Definition is_RedisNil (e : error) : bool := match e with RedisNil => true | _ => false end.

(** [errors.Is(err, target)] for a sentinel recognised by [f]. *)
Definition errors_Is (f : error -> option unit) (e : error) : bool :=
  match errors_find f e with Some _ => true | None => false end.

Definition as_AppError (e : error) : option (Error error) :=
  errors_find (fun e => match e with AppError a => Some a | _ => None end) e.
Definition as_PgError (e : error) : option string :=
  errors_find (fun e => match e with PgError c => Some c | _ => None end) e.
Definition as_DNSError (e : error) : option bool :=
  errors_find (fun e => match e with DNSError t => Some t | _ => None end) e.
(** [errors.As(err, &netErr)]: the first error with a [Timeout] method. *)
Definition as_NetError (e : error) : option bool := errors_find Timeout e.

(** ** apperror.go: the functions *)

(** [func (e *Error) Error() string]; [show] renders the wrapped error. *)
Definition Error_string (show : error -> string) (e : Error error) : string :=
  match e_Err e with
  | Some i => if decide (e_Op e = "") then show i
              else e_Op e +:+ ": " +:+ show i
  | None => if decide (e_Op e = "") then "unknown error" else e_Op e
  end.

Definition WithMessage (e : Error error) (msg : string) : Error error :=
  MkError (e_Kind e) (e_Op e) (e_Err e) msg (e_Stack e).

Definition WithOp (e : Error error) (op : string) : Error error :=
  MkError (e_Kind e) op (e_Err e) (e_Message e) (e_Stack e).

Definition WithErr (e : Error error) (err : error) : Error error :=
  let stack :=
    if negb (e_Stack e) &&
       (bool_decide (e_Kind e = Internal) || bool_decide (e_Kind e = Dependency))
    then true else e_Stack e in
  MkError (e_Kind e) (e_Op e) (Some err) (e_Message e) stack.

Definition New (kind : Kind) (op : string) (err : option error) : Error error :=
  MkError kind op err ""
    (bool_decide (kind = Internal) || bool_decide (kind = Dependency)).

Definition IsKind (err : error) (kind : Kind) : bool :=
  match as_AppError err with
  | Some target => bool_decide (e_Kind target = kind)
  | None => false
  end.

(** ** http.go *)

Definition StatusOK : Z := 200.
Definition StatusCreated : Z := 201.
Definition StatusBadRequest : Z := 400.
Definition StatusUnauthorized : Z := 401.
Definition StatusForbidden : Z := 403.
Definition StatusNotFound : Z := 404.
Definition StatusConflict : Z := 409.
Definition StatusInternalServerError : Z := 500.
Definition StatusBadGateway : Z := 502.

Definition GetHTTPStatus (kind : Kind) : Z :=
  if decide (kind = InvalidInput) then StatusBadRequest
  else if decide (kind = NotFound) then StatusNotFound
  else if decide (kind = Conflict) then StatusConflict
  else if decide (kind = Unauthorised) then StatusUnauthorized
  else if decide (kind = Forbidden) then StatusForbidden
  else if decide (kind = Dependency) then StatusBadGateway
  else if decide (kind = Internal) then StatusInternalServerError
  else StatusInternalServerError.

Definition HTTPStatus (err : error) : Z :=
  match as_AppError err with
  | None => StatusInternalServerError
  | Some e =>
    if decide (e_Kind e = InvalidInput) then StatusBadRequest
    else if decide (e_Kind e = NotFound) then StatusNotFound
    else if decide (e_Kind e = Conflict) then StatusConflict
    else if decide (e_Kind e = Unauthorised) then StatusUnauthorized
    else if decide (e_Kind e = Forbidden) then StatusForbidden
    else if decide (e_Kind e = Dependency) then StatusBadGateway
    else if decide (e_Kind e = Internal) then StatusInternalServerError
    else StatusInternalServerError
  end.

(** ** pkg/utils/errorbuilder.go *)

(** [WrapRepoError]: the error a repository returns for a driver error (the
    log lines are not modelled). *)
Definition WrapRepoError (op : string) (err : error) (isNotFoundErrPossible : bool) : error :=
  if errors_Is is_Canceled err || errors_Is is_DeadlineExceeded err then
    AppError (MkError RequestTimeout op None "request cancelled or timed out" false)
  else if isNotFoundErrPossible && errors_Is is_ErrNoRows err then
    AppError (MkError NotFound op None "resources not found" false)
  else match as_PgError err with
  | Some _ => AppError (MkError DatabaseErr op (Some err) "internal server error" false)
  | None => AppError (MkError Internal op (Some err) "internal server error" false)
  end.

(** ** Lemmas *)

(** Induction on errors that reaches the error wrapped by an [AppError]. *)
Section error_ind'.
Context (P : error -> Prop).
Context (Happ : forall e, (forall i, e_Err e = Some i -> P i) -> P (AppError e)).
Context (Hcan : P Canceled) (Hdl : P DeadlineExceeded) (Hnil : P RedisNil)
        (Hrows : P ErrNoRows) (Hpg : forall c, P (PgError c))
        (Hdns : forall t, P (DNSError t)) (Hnet : forall t m, P (NetError t m))
        (Hop : forall i, P i -> P (OpError i)) (Hurl : forall i, P i -> P (UrlError i))
        (Hwr : forall m i, P i -> P (Wrapped m i)) (Hoth : forall m, P (OtherError m)).

Fixpoint error_ind' (e : error) : P e :=
  match e with
  | AppError a =>
      Happ a (match a with
              | MkError _ _ (Some i) _ _ => fun j H => match H in _ = o return
                  match o with Some j => P j | None => True end with eq_refl => error_ind' i end
              | MkError _ _ None _ _ => fun j H => match H in _ = o return
                  match o with Some j => P j | None => True end with eq_refl => I end
              end)
  | Canceled => Hcan
  | DeadlineExceeded => Hdl
  | RedisNil => Hnil
  | ErrNoRows => Hrows
  | PgError c => Hpg c
  | DNSError t => Hdns t
  | NetError t m => Hnet t m
  | OpError i => Hop i (error_ind' i)
  | UrlError i => Hurl i (error_ind' i)
  | Wrapped m i => Hwr m i (error_ind' i)
  | OtherError m => Hoth m
  end.
End error_ind'.

Lemma IsKind_AppError e k : IsKind (AppError e) k = bool_decide (e_Kind e = k).
Proof. done. Qed.

(** Every error of [WrapRepoError] is an [*apperror.Error] with the given
    operation, one of four kinds, and a message that is a constant of the
    code. *)
Lemma WrapRepoError_shape op err nf :
  exists e, WrapRepoError op err nf = AppError e /\ e_Op e = op /\
    (e_Kind e = RequestTimeout \/ e_Kind e = NotFound /\ nf = true \/
     e_Kind e = DatabaseErr \/ e_Kind e = Internal).
Proof.
  unfold WrapRepoError.
  destruct (_ || _); [eexists; naive_solver|].
  destruct (nf && errors_Is is_ErrNoRows err) eqn:E.
  - eexists; split; [done|]. apply andb_true_iff in E as [-> _]. naive_solver.
  - destruct (as_PgError err); eexists; naive_solver.
Qed.

Lemma WrapRepoError_found op err nf :
  errors_Is is_ErrNoRows err = false -> IsKind (WrapRepoError op err nf) NotFound = false.
Proof.
  intros H. unfold WrapRepoError. rewrite H, andb_false_r.
  destruct (_ || _); [done|]. by destruct (as_PgError err).
Qed.

(** A repository reports [NotFound] exactly for the driver's "no rows". *)
Lemma WrapRepoError_NotFound op err nf :
  errors_Is is_Canceled err = false -> errors_Is is_DeadlineExceeded err = false ->
  IsKind (WrapRepoError op err nf) NotFound = nf && errors_Is is_ErrNoRows err.
Proof.
  intros H1 H2. unfold WrapRepoError. rewrite H1, H2. cbn.
  destruct (nf && errors_Is is_ErrNoRows err); [done|]. by destruct (as_PgError err).
Qed.
