(* ===== verification/Types.v ===== *)
(** * The data the components exchange

    [uuid.UUID] is the Go type [[16]byte]: a 128-bit value.  Its [String] and
    [Parse] functions belong to github.com/google/uuid, so they are the
    operations of the class [UuidLib], with their documented behaviour as its
    laws.  The records are the structs of monitor/domain.go,
    scheduler/models.go, executor/models.go, alert/models.go and
    result/types.go, field by field; times are nanoseconds since the epoch
    and [int32]/[int64]/[int] fields are integers. *)

From S2P Require Import Prelude AppError.
From stdpp Require Import gmap list strings pretty sorting.
#[local] Open Scope Z_scope.

(** ** uuid.UUID *)

Definition UUID : Type := dsig (fun n : N => (n < 2 ^ 128)%N).

#[global] Instance UUID_eq_dec : EqDecision UUID := _.
#[global] Instance UUID_countable : Countable UUID := _.

(** [uuid.Nil] *)
Program Definition uuid_Nil : UUID := dexist 0%N _.
Next Obligation. done. Qed.

(** The functions of github.com/google/uuid that the code calls. *)
Class UuidLib := {
  uuid_String : UUID -> string;
  uuid_Parse : string -> error + UUID
}.

(** Documented: [String] gives the 36-character form
    xxxxxxxx-xxxx-xxxx-xxxx-xxxxxxxxxxxx of hexadecimal digits, and [Parse]
    decodes it. *)
Class UuidLaws (U : UuidLib) := {
  uuid_Parse_String (u : UUID) : uuid_Parse (uuid_String u) = inr u;
  uuid_String_length (u : UUID) : String.length (uuid_String u) = 36%nat;
  uuid_String_ascii (u : UUID) : Forall (fun c => Ascii.N_of_ascii c < 128)%N (String.list_ascii_of_string (uuid_String u))
}.

#[global] Instance uuid_String_inj {U : UuidLib} {UL : UuidLaws U} : Inj (=) (=) uuid_String.
Proof.
  intros u1 u2 E. pose proof (uuid_Parse_String u1) as H1.
  rewrite E, uuid_Parse_String in H1. by injection H1.
Qed.

(** ** monitor/domain.go *)

Record CreateMonitorCmd := MkCreateMonitorCmd {
  cm_UserID : UUID;
  cm_Url : string;
  cm_IntervalSec : Z;
  cm_TimeoutSec : Z;
  cm_LatencyThresholdMs : Z;
  cm_ExpectedStatus : Z;
  cm_AlertEmail : string
}.

Record Monitor := MkMonitor {
  m_ID : UUID;
  m_UserID : UUID;
  m_Url : string;
  m_AlertEmail : string;
  m_IntervalSec : Z;
  m_TimeoutSec : Z;
  m_LatencyThresholdMs : Z;
  m_ExpectedStatus : Z;
  m_Enabled : bool
}.

(** The zero value [Monitor{}]. *)
Definition Monitor_zero : Monitor := MkMonitor uuid_Nil uuid_Nil "" "" 0 0 0 0 false.

#[global] Instance Monitor_eq_dec : EqDecision Monitor.
Proof. solve_decision. Defined.

(** ** scheduler/models.go *)

Record JobPayload := MkJobPayload { job_MonitorID : UUID }.

(** ** executor/models.go *)

Record HTTPResult := MkHTTPResult {
  r_MonitorID : UUID;
  r_Success : bool;
  r_Status : Z;
  r_LatencyMs : Z;
  r_Reason : string;
  r_Retryable : bool;
  r_CheckedAt : Z;
  r_IntervalSec : Z;
  r_AlertEmail : string
}.

(** ** alert/models.go *)

Record AlertEvent := MkAlertEvent { a_MonitorID : UUID }.

#[global] Instance AlertEvent_eq_dec : EqDecision AlertEvent.
Proof. solve_decision. Defined.

(** ** result/types.go *)

Record MonitorIncident := MkMonitorIncident {
  mi_ID : UUID;
  mi_MonitorID : UUID;
  mi_StartTime : Z;
  mi_EndTime : Z;
  mi_Alerted : bool;
  mi_HttpStatus : Z;
  mi_LatencyMs : Z;
  mi_CreatedAt : Z
}.

(** Contexts ([context.Context]): the application's, cancelled by the
    termination signal, and that of an HTTP request. *)
Inductive ctx := CtxApp | CtxRequest.
