(* ===== verification/Json.v ===== *)
(** * encoding/json, as far as the code uses it

    The service stores monitors in Redis as JSON and speaks JSON over HTTP.
    encoding/json is Go's standard library (go.mod asks for 1.24): the values
    are [json]; [print] is what [json.Marshal] writes, with its escapes; the
    scanner is a state machine over bytes with the stack of open objects and
    arrays, as scanner.go has it.  Invalid UTF-8 becomes U+FFFD both
    ways.  [parse_print] is the round trip for every value. *)

From S2P Require Import Prelude AppError Types.
From stdpp Require Import gmap list strings pretty sorting.
#[local] Open Scope Z_scope.

(** ** Bytes *)

Definition code (c : Ascii.ascii) : Z := Z.of_N (Ascii.N_of_ascii c).
Definition chr (n : Z) : Ascii.ascii := Ascii.ascii_of_N (Z.to_N n).
Definition byte1 (n : Z) : string := String (chr n) "".
Definition in_range (lo hi x : Z) : bool := (lo <=? x) && (x <=? hi).

Definition quot : Z := 34.
Definition backslash : Z := 92.

(** ** unicode/utf8 *)

Definition RuneError : Z := 65533.

(** The code points that UTF-8 encodes: no surrogates. *)
Definition scalar (r : Z) : Prop := 0 <= r < 55296 \/ 57344 <= r < 1114112.

(** [utf8.AppendRune] *)
Definition utf8 (r : Z) : string :=
  if r <? 128 then byte1 r
  else if r <? 2048 then byte1 (192 + r / 64) +:+ byte1 (128 + r mod 64)
  else if r <? 65536 then
    byte1 (224 + r / 4096) +:+ byte1 (128 + r / 64 mod 64) +:+ byte1 (128 + r mod 64)
  else byte1 (240 + r / 262144) +:+ byte1 (128 + r / 4096 mod 64) +:+ byte1 (128 + r / 64 mod 64) +:+
       byte1 (128 + r mod 64).

(** [utf8.DecodeRuneInString]: the first rune and its size; [RuneError] of size
    1 when the first bytes are none. *)
Definition DecodeRune (s : string) : Z * nat :=
  let bad := (RuneError, 1%nat) in
  match s with
  | EmptyString => (RuneError, 0%nat)
  | String a s =>
    let x := code a in
    if x <? 128 then (x, 1%nat) else
    match s with
    | EmptyString => bad
    | String b s =>
      let y := code b in
      if in_range 194 223 x && in_range 128 191 y then (x mod 32 * 64 + y mod 64, 2%nat) else
      match s with
      | EmptyString => bad
      | String c s =>
        let z := code c in
        if in_range 224 239 x &&
           in_range (if x =? 224 then 160 else 128) (if x =? 237 then 159 else 191) y && in_range 128 191 z
        then (x mod 16 * 4096 + y mod 64 * 64 + z mod 64, 3%nat) else
        match s with
        | EmptyString => bad
        | String d _ =>
          let t := code d in
          if in_range 240 244 x &&
             in_range (if x =? 240 then 144 else 128) (if x =? 244 then 143 else 191) y &&
             in_range 128 191 z && in_range 128 191 t
          then (x mod 8 * 262144 + y mod 64 * 4096 + z mod 64 * 64 + t mod 64, 4%nat) else bad
        end
      end
    end
  end.

(** A text as a sequence of runes. *)
Definition utf8s (rs : list Z) : string := foldr (fun r s => utf8 r +:+ s) "" rs.
Definition valid_text (s : string) : Prop := exists rs, Forall scalar rs /\ s = utf8s rs.

(** *** Lemmas *)

Lemma code_chr n : 0 <= n < 256 -> code (chr n) = n.
Proof. intros H. unfold code, chr. rewrite Ascii.N_ascii_embedding; lia. Qed.

Lemma code_range c : 0 <= code c < 256.
Proof. unfold code. pose proof (Ascii.N_ascii_bounded c). lia. Qed.

Lemma chr_code c : chr (code c) = c.
Proof. unfold code, chr. by rewrite N2Z.id, Ascii.ascii_N_embedding. Qed.

Lemma in_range_spec lo hi x : in_range lo hi x = true <-> lo <= x <= hi.
Proof. unfold in_range. rewrite andb_true_iff, !Z.leb_le. lia. Qed.

Ltac divmod := Z.div_mod_to_equations; lia.

(** Evaluates the comparisons of integers. *)
Ltac ranges :=
  repeat match goal with
  | |- context [code (chr ?n)] => rewrite (code_chr n) by divmod
  | |- context [?x <? ?y] => destruct (Z.ltb_spec x y); try divmod; cbn match
  | |- context [in_range ?lo ?hi ?x] =>
      let E := fresh in
      first [ assert (in_range lo hi x = true) as E by (apply in_range_spec; divmod); rewrite E; clear E
            | assert (in_range lo hi x = false) as E
                by (apply not_true_is_false; rewrite in_range_spec; divmod); rewrite E; clear E ];
      cbn [andb]; cbn match
  | |- context [?x =? ?y] => destruct (Z.eqb_spec x y); cbn match
  end.

Lemma DecodeRune_utf8 r s : scalar r -> DecodeRune (utf8 r +:+ s) = (r, String.length (utf8 r)).
Proof.
  unfold scalar. intros H. assert (0 <= r < 1114112) as Hr by lia. unfold utf8, byte1. ranges; sapp; unfold DecodeRune; cbn [String.length].
  - by ranges.
  - ranges. f_equal. divmod.
  - ranges; f_equal; divmod.
  - ranges; f_equal; divmod.
Qed.

(** What is decoded can be encoded. *)
Lemma DecodeRune_scalar s : scalar (DecodeRune s).1.
Proof.
  unfold DecodeRune, scalar. repeat case_match; cbn [fst]; unfold RuneError;
    repeat match goal with
    | H : _ && _ = true |- _ => apply andb_true_iff in H as [? ?]
    | H : in_range _ _ _ = true |- _ => apply in_range_spec in H
    | H : (_ <? _) = true |- _ => apply Z.ltb_lt in H
    | H : (_ =? _) = true |- _ => apply Z.eqb_eq in H
    | H : (_ =? _) = false |- _ => apply Z.eqb_neq in H
    end; try (pose proof (code_range a)); try divmod.
Qed.

Lemma skip_app (f : nat -> string -> string) t s :
  (forall k c s, f (S k) (String c s) = f k s) -> f (String.length t) (t +:+ s) = f 0%nat s.
Proof. intros Hf. induction t as [|c t IH]; [done|]. rewrite sapp_cons. cbn [String.length]. by rewrite Hf. Qed.

(** ** Strings: escapes, in both directions *)

(** A lower-case hexadecimal digit, its value, and four of them. *)
Definition hex (d : Z) : Ascii.ascii := chr (if d <? 10 then 48 + d else 87 + d).
Definition unhex (c : Ascii.ascii) : option Z :=
  let x := code c in
  if in_range 48 57 x then Some (x - 48)
  else if in_range 97 102 x then Some (x - 87)
  else if in_range 65 70 x then Some (x - 55)
  else None.
Definition hex4 (r : Z) : string :=
  String (hex (r / 4096 mod 16)) (String (hex (r / 256 mod 16))
    (String (hex (r / 16 mod 16)) (String (hex (r mod 16)) ""))).
Definition u_escape (r : Z) : string := byte1 backslash +:+ "u" +:+ hex4 r.

(** [appendString] with [escapeHTML], for one rune. *)
Definition escape (r : Z) : string :=
  if (r =? quot) || (r =? backslash) then byte1 backslash +:+ byte1 r
  else if r =? 8 then byte1 backslash +:+ "b"
  else if r =? 12 then byte1 backslash +:+ "f"
  else if r =? 10 then byte1 backslash +:+ "n"
  else if r =? 13 then byte1 backslash +:+ "r"
  else if r =? 9 then byte1 backslash +:+ "t"
  else if (r <? 32) || (r =? 60) || (r =? 62) || (r =? 38) || (r =? 8232) || (r =? 8233) then u_escape r
  else utf8 r.

(** The loop of [appendString]: what is not UTF-8 is written as the escape of
    U+FFFD.  [skip] bytes belong to a rune that was written. *)
Fixpoint escaped (skip : nat) (s : string) : string :=
  match s with
  | EmptyString => ""
  | String c s' =>
    match skip with
    | S k => escaped k s'
    | O =>
      let '(r, n) := DecodeRune (String c s') in
      (if (r =? RuneError) && bool_decide (n = 1%nat) then u_escape RuneError else escape r)
        +:+ escaped (n - 1) s'
    end
  end.
Definition quote (s : string) : string := byte1 quot +:+ escaped 0 s +:+ byte1 quot.

(** What becomes of a text on the way: invalid bytes are replaced. *)
Fixpoint coerced (skip : nat) (s : string) : string :=
  match s with
  | EmptyString => ""
  | String c s' =>
    match skip with
    | S k => coerced k s'
    | O => let '(r, n) := DecodeRune (String c s') in utf8 r +:+ coerced (n - 1) s'
    end
  end.
Definition coerce (s : string) : string := coerced 0 s.

(** [getu4], after the backslash and the [u]. *)
Definition getu4 (s : string) : option Z :=
  match s with
  | String a (String b (String c (String d _))) =>
    a ← unhex a; b ← unhex b; c ← unhex c; d ← unhex d;
    Some (a * 4096 + b * 256 + c * 16 + d)
  | _ => None
  end.

Definition is_surrogate (r : Z) : bool := in_range 55296 57343 r.
(** [utf16.DecodeRune] *)
Definition DecodeSurrogates (r1 r2 : Z) : Z :=
  if in_range 55296 56319 r1 && in_range 56320 57343 r2
  then (r1 - 55296) * 1024 + (r2 - 56320) + 65536 else RuneError.

(** The escape [\u], of the bytes behind it: what it stands for, and how many
    bytes it has without the backslash.  A surrogate needs its other half. *)
Definition unescape_u (t : string) : string * nat :=
  match getu4 t with
  | None => ("", 0%nat)
  | Some rr =>
    if is_surrogate rr then
      match t with
      | String _ (String _ (String _ (String _ (String b (String u t'))))) =>
        match (if (code b =? backslash) && (code u =? 117) then getu4 t' else None) with
        | Some rr1 =>
          let dec := DecodeSurrogates rr rr1 in
          if dec =? RuneError then (utf8 RuneError, 5%nat) else (utf8 dec, 11%nat)
        | None => (utf8 RuneError, 5%nat)
        end
      | _ => (utf8 RuneError, 5%nat)
      end
    else (utf8 rr, 5%nat)
  end.

(** The same of every escape.  The scanner lets no others pass. *)
Definition unescape (s : string) : string * nat :=
  match s with
  | EmptyString => ("", 0%nat)
  | String e t =>
    let x := code e in
    if x =? 117 then unescape_u t
    else if x =? 98 then (byte1 8, 1%nat)
    else if x =? 102 then (byte1 12, 1%nat)
    else if x =? 110 then (byte1 10, 1%nat)
    else if x =? 114 then (byte1 13, 1%nat)
    else if x =? 116 then (byte1 9, 1%nat)
    else if bool_decide (x ∈ [34; 92; 47; 39]) then (byte1 x, 1%nat)
    else ("", 1%nat)
  end.

(** [unquoteBytes], of the bytes between the quotes. *)
Fixpoint unquoted (skip : nat) (s : string) : string :=
  match s with
  | EmptyString => ""
  | String c s' =>
    match skip with
    | S k => unquoted k s'
    | O =>
      if code c =? backslash then
        let '(out, n) := unescape s' in out +:+ unquoted n s'
      else
        let '(r, n) := DecodeRune (String c s') in utf8 r +:+ unquoted (n - 1) s'
    end
  end.

(** *** Lemmas *)

Lemma utf8_cons r : exists c t, utf8 r = String c t.
Proof. unfold utf8, byte1. repeat case_match; eauto. Qed.

Lemma coerce_nonempty s : s <> "" -> coerce s <> "".
Proof.
  destruct s as [|c s]; [done|]. intros _. unfold coerce. cbn [coerced]. destruct (DecodeRune _) as [r n].
  destruct (utf8_cons r) as (c' & t & ->). done.
Qed.

Lemma coerced_utf8 r s : scalar r -> coerced 0 (utf8 r +:+ s) = utf8 r +:+ coerced 0 s.
Proof.
  intros Hr. pose proof (DecodeRune_utf8 r s Hr) as E. destruct (utf8_cons r) as (c & t & Ec).
  rewrite Ec in E |- *. rewrite sapp_cons in E |- *. cbn [coerced]. rewrite E, Ec.
  cbn [String.length]. rewrite Nat.sub_succ, Nat.sub_0_r. by rewrite skip_app.
Qed.

Lemma coerced_utf8s rs : Forall scalar rs -> coerced 0 (utf8s rs) = utf8s rs.
Proof.
  induction 1 as [|r rs Hr _ IH]; [done|].
  change (utf8s (r :: rs)) with (utf8 r +:+ utf8s rs). by rewrite coerced_utf8, IH.
Qed.

(** Valid texts survive. *)
Lemma coerce_valid s : valid_text s -> coerce s = s.
Proof. intros (rs & Hrs & ->). by apply coerced_utf8s. Qed.

Lemma unhex_hex d : 0 <= d < 16 -> unhex (hex d) = Some d.
Proof.
  intros H. unfold unhex, hex. ranges; f_equal; lia.
Qed.

Lemma getu4_hex4 r s : 0 <= r < 65536 -> getu4 (hex4 r +:+ s) = Some r.
Proof.
  intros H. unfold hex4. sapp. unfold getu4. rewrite !unhex_hex by divmod. cbn. f_equal. divmod.
Qed.

Lemma unquoted_backslash s out t :
  unescape (t +:+ s) = (out, String.length t) ->
  unquoted 0 (byte1 backslash +:+ t +:+ s) = out +:+ unquoted 0 s.
Proof.
  intros E. unfold byte1. rewrite sapp_cons, sapp_empty. cbn [unquoted].
  rewrite code_chr by (unfold backslash; lia). rewrite Z.eqb_refl, E. by rewrite skip_app.
Qed.

Lemma unquoted_u r s :
  0 <= r < 65536 -> is_surrogate r = false ->
  unquoted 0 (u_escape r +:+ s) = utf8 r +:+ unquoted 0 s.
Proof.
  intros Hr Hs. unfold u_escape. rewrite (sapp_assoc (byte1 backslash)). apply unquoted_backslash.
  rewrite sapp_cons, sapp_empty, sapp_cons. cbn [unescape].
  match goal with |- context [code ?c =? 117] => change (code c =? 117) with true end. cbv zeta match.
  unfold unescape_u. by rewrite getu4_hex4, Hs.
Qed.

Lemma unquoted_rune r s :
  scalar r -> r <> backslash -> unquoted 0 (utf8 r +:+ s) = utf8 r +:+ unquoted 0 s.
Proof.
  intros Hr Hb. pose proof (DecodeRune_utf8 r s Hr) as E. destruct (utf8_cons r) as (c & t & Ec).
  assert (code c =? backslash = false) as Hc.
  { apply Z.eqb_neq. intros H. rewrite <- (chr_code c), H in Ec.
    unfold utf8, byte1 in Ec. unfold backslash in *. unfold scalar in Hr.
    repeat case_match; injection Ec as Ec _; apply (f_equal code) in Ec;
      rewrite !code_chr in Ec by divmod; divmod. }
  rewrite Ec in E |- *. rewrite sapp_cons in E |- *. cbn [unquoted]. rewrite Hc, E, Ec.
  cbn [String.length]. rewrite Nat.sub_succ, Nat.sub_0_r. by rewrite skip_app.
Qed.

Lemma unquoted_escape r s : scalar r -> unquoted 0 (escape r +:+ s) = utf8 r +:+ unquoted 0 s.
Proof.
  intros Hr. unfold escape.
  destruct (_ || _) eqn:E0.
  { apply orb_true_iff in E0 as [E0|E0]; apply Z.eqb_eq in E0 as ->; by apply (unquoted_backslash _ _ (byte1 _)). }
  apply orb_false_iff in E0 as [_ E0]. apply Z.eqb_neq in E0.
  destruct (r =? 8) eqn:E; [apply Z.eqb_eq in E as ->; by apply (unquoted_backslash _ _ "b")|clear E].
  destruct (r =? 12) eqn:E; [apply Z.eqb_eq in E as ->; by apply (unquoted_backslash _ _ "f")|clear E].
  destruct (r =? 10) eqn:E; [apply Z.eqb_eq in E as ->; by apply (unquoted_backslash _ _ "n")|clear E].
  destruct (r =? 13) eqn:E; [apply Z.eqb_eq in E as ->; by apply (unquoted_backslash _ _ "r")|clear E].
  destruct (r =? 9) eqn:E; [apply Z.eqb_eq in E as ->; by apply (unquoted_backslash _ _ "t")|clear E].
  destruct (_ || _) eqn:E; [|by apply unquoted_rune].
  rewrite !orb_true_iff, !Z.eqb_eq, Z.ltb_lt in E. unfold scalar in Hr.
  apply unquoted_u; [lia|]. apply not_true_is_false. unfold is_surrogate. rewrite in_range_spec. lia.
Qed.

(** What the decoder reads back from what the encoder wrote. *)
Lemma unquoted_escaped k s : unquoted 0 (escaped k s) = coerced k s.
Proof.
  revert k. induction s as [|c s IH]; intros k; [done|]. destruct k as [|k]; [|exact (IH k)].
  cbn [escaped coerced]. pose proof (DecodeRune_scalar (String c s)) as Hr.
  destruct (DecodeRune (String c s)) as [r n]. cbn [fst] in Hr.
  destruct ((r =? RuneError) && bool_decide (n = 1%nat)) eqn:E.
  - apply andb_true_iff in E as [E _]. apply Z.eqb_eq in E as ->. rewrite unquoted_u by done. by rewrite IH.
  - rewrite unquoted_escape by done. by rewrite IH.
Qed.

(** ** Values *)

(** A number is its literal; the members of an object are in their order. *)
Inductive json :=
| JNull
| JBool (b : bool)
| JNumber (lit : string)
| JString (s : string)
| JArray (l : list json)
| JObject (l : list (string * json)).

(** [strconv.AppendInt(b, z, 10)] *)
Definition JInt (z : Z) : json := JNumber (pretty z).

(** [strings.Join(l, sep)] *)
Fixpoint joined (sep : string) (l : list string) : string :=
  match l with
  | [] => ""
  | [s] => s
  | s :: l => s +:+ sep +:+ joined sep l
  end.

Fixpoint print (v : json) : string :=
  match v with
  | JNull => "null"
  | JBool b => if b then "true" else "false"
  | JNumber lit => lit
  | JString s => quote s
  | JArray l => "[" +:+ joined "," (List.map print l) +:+ "]"
  | JObject l => "{" +:+ joined "," (List.map (fun m => quote m.1 +:+ ":" +:+ print m.2) l) +:+ "}"
  end.

(** ** scanner.go *)

(** An open array with its elements, or an open object with its members and,
    once read, the next key. *)
Inductive frame :=
| FArray (done : list json)
| FObject (done : list (string * json)) (key : option string).

Inductive escape_state := NoEscape | Escape | EscapeU (missing : nat).

(** The step functions: what was read so far is with them. *)
Inductive scan :=
| BeginValue
| BeginValueOrEmpty
| BeginStringOrEmpty
| BeginString
| InString (e : escape_state) (raw : string)
| Literal (rest : string) (v : json)
| Neg (lit : string)
| Zero (lit : string)          (* state0 *)
| Digits (lit : string)        (* state1 *)
| Dot (lit : string)
| Fraction (lit : string)      (* stateDot0 *)
| Exp (lit : string)
| ExpSign (lit : string)
| ExpDigits (lit : string)     (* stateE0 *)
| EndKey
| EndValue
| EndTop (v : json).

Definition machine : Type := scan * list frame.
Definition start : machine := (BeginValue, []).

Definition is_space (c : Ascii.ascii) : bool :=
  let x := code c in (x =? 32) || (x =? 9) || (x =? 13) || (x =? 10).
Definition is_digit (c : Ascii.ascii) : bool := in_range 48 57 (code c).
Definition maxNestingDepth : Z := 10000.

(** [pushParseState] *)
Definition push (f : frame) (s : scan) (k : list frame) : option machine :=
  if Z.of_nat (length (f :: k)) <=? maxNestingDepth then Some (s, f :: k) else None.

(** A value has ended.  The scanner has no value where a key is due. *)
Definition finish (v : json) (k : list frame) : machine :=
  match k with
  | [] => (EndTop v, [])
  | FArray l :: k => (EndValue, FArray (l ++ [v]) :: k)
  | FObject l (Some key) :: k => (EndValue, FObject (l ++ [(key, v)]) None :: k)
  | FObject l None :: k => (EndValue, FObject l None :: k)
  end.

(** A string has ended: a key or a value. *)
Definition finish_string (raw : string) (k : list frame) : machine :=
  match k with
  | FObject l None :: k => (EndKey, FObject l (Some (unquoted 0 raw)) :: k)
  | _ => finish (JString (unquoted 0 raw)) k
  end.

(** [stateBeginValue] *)
Definition begin_value (c : Ascii.ascii) (k : list frame) : option machine :=
  let x := code c in
  if x =? 123 then push (FObject [] None) BeginStringOrEmpty k
  else if x =? 91 then push (FArray []) BeginValueOrEmpty k
  else if x =? quot then Some (InString NoEscape "", k)
  else if x =? 45 then Some (Neg (String c ""), k)
  else if x =? 48 then Some (Zero (String c ""), k)
  else if x =? 116 then Some (Literal "rue" (JBool true), k)
  else if x =? 102 then Some (Literal "alse" (JBool false), k)
  else if x =? 110 then Some (Literal "ull" JNull, k)
  else if is_digit c then Some (Digits (String c ""), k)
  else None.

(** [stateEndValue] and [stateEndTop] *)
Definition end_value (c : Ascii.ascii) (m : machine) : option machine :=
  let x := code c in
  match m with
  | (EndTop v, _) => if is_space c then Some m else None
  | (_, FArray l :: k) =>
    if is_space c then Some m
    else if x =? 44 then Some (BeginValue, FArray l :: k)
    else if x =? 93 then Some (finish (JArray l) k) else None
  | (_, FObject l None :: k) =>
    if is_space c then Some m
    else if x =? 44 then Some (BeginString, FObject l None :: k)
    else if x =? 125 then Some (finish (JObject l) k) else None
  | _ => None
  end.

(** The end of a number is seen at the byte behind it. *)
Definition end_number (lit : string) (c : Ascii.ascii) (k : list frame) : option machine :=
  end_value c (finish (JNumber lit) k).

Definition in_string (e : escape_state) (raw : string) (c : Ascii.ascii) (k : list frame) : option machine :=
  let x := code c in
  let raw' := raw +:+ String c "" in
  match e with
  | NoEscape =>
    if x =? quot then Some (finish_string raw k)
    else if x =? backslash then Some (InString Escape raw', k)
    else if x <? 32 then None else Some (InString NoEscape raw', k)
  | Escape =>
    if x =? 117 then Some (InString (EscapeU 4) raw', k)
    else if bool_decide (x ∈ [98; 102; 110; 114; 116; 92; 47; 34]) then Some (InString NoEscape raw', k)
    else None
  | EscapeU n =>
    match unhex c with
    | Some _ => Some (InString (match n with S (S n) => EscapeU (S n) | _ => NoEscape end) raw', k)
    | None => None
    end
  end.

Definition step (m : machine) (c : Ascii.ascii) : option machine :=
  let '(s, k) := m in
  let x := code c in
  let exp := (x =? 101) || (x =? 69) in
  match s with
  | BeginValue => if is_space c then Some m else begin_value c k
  | BeginValueOrEmpty =>
    if is_space c then Some m else if x =? 93 then end_value c m else begin_value c k
  | BeginStringOrEmpty =>
    if is_space c then Some m
    else if x =? 125 then end_value c m
    else if x =? quot then Some (InString NoEscape "", k) else None
  | BeginString =>
    if is_space c then Some m else if x =? quot then Some (InString NoEscape "", k) else None
  | InString e raw => in_string e raw c k
  | Literal rest v =>
    match rest with
    | String d rest =>
      if bool_decide (c = d) then Some (if bool_decide (rest = "") then finish v k else (Literal rest v, k))
      else None
    | EmptyString => None
    end
  | Neg lit =>
    if x =? 48 then Some (Zero (lit +:+ String c ""), k)
    else if is_digit c then Some (Digits (lit +:+ String c ""), k) else None
  | Digits lit =>
    if is_digit c then Some (Digits (lit +:+ String c ""), k)
    else if x =? 46 then Some (Dot (lit +:+ String c ""), k)
    else if exp then Some (Exp (lit +:+ String c ""), k) else end_number lit c k
  | Zero lit =>
    if x =? 46 then Some (Dot (lit +:+ String c ""), k)
    else if exp then Some (Exp (lit +:+ String c ""), k) else end_number lit c k
  | Dot lit => if is_digit c then Some (Fraction (lit +:+ String c ""), k) else None
  | Fraction lit =>
    if is_digit c then Some (Fraction (lit +:+ String c ""), k)
    else if exp then Some (Exp (lit +:+ String c ""), k) else end_number lit c k
  | Exp lit =>
    if (x =? 43) || (x =? 45) then Some (ExpSign (lit +:+ String c ""), k)
    else if is_digit c then Some (ExpDigits (lit +:+ String c ""), k) else None
  | ExpSign lit => if is_digit c then Some (ExpDigits (lit +:+ String c ""), k) else None
  | ExpDigits lit =>
    if is_digit c then Some (ExpDigits (lit +:+ String c ""), k) else end_number lit c k
  | EndKey => if is_space c then Some m else if x =? 58 then Some (BeginValue, k) else None
  | EndValue | EndTop _ => end_value c m
  end.

Fixpoint feed (m : machine) (s : string) : option machine :=
  match s with
  | EmptyString => Some m
  | String c s => m ← step m c; feed m s
  end.

(** [scanner.eof]: one more space ends a number. *)
Definition eof (m : machine) : option json :=
  match step m (chr 32) with
  | Some (EndTop v, _) => Some v
  | _ => None
  end.

(** [checkValid], and the value: all of the text is one value. *)
Definition parse (s : string) : option json := m ← feed start s; eof m.

(** [Decoder.readValue]: the first value of the text; what follows is left
    unread, whatever it is. *)
Fixpoint read_value (m : machine) (s : string) : option json :=
  match m.1 with
  | EndTop v => Some v
  | _ =>
    match s with
    | EmptyString => eof m
    | String c s =>
      match step m c with
      | Some m => read_value m s
      | None => eof m
      end
    end
  end.

Example parse_ex : parse (print (JObject [("a", JArray [JInt (-120); JNull; JBool true]); ("b<", JString "x&y")]))
  = Some (JObject [("a", JArray [JInt (-120); JNull; JBool true]); ("b<", JString "x&y")]).
Proof. vm_compute. reflexivity. Qed.

(** *** Lemmas *)

Lemma feed_app m s t : feed m (s +:+ t) = m' ← feed m s; feed m' t.
Proof.
  revert m. induction s as [|c s IH]; intros m; [done|].
  rewrite sapp_cons. cbn [feed]. destruct (step m c); [apply IH|done].
Qed.

Lemma feed_step m c s m' : step m c = Some m' -> feed m (String c s) = feed m' s.
Proof. intros H. cbn [feed]. by rewrite H. Qed.

Definition all_bytes (P : Z -> Prop) (s : string) : Prop := Forall (fun c => P (code c)) (String.list_ascii_of_string s).

Lemma all_bytes_app P s t : all_bytes P (s +:+ t) <-> all_bytes P s /\ all_bytes P t.
Proof.
  unfold all_bytes. induction s as [|c s IH]; [split; [split; [constructor|done]|tauto]|].
  rewrite sapp_cons. cbn [String.list_ascii_of_string]. rewrite !Forall_cons, IH. tauto.
Qed.

Lemma all_bytes_one P n : 0 <= n < 256 -> P n -> all_bytes P (byte1 n).
Proof. intros H HP. unfold all_bytes, byte1. cbn. by rewrite Forall_singleton, code_chr. Qed.

(** A rune that is one byte, or bytes from 128 on. *)
Lemma utf8_bytes (P : Z -> Prop) r :
  scalar r -> (r < 128 -> P r) -> (forall n, 128 <= n < 256 -> P n) -> all_bytes P (utf8 r).
Proof.
  unfold scalar, utf8. intros Hr H1 H2. repeat case_match;
    repeat match goal with
    | H : (_ <? _) = true |- _ => apply Z.ltb_lt in H
    | H : (_ <? _) = false |- _ => apply Z.ltb_ge in H
    end; rewrite ?all_bytes_app; split_and?; apply all_bytes_one; try divmod; auto; apply H2; divmod.
Qed.

Definition plain (x : Z) : Prop := 32 <= x /\ x <> quot /\ x <> backslash.

Lemma feed_plain s raw k t :
  all_bytes plain s ->
  feed (InString NoEscape raw, k) (s +:+ t) = feed (InString NoEscape (raw +:+ s), k) t.
Proof.
  revert raw. induction s as [|c s IH]; intros raw Hs; [by rewrite sapp_nil|].
  apply Forall_cons in Hs as [(H1 & H2 & H3) Hs]. rewrite sapp_cons. cbn [feed step in_string].
  rewrite (proj2 (Z.eqb_neq _ _) H2), (proj2 (Z.eqb_neq _ _) H3), (proj2 (Z.ltb_ge _ _) H1). cbn.
  rewrite IH by exact Hs. by rewrite sapp_assoc.
Qed.

Lemma feed_short e raw k t :
  code e ∈ [98; 102; 110; 114; 116; 92; 47; 34] ->
  feed (InString NoEscape raw, k) (byte1 backslash +:+ String e "" +:+ t) =
  feed (InString NoEscape (raw +:+ byte1 backslash +:+ String e ""), k) t.
Proof.
  intros He. unfold byte1. sapp. cbn [feed step in_string]. rewrite code_chr by (unfold backslash; lia).
  replace (backslash =? quot) with false by done. rewrite Z.eqb_refl. cbn [mbind option_bind step in_string].
  destruct (Z.eqb_spec (code e) 117) as [E|_];
    [rewrite E in He; apply list_elem_of_In in He; cbn in He; lia|].
  rewrite bool_decide_true by done. cbn [mbind option_bind]. by rewrite sapp_assoc.
Qed.

Lemma feed_u r raw k t :
  0 <= r < 65536 ->
  feed (InString NoEscape raw, k) (u_escape r +:+ t) = feed (InString NoEscape (raw +:+ u_escape r), k) t.
Proof.
  intros Hr. unfold u_escape, byte1, hex4. sapp. cbn [feed step in_string]. rewrite code_chr by (unfold backslash; lia).
  replace (backslash =? quot) with false by done. rewrite Z.eqb_refl. cbn [mbind option_bind step in_string].
  match goal with |- context [code ?c =? 117] => change (code c =? 117) with true end. cbn [mbind option_bind step in_string].
  do 4 (rewrite unhex_hex by divmod; cbn [mbind option_bind step in_string]).
  cbn. by sapp.
Qed.

Lemma feed_escape r raw k t :
  scalar r ->
  feed (InString NoEscape raw, k) (escape r +:+ t) = feed (InString NoEscape (raw +:+ escape r), k) t.
Proof.
  intros Hr. unfold escape.
  destruct (_ || _) eqn:E0.
  { apply orb_true_iff in E0 as [E0|E0]; apply Z.eqb_eq in E0 as ->; unfold byte1 at 2 4; rewrite sapp_assoc;
      apply feed_short; by apply (bool_decide_unpack _). }
  apply orb_false_iff in E0 as [E1 E0]. apply Z.eqb_neq in E0, E1.
  do 5 (destruct (_ =? _); [rewrite sapp_assoc; apply feed_short; by apply (bool_decide_unpack _)|]).
  destruct (_ || _) eqn:E.
  - rewrite !orb_true_iff, !Z.eqb_eq, Z.ltb_lt in E. unfold scalar in Hr. apply feed_u. lia.
  - rewrite !orb_false_iff, Z.ltb_ge in E. apply feed_plain, utf8_bytes; [done|..].
    + intros _. unfold plain. tauto.
    + intros n Hn. unfold plain, quot, backslash. lia.
Qed.

Lemma feed_escaped j s raw k t :
  feed (InString NoEscape raw, k) (escaped j s +:+ t) =
  feed (InString NoEscape (raw +:+ escaped j s), k) t.
Proof.
  revert j raw. induction s as [|c s IH]; intros j raw; [by rewrite sapp_nil|].
  destruct j as [|j]; [|exact (IH j raw)]. cbn [escaped].
  pose proof (DecodeRune_scalar (String c s)) as Hr.
  destruct (DecodeRune (String c s)) as [r n]. cbn [fst] in Hr. rewrite sapp_assoc.
  destruct (_ && _); [rewrite feed_u by done|rewrite feed_escape by done]; by rewrite IH, sapp_assoc.
Qed.

Lemma feed_quote s k t m :
  step (m, k) (chr quot) = Some (InString NoEscape "", k) ->
  feed (m, k) (quote s +:+ t) = feed (finish_string (escaped 0 s) k) t.
Proof.
  intros Hm. unfold quote, byte1. sapp. cbn [feed]. rewrite Hm. cbn [mbind option_bind].
  by rewrite feed_escaped.
Qed.

(** Integers in decimal. *)
Lemma pretty_go_spec x s :
  (0 < x)%N ->
  exists d ds, pretty_N_go x s = String d (ds +:+ s) /\ 49 <= code d <= 57 /\
    all_bytes (fun c => 48 <= c <= 57) ds /\
    forall acc, decimal acc (String d (ds +:+ s)) =
      decimal (acc * 10 ^ Z.of_nat (S (String.length ds)) + Z.of_N x) s.
Proof.
  revert s. induction (N.lt_wf_0 x) as [x _ IH]. intros s Hx. rewrite pretty_N_go_step by done.
  assert (forall y, (y < 10)%N -> code (pretty_N_char y) = 48 + Z.of_N y /\ digit (pretty_N_char y) = Some (Z.of_N y))
    as Hc.
  { intros y Hy.
    assert (y ∈ [0; 1; 2; 3; 4; 5; 6; 7; 8; 9]%N) as Hin.
    { apply list_elem_of_In. cbn. lia. }
    repeat (apply elem_of_cons in Hin as [->|Hin]; [by split|]). by apply not_elem_of_nil in Hin. }
  destruct (Hc (x mod 10)%N) as [Hcode Hdig]; [by apply N.mod_lt|].
  destruct (decide (x / 10 = 0)%N) as [E|E].
  - rewrite E, pretty_N_go_0. exists (pretty_N_char (x mod 10)), "". rewrite sapp_empty.
    assert ((x < 10)%N) as Hx10 by (by apply N.div_small_iff).
    assert ((x mod 10 = x)%N) as Em by (by apply N.mod_small).
    rewrite Em in Hcode, Hdig |- *. split_and!; [done|lia..|constructor|].
    intros acc. cbn [decimal String.length]. rewrite Hdig. cbn. f_equal. lia.
  - destruct (IH (x / 10)%N) with (s := String (pretty_N_char (x mod 10)) s) as (d & ds & E1 & Hd & Hds & Hdec).
    { apply N.div_lt; lia. } { by apply N.neq_0_lt_0. }
    exists d, (ds +:+ String (pretty_N_char (x mod 10)) ""). rewrite sapp_assoc. split_and!; [done|lia..| |].
    + apply all_bytes_app. split; [done|]. apply Forall_singleton. cbv beta. rewrite Hcode.
      assert (x mod 10 < 10)%N as Hm by (by apply N.mod_lt). revert Hm. generalize (x mod 10)%N. lia.
    + intros acc. change (String (pretty_N_char (x `mod` 10)) "" +:+ s) with (String (pretty_N_char (x `mod` 10)) s).
      rewrite Hdec. cbn [decimal]. rewrite Hdig. cbn [mbind option_bind]. f_equal.
      rewrite string_app_length. cbn [String.length]. rewrite Nat.add_1_r, !Nat2Z.inj_succ, !Z.pow_succ_r by lia.
      pose proof (N.div_mod x 10 ltac:(done)). lia.
Qed.

(** The bytes that end a number. *)
Definition delimiter (c : Ascii.ascii) : Prop := code c ∈ [44; 93; 125; 32; 10].

Lemma step_finish v k c : step (finish v k) c = end_value c (finish v k).
Proof. unfold finish. repeat case_match; done. Qed.

Lemma feed_finish v k c t : feed (finish v k) (String c t) = m ← end_value c (finish v k); feed m t.
Proof. cbn [feed]. by rewrite step_finish. Qed.

Lemma delimiter_cases c : delimiter c -> code c = 44 \/ code c = 93 \/ code c = 125 \/ code c = 32 \/ code c = 10.
Proof. intros H. apply list_elem_of_In in H. cbn in H. lia. Qed.

(** Evaluates the comparisons of a byte of known code. *)
Ltac byte E := unfold is_digit, is_space, quot, backslash, in_range; rewrite ?E; cbn -[finish feed end_value].

Lemma feed_digits lit ds c k t :
  all_bytes (fun c => 48 <= c <= 57) ds -> delimiter c ->
  feed (Digits lit, k) (ds +:+ String c t) = feed (finish (JNumber (lit +:+ ds)) k) (String c t).
Proof.
  intros Hds Hc. revert lit. induction ds as [|d ds IH]; intros lit.
  - rewrite sapp_nil, sapp_empty, feed_finish. cbn [feed step]. fold (end_number lit c k).
    by destruct (delimiter_cases c Hc) as [E|[E|[E|[E|E]]]]; byte E.
  - apply Forall_cons in Hds as [Hd Hds]. cbv beta in Hd. rewrite sapp_cons. cbn [feed step].
    unfold is_digit at 1. rewrite (proj2 (in_range_spec _ _ _) Hd). cbn [mbind option_bind].
    rewrite IH by exact Hds. by rewrite sapp_assoc.
Qed.

Lemma feed_positive (x : N) m lit k c t :
  (0 < x)%N -> delimiter c ->
  (forall d, 49 <= code d <= 57 -> step (m, k) d = Some (Digits (lit +:+ String d ""), k)) ->
  feed (m, k) (pretty_N_go x "" +:+ String c t) =
  feed (finish (JNumber (lit +:+ pretty_N_go x "")) k) (String c t).
Proof.
  intros Hx Hc Hm. destruct (pretty_go_spec x "" Hx) as (d & ds & -> & Hd & Hds & _).
  rewrite sapp_nil, sapp_cons. cbn [feed]. rewrite (Hm d Hd). cbn [mbind option_bind].
  rewrite feed_digits by done. by rewrite sapp_assoc.
Qed.

Lemma code_out c d : code c <> d -> code c =? d = false.
Proof. apply Z.eqb_neq. Qed.

Lemma begin_digit d k :
  49 <= code d <= 57 -> begin_value d k = Some (Digits (String d ""), k).
Proof.
  intros H. unfold begin_value, quot, is_digit. rewrite !code_out by lia.
  by rewrite (proj2 (in_range_spec _ _ _)) by lia.
Qed.

Lemma not_space d : 32 < code d -> is_space d = false.
Proof. intros H. unfold is_space. by rewrite !code_out by lia. Qed.

Lemma feed_int z c k t :
  delimiter c -> feed (BeginValue, k) (pretty z +:+ String c t) = feed (finish (JInt z) k) (String c t).
Proof.
  intros Hc. unfold JInt. destruct z as [|p|p].
  - change (pretty 0) with "0". rewrite sapp_cons, sapp_empty, feed_finish.
    rewrite (feed_step _ _ _ (Zero "0", k)) by done. cbn [feed step]. fold (end_number "0" c k).
    by destruct (delimiter_cases c Hc) as [E|[E|[E|[E|E]]]]; byte E.
  - change (pretty (Z.pos p)) with (pretty_N_go (N.pos p) "").
    rewrite (feed_positive _ _ "") by (try done; intros d Hd; cbn [step]; rewrite not_space, begin_digit by lia; done).
    by rewrite sapp_empty.
  - change (pretty (Z.neg p)) with ("-" +:+ pretty_N_go (N.pos p) "").
    rewrite sapp_assoc, sapp_cons, sapp_empty, (feed_step _ _ _ (Neg "-", k)) by done.
    rewrite (feed_positive _ _ "-"); [done..|]. intros d Hd. cbn [step]. unfold is_digit.
    rewrite code_out by lia. by rewrite (proj2 (in_range_spec _ _ _)) by lia.
Qed.

(** Evaluates [coerce] on literal names. *)
Ltac coerce_names :=
  repeat match goal with
  | |- context [coerce (String ?c ?s)] =>
    replace (coerce (String c s)) with (String c s) by (vm_compute; reflexivity)
  end.

(** ** Round trip *)

(** The value with its texts made valid. *)
Fixpoint coerce_json (v : json) : json :=
  match v with
  | JString s => JString (coerce s)
  | JArray l => JArray (List.map coerce_json l)
  | JObject l => JObject (List.map (fun m => (coerce m.1, coerce_json m.2)) l)
  | _ => v
  end.

Fixpoint depth (v : json) : nat :=
  match v with
  | JArray l => S (foldr Nat.max 0%nat (List.map depth l))
  | JObject l => S (foldr Nat.max 0%nat (List.map (fun m => depth m.2) l))
  | _ => 0
  end.

(** Its numbers are integers. *)
Fixpoint integral (v : json) : Prop :=
  match v with
  | JNumber lit => exists z : Z, lit = pretty z
  | JArray l => foldr and True (List.map integral l)
  | JObject l => foldr and True (List.map (fun m => integral m.2) l)
  | _ => True
  end.

Section Induction.
Variable P : json -> Prop.
Hypothesis (H1 : P JNull) (H2 : forall b, P (JBool b)) (H3 : forall lit, P (JNumber lit)).
Hypothesis (H4 : forall s, P (JString s)).
Hypothesis (H5 : forall l, Forall P l -> P (JArray l)).
Hypothesis (H6 : forall l, Forall (fun m => P m.2) l -> P (JObject l)).

Lemma json_nested_ind v : P v.
Proof.
  revert v. fix IH 1. intros [|b|lit|s|l|l]; [apply H1|apply H2|apply H3|apply H4|apply H5|apply H6].
  - induction l as [|v l IHl]; constructor; [apply IH|exact IHl].
  - induction l as [|m l IHl]; constructor; [apply IH|exact IHl].
Qed.

End Induction.

(** A value is due. *)
Definition value_place (k : list frame) : Prop := match k with FObject _ None :: _ => False | _ => True end.

Definition scans (v : json) : Prop := forall k c t,
  value_place k -> delimiter c -> Z.of_nat (length k + depth v) <= maxNestingDepth -> integral v ->
  feed (BeginValue, k) (print v +:+ String c t) = feed (finish (coerce_json v) k) (String c t).

Lemma finish_string_value raw k :
  value_place k -> finish_string raw k = finish (JString (unquoted 0 raw)) k.
Proof. destruct k as [|[l|l [key|]] k]; done. Qed.

(** The first byte of a value. *)
Lemma print_first v :
  integral v -> exists c s, print v = String c s /\ is_space c = false /\ code c <> 93.
Proof.
  destruct v as [|[]|lit|s|l|l]; cbn [print integral].
  4: { intros [z ->]. destruct z as [|p|p].
       - by do 2 eexists.
       - destruct (pretty_go_spec (N.pos p) "") as (d & ds & E & Hd & _); [done|].
         exists d, (ds +:+ ""). split; [done|]. rewrite not_space by lia. split; [done|lia].
       - by do 2 eexists. }
  all: intros _; unfold quote, byte1; sapp; do 2 eexists; split; [reflexivity|by split].
Qed.

Lemma scans_first v k t : integral v ->
  feed (BeginValueOrEmpty, k) (print v +:+ t) = feed (BeginValue, k) (print v +:+ t).
Proof.
  intros (c & s & -> & Hs & H93)%print_first. sapp. cbn [feed step].
  by rewrite Hs, (proj2 (Z.eqb_neq _ _) H93).
Qed.

Lemma begin_comma v l : joined "," (v :: l) = v +:+ match l with [] => "" | _ => "," +:+ joined "," l end.
Proof. destruct l as [|w l]; [by rewrite sapp_nil|done]. Qed.

(** After an element, the comma and the next one, or the end. *)
Lemma feed_elements l v : forall k done c t,
  Forall scans (v :: l) -> delimiter c ->
  Z.of_nat (S (length k) + foldr Nat.max 0%nat (List.map depth (v :: l))) <= maxNestingDepth ->
  foldr and True (List.map integral (v :: l)) ->
  feed (BeginValue, FArray done :: k) (joined "," (List.map print (v :: l)) +:+ "]" +:+ String c t) =
  feed (finish (JArray (done ++ List.map coerce_json (v :: l))) k) (String c t).
Proof.
  revert v. induction l as [|w l IH]; intros v k done c t [Hv Hl]%Forall_cons Hc Hd [Hi Hil].
  - cbn [List.map joined]. rewrite !sapp_cons, sapp_empty.
    rewrite Hv; [|done|by apply (bool_decide_unpack _)|cbn in Hd |- *; lia|done].
    cbn [finish]. by rewrite (feed_step _ _ _ (finish (JArray (done ++ [coerce_json v])) k)) by done.
  - change (joined "," (List.map print (v :: w :: l)))
      with (print v +:+ "," +:+ joined "," (List.map print (w :: l))).
    rewrite !sapp_assoc, (sapp_cons _ ""), sapp_empty.
    rewrite Hv; [|done|by apply (bool_decide_unpack _)|cbn in Hd |- *; lia|done]. cbn [finish].
    rewrite (feed_step _ _ _ (BeginValue, FArray (done ++ [coerce_json v]) :: k)) by done.
    rewrite IH; [|done|done|cbn in Hd |- *; lia|done]. by rewrite <- app_assoc.
Qed.

Lemma scans_array l : Forall scans l -> scans (JArray l).
Proof.
  intros Hl k c t Hk Hc Hd Hi. cbn [print coerce_json]. rewrite !sapp_assoc, sapp_cons, sapp_empty.
  cbn [depth] in Hd.
  rewrite (feed_step _ _ _ (BeginValueOrEmpty, FArray [] :: k)); cycle 1.
  { cbn [step]. change (is_space _) with false. cbn match.
    change (begin_value _ k) with (push (FArray []) BeginValueOrEmpty k).
    unfold push. by rewrite (proj2 (Z.leb_le _ _)) by (cbn [length]; lia). }
  destruct l as [|v l].
  - cbn [List.map joined]. rewrite sapp_empty, sapp_cons, sapp_empty.
    by rewrite (feed_step _ _ _ (finish (JArray []) k)).
  - pose proof Hi as [Hi1 _]. cbn [List.map]. rewrite begin_comma, sapp_assoc, scans_first by done.
    rewrite <- sapp_assoc, <- begin_comma. change (print v :: List.map print l) with (List.map print (v :: l)).
    rewrite feed_elements; [done|done|done|cbn in Hd |- *; lia|done].
Qed.

Definition print_member (m : string * json) : string := quote m.1 +:+ ":" +:+ print m.2.
Definition coerce_member (m : string * json) : string * json := (coerce m.1, coerce_json m.2).

(** One member, from where a key is due. *)
Lemma feed_member s done m k c t :
  scans m.2 -> delimiter c -> step (s, FObject done None :: k) (chr quot) = Some (InString NoEscape "", FObject done None :: k) ->
  Z.of_nat (S (length k) + depth m.2) <= maxNestingDepth -> integral m.2 ->
  feed (s, FObject done None :: k) (print_member m +:+ String c t) =
  feed (EndValue, FObject (done ++ [coerce_member m]) None :: k) (String c t).
Proof.
  intros Hm Hc Hs Hd Hi. unfold print_member. rewrite !sapp_assoc, feed_quote by done.
  cbn [finish_string]. rewrite unquoted_escaped, sapp_cons, sapp_empty.
  rewrite (feed_step _ _ _ (BeginValue, FObject done (Some (coerced 0 m.1)) :: k)) by done.
  by rewrite Hm by done.
Qed.

Lemma feed_members l m : forall s k done c t,
  Forall (fun m => scans m.2) (m :: l) -> delimiter c ->
  step (s, FObject done None :: k) (chr quot) = Some (InString NoEscape "", FObject done None :: k) ->
  Z.of_nat (S (length k) + foldr Nat.max 0%nat (List.map (fun m => depth m.2) (m :: l))) <= maxNestingDepth ->
  foldr and True (List.map (fun m => integral m.2) (m :: l)) ->
  feed (s, FObject done None :: k) (joined "," (List.map print_member (m :: l)) +:+ "}" +:+ String c t) =
  feed (finish (JObject (done ++ List.map coerce_member (m :: l))) k) (String c t).
Proof.
  revert m. induction l as [|w l IH]; intros m s k done c t [Hm Hl]%Forall_cons Hc Hs Hd [Hi Hil].
  - cbn [List.map joined]. rewrite (sapp_cons _ ""), sapp_empty.
    rewrite feed_member; [|done|by apply (bool_decide_unpack _)|done|cbn in Hd |- *; lia|done].
    by rewrite (feed_step _ _ _ (finish (JObject (done ++ [coerce_member m])) k)) by done.
  - change (joined "," (List.map print_member (m :: w :: l)))
      with (print_member m +:+ "," +:+ joined "," (List.map print_member (w :: l))).
    rewrite !sapp_assoc, (sapp_cons _ ""), sapp_empty.
    rewrite feed_member; [|done|by apply (bool_decide_unpack _)|done|cbn in Hd |- *; lia|done].
    rewrite (feed_step _ _ _ (BeginString, FObject (done ++ [coerce_member m]) None :: k)) by done.
    rewrite IH; [|done|done|done|cbn in Hd |- *; lia|done]. by rewrite <- app_assoc.
Qed.

Lemma scans_object l : Forall (fun m => scans m.2) l -> scans (JObject l).
Proof.
  intros Hl k c t Hk Hc Hd Hi. cbn [print coerce_json].
  change (fun m : string * json => quote m.1 +:+ ":" +:+ print m.2) with print_member.
  rewrite !sapp_assoc, sapp_cons, sapp_empty. cbn [depth] in Hd.
  rewrite (feed_step _ _ _ (BeginStringOrEmpty, FObject [] None :: k)); cycle 1.
  { cbn [step]. change (is_space _) with false. cbn match.
    change (begin_value _ k) with (push (FObject [] None) BeginStringOrEmpty k).
    unfold push. by rewrite (proj2 (Z.leb_le _ _)) by (cbn [length]; lia). }
  destruct l as [|m l].
  - cbn [List.map joined]. rewrite sapp_empty, sapp_cons, sapp_empty.
    by rewrite (feed_step _ _ _ (finish (JObject []) k)).
  - rewrite feed_members; [done|done|done|done|cbn in Hd |- *; lia|done].
Qed.

Lemma scans_all v : scans v.
Proof.
  induction v as [|b|lit|s|l Hl|l Hl] using json_nested_ind; [..|by apply scans_array|by apply scans_object];
    intros k c t Hk Hc Hd Hi; cbn [print coerce_json].
  - done.
  - by destruct b.
  - destruct Hi as [z ->]. by apply feed_int.
  - rewrite feed_quote by done. by rewrite finish_string_value, unquoted_escaped.
Qed.

(** What is printed is read back, its texts made valid: by [json.Unmarshal], *)
Lemma parse_print v :
  integral v -> Z.of_nat (depth v) <= maxNestingDepth -> parse (print v) = Some (coerce_json v).
Proof.
  intros Hi Hd.
  assert (feed start (print v +:+ String (chr 32) "") = Some (EndTop (coerce_json v), [])) as E.
  { unfold start. rewrite scans_all; [done|done| |done|done]. by apply (bool_decide_unpack _). }
  rewrite feed_app in E. unfold parse. destruct (feed start (print v)) as [m|]; [|done].
  cbn [mbind option_bind feed] in E |- *. unfold eof. destruct (step m (chr 32)); [|done].
  by injection E as ->.
Qed.

(** The same with the new line that an encoder of a stream adds. *)
Lemma parse_print_line v :
  integral v -> Z.of_nat (depth v) <= maxNestingDepth -> parse (print v +:+ byte1 10) = Some (coerce_json v).
Proof.
  intros Hi Hd. unfold parse, start, byte1. rewrite scans_all; [done|done| |done|done].
  by apply (bool_decide_unpack _).
Qed.

Lemma feed_top v k s m : feed (EndTop v, k) s = Some m -> m = (EndTop v, k).
Proof.
  induction s as [|c s IH]; cbn [feed step end_value]; [congruence|].
  destruct (is_space c); [exact IH|done].
Qed.

(** and, as all that [json.Unmarshal] reads, by the decoder of a stream. *)
Lemma read_value_feed s m v : (m ← feed m s; eof m) = Some v -> read_value m s = Some v.
Proof.
  revert m. induction s as [|c s IH]; intros [st k] H.
  - destruct st; exact H.
  - destruct st as [| | | | | | | | | | | | | | | |w] eqn:Est.
    17: { destruct (feed _ _) as [m|] eqn:E; [|done]. apply feed_top in E as ->. exact H. }
    all: rewrite <- Est in *; cbn [feed] in H; cbn [read_value fst]; subst st;
      destruct (step _ c) as [m|]; [|done]; by apply IH.
Qed.

Lemma read_value_parse s v : parse s = Some v -> read_value start s = Some v.
Proof. apply read_value_feed. Qed.

(** ** Whatever the bytes are, the texts that are read are valid *)

Lemma valid_empty : valid_text "".
Proof. by exists []. Qed.

Lemma valid_app s t : valid_text s -> valid_text t -> valid_text (s +:+ t).
Proof.
  intros (rs & Hrs & ->) (us & Hus & ->). exists (rs ++ us). split; [by apply Forall_app|].
  clear. induction rs as [|r rs IH]; [done|]. cbn [utf8s foldr app] in *. rewrite sapp_assoc. by f_equal.
Qed.

Lemma valid_utf8 r : scalar r -> valid_text (utf8 r).
Proof. intros Hr. exists [r]. split; [by constructor|]. cbn. by rewrite sapp_nil. Qed.

Lemma valid_one n : 0 <= n < 128 -> valid_text (byte1 n).
Proof.
  intros H. replace (byte1 n) with (utf8 n) by (unfold utf8; by rewrite (proj2 (Z.ltb_lt _ _)) by lia).
  apply valid_utf8. unfold scalar. lia.
Qed.

Lemma unhex_range c r : unhex c = Some r -> 0 <= r < 16.
Proof.
  unfold unhex. intros H. repeat case_match; try done; injection H as <-;
    repeat match goal with H : in_range _ _ _ = true |- _ => apply in_range_spec in H end; lia.
Qed.

Lemma getu4_range t r : getu4 t = Some r -> 0 <= r < 65536.
Proof.
  intros H. unfold getu4 in H. destruct t as [|a [|b [|c [|d t]]]]; try done.
  repeat (apply bind_Some in H as (? & ?%unhex_range & H)). injection H as <-. lia.
Qed.

Lemma valid_unescape_u t : valid_text (unescape_u t).1.
Proof.
  assert (valid_text (utf8 RuneError)) as He by (apply valid_utf8; right; done).
  unfold unescape_u. destruct (getu4 t) as [r|] eqn:E; [apply getu4_range in E|apply valid_empty].
  destruct (is_surrogate r) eqn:Es; cycle 1.
  { apply not_true_iff_false in Es. unfold is_surrogate in Es. rewrite in_range_spec in Es.
    apply valid_utf8. unfold scalar. lia. }
  destruct t as [|? [|? [|? [|? [|b [|u t]]]]]]; try exact He.
  destruct (if _ && _ then _ else _) as [r1|]; [|exact He]. cbv zeta.
  destruct (Z.eqb_spec (DecodeSurrogates r r1) RuneError) as [|Hd]; [exact He|]. apply valid_utf8.
  unfold DecodeSurrogates in *. destruct (_ && _) eqn:Eb; [|done].
  apply andb_true_iff in Eb as [H1%in_range_spec H2%in_range_spec]. unfold scalar. lia.
Qed.

Lemma valid_unescape s : valid_text (unescape s).1.
Proof.
  unfold unescape. destruct s as [|e t]; [apply valid_empty|]. cbv zeta.
  destruct (_ =? 117); [apply valid_unescape_u|].
  do 5 (destruct (_ =? _); [by apply valid_one|]).
  case_bool_decide as H; [|apply valid_empty]. apply valid_one. apply list_elem_of_In in H. cbn in H. lia.
Qed.

Lemma valid_unquoted k s : valid_text (unquoted k s).
Proof.
  revert k. induction s as [|c s IH]; intros k; [apply valid_empty|].
  destruct k as [|k]; cbn [unquoted]; [|apply IH]. destruct (code c =? backslash).
  - pose proof (valid_unescape s) as Hv. destruct (unescape s) as [o n]. by apply valid_app.
  - pose proof (DecodeRune_scalar (String c s)) as Hr. destruct (DecodeRune (String c s)) as [r n].
    apply valid_app; [by apply valid_utf8|apply IH].
Qed.

(** All the texts of a value, and of what the scanner has read. *)
Fixpoint valid_json (v : json) : Prop :=
  match v with
  | JString s => valid_text s
  | JArray l => foldr and True (List.map valid_json l)
  | JObject l => foldr and True (List.map (fun m => valid_text m.1 /\ valid_json m.2) l)
  | _ => True
  end.

Definition valid_frame (f : frame) : Prop :=
  match f with
  | FArray l => valid_json (JArray l)
  | FObject l key => valid_json (JObject l) /\ valid_text (default "" key)
  end.
Definition valid_machine (m : machine) : Prop :=
  match m.1 with EndTop v | Literal _ v => valid_json v | _ => True end /\ Forall valid_frame m.2.

Lemma foldr_and_app l1 l2 : foldr and True (l1 ++ l2) <-> foldr and True l1 /\ foldr and True l2.
Proof. induction l1 as [|P l1 IH]; cbn [foldr app]; [tauto|]. rewrite IH. tauto. Qed.

Lemma valid_finish v k : valid_json v -> Forall valid_frame k -> valid_machine (finish v k).
Proof.
  intros Hv Hk. pose proof valid_empty as He. destruct Hk as [|f k Hf Hk]; [by split|].
  destruct f as [l|l [key|]]; cbn [finish]; split; try exact I; constructor; try done; cbn in *;
    rewrite ?map_app, foldr_and_app; cbn; tauto.
Qed.

Lemma valid_finish_string raw k : Forall valid_frame k -> valid_machine (finish_string raw k).
Proof.
  intros Hk. assert (valid_machine (finish (JString (unquoted 0 raw)) k)) as Hf.
  { apply valid_finish; [apply valid_unquoted|done]. }
  destruct Hk as [|[l|l [key|]] k Hl Hk]; try exact Hf.
  split; [done|]. constructor; [|done]. split; [apply Hl|apply valid_unquoted].
Qed.

Lemma valid_end_value c m m' : valid_machine m -> end_value c m = Some m' -> valid_machine m'.
Proof.
  destruct m as [s k]. intros Hm H. pose proof Hm as [_ Hk]. cbn [snd] in Hk.
  assert (forall v, valid_json v -> forall k', Forall valid_frame k' -> valid_machine (finish v k')) as Hf
    by (intros; by apply valid_finish).
  unfold end_value in H. destruct Hk as [|[l|l [key|]] k Hl Hk].
  all: destruct s; try done.
  all: repeat case_match; try done; injection H as <-; try done.
  all: first [by apply Hf; [apply Hl|] | by apply Hf | split; [done|by constructor]].
Qed.

Lemma valid_push f s k m : valid_frame f -> valid_machine (s, []) ->
  Forall valid_frame k -> push f s k = Some m -> valid_machine m.
Proof.
  unfold push. intros Hf [Hs _] Hk H. destruct (_ <=? _); [|done]. injection H as <-.
  split; [exact Hs|by constructor].
Qed.

Lemma valid_begin_value c k m : Forall valid_frame k -> begin_value c k = Some m -> valid_machine m.
Proof.
  intros Hk. unfold begin_value.
  destruct (_ =? 123); [apply valid_push; [split; [done|apply valid_empty]|by split|done]|].
  destruct (_ =? 91); [apply valid_push; [done|by split|done]|].
  do 6 (destruct (_ =? _); [by intros [= <-]|]). by destruct (is_digit c); [intros [= <-]|].
Qed.

Lemma valid_in_string e raw c k m : Forall valid_frame k -> in_string e raw c k = Some m -> valid_machine m.
Proof.
  intros Hk. unfold in_string. intros H. cbv zeta in H. destruct e; repeat case_match; try done; injection H as <-;
    first [by apply valid_finish_string | by split].
Qed.

Lemma valid_step m c m' : valid_machine m -> step m c = Some m' -> valid_machine m'.
Proof.
  destruct m as [s k]. intros Hm H. pose proof Hm as [Hs Hk]. cbn [fst snd] in Hs, Hk.
  assert (forall lit, end_number lit c k = Some m' -> valid_machine m') as Hn.
  { intros lit. by apply valid_end_value, valid_finish. }
  destruct s; cbn [step] in H;
    try (by eapply valid_in_string); try (by eapply valid_end_value);
    repeat match type of H with
    | (if ?b then _ else _) = _ => destruct b
    | match ?x with _ => _ end = _ => destruct x
    end; try done;
    try (by eapply Hn); try (by eapply valid_begin_value); try (by eapply valid_end_value);
    injection H as <-; try done; case_bool_decide; [by apply valid_finish|done].
Qed.

Lemma valid_feed s m m' : valid_machine m -> feed m s = Some m' -> valid_machine m'.
Proof.
  revert m. induction s as [|c s IH]; intros m Hm; cbn [feed]; [by intros [= <-]|].
  destruct (step m c) as [m1|] eqn:E; [|done]. apply IH. by eapply valid_step.
Qed.

Lemma valid_eof m v : valid_machine m -> eof m = Some v -> valid_json v.
Proof.
  unfold eof. intros Hm H. destruct (step m (chr 32)) as [[s k]|] eqn:E; [|done].
  apply valid_step in E as [Hv _]; [|done]. destruct s; try done. by injection H as <-.
Qed.

Lemma valid_start : valid_machine start.
Proof. by split. Qed.

Lemma valid_parse s v : parse s = Some v -> valid_json v.
Proof.
  unfold parse. destruct (feed start s) as [m|] eqn:E; [|done]. cbn. apply valid_eof.
  by eapply valid_feed, E.
Qed.

Lemma valid_read_value s v : read_value start s = Some v -> valid_json v.
Proof.
  generalize valid_start. generalize start as m. induction s as [|c s IH]; intros [st k] Hm H.
  - destruct st; by eapply valid_eof.
  - assert (valid_machine (st, k) -> match step (st, k) c with Some m => read_value m s | None => eof (st, k) end = Some v
      -> valid_json v) as Hs.
    { intros _ Hr. destruct (step (st, k) c) as [m|] eqn:E; [|by eapply valid_eof].
      eapply IH; [|exact Hr]. by eapply valid_step. }
    destruct st; try (by apply Hs). cbn in H. injection H as <-. apply Hm.
Qed.

Lemma valid_ascii s : Forall (fun c => Ascii.N_of_ascii c < 128)%N (String.list_ascii_of_string s) -> valid_text s.
Proof.
  induction s as [|c s IH]; intros H; [apply valid_empty|]. apply Forall_cons in H as [Hc Hs].
  apply (valid_app (String c "")); [|by apply IH]. rewrite <- (chr_code c). apply valid_one.
  pose proof (code_range c). unfold code in *. lia.
Qed.

Lemma uuid_String_valid {U : UuidLib} {UL : UuidLaws U} u : coerce (uuid_String u) = uuid_String u.
Proof. apply coerce_valid, valid_ascii, uuid_String_ascii. Qed.

(** ** What is printed is safe inside HTML *)

(** No control character, and none of the three that open a tag or an entity. *)
Definition html_safe (x : Z) : bool := (32 <=? x) && negb (bool_decide (x ∈ [60; 62; 38])).
Definition safe_text (s : string) : Prop := all_bytes (fun x => html_safe x = true) s.

#[global] Instance safe_text_dec s : Decision (safe_text s).
Proof. apply Forall_dec; intros c. apply _. Defined.

Ltac literal := apply (bool_decide_unpack _); vm_compute; exact I.

Lemma html_safe_intro x : 32 <= x -> x <> 60 -> x <> 62 -> x <> 38 -> html_safe x = true.
Proof.
  intros H H1 H2 H3. unfold html_safe. rewrite (proj2 (Z.leb_le _ _)) by done. rewrite bool_decide_false; [done|].
  intros Hin%list_elem_of_In. cbn in Hin. lia.
Qed.

Lemma safe_app s t : safe_text s -> safe_text t -> safe_text (s +:+ t).
Proof. intros Hs Ht. by apply all_bytes_app. Qed.

Lemma safe_cons c s : html_safe (code c) = true -> safe_text s -> safe_text (String c s).
Proof. intros Hc Hs. by constructor. Qed.

Lemma safe_hex d : 0 <= d < 16 -> html_safe (code (hex d)) = true.
Proof.
  intros H. unfold hex. destruct (Z.ltb_spec d 10); rewrite code_chr by lia; apply html_safe_intro; lia.
Qed.

Lemma safe_u_escape r : safe_text (u_escape r).
Proof.
  unfold u_escape. apply safe_app; [literal|]. apply safe_app; [literal|]. unfold hex4.
  repeat (apply safe_cons; [apply safe_hex; apply Z.mod_pos_bound; lia|]). constructor.
Qed.

Lemma safe_escape r : scalar r -> safe_text (escape r).
Proof.
  intros Hr. unfold escape.
  destruct (_ || _) eqn:E0.
  { apply orb_true_iff in E0 as [E0|E0]; apply Z.eqb_eq in E0 as ->; literal. }
  clear E0. do 5 (destruct (_ =? _); [literal|]).
  destruct (_ || _) eqn:E; [apply safe_u_escape|].
  rewrite !orb_false_iff, !Z.eqb_neq, Z.ltb_ge in E. apply utf8_bytes; [done|..].
  - intros _. apply html_safe_intro; lia.
  - intros n Hn. apply html_safe_intro; lia.
Qed.

Lemma safe_escaped k s : safe_text (escaped k s).
Proof.
  revert k. induction s as [|c s IH]; intros k; [constructor|]. destruct k as [|k]; [|apply IH].
  cbn [escaped]. pose proof (DecodeRune_scalar (String c s)) as Hr.
  destruct (DecodeRune (String c s)) as [r n]. apply safe_app; [|apply IH].
  destruct (_ && _); [apply safe_u_escape|by apply safe_escape].
Qed.

Lemma safe_quote s : safe_text (quote s).
Proof. unfold quote. apply safe_app; [literal|]. apply safe_app; [apply safe_escaped|literal]. Qed.

Lemma safe_int (z : Z) : safe_text (pretty z).
Proof.
  assert (forall p, safe_text (pretty_N_go (N.pos p) "")) as Hp.
  { intros p. destruct (pretty_go_spec (N.pos p) "") as (d & ds & -> & Hd & Hds & _); [done|].
    rewrite sapp_nil. assert (forall c, 48 <= c <= 57 -> html_safe c = true) as Hs.
    { intros c Hc. apply html_safe_intro; lia. }
    apply safe_cons; [apply Hs; lia|]. eapply Forall_impl; [exact Hds|]. intros c. apply Hs. }
  destruct z as [|p|p]; [literal|apply Hp|]. change (pretty (Z.neg p)) with ("-" +:+ pretty_N_go (N.pos p) "").
  apply safe_app; [literal|apply Hp].
Qed.

Lemma safe_joined l : Forall safe_text l -> safe_text (joined "," l).
Proof.
  induction 1 as [|s l Hs Hl IH]; [constructor|]. rewrite begin_comma. apply safe_app; [done|].
  destruct l; [constructor|]. apply safe_app; [literal|exact IH].
Qed.

Lemma safe_print v : integral v -> safe_text (print v).
Proof.
  induction v as [|b|lit|s|l IH|l IH] using json_nested_ind; cbn [print integral].
  - intros _. literal.
  - intros _. destruct b; literal.
  - intros [z ->]. apply safe_int.
  - intros _. apply safe_quote.
  - intros Hi. apply safe_app; [literal|]. apply safe_app; [|literal]. apply safe_joined.
    induction IH as [|v l Hv _ IHl]; [constructor|]. destruct Hi as [H1 H2]. constructor; auto.
  - intros Hi. apply safe_app; [literal|]. apply safe_app; [|literal]. apply safe_joined.
    induction IH as [|v l Hv _ IHl]; [constructor|]. destruct Hi as [H1 H2]. constructor; [|by apply IHl].
    apply safe_app; [apply safe_quote|]. apply safe_app; [literal|auto].
Qed.
