(* ===== verification/Decode.v ===== *)
(** * encoding/json: values into structs

    decode.go of the standard library: the members of an object are stored in
    the fields of a struct one after the other.  A field is its JSON name and
    how a value is stored in it; the tables of fields are next to the structs.
    The code asks only whether decoding succeeded, so that the errors keep
    their kind and not their text. *)

From S2P Require Import Prelude AppError Types Json.
From stdpp Require Import gmap list strings pretty sorting.
#[local] Open Scope Z_scope.

(** ** Names *)

(** [foldName]: upper case; of the other runes only U+017F and U+212A fold into
    ASCII, of which the names of all fields are. *)
Definition foldRune (r : Z) : Z :=
  if in_range 97 122 r then r - 32 else if r =? 383 then 83 else if r =? 8490 then 75 else r.

Fixpoint folded (skip : nat) (s : string) : string :=
  match s with
  | EmptyString => ""
  | String c s' =>
    match skip with
    | S k => folded k s'
    | O => let '(r, n) := DecodeRune (String c s') in utf8 (foldRune r) +:+ folded (n - 1) s'
    end
  end.
Definition foldName (s : string) : string := folded 0 s.

(** ** Fields *)

Definition UnmarshalTypeError : error := OtherError "json: cannot unmarshal".
Definition SyntaxError : error := OtherError "invalid character".

(** A value stored; one that does not fit, which is remembered while decoding
    goes on; or the error of [UnmarshalText], which ends it. *)
Inductive stored (A : Type) := Stored (a : A) | Mismatch | Refused (e : error).
Arguments Stored {_}.
Arguments Mismatch {_}.
Arguments Refused {_}.

Section Structs.
Context {A : Type}.

Definition store : Type := json -> A -> stored A.

(** [literalStore], by the type of the field; [null] leaves it as it is. *)
Definition store_string (set : string -> A -> A) : store := fun v a =>
  match v with JString s => Stored (set s a) | JNull => Stored a | _ => Mismatch end.
Definition store_bool (set : bool -> A -> A) : store := fun v a =>
  match v with JBool b => Stored (set b a) | JNull => Stored a | _ => Mismatch end.
Definition store_int32 (set : Z -> A -> A) : store := fun v a =>
  match v with
  | JNumber lit => match ParseInt32 lit with Some n => Stored (set n a) | None => Mismatch end
  | JNull => Stored a
  | _ => Mismatch
  end.
(** A type with [UnmarshalText]. *)
Definition store_text {T} (UnmarshalText : string -> error + T) (set : T -> A -> A) : store := fun v a =>
  match v with
  | JString s => match UnmarshalText s with inr t => Stored (set t a) | inl e => Refused e end
  | JNull => Stored a
  | _ => Mismatch
  end.

(** The field of a name: exactly, or up to case. *)
Fixpoint find_field (same : string -> bool) (fields : list (string * store)) : option store :=
  match fields with
  | [] => None
  | (name, st) :: fields => if same name then Some st else find_field same fields
  end.
Definition field_of (fields : list (string * store)) (key : string) : option store :=
  match find_field (fun name => bool_decide (name = key)) fields with
  | Some st => Some st
  | None => find_field (fun name => bool_decide (foldName name = foldName key)) fields
  end.

(** The members in their order; the first error that was saved is returned at
    the end. *)
Fixpoint decode_members (fields : list (string * store)) (ms : list (string * json)) (a : A)
    (saved : option error) : error + A :=
  match ms with
  | [] => match saved with Some e => inl e | None => inr a end
  | (key, v) :: ms =>
    match field_of fields key with
    | None => decode_members fields ms a saved
    | Some st =>
      match st v a with
      | Stored a => decode_members fields ms a saved
      | Mismatch => decode_members fields ms a (Some (default UnmarshalTypeError saved))
      | Refused e => inl e
      end
    end
  end.

Definition decode_struct (fields : list (string * store)) (a : A) (v : json) : error + A :=
  match v with
  | JObject ms => decode_members fields ms a None
  | JNull => inr a
  | _ => inl UnmarshalTypeError
  end.

(** [json.Unmarshal(data, &a)] and [json.NewDecoder(r).Decode(&a)] *)
Definition Unmarshal (fields : list (string * store)) (a : A) (data : string) : error + A :=
  match parse data with
  | None => inl SyntaxError
  | Some v => decode_struct fields a v
  end.
Definition Decode (fields : list (string * store)) (a : A) (data : string) : error + A :=
  match read_value start data with
  | None => inl SyntaxError
  | Some v => decode_struct fields a v
  end.

(** ** Lemmas *)

(** What every stored value keeps, the struct keeps. *)
Definition store_keeps (P : A -> Prop) (st : store) : Prop :=
  forall v a a', valid_json v -> P a -> st v a = Stored a' -> P a'.

Lemma keeps_string (P : A -> Prop) set :
  (forall s a, valid_text s -> P a -> P (set s a)) -> store_keeps P (store_string set).
Proof. intros H v a a' Hv Ha E. destruct v; try done; injection E as <-; auto. Qed.

Lemma keeps_bool (P : A -> Prop) set : (forall b a, P a -> P (set b a)) -> store_keeps P (store_bool set).
Proof. intros H v a a' Hv Ha E. destruct v; try done; injection E as <-; auto. Qed.

Lemma keeps_int32 (P : A -> Prop) set :
  (forall n a, is_int32 n -> P a -> P (set n a)) -> store_keeps P (store_int32 set).
Proof.
  intros H v a a' Hv Ha E. destruct v; try done; cbn in E.
  - by injection E as <-.
  - destruct (ParseInt32 lit) as [n|] eqn:En; [|done]. injection E as <-. apply H; [|done].
    by eapply ParseInt32_bounds.
Qed.

Lemma find_field_keeps P same fields st :
  Forall (fun f => store_keeps P f.2) fields -> find_field same fields = Some st -> store_keeps P st.
Proof.
  induction 1 as [|[name st'] fields Hf _ IH]; cbn; [done|]. destruct (same name); [by intros [= <-]|exact IH].
Qed.

Lemma field_of_keeps P fields key st :
  Forall (fun f => store_keeps P f.2) fields -> field_of fields key = Some st -> store_keeps P st.
Proof.
  unfold field_of. intros Hf. destruct (find_field _ fields) eqn:E.
  - intros [= <-]. by eapply find_field_keeps.
  - intros H. by eapply find_field_keeps.
Qed.

Lemma decode_struct_keeps P fields a v a' :
  Forall (fun f => store_keeps P f.2) fields -> valid_json v -> P a ->
  decode_struct fields a v = inr a' -> P a'.
Proof.
  intros Hf. unfold decode_struct. destruct v as [| | | | |ms]; try done; [by intros _ Ha [= <-]|].
  cbn [valid_json]. generalize (@None error) as saved. revert a.
  induction ms as [|[key v] ms IH]; intros a saved Hv Ha H; cbn [decode_members] in H.
  - destruct saved; [done|]. by injection H as <-.
  - destruct Hv as [[_ Hv] Hms]. destruct (field_of fields key) as [st|] eqn:E; [|by eapply IH].
    destruct (st v a) as [a1| |e] eqn:Es; [|by eapply IH|done].
    eapply IH; [exact Hms| |exact H]. eapply field_of_keeps; eauto.
Qed.

Lemma Decode_keeps P fields a data a' :
  Forall (fun f => store_keeps P f.2) fields -> P a -> Decode fields a data = inr a' -> P a'.
Proof.
  unfold Decode. intros Hf Ha. destruct (read_value start data) as [v|] eqn:E; [|done].
  apply decode_struct_keeps; [done|by eapply valid_read_value|done].
Qed.

(** A member that fits its field. *)
Lemma decode_member fields key v ms a saved st a' :
  field_of fields key = Some st -> st v a = Stored a' ->
  decode_members fields ((key, v) :: ms) a saved = decode_members fields ms a' saved.
Proof. intros H1 H2. cbn [decode_members]. by rewrite H1, H2. Qed.

(** What [json.Unmarshal] accepts, the decoder of a stream accepts. *)
Lemma Decode_Unmarshal fields a data a' : Unmarshal fields a data = inr a' -> Decode fields a data = inr a'.
Proof.
  unfold Unmarshal, Decode. destruct (parse data) as [v|] eqn:E; [|done]. by rewrite (read_value_parse _ _ E).
Qed.

End Structs.
Arguments store : clear implicits.

(** Integers are read back. *)
Lemma unsigned_pretty x s : (0 < x)%N -> pretty_N_go x "" = s -> unsigned s = Some (Z.of_N x).
Proof.
  intros Hx <-. destruct (pretty_go_spec x "" Hx) as (d & ds & E & _ & _ & Hdec).
  unfold unsigned. rewrite E, decide_False by done. by rewrite Hdec.
Qed.

Lemma ParseInt32_pretty z : is_int32 z -> ParseInt32 (pretty z) = Some z.
Proof.
  intros Hz. unfold ParseInt32. destruct z as [|p|p].
  - done.
  - change (pretty (Z.pos p)) with (pretty_N_go (N.pos p) "").
    destruct (pretty_go_spec (N.pos p) "") as (d & ds & E & Hd & _); [done|].
    pose proof (unsigned_pretty (N.pos p) _ eq_refl E) as Hu. rewrite E, sapp_nil in *.
    assert (forall n, code d <> Z.of_N n -> (n < 256)%N -> d <> Ascii.ascii_of_N n) as Hn.
    { intros n H Hn ->. apply H. unfold code. by rewrite Ascii.N_ascii_embedding. }
    cbn match. rewrite !decide_False by (apply Hn; [lia|done]). rewrite Hu. cbn. by rewrite decide_True.
  - change (pretty (Z.neg p)) with (String (Ascii.ascii_of_N 45) (pretty_N_go (N.pos p) "")).
    cbn match. rewrite decide_False, decide_True by done.
    rewrite (unsigned_pretty (N.pos p) _) by done. cbn. by rewrite decide_True.
Qed.

Lemma store_int32_pretty {A} (set : Z -> A -> A) n a :
  is_int32 n -> store_int32 set (JNumber (pretty n)) a = Stored (set n a).
Proof. intros H. unfold store_int32. by rewrite (ParseInt32_pretty n H). Qed.
