(* ===== verification/Redis.v ===== *)
(** * The Redis server, as the service relies on it

    Redis is not part of the repository: the development never says how the
    server computes a reply.  This file has what the code relies on:

    - the commands the code sends ([rcall], [rcmd]) and the type of each
      reply ([rreply], [rcmd_reply]);
    - the contents of a database as a client can observe them ([redis]);
    - the documented effect and reply of each command, as a relation between
      the contents before, the contents after and the reply ([rcall_spec]);
    - Lua scripts, which run their commands one after the other with nothing
      in between ([lua_spec]).

    The relation enters the development only as a hypothesis on the abstract
    server of the class [Services] (file Effects). *)

From S2P Require Import Prelude AppError.
From stdpp Require Import gmap list strings pretty sorting.
#[local] Open Scope Z_scope.

(** ** Contents *)

(** A value of a string key or of a hash field: Redis keeps integers apart
    so that they can be incremented. *)
Inductive rval := RInt (n : Z) | RStr (s : string).

#[global] Instance rval_eq_dec : EqDecision rval.
Proof. solve_decision. Defined.

(** The text of a value as a client reads it. *)
Definition rval_text (v : rval) : string :=
  match v with RInt n => pretty n | RStr s => s end.

(** Sorted sets, hashes, and string keys with their expiry time
    (milliseconds of the server's clock).  Empty sorted sets and hashes do
    not exist. *)
Record redis := MkRedis {
  zsets : gmap string (gmap string Z);
  hashes : gmap string (gmap string rval);
  strs : gmap string (rval * option Z)
}.

Definition zset (v : redis) (k : string) : gmap string Z := default ∅ (zsets v !! k).
Definition hash (v : redis) (k : string) : gmap string rval := default ∅ (hashes v !! k).

(** The value of a string key that has not expired. *)
Definition live (now : Z) (v : redis) (k : string) : option rval :=
  match strs v !! k with
  | Some (x, None) => Some x
  | Some (x, Some d) => if decide (now < d) then Some x else None
  | None => None
  end.

Definition set_zset (k : string) (z : gmap string Z) (v : redis) : redis :=
  MkRedis (if decide (z = ∅) then delete k (zsets v) else <[k := z]> (zsets v))
          (hashes v) (strs v).
Definition set_hash (k : string) (h : gmap string rval) (v : redis) : redis :=
  MkRedis (zsets v)
          (if decide (h = ∅) then delete k (hashes v) else <[k := h]> (hashes v))
          (strs v).
Definition set_str (k : string) (x : option (rval * option Z)) (v : redis) : redis :=
  MkRedis (zsets v) (hashes v) (partial_alter (fun _ => x) k (strs v)).

(** ** Commands and replies *)

Inductive rcall :=
| ZADD (key : string) (items : list (Z * string))
| ZREM (key member : string)
| ZRANGEBYSCORE (key : string) (max limit : Z)
| ZPOPMIN (key : string) (count : Z)
| HINCRBY (key field : string) (incr : Z)
| HSET (key : string) (fields : list (string * rval))
| HSETNX (key field : string) (value : rval)
| HGET (key field : string)
| HGETALL (key : string)
| INCR (key : string)
| EXPIRE (key : string) (ttl : Z)
| DEL (key : string)
| GET (key : string)
| SET (key : string) (data : string) (ttl : Z).

#[global] Instance rcall_eq_dec : EqDecision rcall.
Proof. solve_decision. Defined.

Definition rreply (c : rcall) : Type :=
  match c with
  | ZADD _ _ | ZREM _ _ | HINCRBY _ _ _ | HSET _ _ | INCR _ | DEL _ => Z
  | ZRANGEBYSCORE _ _ _ => list string
  | ZPOPMIN _ _ => list (Z * string)
  | HSETNX _ _ _ | EXPIRE _ _ => bool
  | HGET _ _ => option rval
  | HGETALL _ => gmap string rval
  | GET _ => option string
  | SET _ _ _ => unit
  end.

(** ** Documented behaviour *)

(** Members with a score at most [max]. *)
Definition due (max : Z) (z : gmap string Z) : gmap string Z :=
  filter (fun x => x.2 <= max) z.

(** [ZRANGEBYSCORE key -inf max LIMIT 0 limit]: the first [limit] of the
    members with score at most [max], by increasing score. *)
Record zrange_spec (z : gmap string Z) (max limit : Z) (l : list string) : Prop := {
  zr_nodup : NoDup l;
  zr_due : forall m, m ∈ l -> is_Some (due max z !! m);
  zr_length : length l = Nat.min (Z.to_nat limit) (size (due max z));
  zr_order : forall i j m m' s s', (i <= j)%nat -> l !! i = Some m -> l !! j = Some m' ->
             z !! m = Some s -> z !! m' = Some s' -> s <= s';
  zr_first : forall m m' s s', m ∈ l -> m' ∉ l -> z !! m = Some s ->
             due max z !! m' = Some s' -> s <= s'
}.

(** [ZPOPMIN key count]: removes and returns the [count] members with the
    lowest scores. *)
Record zpop_spec (z z' : gmap string Z) (count : Z) (l : list (Z * string)) : Prop := {
  zp_nodup : NoDup (l.*2);
  zp_in : forall s m, (s, m) ∈ l -> z !! m = Some s;
  zp_length : length l = Nat.min (Z.to_nat count) (size z);
  zp_rest : forall m, z' !! m = if decide (m ∈ l.*2) then None else z !! m;
  zp_order : forall i j p q, (i <= j)%nat -> l !! i = Some p -> l !! j = Some q -> p.1 <= q.1;
  zp_first : forall s m m' s', (s, m) ∈ l -> z' !! m' = Some s' -> s <= s'
}.

Definition zadd_all (items : list (Z * string)) (z : gmap string Z) : gmap string Z :=
  fold_left (fun z x => <[x.2 := x.1]> z) items z.
Definition hset_all (fields : list (string * rval)) (h : gmap string rval) : gmap string rval :=
  fold_left (fun h x => <[x.1 := x.2]> h) fields h.

(** The integer that [INCR] and [HINCRBY] add to: 0 for a missing value; a
    value that is not an integer makes the command fail. *)
Definition counter (x : option rval) : option Z :=
  match x with
  | None => Some 0
  | Some (RInt n) => Some n
  | Some (RStr _) => None
  end.

Definition exists_key (now : Z) (v : redis) (k : string) : bool :=
  bool_decide (is_Some (zsets v !! k)) || bool_decide (is_Some (hashes v !! k)) ||
  bool_decide (is_Some (live now v k)).

(** [rcall_spec c now v v' r]: on contents [v], at server time [now], the
    command [c] may leave the contents [v'] and reply [r]. *)
Definition rcall_spec (c : rcall) (now : Z) (v v' : redis) : rreply c -> Prop :=
  match c return rreply c -> Prop with
  | ZADD k items => fun n =>
      v' = set_zset k (zadd_all items (zset v k)) v /\ 0 <= n
  | ZREM k m => fun n =>
      v' = set_zset k (delete m (zset v k)) v /\
      n = (if decide (is_Some (zset v k !! m)) then 1 else 0)
  | ZRANGEBYSCORE k max limit => fun l =>
      v' = v /\ zrange_spec (zset v k) max limit l
  | ZPOPMIN k count => fun l =>
      exists z', v' = set_zset k z' v /\ zpop_spec (zset v k) z' count l
  | HINCRBY k f d => fun n =>
      exists old, counter (hash v k !! f) = Some old /\ n = old + d /\ is_int64 n /\
      v' = set_hash k (<[f := RInt n]> (hash v k)) v
  | HSET k fs => fun n =>
      v' = set_hash k (hset_all fs (hash v k)) v /\ 0 <= n
  | HSETNX k f x => fun b =>
      match hash v k !! f with
      | Some _ => b = false /\ v' = v
      | None => b = true /\ v' = set_hash k (<[f := x]> (hash v k)) v
      end
  | HGET k f => fun o => o = hash v k !! f /\ v' = v
  | HGETALL k => fun h => h = hash v k /\ v' = v
  | INCR k => fun n =>
      exists old, counter (live now v k) = Some old /\ n = old + 1 /\ is_int64 n /\
      v' = set_str k (Some (RInt n, if live now v k then (strs v !! k) ≫= snd else None)) v
  | EXPIRE k ttl => fun b =>
      match live now v k with
      | Some x => b = true /\ v' = set_str k (Some (x, Some (now + ttl))) v
      | None => b = false /\ v' = v
      end
  | DEL k => fun n =>
      n = (if exists_key now v k then 1 else 0) /\
      v' = set_str k None (set_hash k ∅ (set_zset k ∅ v))
  | GET k => fun o => o = rval_text <$> live now v k /\ v' = v
  | SET k data ttl => fun _ =>
      v' = set_str k (Some (RStr data, Some (now + ttl))) v
  end.

(** ** Lua scripts *)

(** What a script returns: the Redis types a Lua value converts to. *)
Inductive lua_val := LuaInt (n : Z) | LuaStr (s : string) | LuaList (l : list lua_val).

(** A script is a sequence of [redis.call]s. *)
Inductive lua (A : Type) : Type :=
| LuaRet (a : A)
| LuaCall (c : rcall) (k : rreply c -> lua A).
Arguments LuaRet {_}.
Arguments LuaCall {_}.

Fixpoint lua_bind {A B} (p : lua A) (f : A -> lua B) : lua B :=
  match p with
  | LuaRet a => f a
  | LuaCall c k => LuaCall c (fun r => lua_bind (k r) f)
  end.

#[global] Instance lua_mret : MRet lua := @LuaRet.
#[global] Instance lua_mbind : MBind lua := fun A B f p => lua_bind p f.

(** [redis.call(...)] *)
Definition redis_call (c : rcall) : lua (rreply c) := LuaCall c LuaRet.

(** [for i, x in ipairs(items) do body end] *)
Fixpoint lua_for {A} (items : list A) (body : A -> lua unit) : lua unit :=
  match items with
  | [] => mret tt
  | x :: items => body x ;; lua_for items body
  end.

(** A script is called with [KEYS] and, here always numbers, [ARGV]. *)
Definition script := list string -> list Z -> lua lua_val.

Definition KEYS (ks : list string) (i : nat) : string := default "" (ks !! pred i).
Definition ARGV (xs : list Z) (i : nat) : Z := default 0 (xs !! pred i).

(** The calls of a script run one after the other, at one instant. *)
Fixpoint lua_spec {A} (p : lua A) (now : Z) (v v' : redis) (a : A) : Prop :=
  match p with
  | LuaRet x => v' = v /\ a = x
  | LuaCall c k => exists v1 r, rcall_spec c now v v1 r /\ lua_spec (k r) now v1 v' a
  end.

(** ** What a client sends *)

Inductive rcmd :=
| Call (c : rcall)
| EVAL (s : script) (keys : list string) (args : list Z).

Definition rcmd_reply (c : rcmd) : Type :=
  match c with
  | Call c => rreply c
  | EVAL _ _ _ => lua_val
  end.

Definition rcmd_spec (c : rcmd) (now : Z) (v v' : redis) : rcmd_reply c -> Prop :=
  match c return rcmd_reply c -> Prop with
  | Call c => rcall_spec c now v v'
  | EVAL s ks xs => lua_spec (s ks xs) now v v'
  end.

(** ** Lemmas on contents *)

Lemma zset_set_zset k k' z v : zset (set_zset k z v) k' = if decide (k = k') then z else zset v k'.
Proof.
  unfold zset, set_zset; cbn. case_decide as Hz; subst.
  - destruct (decide (k = k')) as [->|]; [by rewrite lookup_delete_eq|by rewrite lookup_delete_ne].
  - destruct (decide (k = k')) as [->|]; [by rewrite lookup_insert_eq|by rewrite lookup_insert_ne].
Qed.
Lemma zset_set_zset_eq k z v : zset (set_zset k z v) k = z.
Proof. rewrite zset_set_zset. by rewrite decide_True. Qed.
Lemma zset_set_zset_ne k k' z v : k <> k' -> zset (set_zset k z v) k' = zset v k'.
Proof. intros. rewrite zset_set_zset. by rewrite decide_False. Qed.
Lemma zset_set_hash k h v k' : zset (set_hash k h v) k' = zset v k'.
Proof. done. Qed.
Lemma zset_set_str k x v k' : zset (set_str k x v) k' = zset v k'.
Proof. done. Qed.

Lemma hash_set_hash k k' h v : hash (set_hash k h v) k' = if decide (k = k') then h else hash v k'.
Proof.
  unfold hash, set_hash; cbn. case_decide as Hz; subst.
  - destruct (decide (k = k')) as [->|]; [by rewrite lookup_delete_eq|by rewrite lookup_delete_ne].
  - destruct (decide (k = k')) as [->|]; [by rewrite lookup_insert_eq|by rewrite lookup_insert_ne].
Qed.
Lemma hash_set_hash_eq k h v : hash (set_hash k h v) k = h.
Proof. rewrite hash_set_hash. by rewrite decide_True. Qed.
Lemma hash_set_hash_ne k k' h v : k <> k' -> hash (set_hash k h v) k' = hash v k'.
Proof. intros. rewrite hash_set_hash. by rewrite decide_False. Qed.
Lemma hash_set_zset k z v k' : hash (set_zset k z v) k' = hash v k'.
Proof. done. Qed.
Lemma hash_set_str k x v k' : hash (set_str k x v) k' = hash v k'.
Proof. done. Qed.

Lemma live_set_zset now k z v k' : live now (set_zset k z v) k' = live now v k'.
Proof. done. Qed.
Lemma live_set_hash now k h v k' : live now (set_hash k h v) k' = live now v k'.
Proof. done. Qed.
Lemma live_set_str_ne now k x v k' : k <> k' -> live now (set_str k x v) k' = live now v k'.
Proof. intros. unfold live, set_str; cbn. by rewrite lookup_partial_alter_ne. Qed.
Lemma live_set_str_none now k v : live now (set_str k None v) k = None.
Proof. unfold live, set_str; cbn. by rewrite lookup_partial_alter_eq. Qed.
Lemma live_set_str_ttl now k x d v :
  live now (set_str k (Some (x, Some d)) v) k = if decide (now < d) then Some x else None.
Proof. unfold live, set_str; cbn. by rewrite lookup_partial_alter_eq. Qed.

Lemma strs_set_str k x v k' :
  strs (set_str k x v) !! k' = if decide (k = k') then x else strs v !! k'.
Proof.
  unfold set_str; cbn. case_decide; subst;
    [by rewrite lookup_partial_alter_eq|by rewrite lookup_partial_alter_ne].
Qed.

(** [DEL k] *)
Definition del (k : string) (v : redis) : redis := set_str k None (set_hash k ∅ (set_zset k ∅ v)).

Lemma strs_del k v k' : strs (del k v) !! k' = if decide (k = k') then None else strs v !! k'.
Proof. unfold del. by rewrite strs_set_str. Qed.
Lemma hash_del k v k' : hash (del k v) k' = if decide (k = k') then ∅ else hash v k'.
Proof. unfold del. by rewrite hash_set_str, hash_set_hash. Qed.
Lemma zset_del k v k' : zset (del k v) k' = if decide (k = k') then ∅ else zset v k'.
Proof. unfold del. by rewrite zset_set_str, zset_set_hash, zset_set_zset. Qed.

Lemma set_hash_set_hash k h1 h2 v : set_hash k h1 (set_hash k h2 v) = set_hash k h1 v.
Proof.
  unfold set_hash; cbn. f_equal. repeat case_decide; subst.
  - by rewrite delete_delete_eq.
  - by rewrite delete_insert_eq.
  - by rewrite insert_delete_eq.
  - by rewrite insert_insert_eq.
Qed.

#[export] Hint Rewrite zset_set_zset_eq zset_set_hash zset_set_str hash_set_hash_eq
  hash_set_zset hash_set_str live_set_zset live_set_hash live_set_str_none
  live_set_str_ttl : redis.
#[export] Hint Rewrite zset_set_zset_ne hash_set_hash_ne live_set_str_ne using congruence : redis.

Lemma set_zset_set_zset k z1 z2 v : set_zset k z1 (set_zset k z2 v) = set_zset k z1 v.
Proof.
  unfold set_zset; cbn. f_equal. repeat case_decide; subst.
  - by rewrite delete_delete_eq.
  - by rewrite delete_insert_eq.
  - by rewrite insert_delete_eq.
  - by rewrite insert_insert_eq.
Qed.

Lemma elem_of_due max z m s : due max z !! m = Some s <-> z !! m = Some s /\ s <= max.
Proof. unfold due. by rewrite map_lookup_filter_Some. Qed.

Lemma lua_spec_bind {A B} (p : lua A) (f : A -> lua B) now v v' b :
  lua_spec (p ≫= f) now v v' b <->
  exists v1 a, lua_spec p now v v1 a /\ lua_spec (f a) now v1 v' b.
Proof.
  revert v. induction p as [a|c k IH]; intros v; cbn.
  - split; [eauto|]. by intros (? & ? & [-> ->] & H).
  - split.
    + intros (v1 & r & Hc & Hk). apply IH in Hk as (v2 & a & H1 & H2). eauto 10.
    + intros (v2 & a & (v1 & r & Hc & Hk) & H2). exists v1, r. split; [done|]. apply IH. eauto.
Qed.

Lemma due_fold_delete max l z :
  due max (fold_left (fun z k => delete k z) l z) = fold_left (fun z k => delete k z) l (due max z).
Proof.
  revert z. induction l as [|x l IH]; intros z; cbn; [done|].
  rewrite IH. unfold due. by rewrite map_filter_delete.
Qed.

(** Taking the [limit] earliest members due at [now] out of a sorted set takes
    out as many of those due at an earlier time [T], or all of them. *)
Lemma zrange_drains T now limit z l :
  T <= now -> zrange_spec z now limit l ->
  (size (due T (fold_left (fun z k => delete k z) l z)) <= size (due T z) - Z.to_nat limit)%nat.
Proof.
  intros HT [Hnd Hdue Hlen _ Hfirst]. rewrite due_fold_delete.
  destruct (decide (fold_left (fun z k => delete k z) l (due T z) = ∅)) as [->|Hne].
  - rewrite map_size_empty. lia.
  - apply map_choose in Hne as (m' & s' & Hs'). rewrite fold_left_delete_lookup in Hs'.
    case_decide as Hm'; [done|].
    assert (forall m, m ∈ l -> is_Some (due T z !! m)) as Hin.
    { intros m Hm. destruct (Hdue m Hm) as [s Hs]. apply elem_of_due in Hs as [Hs _].
      apply elem_of_due in Hs' as [Hs' Hle].
      assert (s <= s') by (eapply (Hfirst m m'); [done..|]; apply elem_of_due; split; [done|lia]).
      exists s. apply elem_of_due. split; [done|lia]. }
    rewrite size_fold_left_delete by done.
    assert (length l = Z.to_nat limit); [|lia].
    destruct (Nat.min_spec (Z.to_nat limit) (size (due now z))) as [[_ E]|[Hle E]]; rewrite E in Hlen; [done|].
    destruct Hm'. apply (NoDup_keys_all l (due now z) Hnd Hdue ltac:(lia)).
    apply elem_of_due in Hs' as [Hs' Hle']. exists s'. apply elem_of_due. split; [done|lia].
Qed.

Lemma zadd_all_lookup_ne items z m : m ∉ items.*2 -> zadd_all items z !! m = z !! m.
Proof.
  unfold zadd_all. revert z. induction items as [|[s x] items IH]; intros z Hm; cbn in *; [done|].
  rewrite not_elem_of_cons in Hm. destruct Hm as [Hx Hm].
  rewrite IH by done. by rewrite lookup_insert_ne.
Qed.

Lemma zadd_all_lookup items z m s :
  NoDup items.*2 -> (s, m) ∈ items -> zadd_all items z !! m = Some s.
Proof.
  unfold zadd_all. revert z. induction items as [|[s' x] items IH]; intros z Hnd Hin; cbn in *.
  - by apply not_elem_of_nil in Hin.
  - apply NoDup_cons in Hnd as [Hx Hnd]. apply elem_of_cons in Hin as [[= -> ->]|Hin]; [|by apply IH].
    fold (zadd_all items (<[x := s']> z)). rewrite zadd_all_lookup_ne by done. apply lookup_insert_eq.
Qed.

(** Popping members and adding them back with their scores changes nothing. *)
Lemma zpop_zadd z z' count l m :
  zpop_spec z z' count l -> zadd_all l z' !! m = z !! m.
Proof.
  intros [Hnd Hin _ Hrest _ _]. destruct (decide (m ∈ l.*2)) as [Hm|Hm].
  - apply list_elem_of_fmap in Hm as [[s m'] [-> Hm]]. cbn.
    rewrite (zadd_all_lookup l z' m' s) by done. by rewrite (Hin s m').
  - rewrite zadd_all_lookup_ne by done. by rewrite Hrest, decide_False.
Qed.
