(* ===== verification/Postgres.v ===== *)
(** * pkg/utils/converters.go, and the Postgres server as the service relies on it

    The first part is the conversions between Go values and pgx's nullable
    types.  The second part is the interface of the database: the tables of
    migration/, one constructor of [query] per statement of sqlc/queries
    (pkg/db holds the code that sqlc generates from them), and the meaning of
    each statement on the tables, with the CHECK, UNIQUE and REFERENCES
    constraints of the migrations.  The server itself is not modelled: the
    relation [query_spec] enters only as a hypothesis on the abstract server
    of the class [Services] (file Effects). *)

From S2P Require Import Prelude AppError Types.
From stdpp Require Import gmap list strings pretty sorting.
#[local] Open Scope Z_scope.

(** ** pgtype values and converters.go *)

Record pgUUID := MkPgUUID { pgu_Bytes : UUID; pgu_Valid : bool }.
#[global] Instance pgUUID_eq_dec : EqDecision pgUUID.
Proof. solve_decision. Defined.
Record pgText := MkPgText { pgt_String : string; pgt_Valid : bool }.
Record pgInt4 := MkPgInt4 { pgi_Int32 : Z; pgi_Valid : bool }.
Record pgBool := MkPgBool { pgb_Bool : bool; pgb_Valid : bool }.
Inductive InfinityModifier := Finite | Infinity | NegativeInfinity.
Record pgTimestamptz := MkPgTimestamptz {
  pgz_Time : Z; pgz_InfinityModifier : InfinityModifier; pgz_Valid : bool
}.

(** The zero [time.Time], January 1 of year 1, in nanoseconds before the
    Unix epoch. *)
Definition Time_zero : Z := -62135596800 * Second.

Definition ToPgUUID (id : UUID) : pgUUID := MkPgUUID id true.
Definition FromPgUUID (u : pgUUID) : UUID := if negb (pgu_Valid u) then uuid_Nil else pgu_Bytes u.
Definition ToPgText (s : string) : pgText :=
  if decide (s = "") then MkPgText "" false else MkPgText s true.
Definition FromPgText (t : pgText) : string := if negb (pgt_Valid t) then "" else pgt_String t.
Definition FromPgInt32 (i : pgInt4) : Z := if negb (pgi_Valid i) then 0 else pgi_Int32 i.
Definition FromPgBool (b : pgBool) : bool := if negb (pgb_Valid b) then false else pgb_Bool b.
Definition FromPgTimestamptz (ts : pgTimestamptz) : Z :=
  if negb (pgz_Valid ts) then Time_zero
  else match pgz_InfinityModifier ts with Finite => pgz_Time ts | _ => Time_zero end.
Definition ToPgTimestamptz (t : Z) : pgTimestamptz := MkPgTimestamptz t Finite true.

Lemma FromPgUUID_To id : FromPgUUID (ToPgUUID id) = id.
Proof. done. Qed.
Lemma FromPgText_To s : FromPgText (ToPgText s) = s.
Proof. unfold ToPgText. by case_decide. Qed.
Lemma FromPgTimestamptz_To t : FromPgTimestamptz (ToPgTimestamptz t) = t.
Proof. done. Qed.

(** ** Tables (migration/)

    The columns [created_at] of users and monitors, which the code never reads,
    are left out. *)

Record user_row := MkUserRow {
  u_name : string;
  u_email : string;
  u_password_hash : string;
  u_monitors_count : option Z;
  u_is_paid_user : option bool
}.

Record monitor_row := MkMonitorRow {
  mr_user_id : UUID;
  mr_url : string;
  mr_alert_email : option string;
  mr_interval_sec : Z;
  mr_timeout_sec : Z;
  mr_latency_threshold_ms : Z;
  mr_expected_status : Z;
  mr_enabled : bool;
  mr_updated_at : Z
}.

Record incident_row := MkIncidentRow {
  ir_monitor_id : UUID;
  ir_start_time : Z;
  ir_end_time : option Z;
  ir_alerted : bool;
  ir_http_status : Z;
  ir_latency_ms : Z;
  ir_created_at : Z
}.

Record database := MkDatabase {
  users : gmap UUID user_row;
  monitors : gmap UUID monitor_row;
  incidents : gmap UUID incident_row
}.

(** [length(text)] of Postgres counts characters: the bytes of an UTF-8
    string that do not continue a character. *)
Fixpoint text_length (s : string) : nat :=
  match s with
  | EmptyString => 0
  | String c s =>
      let b := Ascii.nat_of_ascii c in
      ((if decide (128 <= b < 192)%nat then 0 else 1) + text_length s)%nat
  end.

(** The CHECK constraints of the table monitors; the fourth is on
    [interval_sec] in the migration as well, although it is written beside
    the column [timeout_sec]. *)
Definition monitor_checks (r : monitor_row) : bool :=
  bool_decide (text_length (mr_url r) <= 2048)%nat &&
  bool_decide (60 <= mr_interval_sec r) &&
  bool_decide (0 < mr_interval_sec r) &&
  bool_decide (0 <= mr_latency_threshold_ms r) &&
  bool_decide (100 <= mr_expected_status r <= 599).

(** The CHECK constraints of the table monitor_incidents. *)
Definition incident_checks (r : incident_row) : bool :=
  bool_decide (100 <= ir_http_status r <= 599) &&
  bool_decide (0 <= ir_latency_ms r) &&
  match ir_end_time r with
  | None => true
  | Some e => bool_decide (ir_start_time r <= e)
  end.

(** ** Statements *)

Record CreateMonitorParams := MkCreateMonitorParams {
  cmp_UserID : pgUUID;
  cmp_Url : string;
  cmp_IntervalSec : Z;
  cmp_TimeoutSec : Z;
  cmp_LatencyThresholdMs : Z;
  cmp_ExpectedStatus : Z;
  cmp_AlertEmail : pgText
}.

Record CreateMonitorIncidentParams := MkCreateMonitorIncidentParams {
  cip_MonitorID : pgUUID;
  cip_StartTime : pgTimestamptz;
  cip_Alerted : bool;
  cip_HttpStatus : Z;
  cip_LatencyMs : Z
}.

(** A row of [GetMonitor] and of [GetMonitorByID]; the list query has the
    same columns and two timestamps that the code drops. *)
Record GetMonitorRow := MkGetMonitorRow {
  gm_ID : pgUUID;
  gm_UserID : pgUUID;
  gm_Url : string;
  gm_AlertEmail : pgText;
  gm_IntervalSec : Z;
  gm_TimeoutSec : Z;
  gm_LatencyThresholdMs : Z;
  gm_ExpectedStatus : Z;
  gm_Enabled : bool
}.

Record GetUserByEmailRow := MkGetUserByEmailRow {
  ue_ID : pgUUID;
  ue_Name : string;
  ue_Email : string;
  ue_PasswordHash : string
}.
Record dbUser := MkDbUser {
  du_ID : pgUUID;
  du_Name : string;
  du_Email : string;
  du_PasswordHash : string;
  du_MonitorsCount : pgInt4;
  du_IsPaidUser : pgBool
}.

Record dbMonitorIncident := MkDbMonitorIncident {
  di_ID : pgUUID;
  di_MonitorID : pgUUID;
  di_StartTime : pgTimestamptz;
  di_EndTime : pgTimestamptz;
  di_Alerted : bool;
  di_HttpStatus : Z;
  di_LatencyMs : Z;
  di_CreatedAt : pgTimestamptz
}.

Inductive query :=
| Q_CreateUser (name email password_hash : string)
| Q_GetUserByID (id : pgUUID)
| Q_GetUserByEmail (email : string)
| Q_IncrementMonitorCount (id : pgUUID)
| Q_CreateMonitor (p : CreateMonitorParams)
| Q_GetMonitorByID (id : pgUUID)
| Q_GetMonitor (id user_id : pgUUID)
| Q_GetAllMonitorByUserID (user_id : pgUUID) (limit offset : Z)
| Q_UpdateMonitorStatus (id : pgUUID) (enabled : bool) (user_id : pgUUID)
| Q_CreateMonitorIncident (p : CreateMonitorIncidentParams)
| Q_GetMonitorIncidentByID (id : pgUUID)
| Q_CloseMonitorIncident (monitor_id : pgUUID) (end_time : pgTimestamptz).

(** sqlc's annotations: [:one] gives a row or "no rows", [:many] the rows,
    [:exec] nothing, [:execrows] the number of affected rows. *)
Definition query_reply (q : query) : Type :=
  match q with
  | Q_CreateUser _ _ _ | Q_CreateMonitor _ => pgUUID
  | Q_GetUserByID _ => option dbUser
  | Q_GetUserByEmail _ => option GetUserByEmailRow
  | Q_GetMonitorByID _ | Q_GetMonitor _ _ => option GetMonitorRow
  | Q_GetAllMonitorByUserID _ _ _ => list GetMonitorRow
  | Q_CreateMonitorIncident _ => unit
  | Q_GetMonitorIncidentByID _ => option dbMonitorIncident
  | Q_IncrementMonitorCount _ | Q_UpdateMonitorStatus _ _ _ | Q_CloseMonitorIncident _ _ => Z
  end.

(** ** Meaning of the statements *)

(** A nullable column read into, and a parameter written from, a pgtype. *)
Definition text_param (t : pgText) : option string :=
  if pgt_Valid t then Some (pgt_String t) else None.
Definition text_col (o : option string) : pgText :=
  match o with Some s => MkPgText s true | None => MkPgText "" false end.
Definition int4_col (o : option Z) : pgInt4 :=
  match o with Some n => MkPgInt4 n true | None => MkPgInt4 0 false end.
Definition bool_col (o : option bool) : pgBool :=
  match o with Some b => MkPgBool b true | None => MkPgBool false false end.
Definition time_col (o : option Z) : pgTimestamptz :=
  match o with Some t => ToPgTimestamptz t | None => MkPgTimestamptz Time_zero Finite false end.

(** [WHERE id = $1]: a NULL parameter matches no row. *)
Definition by_id {R} (t : gmap UUID R) (id : pgUUID) : option R :=
  if pgu_Valid id then t !! pgu_Bytes id else None.

Definition monitor_cols (id : UUID) (r : monitor_row) : GetMonitorRow :=
  MkGetMonitorRow (ToPgUUID id) (ToPgUUID (mr_user_id r)) (mr_url r)
    (text_col (mr_alert_email r)) (mr_interval_sec r) (mr_timeout_sec r)
    (mr_latency_threshold_ms r) (mr_expected_status r) (mr_enabled r).

Definition user_cols (id : UUID) (r : user_row) : dbUser :=
  MkDbUser (ToPgUUID id) (u_name r) (u_email r) (u_password_hash r)
    (int4_col (u_monitors_count r)) (bool_col (u_is_paid_user r)).

Definition email_cols (id : UUID) (r : user_row) : GetUserByEmailRow :=
  MkGetUserByEmailRow (ToPgUUID id) (u_name r) (u_email r) (u_password_hash r).

Definition incident_cols (id : UUID) (r : incident_row) : dbMonitorIncident :=
  MkDbMonitorIncident (ToPgUUID id) (ToPgUUID (ir_monitor_id r))
    (ToPgTimestamptz (ir_start_time r)) (time_col (ir_end_time r)) (ir_alerted r)
    (ir_http_status r) (ir_latency_ms r) (ToPgTimestamptz (ir_created_at r)).

Definition set_users (f : gmap UUID user_row -> gmap UUID user_row) (d : database) :=
  MkDatabase (f (users d)) (monitors d) (incidents d).
Definition set_monitors (f : gmap UUID monitor_row -> gmap UUID monitor_row) (d : database) :=
  MkDatabase (users d) (f (monitors d)) (incidents d).
Definition set_incidents (f : gmap UUID incident_row -> gmap UUID incident_row) (d : database) :=
  MkDatabase (users d) (monitors d) (f (incidents d)).

(** [UPDATE users SET monitors_count = monitors_count + 1
     WHERE id = $1 AND monitors_count < 10] *)
Definition sql_increment (id : pgUUID) (d : database) : database * Z :=
  match by_id (users d) id with
  | Some u =>
    match u_monitors_count u with
    | Some c =>
      if decide (c < 10) then
        (set_users <[pgu_Bytes id := MkUserRow (u_name u) (u_email u) (u_password_hash u)
                                       (Some (c + 1)) (u_is_paid_user u)]> d, 1)
      else (d, 0)
    | None => (d, 0)
    end
  | None => (d, 0)
  end.

(** [SELECT ... FROM monitors WHERE id = $1] *)
Definition sql_get_monitor_by_id (id : pgUUID) (d : database) : option GetMonitorRow :=
  monitor_cols (pgu_Bytes id) <$> by_id (monitors d) id.

(** [SELECT ... FROM monitors WHERE id = $1 AND user_id = $2] *)
Definition sql_get_monitor (id user_id : pgUUID) (d : database) : option GetMonitorRow :=
  match by_id (monitors d) id with
  | Some r => if decide (pgu_Valid user_id = true /\ mr_user_id r = pgu_Bytes user_id)
              then Some (monitor_cols (pgu_Bytes id) r) else None
  | None => None
  end.

(** [UPDATE monitors SET enabled = $2 WHERE id = $1 AND user_id = $3] *)
Definition with_enabled (b : bool) (r : monitor_row) : monitor_row :=
  MkMonitorRow (mr_user_id r) (mr_url r) (mr_alert_email r) (mr_interval_sec r)
    (mr_timeout_sec r) (mr_latency_threshold_ms r) (mr_expected_status r) b (mr_updated_at r).

Definition sql_update_status (id : pgUUID) (b : bool) (user_id : pgUUID) (d : database)
    : database * Z :=
  match by_id (monitors d) id with
  | Some r => if decide (pgu_Valid user_id = true /\ mr_user_id r = pgu_Bytes user_id)
              then (set_monitors <[pgu_Bytes id := with_enabled b r]> d, 1) else (d, 0)
  | None => (d, 0)
  end.

(** [UPDATE monitor_incidents SET end_time = $2
     WHERE monitor_id = $1 AND end_time IS NULL] *)
Definition open_incident_of (id : pgUUID) (r : incident_row) : Prop :=
  pgu_Valid id = true /\ ir_monitor_id r = pgu_Bytes id /\ ir_end_time r = None.
#[global] Instance open_incident_of_dec id r : Decision (open_incident_of id r) := _.

Definition with_end_time (t : option Z) (r : incident_row) : incident_row :=
  MkIncidentRow (ir_monitor_id r) (ir_start_time r) t (ir_alerted r) (ir_http_status r)
    (ir_latency_ms r) (ir_created_at r).

(** A [timestamptz] holds whole microseconds; the driver cuts the rest off. *)
Definition time_param (t : pgTimestamptz) : option Z :=
  if pgz_Valid t then Some (pgz_Time t / Microsecond * Microsecond) else None.

Definition sql_close (id : pgUUID) (t : pgTimestamptz) (d : database) : database * Z :=
  (set_incidents (fmap (fun r => if decide (open_incident_of id r)
                                 then with_end_time (time_param t) r else r)) d,
   Z.of_nat (size (filter (fun x => open_incident_of id x.2) (incidents d)))).

(** INSERT INTO monitor_incidents, of a monitor of the table; the identifier and
    [created_at] are the server's.  NULL cannot start an incident. *)
Definition sql_create_incident (p : CreateMonitorIncidentParams) (d d' : database) : Prop :=
  is_Some (by_id (monitors d) (cip_MonitorID p)) /\
  exists id t at_, incidents d !! id = None /\ time_param (cip_StartTime p) = Some t /\
    let r := MkIncidentRow (pgu_Bytes (cip_MonitorID p)) t None (cip_Alerted p)
               (cip_HttpStatus p) (cip_LatencyMs p) at_ in
    incident_checks r = true /\ d' = set_incidents <[id := r]> d.

(** INSERT INTO users, with a new identifier and the defaults of the table; the
    email is unique. *)
Definition sql_create_user (name email password_hash : string) (d d' : database) (id : pgUUID) : Prop :=
  pgu_Valid id = true /\ users d !! pgu_Bytes id = None /\
  (forall i u, users d !! i = Some u -> u_email u <> email) /\
  d' = set_users <[pgu_Bytes id := MkUserRow name email password_hash (Some 0) (Some false)]> d.

(** INSERT INTO monitors, of a user of the table: the new row, and the
    statement. *)
Definition created_row (p : CreateMonitorParams) (updated_at : Z) : monitor_row :=
  MkMonitorRow (pgu_Bytes (cmp_UserID p)) (cmp_Url p) (text_param (cmp_AlertEmail p))
    (cmp_IntervalSec p) (cmp_TimeoutSec p) (cmp_LatencyThresholdMs p) (cmp_ExpectedStatus p)
    true updated_at.
Definition sql_create_monitor (p : CreateMonitorParams) (d d' : database) (id : pgUUID) : Prop :=
  pgu_Valid id = true /\ monitors d !! pgu_Bytes id = None /\
  is_Some (by_id (users d) (cmp_UserID p)) /\
  exists at_, monitor_checks (created_row p at_) = true /\
    d' = set_monitors <[pgu_Bytes id := created_row p at_]> d.

(** SELECT ... FROM users WHERE email = $1. *)
Definition sql_get_user_by_email (email : string) (d : database) (o : option GetUserByEmailRow) : Prop :=
  match o with
  | Some u => exists i r, users d !! i = Some r /\ u_email r = email /\ u = email_cols i r
  | None => forall i r, users d !! i = Some r -> u_email r <> email
  end.

(** Rows of a user's monitors by [updated_at]. *)
Definition sorted_rows (user_id : pgUUID) (d : database) (l : list (UUID * monitor_row)) : Prop :=
  l ≡ₚ map_to_list (filter (fun x => pgu_Valid user_id = true /\
                              mr_user_id x.2 = pgu_Bytes user_id) (monitors d)) /\
  StronglySorted (fun a b => mr_updated_at a.2 <= mr_updated_at b.2) l.

(** [query_spec q d d' r]: on tables [d], the statement [q] may succeed with
    tables [d'] and reply [r].  A statement that violates a constraint has no
    successful reply. *)
Definition query_spec (q : query) (d d' : database) : query_reply q -> Prop :=
  match q return query_reply q -> Prop with
  | Q_CreateUser n e h => fun id => sql_create_user n e h d d' id
  | Q_GetUserByID id => fun o =>
      o = (user_cols (pgu_Bytes id) <$> by_id (users d) id) /\ d' = d
  | Q_GetUserByEmail e => fun o => d' = d /\ sql_get_user_by_email e d o
  | Q_IncrementMonitorCount id => fun n => (d', n) = sql_increment id d
  | Q_CreateMonitor p => fun id => sql_create_monitor p d d' id
  | Q_GetMonitorByID id => fun o => o = sql_get_monitor_by_id id d /\ d' = d
  | Q_GetMonitor id u => fun o => o = sql_get_monitor id u d /\ d' = d
  | Q_GetAllMonitorByUserID u limit offset => fun l =>
      d' = d /\ 0 <= limit /\ 0 <= offset /\
      exists rows, sorted_rows u d rows /\
        l = (fun x => monitor_cols x.1 x.2) <$> take (Z.to_nat limit) (drop (Z.to_nat offset) rows)
  | Q_UpdateMonitorStatus id b u => fun n => (d', n) = sql_update_status id b u d
  | Q_CreateMonitorIncident p => fun _ => sql_create_incident p d d'
  | Q_GetMonitorIncidentByID id => fun o =>
      o = (incident_cols (pgu_Bytes id) <$> by_id (incidents d) id) /\ d' = d
  | Q_CloseMonitorIncident id t => fun n =>
      (d', n) = sql_close id t d /\
      (forall i r, incidents d !! i = Some r -> open_incident_of id r ->
        incident_checks (with_end_time (time_param t) r) = true)
  end.

(** ** Lemmas *)

Lemma sql_get_monitor_owner id u d row :
  sql_get_monitor id u d = Some row ->
  exists r, by_id (monitors d) id = Some r /\ mr_user_id r = pgu_Bytes u /\
            row = monitor_cols (pgu_Bytes id) r.
Proof.
  unfold sql_get_monitor. destruct (by_id _ _) as [r|]; [|done].
  case_decide; [|done]. intros [= <-]. naive_solver.
Qed.
