(* ===== verification/Effects.v ===== *)
(** * Programs, their environment, and how programs run

    The Go code talks to Redis, Postgres, the clock, the network and its
    channels.  A Go function that does so is modelled as a value of [prog]: a
    tree of commands ([cmd]), each with a continuation on its reply, so that
    every call the code makes is a node of the tree, in the code's order.

    - [Services] is the outside of the process: an abstract type of worlds
      and one function per kind of external call.  [ServiceLaws] states the
      documented behaviour the code relies on; a failed call leaves the server
      unchanged, or changed as the call would have (the reply was lost).
    - [exec] runs one command on a [sys]: a world and the process's own
      channels, which are Go's and are modelled here.
    - [run] runs a program alone; [interp] is its weakest precondition over an
      arbitrary interpretation of the commands, with the two instances [wp]
      (the world of [exec]) and [obeys] (an automaton over the commands and
      their replies, for properties of every execution). *)

From S2P Require Import Prelude AppError Types Redis Postgres.
From stdpp Require Import gmap list strings pretty sorting.
#[local] Open Scope Z_scope.

(** ** Commands *)

(** Reply of [select { case ch <- v: ...; case <-ctx.Done(): ...; default: ... }]. *)
Inductive try_send := Sent | CtxDone | Full | SendOnClosed.

Inductive cmd :=
| Redis (c : rcmd)                        (* a round trip of the Redis client *)
| Db (q : query)                          (* a statement of db.Queries *)
| TimeNow                                 (* time.Now() *)
| Int63n (n : Z)                          (* math/rand.Int63n *)
| AfterOrDone (x : ctx) (d : Z)           (* select { <-ctx.Done(); <-time.After(d) } *)
| NewRequest (url : string)               (* http.NewRequestWithContext *)
| HttpDo (url : string) (timeout : Z)     (* httpClient.Do *)
| TrySendJob (x : ctx) (j : JobPayload)   (* select on jobChan, ctx.Done, default *)
| SendResult (r : HTTPResult)             (* resultChan <- r *)
| SendSuccess (r : HTTPResult)            (* successChan <- r *)
| SendFailure (r : HTTPResult)            (* failureChan <- r *)
| SendAlert (a : AlertEvent)              (* alertChan <- a *)
| AcquireSem                              (* httpSem <- struct{}{} *)
| ReleaseSem                              (* <-httpSem *)
| CreateHash (password : string).         (* argon2id.CreateHash *)

Definition reply (c : cmd) : Type :=
  match c with
  | Redis c => error + rcmd_reply c
  | Db q => error + query_reply q
  | TimeNow | Int63n _ => Z
  | AfterOrDone _ _ | NewRequest _ => option error
  | HttpDo _ _ => error + Z
  | TrySendJob _ _ => try_send
  | SendResult _ | SendSuccess _ | SendFailure _ | SendAlert _ => bool  (* false: channel closed *)
  | AcquireSem | ReleaseSem => unit
  | CreateHash _ => error + string
  end.

(** ** Programs *)

Inductive prog (A : Type) : Type :=
| Ret (a : A)
| Panic (msg : string)
| Op (c : cmd) (k : reply c -> prog A).
Arguments Ret {_}.
Arguments Panic {_}.
Arguments Op {_}.

Fixpoint bind {A B} (p : prog A) (f : A -> prog B) : prog B :=
  match p with
  | Ret a => f a
  | Panic m => Panic m
  | Op c k => Op c (fun r => bind (k r) f)
  end.

#[global] Instance prog_mret : MRet prog := @Ret.
#[global] Instance prog_mbind : MBind prog := fun A B f p => bind p f.

(** One command. *)
Definition op (c : cmd) : prog (reply c) := Op c Ret.

(** [ch <- v]: panics when the channel is closed. *)
Definition send (c : cmd) (sent : reply c -> bool) : prog unit :=
  r ← op c; if sent r then mret tt else Panic "send on closed channel".

(** [defer f()] in a function with body [p]: [f] runs when the body returns,
    with the variables it captures, and also when the body panics, with their
    values [v] at that time. *)
Fixpoint defer {A} (p : prog A) (v : A) (f : A -> prog unit) : prog A :=
  match p with
  | Ret a => f a ;; mret a
  | Panic m => f v ;; Panic m
  | Op c k => Op c (fun r => defer (k r) v f)
  end.

(** [for _, x := range xs { body }]; the body tells whether the function goes
    on with the next item. *)
Fixpoint range {A} (xs : list A) (body : A -> prog bool) : prog unit :=
  match xs with
  | [] => mret tt
  | x :: xs => continue ← body x; if (continue : bool) then range xs body else mret tt
  end.

(** [n] times in a row, as a ticker does. *)
Fixpoint ticks (n : nat) (p : prog unit) : prog unit :=
  match n with
  | O => mret tt
  | S n => p ;; ticks n p
  end.

(** ** The environment *)

Class Services := {
  world : Type;
  (** what a client can observe of the two servers, the clock of Redis
      (milliseconds) and the system clock (nanoseconds) *)
  rview : world -> redis;
  dview : world -> database;
  rclock : world -> Z;
  gclock : world -> Z;
  redis_exec : forall c : rcmd, world -> world * (error + rcmd_reply c);
  db_exec : forall q : query, world -> world * (error + query_reply q);
  time_now : world -> world * Z;
  int63n : Z -> world -> world * Z;
  after_or_done : ctx -> Z -> world -> world * option error;
  new_request : string -> option error;
  http_do : string -> Z -> world -> world * (error + Z);
  ctx_done : ctx -> world -> bool;
  (** Go's choice between two ready cases of a [select] *)
  select_first : world -> world * bool;
  (** argon2id, with a random salt: [CreateHash(password, DefaultParams)] and
      [ComparePasswordAndHash(password, hash)] *)
  create_hash : string -> world -> world * (error + string);
  compare_hash : string -> string -> error + bool
}.

(** Errors with which an application context ends. *)
Definition is_ctx_err (e : error) : Prop := e = Canceled \/ e = DeadlineExceeded.

(** Time passes during every call; the clocks are not set back. *)
Definition later {S : Services} (w w' : world) : Prop :=
  rclock w <= rclock w' /\ gclock w <= gclock w'.

#[export] Instance later_preorder {S : Services} : PreOrder later.
Proof. split; unfold later; [intros w|intros w1 w2 w3]; lia. Qed.

(** A call that reaches neither server. *)
Definition unobserved {S : Services} (w w' : world) : Prop :=
  rview w' = rview w /\ dview w' = dview w /\ later w w'.

Lemma unobserved_refl {S : Services} (w : world) : unobserved w w.
Proof. split; [done|]. split; [done|]. reflexivity. Qed.

Class ServiceLaws (S : Services) := {
  redis_ok (c : rcmd) w w' r : redis_exec c w = (w', inr r) ->
    rcmd_spec c (rclock w') (rview w) (rview w') r;
  redis_err (c : rcmd) w w' e : redis_exec c w = (w', inl e) ->
    rview w' = rview w \/ exists r, rcmd_spec c (rclock w') (rview w) (rview w') r;
  redis_frame (c : rcmd) w w' o : redis_exec c w = (w', o) ->
    dview w' = dview w /\ later w w';
  (** only a command that can have a nil reply fails with redis.Nil *)
  redis_hgetall_not_nil k w w' : redis_exec (Call (HGETALL k)) w <> (w', inl RedisNil);
  db_ok (q : query) w w' r : db_exec q w = (w', inr r) ->
    query_spec q (dview w) (dview w') r;
  db_err (q : query) w w' e : db_exec q w = (w', inl e) ->
    dview w' = dview w \/ exists r, query_spec q (dview w) (dview w') r;
  db_frame (q : query) w w' o : db_exec q w = (w', o) ->
    rview w' = rview w /\ later w w';
  time_now_ok w w' t : time_now w = (w', t) -> unobserved w w' /\ gclock w <= t <= gclock w';
  int63n_ok n w w' r : int63n n w = (w', r) -> unobserved w w' /\ (0 < n -> 0 <= r < n);
  after_or_done_ok x d w w' o : after_or_done x d w = (w', o) ->
    unobserved w w' /\ (forall e, o = Some e -> is_ctx_err e);
  http_do_frame url d w w' o : http_do url d w = (w', o) -> unobserved w w';
  select_frame w w' b : select_first w = (w', b) -> unobserved w w';
  create_hash_frame s w w' o : create_hash s w = (w', o) -> unobserved w w';
  (** the password a hash was made from matches it *)
  create_hash_compare s w w' h : create_hash s w = (w', inr h) -> compare_hash s h = inr true
}.

(** ** The process *)

(** A buffered channel. *)
Record chan (A : Type) := MkChan { ch_buf : list A; ch_cap : nat; ch_closed : bool }.
Arguments MkChan {_}.
Arguments ch_buf {_}.
Arguments ch_cap {_}.
Arguments ch_closed {_}.

Definition ch_room {A} (ch : chan A) : bool := bool_decide (length (ch_buf ch) < ch_cap ch)%nat.
Definition ch_push {A} (ch : chan A) (x : A) : chan A :=
  MkChan (ch_buf ch ++ [x]) (ch_cap ch) (ch_closed ch).
Definition ch_make (A : Type) (n : nat) : chan A := MkChan [] n false.

(** The channels of one process, created in internals/app/container.go and in
    the constructors of the executor and of the result processor. *)
Record proc := MkProc {
  jobChan : chan JobPayload;
  resultChan : chan HTTPResult;
  successChan : chan HTTPResult;
  failureChan : chan HTTPResult;
  alertChan : chan AlertEvent;
  sem_used : nat;
  sem_cap : nat
}.

Definition set_jobChan f p := MkProc (f (jobChan p)) (resultChan p) (successChan p) (failureChan p)
  (alertChan p) (sem_used p) (sem_cap p).
Definition set_resultChan f p := MkProc (jobChan p) (f (resultChan p)) (successChan p)
  (failureChan p) (alertChan p) (sem_used p) (sem_cap p).
Definition set_successChan f p := MkProc (jobChan p) (resultChan p) (f (successChan p))
  (failureChan p) (alertChan p) (sem_used p) (sem_cap p).
Definition set_failureChan f p := MkProc (jobChan p) (resultChan p) (successChan p)
  (f (failureChan p)) (alertChan p) (sem_used p) (sem_cap p).
Definition set_alertChan f p := MkProc (jobChan p) (resultChan p) (successChan p) (failureChan p)
  (f (alertChan p)) (sem_used p) (sem_cap p).
Definition set_sem n p := MkProc (jobChan p) (resultChan p) (successChan p) (failureChan p)
  (alertChan p) n (sem_cap p).

Section Run.
Context {S : Services}.

Record sys := MkSys { sw : world; sp : proc }.

Inductive outcome (R : Type) :=
| Reply (σ : sys) (r : R)
| Blocked.
Arguments Reply {_}.
Arguments Blocked {_}.

(** An external call. *)
Definition ext {R} (f : world -> world * R) (σ : sys) : outcome R :=
  let '(w, r) := f (sw σ) in Reply (MkSys w (sp σ)) r.

(** A send: blocks while the buffer is full, fails on a closed channel. *)
Definition exec_send {A} (get : proc -> chan A) (set : (chan A -> chan A) -> proc -> proc)
    (x : A) (σ : sys) : outcome bool :=
  let ch := get (sp σ) in
  if ch_closed ch then Reply σ false
  else if ch_room ch then Reply (MkSys (sw σ) (set (fun ch => ch_push ch x) (sp σ))) true
  else Blocked.

(** The three-way [select] of the scheduler: a case is chosen among those
    that are ready, at random when both are; [default] when none is.  A send
    on a closed channel is ready, and panics. *)
Definition exec_try_send_job (x : ctx) (j : JobPayload) (σ : sys) : outcome try_send :=
  let ch := jobChan (sp σ) in
  let send w :=
    if ch_closed ch then Reply (MkSys w (sp σ)) SendOnClosed
    else Reply (MkSys w (set_jobChan (fun ch => ch_push ch j) (sp σ))) Sent in
  match ch_closed ch || ch_room ch, ctx_done x (sw σ) with
  | false, false => Reply σ Full
  | false, true => Reply σ CtxDone
  | true, false => send (sw σ)
  | true, true => let '(w, first) := select_first (sw σ) in
                  if (first : bool) then send w else Reply (MkSys w (sp σ)) CtxDone
  end.

Definition exec (c : cmd) (σ : sys) : outcome (reply c) :=
  match c return outcome (reply c) with
  | Redis c => ext (redis_exec c) σ
  | Db q => ext (db_exec q) σ
  | TimeNow => ext time_now σ
  | Int63n n => ext (int63n n) σ
  | AfterOrDone x d => ext (after_or_done x d) σ
  | NewRequest url => Reply σ (new_request url)
  | HttpDo url d => ext (http_do url d) σ
  | TrySendJob x j => exec_try_send_job x j σ
  | SendResult r => exec_send resultChan set_resultChan r σ
  | SendSuccess r => exec_send successChan set_successChan r σ
  | SendFailure r => exec_send failureChan set_failureChan r σ
  | SendAlert a => exec_send alertChan set_alertChan a σ
  | AcquireSem => if decide (sem_used (sp σ) < sem_cap (sp σ))%nat
                  then Reply (MkSys (sw σ) (set_sem (1 + sem_used (sp σ))%nat (sp σ))) tt
                  else Blocked
  | ReleaseSem => if decide (0 < sem_used (sp σ))%nat
                  then Reply (MkSys (sw σ) (set_sem (pred (sem_used (sp σ))) (sp σ))) tt
                  else Blocked
  | CreateHash s => ext (create_hash s) σ
  end.

(** What an external call and a send do to the system. *)
Lemma exec_ext {R} (f : world -> world * R) w p w' p' r :
  ext f (MkSys w p) = Reply (MkSys w' p') r -> f w = (w', r) /\ p' = p.
Proof. unfold ext; cbn. destruct (f w) as [w1 r1]. by intros [= <- <- <-]. Qed.

Lemma exec_send_cases {A} get set (x : A) σ σ' b :
  exec_send get set x σ = Reply σ' b ->
  (b = false /\ ch_closed (get (sp σ)) = true /\ σ' = σ) \/
  (b = true /\ ch_closed (get (sp σ)) = false /\
   σ' = MkSys (sw σ) (set (fun ch => ch_push ch x) (sp σ))).
Proof.
  unfold exec_send. destruct (ch_closed _); [by intros [= <- <-]; left|].
  destruct (ch_room _); [|done]. intros [= <- <-]. by right.
Qed.

Lemma exec_send_open {A} get set (x : A) σ σ' b :
  ch_closed (get (sp σ)) = false -> exec_send get set x σ = Reply σ' b ->
  b = true /\ σ' = MkSys (sw σ) (set (fun ch => ch_push ch x) (sp σ)).
Proof. intros Ho He. by apply exec_send_cases in He as [(_ & Hc & _)|(-> & _ & ->)]; [congruence|]. Qed.

(** ** Running a program alone *)

(** A command and its reply. *)
Definition event : Type := { c : cmd & reply c }.

(** Runs until the program returns, panics or blocks: the commands executed,
    the system after them and what is left of the program. *)
Fixpoint run {A} (p : prog A) (σ : sys) : list event * sys * prog A :=
  match p with
  | Ret _ | Panic _ => ([], σ, p)
  | Op c k =>
    match exec c σ with
    | Reply σ' r => let '(tr, σ'', q) := run (k r) σ' in (existT c r :: tr, σ'', q)
    | Blocked => ([], σ, p)
    end
  end.

End Run.
Arguments Reply {_ _}.
Arguments Blocked {_ _}.

(** ** Weakest preconditions over an interpretation of the commands *)

Section Interp.
Context {St : Type} (I : forall c : cmd, St -> (reply c -> St -> Prop) -> Prop).
Context (Ψ : St -> Prop).   (* holds where the program panics *)

Fixpoint interp {A} (p : prog A) (s : St) (Φ : A -> St -> Prop) : Prop :=
  match p with
  | Ret a => Φ a s
  | Panic _ => Ψ s
  | Op c k => I c s (fun r s' => interp (k r) s' Φ)
  end.

Context (I_mono : forall c s (Φ1 Φ2 : reply c -> St -> Prop),
  (forall r s', Φ1 r s' -> Φ2 r s') -> I c s Φ1 -> I c s Φ2).

Lemma interp_mono {A} (p : prog A) s (Φ1 Φ2 : A -> St -> Prop) :
  (forall a s', Φ1 a s' -> Φ2 a s') -> interp p s Φ1 -> interp p s Φ2.
Proof using I_mono.
  intros HΦ. revert s. induction p as [a|m|c k IH]; intros s; cbn; [apply HΦ|done|].
  apply I_mono. eauto.
Qed.

Lemma interp_bind {A B} (p : prog A) (f : A -> prog B) s Φ :
  interp (p ≫= f) s Φ <-> interp p s (fun a s' => interp (f a) s' Φ).
Proof using I_mono.
  revert s. induction p as [a|m|c k IH]; intros s; cbn; [done|done|].
  split; apply I_mono; intros r s'; apply IH.
Qed.

Lemma interp_bind_2 {A B} (p : prog A) (f : A -> prog B) s Φ :
  interp p s (fun a s' => interp (f a) s' Φ) -> interp (p ≫= f) s Φ.
Proof using I_mono. apply interp_bind. Qed.

End Interp.

(** *** The world of [exec] *)

(** Which replies are considered: all of them, or those without a failure of
    a server, of the context or of a channel. *)
Definition any_reply (c : cmd) (r : reply c) : Prop := True.

Definition is_ok {A} (x : error + A) : Prop := match x with inr _ => True | inl _ => False end.

Definition no_fault (c : cmd) : reply c -> Prop :=
  match c return reply c -> Prop with
  | Redis _ | Db _ | CreateHash _ => is_ok
  | AfterOrDone _ _ => fun o => o = None
  | _ => fun _ => True
  end.

Section Wp.
Context {S : Services}.

Definition I_exec (good : forall c, reply c -> Prop) (c : cmd) (σ : sys)
    (Φ : reply c -> sys -> Prop) : Prop :=
  match exec c σ with
  | Reply σ' r => good c r -> Φ r σ'
  | Blocked => False
  end.

(** Total correctness of [p] from [σ]: it neither blocks nor panics and, when
    all its replies are [good], it returns with [Φ]. *)
Definition wp (good : forall c, reply c -> Prop) {A} (p : prog A) (σ : sys)
    (Φ : A -> sys -> Prop) : Prop :=
  interp (I_exec good) (fun _ => False) p σ Φ.

Lemma I_exec_mono good c σ (Φ1 Φ2 : reply c -> sys -> Prop) :
  (forall r σ', Φ1 r σ' -> Φ2 r σ') -> I_exec good c σ Φ1 -> I_exec good c σ Φ2.
Proof. unfold I_exec. destruct (exec c σ); [|done]. auto. Qed.

Lemma wp_mono good {A} (p : prog A) σ Φ1 Φ2 :
  wp good p σ Φ1 -> (forall a σ', Φ1 a σ' -> Φ2 a σ') -> wp good p σ Φ2.
Proof. intros H1 H2. revert H1. apply interp_mono; [apply I_exec_mono | done]. Qed.

Lemma wp_bind good {A B} (p : prog A) (f : A -> prog B) σ Φ :
  wp good p σ (fun a σ' => wp good (f a) σ' Φ) -> wp good (p ≫= f) σ Φ.
Proof. apply interp_bind_2, I_exec_mono. Qed.

Lemma wp_ret good {A} (a : A) σ (Φ : A -> sys -> Prop) : Φ a σ -> wp good (mret a) σ Φ.
Proof. done. Qed.

(** All the replies of a trace are [good]. *)
Definition good_trace (good : forall c, reply c -> Prop) (tr : list event) : Prop :=
  Forall (fun e => good (projT1 e) (projT2 e)) tr.

(** What [wp] says of [run]. *)
Theorem wp_run good {A} (p : prog A) σ Φ :
  wp good p σ Φ ->
  let '(tr, σ', q) := run p σ in good_trace good tr -> exists a, q = Ret a /\ Φ a σ'.
Proof.
  revert σ. induction p as [a|m|c k IH]; intros σ; cbn.
  - intros H _. eauto.
  - done.
  - unfold wp, I_exec; cbn. destruct (exec c σ) as [σ1 r|]; [|done]. intros H.
    destruct (run (k r) σ1) as [[tr σ2] q] eqn:E.
    intros Hg. apply Forall_cons_1 in Hg as [Hr Htr]. cbn in Hr.
    specialize (IH r σ1 (H Hr)). rewrite E in IH. auto.
Qed.

End Wp.

Arguments wp : simpl never.

(** *** Automata over commands and replies *)

Section Obeys.
Context {Q : Type} (ok : Q -> cmd -> Prop) (δ : Q -> forall c : cmd, reply c -> Q)
        (good : forall c, reply c -> Prop).

Definition I_auto (c : cmd) (q : Q) (Φ : reply c -> Q -> Prop) : Prop :=
  ok q c /\ forall r, good c r -> Φ r (δ q c r).

(** For all [good] replies, the commands of [p] are allowed from state [q] on,
    [p] does not panic, and [Φ] holds of the result and the state at the end.
    No world is involved: the statement is about every execution of [p] among
    other programs. *)
Definition obeys {A} (p : prog A) (q : Q) (Φ : A -> Q -> Prop) : Prop :=
  interp I_auto (fun _ => False) p q Φ.

Lemma I_auto_mono c q (Φ1 Φ2 : reply c -> Q -> Prop) :
  (forall r q', Φ1 r q' -> Φ2 r q') -> I_auto c q Φ1 -> I_auto c q Φ2.
Proof. intros H1 [Hok H2]. split; [done|]. eauto. Qed.

Lemma obeys_mono {A} (p : prog A) q Φ1 Φ2 :
  obeys p q Φ1 -> (forall a q', Φ1 a q' -> Φ2 a q') -> obeys p q Φ2.
Proof. intros H1 H2. revert H1. apply interp_mono; [apply I_auto_mono | done]. Qed.

Lemma obeys_bind {A B} (p : prog A) (f : A -> prog B) q Φ :
  obeys p q (fun a q' => obeys (f a) q' Φ) -> obeys (p ≫= f) q Φ.
Proof. apply interp_bind_2, I_auto_mono. Qed.

Lemma obeys_ret {A} (a : A) q (Φ : A -> Q -> Prop) : Φ a q -> obeys (mret a) q Φ.
Proof. done. Qed.

Lemma obeys_op c q (Φ : reply c -> Q -> Prop) :
  ok q c -> (forall r, good c r -> Φ r (δ q c r)) -> obeys (op c) q Φ.
Proof. done. Qed.

Lemma obeys_defer {A} (p : prog A) v f q (Φ : A -> Q -> Prop) :
  obeys p q (fun a q' => obeys (f a ;; mret a) q' Φ) -> obeys (defer p v f) q Φ.
Proof.
  revert q. induction p as [a|m|c k IH]; intros q; cbn [defer]; [done|done|].
  unfold obeys; cbn. apply I_auto_mono. intros r q'. apply IH.
Qed.

End Obeys.
Arguments obeys : simpl never.
Arguments op : simpl never.
Arguments bind : simpl never.
