(* ===== verification/Rules.v ===== *)
(** * Rules of the weakest precondition, one per command

    What a command may do, by the laws of the services; the components prove
    their lemmas with these rules only. *)

From S2P Require Import Prelude AppError Types Redis Postgres Effects.
From stdpp Require Import gmap list strings pretty sorting.
#[local] Open Scope Z_scope.

(** The effect of a call whose outcome is [o]: what the documentation says
    when it succeeds; when it fails, that or nothing. *)
Definition call_effect (c : rcmd) (now : Z) (v v' : redis) (o : error + rcmd_reply c) : Prop :=
  match o with
  | inr r => rcmd_spec c now v v' r
  | inl _ => v' = v \/ exists r, rcmd_spec c now v v' r
  end.

Definition db_effect (q : query) (d d' : database) (o : error + query_reply q) : Prop :=
  match o with
  | inr r => query_spec q d d' r
  | inl _ => d' = d \/ exists r, query_spec q d d' r
  end.

(** Executions in which no call to Redis fails. *)
Class RedisReliable (good : forall c, reply c -> Prop) : Prop :=
  reliable : forall c o, good (Redis c) o -> is_ok o.

#[export] Instance no_fault_reliable : RedisReliable no_fault.
Proof. by intros c o H. Qed.

(** The statements may fail, nothing else does. *)
Definition db_may_fail (c : cmd) : reply c -> Prop :=
  match c with Db q => any_reply (Db q) | c => no_fault c end.

#[export] Instance db_may_fail_reliable : RedisReliable db_may_fail.
Proof. by intros c o H. Qed.

Section Rules.
Context {S : Services} {SL : ServiceLaws S}.

Lemma wp_redis (good : forall c, reply c -> Prop) c w p (Φ : error + rcmd_reply c -> sys -> Prop) :
  (forall w' o, call_effect c (rclock w') (rview w) (rview w') o ->
     dview w' = dview w -> later w w' ->
     good (Redis c) o -> Φ o (MkSys w' p)) ->
  wp good (op (Redis c)) (MkSys w p) Φ.
Proof.
  intros H. unfold wp, op, interp, I_exec, exec, ext; cbn.
  destruct (redis_exec c w) as [w' o] eqn:E. intros Hg.
  pose proof (redis_frame c w w' o E) as [Hd Hc].
  apply H; [|done..]. destruct o; cbn; eauto using redis_ok, redis_err.
Qed.

(** A program whose result is dropped. *)
Lemma wp_then good {A B} (p : prog A) (b : A -> B) σ (Q : sys -> Prop) :
  wp good p σ (fun _ σ' => Q σ') -> wp good (p ≫= fun a => mret (b a)) σ (fun _ σ' => Q σ').
Proof using. intros H. apply wp_bind. eapply wp_mono; [exact H|]. intros a σ' H'. by apply wp_ret. Qed.

(** A deferred function runs after a body that returns. *)
Lemma wp_defer good {A} (p : prog A) v f σ (Φ : A -> sys -> Prop) :
  wp good p σ (fun a σ' => wp good (f a ;; mret a) σ' Φ) -> wp good (defer p v f) σ Φ.
Proof using.
  revert σ. induction p as [a|m|c k IH]; intros σ; cbn [defer]; [done|done|].
  unfold wp; cbn. apply I_exec_mono. intros r σ'. apply IH.
Qed.

(** Time passes. *)
Lemma exec_later c σ σ' r : exec c σ = Reply σ' r -> later (sw σ) (sw σ').
Proof.
  destruct σ as [w p], σ' as [w' p']. intros He. cbn.
  assert (unobserved w w' -> later w w') as Hu by by intros (_ & _ & ?).
  destruct c; cbn [exec] in He;
    try (apply exec_send_cases in He as [(_ & _ & [= -> _])|(_ & _ & [= -> _])]; reflexivity);
    try (apply exec_ext in He as [He _]).
  - by apply redis_frame in He as [_ ?].
  - by apply db_frame in He as [_ ?].
  - by apply time_now_ok in He as [? _]; apply Hu.
  - by apply int63n_ok in He as [? _]; apply Hu.
  - by apply after_or_done_ok in He as [? _]; apply Hu.
  - injection He as <- _ _. reflexivity.
  - by apply http_do_frame in He; apply Hu.
  - unfold exec_try_send_job in He. cbn [sw sp] in He.
    destruct (ch_closed _), (ch_room _), (ctx_done x w); cbn in He;
      try (destruct (select_first w) as [w1 b] eqn:Es; apply select_frame in Es as (_ & _ & ?);
           destruct b); injection He as <- _ _; first [assumption|reflexivity].
  - case_decide; [|done]. injection He as <- _ _. reflexivity.
  - case_decide; [|done]. injection He as <- _ _. reflexivity.
  - by apply create_hash_frame in He; apply Hu.
Qed.

Lemma wp_later good {A} (p : prog A) σ Φ :
  wp good p σ Φ -> wp good p σ (fun a σ' => Φ a σ' /\ later (sw σ) (sw σ')).
Proof.
  revert σ. induction p as [a|m|c k IH]; intros σ; unfold wp; cbn; [by intros H|done|].
  unfold I_exec. destruct (exec c σ) as [σ1 r|] eqn:He; [|done]. intros H Hg.
  apply exec_later in He. eapply interp_mono; [apply I_exec_mono| |apply IH, H, Hg].
  intros a σ' [H1 H2]. split; [done|]. by etrans.
Qed.

Lemma wp_db (good : forall c, reply c -> Prop) q w p (Φ : error + query_reply q -> sys -> Prop) :
  (forall w' o, db_effect q (dview w) (dview w') o ->
     rview w' = rview w -> later w w' ->
     good (Db q) o -> Φ o (MkSys w' p)) ->
  wp good (op (Db q)) (MkSys w p) Φ.
Proof.
  intros H. unfold wp, op, interp, I_exec, exec, ext; cbn.
  destruct (db_exec q w) as [w' o] eqn:E. intros Hg.
  pose proof (db_frame q w w' o E) as [Hd Hc].
  apply H; [|done..]. destruct o; cbn; eauto using db_ok, db_err.
Qed.

Lemma wp_time_now good w p (Φ : Z -> sys -> Prop) :
  (forall w' t, time_now w = (w', t) -> unobserved w w' -> gclock w <= t <= gclock w' ->
     Φ t (MkSys w' p)) ->
  wp good (op TimeNow) (MkSys w p) Φ.
Proof.
  intros H. unfold wp, op, interp, I_exec, exec, ext; cbn.
  destruct (time_now w) as [w' t] eqn:E. intros _.
  pose proof (time_now_ok _ _ _ E) as [? ?]. by apply H.
Qed.

Lemma wp_after_or_done (good : forall c, reply c -> Prop) x d w p (Φ : option error -> sys -> Prop) :
  (forall w' o, unobserved w w' -> (forall e, o = Some e -> is_ctx_err e) ->
     good (AfterOrDone x d) o -> Φ o (MkSys w' p)) ->
  wp good (op (AfterOrDone x d)) (MkSys w p) Φ.
Proof.
  intros H. unfold wp, op, interp, I_exec, exec, ext; cbn.
  destruct (after_or_done x d w) as [w' o] eqn:E. intros Hg.
  apply after_or_done_ok in E as [? ?]. by apply H.
Qed.

Lemma wp_int63n good n w p (Φ : Z -> sys -> Prop) :
  (forall w' r, unobserved w w' -> (0 < n -> 0 <= r < n) -> Φ r (MkSys w' p)) ->
  wp good (op (Int63n n)) (MkSys w p) Φ.
Proof.
  intros H. unfold wp, op, interp, I_exec, exec, ext; cbn.
  destruct (int63n n w) as [w' r] eqn:E. intros _. apply int63n_ok in E as [? ?]. by apply H.
Qed.

(** The scheduler's [select]: what each case says about the channel. *)
Lemma wp_try_send good x j w p (Φ : try_send -> sys -> Prop) :
  (forall w', unobserved w w' ->
    (ch_closed (jobChan p) = false -> ch_room (jobChan p) = true ->
       Φ Sent (MkSys w' (set_jobChan (fun ch => ch_push ch j) p))) /\
    (ctx_done x w = true -> Φ CtxDone (MkSys w' p)) /\
    (ch_closed (jobChan p) = false -> ch_room (jobChan p) = false -> ctx_done x w = false ->
       Φ Full (MkSys w' p)) /\
    (ch_closed (jobChan p) = true -> Φ SendOnClosed (MkSys w' p))) ->
  wp good (op (TrySendJob x j)) (MkSys w p) Φ.
Proof.
  intros H. pose proof (H w (unobserved_refl w)) as (H1 & H2 & H3 & H4).
  unfold wp, op, interp, I_exec, exec, exec_try_send_job. cbn [sw sp].
  destruct (ch_closed (jobChan p)) eqn:Ec, (ch_room (jobChan p)) eqn:Er, (ctx_done x w) eqn:Ed;
    cbn; try (destruct (select_first w) as [w' b] eqn:Es; apply select_frame in Es;
              destruct (H w' Es) as (H1' & H2' & H3' & H4'); destruct b); auto.
Qed.

Lemma wp_new_request good url σ (Φ : option error -> sys -> Prop) :
  Φ (new_request url) σ -> wp good (op (NewRequest url)) σ Φ.
Proof. intros H. unfold wp, op, interp, I_exec, exec; cbn. auto. Qed.

Lemma wp_http good url d w p (Φ : error + Z -> sys -> Prop) :
  (forall w' o, http_do url d w = (w', o) -> unobserved w w' -> Φ o (MkSys w' p)) ->
  wp good (op (HttpDo url d)) (MkSys w p) Φ.
Proof.
  intros H. unfold wp, op, interp, I_exec, exec, ext; cbn.
  destruct (http_do url d w) as [w' o] eqn:E. intros _.
  apply H; [done|]. by eapply http_do_frame.
Qed.

Lemma wp_create_hash (good : forall c, reply c -> Prop) s w p (Φ : error + string -> sys -> Prop) :
  (forall w' o, unobserved w w' -> (forall h, o = inr h -> compare_hash s h = inr true) ->
     good (CreateHash s) o -> Φ o (MkSys w' p)) ->
  wp good (op (CreateHash s)) (MkSys w p) Φ.
Proof.
  intros H. unfold wp, op, interp, I_exec, exec, ext; cbn.
  destruct (create_hash s w) as [w' o] eqn:E. intros Hg. apply H; [|intros h ->|done].
  - by eapply create_hash_frame.
  - by eapply create_hash_compare.
Qed.

(** A send on an open channel that has room. *)
Lemma wp_send_alert good a w p (Φ : unit -> sys -> Prop) :
  ch_closed (alertChan p) = false -> ch_room (alertChan p) = true ->
  Φ tt (MkSys w (set_alertChan (fun ch => ch_push ch a) p)) ->
  wp good (send (SendAlert a) id) (MkSys w p) Φ.
Proof.
  intros Hc Hr H. unfold send. apply wp_bind.
  unfold wp, op, interp, I_exec, exec, exec_send; cbn. by rewrite Hc, Hr.
Qed.

Lemma wp_send_result good r w p (Φ : unit -> sys -> Prop) :
  ch_closed (resultChan p) = false -> ch_room (resultChan p) = true ->
  Φ tt (MkSys w (set_resultChan (fun ch => ch_push ch r) p)) ->
  wp good (send (SendResult r) id) (MkSys w p) Φ.
Proof.
  intros Hc Hr H. unfold send. apply wp_bind.
  unfold wp, op, interp, I_exec, exec, exec_send; cbn. by rewrite Hc, Hr.
Qed.

Lemma wp_release good w p (Φ : unit -> sys -> Prop) :
  (0 < sem_used p)%nat -> Φ tt (MkSys w (set_sem (pred (sem_used p)) p)) ->
  wp good (op ReleaseSem) (MkSys w p) Φ.
Proof.
  intros H HΦ. unfold wp, op, interp, I_exec, exec; cbn. by rewrite decide_True.
Qed.

Lemma wp_acquire good w p (Φ : unit -> sys -> Prop) :
  (sem_used p < sem_cap p)%nat -> Φ tt (MkSys w (set_sem (1 + sem_used p)%nat p)) ->
  wp good (op AcquireSem) (MkSys w p) Φ.
Proof.
  intros H HΦ. unfold wp, op, interp, I_exec, exec; cbn. by rewrite decide_True.
Qed.

End Rules.
