(* ===== verification/Reference.v ===== *)
(** * A reference environment

    A concrete, executable instance of the interfaces of the files Types and
    Effects: UUIDs printed in hexadecimal, a Redis server and a Postgres
    server on finite maps, a clock, and scripts that say which calls fail,
    what random numbers come and what the monitored sites answer.  It proves
    that the laws of [UuidLaws] and [ServiceLaws] can hold, and the examples
    and witnesses of the other files run on it.  No definition of the program
    depends on this file. *)

From S2P Require Import Prelude AppError Types Redis Postgres Effects.
From stdpp Require Import gmap list strings pretty sorting.
#[local] Open Scope Z_scope.

(** ** UUIDs *)

Module Hex.

Fixpoint digits (k : nat) (n : N) : list N :=
  match k with
  | O => []
  | S k => digits k (n / 16)%N ++ [(n mod 16)%N]
  end.

Definition value (ds : list N) : N := fold_left (fun a d => (a * 16 + d)%N) ds 0%N.

Lemma value_app ds d : value (ds ++ [d]) = (value ds * 16 + d)%N.
Proof. unfold value. by rewrite fold_left_app. Qed.

Lemma value_digits k n : value (digits k n) = (n mod 16 ^ N.of_nat k)%N.
Proof.
  revert n. induction k as [|k IH]; intros n; cbn [digits].
  - cbn. by rewrite N.mod_1_r.
  - rewrite value_app, IH, Nat2N.inj_succ, N.pow_succ_r by lia.
    rewrite N.Div0.mod_mul_r. lia.
Qed.

Lemma digits_length k n : length (digits k n) = k.
Proof. revert n. induction k; intros n; cbn; [done|]. rewrite length_app, IHk. cbn. lia. Qed.

Lemma digits_lt k n : Forall (fun d => (d < 16)%N) (digits k n).
Proof.
  revert n. induction k; intros n; cbn; [constructor|].
  apply Forall_app. split; [done|]. repeat constructor. by apply N.mod_lt.
Qed.

Definition char_of (d : N) : Ascii.ascii :=
  Ascii.ascii_of_N (if decide (d < 10)%N then 48 + d else 87 + d)%N.
Definition digit_of (c : Ascii.ascii) : option N :=
  let n := Ascii.N_of_ascii c in
  if decide (48 <= n < 58)%N then Some (n - 48)%N
  else if decide (97 <= n < 103)%N then Some (n - 87)%N else None.
Definition dash : Ascii.ascii := Ascii.ascii_of_N 45.

Lemma digit_of_char_of d : (d < 16)%N -> digit_of (char_of d) = Some d /\ char_of d <> dash.
Proof.
  intros H. assert (d ∈ (N.of_nat <$> seq 0 16)) as Hin.
  { apply list_elem_of_fmap. exists (N.to_nat d). split; [lia|]. apply elem_of_seq. lia. }
  cbn in Hin. repeat (apply elem_of_cons in Hin as [->|Hin]; [by vm_compute|]).
  by apply not_elem_of_nil in Hin.
Qed.

(** xxxxxxxx-xxxx-xxxx-xxxx-xxxxxxxxxxxx *)
Definition dashed (l : list Ascii.ascii) : list Ascii.ascii :=
  take 8 l ++ dash :: take 4 (drop 8 l) ++ dash :: take 4 (drop 12 l) ++
  dash :: take 4 (drop 16 l) ++ dash :: drop 20 l.

Definition undash (l : list Ascii.ascii) : list Ascii.ascii := filter (fun c => c <> dash) l.

Lemma undash_id l : Forall (fun c => c <> dash) l -> undash l = l.
Proof.
  induction 1 as [|c l Hc Hl IH]; [done|]. unfold undash in *.
  by rewrite filter_cons_True, IH.
Qed.

Lemma undash_dashed l : Forall (fun c => c <> dash) l -> undash (dashed l) = l.
Proof.
  intros H. unfold dashed, undash.
  repeat (rewrite filter_app || (rewrite filter_cons_False by tauto)).
  fold (undash (take 8 l)) (undash (take 4 (drop 8 l))) (undash (take 4 (drop 12 l)))
       (undash (take 4 (drop 16 l))) (undash (drop 20 l)).
  rewrite !undash_id by (repeat (apply Forall_take || apply Forall_drop); done).
  pose proof (take_drop 4 (drop 16 l)) as E4. rewrite drop_drop in E4. cbn in E4.
  pose proof (take_drop 4 (drop 12 l)) as E3. rewrite drop_drop in E3. cbn in E3.
  pose proof (take_drop 4 (drop 8 l)) as E2. rewrite drop_drop in E2. cbn in E2.
  rewrite E4, E3, E2. apply take_drop.
Qed.

Lemma dashed_length l : length l = 32%nat -> length (dashed l) = 36%nat.
Proof.
  intros H. unfold dashed.
  repeat (rewrite length_app || (cbn [length]) || rewrite length_take || rewrite length_drop).
  lia.
Qed.

Lemma string_of_list_length l : String.length (String.string_of_list_ascii l) = length l.
Proof. induction l; cbn; congruence. Qed.

Definition to_string (n : N) : string := String.string_of_list_ascii (dashed (char_of <$> digits 32 n)).

Definition parse (s : string) : error + UUID :=
  match mapM digit_of (undash (String.list_ascii_of_string s)) with
  | Some ds =>
    match decide (value ds < 2 ^ 128)%N with
    | left H => inr (dexist (value ds) H)
    | right _ => inl (OtherError "invalid UUID")
    end
  | None => inl (OtherError "invalid UUID")
  end.

Lemma chars_not_dash n : Forall (fun c => c <> dash) (char_of <$> digits 32 n).
Proof.
  apply Forall_fmap. eapply Forall_impl; [exact (digits_lt 32 n)|].
  intros d Hd. by apply digit_of_char_of.
Qed.

Lemma chars_ascii n : Forall (fun c => Ascii.N_of_ascii c < 128)%N (char_of <$> digits 32 n).
Proof.
  apply Forall_fmap. eapply Forall_impl; [exact (digits_lt 32 n)|]. intros d Hd. unfold compose, char_of.
  assert (d < 16)%N by exact Hd. rewrite Ascii.N_ascii_embedding; case_decide; lia.
Qed.

Lemma mapM_digits ds : Forall (fun d => (d < 16)%N) ds -> mapM digit_of (char_of <$> ds) = Some ds.
Proof.
  induction 1 as [|d ds Hd Hds IH]; [done|]. cbn [fmap list_fmap mapM].
  destruct (digit_of_char_of d Hd) as [E _]. change (char_of <$> d :: ds) with (char_of d :: (char_of <$> ds)).
  cbn [mapM]. rewrite E. cbn. by rewrite IH.
Qed.

Lemma parse_to_string (u : UUID) : parse (to_string (`u)) = inr u.
Proof.
  unfold parse, to_string.
  rewrite String.list_ascii_of_string_of_list_ascii, undash_dashed by apply chars_not_dash.
  rewrite mapM_digits by apply digits_lt.
  pose proof (proj2_dsig u) as Hu; cbn in Hu.
  assert (value (digits 32 (`u)) = `u) as Hv.
  { rewrite value_digits. apply N.mod_small. exact Hu. }
  destruct (decide _) as [H|H]; [|by rewrite Hv in H].
  f_equal. by apply dsig_eq.
Qed.

#[export] Instance lib : UuidLib := { uuid_String u := to_string (`u); uuid_Parse := parse }.

#[export] Instance laws : UuidLaws lib.
Proof.
  split.
  - apply parse_to_string.
  - intros u. change (String.length (to_string (`u)) = 36%nat).
    unfold to_string. rewrite string_of_list_length.
    apply dashed_length. by rewrite length_fmap, digits_length.
  - intros u. change (Forall (fun c => Ascii.N_of_ascii c < 128)%N (String.list_ascii_of_string (to_string (`u)))).
    unfold to_string. rewrite String.list_ascii_of_string_of_list_ascii. unfold dashed.
    assert (Ascii.N_of_ascii dash < 128)%N as Hd by done. pose proof (chars_ascii (`u)) as Hc.
    repeat (apply Forall_app_2 || (apply Forall_cons_2; [exact Hd|]) || apply Forall_take || apply Forall_drop ||
            exact Hc).
Qed.

(** The UUID with a given number. *)
Definition of_N (n : N) : UUID :=
  match decide (n < 2 ^ 128)%N with
  | left H => dexist n H
  | right _ => uuid_Nil
  end.

End Hex.

(** ** Redis *)

Module RefRedis.

(** A sorted set as a list by increasing score. *)
Definition score_le (p q : string * Z) : Prop := p.2 <= q.2.
#[local] Instance score_le_dec : RelDecision score_le := fun p q => Z_le_dec p.2 q.2.
#[local] Instance score_le_trans : Transitive score_le.
Proof. intros p q r. unfold score_le. lia. Qed.
#[local] Instance score_le_total : Total score_le.
Proof. intros p q. unfold score_le. lia. Qed.

Definition sorted (z : gmap string Z) : list (string * Z) := merge_sort score_le (map_to_list z).

Lemma sorted_in z m s : (m, s) ∈ sorted z <-> z !! m = Some s.
Proof. unfold sorted. rewrite merge_sort_Permutation. apply elem_of_map_to_list. Qed.
Lemma sorted_nodup z : NoDup (sorted z).*1.
Proof. unfold sorted. rewrite merge_sort_Permutation. apply NoDup_fst_map_to_list. Qed.
Lemma sorted_length z : length (sorted z) = size z.
Proof. unfold sorted. rewrite merge_sort_Permutation. apply length_map_to_list. Qed.
Lemma sorted_sorted z : StronglySorted score_le (sorted z).
Proof. apply StronglySorted_merge_sort; apply _. Qed.

Lemma StronglySorted_nth {A} (R : relation A) (Hrefl : Reflexive R) l i j x y :
  StronglySorted R l -> (i <= j)%nat -> l !! i = Some x -> l !! j = Some y -> R x y.
Proof.
  intros H. revert i j. induction H as [|a l Hl IH Ha]; intros i j Hij Hi Hj; [done|].
  destruct i as [|i], j as [|j]; cbn in *; inv_all; [done| |lia|].
  - by eapply Forall_lookup_1.
  - eapply IH; [|done..]. lia.
Qed.

Lemma take_in_fst (l : list (string * Z)) n m : m ∈ (take n l).*1 -> exists s, (m, s) ∈ take n l.
Proof. intros [[m' s] [-> H]]%list_elem_of_fmap. eauto. Qed.

(** *** Commands *)

Definition zrange (z : gmap string Z) (max limit : Z) : list string :=
  (take (Z.to_nat limit) (sorted (due max z))).*1.

Lemma zrange_ok z max limit : zrange_spec z max limit (zrange z max limit).
Proof.
  assert (forall m s, (m, s) ∈ sorted (due max z) -> z !! m = Some s) as Hz.
  { intros m s H. apply sorted_in, elem_of_due in H. by destruct H. }
  unfold zrange. set (n := Z.to_nat limit). set (l := sorted (due max z)) in *.
  pose proof (sorted_nodup (due max z)) as Hnd. pose proof (sorted_sorted (due max z)) as Hs.
  fold l in Hnd, Hs. rewrite <- (take_drop n l) in Hnd, Hs.
  split.
  - rewrite fmap_app in Hnd. by apply NoDup_app in Hnd as (? & _).
  - intros m [s H]%take_in_fst. exists s. apply sorted_in. fold l.
    rewrite <- (take_drop n l). apply elem_of_app. by left.
  - rewrite length_fmap, length_take. unfold l. by rewrite sorted_length.
  - intros i j m m' s s' Hij Hi Hj Hm Hm'. rewrite list_lookup_fmap in Hi, Hj.
    destruct (take n l !! i) as [p|] eqn:E1; [|done].
    destruct (take n l !! j) as [q|] eqn:E2; [|done]. cbn in *. inv_all.
    pose proof (StronglySorted_nth score_le ltac:(intros ?; unfold score_le; lia) _ _ _ _ _
      (StronglySorted_app_1_l _ _ _ Hs) Hij E1 E2) as Hpq. unfold score_le in Hpq.
    assert (forall k (x : string * Z), take n l !! k = Some x -> z !! x.1 = Some x.2) as HH.
    { intros k [a b] Hk. apply Hz. fold l. rewrite <- (take_drop n l). apply elem_of_app; left.
      by eapply list_elem_of_lookup_2. }
    apply HH in E1, E2. rewrite E1 in Hm. rewrite E2 in Hm'. by inv_all.
  - intros m m' s s' [s0 H]%take_in_fst Hn Hm Hm'.
    assert (z !! m = Some s0) as E.
    { apply Hz. fold l. rewrite <- (take_drop n l). apply elem_of_app. by left. }
    rewrite E in Hm. inv_all.
    apply sorted_in in Hm'. fold l in Hm'. rewrite <- (take_drop n l) in Hm'.
    apply elem_of_app in Hm' as [H'|H'].
    + destruct Hn. apply list_elem_of_fmap. by exists (m', s').
    + exact (StronglySorted_app_1_elem_of _ _ _ _ _ Hs H H').
Qed.

Definition zpop (z : gmap string Z) (count : Z) : gmap string Z * list (Z * string) :=
  let l := take (Z.to_nat count) (sorted z) in
  (fold_left (fun z k => delete k z) l.*1 z, prod_swap <$> l).

Lemma swap_fst (l : list (string * Z)) : (prod_swap <$> l).*2 = l.*1.
Proof. rewrite <- list_fmap_compose. by apply list_fmap_ext; intros ? [? ?]. Qed.

Lemma zpop_ok z count z' l : zpop z count = (z', l) -> zpop_spec z z' count l.
Proof.
  unfold zpop. set (n := Z.to_nat count). set (s := sorted z). intros [= <- <-].
  pose proof (sorted_nodup z) as Hnd. pose proof (sorted_sorted z) as Hs.
  fold s in Hnd, Hs. rewrite <- (take_drop n s) in Hnd, Hs.
  assert (forall m x, (m, x) ∈ take n s -> z !! m = Some x) as Hz.
  { intros m x H. apply sorted_in. fold s. rewrite <- (take_drop n s). apply elem_of_app. by left. }
  assert (forall x m, (x, m) ∈ prod_swap <$> take n s -> (m, x) ∈ take n s) as Hsw.
  { intros x m [[a b] [[= -> ->] H]]%list_elem_of_fmap. done. }
  split.
  - rewrite swap_fst, fmap_app in *. by apply NoDup_app in Hnd as (? & _).
  - intros x m H. apply Hz, Hsw, H.
  - rewrite length_fmap, length_take. unfold s. by rewrite sorted_length.
  - intros m. rewrite swap_fst. apply fold_left_delete_lookup.
  - intros i j p q Hij Hi Hj. rewrite list_lookup_fmap in Hi, Hj.
    destruct (take n s !! i) as [[a b]|] eqn:E1; [|done].
    destruct (take n s !! j) as [[c d]|] eqn:E2; [|done]. cbn in *. inv_all.
    exact (StronglySorted_nth score_le ltac:(intros ?; unfold score_le; lia) _ _ _ _ _
      (StronglySorted_app_1_l _ _ _ Hs) Hij E1 E2).
  - intros x m m' x' H Hm'. apply Hsw in H. rewrite fold_left_delete_lookup in Hm'.
    case_decide as Hin; [done|]. apply sorted_in in Hm'. fold s in Hm'.
    rewrite <- (take_drop n s) in Hm'. apply elem_of_app in Hm' as [H'|H'].
    + destruct Hin. apply list_elem_of_fmap. by exists (m', x').
    + exact (StronglySorted_app_1_elem_of _ _ _ _ _ Hs H H').
Qed.

(** A 64-bit increment, or nothing when the value is not an integer or the
    result overflows. *)
Definition incr (x : option rval) (d : Z) : option Z :=
  match counter x with
  | Some old => if decide (is_int64 (old + d)) then Some (old + d) else None
  | None => None
  end.

(** One command: the contents after it and its reply, or [None] for an error
    reply. *)
Definition call (c : rcall) (now : Z) (v : redis) : option (redis * rreply c) :=
  match c return option (redis * rreply c) with
  | ZADD k items => Some (set_zset k (zadd_all items (zset v k)) v, 0)
  | ZREM k m => Some (set_zset k (delete m (zset v k)) v,
                      if decide (is_Some (zset v k !! m)) then 1 else 0)
  | ZRANGEBYSCORE k max limit => Some (v, zrange (zset v k) max limit)
  | ZPOPMIN k count => let '(z', l) := zpop (zset v k) count in Some (set_zset k z' v, l)
  | HINCRBY k f d => n ← incr (hash v k !! f) d;
                     Some (set_hash k (<[f := RInt n]> (hash v k)) v, n)
  | HSET k fs => Some (set_hash k (hset_all fs (hash v k)) v, 0)
  | HSETNX k f x => match hash v k !! f with
                    | Some _ => Some (v, false)
                    | None => Some (set_hash k (<[f := x]> (hash v k)) v, true)
                    end
  | HGET k f => Some (v, hash v k !! f)
  | HGETALL k => Some (v, hash v k)
  | INCR k => n ← incr (live now v k) 1;
              Some (set_str k (Some (RInt n, if live now v k then (strs v !! k) ≫= snd
                                             else None)) v, n)
  | EXPIRE k ttl => match live now v k with
                    | Some x => Some (set_str k (Some (x, Some (now + ttl))) v, true)
                    | None => Some (v, false)
                    end
  | DEL k => Some (set_str k None (set_hash k ∅ (set_zset k ∅ v)),
                   if exists_key now v k then 1 else 0)
  | GET k => Some (v, rval_text <$> live now v k)
  | SET k data ttl => Some (set_str k (Some (RStr data, Some (now + ttl))) v, tt)
  end.

Lemma incr_ok x d n : incr x d = Some n -> exists old, counter x = Some old /\ n = old + d /\ is_int64 n.
Proof. unfold incr. destruct (counter x); [|done]. case_decide; [|done]. intros [= <-]. eauto. Qed.

Lemma call_ok c now v v' r : call c now v = Some (v', r) -> rcall_spec c now v v' r.
Proof.
  destruct c; cbn; intros H.
  3: { injection H as <- <-. split; [done|]. apply zrange_ok. }
  3: { injection H as <- <-. eexists. split; [done|]. by apply zpop_ok. }
  3: { destruct (incr _ _) as [n|] eqn:E; [|done]. injection H as <- <-.
       apply incr_ok in E as (old & ? & ? & ?). eauto. }
  7: { destruct (incr _ _) as [n|] eqn:E; [|done]. cbn in H. injection H as <- <-.
       apply incr_ok in E as (old & ? & ? & ?). eauto. }
  all: repeat case_match; inv_all; done.
Qed.

Fixpoint lua_call {A} (p : lua A) (now : Z) (v : redis) : option (redis * A) :=
  match p with
  | LuaRet a => Some (v, a)
  | LuaCall c k => match call c now v with
                   | Some (v1, r) => lua_call (k r) now v1
                   | None => None
                   end
  end.

Lemma lua_call_ok {A} (p : lua A) now v v' a : lua_call p now v = Some (v', a) -> lua_spec p now v v' a.
Proof.
  revert v. induction p as [x|c k IH]; intros v; cbn; [by intros [= -> ->]|].
  destruct (call c now v) as [[v1 r]|] eqn:E; [|done]. intros H.
  exists v1, r. split; [by apply call_ok | by apply IH].
Qed.

Definition exec (c : rcmd) (now : Z) (v : redis) : option (redis * rcmd_reply c) :=
  match c return option (redis * rcmd_reply c) with
  | Call c => call c now v
  | EVAL s ks xs => lua_call (s ks xs) now v
  end.

Lemma exec_ok c now v v' r : exec c now v = Some (v', r) -> rcmd_spec c now v v' r.
Proof. destruct c; cbn; [apply call_ok | apply lua_call_ok]. Qed.

End RefRedis.

(** ** Postgres *)

Module RefPostgres.

Definition fresh_id {R} (t : gmap UUID R) (next : N) : option UUID :=
  let id := Hex.of_N next in
  match t !! id with Some _ => None | None => Some id end.

Definition by_email (e : string) (d : database) : option (UUID * user_row) :=
  head (filter (fun x => u_email x.2 = e) (map_to_list (users d))).

Definition row_le (a b : UUID * monitor_row) : Prop := mr_updated_at a.2 <= mr_updated_at b.2.
#[local] Instance row_le_dec : RelDecision row_le :=
  fun a b => Z_le_dec (mr_updated_at a.2) (mr_updated_at b.2).
#[local] Instance row_le_trans : Transitive row_le.
Proof. intros p q r. unfold row_le. lia. Qed.
#[local] Instance row_le_total : Total row_le.
Proof. intros p q. unfold row_le. lia. Qed.

Definition rows_of (u : pgUUID) (d : database) : list (UUID * monitor_row) :=
  merge_sort row_le (map_to_list (filter (fun x => pgu_Valid u = true /\
                              mr_user_id x.2 = pgu_Bytes u) (monitors d))).

Definition check_violation {A} : error + A := inl (PgError "23514").
Definition unique_violation {A} : error + A := inl (PgError "23505").
Definition foreign_key_violation {A} : error + A := inl (PgError "23503").

(** One statement at server time [now], with [next] the next identifier. *)
Definition exec (q : query) (now : Z) (next : N) (d : database) : error + (database * query_reply q) :=
  match q return error + (database * query_reply q) with
  | Q_CreateUser n e h =>
      match fresh_id (users d) next, by_email e d with
      | Some id, None => inr (set_users <[id := MkUserRow n e h (Some 0) (Some false)]> d, ToPgUUID id)
      | _, _ => unique_violation
      end
  | Q_GetUserByID id => inr (d, user_cols (pgu_Bytes id) <$> by_id (users d) id)
  | Q_GetUserByEmail e => inr (d, (fun x => email_cols x.1 x.2) <$> by_email e d)
  | Q_IncrementMonitorCount id => inr (sql_increment id d)
  | Q_CreateMonitor p =>
      match fresh_id (monitors d) next, by_id (users d) (cmp_UserID p) with
      | Some id, Some _ =>
          let r := MkMonitorRow (pgu_Bytes (cmp_UserID p)) (cmp_Url p)
                     (text_param (cmp_AlertEmail p)) (cmp_IntervalSec p) (cmp_TimeoutSec p)
                     (cmp_LatencyThresholdMs p) (cmp_ExpectedStatus p) true now in
          if monitor_checks r then inr (set_monitors <[id := r]> d, ToPgUUID id)
          else check_violation
      | None, _ => unique_violation
      | _, None => foreign_key_violation
      end
  | Q_GetMonitorByID id => inr (d, sql_get_monitor_by_id id d)
  | Q_GetMonitor id u => inr (d, sql_get_monitor id u d)
  | Q_GetAllMonitorByUserID u limit offset =>
      if decide (0 <= limit /\ 0 <= offset) then
        inr (d, (fun x => monitor_cols x.1 x.2) <$>
                take (Z.to_nat limit) (drop (Z.to_nat offset) (rows_of u d)))
      else inl (PgError "2201W")
  | Q_UpdateMonitorStatus id b u => inr (sql_update_status id b u d)
  | Q_CreateMonitorIncident p =>
      match fresh_id (incidents d) next, by_id (monitors d) (cip_MonitorID p),
            time_param (cip_StartTime p) with
      | Some id, Some _, Some t =>
          let r := MkIncidentRow (pgu_Bytes (cip_MonitorID p)) t None (cip_Alerted p)
                     (cip_HttpStatus p) (cip_LatencyMs p) now in
          if incident_checks r then inr (set_incidents <[id := r]> d, tt) else check_violation
      | None, _, _ => unique_violation
      | _, None, _ => foreign_key_violation
      | _, _, None => inl (PgError "23502")
      end
  | Q_GetMonitorIncidentByID id => inr (d, incident_cols (pgu_Bytes id) <$> by_id (incidents d) id)
  | Q_CloseMonitorIncident id t =>
      if forallb (fun x => if decide (open_incident_of id x.2)
                           then incident_checks (with_end_time (time_param t) x.2) else true)
           (map_to_list (incidents d))
      then inr (sql_close id t d) else check_violation
  end.

Lemma fresh_id_ok {R} (t : gmap UUID R) n id : fresh_id t n = Some id -> t !! id = None.
Proof. unfold fresh_id. destruct (t !! Hex.of_N n) eqn:E; [done|]. by intros [= <-]. Qed.

Lemma by_email_some e d i r : by_email e d = Some (i, r) -> users d !! i = Some r /\ u_email r = e.
Proof.
  unfold by_email. intros H%head_Some_elem_of. apply list_elem_of_filter in H as [H1 H2].
  by apply elem_of_map_to_list in H2.
Qed.
Lemma by_email_none e d : by_email e d = None -> forall i r, users d !! i = Some r -> u_email r <> e.
Proof.
  unfold by_email. intros H%head_None i r Hi He.
  assert ((i, r) ∈ filter (fun x => u_email x.2 = e) (map_to_list (users d))) as Hin.
  { apply list_elem_of_filter. split; [done|]. by apply elem_of_map_to_list. }
  rewrite H in Hin. by apply not_elem_of_nil in Hin.
Qed.

Lemma rows_of_sorted u d : sorted_rows u d (rows_of u d).
Proof.
  split; [apply merge_sort_Permutation|]. apply StronglySorted_merge_sort; apply _.
Qed.

Lemma close_checks id t d i r :
  forallb (fun x => if decide (open_incident_of id x.2)
                    then incident_checks (with_end_time (time_param t) x.2) else true)
    (map_to_list (incidents d)) = true ->
  incidents d !! i = Some r -> open_incident_of id r ->
  incident_checks (with_end_time (time_param t) r) = true.
Proof.
  intros H Hi Ho. rewrite List.forallb_forall in H.
  specialize (H (i, r)). cbn in H. rewrite decide_True in H by done. apply H.
  by apply list_elem_of_In, elem_of_map_to_list.
Qed.

Lemma exec_sound q now next d d' r : exec q now next d = inr (d', r) -> query_spec q d d' r.
Proof.
  destruct q; unfold exec, query_spec, unique_violation, check_violation, foreign_key_violation;
    intros H.
  - destruct (fresh_id _ _) eqn:E1; [|done]. destruct (by_email _ _) eqn:E2; [done|].
    injection H as <- <-. unfold sql_create_user. eauto 10 using fresh_id_ok, by_email_none.
  - by injection H as <- <-.
  - injection H as <- <-. split; [done|].
    destruct (by_email email d) as [[i u]|] eqn:E; cbn.
    + apply by_email_some in E as [? ?]. eauto.
    + by apply by_email_none.
  - by injection H as ->.
  - destruct (fresh_id _ _) eqn:E1; [|done]. destruct (by_id _ _) eqn:E2; [|done].
    destruct (monitor_checks _) eqn:E3; [|done]. injection H as <- <-.
    unfold sql_create_monitor. rewrite E2. eauto 10 using fresh_id_ok.
  - by injection H as <- <-.
  - by injection H as <- <-.
  - case_decide as Hlo; [|done]. injection H as <- <-. destruct Hlo.
    repeat split; [done..|]. eexists. split; [apply rows_of_sorted|done].
  - by injection H as ->.
  - destruct (fresh_id _ _) eqn:E1; [|done]. destruct (by_id _ _) eqn:E2; [|done].
    destruct (time_param _) eqn:E3; [|done]. destruct (incident_checks _) eqn:E4; [|done].
    injection H as <- <-. unfold sql_create_incident. rewrite E2. eauto 15 using fresh_id_ok.
  - by injection H as <- <-.
  - destruct (forallb _ _) eqn:E; [|done]. split; [congruence|].
    intros i x. by apply close_checks.
Qed.

End RefPostgres.

(** ** The services *)

Module RefWorld.

(** A world: the contents of the servers, the clocks, the identifier of the
    next inserted row, and what the environment will do: which Redis commands
    and which statements fail ([true]: fails without effect), random numbers,
    what the monitored sites answer, choices of [select]. *)
Record t := Mk {
  s_redis : redis;
  s_db : database;
  s_ms : Z;
  s_ns : Z;
  s_next : N;
  s_redis_faults : list bool;
  s_db_faults : list bool;
  s_rand : list Z;
  s_http : list (error + Z);
  s_first : list bool;
  s_ctx_done : bool
}.

(** The result of an external call, the fault script being consumed. *)
Definition faulty (l : list bool) : bool * list bool :=
  match l with b :: l => (b, l) | [] => (false, []) end.

Definition redis_exec (c : rcmd) (w : t) : t * (error + rcmd_reply c) :=
  let '(fail, fs) := faulty (s_redis_faults w) in
  let upd v := Mk v (s_db w) (s_ms w) (s_ns w) (s_next w) fs (s_db_faults w) (s_rand w) (s_http w)
                  (s_first w) (s_ctx_done w) in
  if (fail : bool) then (upd (s_redis w), inl (OtherError "i/o timeout"))
  else match RefRedis.exec c (s_ms w) (s_redis w) with
       | Some (v, r) => (upd v, inr r)
       | None => (upd (s_redis w), inl (OtherError "ERR value is not an integer or out of range"))
       end.

Definition db_exec (q : query) (w : t) : t * (error + query_reply q) :=
  let '(fail, fs) := faulty (s_db_faults w) in
  let upd d := Mk (s_redis w) d (s_ms w) (s_ns w) (N.succ (s_next w)) (s_redis_faults w) fs (s_rand w)
                  (s_http w) (s_first w) (s_ctx_done w) in
  if (fail : bool) then (upd (s_db w), inl (OtherError "conn closed"))
  else match RefPostgres.exec q (s_ns w) (s_next w) (s_db w) with
       | inr (d, r) => (upd d, inr r)
       | inl e => (upd (s_db w), inl e)
       end.

Definition time_now (w : t) : t * Z := (w, s_ns w).

(** Lets [d] nanoseconds pass on both clocks. *)
Definition elapse (d : Z) (w : t) : t :=
  Mk (s_redis w) (s_db w) (s_ms w + Z.max 0 (d / Millisecond)) (s_ns w + Z.max 0 d) (s_next w)
     (s_redis_faults w) (s_db_faults w) (s_rand w) (s_http w) (s_first w) (s_ctx_done w).

Definition int63n (n : Z) (w : t) : t * Z :=
  match s_rand w with
  | x :: l => (Mk (s_redis w) (s_db w) (s_ms w) (s_ns w) (s_next w) (s_redis_faults w)
                  (s_db_faults w) l (s_http w) (s_first w) (s_ctx_done w), x mod n)
  | [] => (w, 0)
  end.

Definition after_or_done (x : ctx) (d : Z) (w : t) : t * option error :=
  match x with
  | CtxApp => if s_ctx_done w then (w, Some Canceled) else (elapse d w, None)
  | CtxRequest => (elapse d w, None)
  end.

Definition http_do (url : string) (d : Z) (w : t) : t * (error + Z) :=
  match s_http w with
  | o :: l => (elapse (100 * Millisecond)
                 (Mk (s_redis w) (s_db w) (s_ms w) (s_ns w) (s_next w) (s_redis_faults w)
                     (s_db_faults w) (s_rand w) l (s_first w) (s_ctx_done w)), o)
  | [] => (elapse (100 * Millisecond) w, inr 200)
  end.

Definition select_first (w : t) : t * bool :=
  match s_first w with
  | b :: l => (Mk (s_redis w) (s_db w) (s_ms w) (s_ns w) (s_next w) (s_redis_faults w)
                  (s_db_faults w) (s_rand w) (s_http w) l (s_ctx_done w), b)
  | [] => (w, true)
  end.

#[export] Instance services : Services := {
  world := t;
  rview := s_redis;
  dview := s_db;
  rclock := s_ms;
  gclock := s_ns;
  Effects.redis_exec := redis_exec;
  Effects.db_exec := db_exec;
  Effects.time_now := time_now;
  Effects.int63n := int63n;
  Effects.after_or_done := after_or_done;
  new_request url := if decide (url = "") then Some (OtherError "empty url") else None;
  Effects.http_do := http_do;
  ctx_done x w := match x with CtxApp => s_ctx_done w | CtxRequest => false end;
  Effects.select_first := select_first;
  create_hash s w := (w, inr ("argon2id:" +:+ s));
  compare_hash s h := inr (bool_decide (h = "argon2id:" +:+ s))
}.

Lemma redis_exec_cases c w :
  (exists fs v r, RefRedis.exec c (s_ms w) (s_redis w) = Some (v, r) /\
     redis_exec c w = (Mk v (s_db w) (s_ms w) (s_ns w) (s_next w) fs (s_db_faults w) (s_rand w)
                         (s_http w) (s_first w) (s_ctx_done w), inr r)) \/
  (exists fs m, redis_exec c w = (Mk (s_redis w) (s_db w) (s_ms w) (s_ns w) (s_next w) fs
                         (s_db_faults w) (s_rand w) (s_http w) (s_first w) (s_ctx_done w),
                       inl (OtherError m))).
Proof.
  unfold redis_exec. destruct (faulty (s_redis_faults w)) as [[] fs]; [eauto|].
  destruct (RefRedis.exec c (s_ms w) (s_redis w)) as [[v r]|] eqn:E; [left|right]; eauto 10.
Qed.

Lemma elapse_unobserved d w w1 :
  s_redis w1 = s_redis w -> s_db w1 = s_db w -> s_ms w1 = s_ms w -> s_ns w1 = s_ns w ->
  unobserved w (elapse d w1).
Proof. intros H1 H2 H3 H4. repeat split; cbn; [congruence..|lia|lia]. Qed.

#[export] Instance laws : ServiceLaws services.
Proof.
  split; cbn.
  - intros c w w' r H.
    destruct (redis_exec_cases c w) as [(fs & v & r' & E & E')|(fs & m & E')];
      rewrite E' in H; [|discriminate]. injection H as <- ->. cbn. by apply RefRedis.exec_ok.
  - intros c w w' e H.
    destruct (redis_exec_cases c w) as [(fs & v & r' & E & E')|(fs & m & E')];
      rewrite E' in H; [discriminate|]. injection H as <- _. by left.
  - intros c w w' o H.
    destruct (redis_exec_cases c w) as [(fs & v & r' & E & E')|(fs & m & E')];
      rewrite E' in H; injection H as <- _; unfold later; cbn; split_and!; done || lia.
  - intros k w w' H.
    destruct (redis_exec_cases (Call (HGETALL k)) w) as [(fs & v & r' & E & E')|(fs & m & E')];
      rewrite E' in H; discriminate.
  - unfold db_exec. intros q w w' r. destruct (faulty _) as [[] fs]; [discriminate|].
    destruct (RefPostgres.exec q _ _ _) as [e|[d r']] eqn:E; [discriminate|].
    intros [= <- <-]. cbn. by eapply RefPostgres.exec_sound.
  - unfold db_exec. intros q w w' r. destruct (faulty _) as [[] fs]; [intros [= <- _]; by left|].
    destruct (RefPostgres.exec q _ _ _) as [e|[d r']] eqn:E; [|discriminate].
    intros [= <- <-]. by left.
  - unfold db_exec. intros q w w' r. destruct (faulty _) as [[] fs].
    { intros [= <- _]; unfold later; cbn. split_and!; done || lia. }
    destruct (RefPostgres.exec q _ _ _) as [e|[d r']] eqn:E; intros [= <- <-];
      unfold later; cbn; split_and!; done || lia.
  - intros w w' x [= <- <-]. split; [apply unobserved_refl|cbn; lia].
  - intros n w w' r. unfold int63n. destruct (s_rand w); intros [= <- <-]; cbn.
    + split; [repeat split; lia|lia].
    + split; [repeat split; cbn; lia|]. intros. by apply Z.mod_pos_bound.
  - unfold after_or_done. intros x d w w' o H. destruct x; [destruct (s_ctx_done w)|];
      injection H as <- <-; (split; [|]).
    all: try (by intros e [= <-]; left). all: try done.
    all: by apply unobserved_refl || apply elapse_unobserved.
  - intros url d w w' o. unfold http_do. destruct (s_http w); intros [= <- <-]; by apply elapse_unobserved.
  - intros w w' b. unfold select_first. destruct (s_first w); intros [= <- <-]; repeat split; cbn; lia.
  - intros s w w' o [= <- <-]. repeat split; cbn; lia.
  - intros s w w' h [= <- <-]. by rewrite bool_decide_eq_true_2.
Qed.

Definition redis_empty : redis := MkRedis ∅ ∅ ∅.
Definition database_empty : database := MkDatabase ∅ ∅ ∅.

(** A world without faults, at a given time (nanoseconds). *)
Definition start (v : redis) (d : database) (ns : Z) : t :=
  Mk v d (UnixMilli ns) ns 1000 [] [] [] [] [] false.
Definition with_redis_faults (fs : list bool) (w : t) : t :=
  Mk (s_redis w) (s_db w) (s_ms w) (s_ns w) (s_next w) fs (s_db_faults w) (s_rand w) (s_http w)
     (s_first w) (s_ctx_done w).
Definition with_http (l : list (error + Z)) (w : t) : t :=
  Mk (s_redis w) (s_db w) (s_ms w) (s_ns w) (s_next w) (s_redis_faults w) (s_db_faults w) (s_rand w) l
     (s_first w) (s_ctx_done w).

(** The termination signal has come. *)
Definition cancelled (w : t) : t :=
  Mk (s_redis w) (s_db w) (s_ms w) (s_ns w) (s_next w) (s_redis_faults w) (s_db_faults w) (s_rand w) (s_http w)
     (s_first w) true.

(** Channels with room for ten elements each. *)
Definition proc10 : proc :=
  MkProc (ch_make _ 10) (ch_make _ 10) (ch_make _ 10) (ch_make _ 10) (ch_make _ 10) 0 10.

End RefWorld.

(** ** A text format for any countable type *)

Module Codec.

Fixpoint bits (p : positive) : string :=
  match p with
  | xH => ""
  | xO p => String (Ascii.ascii_of_N 48) (bits p)
  | xI p => String (Ascii.ascii_of_N 49) (bits p)
  end.

Fixpoint unbits (s : string) : option positive :=
  match s with
  | EmptyString => Some xH
  | String c s => if decide (c = Ascii.ascii_of_N 48) then xO <$> unbits s
                  else if decide (c = Ascii.ascii_of_N 49) then xI <$> unbits s else None
  end.

Lemma unbits_bits p : unbits (bits p) = Some p.
Proof. induction p as [p IH|p IH|]; cbn; rewrite ?IH; done. Qed.

Definition print {A} `{Countable A} (x : A) : string := bits (encode x).
Definition parse {A} `{Countable A} (s : string) : option A := unbits s ≫= decode.

Lemma parse_encoded {A} `{Countable A} (x : A) : parse (print x) = Some x.
Proof. unfold parse, print. rewrite unbits_bits. cbn. apply decode_encode. Qed.

End Codec.

(** ** Example data for the witnesses *)

Module Demo.

Definition uid1 : UUID := Hex.of_N 17.
Definition uid2 : UUID := Hex.of_N 34.
Definition owner : UUID := Hex.of_N 99.

(** January 2026, in nanoseconds and in milliseconds. *)
Definition t0 : Z := 1769000000000 * Millisecond.
Definition ms0 : Z := 1769000000000.

(** Two monitors due, one that is not, one in flight whose deadline has
    passed. *)
Definition queue : redis :=
  MkRedis
    {[ "monitor:schedule" := {[ Hex.to_string 17 := ms0 - 500;
                                Hex.to_string 34 := ms0 - 1000;
                                Hex.to_string 51 := ms0 + 60000 ]};
       "monitor:inflight" := {[ Hex.to_string 68 := ms0 - 1 ]} ]} ∅ ∅.

Definition world0 : @world RefWorld.services := RefWorld.start queue RefWorld.database_empty t0.

(** The same, all channels of the process having no room. *)
Definition proc_full : proc :=
  MkProc (ch_make _ 0) (ch_make _ 0) (ch_make _ 0) (ch_make _ 0) (ch_make _ 0) 0 10.

Definition sys0 : @sys RefWorld.services := MkSys world0 RefWorld.proc10.

End Demo.
