(* ===== verification/MonitorJSON.v ===== *)
(** * A monitor as JSON

    service.go of internals/modules/monitor caches a monitor as the JSON of its
    struct, which has no tags: the names are those of the fields.  A UUID is
    written by its [MarshalText] and read by its [UnmarshalText], which are
    [String] and [Parse] of github.com/google/uuid. *)

From S2P Require Import Prelude AppError Types Json Decode Redis Postgres Effects Rules Reference.
From stdpp Require Import gmap list strings pretty sorting.
#[local] Open Scope Z_scope.

Section Monitor.
Context {U : UuidLib}.

(** The fields of [Monitor]. *)
Definition Monitor_fields : list (string * store Monitor) :=
  [("ID", store_text uuid_Parse (fun x m => MkMonitor x (m_UserID m) (m_Url m) (m_AlertEmail m)
      (m_IntervalSec m) (m_TimeoutSec m) (m_LatencyThresholdMs m) (m_ExpectedStatus m) (m_Enabled m)));
   ("UserID", store_text uuid_Parse (fun x m => MkMonitor (m_ID m) x (m_Url m) (m_AlertEmail m)
      (m_IntervalSec m) (m_TimeoutSec m) (m_LatencyThresholdMs m) (m_ExpectedStatus m) (m_Enabled m)));
   ("Url", store_string (fun x m => MkMonitor (m_ID m) (m_UserID m) x (m_AlertEmail m)
      (m_IntervalSec m) (m_TimeoutSec m) (m_LatencyThresholdMs m) (m_ExpectedStatus m) (m_Enabled m)));
   ("AlertEmail", store_string (fun x m => MkMonitor (m_ID m) (m_UserID m) (m_Url m) x
      (m_IntervalSec m) (m_TimeoutSec m) (m_LatencyThresholdMs m) (m_ExpectedStatus m) (m_Enabled m)));
   ("IntervalSec", store_int32 (fun x m => MkMonitor (m_ID m) (m_UserID m) (m_Url m) (m_AlertEmail m)
      x (m_TimeoutSec m) (m_LatencyThresholdMs m) (m_ExpectedStatus m) (m_Enabled m)));
   ("TimeoutSec", store_int32 (fun x m => MkMonitor (m_ID m) (m_UserID m) (m_Url m) (m_AlertEmail m)
      (m_IntervalSec m) x (m_LatencyThresholdMs m) (m_ExpectedStatus m) (m_Enabled m)));
   ("LatencyThresholdMs", store_int32 (fun x m => MkMonitor (m_ID m) (m_UserID m) (m_Url m) (m_AlertEmail m)
      (m_IntervalSec m) (m_TimeoutSec m) x (m_ExpectedStatus m) (m_Enabled m)));
   ("ExpectedStatus", store_int32 (fun x m => MkMonitor (m_ID m) (m_UserID m) (m_Url m) (m_AlertEmail m)
      (m_IntervalSec m) (m_TimeoutSec m) (m_LatencyThresholdMs m) x (m_Enabled m)));
   ("Enabled", store_bool (fun x m => MkMonitor (m_ID m) (m_UserID m) (m_Url m) (m_AlertEmail m)
      (m_IntervalSec m) (m_TimeoutSec m) (m_LatencyThresholdMs m) (m_ExpectedStatus m) x))].

Definition Monitor_json (m : Monitor) : json :=
  JObject [("ID", JString (uuid_String (m_ID m))); ("UserID", JString (uuid_String (m_UserID m)));
           ("Url", JString (m_Url m)); ("AlertEmail", JString (m_AlertEmail m));
           ("IntervalSec", JInt (m_IntervalSec m)); ("TimeoutSec", JInt (m_TimeoutSec m));
           ("LatencyThresholdMs", JInt (m_LatencyThresholdMs m)); ("ExpectedStatus", JInt (m_ExpectedStatus m));
           ("Enabled", JBool (m_Enabled m))].

(** [json.Marshal(m)], which has no error for this type, and
    [json.Unmarshal(data, &m)]. *)
Definition json_Marshal (m : Monitor) : error + string := inr (print (Monitor_json m)).
Definition json_Unmarshal (data : string) : error + Monitor := Unmarshal Monitor_fields Monitor_zero data.

(** The texts are UTF-8 and the numbers have 32 bits, as those of the table. *)
Definition storable (m : Monitor) : Prop :=
  valid_text (m_Url m) /\ valid_text (m_AlertEmail m) /\ is_int32 (m_IntervalSec m) /\
  is_int32 (m_TimeoutSec m) /\ is_int32 (m_LatencyThresholdMs m) /\ is_int32 (m_ExpectedStatus m).

Lemma storable_intro m :
  valid_text (m_Url m) -> valid_text (m_AlertEmail m) -> is_int32 (m_IntervalSec m) ->
  is_int32 (m_TimeoutSec m) -> is_int32 (m_LatencyThresholdMs m) -> is_int32 (m_ExpectedStatus m) -> storable m.
Proof. intros. by split_and!. Qed.

(** A check that suffices: the texts are ASCII. *)
Definition ascii (s : string) : Prop := Forall (fun c => Ascii.N_of_ascii c < 128)%N (String.list_ascii_of_string s).
Definition storableb (m : Monitor) : bool :=
  bool_decide (ascii (m_Url m)) && bool_decide (ascii (m_AlertEmail m)) &&
  forallb (fun z => bool_decide (- 2 ^ 31 <= z < 2 ^ 31))
    [m_IntervalSec m; m_TimeoutSec m; m_LatencyThresholdMs m; m_ExpectedStatus m].

Lemma storable_check m : storableb m = true -> storable m.
Proof.
  unfold storableb, storable. cbn [forallb].
  intros [[H1%bool_decide_eq_true H2%bool_decide_eq_true]%andb_true_iff H]%andb_true_iff.
  repeat (apply andb_true_iff in H as [?%bool_decide_eq_true H]). split_and!; try done; by apply valid_ascii.
Qed.

Lemma json_Marshal_ok m : exists data, json_Marshal m = inr data.
Proof. by eexists. Qed.

Ltac cbn_Monitor := cbn [m_ID m_UserID m_Url m_AlertEmail m_IntervalSec m_TimeoutSec m_LatencyThresholdMs
  m_ExpectedStatus m_Enabled Monitor_zero] in *.

Lemma Monitor_roundtrip {UL : UuidLaws U} m data :
  storable m -> json_Marshal m = inr data -> json_Unmarshal data = inr m.
Proof.
  intros (Hu & He & H1 & H2 & H3 & H4) E%(inj inr). subst data.
  unfold json_Unmarshal, Unmarshal.
  rewrite parse_print; [|by cbn; eauto 20|by apply (bool_decide_unpack _)].
  destruct m as [id uid url mail n1 n2 n3 n4 b]. unfold Monitor_json. cbn_Monitor.
  cbn [coerce_json List.map fst snd JInt]. rewrite !uuid_String_valid, !(coerce_valid _ Hu), !(coerce_valid _ He).
  coerce_names. cbn [decode_struct].
  pose proof (uuid_Parse_String id) as Pi. pose proof (uuid_Parse_String uid) as Pu.
  do 2 (erewrite decode_member; [|reflexivity|unfold store_text; rewrite ?Pi, ?Pu; reflexivity]; cbn_Monitor).
  do 2 (erewrite decode_member; [|reflexivity|reflexivity]; cbn_Monitor).
  do 4 (erewrite decode_member; [|reflexivity|by apply store_int32_pretty]; cbn_Monitor).
  by erewrite decode_member; [|reflexivity|reflexivity].
Qed.

(** C22: the cached form of a monitor loses nothing.  For a monitor with UTF-8
    texts and 32-bit numbers, [json.Marshal] gives a text that
    [json.Unmarshal] reads back as that monitor, and no other such monitor has
    the same text. *)
Theorem json_roundtrip {UL : UuidLaws U} m :
  storable m ->
  exists data, json_Marshal m = inr data /\ json_Unmarshal data = inr m /\
    forall m', storable m' -> json_Marshal m' = inr data -> m' = m.
Proof.
  intros Hm. destruct (json_Marshal_ok m) as [data E]. exists data.
  pose proof (Monitor_roundtrip m data Hm E) as R. split_and!; [done..|].
  intros m' Hm' E'. pose proof (Monitor_roundtrip m' data Hm' E') as R'. congruence.
Qed.

End Monitor.

(** ** Witness *)

#[local] Existing Instance Hex.lib.
#[local] Existing Instance Hex.laws.

(** With a quote, an ampersand, an accent and a negative number. *)
Definition json_demo : Monitor :=
  MkMonitor Demo.uid1 Demo.owner ("https://example.org/?a=1&b=<2>" +:+ byte1 quot) ("zo" +:+ utf8 233 +:+ "@example.org")
    60 120 (-1) 200 true.

Lemma json_demo_storable : storable json_demo.
Proof.
  split_and!; try done.
  - apply valid_ascii. by apply (bool_decide_unpack _).
  - apply valid_app; [|apply valid_app].
    + apply valid_ascii. by apply (bool_decide_unpack _).
    + apply valid_utf8. by left.
    + apply valid_ascii. by apply (bool_decide_unpack _).
Qed.

Lemma json_roundtrip_witness :
  exists data, json_Marshal json_demo = inr data /\ json_Unmarshal data = inr json_demo /\
    forall m', storable m' -> json_Marshal m' = inr data -> m' = json_demo.
Proof. exact (json_roundtrip json_demo json_demo_storable). Defined.

(** The other files use the codec through its laws. *)
#[global] Opaque json_Marshal json_Unmarshal storable.
