(* ===== verification/RedisStore.v ===== *)
(** * pkg/redisstore: the Redis client of the service

    One definition per method of [redisstore.Client], on the commands of the
    file Redis; [retry] is retry.go.  The lemmas give, for each method the
    pipeline uses, its effect on the contents of the server when no call
    fails ([wp no_fault]). *)

From S2P Require Import Prelude AppError Types Redis Postgres Effects Rules.
From stdpp Require Import gmap list strings pretty sorting.
#[local] Open Scope Z_scope.

(** A round trip of the client, its error, and go-redis' convention that a
    nil reply is the error [redis.Nil]. *)
Definition rdb (c : rcall) : prog (error + rreply c) := op (Redis (Call c)).

Definition err_of {A} (x : error + A) : option error :=
  match x with inl e => Some e | inr _ => None end.

Definition nil_err {A} (x : error + option A) : error + A :=
  match x with
  | inl e => inl e
  | inr None => inl RedisNil
  | inr (Some a) => inr a
  end.

(** [HGetAll(...).Result()] *)
Definition hgetall (k : string) : prog (error + gmap string rval) := rdb (HGETALL k).

(** A hash as the client decodes it, [map[string]string]. *)
Definition texts (h : gmap string rval) : gmap string string := rval_text <$> h.

(** ** retry.go *)

Section Retry.
Context {V : Type} (x : ctx) (fn : V -> prog (V * option error)).

(** Iterations [i, i+1, ...] of the loop, [n] of them left; [v] is the state
    of the variables that [fn] captures, [err] the last error. *)
Fixpoint retry_from (i : Z) (n : nat) (v : V) (err : option error) : prog (V * option error) :=
  match n with
  | O => mret (v, err)
  | S n =>
    '(v, err) ← fn v;
    match err with
    | None => mret (v, None)
    | Some e =>
      d ← op (AfterOrDone x (50 * (i + 1) * Millisecond));
      match d with
      | Some ctx_err => mret (v, Some ctx_err)
      | None => retry_from (i + 1) n v (Some e)
      end
    end
  end.

Definition retry (attempts : nat) (v : V) : prog (V * option error) := retry_from 0 attempts v None.
End Retry.

(** [retry] of a function that captures no variable. *)
Definition retry_ (x : ctx) (attempts : nat) (fn : prog (option error)) : prog (option error) :=
  '(_, e) ← retry x (fun _ : unit => e ← fn; mret (tt, e)) attempts tt; mret e.

Section Client.
Context {U : UuidLib}.

(** ** scheduler.go *)

Definition scheduleKey : string := "monitor:schedule".
Definition inflightKey : string := "monitor:inflight".

Definition Schedule (x : ctx) (monitorID : string) (nextRun : Z) : prog (option error) :=
  retry_ x 3 (r ← rdb (ZADD scheduleKey [(float64_of_int (UnixMilli nextRun), monitorID)]);
              mret (err_of r)).

Definition ScheduleBatch (x : ctx) (items : list (Z * string)) : prog (option error) :=
  if decide (length items = 0%nat) then mret None
  else retry_ x 3 (r ← rdb (ZADD scheduleKey items); mret (err_of r)).

Definition PopDue (x : ctx) (batchCount : Z) : prog (list (Z * string) * option error) :=
  retry x (fun _ => r ← rdb (ZPOPMIN scheduleKey batchCount);
                    match r with
                    | inl e => mret ([], Some e)
                    | inr l => mret (l, None)
                    end) 3 [].

Definition DelSchedule (x : ctx) (monitorID : string) : prog (option error) :=
  r ← rdb (ZREM scheduleKey monitorID); mret (err_of r).

(** [rawItems], the elements of type string. *)
Definition lua_strings (l : list lua_val) : list string :=
  omap (fun v => match v with LuaStr s => Some s | _ => None end) l.

Definition FetchDueMonitors (x : ctx) (s : script) (now limit : Z)
    : prog (list string * option error) :=
  result ← op (Redis (EVAL s [scheduleKey] [UnixMilli now; limit]));
  match result with
  | inl e => mret ([], Some e)
  | inr (LuaList rawItems) => mret (lua_strings rawItems, None)
  | inr _ => mret ([], None)
  end.

Definition FetchAndMoveToInflight (x : ctx) (s : script) (now limit visibilityTimeout : Z)
    : prog (list string * option error) :=
  result ← op (Redis (EVAL s [scheduleKey; inflightKey]
                        [UnixMilli now; limit; Milliseconds visibilityTimeout]));
  match result with
  | inl e => mret ([], Some e)
  | inr (LuaList rawItems) => mret (lua_strings rawItems, None)
  | inr _ => mret ([], None)
  end.

Definition AckJob (x : ctx) (monitorID : string) : prog (option error) :=
  r ← rdb (ZREM inflightKey monitorID); mret (err_of r).

(** ** reclaimer.go *)

Definition ReclaimMonitors (x : ctx) (s : script) (now limit : Z) : prog (Z * option error) :=
  result ← op (Redis (EVAL s [inflightKey; scheduleKey] [UnixMilli now; limit]));
  match result with
  | inl e => mret (0, Some e)
  | inr (LuaInt count) => mret (count, None)
  | inr _ => mret (0, None)
  end.

(** ** incident.go *)

Definition incidentKey (id : UUID) : string := "monitor:incident:" +:+ uuid_String id.

Definition IncrementIncident (x : ctx) (id : UUID) : prog (Z * bool * option error) :=
  let key := incidentKey id in
  t ← op TimeNow;
  let now := RInt (Unix t) in
  '((failureCount, firstTime), err) ←
    retry x (fun '(_, firstTime) =>
      r ← rdb (HINCRBY key "failure_count" 1);
      match r with
      | inl e => mret ((0, firstTime), Some e)
      | inr n =>
        if decide (n = 1) then
          rdb (HSET key [("first_failure_at", now); ("last_failure_at", now)]) ;;
          mret ((n, true), None)
        else
          rdb (HSET key [("last_failure_at", now)]) ;;
          mret ((n, firstTime), None)
      end) 3 (0, false);
  mret (failureCount, firstTime, err).

Definition ClearIncident (x : ctx) (id : UUID) : prog (option error) :=
  retry_ x 2 (r ← rdb (DEL (incidentKey id)); mret (err_of r)).

Definition MarkIncidentAlerted (x : ctx) (id : UUID) : prog (option error) :=
  r ← rdb (HSET (incidentKey id) [("alerted", RStr "true"); ("db_incident", RStr "false")]);
  mret (err_of r).

Definition GetIncidentAlerted (x : ctx) (id : UUID) : prog (bool * option error) :=
  resp ← rdb (HGET (incidentKey id) "alerted");
  match nil_err resp with
  | inl e => mret (false, Some e)
  | inr v => mret (bool_decide (rval_text v = "true"), None)
  end.

(** The result is a Go map: [None] is the nil map. *)
Definition GetIncident (x : ctx) (id : UUID)
    : prog (option (gmap string string) * option error) :=
  resp ← hgetall (incidentKey id);
  match resp with
  | inl e => if is_RedisNil e then mret (None, None) else mret (None, Some e)
  | inr h => mret (Some (texts h), None)
  end.

Definition ClearIncidentIfExists (x : ctx) (id : UUID) : prog (bool * option error) :=
  '(n, err) ← retry x (fun _ : Z => r ← rdb (DEL (incidentKey id));
                         match r with
                         | inl e => mret (0, Some e)
                         | inr n => mret (n, None)
                         end) 2 0;
  mret (bool_decide (n = 1), err).

Definition MarkDBIncidentCreated (x : ctx) (id : UUID) : prog (option error) :=
  r ← rdb (HSET (incidentKey id) [("db_incident", RStr "true")]); mret (err_of r).

Definition MarkIncidentAlertedIfNotSet (x : ctx) (id : UUID) : prog (bool * option error) :=
  res ← rdb (HSETNX (incidentKey id) "alerted" (RStr "true"));
  match res with
  | inl e => mret (false, Some e)
  | inr b => mret (b, None)
  end.

(** ** retry_counter.go *)

Definition retryKey (id : UUID) : string := "monitor:retry:" +:+ uuid_String id.

Definition IncrementRetry (x : ctx) (id : UUID) : prog (Z * option error) :=
  let key := retryKey id in
  retry x (fun _ : Z =>
    r ← rdb (INCR key);
    match r with
    | inl e => mret (0, Some e)
    | inr count =>
      e ← rdb (EXPIRE key (Milliseconds (5 * Minute)));
      mret (count, err_of e)
    end) 2 0.

Definition ClearRetry (x : ctx) (id : UUID) : prog (option error) :=
  retry_ x 2 (r ← rdb (DEL (retryKey id)); mret (err_of r)).

(** ** status.go *)

Definition statusKey (id : UUID) : string := "monitor:status:" +:+ uuid_String id.

Definition StoreStatus (x : ctx) (id : UUID) (statusCode latencyMs checkedAt : Z)
    : prog (option error) :=
  retry_ x 2 (r ← rdb (HSET (statusKey id) [("status_code", RInt statusCode);
                                             ("latency_ms", RInt latencyMs);
                                             ("checked_at", RInt (Unix checkedAt))]);
              mret (err_of r)).

Definition GetStatus (x : ctx) (id : UUID) : prog (option (gmap string string) * option error) :=
  res ← hgetall (statusKey id);
  match res with
  | inl e => if is_RedisNil e then mret (None, None) else mret (None, Some e)
  | inr h => mret (Some (texts h), None)
  end.

Definition DelStatus (x : ctx) (id : UUID) : prog (option error) :=
  r ← rdb (DEL (statusKey id)); mret (err_of r).

(** ** monitor.go *)

Definition monitorKey (id : string) : string := "monitor:" +:+ id.

Definition SetMonitor (x : ctx) (id data : string) (ttl : Z) : prog (option error) :=
  r ← rdb (SET (monitorKey id) data (Milliseconds ttl)); mret (err_of r).

Definition GetMonitor (x : ctx) (id : string) : prog (error + string) :=
  res ← rdb (GET (monitorKey id));
  match nil_err res with
  | inl e => if is_RedisNil e then mret (inl (AppError (MkError NotFound "" None "" false)))
             else mret (inl e)
  | inr data => mret (inr data)
  end.

Definition DelMonitor (x : ctx) (id : string) : prog (option error) :=
  r ← rdb (DEL (monitorKey id)); mret (err_of r).

End Client.

(** ** Rules for the client's calls *)

Section Rules.
Context {S : Services} {SL : ServiceLaws S}.

(** A call that succeeds. *)
Lemma wp_rdb {good} {G : RedisReliable good} c w p (Φ : error + rreply c -> sys -> Prop) :
  (forall w' r, rcall_spec c (rclock w') (rview w) (rview w') r ->
     dview w' = dview w -> later w w' -> Φ (inr r) (MkSys w' p)) ->
  wp good (rdb c) (MkSys w p) Φ.
Proof.
  intros H. apply wp_redis. intros w' o Hs Hd Hc Hg. apply G in Hg.
  destruct o as [e|r]; [done|]. by apply H.
Qed.

(** [retry] of a function whose first attempt succeeds. *)
Lemma wp_retry good {V} x n (fn : V -> prog (V * option error)) v σ Φ :
  wp good (fn v) σ (fun ve σ' => ve.2 = None /\ Φ (ve.1, None) σ') ->
  wp good (retry x fn (Datatypes.S n) v) σ Φ.
Proof.
  intros H. unfold retry; cbn [retry_from]. apply wp_bind.
  eapply wp_mono; [exact H|]. intros [v' e] σ' [He HΦ]. cbn in *. by subst.
Qed.

Lemma wp_retry_ good x n (fn : prog (option error)) σ Φ :
  wp good fn σ (fun e σ' => e = None /\ Φ None σ') ->
  wp good (retry_ x (Datatypes.S n) fn) σ Φ.
Proof.
  intros H. unfold retry_. apply wp_bind, wp_retry, wp_bind.
  eapply wp_mono; [exact H|]. intros e σ' [-> HΦ]. by split.
Qed.

(** [retry] under arbitrary failures: an invariant of one attempt, and of
    waiting, is an invariant of the loop, which ends for every sequence of
    replies. *)
Lemma wp_retry_inv {V} x n (fn : V -> prog (V * option error)) v σ (Inv : V -> sys -> Prop) :
  (forall v σ, Inv v σ -> wp any_reply (fn v) σ (fun ve σ' => Inv ve.1 σ')) ->
  (forall v w w' p, Inv v (MkSys w p) -> unobserved w w' -> Inv v (MkSys w' p)) ->
  Inv v σ ->
  wp any_reply (retry x fn n v) σ (fun ve σ' => Inv ve.1 σ').
Proof.
  intros Hfn Hwait. unfold retry. generalize (@None error) as err. generalize 0 as i.
  revert v σ. induction n as [|n IH]; intros v σ i err HI; cbn [retry_from]; [done|].
  apply wp_bind. eapply wp_mono; [by apply Hfn|]. intros [v' [e|]] [w p] HI'; [|done].
  apply wp_bind, wp_after_or_done. intros w' [ce|] Hu _ _; [by eapply Hwait|].
  apply IH. by eapply Hwait.
Qed.

Lemma wp_retry_inv_ x n (fn : prog (option error)) σ (Inv : sys -> Prop) :
  (forall σ, Inv σ -> wp any_reply fn σ (fun _ σ' => Inv σ')) ->
  (forall w w' p, Inv (MkSys w p) -> unobserved w w' -> Inv (MkSys w' p)) ->
  Inv σ ->
  wp any_reply (retry_ x n fn) σ (fun _ σ' => Inv σ').
Proof.
  intros Hfn Hwait HI. unfold retry_. apply wp_bind.
  eapply wp_mono; [apply (wp_retry_inv x n _ tt σ (fun _ => Inv))|].
  - intros [] σ' H. apply wp_bind. eapply wp_mono; [by apply Hfn|]. done.
  - intros _. exact Hwait.
  - exact HI.
  - by intros [[] e] σ' H.
Qed.

End Rules.

(** ** The jobs the queue knows *)

(** A monitor that is scheduled or in flight will run again. *)
Definition tracked (v : redis) : gset string :=
  dom (zset v scheduleKey) ∪ dom (zset v inflightKey).

Lemma elem_of_tracked v m :
  m ∈ tracked v <-> is_Some (zset v scheduleKey !! m) \/ is_Some (zset v inflightKey !! m).
Proof. unfold tracked. by rewrite elem_of_union, !elem_of_dom. Qed.

Lemma keys_ne : scheduleKey <> inflightKey.
Proof. done. Qed.

Section Queue.
Context {U : UuidLib} {S : Services} {SL : ServiceLaws S}.

(** The only thing a job dispatched from the queue may change there is that
    it is scheduled again. *)
Definition rescheduled (m : string) (v v' : redis) : Prop :=
  exists score, v' = set_zset scheduleKey (<[m := score]> (zset v scheduleKey)) v.

Lemma rescheduled_tracked m v v' : m ∈ tracked v -> rescheduled m v v' -> tracked v' = tracked v.
Proof.
  intros Hm [score ->]. apply set_eq. intros m'. rewrite !elem_of_tracked in *.
  rewrite zset_set_zset_eq, zset_set_zset_ne by done.
  destruct (decide (m = m')) as [->|Hne].
  - rewrite lookup_insert_eq. naive_solver.
  - by rewrite lookup_insert_ne.
Qed.

Lemma wp_Schedule_any x m t w p v (HR : rview w = v \/ rescheduled m v (rview w)) :
  wp any_reply (Schedule x m t) (MkSys w p)
    (fun _ σ' => sp σ' = p /\ dview (sw σ') = dview w /\ later w (sw σ') /\
                 (rview (sw σ') = v \/ rescheduled m v (rview (sw σ')))).
Proof using SL.
  set (Inv := fun σ : sys => sp σ = p /\ dview (sw σ) = dview w /\ later w (sw σ) /\
                 (rview (sw σ) = v \/ rescheduled m v (rview (sw σ)))).
  apply (wp_retry_inv_ x 3 _ _ Inv).
  - intros [w1 p1] (Hp & Hd & Hl & HR1). cbn in *. subst p1. apply wp_bind, wp_redis.
    intros w2 o Heff Hd2 Hc2 _. cbn [call_effect] in Heff.
    assert (rview w2 = v \/ rescheduled m v (rview w2)) as HR2.
    { assert (forall n, rcmd_spec (Call (ZADD scheduleKey [(float64_of_int (UnixMilli t), m)]))
                (rclock w2) (rview w1) (rview w2) n -> rescheduled m v (rview w2)) as Hsp.
      { cbn. intros n [-> _]. destruct HR1 as [->|[sc ->]]; [eexists; done|].
        exists (float64_of_int (UnixMilli t)).
        by rewrite zset_set_zset_eq, insert_insert_eq, set_zset_set_zset. }
      destruct o as [e|n]; [destruct Heff as [->|[n Hn]]|]; eauto. }
    apply wp_ret. unfold Inv; cbn. split; [done|].
    split; [congruence|]. split; [by etrans|done].
  - intros w1 w2 p1 (Hp & Hd & Hl & HR1) (Hv & Hdv & Hl'). cbn in *. unfold Inv; cbn.
    rewrite Hv, Hdv. split; [done|]. split; [done|]. split; [by etrans|done].
  - by split_and!.
Qed.

End Queue.

(** ** Key names *)

Section Keys.
Context {U : UuidLib} {UL : UuidLaws U}.

Lemma string_app_inj s s1 s2 : s +:+ s1 = s +:+ s2 -> s1 = s2.
Proof. induction s as [|c s IH]; [done|]. cbn. intros [= H]. auto. Qed.

(** The lengths of the keys tell their families apart. *)
Lemma incidentKey_length id : String.length (incidentKey id) = 53%nat.
Proof. unfold incidentKey. by rewrite string_app_length, uuid_String_length. Qed.
Lemma retryKey_length id : String.length (retryKey id) = 50%nat.
Proof. unfold retryKey. by rewrite string_app_length, uuid_String_length. Qed.
Lemma statusKey_length id : String.length (statusKey id) = 51%nat.
Proof. unfold statusKey. by rewrite string_app_length, uuid_String_length. Qed.
Lemma monitorKey_length id : String.length (monitorKey (uuid_String id)) = 44%nat.
Proof. unfold monitorKey. by rewrite string_app_length, uuid_String_length. Qed.

#[export] Instance incidentKey_inj : Inj (=) (=) incidentKey.
Proof. intros a b H. by apply string_app_inj, uuid_String_inj in H. Qed.
#[export] Instance retryKey_inj : Inj (=) (=) retryKey.
Proof. intros a b H. by apply string_app_inj, uuid_String_inj in H. Qed.
#[export] Instance statusKey_inj : Inj (=) (=) statusKey.
Proof. intros a b H. by apply string_app_inj, uuid_String_inj in H. Qed.

End Keys.

(** Two keys of different families differ. *)
Ltac keys_differ :=
  let H := fresh in
  intros H; first [discriminate H |
    apply (f_equal String.length) in H;
    rewrite ?incidentKey_length, ?retryKey_length, ?statusKey_length, ?monitorKey_length in H;
    cbn in H; discriminate H].
