(* ===== verification/Scheduler.v ===== *)
(** * internals/modules/scheduler: the scheduler and the reclaimer

    The three Lua scripts of lua_scripts.go, the work the scheduler does at a
    tick (the reliable version, the version kept for comparison and the old
    one) and the work the reclaimer does at a tick.  The loops around them,
    [Run], are steps of the file Pipeline. *)

From S2P Require Import Prelude AppError Types Redis Postgres Effects Rules Reference RedisStore.
From stdpp Require Import gmap list strings pretty sorting.
#[local] Open Scope Z_scope.

(** ** lua_scripts.go *)

(** [tonumber] and Lua's arithmetic are on doubles. *)
Definition tonumber (z : Z) : Z := float64_of_int z.

Definition fetchDueMonitorsScript : script := fun ks xs =>
  let key := KEYS ks 1 in
  let now := ARGV xs 1 in
  let limit := tonumber (ARGV xs 2) in
  items ← redis_call (ZRANGEBYSCORE key (float64_of_int now) limit);
  lua_for items (fun member => redis_call (ZREM key member) ;; mret tt) ;;
  mret (LuaList (LuaStr <$> items)).

Definition fetchAndMoveToInflightScript : script := fun ks xs =>
  let scheduleKey := KEYS ks 1 in
  let inflightKey := KEYS ks 2 in
  let now := tonumber (ARGV xs 1) in
  let limit := tonumber (ARGV xs 2) in
  let visibilityTimeout := tonumber (ARGV xs 3) in
  items ← redis_call (ZRANGEBYSCORE scheduleKey now limit);
  lua_for items (fun member =>
    redis_call (ZREM scheduleKey member) ;;
    redis_call (ZADD inflightKey [(float64_of_int (now + visibilityTimeout), member)]) ;;
    mret tt) ;;
  mret (LuaList (LuaStr <$> items)).

Definition reclaimMonitorsScript : script := fun ks xs =>
  let inflightKey := KEYS ks 1 in
  let scheduleKey := KEYS ks 2 in
  let now := tonumber (ARGV xs 1) in
  let limit := tonumber (ARGV xs 2) in
  items ← redis_call (ZRANGEBYSCORE inflightKey now limit);
  lua_for items (fun member =>
    redis_call (ZREM inflightKey member) ;;
    redis_call (ZADD scheduleKey [(now, member)]) ;;
    mret tt) ;;
  mret (LuaInt (Z.of_nat (length items))).

(** ** scheduler.go *)

(** The configuration of a [Scheduler]; durations in nanoseconds. *)
Record Scheduler := MkScheduler {
  sc_interval : Z;
  sc_batchSize : Z;
  sc_visibilityTimeout : Z
}.

(** [rand.Int63n] panics unless its argument is positive. *)
Definition rand_Int63n (n : Z) : prog Z :=
  if decide (n <= 0) then Panic "invalid argument to Int63n" else op (Int63n n).

Definition addJitter (d : Z) : prog Z :=
  jitter ← rand_Int63n (Z.quot d 10);
  mret (d + jitter).

Section Scheduler.
Context {U : UuidLib}.

(** The body of the loops over the fetched monitors: [true] to go on. *)
Definition dispatch (monitor : string) : prog bool :=
  match uuid_Parse monitor with
  | inl _ => mret true
  | inr id =>
    r ← op (TrySendJob CtxApp (MkJobPayload id));
    match (r : try_send) with
    | Sent => mret true
    | CtxDone => mret false
    | SendOnClosed => Panic "send on closed channel"
    | Full =>
      now ← op TimeNow;
      jitter ← addJitter (2 * Second);
      Schedule CtxApp monitor (now + jitter) ;;
      mret true
    end
  end.

Definition doWorkWithReliability (sc : Scheduler) : prog unit :=
  now ← op TimeNow;
  '(monitors, err) ← FetchAndMoveToInflight CtxApp fetchAndMoveToInflightScript now
                       (sc_batchSize sc) (sc_visibilityTimeout sc);
  match err with
  | Some _ => mret tt
  | None =>
    if decide (length monitors = 0%nat) then mret tt else range monitors dispatch
  end.

Definition doWork (sc : Scheduler) : prog unit :=
  now ← op TimeNow;
  '(monitors, err) ← FetchDueMonitors CtxApp fetchDueMonitorsScript now (sc_batchSize sc);
  match err with
  | Some _ => mret tt
  | None =>
    if decide (length monitors = 0%nat) then mret tt else range monitors dispatch
  end.

(** The loop of [doWorkOld] over [items]; [now] is in seconds. *)
Fixpoint doWorkOld_loop (now : Z) (items : list (Z * string)) : prog unit :=
  match items with
  | [] => mret tt
  | item :: future =>
    let score := int64 item.1 in
    if decide (now < score) then
      let reinsert := item :: future in
      ScheduleBatch CtxApp reinsert ;; mret tt
    else
      match uuid_Parse item.2 with
      | inl _ => doWorkOld_loop now future
      | inr id =>
        r ← op (TrySendJob CtxApp (MkJobPayload id));
        match (r : try_send) with
        | Sent => doWorkOld_loop now future
        | CtxDone => mret tt
        | SendOnClosed => Panic "send on closed channel"
        | Full =>
          Schedule CtxApp item.2 (score * Second + 2 * Second) ;;
          doWorkOld_loop now future
        end
      end
  end.

Definition doWorkOld (sc : Scheduler) : prog unit :=
  t ← op TimeNow;
  let now := Unix t in
  '(items, err) ← PopDue CtxApp (sc_batchSize sc);
  match err with
  | Some _ => mret tt
  | None => if decide (length items = 0%nat) then mret tt else doWorkOld_loop now items
  end.

(** The first step of [Container.Shutdown] (internals/app/container.go):
    [close(c.JobChan)].  The scheduler runs in a goroutine of its own
    (cmd/api/main.go), which nothing waits for. *)
Definition close_jobChan (p : proc) : proc :=
  set_jobChan (fun ch => MkChan (ch_buf ch) (ch_cap ch) true) p.

(** ** reclaimer.go *)

Record Reclaimer := MkReclaimer { rc_interval : Z; rc_limit : Z }.

(** [Reclaimer.doWork] *)
Definition reclaim (rc : Reclaimer) : prog unit :=
  now ← op TimeNow;
  '(count, err) ← ReclaimMonitors CtxApp reclaimMonitorsScript now (rc_limit rc);
  mret tt.

End Scheduler.

(** ** Lemmas on the scripts *)

Lemma lua_for_fold {A} (f : A -> redis -> redis) (body : A -> lua unit) now items v v' u :
  (forall x v v' u, lua_spec (body x) now v v' u -> v' = f x v) ->
  lua_spec (lua_for items body) now v v' u ->
  v' = fold_left (fun v x => f x v) items v.
Proof.
  intros Hb. revert v. induction items as [|x items IH]; intros v; cbn [lua_for fold_left].
  - by intros [-> _].
  - intros (v1 & u1 & H1 & H2)%lua_spec_bind. apply Hb in H1 as ->. by apply IH.
Qed.

(** A member goes from one sorted set to another. *)
Definition move1 (from to : string) (score : Z) (m : string) (v : redis) : redis :=
  let v1 := set_zset from (delete m (zset v from)) v in
  set_zset to (<[m := score]> (zset v1 to)) v1.

Definition moves (from to : string) (score : Z) (items : list string) (v : redis) : redis :=
  fold_left (fun v m => move1 from to score m v) items v.

Lemma move_body from to score now m v v' u :
  lua_spec (redis_call (ZREM from m) ;; redis_call (ZADD to [(score, m)]) ;; mret tt)
    now v v' u -> v' = move1 from to score m v.
Proof. cbn. intros (v1 & n1 & [-> _] & v2 & n2 & [-> _] & -> & _). done. Qed.

Section Moves.
Context (from to : string) (score : Z) (Hne : from <> to).

Lemma moves_from items v m :
  zset (moves from to score items v) from !! m =
  if decide (m ∈ items) then None else zset v from !! m.
Proof using Hne.
  revert v. induction items as [|x items IH]; intros v; cbn.
  - by rewrite decide_False by apply not_elem_of_nil.
  - unfold moves in IH. rewrite IH. unfold move1.
    rewrite zset_set_zset_ne, zset_set_zset_eq by done.
    destruct (decide (m ∈ items)).
    + by rewrite decide_True by by right.
    + destruct (decide (m = x)) as [->|Hmx].
      * rewrite lookup_delete_eq. by rewrite decide_True by by left.
      * rewrite lookup_delete_ne by done.
        by rewrite decide_False by (rewrite elem_of_cons; tauto).
Qed.

Lemma moves_to items v m :
  zset (moves from to score items v) to !! m =
  if decide (m ∈ items) then Some score else zset v to !! m.
Proof using Hne.
  revert v. induction items as [|x items IH]; intros v; cbn.
  - by rewrite decide_False by apply not_elem_of_nil.
  - unfold moves in IH. rewrite IH. unfold move1.
    rewrite zset_set_zset_eq, zset_set_zset_ne by done.
    destruct (decide (m ∈ items)).
    + by rewrite decide_True by by right.
    + destruct (decide (m = x)) as [->|Hmx].
      * rewrite lookup_insert_eq. by rewrite decide_True by by left.
      * rewrite lookup_insert_ne by done.
        by rewrite decide_False by (rewrite elem_of_cons; tauto).
Qed.

Lemma moves_other items v k :
  k <> from -> k <> to -> zset (moves from to score items v) k = zset v k.
Proof using.
  intros H1 H2. revert v. induction items as [|x items IH]; intros v; cbn; [done|].
  unfold moves in IH. rewrite IH. unfold move1. by rewrite !zset_set_zset_ne by done.
Qed.

Lemma moves_frame items v :
  hashes (moves from to score items v) = hashes v /\ strs (moves from to score items v) = strs v.
Proof using.
  revert v. induction items as [|x items IH]; intros v; cbn; [done|].
  unfold moves in IH. by destruct (IH (move1 from to score x v)) as [-> ->].
Qed.

End Moves.

Lemma fetchAndMove_script sk ik now limit vis t v v' r :
  lua_spec (fetchAndMoveToInflightScript [sk; ik] [now; limit; vis]) t v v' r ->
  exists items, r = LuaList (LuaStr <$> items) /\
    zrange_spec (zset v sk) (tonumber now) (tonumber limit) items /\
    v' = moves sk ik (float64_of_int (tonumber now + tonumber vis)) items v.
Proof.
  unfold fetchAndMoveToInflightScript.
  intros (v1 & items & H1 & H2)%lua_spec_bind. cbn in H1.
  destruct H1 as (v2 & items' & [-> Hz] & -> & ->).
  apply lua_spec_bind in H2 as (v3 & u & H3 & [-> ->]).
  exists items'. split; [done|]. split; [done|].
  eapply lua_for_fold; [|exact H3]. intros. by eapply move_body.
Qed.

Lemma reclaim_script ik sk now limit t v v' r :
  lua_spec (reclaimMonitorsScript [ik; sk] [now; limit]) t v v' r ->
  exists items, r = LuaInt (Z.of_nat (length items)) /\
    zrange_spec (zset v ik) (tonumber now) (tonumber limit) items /\
    v' = moves ik sk (tonumber now) items v.
Proof.
  unfold reclaimMonitorsScript.
  intros (v1 & items & H1 & H2)%lua_spec_bind. cbn in H1.
  destruct H1 as (v2 & items' & [-> Hz] & -> & ->).
  apply lua_spec_bind in H2 as (v3 & u & H3 & [-> ->]).
  exists items'. split; [done|]. split; [done|].
  eapply lua_for_fold; [|exact H3]. intros. by eapply move_body.
Qed.

Lemma lua_strings_LuaStr l : lua_strings (LuaStr <$> l) = l.
Proof. induction l as [|s l IH]; cbn; [done|]. unfold lua_strings in IH. by rewrite IH. Qed.

(** ** The scripts and the tracked jobs *)

Lemma tracked_fetch score items v :
  (forall m, m ∈ items -> is_Some (zset v scheduleKey !! m)) ->
  tracked (moves scheduleKey inflightKey score items v) = tracked v.
Proof.
  intros H. apply set_eq. intros m. rewrite !elem_of_tracked.
  rewrite moves_from, moves_to by done. case_decide as Hm.
  - split; [intros _; left; auto|]. intros _. right. eauto.
  - done.
Qed.

Lemma tracked_reclaim score items v :
  (forall m, m ∈ items -> is_Some (zset v inflightKey !! m)) ->
  tracked (moves inflightKey scheduleKey score items v) = tracked v.
Proof.
  intros H. apply set_eq. intros m. rewrite !elem_of_tracked.
  rewrite moves_from, moves_to by done. case_decide as Hm.
  - split; [intros _; right; auto|]. intros _. left. eauto.
  - done.
Qed.

Lemma zrange_in z max limit l m : zrange_spec z max limit l -> m ∈ l -> is_Some (z !! m).
Proof. intros Hz Hm. apply (zr_due _ _ _ _ Hz) in Hm as [s Hs]. apply elem_of_due in Hs as [? _]. eauto. Qed.

(** ** The calls that run the scripts *)

Section Calls.
Context {U : UuidLib} {S : Services} {SL : ServiceLaws S}.

(** The deadline the script writes. *)
Definition deadline (now vis : Z) : Z :=
  float64_of_int (tonumber (UnixMilli now) + tonumber (Milliseconds vis)).

Lemma tonumber_exact z : 0 <= z <= 2 ^ 53 -> tonumber z = z.
Proof. intros. apply float64_of_int_exact. lia. Qed.

Lemma deadline_exact now vis :
  0 <= UnixMilli now -> 0 <= Milliseconds vis -> UnixMilli now + Milliseconds vis <= 2 ^ 53 ->
  deadline now vis = UnixMilli now + Milliseconds vis.
Proof.
  intros H1 H2 H3. unfold deadline.
  rewrite (tonumber_exact (UnixMilli now)) by lia. rewrite (tonumber_exact (Milliseconds vis)) by lia.
  apply float64_of_int_exact. lia.
Qed.

(** What [FetchAndMoveToInflight] does to the server: [items] are what the
    script fetched, [jobs] and [err] what the client got. *)
Definition fetched (now limit vis : Z) (v v' : redis) (jobs : list string) (err : option error) : Prop :=
  let eff items :=
    zrange_spec (zset v scheduleKey) (tonumber (UnixMilli now)) (tonumber limit) items /\
    v' = moves scheduleKey inflightKey (deadline now vis) items v in
  match err with
  | None => eff jobs
  | Some _ => jobs = [] /\ (v' = v \/ exists items, eff items)
  end.

Lemma wp_fetchAndMove good now limit vis w p (Φ : list string * option error -> sys -> Prop) :
  (forall w' jobs err, fetched now limit vis (rview w) (rview w') jobs err ->
     dview w' = dview w -> later w w' ->
     (good = no_fault -> err = None) ->
     Φ (jobs, err) (MkSys w' p)) ->
  wp good (FetchAndMoveToInflight CtxApp fetchAndMoveToInflightScript now limit vis) (MkSys w p) Φ.
Proof using SL.
  intros H. unfold FetchAndMoveToInflight. apply wp_bind, wp_redis. cbn [call_effect rcmd_spec rcmd_reply].
  intros w' [e|r] Heff Hd Hc Hg.
  - apply wp_ret, H; [|done..|by intros ->]. split; [done|].
    destruct Heff as [->|(r & Hr)]; [by left|right].
    apply fetchAndMove_script in Hr as (items & _ & Hz & Hv). by exists items.
  - apply fetchAndMove_script in Heff as (items & -> & Hz & Hv).
    apply wp_ret, H; [|done..]. rewrite lua_strings_LuaStr. by split.
Qed.

Definition reclaimed (now limit : Z) (v v' : redis) (count : Z) (err : option error) : Prop :=
  let eff items :=
    zrange_spec (zset v inflightKey) (tonumber (UnixMilli now)) (tonumber limit) items /\
    v' = moves inflightKey scheduleKey (tonumber (UnixMilli now)) items v in
  match err with
  | None => exists items, eff items /\ count = Z.of_nat (length items)
  | Some _ => count = 0 /\ (v' = v \/ exists items, eff items)
  end.

Lemma wp_reclaimMonitors good now limit w p (Φ : Z * option error -> sys -> Prop) :
  (forall w' count err, reclaimed now limit (rview w) (rview w') count err ->
     dview w' = dview w -> later w w' ->
     (good = no_fault -> err = None) ->
     Φ (count, err) (MkSys w' p)) ->
  wp good (ReclaimMonitors CtxApp reclaimMonitorsScript now limit) (MkSys w p) Φ.
Proof using SL.
  intros H. unfold ReclaimMonitors. apply wp_bind, wp_redis. cbn [call_effect rcmd_spec rcmd_reply].
  intros w' [e|r] Heff Hd Hc Hg.
  - apply wp_ret, H; [|done..|by intros ->]. split; [done|].
    destruct Heff as [->|(r & Hr)]; [by left|right].
    apply reclaim_script in Hr as (items & _ & Hz & Hv). by exists items.
  - apply reclaim_script in Heff as (items & -> & Hz & Hv).
    apply wp_ret, H; [|done..]. by exists items.
Qed.

Lemma fetched_tracked now limit vis v v' jobs err :
  fetched now limit vis v v' jobs err -> tracked v' = tracked v.
Proof.
  unfold fetched. intros H.
  assert (forall items, zrange_spec (zset v scheduleKey) (tonumber (UnixMilli now)) (tonumber limit) items ->
    tracked (moves scheduleKey inflightKey (deadline now vis) items v) = tracked v) as HH.
  { intros items Hz. apply tracked_fetch. intros m. by apply (zrange_in _ _ _ _ _ Hz). }
  destruct err; [destruct H as [_ [->|(items & Hz & ->)]]|destruct H as [Hz ->]]; auto.
Qed.

Lemma reclaimed_tracked now limit v v' count err :
  reclaimed now limit v v' count err -> tracked v' = tracked v.
Proof.
  unfold reclaimed. intros H.
  assert (forall items, zrange_spec (zset v inflightKey) (tonumber (UnixMilli now)) (tonumber limit) items ->
    tracked (moves inflightKey scheduleKey (tonumber (UnixMilli now)) items v) = tracked v) as HH.
  { intros items Hz. apply tracked_reclaim. intros m. by apply (zrange_in _ _ _ _ _ Hz). }
  destruct err; [destruct H as [_ [->|(items & Hz & ->)]]|destruct H as (items & [Hz ->] & _)]; auto.
Qed.

End Calls.

(** ** The work of a tick *)

Section Tick.
Context {U : UuidLib} {S : Services} {SL : ServiceLaws S}.

(** The jitter is at most a tenth of the delay. *)
Lemma wp_addJitter good d w p (Φ : Z -> sys -> Prop) :
  0 < Z.quot d 10 ->
  (forall w' j, unobserved w w' -> 0 <= j < Z.quot d 10 -> Φ (d + j) (MkSys w' p)) ->
  wp good (addJitter d) (MkSys w p) Φ.
Proof using SL.
  intros Hd H. unfold addJitter, rand_Int63n. rewrite decide_False by lia.
  apply wp_bind, wp_int63n. intros w' j Hu Hj. apply wp_ret. auto.
Qed.

(** A queue invariant of the code that follows a fetch: the job channel is
    open and the queue still knows the same monitors. *)
Definition keeps_queue (w : world) (σ : sys) : Prop :=
  ch_closed (jobChan (sp σ)) = false /\ dview (sw σ) = dview w /\
  tracked (rview (sw σ)) = tracked (rview w).

(** The dispatch of one job keeps the queue, whatever fails. *)
Lemma dispatch_tracked m w w0 p :
  keeps_queue w0 (MkSys w p) -> m ∈ tracked (rview w) ->
  wp any_reply (dispatch m) (MkSys w p) (fun _ σ' => keeps_queue w0 σ').
Proof using SL.
  intros (Hop & Hd & Ht) Hm. cbn in *. unfold dispatch.
  destruct (uuid_Parse m) as [e|id]; [by apply wp_ret|].
  apply wp_bind, wp_try_send. intros w1 (Hv1 & Hd1 & _).
  assert (keeps_queue w0 (MkSys w1 p)) as HK by (unfold keeps_queue; cbn; split_and!; congruence).
  split; [|split; [|split]]; intros.
  - by apply wp_ret.
  - by apply wp_ret.
  - apply wp_bind, wp_time_now. intros w2 t _ (Hv2 & Hd2 & _) _.
    apply wp_bind, wp_addJitter; [done|]. intros w3 j (Hv3 & Hd3 & _) _.
    apply wp_bind. eapply wp_mono; [apply (wp_Schedule_any CtxApp m _ w3 p (rview w)); left; congruence|].
    intros _ [w4 p4] (Hp4 & Hd4 & _ & Hv4). cbn in *. subst p4. apply wp_ret.
    split; [done|]. cbn. split; [congruence|].
    destruct Hv4 as [->|Hv4]; [done|]. rewrite <- Ht. by eapply rescheduled_tracked.
  - congruence.
Qed.

Lemma range_tracked items w w0 p :
  keeps_queue w0 (MkSys w p) -> (forall m, m ∈ items -> m ∈ tracked (rview w0)) ->
  wp any_reply (range items dispatch) (MkSys w p) (fun _ σ' => keeps_queue w0 σ').
Proof using SL.
  revert w p. induction items as [|m items IH]; intros w p HK Hin; cbn [range]; [by apply wp_ret|].
  apply wp_bind. eapply wp_mono.
  - apply (dispatch_tracked m w w0 p HK). destruct HK as (_ & _ & E). cbn in E. rewrite E. apply Hin. by left.
  - intros [] [w' p'] HK'; [|by apply wp_ret]. apply IH; [done|].
    intros m' Hm'. apply Hin. by right.
Qed.

End Tick.

(** ** Properties *)

Section Properties.
Context {U : UuidLib} {S : Services} {SL : ServiceLaws S}.

(** C9: one fetch moves exactly the earliest due jobs.  The jobs
    [FetchAndMoveToInflight] returns are distinct, due, as many as the limit
    allows, and no due job left behind is earlier; each has left the schedule
    and is in flight with the deadline now + visibility timeout, every other
    member of the two sets is as before, and nothing else changed. *)
Theorem fetchAndMove_correct now limit vis w p :
  0 <= limit <= 2 ^ 53 -> 0 <= UnixMilli now -> 0 <= Milliseconds vis ->
  UnixMilli now + Milliseconds vis <= 2 ^ 53 ->
  wp no_fault (FetchAndMoveToInflight CtxApp fetchAndMoveToInflightScript now limit vis) (MkSys w p)
    (fun '(jobs, err) σ' =>
      let z := zset (rview w) scheduleKey in
      let v' := rview (sw σ') in
      err = None /\ sp σ' = p /\ dview (sw σ') = dview w /\
      NoDup jobs /\
      length jobs = Nat.min (Z.to_nat limit) (size (due (UnixMilli now) z)) /\
      (forall m, m ∈ jobs ->
        (exists s, z !! m = Some s /\ s <= UnixMilli now) /\
        zset v' scheduleKey !! m = None /\
        zset v' inflightKey !! m = Some (UnixMilli now + Milliseconds vis)) /\
      (forall m, m ∉ jobs ->
        zset v' scheduleKey !! m = z !! m /\
        zset v' inflightKey !! m = zset (rview w) inflightKey !! m) /\
      (forall m m' s s', m ∈ jobs -> m' ∉ jobs -> z !! m = Some s -> z !! m' = Some s' ->
        s' <= UnixMilli now -> s <= s') /\
      (forall k, k <> scheduleKey -> k <> inflightKey -> zset v' k = zset (rview w) k) /\
      hashes v' = hashes (rview w) /\ strs v' = strs (rview w)).
Proof using SL.
  intros Hl Hn Hv Hs. apply wp_fetchAndMove. intros w' jobs err Hf Hd _ Hnf.
  rewrite (Hnf eq_refl) in *. unfold fetched in Hf.
  rewrite deadline_exact, !tonumber_exact in Hf by lia. destruct Hf as [Hz Hv'].
  pose proof keys_ne as Hne. cbn. rewrite Hv'. destruct Hz as [Hnd Hdue Hlen _ Hfirst].
  repeat (split; [done|]). split; [|split; [|split; [|split]]].
  - intros m Hm. rewrite moves_from, moves_to by done. rewrite !decide_True by done.
    split; [|done]. apply Hdue in Hm as [s Hm]. apply elem_of_due in Hm. eauto.
  - intros m Hm. rewrite moves_from, moves_to by done. by rewrite !decide_False by done.
  - intros m m' s s' Hm Hm' Hs1 Hs2 Hle. eapply (Hfirst m m'); [done..|]. by apply elem_of_due.
  - intros k H1 H2. by apply moves_other.
  - apply moves_frame.
Qed.

(** Two fetches never hand out the same job, whatever fails: what one
    scheduler instance was given, the next fetch (of any instance) does not
    return, unless the job was scheduled again in between. *)
Theorem fetch_exclusive now1 now2 limit1 limit2 vis1 vis2 w p :
  wp any_reply
    ('(jobs1, _) ← FetchAndMoveToInflight CtxApp fetchAndMoveToInflightScript now1 limit1 vis1;
     '(jobs2, _) ← FetchAndMoveToInflight CtxApp fetchAndMoveToInflightScript now2 limit2 vis2;
     mret (jobs1, jobs2))
    (MkSys w p)
    (fun '(jobs1, jobs2) _ => forall m, m ∈ jobs1 -> m ∉ jobs2).
Proof using SL.
  apply wp_bind, wp_fetchAndMove. intros w1 jobs1 err1 Hf1 _ _ _.
  apply wp_bind, wp_fetchAndMove. intros w2 jobs2 err2 Hf2 _ _ _.
  apply wp_ret. intros m H1 H2. unfold fetched in *.
  destruct err1; [destruct Hf1 as [-> _]; by apply not_elem_of_nil in H1|].
  destruct err2; [destruct Hf2 as [-> _]; by apply not_elem_of_nil in H2|].
  destruct Hf1 as [_ Hv1]. destruct Hf2 as [Hz2 _].
  apply (zrange_in _ _ _ _ m Hz2) in H2 as [s Hs].
  rewrite Hv1, moves_from, decide_True in Hs by done. done.
Qed.

(** C10: the scheduler never drops a monitor from the queue.  A tick of the
    reliable scheduler, whatever fails (any Redis call, the dispatch of any
    job, a full job channel, cancellation in the middle of the batch), ends
    and leaves exactly the same monitors tracked: scheduled or in flight. *)
Theorem tick_keeps_jobs sc w p :
  ch_closed (jobChan p) = false ->
  wp any_reply (doWorkWithReliability sc) (MkSys w p)
    (fun _ σ' => tracked (rview (sw σ')) = tracked (rview w) /\ dview (sw σ') = dview w).
Proof using SL.
  intros Hop. unfold doWorkWithReliability.
  apply wp_bind, wp_time_now. intros w1 t Et (Hv1 & Hd1 & _) _.
  apply wp_bind, wp_fetchAndMove. intros w2 jobs err Hf Hd2 _ _.
  pose proof (fetched_tracked _ _ _ _ _ _ _ Hf) as Ht. rewrite Hv1 in *.
  assert (keeps_queue w (MkSys w2 p)) as HK by (unfold keeps_queue; cbn; split_and!; congruence).
  destruct err as [e|]; [by apply wp_ret; destruct HK as (_ & ? & ?)|].
  case_decide; [by apply wp_ret; destruct HK as (_ & ? & ?)|].
  eapply wp_mono; [apply (range_tracked jobs w2 w p HK)|].
  - intros m Hm. destruct Hf as [Hz _]. apply elem_of_tracked. left. by eapply zrange_in.
  - by intros _ σ' (_ & ? & ?).
Qed.

(** A tick of the reclaimer, whatever fails, keeps the monitors tracked;
    when nothing fails it moves back to the schedule, to run now, exactly the
    earliest expired jobs in flight, up to the limit. *)
Theorem reclaim_correct rc w p :
  0 <= rc_limit rc <= 2 ^ 53 ->
  wp any_reply (reclaim rc) (MkSys w p)
    (fun _ σ' => tracked (rview (sw σ')) = tracked (rview w) /\ dview (sw σ') = dview w) /\
  wp no_fault (reclaim rc) (MkSys w p)
    (fun _ σ' => exists w1 t items, time_now w = (w1, t) /\
      let v := rview w in
      let v' := rview (sw σ') in
      let now := tonumber (UnixMilli t) in
      let expired := due now (zset v inflightKey) in
      NoDup items /\ length items = Nat.min (Z.to_nat (rc_limit rc)) (size expired) /\
      (forall m, m ∈ items -> is_Some (expired !! m) /\ zset v' inflightKey !! m = None /\
                              zset v' scheduleKey !! m = Some now) /\
      (forall m, m ∉ items -> zset v' inflightKey !! m = zset v inflightKey !! m /\
                              zset v' scheduleKey !! m = zset v scheduleKey !! m)).
Proof using SL.
  intros Hl. unfold reclaim. split.
  - apply wp_bind, wp_time_now. intros w1 t Et (Hv1 & Hd1 & _) _.
    apply wp_bind, wp_reclaimMonitors. intros w2 count err Hr Hd2 _ _.
    apply wp_ret. cbn. apply reclaimed_tracked in Hr. split; congruence.
  - apply wp_bind, wp_time_now. intros w1 t Et (Hv1 & Hd1 & _) _.
    apply wp_bind, wp_reclaimMonitors. intros w2 count err Hr Hd2 _ Hnf.
    rewrite (Hnf eq_refl) in Hr. destruct Hr as (items & [Hz Hv] & _).
    apply wp_ret. exists w1, t, items. split; [done|]. cbn. rewrite Hv, Hv1 in *.
    rewrite (tonumber_exact (rc_limit rc)) in Hz by done.
    destruct Hz as [Hnd Hdue Hlen _ _]. split_and!; [done|done| |].
    + intros m Hm. rewrite moves_from, moves_to by done. rewrite !decide_True by done. auto.
    + intros m Hm. rewrite moves_from, moves_to by done. by rewrite !decide_False by done.
Qed.

(** One tick of the reclaimer, when nothing fails, at a time when the deadline
    [T] has passed. *)
Lemma wp_reclaim T rc w p :
  0 <= rc_limit rc <= 2 ^ 53 -> 0 <= T <= 2 ^ 53 -> T * Millisecond <= gclock w ->
  wp no_fault (reclaim rc) (MkSys w p) (fun _ σ' => sp σ' = p /\ dview (sw σ') = dview w /\ later w (sw σ') /\
    exists items t, let now := tonumber (UnixMilli t) in
      gclock w <= t <= gclock (sw σ') /\ T <= now /\
      zrange_spec (zset (rview w) inflightKey) now (rc_limit rc) items /\
      rview (sw σ') = moves inflightKey scheduleKey now items (rview w)).
Proof using SL.
  intros Hl HTb HT. unfold reclaim.
  apply wp_bind, wp_time_now. intros w1 t Et (Hv1 & Hd1 & Hlt1) Ht.
  apply wp_bind, wp_reclaimMonitors. intros w2 count err Hr Hd2 Hlt2 Hnf.
  rewrite (Hnf eq_refl) in Hr. destruct Hr as (items & [Hz Hv] & _).
  rewrite (tonumber_exact (rc_limit rc)) in Hz by done. rewrite Hv1 in *.
  apply wp_ret. cbn. split; [done|]. split; [congruence|]. split; [by etrans|].
  exists items, t. split; [destruct Hlt2; lia|]. split; [|done].
  apply float64_of_int_ge; [done|]. unfold UnixMilli. apply Z.div_le_lower_bound; unfold Millisecond in *; lia.
Qed.

(** Every job that was in flight with a deadline of at most [T] is out of
    flight and scheduled, for the time [t] of a tick between [from] and [to]:
    it is due at once.  A monitor that was not in flight is where it was. *)
Definition recovered (T from to : Z) (v v' : redis) : Prop :=
  forall m,
    match zset v inflightKey !! m with
    | Some s => s <= T ->
        zset v' inflightKey !! m = None /\
        exists t, from <= t <= to /\ T <= tonumber (UnixMilli t) /\
          zset v' scheduleKey !! m = Some (tonumber (UnixMilli t))
    | None => zset v' inflightKey !! m = None /\ zset v' scheduleKey !! m = zset v scheduleKey !! m
    end.

(** The same for the jobs that were recovered so far. *)
Definition recovering (T from to : Z) (v v' : redis) : Prop :=
  forall m,
    match zset v inflightKey !! m with
    | Some s => s <= T -> zset v' inflightKey !! m = Some s \/
        (zset v' inflightKey !! m = None /\
         exists t, from <= t <= to /\ T <= tonumber (UnixMilli t) /\
           zset v' scheduleKey !! m = Some (tonumber (UnixMilli t)))
    | None => zset v' inflightKey !! m = None /\ zset v' scheduleKey !! m = zset v scheduleKey !! m
    end.

Lemma recovering_refl T from to v : recovering T from to v v.
Proof using. intros m. destruct (zset v inflightKey !! m) eqn:E; [by left|done]. Qed.

Lemma recovering_step T from to t to' items v v1 :
  recovering T from to v v1 -> to <= t <= to' -> from <= to -> T <= tonumber (UnixMilli t) ->
  (forall m, m ∈ items -> is_Some (zset v1 inflightKey !! m)) ->
  recovering T from to' v (moves inflightKey scheduleKey (tonumber (UnixMilli t)) items v1).
Proof using.
  intros H Ht Hft HT Hin m. specialize (H m). rewrite moves_from, moves_to by done.
  destruct (zset v inflightKey !! m) as [s|].
  - intros Hs. destruct (decide (m ∈ items)) as [Hm|Hm].
    + right. split; [done|]. exists t. split; [lia|done].
    + destruct (H Hs) as [?|(H1 & t' & ? & ? & ?)]; [by left|right].
      split; [done|]. exists t'. split; [lia|done].
  - destruct H as [H1 H2]. destruct (decide (m ∈ items)) as [Hm|Hm]; [|done].
    apply Hin in Hm as [? Hm]. congruence.
Qed.

Lemma recovering_done T from to v v' :
  recovering T from to v v' -> due T (zset v' inflightKey) = ∅ -> recovered T from to v v'.
Proof using.
  intros H E m. specialize (H m). destruct (zset v inflightKey !! m) as [s|]; [|done].
  intros Hs. destruct (H Hs) as [Hm|?]; [|done].
  assert (due T (zset v' inflightKey) !! m = Some s) as E' by by apply elem_of_due.
  by rewrite E, lookup_empty in E'.
Qed.

(** Ticks of the reclaimer recover every job that is due at [T]. *)
Lemma wp_reclaim_recovers T n rc w p :
  0 <= rc_limit rc <= 2 ^ 53 -> 0 <= T <= 2 ^ 53 -> T * Millisecond <= gclock w ->
  (size (due T (zset (rview w) inflightKey)) <= n * Z.to_nat (rc_limit rc))%nat ->
  wp no_fault (ticks n (reclaim rc)) (MkSys w p) (fun _ σ' =>
    sp σ' = p /\ dview (sw σ') = dview w /\
    recovered T (gclock w) (gclock (sw σ')) (rview w) (rview (sw σ'))).
Proof using SL.
  intros Hl HTb HT.
  enough (forall w', later w w' -> dview w' = dview w ->
    recovering T (gclock w) (gclock w') (rview w) (rview w') ->
    (size (due T (zset (rview w') inflightKey)) <= n * Z.to_nat (rc_limit rc))%nat ->
    wp no_fault (ticks n (reclaim rc)) (MkSys w' p) (fun _ σ' =>
      sp σ' = p /\ dview (sw σ') = dview w /\
      recovered T (gclock w) (gclock (sw σ')) (rview w) (rview (sw σ')))) as Hgen.
  { intros Hsz. apply Hgen; [reflexivity|done|apply recovering_refl|done]. }
  induction n as [|n IH]; intros w' Hw Hd HI Hsz; cbn [ticks].
  - apply wp_ret. do 2 (split; [done|]). apply recovering_done; [done|]. apply map_size_empty_inv. cbn. lia.
  - apply wp_bind. eapply wp_mono; [apply (wp_reclaim T); [done|done|destruct Hw; cbn; lia]|].
    intros _ [w2 p2] (Hp & Hd2 & Hw2 & items & t & Ht & HTn & Hz & Hv). cbn in *. subst p2.
    apply IH; [by etrans|congruence| |].
    + rewrite Hv. eapply recovering_step; [exact HI|done|destruct Hw; lia|done|].
      intros m. by apply (zrange_in _ _ _ _ _ Hz).
    + assert (zset (rview w2) inflightKey =
              fold_left (fun z k => delete k z) items (zset (rview w') inflightKey)) as ->.
      { apply map_eq. intros m. by rewrite Hv, moves_from, fold_left_delete_lookup. }
      pose proof (zrange_drains T _ _ _ _ HTn Hz). lia.
Qed.


(** Backpressure.  When the job channel has no room (and the application
    is not shutting down) a job with a valid identifier is not sent: it is
    scheduled again, between 2 s and 2.2 s from now, and the loop goes on. *)
Theorem dispatch_backpressure m id w p :
  uuid_Parse m = inr id -> ch_closed (jobChan p) = false -> ch_room (jobChan p) = false ->
  ctx_done CtxApp w = false ->
  wp no_fault (dispatch m) (MkSys w p) (fun go_on σ' => go_on = true /\ sp σ' = p /\
    exists t d, gclock w <= t /\ 2 * Second <= d < 2200 * Millisecond /\
      rview (sw σ') = set_zset scheduleKey
        (<[m := float64_of_int (UnixMilli (t + d))]> (zset (rview w) scheduleKey)) (rview w)).
Proof using SL.
  intros Hid Hop Hroom Hctx. unfold dispatch. rewrite Hid.
  apply wp_bind, wp_try_send. intros w1 Hu1. pose proof Hu1 as (Hv1 & Hd1 & Hl1).
  split; [congruence|]. split; [congruence|].
  split; [intros _ _ _|congruence].
  apply wp_bind, wp_time_now. intros w2 t _ (Hv2 & _ & _) Ht.
  apply wp_bind, wp_addJitter; [done|]. intros w3 j (Hv3 & _ & _) Hj.
  apply wp_bind. unfold Schedule. apply wp_retry_, wp_bind, wp_rdb.
  intros w4 n [Hv4 _] _ _. apply wp_ret. split; [done|]. apply wp_ret.
  split; [done|]. split; [done|]. exists t, (2 * Second + j). cbn.
  change (Z.quot (2 * Second) 10) with (200 * Millisecond) in Hj.
  split; [destruct Hl1; lia|]. split; [unfold Second, Millisecond in *; lia|].
  rewrite Hv4. by rewrite Hv3, Hv2, Hv1.
Qed.

(** The old scheduler compares a time in seconds with scores in
    milliseconds.  If every score is later than the Unix time in seconds, as
    are all the scores that [Schedule] writes, it dispatches no job at all: it
    takes a batch out of the schedule and puts the whole batch back. *)
Theorem doWorkOld_dispatches_nothing sc w p :
  (forall w1 t m s, time_now w = (w1, t) -> zset (rview w) scheduleKey !! m = Some s ->
     Unix t < s /\ is_int64 s) ->
  wp no_fault (doWorkOld sc) (MkSys w p) (fun _ σ' =>
    sp σ' = p /\
    forall m, zset (rview (sw σ')) scheduleKey !! m = zset (rview w) scheduleKey !! m).
Proof using SL.
  intros Hlate. unfold doWorkOld.
  apply wp_bind, wp_time_now. intros w1 t Et (Hv1 & _ & _) _.
  apply wp_bind. unfold PopDue. apply wp_retry, wp_bind, wp_rdb.
  intros w2 l (z' & Hv2 & Hp) _ _. apply wp_ret. split; [done|]. cbn [fst snd].
  rewrite Hv1 in *. destruct l as [|[s m] l]; cbn [length].
  - apply wp_ret. split; [done|]. intros m. cbn. rewrite Hv2, zset_set_zset_eq.
    rewrite (zp_rest _ _ _ _ Hp). by rewrite decide_False by apply not_elem_of_nil.
  - rewrite decide_False by done. cbn [doWorkOld_loop fst].
    destruct (Hlate w1 t m s Et) as [Hs Hi]; [apply (zp_in _ _ _ _ Hp); by left|].
    rewrite int64_id, decide_True by done.
    apply wp_bind. unfold ScheduleBatch. cbn [length]. rewrite decide_False by done.
    apply wp_retry_, wp_bind, wp_rdb. intros w3 n [Hv3 _] _ _. apply wp_ret. split; [done|].
    apply wp_ret. split; [done|]. intros m'. cbn [sw]. rewrite Hv3, zset_set_zset_eq, Hv2, zset_set_zset_eq.
    by apply zpop_zadd with (count := sc_batchSize sc).
Qed.

(** Shutting down can crash the scheduler.  A send on a closed channel is
    ready in a [select]: when the scheduler dispatches a job after the channel
    was closed it panics, unless the context is done and the random choice
    between the two ready cases falls on it. *)
Theorem dispatch_after_close m id w p :
  uuid_Parse m = inr id ->
  (run (dispatch m) (MkSys w (close_jobChan p))).2 =
  if ctx_done CtxApp w && negb (select_first w).2 then Ret false else Panic "send on closed channel".
Proof using Type.
  intros Hm. unfold dispatch. rewrite Hm. unfold mbind, prog_mbind, bind, op. cbn [run exec].
  unfold exec_try_send_job. cbn.
  destruct (ctx_done CtxApp w); [|done]. by destruct (select_first w) as [w' []].
Qed.

End Properties.

(** ** Witnesses *)

Section Witnesses.
#[local] Existing Instance Hex.lib.
#[local] Existing Instance Hex.laws.
#[local] Existing Instance RefWorld.services.
#[local] Existing Instance RefWorld.laws.

Definition jobs12 : list string := [Hex.to_string 34; Hex.to_string 17].

(** The fetch of the demo queue, run: both due jobs, the earlier first. *)
Lemma fetchAndMove_correct_witness :
  (let '(_, _, q) := run (FetchAndMoveToInflight CtxApp fetchAndMoveToInflightScript Demo.t0 100
                            (30 * Second)) Demo.sys0 in q) = Ret (jobs12, None) /\
  exists Φ, wp no_fault (FetchAndMoveToInflight CtxApp fetchAndMoveToInflightScript Demo.t0 100
                           (30 * Second)) (MkSys Demo.world0 RefWorld.proc10) Φ.
Proof.
  split; [vm_compute; reflexivity|]. eexists.
  apply (fetchAndMove_correct Demo.t0 100 (30 * Second) Demo.world0 RefWorld.proc10);
    vm_compute; repeat split; discriminate.
Defined.

Lemma fetch_exclusive_witness :
  wp any_reply
    ('(jobs1, _) ← FetchAndMoveToInflight CtxApp fetchAndMoveToInflightScript Demo.t0 1 (30 * Second);
     '(jobs2, _) ← FetchAndMoveToInflight CtxApp fetchAndMoveToInflightScript Demo.t0 1 (30 * Second);
     mret (jobs1, jobs2)) Demo.sys0
    (fun '(jobs1, jobs2) _ => forall m, m ∈ jobs1 -> m ∉ jobs2).
Proof. apply fetch_exclusive. Defined.

(** A tick in which every second call to Redis fails and the job channel has
    no room. *)
Definition faulty_sys : sys :=
  MkSys (RefWorld.with_redis_faults [false; true; false; true; true; true] Demo.world0) Demo.proc_full.
Definition sc0 : Scheduler := MkScheduler (1 * Second) 100 (30 * Second).

Lemma tick_keeps_jobs_witness :
  ch_closed (jobChan (sp faulty_sys)) = false /\
  wp any_reply (doWorkWithReliability sc0) faulty_sys
    (fun _ σ' => tracked (rview (sw σ')) = tracked (rview (sw faulty_sys)) /\
                 dview (sw σ') = dview (sw faulty_sys)).
Proof. split; [reflexivity|]. apply tick_keeps_jobs. reflexivity. Defined.

Definition rc0 : Reclaimer := MkReclaimer (20 * Second) 100.

Lemma reclaim_correct_witness :
  0 <= rc_limit rc0 <= 2 ^ 53 /\
  wp any_reply (reclaim rc0) Demo.sys0
    (fun _ σ' => tracked (rview (sw σ')) = tracked (rview Demo.world0) /\
                 dview (sw σ') = dview Demo.world0).
Proof.
  split; [split; discriminate|].
  refine (proj1 (reclaim_correct rc0 Demo.world0 RefWorld.proc10 _)). split; discriminate.
Defined.


Lemma dispatch_backpressure_witness :
  uuid_Parse (uuid_String Demo.uid1) = inr Demo.uid1 /\
  wp no_fault (dispatch (uuid_String Demo.uid1)) (MkSys Demo.world0 Demo.proc_full)
    (fun go_on σ' => go_on = true /\ sp σ' = Demo.proc_full /\
      exists t d, gclock Demo.world0 <= t /\ 2 * Second <= d < 2200 * Millisecond /\
        rview (sw σ') = set_zset scheduleKey
          (<[uuid_String Demo.uid1 := float64_of_int (UnixMilli (t + d))]>
             (zset (rview Demo.world0) scheduleKey)) (rview Demo.world0)).
Proof.
  split; [apply uuid_Parse_String|].
  apply (dispatch_backpressure _ Demo.uid1); [apply uuid_Parse_String | reflexivity..].
Defined.

(** The demo queue has two jobs that are due; the old scheduler dispatches
    neither. *)
Lemma doWorkOld_dispatches_nothing_witness :
  size (due (UnixMilli Demo.t0) (zset (rview Demo.world0) scheduleKey)) = 2%nat /\
  wp no_fault (doWorkOld sc0) Demo.sys0 (fun _ σ' =>
    sp σ' = RefWorld.proc10 /\
    forall m, zset (rview (sw σ')) scheduleKey !! m = zset (rview Demo.world0) scheduleKey !! m).
Proof.
  split; [vm_compute; reflexivity|]. apply doWorkOld_dispatches_nothing.
  intros w1 t m s [= <- <-] Hm.
  assert (map_Forall (fun _ s => Unix Demo.t0 < s /\ is_int64 s)
            (zset (rview Demo.world0) scheduleKey)) as HF; [|exact (HF m s Hm)].
  apply (bool_decide_unpack _). vm_compute. exact I.
Defined.

Lemma dispatch_after_close_witness :
  uuid_Parse (uuid_String Demo.uid1) = inr Demo.uid1 /\
  (run (dispatch (uuid_String Demo.uid1)) (MkSys Demo.world0 (close_jobChan RefWorld.proc10))).2 =
  if ctx_done CtxApp Demo.world0 && negb (select_first Demo.world0).2 then Ret false
  else Panic "send on closed channel".
Proof.
  split; [apply uuid_Parse_String|].
  apply (dispatch_after_close _ Demo.uid1), uuid_Parse_String.
Defined.

End Witnesses.
