(* ===== verification/Security.v ===== *)
(** * internals/security: passwords and access tokens

    hasher.go and tokenizer.go.  Hashing is argon2id's ([create_hash] and
    [compare_hash] of [Services]); signing and parsing tokens is
    github.com/golang-jwt/jwt's, whose documented behaviour is [JwtLaws]. *)

From S2P Require Import Prelude AppError Types Json Redis Postgres Effects Rules Reference.
From stdpp Require Import gmap list strings pretty sorting.
#[local] Open Scope Z_scope.

(** ** types.go *)

(** [RequestClaims], with the registered claims that matter when a token is
    validated; a [jwt.NumericDate] is a number of seconds. *)
Record RequestClaims := MkRequestClaims {
  rc_UserID : string;
  rc_Email : string;
  rc_ExpiresAt : option Z;
  rc_NotBefore : option Z;
  rc_IssuedAt : option Z
}.

(** ** golang-jwt *)

(** [jwt.NewNumericDate]: truncated to seconds. *)
Definition NewNumericDate (t : Z) : Z := Unix t.

Definition HS256 : string := "HS256".

(** [SignedString] and [ParseWithClaims], the latter with the key function,
    the valid methods and the time at which it is called; what a token is: its
    [alg] header, its claims, and whether its signature is that of a key. *)
Class JwtLib := {
  jwt_SignedString : string -> RequestClaims -> string -> error + string;
  jwt_ParseWithClaims : string -> (string -> error + string) -> list string -> Z ->
    error + (RequestClaims * bool);
  jwt_alg : string -> option string;
  jwt_claims : string -> option RequestClaims;
  jwt_signed_by : string -> string -> bool   (* token, key *)
}.

(** Neither expired at a time nor used too early; each claim is optional. *)
Definition in_force (now : Z) (c : RequestClaims) : Prop :=
  match rc_ExpiresAt c with Some e => now < e * Second | None => True end /\
  match rc_NotBefore c with Some n => n * Second <= now | None => True end.

#[global] Instance in_force_dec now c : Decision (in_force now c).
Proof. unfold in_force. destruct (rc_ExpiresAt c), (rc_NotBefore c); apply _. Defined.

(** The claims as they are read back: their texts go through JSON. *)
Definition read_back (c : RequestClaims) : RequestClaims :=
  MkRequestClaims (coerce (rc_UserID c)) (coerce (rc_Email c)) (rc_ExpiresAt c) (rc_NotBefore c) (rc_IssuedAt c).

(** The tokens that [ParseWithClaims] accepts. *)
Definition jwt_accepts `{JwtLib} (tok : string) (kf : string -> error + string)
    (methods : list string) (now : Z) (c : RequestClaims) : Prop :=
  jwt_claims tok = Some c /\ in_force now c /\
  exists alg key, jwt_alg tok = Some alg /\ alg ∈ methods /\ kf alg = inr key /\
    jwt_signed_by tok key = true.

Class JwtLaws (L : JwtLib) := {
  jwt_parse_ok tok kf methods now c v :
    jwt_ParseWithClaims tok kf methods now = inr (c, v) <->
    v = true /\ jwt_accepts tok kf methods now c;
  jwt_signed_token alg c key tok :
    jwt_SignedString alg c key = inr tok ->
    jwt_alg tok = Some alg /\ jwt_claims tok = Some (read_back c) /\ jwt_signed_by tok key = true;
  (** the compact serialization: base64url and dots *)
  jwt_signed_text alg c key tok :
    jwt_SignedString alg c key = inr tok -> contains space tok = false
}.

(** ** hasher.go *)

Definition HashPassword (password : string) : prog (error + string) :=
  let op_ := "infra.security.hash_password" in
  r ← op (CreateHash password);
  match r with
  | inl err => mret (inl (AppError (MkError Dependency op_ (Some err) "internal server error" false)))
  | inr hash => mret (inr hash)
  end.

Definition ComparePassword {S : Services} (password hash : string) : error + bool :=
  match compare_hash password hash with
  | inl err => inl err
  | inr ok => inr ok
  end.

(** ** tokenizer.go *)

Record TokenService := MkTokenService { ts_secret : string; ts_tokenTTL : Z }.

Section Tokens.
Context {L : JwtLib}.

Definition GenerateAccessToken (ts : TokenService) (payload : RequestClaims) : prog (error + string) :=
  now ← op TimeNow;
  let expiryTime := now + ts_tokenTTL ts in
  let payload := MkRequestClaims (rc_UserID payload) (rc_Email payload)
                   (Some (NewNumericDate expiryTime)) (rc_NotBefore payload) (Some (NewNumericDate now)) in
  mret (jwt_SignedString HS256 payload (ts_secret ts)).

(** The key function passed to the parser. *)
Definition token_key (ts : TokenService) (alg : string) : error + string :=
  if decide (alg = HS256) then inr (ts_secret ts)
  else inl (OtherError "signature is invalid").

Definition ValidateAccessToken (ts : TokenService) (accessToken : string)
    : prog (error + RequestClaims) :=
  let op_ := "service.token.validate_access_token" in
  now ← op TimeNow;
  match jwt_ParseWithClaims accessToken (token_key ts) [HS256] now with
  | inr (claims, true) => mret (inr claims)
  | _ => mret (inl (AppError (MkError Unauthorised op_ None "invalid token" false)))
  end.

(** What a token says when it is accepted at a time. *)
Definition token_valid (ts : TokenService) (tok : string) (now : Z) (c : RequestClaims) : Prop :=
  jwt_alg tok = Some HS256 /\ jwt_signed_by tok (ts_secret ts) = true /\
  jwt_claims tok = Some c /\ in_force now c.

Context {LL : JwtLaws L}.

Lemma token_valid_parse ts tok now c :
  jwt_ParseWithClaims tok (token_key ts) [HS256] now = inr (c, true) <-> token_valid ts tok now c.
Proof.
  rewrite jwt_parse_ok. unfold jwt_accepts, token_valid, token_key. split.
  - intros (_ & Hc & Hu & alg & key & Ha & Hin & Hk & Hs). apply list_elem_of_singleton in Hin as ->.
    rewrite decide_True in Hk by done. by injection Hk as <-.
  - intros (Ha & Hs & Hc & Hu). split_and!; [done..|]. exists HS256, (ts_secret ts).
    rewrite decide_True by done. split_and!; [done| |done..]. by left.
Qed.

Lemma token_valid_fun ts tok now now' c c' :
  token_valid ts tok now c -> token_valid ts tok now' c' -> c = c'.
Proof. intros (_ & _ & H & _) (_ & _ & H' & _). congruence. Qed.

Context {S : Services} {SL : ServiceLaws S}.

(** [ValidateAccessToken]: the claims of a valid token, or "invalid token". *)
Lemma wp_ValidateAccessToken good ts tok w p (Φ : error + RequestClaims -> sys -> Prop) :
  (forall w' now o, unobserved w w' -> gclock w <= now <= gclock w' ->
     match o with
     | inr c => token_valid ts tok now c
     | inl e => (forall c, ~ token_valid ts tok now c) /\
         e = AppError (MkError Unauthorised "service.token.validate_access_token" None "invalid token" false)
     end -> Φ o (MkSys w' p)) ->
  wp good (ValidateAccessToken ts tok) (MkSys w p) Φ.
Proof using LL SL.
  intros H. unfold ValidateAccessToken. apply wp_bind, wp_time_now. intros w' now _ Hu Hn.
  destruct (jwt_ParseWithClaims _ _ _ _) as [e|[c []]] eqn:E.
  - apply wp_ret, (H _ now); [done..|]. split; [|done]. intros c Hc.
    apply token_valid_parse in Hc. congruence.
  - apply wp_ret, (H _ now); [done..|]. by apply token_valid_parse.
  - apply jwt_parse_ok in E as [? _]. done.
Qed.

(** The claims of a token issued at a time. *)
Definition issued (ts : TokenService) (payload : RequestClaims) (now : Z) : RequestClaims :=
  MkRequestClaims (rc_UserID payload) (rc_Email payload) (Some (Unix (now + ts_tokenTTL ts)))
    (rc_NotBefore payload) (Some (Unix now)).

(** [GenerateAccessToken]: the claims of the payload, valid for the whole
    seconds of the time to live. *)
Lemma wp_GenerateAccessToken good ts payload w p (Φ : error + string -> sys -> Prop) :
  rc_NotBefore payload = None ->
  (forall w' now o, unobserved w w' -> gclock w <= now <= gclock w' ->
     match o with
     | inl e => jwt_SignedString HS256 (issued ts payload now) (ts_secret ts) = inl e
     | inr tok => contains space tok = false /\ forall now', now' < Unix (now + ts_tokenTTL ts) * Second <->
         token_valid ts tok now' (read_back (issued ts payload now))
     end -> Φ o (MkSys w' p)) ->
  wp good (GenerateAccessToken ts payload) (MkSys w p) Φ.
Proof using LL SL.
  intros Hnb H. unfold GenerateAccessToken. apply wp_bind, wp_time_now. intros w' now _ Hu Hn.
  apply wp_ret, (H _ now); [done..|].
  destruct (jwt_SignedString _ _ _) as [e|tok] eqn:E; [done|]. split; [by eapply jwt_signed_text|].
  intros now'. apply jwt_signed_token in E as (Ha & Hc & Hs).
  assert (in_force now' (read_back (issued ts payload now)) <-> now' < Unix (now + ts_tokenTTL ts) * Second) as Hf.
  { unfold in_force. cbn. rewrite Hnb. tauto. }
  unfold token_valid. rewrite Hf. change (jwt_claims tok = Some (read_back (issued ts payload now))) in Hc. tauto.
Qed.

(** A token that is generated and presented again, at any later time, gives
    back the user and the email it was generated for, until the whole second
    in which its time to live ends; from then on it is refused. *)
Theorem token_roundtrip ts payload w p :
  rc_NotBefore payload = None ->
  wp any_reply (t ← GenerateAccessToken ts payload;
                match t with inl e => mret (inl e) | inr tok => ValidateAccessToken ts tok end)
    (MkSys w p) (fun o σ' => exists now now', gclock w <= now <= now' /\ now' <= gclock (sw σ') /\
      let expiry := Unix (now + ts_tokenTTL ts) * Second in
      match o with
      | inr c => now' < expiry /\ rc_UserID c = coerce (rc_UserID payload) /\ rc_Email c = coerce (rc_Email payload)
      | inl e => expiry <= now' /\ IsKind e Unauthorised = true \/
                 jwt_SignedString HS256 (issued ts payload now) (ts_secret ts) = inl e
      end).
Proof using LL SL.
  intros Hnb. apply wp_bind, wp_GenerateAccessToken; [done|]. intros w1 now [e|tok] (_ & _ & Hl1) Hn Ht.
  { apply wp_ret. exists now, now. cbn. split_and!; [lia..|]. by right. }
  destruct Ht as [_ Ht].
  apply wp_ValidateAccessToken. intros w2 now' o (_ & _ & Hl2) Hn' Ho. exists now, now'.
  destruct Hl1, Hl2. cbn. split; [lia|]. split; [lia|]. destruct o as [e|c].
  - left. destruct Ho as [Ho ->]. split; [|done].
    destruct (decide (now' < Unix (now + ts_tokenTTL ts) * Second)) as [Hlt|]; [|lia].
    apply Ht, Ho in Hlt. done.
  - pose proof Ho as (Ha & Hs & Hc & Hu).
    pose proof (proj1 (Ht (Unix (now + ts_tokenTTL ts) * Second - 1)) ltac:(lia)) as Hi.
    pose proof (token_valid_fun _ _ _ _ _ _ Ho Hi) as ->. split_and!; [|done|done].
    by apply Ht.
Qed.

(** C27: a token is accepted exactly when its header names HS256, its signature
    is that of the service's secret and it is in force (not expired, not used
    before its time): a token signed
    with another algorithm, "none" included, or another key is refused. *)
Theorem ValidateAccessToken_sound ts tok w p :
  wp any_reply (ValidateAccessToken ts tok) (MkSys w p) (fun o σ' =>
    rview (sw σ') = rview w /\ dview (sw σ') = dview w /\ sp σ' = p /\
    exists now, gclock w <= now <= gclock (sw σ') /\
    match o with
    | inr c => jwt_claims tok = Some c /\ in_force now c /\
        jwt_alg tok = Some HS256 /\ jwt_signed_by tok (ts_secret ts) = true
    | inl e => IsKind e Unauthorised = true /\
        (jwt_alg tok = Some HS256 -> jwt_signed_by tok (ts_secret ts) = true ->
           forall c, jwt_claims tok = Some c -> ~ in_force now c)
    end).
Proof using LL SL.
  apply wp_ValidateAccessToken. intros w' now o (Hv & Hd & _) Hn Ho. split_and!; [done..|].
  exists now. split; [done|]. destruct o as [e|c].
  - destruct Ho as [Ho ->]. split; [done|]. intros Ha Hs c Hc Hu. by apply (Ho c).
  - destruct Ho as (? & ? & ? & ?). done.
Qed.

End Tokens.

(** ** An instance of the laws: tokens in the clear *)

Module RefJwt.

#[export] Instance RequestClaims_countable_eq : EqDecision RequestClaims.
Proof. solve_decision. Defined.
#[export] Instance RequestClaims_countable : Countable RequestClaims.
Proof.
  refine (inj_countable'
    (fun c => (rc_UserID c, rc_Email c, rc_ExpiresAt c, rc_NotBefore c, rc_IssuedAt c))
    (fun '(a, b, c, d, e) => MkRequestClaims a b c d e) _).
  by intros [].
Defined.

(** The algorithm, the key and the claims of a token. *)
Definition token : Type := string * string * RequestClaims.

Definition parse_with_claims (tok : string) (kf : string -> error + string) (methods : list string)
    (now : Z) : error + (RequestClaims * bool) :=
  match Codec.parse (A := token) tok with
  | Some (alg, key, c) =>
      match kf alg with
      | inr key' => if decide (alg ∈ methods /\ key' = key /\ in_force now c) then inr (c, true)
                    else inl (OtherError "token is invalid")
      | inl e => inl e
      end
  | None => inl (OtherError "token is malformed")
  end.

#[export] Instance lib : JwtLib := {
  jwt_SignedString alg c key := inr (Codec.print (A := token) (alg, key, read_back c));
  jwt_ParseWithClaims := parse_with_claims;
  jwt_alg tok := (fun t => t.1.1) <$> Codec.parse (A := token) tok;
  jwt_claims tok := snd <$> Codec.parse (A := token) tok;
  jwt_signed_by tok key :=
    match Codec.parse (A := token) tok with Some (_, k, _) => bool_decide (k = key) | None => false end
}.

#[export] Instance laws : JwtLaws lib.
Proof.
  split; cbn.
  - intros tok kf ms now c v. unfold jwt_accepts, parse_with_claims; cbn.
    destruct (Codec.parse tok) as [[[alg key] c']|]; cbn; [|naive_solver].
    destruct (kf alg) as [e|key'] eqn:Ek; [naive_solver congruence|].
    case_decide as Hd; split.
    + intros [= <- <-]. destruct Hd as (H1 & -> & H2). split_and!; [done..|].
      exists alg, key. rewrite bool_decide_eq_true_2 by done. done.
    + intros (-> & [= ->] & _). done.
    + done.
    + intros (_ & [= ->] & Hu & a & k & [= <-] & Ha & Hk & Hb). exfalso. apply Hd.
      apply bool_decide_eq_true in Hb as ->. split_and!; [done|congruence|done].
  - intros alg c key tok [= <-]. rewrite Codec.parse_encoded. cbn.
    by rewrite bool_decide_eq_true_2.
  - intros alg c key tok [= <-]. unfold Codec.print. by induction (encode _) as [q IH|q IH|].
Qed.

End RefJwt.

Section Witnesses.
#[local] Existing Instance RefWorld.services.
#[local] Existing Instance RefWorld.laws.
#[local] Existing Instance RefJwt.lib.
#[local] Existing Instance RefJwt.laws.

Definition demo_ts : TokenService := MkTokenService "secret" (30 * Minute).
Definition demo_payload : RequestClaims := MkRequestClaims "u" "a@b.c" None None None.

Definition roundtrip : prog (error + RequestClaims) :=
  t ← GenerateAccessToken demo_ts demo_payload;
  match t with inl e => mret (inl e) | inr tok => ValidateAccessToken demo_ts tok end.

(** The token that was generated is accepted. *)
Lemma token_roundtrip_witness :
  match (run roundtrip Demo.sys0).2 with Ret (inr c) => rc_UserID c | _ => "" end = "u" /\
  exists Φ, wp any_reply roundtrip Demo.sys0 Φ.
Proof.
  split; [vm_compute; reflexivity|]. eexists.
  exact (token_roundtrip demo_ts demo_payload Demo.world0 RefWorld.proc10 eq_refl).
Defined.

(** The same claims without an algorithm are not. *)
Definition unsigned_token : string :=
  match jwt_SignedString "none" demo_payload "secret" with inr tok => tok | inl _ => "" end.
Lemma ValidateAccessToken_sound_witness :
  match (run (ValidateAccessToken demo_ts unsigned_token) Demo.sys0).2 with
  | Ret (inl e) => IsKind e Unauthorised | _ => false end = true /\
  exists Φ, wp any_reply (ValidateAccessToken demo_ts unsigned_token) Demo.sys0 Φ.
Proof.
  split; [vm_compute; reflexivity|]. eexists.
  exact (ValidateAccessToken_sound demo_ts unsigned_token Demo.world0 RefWorld.proc10).
Defined.

End Witnesses.
