(* ===== verification/Http.v ===== *)
(** * pkg/utils/response.go and internals/middleware: requests and responses

    What the handlers read from a request and write to the response, and the
    authentication middleware.  go-playground's validator ([Validator]) is an
    interface; a request is the values that the code takes from it. *)

From S2P Require Import Prelude AppError Types Json Redis Postgres Effects Rules Reference Security.
From stdpp Require Import gmap list strings pretty sorting.
#[local] Open Scope Z_scope.

(** ** Requests *)

Record http_request := MkRequest {
  rq_ID : string;               (* middleware.GetReqID(ctx) *)
  rq_Authorization : string;    (* r.Header.Get("Authorization"), empty when missing *)
  rq_Body : string;
  rq_monitorID : string;        (* chi.URLParam(r, "monitorID") *)
  rq_limit : string;            (* r.URL.Query().Get("limit") *)
  rq_offset : string
}.

(** ** response.go *)

Section Responses.
Context {D : Type}.

Inductive body :=
| SuccessResponse (RequestID message : string) (data : D)
| ErrorResponse (RequestID : string) (kind : Kind) (message : string).

Record response := MkResponse { rs_Status : Z; rs_Body : body }.

Definition WriteJSON (status : Z) (reqID message : string) (data : D) : response :=
  MkResponse status (SuccessResponse reqID message data).

Definition WriteError (httpStatusCode : Z) (reqID : string) (code : Kind) (message : string) : response :=
  MkResponse httpStatusCode (ErrorResponse reqID code message).

Definition FromAppError (reqID : string) (err : error) : response :=
  let appErr :=
    match as_AppError err with
    | Some appErr => appErr
    | None => MkError Internal "" None "internal server error" false
    end in
  WriteError (GetHTTPStatus (e_Kind appErr)) reqID (e_Kind appErr) (e_Message appErr).

(** The JSON of a body; [data] may be omitted, and so is an empty message. *)
Definition body_json (data_json : D -> option json) (b : body) : json :=
  match b with
  | SuccessResponse RequestID message data =>
      JObject ([("success", JBool true); ("request_id", JString RequestID); ("message", JString message)] ++
               match data_json data with Some d => [("data", d)] | None => [] end)
  | ErrorResponse RequestID kind message =>
      JObject [("success", JBool false); ("request_id", JString RequestID);
               ("error", JObject (("kind", JString kind) ::
                                  if decide (message = "") then [] else [("message", JString message)]))]
  end.

(** [json.NewEncoder(w).Encode(res)]: the value and a new line. *)
Definition encoded (data_json : D -> option json) (b : body) : string :=
  print (body_json data_json b) +:+ byte1 10.

End Responses.
Arguments body : clear implicits.
Arguments response : clear implicits.

(** ** internals/middleware/authentication.go *)

Record AuthenticatedUser := MkAuthenticatedUser { au_UserID : UUID; au_Email : string }.

(** The text of the error of [errors.New], or the token. *)
Definition extractBearerToken (r : http_request) : string + string :=
  let authHeader := rq_Authorization r in
  if decide (authHeader = "") then inl "missing Authorization header"
  else
    match Split space authHeader with
    | [scheme; token] =>
        if decide (scheme = "Bearer") then inr token else inl "invalid Authorization header"
    | _ => inl "invalid Authorization header"
    end.

Section Middleware.
Context {U : UuidLib} {L : JwtLib} {D : Type}.

(** A handler: the user that the middleware put in the context, if any, and the
    request. *)
Definition handler : Type := option AuthenticatedUser -> http_request -> prog (response D).

(** [context.WithValue] and [UserFromContext] *)
Definition UserFromContext (u : option AuthenticatedUser) : option AuthenticatedUser := u.

Definition Handle (ts : TokenService) (next : handler) : handler := fun ctx_user r =>
  let reqID := rq_ID r in
  match extractBearerToken r with
  | inl err => mret (WriteError StatusUnauthorized reqID Unauthorised err)
  | inr token =>
    v ← ValidateAccessToken ts token;
    match v with
    | inl err => mret (FromAppError reqID err)
    | inr claims =>
      if decide (rc_UserID claims = "" \/ rc_Email claims = "") then
        mret (WriteError StatusUnauthorized reqID Unauthorised "user is unauthorised")
      else
        match uuid_Parse (rc_UserID claims) with
        | inl _ => mret (WriteError StatusUnauthorized reqID Unauthorised "user is unauthorised")
        | inr userID =>
          next (Some (MkAuthenticatedUser userID (rc_Email claims))) r
        end
    end
  end.

(** authorization.go: the role check is still to be written. *)
Definition AllowAdmin (next : handler) : handler := fun ctx_user r =>
  match UserFromContext ctx_user with
  | None => mret (WriteError StatusUnauthorized (rq_ID r) Unauthorised "user is unauthorised")
  | Some _ => next ctx_user r
  end.

End Middleware.
Arguments handler : clear implicits.

(** ** go-playground/validator *)

(** The values of the fields of a struct with their [validate] tags. *)
Inductive field := FString (s : string) | FInt (n : Z) | FBool (b : bool) | FStruct.
Inductive tag :=
| T_required | T_gt (n : Z) | T_gte (n : Z) | T_lte (n : Z)
| T_email | T_url | T_oneof (l : list string).

Class Validator := { validator_Struct : list (field * list tag) -> option error }.

(** Documented: [required] refuses the zero value of the type; [gte] and [lte]
    compare numbers. *)
Definition nonzero (f : field) : Prop :=
  match f with FString s => s <> "" | FInt n => n <> 0 | FBool b => b = true | FStruct => True end.

Class ValidatorLaws (V : Validator) := {
  validator_required fs f ts :
    validator_Struct fs = None -> (f, ts) ∈ fs -> T_required ∈ ts -> nonzero f;
  validator_gte fs n m ts :
    validator_Struct fs = None -> (FInt n, ts) ∈ fs -> T_gte m ∈ ts -> m <= n;
  validator_lte fs n m ts :
    validator_Struct fs = None -> (FInt n, ts) ∈ fs -> T_lte m ∈ ts -> n <= m
}.

(** ** Lemmas *)

Section Lemmas.
Context {U : UuidLib} {UL : UuidLaws U} {L : JwtLib} {LL : JwtLaws L} {S : Services} {SL : ServiceLaws S}.
Context {D : Type}.

(** The user that a request identifies at a time. *)
Definition authenticates (ts : TokenService) (r : http_request) (now : Z) (u : AuthenticatedUser) : Prop :=
  exists tok c, Split space (rq_Authorization r) = ["Bearer"; tok] /\ token_valid ts tok now c /\
    rc_UserID c <> "" /\ rc_Email c = au_Email u /\ rc_Email c <> "" /\
    uuid_Parse (rc_UserID c) = inr (au_UserID u).

Definition unauthorised_response (r : response D) : Prop :=
  rs_Status r = 401 /\ exists id msg, rs_Body r = ErrorResponse id Unauthorised msg.

(** [Handle]: the next handler runs with the user of the token, and only then. *)
Lemma wp_Handle good ts (next : handler D) u0 r w p (Φ : response D -> sys -> Prop) :
  (forall w' now u, unobserved w w' -> gclock w <= now <= gclock w' -> authenticates ts r now u ->
     wp good (next (Some u) r) (MkSys w' p) Φ) ->
  (forall w' now rs, unobserved w w' -> gclock w <= now <= gclock w' ->
     (forall u, ~ authenticates ts r now u) -> unauthorised_response rs -> Φ rs (MkSys w' p)) ->
  wp good (Handle ts next u0 r) (MkSys w p) Φ.
Proof using LL SL.
  intros Hn Hu. unfold Handle.
  destruct (extractBearerToken r) as [e|tok] eqn:Et.
  { apply wp_ret, (Hu _ (gclock w)); [apply unobserved_refl|lia| |by repeat eexists].
    intros u (tok & c & Hs & _). unfold extractBearerToken in Et. rewrite Hs in Et.
    case_decide as He; [rewrite He in Hs; done|done]. }
  assert (Split space (rq_Authorization r) = ["Bearer"; tok]) as Hs.
  { unfold extractBearerToken in Et. case_decide; [done|].
    destruct (Split _ _) as [|s1 [|s2 []]]; try done. case_decide; [|done]. congruence. }
  apply wp_bind, wp_ValidateAccessToken. intros w1 now o Hw Hnow Ho. destruct o as [e|c].
  { destruct Ho as [Ho ->]. apply wp_ret, (Hu _ now); [done..| |by repeat eexists].
    intros u (tok' & c & Hs' & Hv & _). assert (tok' = tok) as -> by congruence. by apply (Ho c). }
  case_decide as Hc.
  { apply wp_ret, (Hu _ now); [done..| |by repeat eexists].
    intros u (tok' & c' & Hs' & Hv & H1 & _ & H2 & _). assert (tok' = tok) as -> by congruence.
    assert (c' = c) as -> by (by eapply token_valid_fun). tauto. }
  destruct (uuid_Parse (rc_UserID c)) as [e|id] eqn:Ep.
  { apply wp_ret, (Hu _ now); [done..| |by repeat eexists].
    intros u (tok' & c' & Hs' & Hv & _ & _ & _ & H). assert (tok' = tok) as -> by congruence.
    assert (c' = c) as -> by (by eapply token_valid_fun). congruence. }
  apply (Hn _ now); [done..|]. exists tok, c. split_and!; [done|done|tauto|done|tauto|done].
Qed.

End Lemmas.
