(* ===== verification/Config.v ===== *)
(** * config: the configuration

    config/models.go and config/loader.go.  [LoadConfig] reads env.yaml and the
    environment with viper, which the class [ViperLib] stands for, and refuses
    a configuration whose [validate] tags do not hold; the validator is the
    class [StructValidator].  Durations are nanoseconds.  The theorems say what
    every configuration that was loaded satisfies, which the components rely
    on: sizes of channels, numbers of workers, intervals of the tickers. *)

From S2P Require Import Prelude AppError Types Redis Postgres Effects Rules Reference RedisStore.
From S2P Require Import Security Http.
From stdpp Require Import gmap list strings pretty sorting.
#[local] Open Scope Z_scope.

(** ** models.go *)

Record AuthConfig := MkAuthConfig { auth_Secret : string; auth_TokenTTL : Z }.

Record AppConfig := MkAppConfig {
  app_JobChannelSize : Z;
  app_ResultChannelSize : Z;
  app_AlertChannelSize : Z
}.

Record SchedulerConfig := MkSchedulerConfig {
  scc_Interval : Z;
  scc_BatchSize : Z;
  scc_VisibilityTimeout : Z
}.

Record ReclaimerConfig := MkReclaimerConfig { rcc_Interval : Z; rcc_Limit : Z }.

Record ExecutorConfig := MkExecutorConfig { exc_WorkerCount : Z; exc_HTTPSemCount : Z }.

Record AlertConfig := MkAlertConfig {
  alc_WorkerCount : Z;
  alc_OwnerEmail : string;
  alc_AccessKey : string
}.

Record ResultProcessorConfig := MkResultProcessorConfig {
  rpc_SuccessWorkerCount : Z;
  rpc_SuccessChannelSize : Z;
  rpc_FailureWorkerCount : Z;
  rpc_FailureChannelSize : Z
}.

Record RedisConfig := MkRedisConfig {
  rdc_URL : string;
  rdc_DialTimeout : Z;
  rdc_ReadTimeout : Z;
  rdc_WriteTimeout : Z;
  rdc_PoolSize : Z;
  rdc_MinIdleConns : Z;
  rdc_ConnMaxLifetime : Z;
  rdc_ConnMaxIdleTime : Z
}.

Record DBConfig := MkDBConfig {
  dbc_URL : string;
  dbc_MaxOpenConns : Z;
  dbc_MinIdleConns : Z;
  dbc_ConnMaxLifetime : Z;
  dbc_ConnMaxIdleTime : Z;
  dbc_HealthTimeout : Z
}.

Record Config := MkConfig {
  Env : string;
  ServiceName : string;
  Port : Z;
  Auth : AuthConfig;
  App : AppConfig;
  SchedulerCfg : SchedulerConfig;
  ReclaimerCfg : ReclaimerConfig;
  ExecutorCfg : ExecutorConfig;
  AlertCfg : AlertConfig;
  ResultProcessorCfg : ResultProcessorConfig;
  RedisCfg : RedisConfig;
  DB : DBConfig
}.

(** A field of a struct: its name, its [mapstructure] key, its value and its
    [validate] tags. *)
Record field_descr := MkField {
  fd_name : string;
  fd_key : string;
  fd_value : field;
  fd_tags : list tag
}.

(** A nested struct: its own field, then its fields below its name and key. *)
Definition nested (name key : string) (fs : list field_descr) : list field_descr :=
  MkField name key FStruct [T_required] ::
  ((fun f => MkField (name +:+ "." +:+ fd_name f) (key +:+ "." +:+ fd_key f) (fd_value f) (fd_tags f)) <$> fs).

Definition AuthConfig_fields (c : AuthConfig) : list field_descr :=
  [MkField "Secret" "secret" (FString (auth_Secret c)) [T_required];
   MkField "TokenTTL" "token_ttl" (FInt (auth_TokenTTL c)) [T_gt 0]].

Definition AppConfig_fields (c : AppConfig) : list field_descr :=
  [MkField "JobChannelSize" "job_channel_size" (FInt (app_JobChannelSize c)) [T_gte 100; T_lte 5000];
   MkField "ResultChannelSize" "result_channel_size" (FInt (app_ResultChannelSize c)) [T_gte 100; T_lte 5000];
   MkField "AlertChannelSize" "alert_channel_size" (FInt (app_AlertChannelSize c)) [T_gte 100; T_lte 5000]].

Definition SchedulerConfig_fields (c : SchedulerConfig) : list field_descr :=
  [MkField "Interval" "interval" (FInt (scc_Interval c)) [T_gte 5];
   MkField "BatchSize" "batch_size" (FInt (scc_BatchSize c)) [T_gt 0];
   MkField "VisibilityTimeout" "visibility_timeout" (FInt (scc_VisibilityTimeout c)) [T_gt 0]].

Definition ReclaimerConfig_fields (c : ReclaimerConfig) : list field_descr :=
  [MkField "Interval" "interval" (FInt (rcc_Interval c)) [T_gte 5];
   MkField "Limit" "limit" (FInt (rcc_Limit c)) [T_gt 0]].

Definition ExecutorConfig_fields (c : ExecutorConfig) : list field_descr :=
  [MkField "WorkerCount" "worker_count" (FInt (exc_WorkerCount c)) [T_gte 5; T_lte 200];
   MkField "HTTPSemCount" "http_semaphore_count" (FInt (exc_HTTPSemCount c)) [T_gte 5; T_lte 6000]].

Definition AlertConfig_fields (c : AlertConfig) : list field_descr :=
  [MkField "WorkerCount" "worker_count" (FInt (alc_WorkerCount c)) [T_gte 5];
   MkField "OwnerEmail" "owner_email" (FString (alc_OwnerEmail c)) [T_required];
   MkField "AccessKey" "access_key" (FString (alc_AccessKey c)) [T_required]].

Definition ResultProcessorConfig_fields (c : ResultProcessorConfig) : list field_descr :=
  [MkField "SuccessWorkerCount" "success_worker_count" (FInt (rpc_SuccessWorkerCount c)) [T_gte 5];
   MkField "SuccessChannelSize" "success_channel_size" (FInt (rpc_SuccessChannelSize c)) [T_gte 5];
   MkField "FailureWorkerCount" "failure_worker_count" (FInt (rpc_FailureWorkerCount c)) [T_gte 5];
   MkField "FailureChannelSize" "failure_channel_size" (FInt (rpc_FailureChannelSize c)) [T_gte 5]].

Definition RedisConfig_fields (c : RedisConfig) : list field_descr :=
  [MkField "URL" "url" (FString (rdc_URL c)) [T_required; T_url];
   MkField "DialTimeout" "dial_timeout" (FInt (rdc_DialTimeout c)) [T_gt 0];
   MkField "ReadTimeout" "read_timeout" (FInt (rdc_ReadTimeout c)) [T_gt 0];
   MkField "WriteTimeout" "write_timeout" (FInt (rdc_WriteTimeout c)) [T_gt 0];
   MkField "PoolSize" "pool_size" (FInt (rdc_PoolSize c)) [T_gte 1; T_lte 1000];
   MkField "MinIdleConns" "min_idle_conns" (FInt (rdc_MinIdleConns c)) [T_gt 0];
   MkField "ConnMaxLifetime" "conn_max_lifetime" (FInt (rdc_ConnMaxLifetime c)) [T_gt 0];
   MkField "ConnMaxIdleTime" "conn_max_idle_time" (FInt (rdc_ConnMaxIdleTime c)) [T_gt 0]].

Definition DBConfig_fields (c : DBConfig) : list field_descr :=
  [MkField "URL" "url" (FString (dbc_URL c)) [T_required; T_url];
   MkField "MaxOpenConns" "max_open_conns" (FInt (dbc_MaxOpenConns c)) [T_gt 0];
   MkField "MinIdleConns" "min_idle_conns" (FInt (dbc_MinIdleConns c)) [T_gt 0];
   MkField "ConnMaxLifetime" "conn_max_lifetime" (FInt (dbc_ConnMaxLifetime c)) [T_gt 0];
   MkField "ConnMaxIdleTime" "conn_max_idle_time" (FInt (dbc_ConnMaxIdleTime c)) [T_gt 0];
   MkField "HealthTimeout" "health_timeout" (FInt (dbc_HealthTimeout c)) [T_gt 0]].

Definition Config_fields (c : Config) : list field_descr :=
  [MkField "Env" "env" (FString (Env c)) [T_required; T_oneof ["development"; "staging"; "production"]];
   MkField "ServiceName" "service_name" (FString (ServiceName c)) [];
   MkField "Port" "port" (FInt (Port c)) [T_gte 1; T_lte 65535]] ++
  nested "Auth" "auth" (AuthConfig_fields (Auth c)) ++
  nested "App" "app" (AppConfig_fields (App c)) ++
  nested "Scheduler" "scheduler" (SchedulerConfig_fields (SchedulerCfg c)) ++
  nested "Reclaimer" "reclaimer" (ReclaimerConfig_fields (ReclaimerCfg c)) ++
  nested "Executor" "executor" (ExecutorConfig_fields (ExecutorCfg c)) ++
  nested "Alert" "alert" (AlertConfig_fields (AlertCfg c)) ++
  nested "ResultProcessor" "result_processor" (ResultProcessorConfig_fields (ResultProcessorCfg c)) ++
  nested "Redis" "redis" (RedisConfig_fields (RedisCfg c)) ++
  nested "DB" "db" (DBConfig_fields (DB c)).

(** ** viper *)

(** A value given to [SetDefault]. *)
Inductive setting := SString (s : string) | SInt (n : Z).

(** What the code has told viper. *)
Record viper := MkViper {
  v_defaults : list (string * setting);
  v_configFile : string;
  v_configType : string;
  v_automaticEnv : bool;
  v_envKeyReplacer : list (string * string)
}.

Definition viper_New : viper := MkViper [] "" "" false [].
Definition SetDefault (v : viper) (key : string) (x : setting) : viper :=
  MkViper (v_defaults v ++ [(key, x)]) (v_configFile v) (v_configType v) (v_automaticEnv v) (v_envKeyReplacer v).
Definition SetConfigFile (v : viper) (path : string) : viper :=
  MkViper (v_defaults v) path (v_configType v) (v_automaticEnv v) (v_envKeyReplacer v).
Definition SetConfigType (v : viper) (typ : string) : viper :=
  MkViper (v_defaults v) (v_configFile v) typ (v_automaticEnv v) (v_envKeyReplacer v).
Definition AutomaticEnv (v : viper) : viper :=
  MkViper (v_defaults v) (v_configFile v) (v_configType v) true (v_envKeyReplacer v).
Definition SetEnvKeyReplacer (v : viper) (r : list (string * string)) : viper :=
  MkViper (v_defaults v) (v_configFile v) (v_configType v) (v_automaticEnv v) r.

(** Reading the file and the environment, and filling the struct by its
    [mapstructure] keys. *)
Class ViperLib := {
  settings : Type;
  ReadInConfig : viper -> error + settings;
  is_set : viper -> settings -> string -> bool;   (* in the file or the environment *)
  Unmarshal : viper -> settings -> error + Config
}.

(** A duration such as "30m": a whole number and a unit. *)
Definition unit_of (s : string) : option Z :=
  if decide (s = "h") then Some Hour
  else if decide (s = "m") then Some Minute
  else if decide (s = "s") then Some Second
  else if decide (s = "ms") then Some Millisecond
  else None.

Fixpoint duration_from (n : option Z) (s : string) : option Z :=
  match s with
  | EmptyString => None
  | String c s' =>
      match digit c with
      | Some d => duration_from (Some (10 * default 0 n + d)) s'
      | None => m ← n; u ← unit_of s; Some (m * u)
      end
  end.

(** How a default is decoded into a field. *)
Definition decodes (x : setting) (f : field) : Prop :=
  match x, f with
  | SString s, FString s' => s' = s
  | SString s, FInt d => duration_from None s = Some d
  | SInt n, FInt m => m = n
  | _, _ => False
  end.

(** Documented: a key that neither the file nor the environment sets has its
    default. *)
Class ViperLaws (Vi : ViperLib) := {
  unmarshal_default v st c k x fd :
    ReadInConfig v = inr st -> Unmarshal v st = inr c ->
    NoDup (v_defaults v).*1 -> (k, x) ∈ v_defaults v -> is_set v st k = false ->
    fd ∈ Config_fields c -> fd_key fd = k -> decodes x (fd_value fd)
}.

(** ** go-playground/validator, with the names of the fields *)

Record FieldError := MkFieldError { fe_Namespace : string; fe_Tag : string }.

(** What [validate.Struct] returns: a nil error, [ValidationErrors], another error. *)
Class StructValidator := {
  validate_Struct : list field_descr -> option (list FieldError + error);
  is_email : string -> Prop;
  is_url : string -> Prop
}.

Definition tag_name (t : tag) : string :=
  match t with
  | T_required => "required"
  | T_gt _ => "gt"
  | T_gte _ => "gte"
  | T_lte _ => "lte"
  | T_email => "email"
  | T_url => "url"
  | T_oneof _ => "oneof"
  end.

Section Loader.
Context {SV : StructValidator}.

(** What the tags of the configuration ask of a value. *)
Definition tag_holds (f : field) (t : tag) : Prop :=
  match t, f with
  | T_required, f => nonzero f
  | T_gt m, FInt n => m < n
  | T_gte m, FInt n => m <= n
  | T_lte m, FInt n => n <= m
  | T_email, FString s => is_email s
  | T_url, FString s => is_url s
  | T_oneof l, FString s => s ∈ l
  | _, _ => True
  end.

(** Documented: no error exactly if every tag holds; otherwise the errors name
    the fields and tags that failed; another error only for an argument that
    is not a struct. *)
Class StructValidatorLaws := {
  validate_nil fs : validate_Struct fs = None ->
    forall fd t, fd ∈ fs -> t ∈ fd_tags fd -> tag_holds (fd_value fd) t;
  validate_errors fs ve : validate_Struct fs = Some (inl ve) ->
    ve <> [] /\ Forall (fun fe => exists fd t, fd ∈ fs /\ t ∈ fd_tags fd /\
      fe = MkFieldError ("Config." +:+ fd_name fd) (tag_name t) /\ ~ tag_holds (fd_value fd) t) ve;
  validate_struct fs e : validate_Struct fs <> Some (inr e)
}.

(** ** loader.go *)

Definition newline : string := String (Ascii.ascii_of_N 10) "".

(** The defaults of [setDefaults], in its order. *)
Definition setDefaults (v : viper) : viper :=
  let v := SetDefault v "env" (SString "development") in
  let v := SetDefault v "service_name" (SString "monitor-service") in
  let v := SetDefault v "port" (SInt 8080) in
  let v := SetDefault v "auth.token_ttl" (SString "30m") in
  let v := SetDefault v "scheduler.interval" (SString "10s") in
  let v := SetDefault v "scheduler.batch_size" (SInt 10) in
  let v := SetDefault v "redis.dial_timeout" (SString "5s") in
  let v := SetDefault v "redis.read_timeout" (SString "3s") in
  let v := SetDefault v "redis.write_timeout" (SString "3s") in
  let v := SetDefault v "redis.pool_size" (SInt 10) in
  let v := SetDefault v "redis.min_idle_conns" (SInt 5) in
  let v := SetDefault v "redis.conn_max_lifetime" (SString "2m") in
  let v := SetDefault v "redis.conn_max_idle_time" (SString "30s") in
  let v := SetDefault v "db.max_open_conns" (SInt 50) in
  let v := SetDefault v "db.min_idle_conns" (SInt 5) in
  let v := SetDefault v "db.conn_max_lifetime" (SString "1h") in
  let v := SetDefault v "db.conn_max_idle_time" (SString "30m") in
  SetDefault v "db.health_timeout" (SString "5s").

Fixpoint format_lines (ve : list FieldError) : string :=
  match ve with
  | [] => ""
  | fe :: ve => "- field '" +:+ fe_Namespace fe +:+ "' failed on '" +:+ fe_Tag fe +:+ "'" +:+ newline +:+
                format_lines ve
  end.

Definition formatValidationErrors (ve : list FieldError) : error :=
  OtherError ("config validation failed:" +:+ newline +:+ format_lines ve).

Definition validateConfig (cfg : Config) : option error :=
  match validate_Struct (Config_fields cfg) with
  | None => None
  | Some (inl ve) => Some (formatValidationErrors ve)
  | Some (inr err) => Some err
  end.

Definition LoadConfig {Vi : ViperLib} (path : string) : error + Config :=
  let v := setDefaults viper_New in
  let v := SetConfigType (SetConfigFile v path) "yaml" in
  let v := SetEnvKeyReplacer (AutomaticEnv v) [(".", "_")] in
  match ReadInConfig v with
  | inl err => inl (Wrapped "read config: " err)
  | inr st =>
    match Unmarshal v st with
    | inl err => inl (Wrapped "unmarshal config: " err)
    | inr cfg =>
      match validateConfig cfg with
      | Some err => inl err
      | None => inr cfg
      end
    end
  end.

End Loader.
Arguments StructValidatorLaws : clear implicits.

(** ** Lemmas *)

Section Lemmas.
Context {SV : StructValidator} {SVL : StructValidatorLaws SV}.

(** Every tag of every field holds. *)
Fixpoint tags_hold (f : field) (ts : list tag) : Prop :=
  match ts with [] => True | t :: ts => tag_holds f t /\ tags_hold f ts end.
Fixpoint fields_hold (fs : list field_descr) : Prop :=
  match fs with [] => True | fd :: fs => tags_hold (fd_value fd) (fd_tags fd) /\ fields_hold fs end.

Lemma tags_hold_all f ts : (forall t, t ∈ ts -> tag_holds f t) -> tags_hold f ts.
Proof. induction ts as [|t ts IH]; intros H; [done|]. split; [apply H; left|apply IH; intros; apply H; by right]. Qed.

Lemma fields_hold_all fs :
  (forall fd t, fd ∈ fs -> t ∈ fd_tags fd -> tag_holds (fd_value fd) t) -> fields_hold fs.
Proof.
  induction fs as [|fd fs IH]; intros H; [done|]. split.
  - apply tags_hold_all. intros t Ht. apply H; [left|done].
  - apply IH. intros fd' t Hin. apply H. by right.
Qed.

(** What models.go asks of a configuration, struct by struct. *)
Record well_formed (cfg : Config) : Prop := {
  wf_env : Env cfg = "development" \/ Env cfg = "staging" \/ Env cfg = "production";
  wf_port : 1 <= Port cfg <= 65535;
  wf_secret : auth_Secret (Auth cfg) <> "";
  wf_ttl : 0 < auth_TokenTTL (Auth cfg);
  wf_job : 100 <= app_JobChannelSize (App cfg) <= 5000;
  wf_result : 100 <= app_ResultChannelSize (App cfg) <= 5000;
  wf_alert : 100 <= app_AlertChannelSize (App cfg) <= 5000;
  wf_interval : 5 <= scc_Interval (SchedulerCfg cfg);
  wf_batch : 0 < scc_BatchSize (SchedulerCfg cfg);
  wf_visibility : 0 < scc_VisibilityTimeout (SchedulerCfg cfg);
  wf_reclaim : 5 <= rcc_Interval (ReclaimerCfg cfg);
  wf_limit : 0 < rcc_Limit (ReclaimerCfg cfg);
  wf_workers : 5 <= exc_WorkerCount (ExecutorCfg cfg) <= 200;
  wf_sem : 5 <= exc_HTTPSemCount (ExecutorCfg cfg) <= 6000;
  wf_alerters : 5 <= alc_WorkerCount (AlertCfg cfg);
  wf_owner : alc_OwnerEmail (AlertCfg cfg) <> "" /\ alc_AccessKey (AlertCfg cfg) <> "";
  wf_successes : 5 <= rpc_SuccessWorkerCount (ResultProcessorCfg cfg);
  wf_success : 5 <= rpc_SuccessChannelSize (ResultProcessorCfg cfg);
  wf_failures : 5 <= rpc_FailureWorkerCount (ResultProcessorCfg cfg);
  wf_failure : 5 <= rpc_FailureChannelSize (ResultProcessorCfg cfg);
  wf_redis_url : rdc_URL (RedisCfg cfg) <> "" /\ is_url (rdc_URL (RedisCfg cfg));
  wf_redis_dial : 0 < rdc_DialTimeout (RedisCfg cfg);
  wf_redis_read : 0 < rdc_ReadTimeout (RedisCfg cfg);
  wf_redis_write : 0 < rdc_WriteTimeout (RedisCfg cfg);
  wf_redis_pool : 1 <= rdc_PoolSize (RedisCfg cfg) <= 1000;
  wf_redis_idle : 0 < rdc_MinIdleConns (RedisCfg cfg);
  wf_redis_life : 0 < rdc_ConnMaxLifetime (RedisCfg cfg);
  wf_redis_idle_time : 0 < rdc_ConnMaxIdleTime (RedisCfg cfg);
  wf_db_url : dbc_URL (DB cfg) <> "" /\ is_url (dbc_URL (DB cfg));
  wf_db_conns : 0 < dbc_MaxOpenConns (DB cfg);
  wf_db_idle : 0 < dbc_MinIdleConns (DB cfg);
  wf_db_life : 0 < dbc_ConnMaxLifetime (DB cfg);
  wf_db_idle_time : 0 < dbc_ConnMaxIdleTime (DB cfg);
  wf_db_health : 0 < dbc_HealthTimeout (DB cfg)
}.

(** The tags ask for that, and for nothing else. *)
Lemma fields_well_formed cfg : fields_hold (Config_fields cfg) <-> well_formed cfg.
Proof using.
  destruct cfg as [env name port [] [] [] [] [] [] [] [] []]. cbn.
  assert (env ∈ ["development"; "staging"; "production"] <->
          env = "development" \/ env = "staging" \/ env = "production") as He
    by (rewrite !elem_of_cons, elem_of_nil; tauto).
  split.
  - intros H. rewrite He in H. inv_all. split; cbn; (done || lia).
  - intros []; cbn in *. rewrite He. split_and!; first [done|lia|tauto|by destruct wf_env0 as [->|[->| ->]]].
Qed.

Lemma fields_hold_in fs fd t :
  fields_hold fs -> fd ∈ fs -> t ∈ fd_tags fd -> tag_holds (fd_value fd) t.
Proof using.
  induction fs as [|fd' fs IH]; [by intros _ H%elem_of_nil|]. intros [H1 H2] [->|Hin]%elem_of_cons; [|by apply IH].
  clear IH H2. induction (fd_tags fd') as [|t' ts IH]; [by intros H%elem_of_nil|]. destruct H1 as [H1 H2].
  intros [->|Hin]%elem_of_cons; [done|by apply IH].
Qed.

(** The line of the message for a tag that does not hold. *)
Definition complaint (cfg : Config) (line : string) : Prop :=
  exists fd t, fd ∈ Config_fields cfg /\ t ∈ fd_tags fd /\ ~ tag_holds (fd_value fd) t /\
    line = "- field 'Config." +:+ fd_name fd +:+ "' failed on '" +:+ tag_name t +:+ "'" +:+ newline.

Lemma validateConfig_cases cfg :
  (validateConfig cfg = None /\ well_formed cfg) \/
  (~ well_formed cfg /\ exists lines, lines <> [] /\ Forall (complaint cfg) lines /\
     validateConfig cfg =
       Some (OtherError ("config validation failed:" +:+ newline +:+ foldr String.append "" lines))).
Proof using SVL.
  unfold validateConfig. destruct (validate_Struct _) as [[ve|e]|] eqn:E.
  - right. apply validate_errors in E as [Hne Hall]. split.
    + intros Hwf%fields_well_formed. destruct ve as [|fe ve]; [done|].
      apply Forall_cons_1 in Hall as [(fd & t & Hfd & Ht & _ & Hno) _]. by apply Hno, (fields_hold_in _ fd t Hwf).
    + exists ((fun fe => "- field '" +:+ fe_Namespace fe +:+ "' failed on '" +:+ fe_Tag fe +:+ "'" +:+ newline) <$> ve).
      split; [by destruct ve|]. split.
      * apply Forall_fmap. eapply Forall_impl; [exact Hall|]. intros fe (fd & t & Hfd & Ht & -> & Hno).
        exists fd, t. by repeat split.
      * unfold formatValidationErrors. do 4 f_equal. clear. induction ve as [|fe ve IH]; [done|].
        cbn [format_lines fmap list_fmap foldr]. by rewrite IH, !sapp_assoc.
  - by apply validate_struct in E.
  - left. split; [done|]. apply fields_well_formed, fields_hold_all. by apply validate_nil.
Qed.

End Lemmas.

(** ** Properties *)

Section Properties.
Context {SV : StructValidator} {SVL : StructValidatorLaws SV} {Vi : ViperLib} {ViL : ViperLaws Vi}.

Definition defaults : list (string * setting) := v_defaults (setDefaults viper_New).

(** The fields that have a default, with its value. *)
Record defaulted (unset : string -> Prop) (cfg : Config) : Prop := {
  df_env : unset "env" -> Env cfg = "development";
  df_name : unset "service_name" -> ServiceName cfg = "monitor-service";
  df_port : unset "port" -> Port cfg = 8080;
  df_ttl : unset "auth.token_ttl" -> auth_TokenTTL (Auth cfg) = 30 * Minute;
  df_interval : unset "scheduler.interval" -> scc_Interval (SchedulerCfg cfg) = 10 * Second;
  df_batch : unset "scheduler.batch_size" -> scc_BatchSize (SchedulerCfg cfg) = 10;
  df_dial : unset "redis.dial_timeout" -> rdc_DialTimeout (RedisCfg cfg) = 5 * Second;
  df_read : unset "redis.read_timeout" -> rdc_ReadTimeout (RedisCfg cfg) = 3 * Second;
  df_write : unset "redis.write_timeout" -> rdc_WriteTimeout (RedisCfg cfg) = 3 * Second;
  df_pool : unset "redis.pool_size" -> rdc_PoolSize (RedisCfg cfg) = 10;
  df_redis_idle : unset "redis.min_idle_conns" -> rdc_MinIdleConns (RedisCfg cfg) = 5;
  df_redis_life : unset "redis.conn_max_lifetime" -> rdc_ConnMaxLifetime (RedisCfg cfg) = 2 * Minute;
  df_redis_idle_time : unset "redis.conn_max_idle_time" -> rdc_ConnMaxIdleTime (RedisCfg cfg) = 30 * Second;
  df_conns : unset "db.max_open_conns" -> dbc_MaxOpenConns (DB cfg) = 50;
  df_db_idle : unset "db.min_idle_conns" -> dbc_MinIdleConns (DB cfg) = 5;
  df_db_life : unset "db.conn_max_lifetime" -> dbc_ConnMaxLifetime (DB cfg) = Hour;
  df_db_idle_time : unset "db.conn_max_idle_time" -> dbc_ConnMaxIdleTime (DB cfg) = 30 * Minute;
  df_health : unset "db.health_timeout" -> dbc_HealthTimeout (DB cfg) = 5 * Second
}.

(** What the code has told viper before it reads. *)
Definition prepared (path : string) (v : viper) : Prop :=
  v_configFile v = path /\ v_configType v = "yaml" /\ v_automaticEnv v = true /\
  v_envKeyReplacer v = [(".", "_")] /\ v_defaults v = defaults.

(** Solves [t = Some ?x] for a closed enough [t], by evaluation. *)
Ltac evaluate :=
  match goal with
  | |- ?l = Some _ =>
      let x := eval vm_compute in l in
      match x with Some ?y => match goal with |- _ = Some ?z => unify z y; vm_cast_no_check (@eq_refl _ x) end end
  end.

Lemma unmarshal_defaulted v st c :
  v_defaults v = defaults -> ReadInConfig v = inr st -> Unmarshal v st = inr c ->
  defaulted (fun k => is_set v st k = false) c.
Proof using ViL.
  intros Hd Hr Hu.
  assert (forall k, is_set v st k = false ->
    forall kx fd, find (fun kx => bool_decide (kx.1 = k)) defaults = Some kx ->
      find (fun fd => bool_decide (fd_key fd = k)) (Config_fields c) = Some fd ->
      decodes kx.2 (fd_value fd)) as H.
  { intros k Hk [k' x] fd Ex Ef.
    apply find_some in Ex as [Hx Ek%bool_decide_eq_true], Ef as [Hf Efk%bool_decide_eq_true].
    cbn in Ek. subst k'. eapply (unmarshal_default v st c k x fd); try done; rewrite ?Hd; [|by apply list_elem_of_In..].
    apply (bool_decide_unpack _). by vm_compute. }
  destruct c as [env name port [] [] [] [] [] [] [] [] []].
  split; intros Hk; pose proof (H _ Hk) as Hk'; clear H.
  all: epose proof (Hk' _ _ ltac:(evaluate) ltac:(evaluate)) as E; vm_compute in E |- *; congruence.
Qed.

(** C32: a configuration that was loaded is well formed, and has the defaults.
    Every field satisfies what its tags in models.go ask for, as listed in
    [well_formed]: channels hold 100 to 5000 items, the pools have at least
    five workers, the tickers an interval of at least five nanoseconds, all
    timeouts and limits are positive; and each of the eighteen fields of
    [defaulted] whose key neither the file nor the environment sets has the
    value listed there. *)
Theorem LoadConfig_well_formed path cfg :
  LoadConfig path = inr cfg ->
  well_formed cfg /\
  exists v st, prepared path v /\ ReadInConfig v = inr st /\ Unmarshal v st = inr cfg /\
    defaulted (fun k => is_set v st k = false) cfg.
Proof using SVL ViL.
  unfold LoadConfig. set (v := SetEnvKeyReplacer _ _).
  destruct (ReadInConfig v) as [e|st] eqn:Er; [done|].
  destruct (Unmarshal v st) as [e|c] eqn:Eu; [done|].
  destruct (validateConfig_cases c) as [[-> Hwf]|(_ & lines & _ & _ & ->)]; [|done]. intros [= <-].
  split; [done|]. exists v, st. do 3 (split; [done|]). by apply unmarshal_defaulted.
Qed.

(** C33: loading decides, and says why not.  A file that cannot be read and one
    that does not fit the struct give that error, with its text before it;
    otherwise the configuration that was read is accepted exactly if it is
    well formed, and if it is not the error lists, one line each, tags of
    models.go that a field of that configuration violates, at least one. *)
Theorem LoadConfig_decides path :
  exists v, prepared path v /\
    match ReadInConfig v with
    | inl e => LoadConfig path = inl (Wrapped "read config: " e)
    | inr st =>
      match Unmarshal v st with
      | inl e => LoadConfig path = inl (Wrapped "unmarshal config: " e)
      | inr cfg =>
          (LoadConfig path = inr cfg <-> well_formed cfg) /\
          (~ well_formed cfg -> exists lines, lines <> [] /\ Forall (complaint cfg) lines /\
             LoadConfig path =
               inl (OtherError ("config validation failed:" +:+ newline +:+ foldr String.append "" lines)))
      end
    end.
Proof using SVL.
  unfold LoadConfig. set (v := SetEnvKeyReplacer _ _). exists v. split; [done|].
  destruct (ReadInConfig v) as [e|st]; [done|]. destruct (Unmarshal v st) as [e|cfg]; [done|].
  destruct (validateConfig_cases cfg) as [[-> Hwf]|(Hno & lines & Hne & Hl & ->)].
  - by split.
  - split; [by split|]. intros _. by exists lines.
Qed.

End Properties.

(** ** A concrete viper and validator *)

Module RefConfig.

(** The example of the README, less the keys that have defaults. *)
Definition file : list (string * setting) :=
  [("env", SString "production"); ("auth.secret", SString "your-jwt-secret");
   ("app.job_channel_size", SInt 1000); ("app.result_channel_size", SInt 1000);
   ("app.alert_channel_size", SInt 500); ("scheduler.interval", SString "1s");
   ("scheduler.visibility_timeout", SString "30s"); ("reclaimer.interval", SString "5s");
   ("reclaimer.limit", SInt 10); ("executor.worker_count", SInt 100);
   ("executor.http_semaphore_count", SInt 500); ("alert.worker_count", SInt 50);
   ("alert.owner_email", SString "you@example.com"); ("alert.access_key", SString "key");
   ("result_processor.success_worker_count", SInt 50); ("result_processor.success_channel_size", SInt 100);
   ("result_processor.failure_worker_count", SInt 10); ("result_processor.failure_channel_size", SInt 50);
   ("redis.url", SString "redis://localhost:6379"); ("db.url", SString "postgres://localhost/monit")].

(** The same with a port and an environment that are refused. *)
Definition bad_file : list (string * setting) :=
  ("env", SString "test") :: ("port", SInt 0) :: tail file.

Section Read.
Context (v : viper) (st : list (string * setting)).

Definition get (k : string) : option setting :=
  match (list_to_map st : gmap string setting) !! k with
  | Some x => Some x
  | None => (list_to_map (v_defaults v) : gmap string setting) !! k
  end.
Definition str (k : string) : string := match get k with Some (SString s) => s | _ => "" end.
Definition int (k : string) : Z :=
  match get k with
  | Some (SString s) => default 0 (duration_from None s)
  | Some (SInt n) => n
  | None => 0
  end.

Definition build : Config :=
  MkConfig (str "env") (str "service_name") (int "port")
    (MkAuthConfig (str "auth.secret") (int "auth.token_ttl"))
    (MkAppConfig (int "app.job_channel_size") (int "app.result_channel_size") (int "app.alert_channel_size"))
    (MkSchedulerConfig (int "scheduler.interval") (int "scheduler.batch_size") (int "scheduler.visibility_timeout"))
    (MkReclaimerConfig (int "reclaimer.interval") (int "reclaimer.limit"))
    (MkExecutorConfig (int "executor.worker_count") (int "executor.http_semaphore_count"))
    (MkAlertConfig (int "alert.worker_count") (str "alert.owner_email") (str "alert.access_key"))
    (MkResultProcessorConfig (int "result_processor.success_worker_count")
      (int "result_processor.success_channel_size") (int "result_processor.failure_worker_count")
      (int "result_processor.failure_channel_size"))
    (MkRedisConfig (str "redis.url") (int "redis.dial_timeout") (int "redis.read_timeout")
      (int "redis.write_timeout") (int "redis.pool_size") (int "redis.min_idle_conns")
      (int "redis.conn_max_lifetime") (int "redis.conn_max_idle_time"))
    (MkDBConfig (str "db.url") (int "db.max_open_conns") (int "db.min_idle_conns")
      (int "db.conn_max_lifetime") (int "db.conn_max_idle_time") (int "db.health_timeout")).

Definition decodesb (x : setting) (f : field) : bool :=
  match x, f with
  | SString s, FString s' => bool_decide (s' = s)
  | SString s, FInt d => bool_decide (duration_from None s = Some d)
  | SInt n, FInt m => bool_decide (m = n)
  | _, _ => false
  end.

Definition unset (k : string) : bool := bool_decide (k ∉ st.*1).

(** The defaults that apply fit their fields. *)
Definition fits (c : Config) : bool :=
  forallb (fun kx => negb (unset kx.1) || forallb (fun fd =>
    negb (bool_decide (fd_key fd = kx.1)) || decodesb kx.2 (fd_value fd)) (Config_fields c)) (v_defaults v).

End Read.

#[export] Instance viper_lib : ViperLib := {
  settings := list (string * setting);
  ReadInConfig v :=
    if decide (v_configFile v = "env.yaml") then inr file
    else if decide (v_configFile v = "bad.yaml") then inr bad_file
    else inl (OtherError "no such file");
  is_set v st k := negb (unset st k);
  Unmarshal v st := if fits v st (build v st) then inr (build v st) else inl (OtherError "cannot decode")
}.

#[export] Instance viper_laws : ViperLaws viper_lib.
Proof.
  split. intros v st c k x fd _ H _ Hd Hset Hfd Hk. unfold Unmarshal, is_set, viper_lib in *.
  destruct (fits v st (build v st)) eqn:E; [|done]. injection H as H. rewrite H in E. clear H.
  unfold fits in E. rewrite forallb_forall in E.
  specialize (E (k, x)). cbn [fst snd] in E. apply list_elem_of_In in Hd. specialize (E Hd).
  apply negb_false_iff in Hset. rewrite Hset in E. cbn [negb orb] in E. rewrite forallb_forall in E.
  apply list_elem_of_In in Hfd. specialize (E fd Hfd). rewrite bool_decide_eq_true_2 in E by done. cbn [negb orb] in E.
  destruct x, (fd_value fd); cbn in *; try done; by apply bool_decide_eq_true in E.
Qed.

Definition holdsb (f : field) (t : tag) : bool :=
  match t, f with
  | T_required, FString s => bool_decide (s <> "")
  | T_required, FInt n => bool_decide (n <> 0)
  | T_required, FBool b => b
  | T_gt m, FInt n => bool_decide (m < n)
  | T_gte m, FInt n => bool_decide (m <= n)
  | T_lte m, FInt n => bool_decide (n <= m)
  | T_oneof l, FString s => bool_decide (s ∈ l)
  | _, _ => true
  end.

Definition failed (fs : list field_descr) : list FieldError :=
  fd ← fs; t ← fd_tags fd;
  if holdsb (fd_value fd) t then [] else [MkFieldError ("Config." +:+ fd_name fd) (tag_name t)].

#[export] Instance validator : StructValidator := {
  validate_Struct fs := match failed fs with [] => None | ve => Some (inl ve) end;
  is_email _ := True;
  is_url _ := True
}.

Lemma holdsb_spec f t : holdsb f t = true <-> tag_holds f t.
Proof.
  destruct t, f; cbn; rewrite ?bool_decide_eq_true; try done.
Qed.

Lemma failed_spec fs fe :
  fe ∈ failed fs <-> exists fd t, fd ∈ fs /\ t ∈ fd_tags fd /\
    fe = MkFieldError ("Config." +:+ fd_name fd) (tag_name t) /\ ~ tag_holds (fd_value fd) t.
Proof.
  unfold failed. rewrite list_elem_of_bind. split.
  - intros (fd & H & Hfd). apply list_elem_of_bind in H as (t & H & Ht).
    destruct (holdsb (fd_value fd) t) eqn:E; [by apply not_elem_of_nil in H|].
    apply list_elem_of_singleton in H as ->. exists fd, t. do 3 (split; [done|]).
    rewrite <- holdsb_spec. by rewrite E.
  - intros (fd & t & Hfd & Ht & -> & Hn). exists fd. split; [|done]. apply list_elem_of_bind.
    exists t. split; [|done]. destruct (holdsb (fd_value fd) t) eqn:E; [by apply holdsb_spec in E|].
    by apply list_elem_of_singleton.
Qed.

#[export] Instance validator_laws : StructValidatorLaws validator.
Proof.
  split; cbn; intros fs.
  - destruct (failed fs) as [|fe l] eqn:E; [|done]. intros _ fd t Hfd Ht.
    destruct (holdsb (fd_value fd) t) eqn:Eh; [by apply holdsb_spec|].
    assert (MkFieldError ("Config." +:+ fd_name fd) (tag_name t) ∈ failed fs) as H.
    { apply failed_spec. exists fd, t. do 3 (split; [done|]). rewrite <- holdsb_spec. by rewrite Eh. }
    rewrite E in H. by apply not_elem_of_nil in H.
  - intros ve H. destruct (failed fs) as [|fe l] eqn:E; [done|]. injection H as <-. split; [done|].
    rewrite <- E. apply Forall_forall. intros fe' H. by apply failed_spec.
  - intros e. by destruct (failed fs).
Qed.

End RefConfig.

(** ** Witnesses *)

Section Witnesses.
#[local] Existing Instance RefConfig.viper_lib.
#[local] Existing Instance RefConfig.viper_laws.
#[local] Existing Instance RefConfig.validator.
#[local] Existing Instance RefConfig.validator_laws.

Definition demo_config : Config :=
  match LoadConfig "env.yaml" with
  | inr c => c
  | inl _ => RefConfig.build viper_New []
  end.

(** The example of the README is accepted, with the defaults of the pools. *)
Lemma LoadConfig_well_formed_witness :
  exists cfg, LoadConfig "env.yaml" = inr cfg /\ rdc_PoolSize (RedisCfg cfg) = 10 /\ well_formed cfg.
Proof.
  assert (LoadConfig "env.yaml" = inr demo_config) as H by (vm_compute; reflexivity).
  exists demo_config. split; [exact H|]. split; [vm_compute; reflexivity|].
  exact (proj1 (LoadConfig_well_formed "env.yaml" demo_config H)).
Defined.

(** A port of 0 and an unknown environment: the message, and the theorem. *)
Lemma LoadConfig_decides_witness :
  LoadConfig "bad.yaml" = inl (OtherError ("config validation failed:" +:+ newline +:+
    "- field 'Config.Env' failed on 'oneof'" +:+ newline +:+
    "- field 'Config.Port' failed on 'gte'" +:+ newline)) /\
  exists v, prepared "bad.yaml" v /\ exists Φ : error + settings -> Prop, Φ (ReadInConfig v).
Proof.
  split; [vm_compute; reflexivity|].
  destruct (LoadConfig_decides "bad.yaml") as (v & Hv & H). exists v. split; [exact Hv|].
  eexists (fun r => match r with inl _ => _ | inr st => match Unmarshal v st with inl _ => _ | inr _ => _ end end).
  exact H.
Defined.

(** The comments want intervals in seconds; the tags compare nanoseconds, so
    that an interval of five nanoseconds passes. *)
Example five_nanoseconds_pass :
  let c := demo_config in
  validateConfig (MkConfig (Env c) (ServiceName c) (Port c) (Auth c) (App c)
    (MkSchedulerConfig 5 (scc_BatchSize (SchedulerCfg c)) (scc_VisibilityTimeout (SchedulerCfg c)))
    (ReclaimerCfg c) (ExecutorCfg c) (AlertCfg c) (ResultProcessorCfg c) (RedisCfg c) (DB c)) = None.
Proof. vm_compute. reflexivity. Qed.

End Witnesses.
