(* ===== verification/Infra.v ===== *)
(** * Connections: pkg/redisstore/client.go, pkg/db/dbConn.go, pkg/httpclient

    The clients of Redis, Postgres and of the checks are configured here.  The
    libraries parse the URLs and open the connections: they are the classes
    [RedisLib] and [PgxLib].  The hooks of pgx that only log are left out. *)

From S2P Require Import Prelude AppError Types Redis Postgres Effects Rules Reference RedisStore.
From S2P Require Import Security Http Config.
From stdpp Require Import gmap list strings pretty sorting.
#[local] Open Scope Z_scope.

(** ** redisstore.New *)

(** [redis.Options]; of the fields that the URL gives only the address is kept. *)
Record redis_Options := MkOptions {
  o_Addr : string;
  o_DialTimeout : Z;
  o_ReadTimeout : Z;
  o_WriteTimeout : Z;
  o_PoolSize : Z;
  o_MinIdleConns : Z;
  o_ConnMaxLifetime : Z;
  o_ConnMaxIdleTime : Z
}.

Class RedisLib := {
  redis_ParseURL : string -> error + redis_Options;
  redis_Ping : redis_Options -> Z -> option error   (* within a timeout *)
}.

Definition redis_New {R : RedisLib} (redisCfg : RedisConfig) : error + redis_Options :=
  match redis_ParseURL (rdc_URL redisCfg) with
  | inl err => inl err
  | inr opt =>
    let opt := MkOptions (o_Addr opt) (rdc_DialTimeout redisCfg) (rdc_ReadTimeout redisCfg)
      (rdc_WriteTimeout redisCfg) (rdc_PoolSize redisCfg) (rdc_MinIdleConns redisCfg)
      (rdc_ConnMaxLifetime redisCfg) (rdc_ConnMaxIdleTime redisCfg) in
    match redis_Ping opt (5 * Second) with
    | Some err => inl err
    | None => inr opt
    end
  end.

(** ** db.ConnectToDB *)

(** [pgxpool.Config], the fields that the code sets. *)
Record pool_Config := MkPoolConfig {
  pc_ConnString : string;
  pc_MaxConns : Z;
  pc_MinConns : Z;
  pc_MaxConnLifetime : Z;
  pc_MaxConnIdleTime : Z
}.

Class PgxLib := {
  pgxpool_ParseConfig : string -> error + pool_Config;
  pgx_pool : Type;
  pgxpool_NewWithConfig : pool_Config -> error + pgx_pool;
  pool_Ping : pgx_pool -> Z -> option error         (* within a timeout *)
}.

(** The pool, or the error and the pool that was closed. *)
Definition ConnectToDB {P : PgxLib} (DBCfg : DBConfig) : (error * option pgx_pool) + pgx_pool :=
  match pgxpool_ParseConfig (dbc_URL DBCfg) with
  | inl err => inl (Wrapped "parse db url: " err, None)
  | inr poolCfg =>
    let poolCfg := MkPoolConfig (pc_ConnString poolCfg) (dbc_MaxOpenConns DBCfg)
      (dbc_MinIdleConns DBCfg) (dbc_ConnMaxLifetime DBCfg) (dbc_ConnMaxIdleTime DBCfg) in
    match pgxpool_NewWithConfig poolCfg with
    | inl err => inl (Wrapped "create db pool: " err, None)
    | inr pool =>
      match pool_Ping pool (dbc_HealthTimeout DBCfg) with
      | Some err => inl (Wrapped "db ping failed: " err, Some pool)
      | None => inr pool
      end
    end
  end.

(** ** httpclient.NewHttpClient *)

(** The timeouts and limits of the client of the checks; 0 is no limit. *)
Record http_Client := MkHttpClient {
  hc_DialTimeout : Z;
  hc_KeepAlive : Z;
  hc_TLSHandshakeTimeout : Z;
  hc_ResponseHeaderTimeout : Z;
  hc_ExpectContinueTimeout : Z;
  hc_MaxIdleConns : Z;
  hc_MaxIdleConnsPerHost : Z;
  hc_IdleConnTimeout : Z;
  hc_Timeout : Z
}.

Definition NewHttpClient : http_Client :=
  MkHttpClient (5 * Second) (30 * Second) (5 * Second) (10 * Second) (1 * Second)
    10000 100 (90 * Second) 0.
