(* ===== verification/Dto.v ===== *)
(** * The requests and responses of the API

    user/dto.go and monitor/dto.go: the structs, their [validate] tags, and
    their JSON in both directions.  The bodies of responses are written by
    pkg/utils/response.go ([Http.body_json]). *)

From S2P Require Import Prelude AppError Types Json Decode Redis Postgres Effects Rules Reference Security.
From S2P Require Import Http.
From stdpp Require Import gmap list strings pretty sorting.
#[local] Open Scope Z_scope.

(** ** Structs *)

Record RegisterRequest := MkRegisterRequest { rg_Name : string; rg_Email : string; rg_Password : string }.
Record LogInRequest := MkLogInRequest { li_Email : string; li_Password : string }.
Record CreateMonitorRequest := MkCreateMonitorRequest {
  cr_Url : string;
  cr_AlertEmail : string;
  cr_IntervalSec : Z;
  cr_TimeoutSec : Z;
  cr_LatencyThresholdMs : Z;
  cr_ExpectedStatus : Z
}.
Record UpdateMonitorStatusRequest := MkUpdateMonitorStatusRequest { up_Enable : bool }.

Record GetMonitorResponse := MkGetMonitorResponse {
  gr_ID : string;
  gr_Url : string;
  gr_AlertEmail : string;
  gr_IntervalSec : Z;
  gr_TimeoutSec : Z;
  gr_LatencyThresholdMs : Z;
  gr_ExpectedStatus : Z;
  gr_Enabled : bool
}.

(** The [data] of the successful responses, one constructor per endpoint. *)
Inductive data :=
| RegisterResponse (UserID : string)
| LogInResponse (UserID AccessToken : string)
| GetProfileResponse (ID Name Email : string) (MonitorsCount : Z) (IsPaidUser : bool)
| CreateMonitorResponse (MonitorID : string)
| D_GetMonitorResponse (m : GetMonitorResponse)
| GetAllMonitorsResponse (UserID : string) (Limit Offset : Z) (Monitors : list GetMonitorResponse)
| D_string (s : string).

(** The [validate] tags. *)
Definition RegisterRequest_fields (r : RegisterRequest) : list (field * list tag) :=
  [(FString (rg_Name r), [T_required; T_gte 3; T_lte 60]);
   (FString (rg_Email r), [T_required; T_email]);
   (FString (rg_Password r), [T_required; T_gte 8; T_lte 60])].
Definition LogInRequest_fields (r : LogInRequest) : list (field * list tag) :=
  [(FString (li_Email r), [T_required; T_email]);
   (FString (li_Password r), [T_required; T_gte 8; T_lte 60])].
Definition CreateMonitorRequest_fields (r : CreateMonitorRequest) : list (field * list tag) :=
  [(FString (cr_Url r), [T_required; T_url]);
   (FString (cr_AlertEmail r), [T_email]);
   (FInt (cr_IntervalSec r), [T_required; T_gte 60]);
   (FInt (cr_TimeoutSec r), [T_required; T_gte 120]);
   (FInt (cr_LatencyThresholdMs r), [T_required; T_gte 0]);
   (FInt (cr_ExpectedStatus r), [T_required; T_gte 100; T_lte 599])].
Definition UpdateMonitorStatusRequest_fields (r : UpdateMonitorStatusRequest) : list (field * list tag) :=
  [(FBool (up_Enable r), [T_required])].

(** ** Decoding of requests *)

(** The fields with their [json] tags. *)
Definition RegisterRequest_json : list (string * store RegisterRequest) :=
  [("name", store_string (fun x r => MkRegisterRequest x (rg_Email r) (rg_Password r)));
   ("email", store_string (fun x r => MkRegisterRequest (rg_Name r) x (rg_Password r)));
   ("password", store_string (fun x r => MkRegisterRequest (rg_Name r) (rg_Email r) x))].
Definition LogInRequest_json : list (string * store LogInRequest) :=
  [("email", store_string (fun x r => MkLogInRequest x (li_Password r)));
   ("password", store_string (fun x r => MkLogInRequest (li_Email r) x))].
Definition CreateMonitorRequest_json : list (string * store CreateMonitorRequest) :=
  [("url", store_string (fun x r => MkCreateMonitorRequest x (cr_AlertEmail r) (cr_IntervalSec r)
      (cr_TimeoutSec r) (cr_LatencyThresholdMs r) (cr_ExpectedStatus r)));
   ("alert_email", store_string (fun x r => MkCreateMonitorRequest (cr_Url r) x (cr_IntervalSec r)
      (cr_TimeoutSec r) (cr_LatencyThresholdMs r) (cr_ExpectedStatus r)));
   ("interval_sec", store_int32 (fun x r => MkCreateMonitorRequest (cr_Url r) (cr_AlertEmail r) x
      (cr_TimeoutSec r) (cr_LatencyThresholdMs r) (cr_ExpectedStatus r)));
   ("timeout_sec", store_int32 (fun x r => MkCreateMonitorRequest (cr_Url r) (cr_AlertEmail r)
      (cr_IntervalSec r) x (cr_LatencyThresholdMs r) (cr_ExpectedStatus r)));
   ("latency_threshold_ms", store_int32 (fun x r => MkCreateMonitorRequest (cr_Url r) (cr_AlertEmail r)
      (cr_IntervalSec r) (cr_TimeoutSec r) x (cr_ExpectedStatus r)));
   ("expected_status", store_int32 (fun x r => MkCreateMonitorRequest (cr_Url r) (cr_AlertEmail r)
      (cr_IntervalSec r) (cr_TimeoutSec r) (cr_LatencyThresholdMs r) x))].
Definition UpdateMonitorStatusRequest_json : list (string * store UpdateMonitorStatusRequest) :=
  [("enable", store_bool (fun x r => MkUpdateMonitorStatusRequest x))].

(** [json.NewDecoder(r.Body).Decode(&req)], of the zero value. *)
Definition decode_RegisterRequest (body : string) : error + RegisterRequest :=
  Decode RegisterRequest_json (MkRegisterRequest "" "" "") body.
Definition decode_LogInRequest (body : string) : error + LogInRequest :=
  Decode LogInRequest_json (MkLogInRequest "" "") body.
Definition decode_CreateMonitorRequest (body : string) : error + CreateMonitorRequest :=
  Decode CreateMonitorRequest_json (MkCreateMonitorRequest "" "" 0 0 0 0) body.
Definition decode_UpdateMonitorStatusRequest (body : string) : error + UpdateMonitorStatusRequest :=
  Decode UpdateMonitorStatusRequest_json (MkUpdateMonitorStatusRequest false) body.

(** ** Encoding of responses *)

Definition GetMonitorResponse_json (m : GetMonitorResponse) : json :=
  JObject [("id", JString (gr_ID m)); ("url", JString (gr_Url m)); ("alert_mail", JString (gr_AlertEmail m));
           ("interval_sec", JInt (gr_IntervalSec m)); ("timeout_sec", JInt (gr_TimeoutSec m));
           ("latency_threshold_ms", JInt (gr_LatencyThresholdMs m));
           ("expected_status", JInt (gr_ExpectedStatus m)); ("enabled", JBool (gr_Enabled m))].

(** Only an empty string would be omitted; the others are structs. *)
Definition data_json (d : data) : option json :=
  match d with
  | RegisterResponse UserID => Some (JObject [("user_id", JString UserID)])
  | LogInResponse UserID AccessToken =>
      Some (JObject [("user_id", JString UserID); ("access_token", JString AccessToken)])
  | GetProfileResponse ID Name Email MonitorsCount IsPaidUser =>
      Some (JObject [("id", JString ID); ("name", JString Name); ("email", JString Email);
                     ("monitors_count", JInt MonitorsCount); ("is_paid_user", JBool IsPaidUser)])
  | CreateMonitorResponse MonitorID => Some (JObject [("monitor_id", JString MonitorID)])
  | D_GetMonitorResponse m => Some (GetMonitorResponse_json m)
  | GetAllMonitorsResponse UserID Limit Offset Monitors =>
      Some (JObject [("user_id", JString UserID); ("limit", JInt Limit); ("offset", JInt Offset);
                     ("monitors", JArray (GetMonitorResponse_json <$> Monitors))])
  | D_string s => if decide (s = "") then None else Some (JString s)
  end.

(** The bytes of a response. *)
Definition written (rs : response data) : string := encoded data_json (rs_Body rs).

(** ** What can be decoded *)

(** Whatever the bytes of the body are, the texts of a request that is decoded
    are valid UTF-8, and its numbers have 32 bits. *)
Definition create_typed (r : CreateMonitorRequest) : Prop :=
  valid_text (cr_Url r) /\ valid_text (cr_AlertEmail r) /\ is_int32 (cr_IntervalSec r) /\
  is_int32 (cr_TimeoutSec r) /\ is_int32 (cr_LatencyThresholdMs r) /\ is_int32 (cr_ExpectedStatus r).
Definition register_typed (r : RegisterRequest) : Prop :=
  valid_text (rg_Name r) /\ valid_text (rg_Email r) /\ valid_text (rg_Password r).
Definition login_typed (r : LogInRequest) : Prop := valid_text (li_Email r) /\ valid_text (li_Password r).

Ltac typed_fields :=
  repeat (constructor; [first [apply keeps_string | apply keeps_int32]; intros ? [] ? Ha; cbn in *;
    unfold create_typed, register_typed, login_typed in *; cbn in *; tauto|]);
  constructor.

Lemma decode_create_typed body r : decode_CreateMonitorRequest body = inr r -> create_typed r.
Proof.
  apply (Decode_keeps _); [typed_fields|]. pose proof valid_empty. by split_and!.
Qed.

Lemma decode_register_typed body r : decode_RegisterRequest body = inr r -> register_typed r.
Proof. apply (Decode_keeps _); [typed_fields|]. pose proof valid_empty. by split_and!. Qed.

Lemma decode_login_typed body r : decode_LogInRequest body = inr r -> login_typed r.
Proof. apply (Decode_keeps _); [typed_fields|]. pose proof valid_empty. by split_and!. Qed.
