(* ===== verification/User.v ===== *)
(** * internals/modules/user: users and their monitor quota

    [Repository] is repository.go and [Service] is service.go, with the
    passwords and tokens of the file Security.  The theorems are about
    registration and login; the quota of monitors is used by MonitorSvc. *)

From S2P Require Import Prelude AppError Types Json Redis Postgres Effects Rules Reference Security.
From stdpp Require Import gmap list strings pretty sorting.
#[local] Open Scope Z_scope.

(** ** domain.go *)

Record User := MkUser {
  us_ID : UUID;
  us_Name : string;
  us_Email : string;
  us_PasswordHash : string;
  us_MonitorsCount : Z;
  us_IsPaidUser : bool
}.

Record CreateUserCmd := MkCreateUserCmd {
  cu_Name : string;
  cu_Email : string;
  cu_PasswordHash : string
}.

Definition set_cu_PasswordHash (h : string) (c : CreateUserCmd) : CreateUserCmd :=
  MkCreateUserCmd (cu_Name c) (cu_Email c) h.

Record LogInUserCmd := MkLogInUserCmd { lu_Email : string; lu_Password : string }.

Record LogInUserResult := MkLogInUserResult { lr_UserID : UUID; lr_AccessToken : string }.

(** ** repository.go *)

(** A [:one] statement without a row is the error [pgx.ErrNoRows]. *)
Definition one {A} (o : error + option A) : error + A :=
  match o with
  | inl e => inl e
  | inr None => inl ErrNoRows
  | inr (Some a) => inr a
  end.

Module Repository.

(** The error of [CreateUser] for a driver error. *)
Definition create_user_error (op_ : string) (err : error) : error :=
  if errors_Is is_Canceled err || errors_Is is_DeadlineExceeded err then
    AppError (MkError RequestTimeout op_ None "request cancelled or timed out" false)
  else match as_PgError err with
  | Some code =>
    if decide (code = "23505") then
      AppError (MkError AlreadyExists op_ None "user already exists" false)
    else AppError (MkError DatabaseErr op_ (Some err) "internal server error" false)
  | None => AppError (MkError Internal op_ (Some err) "internal server error" false)
  end.

Definition CreateUser (x : ctx) (user : CreateUserCmd) : prog (error + UUID) :=
  let op_ := "repo.user.create_user" in
  r ← op (Db (Q_CreateUser (cu_Name user) (cu_Email user) (cu_PasswordHash user)));
  match r with
  | inr id => mret (inr (FromPgUUID id))
  | inl err => mret (inl (create_user_error op_ err))
  end.

Definition GetUserByID (x : ctx) (userID : UUID) : prog (error + User) :=
  let op_ := "repo.user.get_user_by_id" in
  r ← op (Db (Q_GetUserByID (ToPgUUID userID)));
  match one r with
  | inr user => mret (inr (MkUser (FromPgUUID (du_ID user)) (du_Name user) (du_Email user)
                             (du_PasswordHash user) (FromPgInt32 (du_MonitorsCount user))
                             (FromPgBool (du_IsPaidUser user))))
  | inl err => mret (inl (WrapRepoError op_ err true))
  end.

Definition GetUserByEmail (x : ctx) (email : string) : prog (error + User) :=
  let op_ := "repo.user.get_user_by_email" in
  r ← op (Db (Q_GetUserByEmail email));
  match one r with
  | inr user => mret (inr (MkUser (FromPgUUID (ue_ID user)) (ue_Name user) (ue_Email user)
                             (ue_PasswordHash user) 0 false))
  | inl err => mret (inl (WrapRepoError op_ err true))
  end.

Definition IncrementMonitorCount (x : ctx) (userID : UUID) : prog (option error) :=
  let op_ := "repo.user.increment_monitor_count" in
  r ← op (Db (Q_IncrementMonitorCount (ToPgUUID userID)));
  match r with
  | inr rows =>
    if decide (rows = 0) then
      mret (Some (AppError (MkError Forbidden op_ None "monitor quota exceed" false)))
    else mret None
  | inl err => mret (Some (WrapRepoError op_ err false))
  end.

End Repository.

(** ** service.go *)

Module Service.

Section Accounts.
Context {U : UuidLib} {L : JwtLib} {S : Services}.

Definition Register (x : ctx) (data : CreateUserCmd) : prog (error + UUID) :=
  r ← HashPassword (cu_PasswordHash data);
  match r with
  | inl err => mret (inl err)
  | inr hashedPassword =>
    let data := set_cu_PasswordHash hashedPassword data in
    r ← Repository.CreateUser x data;
    match r with
    | inl err => mret (inl err)
    | inr id => mret (inr id)
    end
  end.

(** The error for an unknown email and for a wrong password. *)
Definition incorrect_credentials : error :=
  AppError (MkError Unauthorised "service.user.login" None "incorrect email or password" false).

Definition LogIn (ts : TokenService) (x : ctx) (data : LogInUserCmd) : prog (error + LogInUserResult) :=
  let op_ := "service.user.login" in
  r ← Repository.GetUserByEmail x (lu_Email data);
  match r with
  | inl err =>
    if IsKind err NotFound then mret (inl incorrect_credentials) else mret (inl err)
  | inr u =>
    match ComparePassword (lu_Password data) (us_PasswordHash u) with
    | inl _ | inr false => mret (inl incorrect_credentials)
    | inr true =>
      let payload := MkRequestClaims (uuid_String (us_ID u)) (us_Email u) None None None in
      t ← GenerateAccessToken ts payload;
      match t with
      | inl err => mret (inl (AppError (MkError Internal op_ (Some err) "internal server error" false)))
      | inr token => mret (inr (MkLogInUserResult (us_ID u) token))
      end
    end
  end.

End Accounts.

Definition GetProfile (x : ctx) (userId : UUID) : prog (error + User) :=
  r ← Repository.GetUserByID x userId;
  match r with
  | inl err => mret (inl err)
  | inr u => mret (inr u)
  end.

Definition GetUserByID (x : ctx) (userID : UUID) : prog (error + User) :=
  r ← Repository.GetUserByID x userID;
  match r with
  | inl err => mret (inl err)
  | inr dbUser => mret (inr dbUser)
  end.

Definition IncrementMonitorCount (x : ctx) (userID : UUID) : prog (option error) :=
  Repository.IncrementMonitorCount x userID.

End Service.

(** ** The quota *)

(** The quota statement applied to a user: its count goes up by one. *)
Definition counted (u : UUID) (d d' : database) : Prop :=
  exists r c, users d !! u = Some r /\ u_monitors_count r = Some c /\ c < 10 /\
    d' = set_users <[u := MkUserRow (u_name r) (u_email r) (u_password_hash r)
                            (Some (c + 1)) (u_is_paid_user r)]> d.

Lemma sql_increment_cases u d d' n :
  sql_increment (ToPgUUID u) d = (d', n) -> (n = 1 /\ counted u d d') \/ (n = 0 /\ d' = d).
Proof.
  unfold sql_increment, by_id. cbn. intros H.
  destruct (users d !! u) as [r|] eqn:E; [|by inv_all; auto].
  destruct (u_monitors_count r) as [c|] eqn:E2; [|by inv_all; auto].
  case_decide; inv_all; [|by auto]. left. split; [done|]. by exists r, c.
Qed.

Section Quota.
Context {S : Services} {SL : ServiceLaws S}.

(** [IncrementMonitorCount], whatever happens: no error means that the count
    went up, "quota exceeded" that nothing changed. *)
Lemma wp_IncrementMonitorCount good x u w p (Φ : option error -> sys -> Prop) :
  (forall w' e, rview w' = rview w -> later w w' ->
     match e with
     | None => counted u (dview w) (dview w')
     | Some e => (dview w' = dview w \/ counted u (dview w) (dview w')) /\
                 (IsKind e Forbidden = true -> dview w' = dview w)
     end ->
     (good = no_fault -> forall e', e = Some e' ->
        IsKind e' Forbidden = true /\
        forall r c, users (dview w) !! u = Some r -> u_monitors_count r = Some c -> 10 <= c) ->
     Φ e (MkSys w' p)) ->
  wp good (Service.IncrementMonitorCount x u) (MkSys w p) Φ.
Proof using SL.
  intros H. unfold Service.IncrementMonitorCount, Repository.IncrementMonitorCount.
  apply wp_bind, wp_db. intros w' [e|n] Heff Hv Hl Hg; cbn [db_effect query_spec query_reply] in *.
  - apply wp_ret, H; [done|done| |].
    + split.
      * destruct Heff as [|[n Hn]]; [by left|]. symmetry in Hn.
        apply sql_increment_cases in Hn as [[_ Hn]|[_ Hn]]; auto.
      * destruct (WrapRepoError_shape "repo.user.increment_monitor_count" e false)
          as (a & -> & _ & Hk). rewrite IsKind_AppError, bool_decide_eq_true. intros Hf.
        rewrite Hf in Hk. naive_solver.
    + by intros ->.
  - symmetry in Heff. pose proof Heff as Heff'.
    apply sql_increment_cases in Heff as [[-> Hc]|[-> Hd]].
    + rewrite decide_False by done. apply wp_ret, H; [done..|]. by intros _ ? ?.
    + rewrite decide_True by done. apply wp_ret, H; [done|done| |].
      * split; [by left|done].
      * intros _ e' [= <-]. split; [done|]. intros r c Hr Hrc.
        unfold sql_increment, by_id in Heff'. cbn in Heff'. rewrite Hr, Hrc in Heff'.
        case_decide; [|lia]. inv_all. done.
Qed.

End Quota.

(** ** Registration and login *)

Section Accounts.
Context {U : UuidLib} {UL : UuidLaws U} {L : JwtLib} {LL : JwtLaws L} {S : Services} {SL : ServiceLaws S}.

(** A hash that a password matches. *)
Definition matches (pw h : string) : Prop := compare_hash pw h = inr true.

(** A registered user. *)
Definition registered (id : UUID) (name email hash : string) (d d' : database) : Prop :=
  users d !! id = None /\ (forall i r, users d !! i = Some r -> u_email r <> email) /\
  d' = set_users <[id := MkUserRow name email hash (Some 0) (Some false)]> d.

(** [Register], whatever happens: with an identifier one user was added, whose
    password hash matches the password; with an error none, unless the reply
    of the statement was lost. *)
Lemma wp_Register good x c w p (Φ : error + UUID -> sys -> Prop) :
  (forall w' o, rview w' = rview w -> later w w' ->
     match o with
     | inr id => exists h, matches (cu_PasswordHash c) h /\
                   registered id (cu_Name c) (cu_Email c) h (dview w) (dview w')
     | inl e => dview w' = dview w \/ exists id h, matches (cu_PasswordHash c) h /\
                   registered id (cu_Name c) (cu_Email c) h (dview w) (dview w')
     end ->
     (good = no_fault -> exists id, o = inr id) ->
     Φ o (MkSys w' p)) ->
  wp good (Service.Register x c) (MkSys w p) Φ.
Proof using SL.
  intros H. unfold Service.Register, HashPassword. apply wp_bind, wp_bind, wp_create_hash.
  intros w1 [e|h] (Hv1 & Hd1 & Hl1) Hh Hg; apply wp_ret.
  { apply wp_ret, H; [done|done|by left|]. intros ->. by destruct Hg. }
  specialize (Hh h eq_refl). unfold Repository.CreateUser. apply wp_bind, wp_bind, wp_db.
  intros w2 [e|id] Heff Hv2 Hl2 Hg2; apply wp_ret, wp_ret, H; try (by rewrite Hv2); try (by etrans).
  - cbn in Heff. rewrite Hd1 in Heff. destruct Heff as [Heff|(id & _ & Hn & He & Hd)]; [by left|].
    right. exists (pgu_Bytes id), h. by repeat split.
  - intros ->. by destruct Hg2.
  - cbn in Heff. rewrite Hd1 in Heff. destruct Heff as (Hv & Hn & He & Hd).
    exists h. split; [done|]. unfold FromPgUUID. rewrite Hv. by repeat split.
  - eauto.
Qed.

(** The account with an email and a password, for the login. *)
Definition account (d : database) (email pw : string) (id : UUID) : Prop :=
  exists r, users d !! id = Some r /\ u_email r = email /\ matches pw (u_password_hash r).

Definition token_for (ts : TokenService) (id : UUID) (email tok : string) (now : Z) : Prop :=
  contains space tok = false /\ forall now', now' < Unix (now + ts_tokenTTL ts) * Second <->
    token_valid ts tok now' (MkRequestClaims (uuid_String id) (coerce email)
      (Some (Unix (now + ts_tokenTTL ts))) None (Some (Unix now))).

(** No token for the user could be signed at some time. *)
Definition unsignable (ts : TokenService) (id : UUID) (email : string) (from to : Z) : Prop :=
  exists now e, from <= now <= to /\
    jwt_SignedString HS256 (MkRequestClaims (uuid_String id) email (Some (Unix (now + ts_tokenTTL ts))) None
      (Some (Unix now))) (ts_secret ts) = inl e.

(** Why a login fails when nothing else does: no account has the email, or the
    password does not match, which look the same; or the token could not be
    signed. *)
Definition login_failed (ts : TokenService) (d : database) (c : LogInUserCmd) (from to : Z) (e : error) : Prop :=
  e = Service.incorrect_credentials /\
    ((forall i r, users d !! i = Some r -> u_email r <> lu_Email c) \/
     (exists i r, users d !! i = Some r /\ u_email r = lu_Email c /\
        ~ matches (lu_Password c) (u_password_hash r))) \/
  IsKind e Internal = true /\ exists id, account d (lu_Email c) (lu_Password c) id /\
    unsignable ts id (lu_Email c) from to.

(** [LogIn]: nothing is changed; a token is for the account with that email and
    password. *)
Lemma wp_LogIn good ts x c w p (Φ : error + LogInUserResult -> sys -> Prop) :
  (forall w' o, rview w' = rview w -> dview w' = dview w -> later w w' ->
     match o with
     | inr res => account (dview w) (lu_Email c) (lu_Password c) (lr_UserID res) /\
         exists now, gclock w <= now <= gclock w' /\
           token_for ts (lr_UserID res) (lu_Email c) (lr_AccessToken res) now
     | inl e => good = no_fault -> login_failed ts (dview w) c (gclock w) (gclock w') e
     end -> Φ o (MkSys w' p)) ->
  wp good (Service.LogIn ts x c) (MkSys w p) Φ.
Proof using LL SL UL.
  intros H. unfold Service.LogIn, Repository.GetUserByEmail. apply wp_bind, wp_bind, wp_db.
  intros w1 o Heff Hv1 Hl1 Hg.
  assert (dview w1 = dview w) as Hd1.
  { destruct o as [e|[u|]]; cbn in Heff; [|by destruct Heff..].
    destruct Heff as [Heff|(r & Heff & _)]; done. }
  destruct o as [e|[u|]]; cbn [one]; apply wp_ret.
  - destruct (IsKind _ _); apply wp_ret, H; try done; intros ->; by destruct Hg.
  - destruct Heff as [_ (i & r & Hr & He & ->)]. cbn [email_cols ue_ID ue_PasswordHash us_PasswordHash].
    unfold ComparePassword. destruct (compare_hash _ _) as [e|[]] eqn:Ec.
    + apply wp_ret, H; [done..|]. intros _. left. split; [done|]. right. exists i, r.
      split_and!; [done..|]. unfold matches. congruence.
    + apply wp_bind, wp_GenerateAccessToken; [done|]. intros w2 now t (Hv2 & Hd2 & Hl2) Hn Ht.
      unfold issued, read_back in Ht.
      cbn [rc_UserID rc_Email rc_ExpiresAt rc_NotBefore rc_IssuedAt us_ID us_Email email_cols ue_Email ue_ID] in Ht.
      rewrite uuid_String_valid in Ht. assert (account (dview w) (lu_Email c) (lu_Password c) i) as Hacc by (by exists r).
      destruct t as [e|tok]; apply wp_ret, H; try congruence; try (by etrans).
      * intros _. right. split; [done|]. exists i. split; [done|]. exists now, e. rewrite He in Ht.
        split; [destruct Hl1; lia|exact Ht].
      * split; [done|]. exists now. rewrite He in Ht. split; [destruct Hl1; lia|done].
    + apply wp_ret, H; [done..|]. intros _. left. split; [done|]. right. exists i, r.
      split_and!; [done..|]. unfold matches. congruence.
  - destruct Heff as [_ Hno]. replace (IsKind _ _) with true by done. apply wp_ret, H; [done..|].
    intros _. left. auto.
Qed.


Definition unique_emails (d : database) : Prop :=
  forall i j r r', users d !! i = Some r -> users d !! j = Some r' -> u_email r = u_email r' -> i = j.

Lemma registered_unique id n e h d d' :
  registered id n e h d d' -> unique_emails d -> unique_emails d'.
Proof.
  intros (Hid & He & ->) Hu i j r r'. cbn. rewrite !lookup_insert_Some.
  intros [[<- <-]|[Hi Hr]] [[<- <-]|[Hj Hr']] E; cbn in E; [done|..|by eapply Hu].
  - symmetry in E. by apply He in Hr'.
  - by apply He in Hr.
Qed.

Lemma registered_account id n e pw h d d' :
  registered id n e h d d' -> matches pw h ->
  account d' e pw id /\ forall i, account d' e pw i -> i = id.
Proof.
  intros (Hid & He & ->) Hm. split.
  - eexists. cbn. rewrite lookup_insert_eq. by split_and!.
  - intros i (r & Hr & Hre & _). cbn in Hr. apply lookup_insert_Some in Hr as [[<- _]|[_ Hr]]; [done|].
    by apply He in Hr.
Qed.

(** Registration.  When it gives an identifier, exactly one user was added
    under it, with the given name and email, no monitors, and a hash that the
    password matches; when it gives an error nothing was added, unless the
    answer of the database was lost; emails stay unique, and a taken email is
    always refused. *)
Theorem Register_ok x c w p :
  unique_emails (dview w) ->
  wp any_reply (Service.Register x c) (MkSys w p) (fun o σ' =>
    unique_emails (dview (sw σ')) /\ rview (sw σ') = rview w /\
    (forall id, o = inr id -> exists h, matches (cu_PasswordHash c) h /\
       registered id (cu_Name c) (cu_Email c) h (dview w) (dview (sw σ'))) /\
    ((exists i r, users (dview w) !! i = Some r /\ u_email r = cu_Email c) ->
       (exists e, o = inl e) /\ dview (sw σ') = dview w)).
Proof using SL.
  intros Hu. apply wp_Register. intros w' o Hv Hl Ho _. cbn.
  assert (dview w' = dview w \/ exists id h, matches (cu_PasswordHash c) h /\
    registered id (cu_Name c) (cu_Email c) h (dview w) (dview w')) as Hcase.
  { destruct o as [e|id]; [done|]. right. exists id. done. }
  split_and!; [|done| |].
  - destruct Hcase as [->|(id & h & _ & Hr)]; [done|]. by eapply registered_unique.
  - intros id ->. done.
  - intros (i & r & Hr & He). split.
    + destruct o as [e|id]; [by eexists|]. destruct Ho as (h & _ & _ & Hno & _). by apply Hno in Hr.
    + destruct Hcase as [|(id & h & _ & _ & Hno & _)]; [done|]. by apply Hno in Hr.
Qed.

(** Login.  It changes nothing.  A token is given only for the account with
    that email and password; without failures of the database, when there is
    no such account the error is the same whether the email is unknown or the
    password is wrong, and when there is one the login fails only if the token
    could not be signed. *)
Theorem LogIn_ok ts x c w p :
  unique_emails (dview w) ->
  wp no_fault (Service.LogIn ts x c) (MkSys w p) (fun o σ' =>
    dview (sw σ') = dview w /\ rview (sw σ') = rview w /\
    match o with
    | inr res => account (dview w) (lu_Email c) (lu_Password c) (lr_UserID res)
    | inl e =>
        (forall id, ~ account (dview w) (lu_Email c) (lu_Password c) id) /\
          e = Service.incorrect_credentials \/
        (exists id, account (dview w) (lu_Email c) (lu_Password c) id /\
           unsignable ts id (lu_Email c) (gclock w) (gclock (sw σ'))) /\ IsKind e Internal = true
    end).
Proof using LL SL UL.
  intros Hu. apply wp_LogIn. intros w' o Hv Hd Hl Ho. split_and!; [done..|].
  destruct o as [e|res]; [|by destruct Ho]. destruct (Ho eq_refl) as [[-> Hno]|[Hi Hacc]]; [left|by right].
  split; [|done]. intros id (r & Hr & He & Hm). destruct Hno as [Hno|(i & r' & Hr' & He' & Hm')].
  - by apply Hno in Hr.
  - assert (i = id) as -> by (eapply Hu; [done|done|congruence]). congruence.
Qed.

(** C28: who registers can log in.  When no call fails, a registration gives a
    new user, and a login with its email and password gives a token of that
    user, which is valid until its time to live ends; the only exception is
    that the library refuses to sign the claims of that token, and then the
    error is internal. *)
Theorem register_then_login ts x c w p :
  wp no_fault
    (r ← Service.Register x c;
     match r with
     | inl e => mret (inl e)
     | inr id => l ← Service.LogIn ts x (MkLogInUserCmd (cu_Email c) (cu_PasswordHash c)); mret (inr (id, l))
     end) (MkSys w p) (fun o σ' =>
    exists id l, o = inr (id, l) /\ users (dview w) !! id = None /\
      match l with
      | inr res => lr_UserID res = id /\
          exists now, gclock w <= now <= gclock (sw σ') /\
            token_for ts id (cu_Email c) (lr_AccessToken res) now
      | inl e => IsKind e Internal = true /\ unsignable ts id (cu_Email c) (gclock w) (gclock (sw σ'))
      end).
Proof using LL SL UL.
  apply wp_bind, wp_Register. intros w1 o Hv1 Hl1 Ho Hok. destruct (Hok eq_refl) as [id ->].
  destruct Ho as (h & Hm & Hr). destruct (registered_account _ _ _ _ _ _ _ Hr Hm) as [Hacc Huniq].
  apply wp_bind, wp_LogIn. intros w2 l Hv2 Hd2 Hl2 Hl. apply wp_ret. exists id, l.
  split; [done|]. split; [by destruct Hr|]. destruct l as [e|res]; cbn [lu_Email lu_Password] in Hl.
  - destruct (Hl eq_refl) as [[_ Hno]|[Hi (i & Ha & now & e' & Hn & Hs)]].
    2: { apply Huniq in Ha as ->. split; [done|]. exists now, e'. destruct Hl1. split; [cbn; lia|done]. }
    destruct Hr as (Hid & He & Hd'). exfalso.
    destruct Hacc as (r & Hr & Hre & Hrm). destruct Hno as [Hno|(i & r' & Hr' & He' & Hm')].
    + by apply Hno in Hr.
    + rewrite Hd' in Hr, Hr'. cbn in Hr, Hr'. rewrite lookup_insert_eq in Hr. injection Hr as <-.
      apply lookup_insert_Some in Hr' as [[_ <-]|[_ Hr']]; [done|]. by apply He in Hr'.
  - destruct Hl as (Ha & now & Hn & Ht). apply Huniq in Ha. split; [done|]. exists now.
    rewrite Ha in Ht. destruct Hl1. cbn. split; [lia|done].
Qed.

End Accounts.

(** ** Witnesses *)

Section Witnesses.
#[local] Existing Instance Hex.lib.
#[local] Existing Instance Hex.laws.
#[local] Existing Instance RefWorld.services.
#[local] Existing Instance RefWorld.laws.
#[local] Existing Instance RefJwt.lib.
#[local] Existing Instance RefJwt.laws.

Definition ada : CreateUserCmd := MkCreateUserCmd "ada" "ada@example.com" "correct horse".
Definition users_db : database :=
  MkDatabase {[Demo.owner := MkUserRow "ada" "ada@example.com" "argon2id:correct horse" (Some 0) (Some false)]}
    ∅ ∅.
Definition users_world : @world RefWorld.services := RefWorld.start RefWorld.redis_empty users_db Demo.t0.

Lemma users_db_unique : unique_emails users_db.
Proof.
  intros i j r r' Hi Hj _. cbn in Hi, Hj. apply lookup_singleton_Some in Hi as [<- _].
  by apply lookup_singleton_Some in Hj as [<- _].
Qed.

(** The email is taken. *)
Lemma Register_ok_witness :
  unique_emails (dview users_world) /\
  match (run (Service.Register CtxRequest ada) (MkSys users_world RefWorld.proc10)).2 with
  | Ret (inl e) => IsKind e AlreadyExists | _ => false end = true /\
  exists Φ, wp any_reply (Service.Register CtxRequest ada) (MkSys users_world RefWorld.proc10) Φ.
Proof.
  split; [exact users_db_unique|]. split; [vm_compute; reflexivity|]. eexists.
  exact (Register_ok CtxRequest ada users_world RefWorld.proc10 users_db_unique).
Defined.

Lemma LogIn_ok_witness :
  unique_emails (dview users_world) /\
  match (run (Service.LogIn demo_ts CtxRequest (MkLogInUserCmd "ada@example.com" "correct horse"))
           (MkSys users_world RefWorld.proc10)).2 with
  | Ret (inr res) => bool_decide (lr_UserID res = Demo.owner) | _ => false end = true /\
  exists Φ, wp no_fault (Service.LogIn demo_ts CtxRequest (MkLogInUserCmd "ada@example.com" "correct horse"))
              (MkSys users_world RefWorld.proc10) Φ.
Proof.
  split; [exact users_db_unique|]. split; [vm_compute; reflexivity|]. eexists.
  exact (LogIn_ok demo_ts CtxRequest _ users_world RefWorld.proc10 users_db_unique).
Defined.

Definition register_and_login : prog (error + UUID * (error + LogInUserResult)) :=
  r ← Service.Register CtxRequest ada;
  match r with
  | inl e => mret (inl e)
  | inr id => l ← Service.LogIn demo_ts CtxRequest (MkLogInUserCmd (cu_Email ada) (cu_PasswordHash ada));
              mret (inr (id, l))
  end.

(** The run gives a token, of the user that was registered. *)
Lemma register_then_login_witness :
  match (run register_and_login Demo.sys0).2 with
  | Ret (inr (id, inr res)) => bool_decide (lr_UserID res = id)
  | _ => false
  end = true /\
  exists Φ, wp no_fault register_and_login Demo.sys0 Φ.
Proof.
  split; [vm_compute; reflexivity|].
  eexists. exact (register_then_login demo_ts CtxRequest ada Demo.world0 RefWorld.proc10).
Defined.

End Witnesses.
