(* ===== verification/MonitorSvc.v ===== *)
(** * internals/modules/monitor: the monitor repository and service

    [Repository] is repository.go and [Service] is service.go; [Cache],
    [UserService] and [MonitorService] are the interfaces by which the code
    connects them to the Redis client, to the user service and to the
    executor and the result processor. *)

From S2P Require Import Prelude AppError Types Redis Postgres Effects Rules Reference RedisStore User MonitorJSON.
From stdpp Require Import gmap list strings pretty sorting.
#[local] Open Scope Z_scope.

(** ** Interfaces *)

(** cache.go *)
Class Cache := {
  cache_GetMonitor : ctx -> string -> prog (error + string);
  cache_SetMonitor : ctx -> string -> string -> Z -> prog (option error);
  cache_Schedule : ctx -> string -> Z -> prog (option error);
  cache_ClearIncident : ctx -> UUID -> prog (option error);
  cache_DelMonitor : ctx -> string -> prog (option error);
  cache_DelStatus : ctx -> UUID -> prog (option error);
  cache_DelSchedule : ctx -> string -> prog (option error)
}.

(** [redisstore.Client] is the cache of the service (container.go). *)
#[export] Instance redis_cache {U : UuidLib} : Cache := {
  cache_GetMonitor := GetMonitor;
  cache_SetMonitor := SetMonitor;
  cache_Schedule := Schedule;
  cache_ClearIncident := ClearIncident;
  cache_DelMonitor := DelMonitor;
  cache_DelStatus := DelStatus;
  cache_DelSchedule := DelSchedule
}.

(** The interface UserService of service.go. *)
Class UserService := { IncrementMonitorCount : ctx -> UUID -> prog (option error) }.
#[export] Instance user_service : UserService :=
  { IncrementMonitorCount := User.Service.IncrementMonitorCount }.

(** The interface MonitorService of executor.go and processor.go. *)
Class MonitorService := {
  LoadMonitor : ctx -> UUID -> prog (error + Monitor);
  ScheduleMonitor : ctx -> UUID -> Z -> string -> prog unit
}.

(** ** repository.go *)

Module Repository.

(** The row of a query as a domain value. *)
Definition to_Monitor (monitor : GetMonitorRow) : Monitor :=
  MkMonitor (FromPgUUID (gm_ID monitor)) (FromPgUUID (gm_UserID monitor)) (gm_Url monitor)
    (FromPgText (gm_AlertEmail monitor)) (gm_IntervalSec monitor) (gm_TimeoutSec monitor)
    (gm_LatencyThresholdMs monitor) (gm_ExpectedStatus monitor) (gm_Enabled monitor).

Definition Create (x : ctx) (monitor : CreateMonitorCmd) : prog (error + UUID) :=
  let op_ := "repo.monitor.create" in
  r ← op (Db (Q_CreateMonitor (MkCreateMonitorParams
        (ToPgUUID (cm_UserID monitor)) (cm_Url monitor) (cm_IntervalSec monitor)
        (cm_TimeoutSec monitor) (cm_LatencyThresholdMs monitor) (cm_ExpectedStatus monitor)
        (ToPgText (cm_AlertEmail monitor)))));
  match r with
  | inr monitorID => mret (inr (FromPgUUID monitorID))
  | inl err => mret (inl (WrapRepoError op_ err false))
  end.

Definition GetByID (x : ctx) (monitorID : UUID) : prog (error + Monitor) :=
  let op_ := "repo.monitor.get_by_id" in
  r ← op (Db (Q_GetMonitorByID (ToPgUUID monitorID)));
  match one r with
  | inr monitor => mret (inr (to_Monitor monitor))
  | inl err => mret (inl (WrapRepoError op_ err true))
  end.

Definition Get (x : ctx) (userID monitorID : UUID) : prog (error + Monitor) :=
  let op_ := "repo.monitor.get" in
  r ← op (Db (Q_GetMonitor (ToPgUUID monitorID) (ToPgUUID userID)));
  match one r with
  | inr monitor => mret (inr (to_Monitor monitor))
  | inl err => mret (inl (WrapRepoError op_ err true))
  end.

Definition GetAll (x : ctx) (userID : UUID) (limit offset : Z) : prog (error + list Monitor) :=
  let op_ := "repo.monitor.get_all" in
  r ← op (Db (Q_GetAllMonitorByUserID (ToPgUUID userID) limit offset));
  match r with
  | inr monitors =>
    if decide (length monitors = 0%nat) then mret (inr [])
    else mret (inr (to_Monitor <$> monitors))
  | inl err => mret (inl (WrapRepoError op_ err false))
  end.

Definition SetEnabled (x : ctx) (userID monitorID : UUID) (enabled : bool) : prog (option error) :=
  let op_ := "repo.monitor.enable_disable_monitor" in
  r ← op (Db (Q_UpdateMonitorStatus (ToPgUUID monitorID) enabled (ToPgUUID userID)));
  match r with
  | inr rows =>
    if decide (rows = 0) then
      mret (Some (AppError (MkError NotFound op_ None "resource not found" false)))
    else mret None
  | inl err => mret (Some (WrapRepoError op_ err false))
  end.

End Repository.

(** ** service.go *)

Module Service.
Section Service.
Context {U : UuidLib} {C : Cache} {US : UserService}.

Definition ScheduleMonitor (x : ctx) (mID : UUID) (intervalSec : Z) (op_ : string) : prog unit :=
  now ← op TimeNow;
  let nextRun := now + intervalSec * Second in
  cache_Schedule x (uuid_String mID) nextRun ;;
  mret tt.

Definition CreateMonitor (x : ctx) (data : CreateMonitorCmd) : prog (error + UUID) :=
  let op_ := "service.monitor.create_monitor" in
  err ← IncrementMonitorCount x (cm_UserID data);
  match err with
  | Some err => mret (inl err)
  | None =>
    r ← Repository.Create x data;
    match r with
    | inl err => mret (inl err)
    | inr monitorID =>
      ScheduleMonitor x monitorID (cm_IntervalSec data) op_ ;;
      mret (inr monitorID)
    end
  end.

Definition cacheMonitor (x : ctx) (m : Monitor) : prog (option error) :=
  match json_Marshal m with
  | inl err => mret (Some (Wrapped "failed to marshal monitor for cache: " err))
  | inr data => cache_SetMonitor x (uuid_String (m_ID m)) data (24 * Hour)
  end.

Definition getCachedMonitor (x : ctx) (id : UUID) : prog (error + Monitor) :=
  r ← cache_GetMonitor x (uuid_String id);
  match r with
  | inl err => mret (inl err)
  | inr data =>
    match json_Unmarshal data with
    | inl err => mret (inl err)
    | inr m => mret (inr m)
    end
  end.

Definition GetMonitor (x : ctx) (userID monitorID : UUID) : prog (error + Monitor) :=
  let from_db :=
    r ← Repository.Get x userID monitorID;
    match r with
    | inl err => mret (inl err)
    | inr mDB => cacheMonitor x mDB ;; mret (inr mDB)
    end in
  c ← getCachedMonitor x monitorID;
  match c with
  | inr m => if decide (m_UserID m = userID) then mret (inr m) else from_db
  | inl _ => from_db
  end.

Definition LoadMonitor (x : ctx) (monitorID : UUID) : prog (error + Monitor) :=
  c ← getCachedMonitor x monitorID;
  match c with
  | inr m => mret (inr m)
  | inl _ =>
    r ← Repository.GetByID x monitorID;
    match r with
    | inl err => mret (inl err)
    | inr mDB => cacheMonitor x mDB ;; mret (inr mDB)
    end
  end.

Definition GetAllMonitors (x : ctx) (userID : UUID) (limit offset : Z) : prog (error + list Monitor) :=
  r ← Repository.GetAll x userID limit offset;
  match r with
  | inl err => mret (inl err)
  | inr m => mret (inr m)
  end.

Definition disableMonitor (x : ctx) (monitorID : UUID) : prog unit :=
  cache_DelMonitor x (uuid_String monitorID) ;;
  cache_DelSchedule x (uuid_String monitorID) ;;
  cache_ClearIncident x monitorID ;;
  cache_DelStatus x monitorID ;;
  mret tt.

Definition UpdateMonitorStatus (x : ctx) (userID monitorID : UUID) (enable : bool)
    : prog (error + bool) :=
  let op_ := "service.monitor.update_status" in
  r ← Repository.Get x userID monitorID;
  match r with
  | inl err => mret (inl err)
  | inr m =>
    if decide (m_Enabled m = enable) then mret (inr true)
    else
      err ← Repository.SetEnabled x userID monitorID enable;
      match err with
      | Some err => mret (inl err)
      | None =>
        (if enable then ScheduleMonitor x (m_ID m) (m_IntervalSec m) op_
         else disableMonitor x monitorID) ;;
        mret (inr true)
      end
  end.

End Service.
End Service.

(** [monitor.Service] is the MonitorService of the pipeline (container.go). *)
#[export] Instance monitor_service {U : UuidLib} : MonitorService := {
  LoadMonitor := Service.LoadMonitor;
  ScheduleMonitor := Service.ScheduleMonitor
}.

(** ** The cached monitors *)

(** A row as the repository returns it. *)
Definition row_Monitor (id : UUID) (r : monitor_row) : Monitor :=
  Repository.to_Monitor (monitor_cols id r).

Definition set_m_Enabled (b : bool) (m : Monitor) : Monitor :=
  MkMonitor (m_ID m) (m_UserID m) (m_Url m) (m_AlertEmail m) (m_IntervalSec m) (m_TimeoutSec m)
    (m_LatencyThresholdMs m) (m_ExpectedStatus m) b.

(** Equal up to the flag that [UpdateMonitorStatus] changes. *)
Definition same_settings (m m' : Monitor) : Prop := set_m_Enabled true m = set_m_Enabled true m'.

#[export] Instance same_settings_equiv : Equivalence same_settings.
Proof. split; [by intros m|by intros m m'|]. unfold same_settings. intros m1 m2 m3. congruence. Qed.

Lemma same_settings_fields m m' :
  same_settings m m' ->
  m_ID m = m_ID m' /\ m_UserID m = m_UserID m' /\ m_Url m = m_Url m' /\
  m_IntervalSec m = m_IntervalSec m'.
Proof. unfold same_settings, set_m_Enabled. intros [=]. auto. Qed.

(** [m] is what the table has for [id], up to the flag. *)
Definition agrees (d : database) (id : UUID) (m : Monitor) : Prop :=
  exists r, monitors d !! id = Some r /\ same_settings m (row_Monitor id r).

(** Every monitor of [d] is in [d'] with the same settings. *)
Definition monitors_kept (d d' : database) : Prop :=
  forall id m, agrees d id m -> agrees d' id m.

#[export] Instance monitors_kept_preorder : PreOrder monitors_kept.
Proof. split; [by intros d id m|]. intros d1 d2 d3 H1 H2 id m H. auto. Qed.

Lemma monitors_kept_enabled id b u d d' n :
  sql_update_status id b u d = (d', n) -> monitors_kept d d'.
Proof.
  unfold sql_update_status, by_id. intros H.
  destruct (pgu_Valid id); [|by inv_all].
  destruct (monitors d !! pgu_Bytes id) as [r|] eqn:E; [|by inv_all].
  case_decide; inv_all; [|done]. intros id' m (r' & Hr' & Hs). unfold agrees; cbn.
  destruct (decide (pgu_Bytes id = id')) as [<-|Hne].
  - rewrite lookup_insert_eq. eexists. split; [done|]. assert (r' = r) as -> by congruence. done.
  - rewrite lookup_insert_ne by done. eauto.
Qed.

Lemma monitors_kept_insert id r d :
  monitors d !! id = None -> monitors_kept d (set_monitors <[id := r]> d).
Proof.
  intros Hn id' m (r' & Hr' & Hs). exists r'. cbn. split; [|done].
  rewrite lookup_insert_ne; [done|]. intros ->. congruence.
Qed.

Lemma monitors_kept_users f d : monitors_kept d (set_users f d).
Proof. by intros id m H. Qed.

Section Coherence.
Context {U : UuidLib}.

Definition cacheKey (id : UUID) : string := monitorKey (uuid_String id).

(** What the cache holds for a monitor is what the table has, up to the
    flag. *)
Definition coherent (v : redis) (d : database) : Prop :=
  forall id x o m, strs v !! cacheKey id = Some (x, o) -> json_Unmarshal (rval_text x) = inr m ->
  agrees d id m.

(** The texts and integers of the table survive the encoding. *)
Definition valid_db (d : database) : Prop :=
  forall id r b, monitors d !! id = Some r -> storable (set_m_Enabled b (row_Monitor id r)).

Lemma coherent_kept v d d' : monitors_kept d d' -> coherent v d -> coherent v d'.
Proof. intros H1 H2 id x o m Hx Hm. apply H1. by eapply H2. Qed.

(** Changes elsewhere on the server, and removals from the cache. *)
Lemma coherent_frame v v' d :
  (forall id, strs v' !! cacheKey id = strs v !! cacheKey id \/ strs v' !! cacheKey id = None) ->
  coherent v d -> coherent v' d.
Proof.
  intros H Hc id x o m Hx Hm. destruct (H id) as [E|E]; [|congruence].
  eapply Hc; [by rewrite <- E|done].
Qed.

Lemma live_cached now v k x : live now v k = Some x -> exists o, strs v !! k = Some (x, o).
Proof.
  unfold live. destruct (strs v !! k) as [[y [d|]]|]; [|intros [= <-]; eauto|done].
  case_decide; [|done]. intros [= <-]. eauto.
Qed.

End Coherence.

(** ** Rules of the repository and of the cache *)

Section RepositoryRules.
Context {S : Services} {SL : ServiceLaws S}.

Definition owned (d : database) (u id : UUID) (r : monitor_row) : Prop :=
  monitors d !! id = Some r /\ mr_user_id r = u.

Lemma wp_Get good x u id w p (Φ : error + Monitor -> sys -> Prop) :
  (forall w' o, rview w' = rview w -> dview w' = dview w -> later w w' ->
     match o with
     | inr m => exists r, owned (dview w) u id r /\ m = row_Monitor id r
     | inl e => good = no_fault -> IsKind e NotFound = true /\ forall r, ~ owned (dview w) u id r
     end -> Φ o (MkSys w' p)) ->
  wp good (Repository.Get x u id) (MkSys w p) Φ.
Proof using SL.
  intros H. unfold Repository.Get. apply wp_bind, wp_db. intros w' o Heff Hv Hl Hg.
  cbn [query_reply] in *. destruct o as [e|[row|]]; cbn [one] in *; apply wp_ret, H; try done.
  - cbn in Heff. destruct Heff as [|(r & _ & ?)]; done.
  - by intros ->.
  - cbn in Heff. by destruct Heff.
  - cbn in Heff. destruct Heff as [Hrow _]. symmetry in Hrow.
    apply sql_get_monitor_owner in Hrow as (r & Hr & Hu & ->). by exists r.
  - cbn in Heff. by destruct Heff.
  - intros _. split; [done|]. intros r [Hr Hu]. cbn in Heff. destruct Heff as [Heff _].
    unfold sql_get_monitor, by_id in Heff. cbn in Heff. rewrite Hr in Heff.
    by rewrite decide_True in Heff by done.
Qed.

Lemma wp_GetByID good x id w p (Φ : error + Monitor -> sys -> Prop) :
  (forall w' o, rview w' = rview w -> dview w' = dview w -> later w w' ->
     match o with
     | inr m => exists r, monitors (dview w) !! id = Some r /\ m = row_Monitor id r
     | inl e => good = no_fault -> IsKind e NotFound = true /\ monitors (dview w) !! id = None
     end -> Φ o (MkSys w' p)) ->
  wp good (Repository.GetByID x id) (MkSys w p) Φ.
Proof using SL.
  intros H. unfold Repository.GetByID. apply wp_bind, wp_db. intros w' o Heff Hv Hl Hg.
  cbn [query_reply] in *. destruct o as [e|[row|]]; cbn [one] in *; apply wp_ret, H; try done.
  - cbn in Heff. destruct Heff as [|(r & _ & ?)]; done.
  - by intros ->.
  - cbn in Heff. by destruct Heff.
  - cbn in Heff. destruct Heff as [Hrow _]. unfold sql_get_monitor_by_id, by_id in Hrow. cbn in Hrow.
    destruct (monitors (dview w) !! id) as [r|]; [|done]. injection Hrow as ->. by exists r.
  - cbn in Heff. by destruct Heff.
  - intros _. split; [done|]. cbn in Heff. destruct Heff as [Hrow _].
    unfold sql_get_monitor_by_id, by_id in Hrow. cbn in Hrow.
    by destruct (monitors (dview w) !! id).
Qed.

Lemma wp_SetEnabled good x u id b w p (Φ : option error -> sys -> Prop) :
  (forall w' e, rview w' = rview w -> later w w' ->
     let set := exists r, owned (dview w) u id r /\
                  dview w' = set_monitors <[id := with_enabled b r]> (dview w) in
     match e with
     | None => set
     | Some _ => dview w' = dview w \/ set
     end ->
     (good = no_fault -> e = None \/ forall r, ~ owned (dview w) u id r) ->
     Φ e (MkSys w' p)) ->
  wp good (Repository.SetEnabled x u id b) (MkSys w p) Φ.
Proof using SL.
  intros H. unfold Repository.SetEnabled. apply wp_bind, wp_db. intros w' o Heff Hv Hl Hg.
  cbn [query_reply db_effect query_spec] in *.
  assert (forall n, (dview w', n) = sql_update_status (ToPgUUID id) b (ToPgUUID u) (dview w) ->
    (n = 1 /\ exists r, owned (dview w) u id r /\
       dview w' = set_monitors <[id := with_enabled b r]> (dview w)) \/
    (n = 0 /\ dview w' = dview w /\ forall r, ~ owned (dview w) u id r)) as Hn.
  { intros n Hn. unfold sql_update_status, by_id in Hn. cbn in Hn.
    unfold owned. destruct (monitors (dview w) !! id) as [r|]; [|right; naive_solver].
    case_decide as Hd; inv_all; [left; naive_solver|right]. split; [done|]. split; [done|].
    intros r' [[= <-] Hu]. naive_solver. }
  destruct o as [e|n].
  - apply wp_ret, H; [done|done| |by intros ->].
    destruct Heff as [|[n E]]; [by left|]. destruct (Hn n E) as [[_ ?]|(_ & ? & _)]; auto.
  - destruct (Hn n Heff) as [[-> Hs]|(-> & Hd & Hno)].
    + rewrite decide_False by done. apply wp_ret, H; auto.
    + rewrite decide_True by done. apply wp_ret, H; auto.
Qed.

End RepositoryRules.

Section CacheRules.
Context {U : UuidLib} {S : Services} {SL : ServiceLaws S}.

(** The cache entry that [cacheMonitor] writes, with its expiry time. *)
Definition cached (m : Monitor) (expiry : Z) (v v' : redis) : Prop :=
  exists data, json_Marshal m = inr data /\
    v' = set_str (cacheKey (m_ID m)) (Some (RStr data, Some expiry)) v.

Lemma wp_cacheMonitor good x m w p (Φ : option error -> sys -> Prop) :
  (forall w' e, dview w' = dview w -> later w w' ->
     (rview w' = rview w \/ exists t, cached m t (rview w) (rview w')) ->
     (good = no_fault -> e = None /\
        cached m (rclock w' + Milliseconds (24 * Hour)) (rview w) (rview w')) ->
     Φ e (MkSys w' p)) ->
  wp good (Service.cacheMonitor x m) (MkSys w p) Φ.
Proof using SL.
  intros H. unfold Service.cacheMonitor. destruct (json_Marshal_ok m) as [data Hdata].
  rewrite Hdata. cbn [cache_SetMonitor redis_cache]. unfold SetMonitor.
  apply wp_bind, wp_redis. intros w' o Heff Hd Hl Hg.
  assert (forall r, rcmd_spec (Call (SET (cacheKey (m_ID m)) data (Milliseconds (24 * Hour))))
            (rclock w') (rview w) (rview w') r ->
          cached m (rclock w' + Milliseconds (24 * Hour)) (rview w) (rview w')) as Hc.
  { intros r Hr. by exists data. }
  apply wp_ret. apply H; [done|done| |].
  - destruct o as [e|r]; [destruct Heff as [|[r Hr]]|]; [by left|right; eexists; exact (Hc r Hr)|].
    right. eexists. exact (Hc r Heff).
  - intros ->. destruct o as [e|r]; [done|]. split; [done|exact (Hc r Heff)].
Qed.

Lemma wp_getCached good x id w p (Φ : error + Monitor -> sys -> Prop) :
  (forall w' o, rview w' = rview w -> dview w' = dview w -> later w w' ->
     match o with
     | inr m => exists y, live (rclock w') (rview w) (cacheKey id) = Some y /\
                          json_Unmarshal (rval_text y) = inr m
     | inl _ => good = no_fault -> forall y m,
                  live (rclock w') (rview w) (cacheKey id) = Some y ->
                  json_Unmarshal (rval_text y) <> inr m
     end -> Φ o (MkSys w' p)) ->
  wp good (Service.getCachedMonitor x id) (MkSys w p) Φ.
Proof using SL.
  intros H. unfold Service.getCachedMonitor. apply wp_bind. cbn [cache_GetMonitor redis_cache].
  unfold GetMonitor. apply wp_bind, wp_redis. intros w' o Heff Hd Hl Hg.
  cbn [call_effect rcmd_spec rcall_spec rcmd_reply rreply] in *.
  assert (rview w' = rview w) as Hv by (destruct o as [e|r]; naive_solver).
  destruct o as [e|[data|]]; cbn [nil_err].
  - destruct (is_RedisNil e); apply wp_ret, wp_ret, H; try done; by intros ->.
  - destruct Heff as [Ho _]. fold (cacheKey id) in Ho.
    destruct (live (rclock w') (rview w) (cacheKey id)) as [y|] eqn:Ey; [|done].
    injection Ho as ->. apply wp_ret.
    destruct (json_Unmarshal (rval_text y)) as [e|m] eqn:Ej; apply wp_ret, H; [done..| |done|done|done|].
    + intros _ y' m. rewrite Ey. intros [= <-]. congruence.
    + eauto.
  - destruct Heff as [Ho _]. fold (cacheKey id) in Ho. cbn [is_RedisNil].
    apply wp_ret, wp_ret, H; [done..|]. intros _ y m Hy. by rewrite Hy in Ho.
Qed.

(** [ScheduleMonitor] puts one member into the schedule, or nothing. *)
Lemma wp_ScheduleMonitor_any x id n op_ w p :
  wp any_reply (Service.ScheduleMonitor x id n op_) (MkSys w p) (fun _ σ' =>
    sp σ' = p /\ dview (sw σ') = dview w /\ later w (sw σ') /\
    (rview (sw σ') = rview w \/ rescheduled (uuid_String id) (rview w) (rview (sw σ')))).
Proof using SL.
  unfold Service.ScheduleMonitor. apply wp_bind, wp_time_now. intros w1 t _ (Hv & Hd & Hl) _.
  apply wp_bind. eapply wp_mono; [apply (wp_Schedule_any x _ _ w1 p (rview w)); by left|].
  intros e σ' (Hp & Hd' & Hl' & HR). apply wp_ret. cbn in *. split; [done|].
  split; [congruence|]. split; [by etrans|done].
Qed.

Definition scheduled_at (id : UUID) (t : Z) (v : redis) : redis :=
  set_zset scheduleKey (<[uuid_String id := float64_of_int (UnixMilli t)]> (zset v scheduleKey)) v.

Lemma wp_ScheduleMonitor {good} {G : RedisReliable good} x id n op_ w p (Φ : unit -> sys -> Prop) :
  (forall w' t, dview w' = dview w -> later w w' -> gclock w <= t <= gclock w' ->
     rview w' = scheduled_at id (t + n * Second) (rview w) -> Φ tt (MkSys w' p)) ->
  wp good (Service.ScheduleMonitor x id n op_) (MkSys w p) Φ.
Proof using SL.
  intros H. unfold Service.ScheduleMonitor.
  apply wp_bind, wp_time_now. intros w1 t _ (Hv & Hd & Hl) Ht.
  apply wp_bind. cbn [cache_Schedule redis_cache]. unfold Schedule.
  apply wp_retry_, wp_bind, wp_rdb. intros w2 k [Hv2 _] Hd2 Hl2. apply wp_ret. split; [done|].
  apply wp_ret, (H w2 t); [congruence|by etrans| |].
  - destruct Hl2. lia.
  - rewrite Hv2. unfold scheduled_at. by rewrite Hv.
Qed.

End CacheRules.

(** ** The promise of the interface MonitorService *)

(** What the pipeline relies on: scheduling writes one member of the schedule
    (or nothing, when Redis fails), loading touches neither the queue nor the
    hashes. *)
Class MonitorServiceLaws {U : UuidLib} (S : Services) (MS : MonitorService) := {
  schedule_any x id n op_ w p :
    wp any_reply (ScheduleMonitor x id n op_) (MkSys w p) (fun _ σ' =>
      sp σ' = p /\ dview (sw σ') = dview w /\ later w (sw σ') /\
      (rview (sw σ') = rview w \/ rescheduled (uuid_String id) (rview w) (rview (sw σ'))));
  schedule_ok good {G : RedisReliable good} x id n op_ w p :
    wp good (ScheduleMonitor x id n op_) (MkSys w p) (fun _ σ' =>
      sp σ' = p /\ dview (sw σ') = dview w /\ later w (sw σ') /\
      exists t, gclock w <= t <= gclock (sw σ') /\
        rview (sw σ') = scheduled_at id (t + n * Second) (rview w));
  load_any x id w p :
    wp any_reply (LoadMonitor x id) (MkSys w p) (fun _ σ' =>
      sp σ' = p /\ dview (sw σ') = dview w /\ later w (sw σ') /\
      zsets (rview (sw σ')) = zsets (rview w) /\ hashes (rview (sw σ')) = hashes (rview w))
}.

Section ServiceLemmas.
Context {U : UuidLib} {UL : UuidLaws U}
        {S : Services} {SL : ServiceLaws S}.

Lemma cacheKey_inj id id' : cacheKey id = cacheKey id' -> id = id'.
Proof using UL. intros H. by apply string_app_inj, (inj uuid_String) in H. Qed.

Lemma coherent_cached m t v v' d :
  agrees d (m_ID m) m -> storable m -> cached m t v v' -> coherent v d -> coherent v' d.
Proof using UL.
  intros Ha Hs (data & Hdata & ->) Hc id x o m' Hx Hm.
  rewrite strs_set_str in Hx. case_decide as Hk; [|by eapply Hc].
  apply cacheKey_inj in Hk as <-. injection Hx as <- <-. cbn in Hm.
  rewrite (Monitor_roundtrip m data Hs Hdata) in Hm. by injection Hm as <-.
Qed.

Lemma agrees_row d id r : monitors d !! id = Some r -> agrees d id (row_Monitor id r).
Proof. intros H. by exists r. Qed.

(** The cache is coherent and the table can be cached. *)
Definition cache_inv (σ : sys) : Prop :=
  coherent (rview (sw σ)) (dview (sw σ)) /\ valid_db (dview (sw σ)).

(** Reading the cache entry, under the invariant. *)
Lemma wp_getCached_coherent good x id w p (Φ : error + Monitor -> sys -> Prop) :
  coherent (rview w) (dview w) ->
  (forall w' o, rview w' = rview w -> dview w' = dview w -> later w w' ->
     match o with
     | inr m => agrees (dview w) id m
     | inl _ => True
     end -> Φ o (MkSys w' p)) ->
  wp good (Service.getCachedMonitor x id) (MkSys w p) Φ.
Proof using SL.
  intros Hc H. apply wp_getCached. intros w' [e|m] Hv Hd Hl Ho; apply H; [done..|].
  destruct Ho as (y & Hy & Hm). apply live_cached in Hy as [o Ho]. by eapply Hc.
Qed.

(** Storing in the cache a row just read. *)
Lemma wp_cacheMonitor_coherent good x id r w p (Φ : option error -> sys -> Prop) :
  monitors (dview w) !! id = Some r -> cache_inv (MkSys w p) ->
  (forall w' e, dview w' = dview w -> later w w' -> cache_inv (MkSys w' p) ->
     zsets (rview w') = zsets (rview w) -> hashes (rview w') = hashes (rview w) ->
     Φ e (MkSys w' p)) ->
  wp good (Service.cacheMonitor x (row_Monitor id r)) (MkSys w p) Φ.
Proof using SL UL.
  intros Hr [Hc Hvd] H. cbn in *. apply wp_cacheMonitor. intros w' e Hd Hl Hv _.
  apply H; [done|done| | |].
  - split; cbn; rewrite Hd; [|done]. destruct Hv as [->|[t Ht]]; [done|].
    eapply coherent_cached; [|by apply (Hvd id r (mr_enabled r))|exact Ht|done].
    by apply agrees_row.
  - by destruct Hv as [->|[t (data & _ & ->)]].
  - by destruct Hv as [->|[t (data & _ & ->)]].
Qed.

(** [LoadMonitor], under the invariant. *)
Lemma wp_LoadMonitor good x id w p (Φ : error + Monitor -> sys -> Prop) :
  cache_inv (MkSys w p) ->
  (forall w' o, dview w' = dview w -> later w w' -> cache_inv (MkSys w' p) ->
     zsets (rview w') = zsets (rview w) -> hashes (rview w') = hashes (rview w) ->
     match o with
     | inr m => agrees (dview w) id m
     | inl e => good = no_fault -> IsKind e NotFound = true /\ monitors (dview w) !! id = None
     end -> Φ o (MkSys w' p)) ->
  wp good (Service.LoadMonitor x id) (MkSys w p) Φ.
Proof using SL UL.
  intros [Hc Hvd] H. cbn in *. unfold Service.LoadMonitor.
  apply wp_bind, wp_getCached_coherent; [done|]. intros w1 [e|m] Hv1 Hd1 Hl1 Ho.
  - apply wp_bind, wp_GetByID. intros w2 [e2|m] Hv2 Hd2 Hl2 Ho2; rewrite Hd1 in *.
    + apply wp_ret, H; [congruence|by etrans|split; cbn; rewrite ?Hv2, ?Hv1, ?Hd2; done|
        congruence|congruence|done].
    + destruct Ho2 as (r & Hr & ->).
      apply wp_bind, wp_cacheMonitor_coherent; [congruence| |].
      { split; cbn; rewrite ?Hv2, ?Hv1, ?Hd2; done. }
      intros w3 e3 Hd3 Hl3 Hi3 Hz3 Hh3. apply wp_ret, H;
        [congruence|by do 2 (etrans; [done|])|done|congruence|congruence|]. by apply agrees_row.
  - apply wp_ret, H; [done|done|split; cbn; rewrite ?Hv1, ?Hd1; done|congruence|congruence|done].
Qed.

End ServiceLemmas.

Section Discharge.
Context {U : UuidLib} {S : Services} {SL : ServiceLaws S}.

Lemma wp_LoadMonitor_any x id w p :
  wp any_reply (Service.LoadMonitor x id) (MkSys w p) (fun _ σ' =>
    sp σ' = p /\ dview (sw σ') = dview w /\ later w (sw σ') /\
    zsets (rview (sw σ')) = zsets (rview w) /\ hashes (rview (sw σ')) = hashes (rview w)).
Proof using SL.
  unfold Service.LoadMonitor. apply wp_bind, wp_getCached. intros w1 [e|m] Hv1 Hd1 Hl1 _.
  2: { apply wp_ret. cbn. rewrite Hv1. done. }
  apply wp_bind, wp_GetByID. intros w2 [e2|m] Hv2 Hd2 Hl2 _.
  { apply wp_ret. cbn. rewrite Hv2, Hv1, Hd2. split_and!; try done. by etrans. }
  apply wp_bind, wp_cacheMonitor. intros w3 e3 Hd3 Hl3 Hv3 _. apply wp_ret. cbn.
  assert (zsets (rview w3) = zsets (rview w2) /\ hashes (rview w3) = hashes (rview w2)) as [-> ->].
  { by destruct Hv3 as [->|[t (data & _ & ->)]]. }
  rewrite Hv2, Hv1, Hd3, Hd2. split_and!; try done. by do 2 (etrans; [done|]).
Qed.

(** The monitor service keeps the promise of the interface. *)
#[export] Instance monitor_service_laws : MonitorServiceLaws S monitor_service.
Proof using SL.
  split.
  - intros. apply wp_ScheduleMonitor_any.
  - intros. apply wp_ScheduleMonitor. intros w' t Hd Hl Ht Hv. cbn. eauto 10.
  - intros. apply wp_LoadMonitor_any.
Qed.

End Discharge.

(** ** Requests to the service *)

Section Requests.
Context {U : UuidLib} {UL : UuidLaws U}
        {S : Services} {SL : ServiceLaws S}.

(** A request to the monitor service, and serving it. *)
Inductive request :=
| RCreate (data : CreateMonitorCmd)
| RGet (userID monitorID : UUID)
| RGetAll (userID : UUID) (limit offset : Z)
| RUpdate (userID monitorID : UUID) (enable : bool)
| RLoad (monitorID : UUID)
| RSchedule (mID : UUID) (intervalSec : Z).

Definition serve (x : ctx) (r : request) : prog unit :=
  match r with
  | RCreate data => Service.CreateMonitor x data ;; mret tt
  | RGet u id => Service.GetMonitor x u id ;; mret tt
  | RGetAll u limit offset => Service.GetAllMonitors x u limit offset ;; mret tt
  | RUpdate u id b => Service.UpdateMonitorStatus x u id b ;; mret tt
  | RLoad id => Service.LoadMonitor x id ;; mret tt
  | RSchedule id n => Service.ScheduleMonitor x id n ""
  end.

Fixpoint serve_all (l : list (ctx * request)) : prog unit :=
  match l with
  | [] => mret tt
  | (x, r) :: l => serve x r ;; serve_all l
  end.

(** The texts of a creation request can be cached. *)
Definition new_Monitor (id : UUID) (b : bool) (c : CreateMonitorCmd) : Monitor :=
  MkMonitor id (cm_UserID c) (cm_Url c) (cm_AlertEmail c) (cm_IntervalSec c) (cm_TimeoutSec c)
    (cm_LatencyThresholdMs c) (cm_ExpectedStatus c) b.

Definition storable_request (r : request) : Prop :=
  match r with RCreate c => forall id b, storable (new_Monitor id b c) | _ => True end.

(** *** Preservation of the cache invariant *)

Lemma cache_inv_db w w' p p' :
  cache_inv (MkSys w p) -> rview w' = rview w -> dview w' = dview w -> cache_inv (MkSys w' p').
Proof using. intros [H1 H2] Hv Hd. split; cbn in *; by rewrite ?Hv, ?Hd. Qed.

(** A Redis call that writes to no string key keeps the invariant. *)
Lemma inv_redis c w p :
  (forall now v v' r, rcall_spec c now v v' r ->
     forall k, strs v' !! k = strs v !! k \/ strs v' !! k = None) ->
  cache_inv (MkSys w p) ->
  wp any_reply (rdb c) (MkSys w p) (fun _ σ' => cache_inv σ').
Proof using SL.
  intros Hc [H1 H2]. apply wp_redis. intros w' o Heff Hd _ _. split; cbn in *; rewrite Hd; [|done].
  revert H1. apply coherent_frame. intros id.
  destruct o as [e|r]; [destruct Heff as [->|[r Hr]]; [by left|]|]; by eapply Hc.
Qed.

Lemma inv_ScheduleMonitor x id n op_ σ :
  cache_inv σ -> wp any_reply (Service.ScheduleMonitor x id n op_) σ (fun _ σ' => cache_inv σ').
Proof using SL.
  destruct σ as [w p]. intros [H1 H2]. eapply wp_mono; [apply wp_ScheduleMonitor_any|].
  intros _ σ' (_ & Hd & _ & Hv). split; rewrite Hd; [|done]. revert H1. apply coherent_frame.
  intros k. left. destruct Hv as [->|[s ->]]; done.
Qed.

Lemma inv_DEL k w p :
  cache_inv (MkSys w p) ->
  wp any_reply (r ← rdb (DEL k); mret (err_of r)) (MkSys w p) (fun _ σ' => cache_inv σ').
Proof using SL.
  intros H. apply (wp_then _ _ err_of), inv_redis; [|done].
  cbn. intros now v v' r [_ ->] k'. rewrite strs_set_str. case_decide; auto.
Qed.

Lemma inv_disable x id σ :
  cache_inv σ -> wp any_reply (Service.disableMonitor x id) σ (fun _ σ' => cache_inv σ').
Proof using SL.
  intros H. unfold Service.disableMonitor. cbn [cache_DelMonitor cache_DelSchedule
    cache_ClearIncident cache_DelStatus redis_cache].
  destruct σ as [w p]. apply wp_bind. eapply wp_mono; [by apply inv_DEL|]. intros _ [w1 p1] H1.
  apply wp_bind. unfold DelSchedule. apply wp_bind.
  eapply wp_mono; [apply inv_redis; [|done]|].
  { cbn. intros now v v' r [-> _] k'. by left. }
  intros r [w2 p2] H2. apply wp_ret, wp_bind. unfold ClearIncident. eapply wp_mono.
  { apply (wp_retry_inv_ x 2 _ _ cache_inv); [| |exact H2].
    - intros [w3 p3] H3. by apply inv_DEL.
    - intros w3 w4 p3 H3 (Hv & Hd & _). by eapply cache_inv_db. }
  intros ? [w3 p3] H3. apply wp_bind. eapply wp_mono; [by apply inv_DEL|].
  intros ? σ4 H4. by apply wp_ret.
Qed.

Lemma inv_UpdateMonitorStatus x u id b σ :
  cache_inv σ ->
  wp any_reply (Service.UpdateMonitorStatus x u id b) σ (fun _ σ' => cache_inv σ').
Proof using SL.
  destruct σ as [w p]. intros H. unfold Service.UpdateMonitorStatus.
  apply wp_bind, wp_Get. intros w1 [e|m] Hv1 Hd1 _ Ho.
  { apply wp_ret. by eapply cache_inv_db. }
  destruct Ho as (r & [Hr _] & ->). case_decide; [apply wp_ret; by eapply cache_inv_db|].
  apply wp_bind, wp_SetEnabled. intros w2 e Hv2 _ set He _. subst set.
  assert (cache_inv (MkSys w2 p)) as H2.
  { assert (dview w2 = dview w1 \/ exists r, owned (dview w1) u id r /\
      dview w2 = set_monitors <[id:=with_enabled b r]> (dview w1)) as Hd2 by (destruct e; auto).
    destruct H as [Hc Hvd]. cbn in *.
    destruct Hd2 as [Hd2|(r' & [Hr' _] & Hd2)]; split; cbn; rewrite ?Hv2, ?Hv1, ?Hd2, ?Hd1; [done|done| |].
    - eapply coherent_kept; [|exact Hc].
      apply (monitors_kept_enabled (ToPgUUID id) b (ToPgUUID (mr_user_id r')) _ _ 1).
      rewrite Hd1 in Hr'. unfold sql_update_status, by_id. cbn. rewrite Hr'.
      by rewrite decide_True by done.
    - rewrite Hd1 in Hr'. intros id' r0 b0. cbn. destruct (decide (id = id')) as [<-|Hne].
      + rewrite lookup_insert_eq. intros [= <-]. by apply (Hvd id r' b0).
      + rewrite lookup_insert_ne by done. apply Hvd. }
  destruct e as [e|]; [by apply wp_ret|]. apply (wp_then _ _ (fun _ => inr true)).
  destruct b; [by apply inv_ScheduleMonitor|by apply inv_disable].
Qed.

Lemma wp_RepoCreate good x c w p (Φ : error + UUID -> sys -> Prop) :
  (forall w' o, rview w' = rview w -> later w w' ->
     let ins id := monitors (dview w) !! id = None /\ is_Some (users (dview w) !! cm_UserID c) /\
       exists r, row_Monitor id r = new_Monitor id true c /\ monitor_checks r = true /\
                 dview w' = set_monitors <[id := r]> (dview w) in
     match o with
     | inr id => ins id
     | inl _ => dview w' = dview w \/ exists id, ins id
     end -> (good = no_fault -> is_ok o) -> Φ o (MkSys w' p)) ->
  wp good (Repository.Create x c) (MkSys w p) Φ.
Proof using SL.
  intros H. unfold Repository.Create. apply wp_bind, wp_db. intros w' o Heff Hv Hl Hg.
  cbn [query_reply db_effect query_spec] in *.
  assert (forall id : pgUUID, pgu_Valid id = true -> FromPgUUID id = pgu_Bytes id) as Hid.
  { intros [b []]; done. }
  assert (forall at_ i, row_Monitor i (MkMonitorRow (cm_UserID c) (cm_Url c)
            (text_param (ToPgText (cm_AlertEmail c))) (cm_IntervalSec c) (cm_TimeoutSec c)
            (cm_LatencyThresholdMs c) (cm_ExpectedStatus c) true at_) = new_Monitor i true c) as Hrow.
  { intros at_ i. unfold row_Monitor, Repository.to_Monitor, new_Monitor. cbn. f_equal.
    unfold ToPgText. by case_decide. }
  destruct o as [e|id]; apply wp_ret, H; [done|done| |by intros ->|done|done| |done].
  - destruct Heff as [|(id & Hvd & Hn & Hu & at_ & Hchk & Hd)]; [by left|right].
    exists (pgu_Bytes id). split; [done|]. split; [exact Hu|]. eexists. split; [apply Hrow|]. done.
  - destruct Heff as (Hvd & Hn & Hu & at_ & Hchk & Hd). rewrite (Hid id Hvd).
    split; [done|]. split; [exact Hu|]. eexists. split; [apply Hrow|]. done.
Qed.

Lemma inv_CreateMonitor x c σ :
  storable_request (RCreate c) -> cache_inv σ ->
  wp any_reply (Service.CreateMonitor x c) σ (fun _ σ' => cache_inv σ').
Proof using SL.
  destruct σ as [w p]. intros Hst [Hc Hvd]. cbn in *. unfold Service.CreateMonitor.
  apply wp_bind. cbn [IncrementMonitorCount user_service]. apply wp_IncrementMonitorCount.
  intros w1 e Hv1 _ He _.
  assert (cache_inv (MkSys w1 p) ) as H1.
  { assert (dview w1 = dview w \/ counted (cm_UserID c) (dview w) (dview w1)) as [Hd|(r & n & _ & _ & _ & Hd)].
    { destruct e; naive_solver. }
    - split; cbn; by rewrite ?Hv1, Hd.
    - split; cbn; rewrite ?Hv1, Hd; [|done]. by eapply coherent_kept; [apply monitors_kept_users|]. }
  destruct e as [e|]; [by apply wp_ret|]. clear He Hc Hvd Hv1. destruct H1 as [Hc Hvd]; cbn in *.
  apply wp_bind, wp_RepoCreate. intros w2 o Hv2 _ ins Ho _. subst ins.
  assert (cache_inv (MkSys w2 p)) as H2.
  { assert (dview w2 = dview w1 \/ exists id, monitors (dview w1) !! id = None /\
      exists r, row_Monitor id r = new_Monitor id true c /\
                dview w2 = set_monitors <[id := r]> (dview w1)) as Hd2.
    { destruct o; naive_solver. }
    destruct Hd2 as [Hd2|(id & Hn & r & Hr & Hd2)]; split; cbn; rewrite Hd2, ?Hv2; [done|done| |].
    - eapply coherent_kept; [by apply monitors_kept_insert|done].
    - intros id' r' b. cbn. destruct (decide (id = id')) as [<-|Hne].
      + rewrite lookup_insert_eq. intros [= <-]. rewrite Hr. apply Hst.
      + rewrite lookup_insert_ne by done. apply Hvd. }
  destruct o as [e|id]; [by apply wp_ret|]. apply (wp_then _ _ (fun _ => inr id)).
  by apply inv_ScheduleMonitor.
Qed.

(** [GetMonitor], under the invariant. *)
Lemma wp_GetMonitor good x u id w p (Φ : error + Monitor -> sys -> Prop) :
  cache_inv (MkSys w p) ->
  (forall w' o, dview w' = dview w -> later w w' -> cache_inv (MkSys w' p) ->
     zsets (rview w') = zsets (rview w) -> hashes (rview w') = hashes (rview w) ->
     match o with
     | inr m => m_UserID m = u /\ agrees (dview w) id m
     | inl e => good = no_fault -> IsKind e NotFound = true /\ forall r, ~ owned (dview w) u id r
     end -> Φ o (MkSys w' p)) ->
  wp good (Service.GetMonitor x u id) (MkSys w p) Φ.
Proof using SL UL.
  intros Hi H. pose proof Hi as [Hc Hvd]. cbn in *. unfold Service.GetMonitor.
  apply wp_bind, wp_getCached_coherent; [done|]. intros w1 o Hv1 Hd1 Hl1 Ho.
  assert (wp good
    (r ← Repository.Get x u id;
     match r with
     | inl err => mret (inl err)
     | inr mDB => Service.cacheMonitor x mDB ;; mret (inr mDB)
     end) (MkSys w1 p) Φ) as Hdb.
  { apply wp_bind, wp_Get. intros w2 [e2|m] Hv2 Hd2 Hl2 Ho2; rewrite Hd1 in *.
    - apply wp_ret, H; [congruence|by etrans|by eapply cache_inv_db; [done|congruence..]|
        congruence|congruence|done].
    - destruct Ho2 as (r & [Hr Hu] & ->).
      apply wp_bind, wp_cacheMonitor_coherent; [congruence|by eapply cache_inv_db; [done|congruence..]|].
      intros w3 e3 Hd3 Hl3 Hi3 Hz3 Hh3. apply wp_ret, H;
        [congruence|by do 2 (etrans; [done|])|done|congruence|congruence|].
      split; [done|]. by apply agrees_row. }
  destruct o as [e|m]; [done|]. case_decide; [|done].
  apply wp_ret, H; [done|done|by eapply cache_inv_db|congruence|congruence|done].
Qed.

Lemma inv_GetAll x u limit offset σ :
  cache_inv σ -> wp any_reply (Service.GetAllMonitors x u limit offset) σ (fun _ σ' => cache_inv σ').
Proof using SL.
  destruct σ as [w p]. intros H. unfold Service.GetAllMonitors, Repository.GetAll.
  apply wp_bind, wp_bind, wp_db. intros w' o Heff Hv _ _. cbn [query_reply db_effect query_spec] in *.
  assert (cache_inv (MkSys w' p)) as H'.
  { eapply cache_inv_db; [done|done|].
    destruct o as [e|l]; [destruct Heff as [|(l & -> & _)]; [done|done]|]. by destruct Heff as [-> _]. }
  destruct o as [e|l]; [by apply wp_ret, wp_ret|]. case_decide; by apply wp_ret, wp_ret.
Qed.

Lemma inv_serve x r σ :
  storable_request r -> cache_inv σ -> wp any_reply (serve x r) σ (fun _ σ' => cache_inv σ').
Proof using SL UL.
  intros Hst Hi. destruct r; cbn [serve].
  all: try apply (wp_then _ _ (fun _ => tt)).
  - by apply inv_CreateMonitor.
  - destruct σ. by apply wp_GetMonitor.
  - by apply inv_GetAll.
  - by apply inv_UpdateMonitorStatus.
  - destruct σ. by apply wp_LoadMonitor.
  - by apply inv_ScheduleMonitor.
Qed.

End Requests.

(** ** Disabling *)

Section Disable.
Context {U : UuidLib} {S : Services} {SL : ServiceLaws S}.

Definition unschedule (id : UUID) (v : redis) : redis :=
  set_zset scheduleKey (delete (uuid_String id) (zset v scheduleKey)) v.

Definition disabled (id : UUID) (v : redis) : redis :=
  del (statusKey id) (del (incidentKey id) (unschedule id (del (cacheKey id) v))).

Lemma wp_disable x id w p (Φ : unit -> sys -> Prop) :
  (forall w', dview w' = dview w -> later w w' -> rview w' = disabled id (rview w) ->
     Φ tt (MkSys w' p)) ->
  wp no_fault (Service.disableMonitor x id) (MkSys w p) Φ.
Proof using SL.
  intros H. unfold Service.disableMonitor. cbn [cache_DelMonitor cache_DelSchedule
    cache_ClearIncident cache_DelStatus redis_cache].
  apply wp_bind, wp_bind, wp_rdb. intros w1 r1 [_ Hv1] Hd1 Hl1. apply wp_ret.
  apply wp_bind, wp_bind, wp_rdb. intros w2 r2 [Hv2 _] Hd2 Hl2. apply wp_ret.
  apply wp_bind. unfold ClearIncident. apply wp_retry_, wp_bind, wp_rdb.
  intros w3 r3 [_ Hv3] Hd3 Hl3. apply wp_ret. split; [done|].
  apply wp_bind, wp_bind, wp_rdb. intros w4 r4 [_ Hv4] Hd4 Hl4. apply wp_ret, wp_ret.
  apply H; [congruence|by do 3 (etrans; [done|])|].
  unfold disabled, unschedule, del. by rewrite Hv4, Hv3, Hv2, Hv1.
Qed.

(** Whatever fails, disabling changes neither the tables nor the process. *)
Lemma wp_disable_any x id w p :
  wp any_reply (Service.disableMonitor x id) (MkSys w p) (fun _ σ' =>
    sp σ' = p /\ dview (sw σ') = dview w).
Proof using SL.
  unfold Service.disableMonitor. cbn [cache_DelMonitor cache_DelSchedule
    cache_ClearIncident cache_DelStatus redis_cache].
  apply wp_bind, wp_bind, wp_redis. intros w1 r1 _ Hd1 _ _. apply wp_ret.
  apply wp_bind, wp_bind, wp_redis. intros w2 r2 _ Hd2 _ _. apply wp_ret.
  apply wp_bind. eapply wp_mono.
  { apply (wp_retry_inv_ x 2 _ _ (fun σ => sp σ = p /\ dview (sw σ) = dview w)).
    - intros [w3 p3] [Hp Hd]. cbn in *. apply wp_bind, wp_redis. intros w4 r4 _ Hd4 _ _.
      apply wp_ret. cbn. split; congruence.
    - intros w3 w4 p3 [Hp Hd] (_ & Hd' & _). cbn in *. split; congruence.
    - cbn. split; congruence. }
  intros ? [w3 p3] [Hp Hd]. cbn in *. apply wp_bind, wp_bind, wp_redis. intros w4 r4 _ Hd4 _ _.
  apply wp_ret, wp_ret. cbn. split; congruence.
Qed.

End Disable.

(** ** The quota *)

Section Quota.

Definition owns (u : UUID) (x : UUID * monitor_row) : Prop := mr_user_id x.2 = u.
#[export] Instance owns_dec u x : Decision (owns u x) := decide (mr_user_id x.2 = u).

(** How many monitors a user has. *)
Definition owned_count (d : database) (u : UUID) : Z := Z.of_nat (size (filter (owns u) (monitors d))).

(** No user has more monitors than were counted, nor more than ten; [slack]
    monitors of [u0] were counted and do not exist yet. *)
Definition quota_slack (u0 : UUID) (slack : Z) (d : database) : Prop :=
  forall u r c, users d !! u = Some r -> u_monitors_count r = Some c ->
  owned_count d u + (if decide (u = u0) then slack else 0) <= c <= 10.

Definition quota_inv (d : database) : Prop :=
  forall u r c, users d !! u = Some r -> u_monitors_count r = Some c -> owned_count d u <= c <= 10.

Lemma quota_slack_weaken u0 n d : 0 <= n -> quota_slack u0 n d -> quota_inv d.
Proof. intros Hn H u r c Hu Hc. specialize (H u r c Hu Hc). case_decide; lia. Qed.

Lemma counted_slack u d d' : quota_inv d -> counted u d d' -> quota_slack u 1 d'.
Proof.
  intros H (r0 & c0 & Hr0 & Hc0 & Hlt & ->) u' r c Hu Hc. cbn in Hu. unfold owned_count. cbn.
  destruct (decide (u' = u)) as [->|Hne].
  - rewrite lookup_insert_eq in Hu. injection Hu as <-. cbn in Hc. injection Hc as <-.
    specialize (H u r0 c0 Hr0 Hc0). unfold owned_count in H. lia.
  - rewrite lookup_insert_ne in Hu by done. specialize (H u' r c Hu Hc).
    unfold owned_count in H. lia.
Qed.

Lemma quota_insert u id r d :
  monitors d !! id = None -> mr_user_id r = u ->
  quota_slack u 1 d -> quota_inv (set_monitors <[id := r]> d).
Proof.
  intros Hn Hu H u' r' c Hu' Hc. cbn in Hu'. specialize (H u' r' c Hu' Hc).
  unfold owned_count in *. cbn. destruct (decide (u' = u)) as [->|Hne].
  - rewrite map_filter_insert_True by done.
    rewrite map_size_insert_None; [lia|]. apply map_lookup_filter_None. by left.
  - rewrite map_filter_insert_False by (unfold owns; cbn; congruence).
    rewrite delete_id by done. lia.
Qed.

Lemma owned_count_enabled id b u u' d d' n :
  sql_update_status id b u d = (d', n) -> owned_count d' u' = owned_count d u'.
Proof.
  unfold sql_update_status, by_id. intros H. destruct (pgu_Valid id); [|by inv_all].
  destruct (monitors d !! pgu_Bytes id) as [r|] eqn:E; [|by inv_all].
  case_decide; inv_all; [|done]. unfold owned_count. cbn. f_equal.
  rewrite <- !(size_dom (D := gset UUID)). f_equal. apply set_eq. intros i.
  rewrite !elem_of_dom. unfold is_Some. split; intros [y Hy];
    apply map_lookup_filter_Some in Hy as [Hy HP].
  - destruct (decide (pgu_Bytes id = i)) as [<-|Hne].
    + rewrite lookup_insert_eq in Hy. injection Hy as <-. exists r.
      by apply map_lookup_filter_Some.
    + rewrite lookup_insert_ne in Hy by done. exists y. by apply map_lookup_filter_Some.
  - destruct (decide (pgu_Bytes id = i)) as [<-|Hne].
    + exists (with_enabled b r). apply map_lookup_filter_Some. rewrite lookup_insert_eq.
      split; [done|]. by assert (y = r) as -> by congruence.
    + exists y. apply map_lookup_filter_Some. by rewrite lookup_insert_ne.
Qed.

Lemma quota_enabled id b u d d' n :
  sql_update_status id b u d = (d', n) -> quota_inv d -> quota_inv d'.
Proof.
  intros H Hq u' r c Hu Hc. rewrite (owned_count_enabled _ _ _ _ _ _ _ H). eapply Hq; [|done].
  revert H. unfold sql_update_status. destruct (by_id _ _); [|by intros [= <- _]].
  case_decide; by intros [= <- _].
Qed.

End Quota.

Section QuotaInv.
Context {U : UuidLib} {S : Services} {SL : ServiceLaws S}.

Definition Quota (σ : sys) : Prop := quota_inv (dview (sw σ)).

(** What does not change the tables keeps the quota. *)
Lemma quota_keep {A} (p : prog A) σ :
  wp any_reply p σ (fun _ σ' => dview (sw σ') = dview (sw σ)) ->
  Quota σ -> wp any_reply p σ (fun _ σ' => Quota σ').
Proof using. intros H Hq. eapply wp_mono; [exact H|]. intros a σ' E. unfold Quota. cbn in E. by rewrite E. Qed.

Lemma quota_CreateMonitor x c σ :
  Quota σ -> wp any_reply (Service.CreateMonitor x c) σ (fun _ σ' => Quota σ').
Proof using SL.
  destruct σ as [w p]. intros Hq. unfold Service.CreateMonitor, Quota in *. cbn in Hq.
  apply wp_bind. cbn [IncrementMonitorCount user_service]. apply wp_IncrementMonitorCount.
  intros w1 e _ _ He _. destruct e as [e|].
  - apply wp_ret. cbn. destruct He as [[->|Hc] _]; [done|].
    apply (quota_slack_weaken (cm_UserID c) 1); [lia|]. by eapply counted_slack.
  - apply (counted_slack _ _ _ Hq) in He. apply wp_bind, wp_RepoCreate.
    intros w2 o _ _ ins Ho _. subst ins.
    assert (quota_inv (dview w2)) as H2.
    { assert (dview w2 = dview w1 \/ exists id r, monitors (dview w1) !! id = None /\
        mr_user_id r = cm_UserID c /\ dview w2 = set_monitors <[id := r]> (dview w1))
        as [->|(id & r & Hn & Hu & ->)].
      { assert (forall i r, row_Monitor i r = new_Monitor i true c -> mr_user_id r = cm_UserID c) as E.
        { intros i r E. exact (f_equal m_UserID E). }
        destruct o as [e|id]; [destruct Ho as [|(id & Hn & _ & r & Hr & _ & Hd)]; [by left|]|
          destruct Ho as (Hn & _ & r & Hr & _ & Hd)]; right; exists id, r; eauto. }
      - by apply (quota_slack_weaken (cm_UserID c) 1).
      - by apply (quota_insert (cm_UserID c)). }
    destruct o as [e|id]; [by apply wp_ret|]. apply (wp_then _ _ (fun _ => inr id)).
    apply quota_keep; [|done].
    eapply wp_mono; [apply wp_ScheduleMonitor_any|]. by intros ? σ' (_ & Hd & _).
Qed.

Lemma quota_UpdateMonitorStatus x u id b σ :
  Quota σ -> wp any_reply (Service.UpdateMonitorStatus x u id b) σ (fun _ σ' => Quota σ').
Proof using SL.
  destruct σ as [w p]. unfold Quota. intros Hq. cbn in Hq. unfold Service.UpdateMonitorStatus.
  apply wp_bind, wp_Get. intros w1 [e|m] _ Hd1 _ Ho; [apply wp_ret; cbn; by rewrite Hd1|].
  case_decide; [apply wp_ret; cbn; by rewrite Hd1|].
  apply wp_bind, wp_SetEnabled. intros w2 e _ _ set He _. subst set. rewrite Hd1 in He.
  assert (quota_inv (dview w2)) as H2.
  { assert (dview w2 = dview w \/ exists r, owned (dview w) u id r /\
      dview w2 = set_monitors <[id := with_enabled b r]> (dview w)) as [->|(r & [Hr Hu] & ->)]
      by (destruct e; auto); [done|].
    eapply (quota_enabled (ToPgUUID id) b (ToPgUUID u) (dview w) _ 1); [|done].
    unfold sql_update_status, by_id. cbn. rewrite Hr. by rewrite decide_True by done. }
  destruct e as [e|]; [by apply wp_ret|]. apply (wp_then _ _ (fun _ => inr true)).
  apply quota_keep; [|done]. destruct b.
  - eapply wp_mono; [apply wp_ScheduleMonitor_any|]. by intros ? σ' (_ & Hd & _).
  - eapply wp_mono; [apply wp_disable_any|]. by intros ? σ' [_ Hd].
Qed.

Lemma dview_GetMonitor x u id w p :
  wp any_reply (Service.GetMonitor x u id) (MkSys w p) (fun _ σ' => dview (sw σ') = dview w).
Proof using SL.
  unfold Service.GetMonitor. apply wp_bind, wp_getCached. intros w1 o Hv1 Hd1 Hl1 _.
  assert (wp any_reply
    (r ← Repository.Get x u id;
     match r with
     | inl err => mret (inl err)
     | inr mDB => Service.cacheMonitor x mDB ;; mret (inr mDB)
     end) (MkSys w1 p) (fun _ σ' => dview (sw σ') = dview w)) as Hdb.
  { apply wp_bind, wp_Get. intros w2 [e2|m] Hv2 Hd2 Hl2 _; [apply wp_ret; cbn; congruence|].
    apply (wp_then _ _ (fun _ => inr m)), wp_cacheMonitor. intros w3 e3 Hd3 _ _ _. cbn. congruence. }
  destruct o as [e|m]; [done|]. case_decide; [by apply wp_ret|done].
Qed.

(** A page of the user's monitors, in the order of their last update. *)
Definition page (u : UUID) (limit offset : Z) (d : database) (ms : list Monitor) : Prop :=
  exists rows, sorted_rows (ToPgUUID u) d rows /\
    ms = (fun x => row_Monitor x.1 x.2) <$> take (Z.to_nat limit) (drop (Z.to_nat offset) rows).

Lemma wp_GetAll good x u limit offset w p (Φ : error + list Monitor -> sys -> Prop) :
  (forall w' o, dview w' = dview w -> rview w' = rview w -> later w w' ->
     match o with
     | inr ms => page u limit offset (dview w) ms
     | inl e => good <> no_fault
     end -> Φ o (MkSys w' p)) ->
  wp good (Service.GetAllMonitors x u limit offset) (MkSys w p) Φ.
Proof using SL.
  intros H. unfold Service.GetAllMonitors, Repository.GetAll.
  apply wp_bind, wp_bind, wp_db. intros w' o Heff Hv Hl Hg. cbn [query_reply db_effect query_spec] in *.
  assert (dview w' = dview w) as Hd.
  { destruct o as [e|l]; [destruct Heff as [|(l & -> & _)]; done|]. by destruct Heff. }
  destruct o as [e|l].
  { apply wp_ret, wp_ret, H; [done..|]. by intros ->. }
  destruct Heff as (_ & _ & _ & rows & Hs & ->).
  assert (page u limit offset (dview w)
    (Repository.to_Monitor <$> ((fun x => monitor_cols x.1 x.2) <$>
      take (Z.to_nat limit) (drop (Z.to_nat offset) rows)))) as Hp.
  { exists rows. split; [done|]. by rewrite <- list_fmap_compose. }
  case_decide as Hn; apply wp_ret, wp_ret, H; try done.
  by apply nil_length_inv in Hn as Hn'; rewrite Hn' in Hp.
Qed.

Lemma dview_GetAll x u limit offset w p :
  wp any_reply (Service.GetAllMonitors x u limit offset) (MkSys w p)
    (fun _ σ' => dview (sw σ') = dview w).
Proof using SL.
  unfold Service.GetAllMonitors, Repository.GetAll.
  apply wp_bind, wp_bind, wp_db. intros w' o Heff _ _ _. cbn [query_reply db_effect query_spec] in *.
  assert (dview w' = dview w) as H.
  { destruct o as [e|l]; [destruct Heff as [|(l & -> & _)]; done|]. by destruct Heff. }
  destruct o as [e|l]; [by apply wp_ret, wp_ret|]. case_decide; by apply wp_ret, wp_ret.
Qed.

Lemma quota_serve x r σ :
  Quota σ -> wp any_reply (serve x r) σ (fun _ σ' => Quota σ').
Proof using SL.
  intros Hi. destruct σ as [w p]. destruct r; cbn [serve].
  all: try apply (wp_then _ _ (fun _ => tt)).
  - by apply quota_CreateMonitor.
  - apply quota_keep; [apply dview_GetMonitor|done].
  - apply quota_keep; [apply dview_GetAll|done].
  - by apply quota_UpdateMonitorStatus.
  - apply quota_keep; [|done]. eapply wp_mono; [apply wp_LoadMonitor_any|]. by intros ? σ' (_ & Hd & _).
  - apply quota_keep; [|done]. eapply wp_mono; [apply wp_ScheduleMonitor_any|].
    by intros ? σ' (_ & Hd & _).
Qed.

End QuotaInv.

(** *** What disabling leaves *)

Section Cleared.
Context {U : UuidLib} {UL : UuidLaws U}.

(** Nothing of a monitor is left but its entry among the jobs in flight and
    its retry counter; nothing else changed. *)
Definition cleared (id : UUID) (v v' : redis) : Prop :=
  strs v' !! cacheKey id = None /\
  zset v' scheduleKey = delete (uuid_String id) (zset v scheduleKey) /\
  hash v' (incidentKey id) = ∅ /\ hash v' (statusKey id) = ∅ /\
  zset v' inflightKey = zset v inflightKey /\
  (forall k, k <> cacheKey id -> k <> incidentKey id -> k <> statusKey id ->
    strs v' !! k = strs v !! k /\ hash v' k = hash v k /\
    (k <> scheduleKey -> zset v' k = zset v k)).

Lemma disabled_cleared id v : cleared id v (disabled id v).
Proof using UL.
  unfold disabled, unschedule, cleared.
  assert (statusKey id <> cacheKey id) by (unfold cacheKey; keys_differ).
  assert (incidentKey id <> cacheKey id) by (unfold cacheKey; keys_differ).
  assert (statusKey id <> incidentKey id) by keys_differ.
  assert (statusKey id <> scheduleKey) by keys_differ.
  assert (incidentKey id <> scheduleKey) by keys_differ.
  assert (cacheKey id <> scheduleKey) by (unfold cacheKey; keys_differ).
  assert (statusKey id <> inflightKey) by keys_differ.
  assert (incidentKey id <> inflightKey) by keys_differ.
  assert (cacheKey id <> inflightKey) by (unfold cacheKey; keys_differ).
  split_and!.
  - rewrite !strs_del. rewrite !decide_False by done. cbn. by rewrite lookup_partial_alter_eq.
  - rewrite !zset_del. rewrite !decide_False by done. by rewrite zset_set_zset_eq.
  - rewrite !hash_del. rewrite decide_False by done. by rewrite decide_True by done.
  - rewrite !hash_del. by rewrite decide_True by done.
  - rewrite !zset_del. rewrite !decide_False by done.
    rewrite zset_set_zset_ne by done. rewrite zset_del. by rewrite decide_False.
  - intros k K1 K2 K3. rewrite !strs_del, !hash_del, !zset_del. rewrite !decide_False by done.
    split; [|split].
    + cbn. by rewrite lookup_partial_alter_ne.
    + rewrite hash_set_zset, hash_del. by rewrite decide_False.
    + intros K4. rewrite zset_set_zset_ne by done. rewrite zset_del. by rewrite decide_False.
Qed.

End Cleared.

(** ** Properties *)

Section Properties.
Context {U : UuidLib} {UL : UuidLaws U}
        {S : Services} {SL : ServiceLaws S}.

(** The outcome of a status update, when nothing fails. *)
Definition status_updated (u id : UUID) (b : bool) (w w' : world) (o : error + bool) : Prop :=
  match o with
  | inl e => IsKind e NotFound = true /\ (forall r, ~ owned (dview w) u id r) /\
             dview w' = dview w /\ rview w' = rview w
  | inr ok => ok = true /\ exists r, owned (dview w) u id r /\
      if decide (mr_enabled r = b) then dview w' = dview w /\ rview w' = rview w
      else dview w' = set_monitors <[id := with_enabled b r]> (dview w) /\
           if b then exists t, gclock w <= t /\
             rview w' = scheduled_at id (t + mr_interval_sec r * Second) (rview w)
           else cleared id (rview w) (rview w')
  end.

Lemma wp_UpdateMonitorStatus x u id b w p (Φ : error + bool -> sys -> Prop) :
  (forall w' o, later w w' -> status_updated u id b w w' o -> Φ o (MkSys w' p)) ->
  wp no_fault (Service.UpdateMonitorStatus x u id b) (MkSys w p) Φ.
Proof using SL UL.
  intros H. unfold Service.UpdateMonitorStatus. apply wp_bind, wp_Get.
  intros w1 [e|m] Hv1 Hd1 Hl1 Ho.
  { destruct (Ho eq_refl) as [He Hno]. by apply wp_ret, H. }
  destruct Ho as (r & [Hr Hu] & ->). change (m_Enabled (row_Monitor id r)) with (mr_enabled r).
  case_decide as Hb.
  { apply wp_ret, H; [done|]. split; [done|]. exists r. by rewrite decide_True. }
  apply wp_bind, wp_SetEnabled. intros w2 e Hv2 Hl2 set He Hnf. subst set.
  destruct (Hnf eq_refl) as [->|Hno]; [|rewrite Hd1 in Hno; by destruct (Hno r)].
  destruct He as (r' & [Hr' _] & Hd2). rewrite Hd1 in *. assert (r' = r) as -> by congruence.
  apply wp_bind. destruct b.
  - apply wp_ScheduleMonitor. intros w3 t Hd3 Hl3 Ht Hv3.
    apply wp_ret, H; [by do 2 (etrans; [done|])|]. split; [done|].
    exists r. rewrite decide_False by done. split; [done|]. split; [congruence|].
    exists t. split; [destruct Hl1, Hl2; lia|]. by rewrite Hv3, Hv2, Hv1.
  - apply wp_disable. intros w3 Hd3 Hl3 Hv3.
    apply wp_ret, H; [by do 2 (etrans; [done|])|]. split; [done|].
    exists r. rewrite decide_False by done. split; [done|]. split; [congruence|].
    rewrite Hv3, Hv2, Hv1. apply disabled_cleared.
Qed.

(** The cache never contradicts the table.  Whatever requests the service
    serves and whatever fails in between, every cached monitor still is the
    row of the table with that identifier, up to the flag [Enabled]. *)
Theorem cache_coherent l w p :
  Forall (fun xr => storable_request xr.2) l ->
  coherent (rview w) (dview w) -> valid_db (dview w) ->
  wp any_reply (serve_all l) (MkSys w p) (fun _ σ' =>
    coherent (rview (sw σ')) (dview (sw σ')) /\ valid_db (dview (sw σ'))).
Proof using SL UL.
  intros Hl Hc Hvd. assert (cache_inv (MkSys w p)) as Hi by done. clear Hc Hvd. revert Hi.
  generalize (MkSys w p) as σ. induction Hl as [|[x r] l Hr Hl IH]; intros σ Hi; cbn [serve_all].
  - apply wp_ret. apply Hi.
  - apply wp_bind. eapply wp_mono; [by apply inv_serve|]. intros ? σ' H'. by apply IH.
Qed.

(** [LoadMonitor], on which the executor relies, gives the row of the
    table for the identifier it was asked for, up to the flag, from the cache
    or not and whatever fails; when nothing fails its only error is NotFound,
    for a monitor that is not in the table. *)
Theorem LoadMonitor_ok good x id w p :
  coherent (rview w) (dview w) -> valid_db (dview w) ->
  wp good (Service.LoadMonitor x id) (MkSys w p) (fun o σ' =>
    sp σ' = p /\ dview (sw σ') = dview w /\
    zsets (rview (sw σ')) = zsets (rview w) /\ hashes (rview (sw σ')) = hashes (rview w) /\
    match o with
    | inr m => m_ID m = id /\ agrees (dview w) id m
    | inl e => good = no_fault -> IsKind e NotFound = true /\ monitors (dview w) !! id = None
    end).
Proof using SL UL.
  intros Hc Hvd. apply wp_LoadMonitor; [done|]. intros w' o Hd _ _ Hz Hh Ho. cbn.
  do 4 (split; [done|]). destruct o as [e|m]; [done|]. split; [|done].
  destruct Ho as (r & _ & Hs). by apply same_settings_fields in Hs as [-> _].
Qed.

(** Isolation of users.  [GetMonitor] gives a user a monitor only if the
    table says that it is theirs, and then with the settings of the table,
    from the cache or not and whatever fails; when nothing fails a user gets
    an error (NotFound) only for a monitor that is not theirs. *)
Theorem GetMonitor_ok good x u id w p :
  coherent (rview w) (dview w) -> valid_db (dview w) ->
  wp good (Service.GetMonitor x u id) (MkSys w p) (fun o σ' =>
    sp σ' = p /\ dview (sw σ') = dview w /\
    match o with
    | inr m => m_UserID m = u /\
               exists r, owned (dview w) u id r /\ same_settings m (row_Monitor id r)
    | inl e => good = no_fault -> IsKind e NotFound = true /\ forall r, ~ owned (dview w) u id r
    end).
Proof using SL UL.
  intros Hc Hvd. apply wp_GetMonitor; [done|]. intros w' o Hd _ _ _ _ Ho. cbn.
  do 2 (split; [done|]). destruct o as [e|m]; [done|].
  destruct Ho as [Hu (r & Hr & Hs)]. split; [done|]. exists r. split; [|done]. split; [done|].
  apply same_settings_fields in Hs as (_ & Hs & _). by rewrite Hu in Hs.
Qed.

(** Two answers that a client cannot tell apart, but for the flag. *)
Definition same_answer (o o' : error + Monitor) : Prop :=
  match o, o' with
  | inr m, inr m' => same_settings m m'
  | inl e, inl e' => IsKind e NotFound = true /\ IsKind e' NotFound = true
  | _, _ => False
  end.

(** C19: the cache is transparent.  When nothing fails, a read through the cache
    answers as the query to the table would have, for a user and for the
    pipeline, whatever the cache holds, as long as it is coherent. *)
Theorem cache_transparent x u id w p :
  coherent (rview w) (dview w) -> valid_db (dview w) ->
  wp no_fault (Service.GetMonitor x u id) (MkSys w p) (fun o _ =>
    wp no_fault (Repository.Get x u id) (MkSys w p) (fun o' _ => same_answer o o')) /\
  wp no_fault (Service.LoadMonitor x id) (MkSys w p) (fun o _ =>
    wp no_fault (Repository.GetByID x id) (MkSys w p) (fun o' _ => same_answer o o')).
Proof using SL UL.
  intros Hc Hvd. split.
  - apply wp_GetMonitor; [done|]. intros w' o _ _ _ _ _ Ho. apply wp_Get. intros w2 o' _ _ _ Ho'.
    destruct o as [e|m], o' as [e'|m']; cbn.
    + by destruct (Ho eq_refl), (Ho' eq_refl).
    + destruct Ho' as (r & Hr & _). destruct (Ho eq_refl) as [_ Hno]. by destruct (Hno r).
    + destruct Ho as [Hu (r & Hr & Hs)]. destruct (Ho' eq_refl) as [_ Hno]. apply (Hno r). split; [done|].
      apply same_settings_fields in Hs as (_ & Hs & _). by rewrite Hu in Hs.
    + destruct Ho as [_ (r & Hr & Hs)], Ho' as (r' & [Hr' _] & ->). by assert (r' = r) as -> by congruence.
  - apply wp_LoadMonitor; [done|]. intros w' o _ _ _ _ _ Ho. apply wp_GetByID. intros w2 o' _ _ _ Ho'.
    destruct o as [e|m], o' as [e'|m']; cbn.
    + by destruct (Ho eq_refl), (Ho' eq_refl).
    + destruct Ho' as (r & Hr & _). destruct (Ho eq_refl). congruence.
    + destruct Ho as (r & Hr & Hs). destruct (Ho' eq_refl). congruence.
    + destruct Ho as (r & Hr & Hs), Ho' as (r' & Hr' & ->). by assert (r' = r) as -> by congruence.
Qed.

(** C25: [UpdateMonitorStatus] when nothing fails.  A user who does not own the
    monitor gets NotFound, and asking for the present state is accepted;
    both change nothing.  Otherwise the flag of the row is set and the monitor
    is scheduled after its interval (enabling), or its schedule entry, cache
    entry, incident and status are removed (disabling); a job that is in
    flight stays in flight. *)
Theorem UpdateMonitorStatus_ok x u id b w p :
  wp no_fault (Service.UpdateMonitorStatus x u id b) (MkSys w p) (fun o σ' =>
    sp σ' = p /\ status_updated u id b w (sw σ') o).
Proof using SL UL. apply wp_UpdateMonitorStatus. intros w' o _ Ho. by split. Qed.

(** Enabling a monitor does not refresh the cache.  If a monitor was read
    while it was disabled, its cache entry says so for as long as it lives:
    after its owner enables it, the table has it enabled and it is scheduled,
    but [LoadMonitor] still returns it disabled, until the entry expires. *)
Theorem enable_keeps_stale_cache x x' u id r m y expiry w p :
  owned (dview w) u id r -> mr_enabled r = false ->
  strs (rview w) !! cacheKey id = Some (y, Some expiry) ->
  json_Unmarshal (rval_text y) = inr m -> m_Enabled m = false ->
  wp no_fault (Service.UpdateMonitorStatus x u id true ;; Service.LoadMonitor x' id) (MkSys w p)
    (fun o σ' =>
      monitors (dview (sw σ')) !! id = Some (with_enabled true r) /\
      is_Some (zset (rview (sw σ')) scheduleKey !! uuid_String id) /\
      (rclock (sw σ') < expiry -> exists m', o = inr m' /\ m_Enabled m' = false)).
Proof using SL UL.
  intros Hr Hen Hy Hm Hme. apply wp_bind, wp_UpdateMonitorStatus.
  intros w1 [e|ok] Hl1 Ho; cbn in Ho; [by destruct Ho as (_ & Hno & _); destruct (Hno r)|].
  destruct Ho as (_ & r' & Hr' & Ho).
  assert (r' = r) as -> by (destruct Hr, Hr'; congruence).
  rewrite Hen in Ho. cbn in Ho. destruct Ho as [Hd1 (t & _ & Hv1)].
  assert (strs (rview w1) = strs (rview w)) as Hs1 by (by rewrite Hv1).
  assert (monitors (dview w1) !! id = Some (with_enabled true r)) as Hrow.
  { rewrite Hd1. cbn. by rewrite lookup_insert_eq. }
  assert (is_Some (zset (rview w1) scheduleKey !! uuid_String id)) as Hsch.
  { rewrite Hv1. unfold scheduled_at. rewrite zset_set_zset_eq, lookup_insert_eq. eauto. }
  unfold Service.LoadMonitor. apply wp_bind, wp_getCached. intros w2 [e|m'] Hv2 Hd2 Hl2 Ho2.
  - assert (expiry <= rclock w2) as Hexp.
    { destruct (decide (expiry <= rclock w2)) as [|Hlt]; [done|].
      destruct (Ho2 eq_refl y m); [|done]. unfold live. rewrite Hs1, Hy. by rewrite decide_True by lia. }
    apply wp_bind, wp_GetByID. intros w3 [e3|m3] Hv3 Hd3 Hl3 Ho3.
    { apply wp_ret. cbn. rewrite Hd3, Hd2, Hv3, Hv2. do 2 (split; [done|]). destruct Hl3; lia. }
    apply wp_bind, wp_cacheMonitor. intros w4 e4 Hd4 Hl4 Hz4 _. apply wp_ret. cbn.
    rewrite Hd4, Hd3, Hd2. split; [done|]. split; [|destruct Hl3, Hl4; lia].
    unfold zset. assert (zsets (rview w4) = zsets (rview w1)) as ->; [|done].
    destruct Hz4 as [->|[t' (data & _ & ->)]]; cbn; congruence.
  - apply wp_ret. cbn. rewrite Hd2, Hv2. do 2 (split; [done|]). intros Hlt.
    destruct Ho2 as (y' & Hy' & Hm'). exists m'. split; [done|].
    unfold live in Hy'. rewrite Hs1, Hy, decide_True in Hy' by done. congruence.
Qed.

(** The outcome of a creation, when nothing fails. *)
Definition monitor_created (c : CreateMonitorCmd) (w w' : world) (o : error + UUID) : Prop :=
  match o with
  | inr id => exists d1 r t, counted (cm_UserID c) (dview w) d1 /\
      monitors (dview w) !! id = None /\ monitor_checks r = true /\
      row_Monitor id r = new_Monitor id true c /\
      dview w' = set_monitors <[id := r]> d1 /\ gclock w <= t /\
      rview w' = scheduled_at id (t + cm_IntervalSec c * Second) (rview w)
  | inl e => IsKind e Forbidden = true /\
      (forall u n, users (dview w) !! cm_UserID c = Some u -> u_monitors_count u = Some n -> 10 <= n) /\
      dview w' = dview w /\ rview w' = rview w
  end.

Lemma wp_CreateMonitor x c w p (Φ : error + UUID -> sys -> Prop) :
  (forall w' o, monitor_created c w w' o -> Φ o (MkSys w' p)) ->
  wp no_fault (Service.CreateMonitor x c) (MkSys w p) Φ.
Proof using SL.
  intros HΦ.
  unfold Service.CreateMonitor. apply wp_bind. cbn [IncrementMonitorCount user_service].
  apply wp_IncrementMonitorCount. intros w1 e Hv1 Hl1 He Hnf. destruct e as [e|].
  { destruct (Hnf eq_refl e eq_refl) as [Hf Hq]. destruct He as [_ He].
    apply wp_ret, HΦ. cbn. auto 10. }
  apply wp_bind, wp_RepoCreate. intros w2 o Hv2 Hl2 ins Ho Hok. subst ins.
  destruct o as [e|id]; [by destruct (Hok eq_refl)|]. destruct Ho as (Hn & _ & r & Hr & Hchk & Hd2).
  apply wp_bind, wp_ScheduleMonitor. intros w3 t Hd3 Hl3 Ht Hv3. apply wp_ret, HΦ.
  exists (dview w1), r, t. split; [done|]. split.
  { destruct He as (? & ? & _ & _ & _ & E). rewrite E in Hn. done. }
  split; [done|]. split; [done|]. cbn. split; [congruence|].
  split; [destruct Hl1, Hl2; lia|]. by rewrite Hv3, Hv2, Hv1.
Qed.

(** [CreateMonitor] when nothing fails.  Under the quota of ten it counts
    one more monitor, inserts a row with the settings that were asked for,
    owned by the user and enabled, and schedules it after its interval; at
    the quota it changes nothing and the error is Forbidden.  (A user that is
    not in the table gets Forbidden as well.) *)
Theorem CreateMonitor_ok x c w p :
  wp no_fault (Service.CreateMonitor x c) (MkSys w p) (fun o σ' =>
    sp σ' = p /\ monitor_created c w (sw σ') o).
Proof using SL. apply wp_CreateMonitor. intros w' o Ho. by split. Qed.

(** The quota is sound.  Whatever requests the service serves and whatever
    fails in between, no user has more monitors than were counted, and no
    count exceeds ten. *)
Theorem quota_sound l w p :
  quota_inv (dview w) ->
  wp any_reply (serve_all l) (MkSys w p) (fun _ σ' => quota_inv (dview (sw σ'))).
Proof using SL.
  intros H. assert (Quota (MkSys w p)) as Hi by done. clear H. revert Hi.
  generalize (MkSys w p) as σ.
  induction l as [|[x r] l IH]; intros σ Hi; cbn [serve_all]; [by apply wp_ret|].
  apply wp_bind. eapply wp_mono; [by apply quota_serve|]. intros ? σ' H'. by apply IH.
Qed.

(** The quota leaks.  A request whose URL is longer than the 2048
    characters of the column is not stopped before the count has gone up: if
    the quota statement succeeds, [CreateMonitor] fails, no monitor exists,
    and the user has one monitor less to create. *)
Theorem CreateMonitor_quota_leak x c w p :
  (2048 < text_length (cm_Url c))%nat ->
  wp (fun cm => match cm with Db (Q_IncrementMonitorCount _) => no_fault cm | _ => any_reply cm end)
    (Service.CreateMonitor x c) (MkSys w p) (fun o σ' =>
    (exists e, o = inl e) /\ monitors (dview (sw σ')) = monitors (dview w) /\
    forall u n, users (dview w) !! cm_UserID c = Some u -> u_monitors_count u = Some n -> n < 10 ->
      exists u', users (dview (sw σ')) !! cm_UserID c = Some u' /\ u_monitors_count u' = Some (n + 1)).
Proof using SL.
  intros Hurl. unfold Service.CreateMonitor, User.Service.IncrementMonitorCount,
    User.Repository.IncrementMonitorCount.
  apply wp_bind, wp_bind, wp_db. intros w1 [e|n] Heff Hv Hl Hg; [done|].
  cbn [db_effect query_spec] in Heff. symmetry in Heff. pose proof Heff as Hinc.
  apply sql_increment_cases in Heff as [[-> (r & k & Hr & Hk & Hlt & Hd1)]|[-> Hd1]].
  - rewrite decide_False by done. apply wp_ret, wp_bind, wp_RepoCreate.
    intros w2 o Hv2 Hl2 ins Ho _. subst ins.
    assert (forall id r, row_Monitor id r = new_Monitor id true c -> monitor_checks r = false) as Hno.
    { intros id r' E. assert (mr_url r' = cm_Url c) as E' by exact (f_equal m_Url E).
      unfold monitor_checks. rewrite E'. by rewrite bool_decide_eq_false_2 by lia. }
    destruct o as [e|id].
    + assert (dview w2 = dview w1) as Hd2.
      { destruct Ho as [|(id & _ & _ & r' & E & E' & _)]; [done|]. by rewrite (Hno id r' E) in E'. }
      apply wp_ret. cbn [sw]. rewrite Hd2, Hd1. cbn. split; [eauto|]. split; [done|].
      intros u m Hu Hm _. rewrite lookup_insert_eq. eexists. split; [done|]. cbn. congruence.
    + destruct Ho as (_ & _ & r' & E & E' & _). by rewrite (Hno id r' E) in E'.
  - rewrite decide_True by done. apply wp_ret, wp_ret. cbn. rewrite Hd1. split; [eauto|].
    split; [done|]. intros u m Hu Hm Hlt. unfold sql_increment, by_id in Hinc. cbn in Hinc.
    rewrite Hu, Hm, decide_True in Hinc by done. congruence.
Qed.

End Properties.

(** ** Witnesses *)

Section Witnesses.
#[local] Existing Instance Hex.lib.
#[local] Existing Instance Hex.laws.
#[local] Existing Instance RefWorld.services.
#[local] Existing Instance RefWorld.laws.

(** A user with one monitor, disabled, that is cached as such. *)
Definition demo_row : monitor_row :=
  MkMonitorRow Demo.owner "https://example.org" (Some "ann@example.org") 60 120 500 200 false Demo.t0.
Definition demo_db : database :=
  MkDatabase {[Demo.owner := MkUserRow "ann" "ann@example.org" "h" (Some 1) (Some false)]}
             {[Demo.uid1 := demo_row]} ∅.
Definition demo_data : string :=
  match json_Marshal (row_Monitor Demo.uid1 demo_row) with inr data => data | inl _ => "" end.
Definition demo_redis : redis :=
  MkRedis ∅ ∅ {[cacheKey Demo.uid1 := (RStr demo_data, Some (Demo.ms0 + 3600000))]}.
Definition demo_world : @world RefWorld.services := RefWorld.start demo_redis demo_db Demo.t0.

Lemma demo_storable id b : storable (set_m_Enabled b (row_Monitor id demo_row)).
Proof. by apply storable_check. Qed.

Lemma demo_Unmarshal : json_Unmarshal demo_data = inr (row_Monitor Demo.uid1 demo_row).
Proof. apply Monitor_roundtrip; [exact (demo_storable _ false)|done]. Qed.

Lemma demo_coherent : coherent (rview demo_world) (dview demo_world).
Proof.
  intros id x o m Hx Hm. cbn in Hx. apply lookup_singleton_Some in Hx as [Hk [= <- <-]].
  apply cacheKey_inj in Hk as <-. cbn [rval_text] in Hm. rewrite demo_Unmarshal in Hm.
  injection Hm as <-. apply agrees_row. apply lookup_singleton_eq.
Qed.

Lemma demo_valid : valid_db (dview demo_world).
Proof. intros id r b Hr. cbn in Hr. apply lookup_singleton_Some in Hr as [_ <-]. apply demo_storable. Qed.

Lemma demo_quota : quota_inv (dview demo_world).
Proof.
  intros u r c Hu Hc. cbn in Hu. apply lookup_singleton_Some in Hu as [<- <-].
  cbn in Hc. injection Hc as <-. unfold owned_count. cbn.
  rewrite map_filter_singleton_True by done. rewrite map_size_singleton. lia.
Qed.

Definition demo_cmd : CreateMonitorCmd :=
  MkCreateMonitorCmd Demo.owner "https://example.com" 60 120 500 200 "ann@example.org".
Definition demo_requests : list (ctx * request) :=
  [(CtxRequest, RCreate demo_cmd); (CtxRequest, RUpdate Demo.owner Demo.uid1 true);
   (CtxApp, RLoad Demo.uid1); (CtxRequest, RGet Demo.owner Demo.uid1);
   (CtxRequest, RUpdate Demo.owner Demo.uid1 false)].

Lemma cache_coherent_witness :
  coherent (rview demo_world) (dview demo_world) /\
  wp any_reply (serve_all demo_requests) (MkSys demo_world RefWorld.proc10) (fun _ σ' =>
    coherent (rview (sw σ')) (dview (sw σ')) /\ valid_db (dview (sw σ'))).
Proof.
  split; [exact demo_coherent|].
  apply cache_coherent; [|exact demo_coherent|exact demo_valid].
  constructor; [by intros id b; apply storable_check|by repeat constructor].
Defined.

Lemma cache_transparent_witness :
  (coherent (rview demo_world) (dview demo_world) /\ valid_db (dview demo_world)) /\
  exists Φ, wp no_fault (Service.GetMonitor CtxRequest Demo.owner Demo.uid1) (MkSys demo_world RefWorld.proc10) Φ.
Proof.
  split; [exact (conj demo_coherent demo_valid)|]. eexists.
  exact (proj1 (cache_transparent CtxRequest Demo.owner Demo.uid1 demo_world RefWorld.proc10
                  demo_coherent demo_valid)).
Defined.

Lemma LoadMonitor_ok_witness :
  (coherent (rview demo_world) (dview demo_world) /\ valid_db (dview demo_world)) /\
  exists Φ, wp no_fault (Service.LoadMonitor CtxApp Demo.uid1) (MkSys demo_world RefWorld.proc10) Φ.
Proof.
  split; [exact (conj demo_coherent demo_valid)|]. eexists.
  apply (LoadMonitor_ok no_fault CtxApp Demo.uid1 demo_world); [exact demo_coherent|exact demo_valid].
Defined.

(** Another user asks for the monitor that is in the cache. *)
Lemma GetMonitor_ok_witness :
  (let '(_, _, q) := run (Service.GetMonitor CtxRequest Demo.uid2 Demo.uid1)
                       (MkSys demo_world RefWorld.proc10) in
   match q with Ret (inl e) => IsKind e NotFound | _ => false end) = true /\
  exists Φ, wp no_fault (Service.GetMonitor CtxRequest Demo.uid2 Demo.uid1)
              (MkSys demo_world RefWorld.proc10) Φ.
Proof.
  split; [vm_compute; reflexivity|]. eexists.
  apply (GetMonitor_ok no_fault CtxRequest Demo.uid2 Demo.uid1 demo_world);
    [exact demo_coherent|exact demo_valid].
Defined.

Lemma UpdateMonitorStatus_ok_witness :
  wp no_fault (Service.UpdateMonitorStatus CtxRequest Demo.owner Demo.uid1 true)
    (MkSys demo_world RefWorld.proc10) (fun o σ' =>
    sp σ' = RefWorld.proc10 /\
    status_updated Demo.owner Demo.uid1 true demo_world (sw σ') o).
Proof. apply UpdateMonitorStatus_ok. Defined.

Lemma enable_keeps_stale_cache_witness :
  owned (dview demo_world) Demo.owner Demo.uid1 demo_row /\
  wp no_fault (Service.UpdateMonitorStatus CtxRequest Demo.owner Demo.uid1 true ;;
               Service.LoadMonitor CtxApp Demo.uid1) (MkSys demo_world RefWorld.proc10)
    (fun o σ' =>
      monitors (dview (sw σ')) !! Demo.uid1 = Some (with_enabled true demo_row) /\
      is_Some (zset (rview (sw σ')) scheduleKey !! uuid_String Demo.uid1) /\
      (rclock (sw σ') < Demo.ms0 + 3600000 -> exists m', o = inr m' /\ m_Enabled m' = false)).
Proof.
  assert (owned (dview demo_world) Demo.owner Demo.uid1 demo_row) as Ho
    by (split; [apply lookup_singleton_eq|reflexivity]).
  split; [exact Ho|].
  apply (enable_keeps_stale_cache CtxRequest CtxApp Demo.owner Demo.uid1 demo_row
           (row_Monitor Demo.uid1 demo_row) (RStr demo_data));
    [exact Ho|reflexivity|apply lookup_singleton_eq|exact demo_Unmarshal|reflexivity].
Defined.

Lemma CreateMonitor_ok_witness :
  (let '(_, _, q) := run (Service.CreateMonitor CtxRequest demo_cmd)
                       (MkSys demo_world RefWorld.proc10) in
   match q with Ret (inr id) => proj1_sig id | _ => 0%N end) = 1001%N /\
  exists Φ, wp no_fault (Service.CreateMonitor CtxRequest demo_cmd)
              (MkSys demo_world RefWorld.proc10) Φ.
Proof. split; [vm_compute; reflexivity|]. eexists. apply CreateMonitor_ok. Defined.

Lemma quota_sound_witness :
  quota_inv (dview demo_world) /\
  wp any_reply (serve_all demo_requests) (MkSys demo_world RefWorld.proc10)
    (fun _ σ' => quota_inv (dview (sw σ'))).
Proof. split; [exact demo_quota|]. apply quota_sound. exact demo_quota. Defined.

(** A URL of 2100 characters. *)
Definition long_url : string := String.string_of_list_ascii (repeat (Ascii.ascii_of_N 97) 2100).
Definition long_cmd : CreateMonitorCmd :=
  MkCreateMonitorCmd Demo.owner long_url 60 120 500 200 "ann@example.org".

Lemma CreateMonitor_quota_leak_witness :
  (2048 < text_length (cm_Url long_cmd))%nat /\
  wp (fun cm => match cm with Db (Q_IncrementMonitorCount _) => no_fault cm | _ => any_reply cm end)
    (Service.CreateMonitor CtxRequest long_cmd) (MkSys demo_world RefWorld.proc10) (fun o σ' =>
    (exists e, o = inl e) /\ monitors (dview (sw σ')) = monitors (dview demo_world) /\
    forall u n, users (dview demo_world) !! cm_UserID long_cmd = Some u ->
      u_monitors_count u = Some n -> n < 10 ->
      exists u', users (dview (sw σ')) !! cm_UserID long_cmd = Some u' /\
                 u_monitors_count u' = Some (n + 1)).
Proof.
  assert (2048 < text_length (cm_Url long_cmd))%nat as H by (apply Nat.ltb_lt; vm_compute; reflexivity).
  split; [exact H|]. apply CreateMonitor_quota_leak. exact H.
Defined.

End Witnesses.
