(* ===== verification/Handlers.v ===== *)
(** * The HTTP API: handlers and routes

    user/handler.go, monitor/handler.go, their routes.go, and
    internals/app/router.go; the requests and responses are in Dto.  A route
    carries its middlewares and its handler; matching a path against the
    patterns is chi's.  The middlewares around all routes are in Middleware,
    but for chi's [Recoverer] and [Timeout]: a request runs to its end.

    The theorems are about every route at once: who is let in, what an error
    tells, and the behaviour of each endpoint on top of the services. *)

From S2P Require Import Prelude AppError Types Redis Postgres Effects Rules Reference RedisStore.
From S2P Require Import Json Decode Security Http Dto User MonitorJSON MonitorSvc.
From stdpp Require Import gmap list strings pretty sorting.
#[local] Open Scope Z_scope.

Definition api_handler : Type := handler data.
Definition api_response : Type := response data.

(** [utils.WriteError(w, http.StatusBadRequest, reqID, apperror.InvalidInput, message)]
    and [return]; the same for a request without a user. *)
Definition bad_request (r : http_request) (message : string) : prog api_response :=
  mret (WriteError StatusBadRequest (rq_ID r) InvalidInput message).
Definition unauthorised (r : http_request) (message : string) : prog api_response :=
  mret (WriteError StatusUnauthorized (rq_ID r) Unauthorised message).

(** ** user/handler.go *)

Module UserHandler.
Section Handlers.
Context {U : UuidLib} {L : JwtLib} {V : Validator} {S : Services}.

Definition Register : api_handler := fun ctx_user r =>
  let reqID := rq_ID r in
  match decode_RegisterRequest (rq_Body r) with
  | inl _ => bad_request r "invalid request body"
  | inr req =>
    match validator_Struct (RegisterRequest_fields req) with
    | Some _ => bad_request r "invalid request body"
    | None =>
      o ← User.Service.Register CtxRequest (MkCreateUserCmd (rg_Name req) (rg_Email req) (rg_Password req));
      match o with
      | inl err => mret (FromAppError reqID err)
      | inr id => mret (WriteJSON StatusCreated reqID "user registered successfully"
                          (RegisterResponse (uuid_String id)))
      end
    end
  end.

Definition LogIn (ts : TokenService) : api_handler := fun ctx_user r =>
  let reqID := rq_ID r in
  match decode_LogInRequest (rq_Body r) with
  | inl _ => bad_request r "invalid request body"
  | inr req =>
    match validator_Struct (LogInRequest_fields req) with
    | Some _ => bad_request r "invalid request body"
    | None =>
      o ← User.Service.LogIn ts CtxRequest (MkLogInUserCmd (li_Email req) (li_Password req));
      match o with
      | inl err => mret (FromAppError reqID err)
      | inr res =>
        let result := LogInResponse (uuid_String (lr_UserID res)) (lr_AccessToken res) in
        mret (WriteJSON StatusOK reqID "user logged in successfully" result)
      end
    end
  end.

Definition GetProfile : api_handler := fun ctx_user r =>
  let reqID := rq_ID r in
  match UserFromContext ctx_user with
  | None => unauthorised r "user unauthorised"
  | Some reqClaims =>
    o ← User.Service.GetProfile CtxRequest (au_UserID reqClaims);
    match o with
    | inl err => mret (FromAppError reqID err)
    | inr user =>
      let u := GetProfileResponse (uuid_String (us_ID user)) (us_Name user) (us_Email user)
                 (us_MonitorsCount user) (us_IsPaidUser user) in
      mret (WriteJSON StatusOK reqID "profile retrieved successfully" u)
    end
  end.

End Handlers.
End UserHandler.

(** ** monitor/handler.go *)

Module MonitorHandler.
Section Handlers.
Context {U : UuidLib} {V : Validator}.

Definition CreateMonitor : api_handler := fun ctx_user r =>
  let reqID := rq_ID r in
  match UserFromContext ctx_user with
  | None => unauthorised r "user Unauthorised"
  | Some reqClaims =>
    match decode_CreateMonitorRequest (rq_Body r) with
    | inl _ => bad_request r "invalid request"
    | inr req =>
      match validator_Struct (CreateMonitorRequest_fields req) with
      | Some _ => bad_request r "invalid request"
      | None =>
        o ← Service.CreateMonitor CtxRequest
              (MkCreateMonitorCmd (au_UserID reqClaims) (cr_Url req) (cr_IntervalSec req)
                 (cr_TimeoutSec req) (cr_LatencyThresholdMs req) (cr_ExpectedStatus req)
                 (cr_AlertEmail req));
        match o with
        | inl err => mret (FromAppError reqID err)
        | inr mID => mret (WriteJSON StatusCreated reqID "monitor created successfully"
                             (CreateMonitorResponse (uuid_String mID)))
        end
      end
    end
  end.

Definition to_response (mon : Monitor) : GetMonitorResponse :=
  MkGetMonitorResponse (uuid_String (m_ID mon)) (m_Url mon) (m_AlertEmail mon) (m_IntervalSec mon)
    (m_TimeoutSec mon) (m_LatencyThresholdMs mon) (m_ExpectedStatus mon) (m_Enabled mon).

Definition GetMonitor : api_handler := fun ctx_user r =>
  let reqID := rq_ID r in
  match UserFromContext ctx_user with
  | None => unauthorised r "user Unauthorised"
  | Some reqClaims =>
    match uuid_Parse (rq_monitorID r) with
    | inl _ => bad_request r "invalid input"
    | inr monitorID =>
      o ← Service.GetMonitor CtxRequest (au_UserID reqClaims) monitorID;
      match o with
      | inl err => mret (FromAppError reqID err)
      | inr mon => mret (WriteJSON StatusOK reqID "monitor retrieved successfully"
                           (D_GetMonitorResponse (to_response mon)))
      end
    end
  end.

Definition GetAllMonitors : api_handler := fun ctx_user r =>
  let reqID := rq_ID r in
  match UserFromContext ctx_user with
  | None => unauthorised r "user Unauthorised"
  | Some reqClaims =>
    match ParseInt32 (rq_limit r) with
    | None => bad_request r "invalid input"
    | Some limit =>
      match ParseInt32 (rq_offset r) with
      | None => bad_request r "invalid input"
      | Some offset =>
        let limit := if decide (limit <= 0) then 10 else limit in
        let offset := if decide (offset <= 0) then 0 else offset in
        o ← Service.GetAllMonitors CtxRequest (au_UserID reqClaims) (int32 limit) (int32 offset);
        match o with
        | inl err => mret (FromAppError reqID err)
        | inr monitors =>
          let resp := GetAllMonitorsResponse (uuid_String (au_UserID reqClaims)) (int32 limit)
                        (int32 offset) (to_response <$> monitors) in
          mret (WriteJSON StatusOK reqID "monitors retrieved successfully" resp)
        end
      end
    end
  end.

Definition UpdateMonitorStatus : api_handler := fun ctx_user r =>
  let reqID := rq_ID r in
  match UserFromContext ctx_user with
  | None => unauthorised r "user Unauthorised"
  | Some reqClaims =>
    match uuid_Parse (rq_monitorID r) with
    | inl _ => bad_request r "invalid input"
    | inr monitorID =>
      match decode_UpdateMonitorStatusRequest (rq_Body r) with
      | inl _ => bad_request r "invalid request"
      | inr req =>
        match validator_Struct (UpdateMonitorStatusRequest_fields req) with
        | Some _ => bad_request r "invalid input"
        | None =>
          o ← Service.UpdateMonitorStatus CtxRequest (au_UserID reqClaims) monitorID (up_Enable req);
          match o with
          | inl err => mret (FromAppError reqID err)
          | inr _ => mret (WriteJSON StatusOK reqID "monitor status updated successfully" (D_string "ok"))
          end
        end
      end
    end
  end.

End Handlers.
End MonitorHandler.

(** ** Routes *)

Inductive method := GET | POST | PATCH.

(** A route: method, pattern, middlewares from the outside in, handler. *)
Record route := MkRoute {
  rt_method : method;
  rt_pattern : string;
  rt_middlewares : list (api_handler -> api_handler);
  rt_handler : api_handler
}.

(** chi's [Mount] puts a prefix before the patterns, [With] a middleware around
    the handlers. *)
Definition Mount (prefix : string) (rs : list route) : list route :=
  (fun r => MkRoute (rt_method r) (prefix +:+ rt_pattern r) (rt_middlewares r) (rt_handler r)) <$> rs.
Definition With (mw : api_handler -> api_handler) (rs : list route) : list route :=
  (fun r => MkRoute (rt_method r) (rt_pattern r) (mw :: rt_middlewares r) (rt_handler r)) <$> rs.

Section Routes.
Context {U : UuidLib} {L : JwtLib} {V : Validator} {S : Services}.

(** user/routes.go *)
Definition user_Routes (ts : TokenService) : list route :=
  [MkRoute POST "/register" [] UserHandler.Register;
   MkRoute POST "/login" [] (UserHandler.LogIn ts)] ++
  With (Handle ts) [MkRoute GET "/get-profile" [] UserHandler.GetProfile].

(** monitor/routes.go *)
Definition monitor_Routes : list route :=
  [MkRoute POST "/" [] MonitorHandler.CreateMonitor;
   MkRoute GET "/" [] MonitorHandler.GetAllMonitors;
   MkRoute GET "/{monitorID}" [] MonitorHandler.GetMonitor;
   MkRoute PATCH "/{monitorID}" [] MonitorHandler.UpdateMonitorStatus].

(** internals/app/router.go *)
Definition RegisterRoutes (ts : TokenService) : list route :=
  Mount "/api/v1"
    (Mount "/users" (user_Routes ts) ++
     With (Handle ts) (Mount "/monitors" monitor_Routes)).

(** A request that chi dispatched to a route. *)
Definition serve_route (rt : route) (r : http_request) : prog api_response :=
  foldr (fun mw h => mw h) (rt_handler rt) (rt_middlewares rt) None r.

End Routes.

(** ** Every reply *)

(** The commands of the API: those that always have a reply, but for scripts
    and for the marks of incidents, which are the pipeline's. *)
Definition served (c : cmd) : Prop :=
  match c with
  | Redis (Call (HSETNX _ _ _)) | Redis (EVAL _ _ _) => False
  | Redis _ | Db _ | TimeNow | AfterOrDone _ _ | CreateHash _ => True
  | _ => False
  end.

(** Whatever the servers reply, [p] runs only such commands, does not panic, and
    returns with [Φ]. *)
Definition returns {A} (p : prog A) (Φ : A -> Prop) : Prop :=
  obeys (Q := unit) (fun _ c => served c) (fun _ _ _ => tt) any_reply p tt (fun a _ => Φ a).

Lemma returns_ret {A} (a : A) (Φ : A -> Prop) : Φ a -> returns (mret a) Φ.
Proof. done. Qed.

Lemma returns_op c (Φ : reply c -> Prop) : served c -> (forall r, Φ r) -> returns (op c) Φ.
Proof. intros Hc H. by apply obeys_op. Qed.

Lemma returns_bind {A B} (p : prog A) (f : A -> prog B) (Φ : A -> Prop) (Ψ : B -> Prop) :
  returns p Φ -> (forall a, Φ a -> returns (f a) Ψ) -> returns (p ≫= f) Ψ.
Proof.
  intros Hp Hf. apply obeys_bind. eapply obeys_mono; [exact Hp|]. intros a [] Ha. by apply Hf.
Qed.

Lemma returns_mono {A} (p : prog A) (Φ Ψ : A -> Prop) :
  returns p Φ -> (forall a, Φ a -> Ψ a) -> returns p Ψ.
Proof. intros Hp H. eapply obeys_mono; [exact Hp|]. intros a q. apply H. Qed.

Lemma returns_any {A B} (p : prog A) (f : A -> prog B) (Ψ : B -> Prop) :
  returns p (fun _ => True) -> (forall a, returns (f a) Ψ) -> returns (p ≫= f) Ψ.
Proof. intros Hp Hf. eapply returns_bind; [exact Hp|]. intros a _. apply Hf. Qed.

Lemma returns_wp {S : Services} {A} (p : prog A) (Φ : A -> Prop) σ :
  returns p Φ -> wp any_reply p σ (fun a _ => Φ a).
Proof.
  unfold returns, obeys, wp. revert σ. induction p as [a|m|c k IH]; intros σ; cbn; [done|done|].
  intros [Hc Hk]. unfold I_exec.
  destruct c; cbn in Hc; try done; cbn [exec]; unfold ext;
    match goal with |- context [let '(_, _) := ?e in _] => destruct e as [w r] end; intros _;
    by apply IH, Hk.
Qed.

Lemma returns_retry {V} x n (fn : V -> prog (V * option error)) v :
  (forall v, returns (fn v) (fun _ => True)) -> returns (retry x fn n v) (fun _ => True).
Proof.
  intros Hfn. unfold retry. generalize 0 as i, (@None error) as err. revert v.
  induction n as [|n IH]; intros v i err; cbn [retry_from]; [by apply returns_ret|].
  apply returns_any; [done|]. intros [v' [e|]]; [|by apply returns_ret].
  apply returns_any; [by apply returns_op|]. intros [ce|]; [by apply returns_ret|apply IH].
Qed.

(** Along the text of a program. *)
Ltac returns :=
  repeat match goal with
  | |- returns (mret _) _ => apply returns_ret; try exact I
  | |- returns (_ ≫= _) _ => apply returns_any; [|intros ?]
  | |- returns (retry _ _ _ _) _ => apply returns_retry; intros ?
  | |- returns (op _) _ => by apply returns_op
  | |- returns (rdb _) _ => by apply returns_op
  | |- returns (match ?x with _ => _ end) _ => destruct x
  | |- _ => progress unfold hgetall, retry_
  end.

Section Messages.
Context {U : UuidLib} {L : JwtLib} {V : Validator} {S : Services}.

(** All that an error response says. *)
Definition public_messages : list string :=
  ["invalid request body"; "invalid request"; "invalid input"; "user unauthorised";
   "user Unauthorised"; "user is unauthorised"; "missing Authorization header";
   "invalid Authorization header"; "invalid token"; "incorrect email or password";
   "user already exists"; "monitor quota exceed"; "resources not found"; "resource not found";
   "request cancelled or timed out"; "internal server error"].

(** kind.go *)
Definition kinds : list Kind :=
  [InvalidInput; AlreadyExists; NotFound; Conflict; Unauthorised; Forbidden; RequestTimeout; Internal;
   Dependency; DatabaseErr].

Definition public_error (e : error) : Prop :=
  match as_AppError e with Some a => e_Message a ∈ public_messages /\ e_Kind a ∈ kinds | None => True end.

Definition public_result {A} (o : error + A) : Prop :=
  match o with inl e => public_error e | inr _ => True end.

(** The response fits its status and, if it is an error, says no more. *)
Definition public_response (r : api_response) : Prop :=
  match rs_Body r with
  | SuccessResponse _ _ _ => rs_Status r = 200 \/ rs_Status r = 201
  | ErrorResponse _ k m => m ∈ public_messages /\ k ∈ kinds /\ rs_Status r = GetHTTPStatus k
  end.

(** It carries the identifier of the request. *)
Definition body_id (b : body data) : string :=
  match b with SuccessResponse id _ _ | ErrorResponse id _ _ => id end.
Definition answers (r : http_request) (rs : api_response) : Prop :=
  body_id (rs_Body rs) = rq_ID r /\ public_response rs.

Lemma public_app k o e m s :
  m ∈ public_messages /\ k ∈ kinds -> public_error (AppError (MkError k o e m s)).
Proof. done. Qed.

Ltac listed := apply (bool_decide_unpack _); vm_compute; exact I.
Ltac public := apply public_app; split; listed.

Lemma public_WrapRepoError o e nf : public_error (WrapRepoError o e nf).
Proof.
  unfold WrapRepoError. destruct (_ || _); [public|]. destruct (_ && _); [public|].
  destruct (as_PgError e); public.
Qed.

Lemma public_FromAppError id e : public_error e -> public_response (FromAppError id e).
Proof.
  unfold public_error, FromAppError. intros H. unfold public_response; cbn.
  destruct (as_AppError e); [by destruct H|]. split; [listed|]. split; [listed|done].
Qed.

Lemma public_bad_request r m : m ∈ public_messages -> returns (bad_request r m) (answers r).
Proof. intros H. apply returns_ret. split; [done|]. split; [done|]. split; [listed|done]. Qed.

Lemma public_unauthorised r m : m ∈ public_messages -> returns (unauthorised r m) (answers r).
Proof. intros H. apply returns_ret. split; [done|]. split; [done|]. split; [listed|done]. Qed.

(** The end of a handler, after the service. *)
Lemma public_service {A} (p : prog (error + A)) r st m d :
  returns p public_result -> st = 200 \/ st = 201 ->
  returns (o ← p; match o with
                  | inl err => mret (FromAppError (rq_ID r) err)
                  | inr a => mret (WriteJSON st (rq_ID r) m (d a))
                  end) (answers r).
Proof.
  intros Hp Hst. eapply returns_bind; [exact Hp|]. intros [e|a] Ha; apply returns_ret; [|done].
  split; [done|by apply public_FromAppError].
Qed.

(** *** The services *)

(** What runs for its effect. *)
Lemma returns_Schedule x m t : returns (Schedule x m t) (fun _ => True).
Proof. unfold Schedule, retry_. returns. Qed.

Lemma returns_ScheduleMonitor x id n o : returns (Service.ScheduleMonitor x id n o) (fun _ => True).
Proof.
  unfold Service.ScheduleMonitor. returns. apply returns_Schedule.
Qed.

Lemma returns_ClearIncident x id : returns (ClearIncident x id) (fun _ => True).
Proof. unfold ClearIncident, retry_. returns. Qed.

Lemma returns_disable x id : returns (Service.disableMonitor x id) (fun _ => True).
Proof.
  unfold Service.disableMonitor. cbn [cache_DelMonitor cache_DelSchedule cache_ClearIncident
    cache_DelStatus redis_cache]. unfold DelMonitor, DelSchedule, DelStatus, retry_.
  returns. apply returns_ClearIncident.
Qed.

Lemma returns_cacheMonitor x m : returns (Service.cacheMonitor x m) (fun _ => True).
Proof. unfold Service.cacheMonitor. cbn [cache_SetMonitor redis_cache]. unfold SetMonitor. returns. Qed.

Lemma returns_getCached x id : returns (Service.getCachedMonitor x id) (fun _ => True).
Proof.
  unfold Service.getCachedMonitor. cbn [cache_GetMonitor redis_cache]. unfold GetMonitor.
  returns.
Qed.

#[local] Hint Resolve returns_Schedule returns_ScheduleMonitor returns_ClearIncident returns_disable
  returns_cacheMonitor returns_getCached : monit.

Lemma public_Register x c : returns (User.Service.Register x c) public_result.
Proof.
  unfold User.Service.Register, HashPassword. eapply returns_bind with (Φ := public_result).
  { returns. public. }
  intros [e|h] He; [by apply returns_ret|]. eapply returns_bind with (Φ := public_result).
  { unfold User.Repository.CreateUser. returns. unfold User.Repository.create_user_error.
    cbn. destruct (_ || _); [public|]. destruct (as_PgError _); [case_decide|]; public. }
  intros [e|id] He'; by apply returns_ret.
Qed.

Lemma public_GetUser x id : returns (User.Service.GetProfile x id) public_result.
Proof.
  unfold User.Service.GetProfile, User.Repository.GetUserByID.
  eapply returns_bind with (Φ := public_result).
  { returns. apply public_WrapRepoError. }
  intros [e|u] He; by apply returns_ret.
Qed.

Lemma public_LogIn ts x c : returns (User.Service.LogIn ts x c) public_result.
Proof.
  unfold User.Service.LogIn, User.Repository.GetUserByEmail.
  eapply returns_bind with (Φ := public_result).
  { returns. apply public_WrapRepoError. }
  intros [e|u] He; [destruct (IsKind _ _); apply returns_ret; [public|done]|].
  destruct (ComparePassword _ _) as [e|[]]; [apply returns_ret; public| |apply returns_ret; public].
  unfold GenerateAccessToken. apply returns_any; [returns|]. intros [e|t]; apply returns_ret; [public|done].
Qed.

Lemma public_Get x u id : returns (MonitorSvc.Repository.Get x u id) public_result.
Proof. unfold MonitorSvc.Repository.Get. returns. apply public_WrapRepoError. Qed.

Lemma public_CreateMonitor x c : returns (Service.CreateMonitor x c) public_result.
Proof.
  unfold Service.CreateMonitor. cbn [IncrementMonitorCount user_service].
  unfold User.Service.IncrementMonitorCount, User.Repository.IncrementMonitorCount.
  eapply returns_bind with (Φ := fun o => match o with Some e => public_error e | None => True end).
  { returns; [apply public_WrapRepoError|public]. }
  intros [e|] He; [by apply returns_ret|]. eapply returns_bind with (Φ := public_result).
  { unfold MonitorSvc.Repository.Create. returns. apply public_WrapRepoError. }
  intros [e|id] He'; [by apply returns_ret|]. apply returns_any; [auto with monit|].
  intros _. by apply returns_ret.
Qed.

Lemma public_GetMonitor x u id : returns (Service.GetMonitor x u id) public_result.
Proof.
  unfold Service.GetMonitor. apply returns_any; [auto with monit|]. intros c.
  assert (returns (r ← MonitorSvc.Repository.Get x u id;
    match r with
    | inl err => mret (inl err)
    | inr mDB => Service.cacheMonitor x mDB ;; mret (inr mDB)
    end) public_result) as Hdb.
  { eapply returns_bind; [apply public_Get|]. intros [e|m] He; [by apply returns_ret|].
    apply returns_any; [auto with monit|]. intros _. by apply returns_ret. }
  destruct c as [e|m]; [done|]. case_decide; [by apply returns_ret|done].
Qed.

Lemma public_GetAllMonitors x u l o : returns (Service.GetAllMonitors x u l o) public_result.
Proof.
  unfold Service.GetAllMonitors. eapply returns_bind with (Φ := public_result).
  { unfold MonitorSvc.Repository.GetAll. returns. apply public_WrapRepoError. }
  intros [e|m] He; by apply returns_ret.
Qed.

Lemma public_UpdateMonitorStatus x u id b : returns (Service.UpdateMonitorStatus x u id b) public_result.
Proof.
  unfold Service.UpdateMonitorStatus. eapply returns_bind; [apply public_Get|].
  intros [e|m] He; [by apply returns_ret|]. case_decide; [by apply returns_ret|].
  eapply returns_bind with (Φ := fun o => match o with Some e => public_error e | None => True end).
  { unfold MonitorSvc.Repository.SetEnabled. returns; [apply public_WrapRepoError|public]. }
  intros [e|] He'; [by apply returns_ret|].
  apply returns_any; [|intros _; by apply returns_ret].
  destruct b; auto with monit.
Qed.

(** *** The handlers and the routes *)

Ltac handler svc :=
  repeat match goal with
  | |- returns (bad_request _ _) _ => apply public_bad_request; listed
  | |- returns (unauthorised _ _) _ => apply public_unauthorised; listed
  | |- returns (match ?x with _ => _ end) _ => destruct x
  end; apply public_service; [apply svc|auto].

Definition public_handler (h : api_handler) : Prop := forall u r, returns (h u r) (answers r).

Lemma public_handlers ts :
  Forall public_handler
    [UserHandler.Register; UserHandler.LogIn ts; UserHandler.GetProfile; MonitorHandler.CreateMonitor;
     MonitorHandler.GetAllMonitors; MonitorHandler.GetMonitor; MonitorHandler.UpdateMonitorStatus].
Proof.
  repeat constructor; intros u r.
  - unfold UserHandler.Register. handler public_Register.
  - unfold UserHandler.LogIn. handler public_LogIn.
  - unfold UserHandler.GetProfile. handler public_GetUser.
  - unfold MonitorHandler.CreateMonitor. handler public_CreateMonitor.
  - unfold MonitorHandler.GetAllMonitors. handler public_GetAllMonitors.
  - unfold MonitorHandler.GetMonitor. handler public_GetMonitor.
  - unfold MonitorHandler.UpdateMonitorStatus. handler public_UpdateMonitorStatus.
Qed.

Lemma public_Handle ts h : public_handler h -> public_handler (Handle ts h).
Proof.
  intros Hh u r. unfold Handle. destruct (extractBearerToken r) as [e|tok] eqn:Et.
  { apply returns_ret. split; [done|]. split; [|split; [listed|done]]. unfold extractBearerToken in Et.
    case_decide; [|destruct (Split _ _) as [|? [|? []]]; try case_decide]; inv_all; listed. }
  eapply returns_bind with (Φ := public_result).
  { unfold ValidateAccessToken. apply returns_any; [by apply returns_op|]. intros now.
    destruct (jwt_ParseWithClaims _ _ _ _) as [e|[c []]]; apply returns_ret; [public|done|public]. }
  intros [e|c] Hc; [apply returns_ret; split; [done|by apply public_FromAppError]|].
  case_decide; [|destruct (uuid_Parse _); [|by apply Hh]];
    (apply returns_ret; split; [done|]; split; [listed|]; split; [listed|done]).
Qed.

Lemma public_route ts rt r : rt ∈ RegisterRoutes ts -> returns (serve_route rt r) (answers r).
Proof.
  pose proof (public_handlers ts) as H. repeat apply Forall_cons in H as [? H].
  intros Hrt. cbn in Hrt. repeat (apply elem_of_cons in Hrt as [->|Hrt]; [cbn [serve_route rt_handler
    rt_middlewares foldr]; first [by auto | by apply public_Handle]|]). by apply elem_of_nil in Hrt.
Qed.

End Messages.

(** ** Properties *)

Section Properties.
Context {U : UuidLib} {UL : UuidLaws U} {L : JwtLib} {LL : JwtLaws L}
        {V : Validator} {VL : ValidatorLaws V}
        {S : Services} {SL : ServiceLaws S}.

(** C26: no endpoint lets internals out.  Whatever the servers reply, every route
    ends with a response, without a panic, that carries the identifier of the
    request; an error response carries one of sixteen fixed messages, never the
    text of an underlying error, one of the ten kinds, and the HTTP status of
    that kind. *)
Theorem errors_are_public ts rt r :
  rt ∈ RegisterRoutes ts -> returns (serve_route rt r) (answers r).
Proof using Type. apply public_route. Qed.

Definition protected (rt : route) : Prop :=
  rt_pattern rt <> "/api/v1/users/register" /\ rt_pattern rt <> "/api/v1/users/login".

Lemma protected_Handle ts rt :
  rt ∈ RegisterRoutes ts -> protected rt ->
  exists h, public_handler h /\ serve_route rt = Handle ts h None.
Proof using Type.
  pose proof (public_handlers ts) as H. repeat apply Forall_cons in H as [? H].
  intros Hrt [Hp1 Hp2]. cbn in Hrt.
  repeat (apply elem_of_cons in Hrt as [->|Hrt]; [by eauto|]). by apply elem_of_nil in Hrt.
Qed.

(** C13: authentication.  Every route but registration and login is served only
    to a request with a token that is valid, and names a user, at a time while
    the request is served; any other request gets 401 and changes nothing. *)
Theorem routes_authenticated ts rt r w p :
  rt ∈ RegisterRoutes ts -> protected rt ->
  wp any_reply (serve_route rt r) (MkSys w p) (fun rs σ' =>
    (exists now u, gclock w <= now <= gclock (sw σ') /\ authenticates ts r now u) \/
    unauthorised_response rs /\ rview (sw σ') = rview w /\ dview (sw σ') = dview w).
Proof using LL SL.
  intros Hrt Hp. destruct (protected_Handle ts rt Hrt Hp) as (h & Hh & ->).
  apply wp_Handle.
  - intros w' now u _ Hn Hu. eapply wp_mono; [by apply wp_later, returns_wp, Hh|]. intros rs σ' [_ [_ Hl]]. left.
    exists now, u. cbn in Hl. split; [lia|done].
  - intros w' now rs (Hv & Hd & _) _ _ Hrs. by right.
Qed.

(** C40: a monitor cannot be disabled over HTTP.  The field [enable] is tagged
    [required], which the validator takes to refuse the zero value: the request
    of an authenticated user with "enable": false is answered 400, for any
    monitor, before the service or a server is called.  Without a user the
    answer is 401, whatever the body says. *)
Theorem disable_request_rejected r req :
  decode_UpdateMonitorStatusRequest (rq_Body r) = inr req -> up_Enable req = false ->
  (forall u, exists k msg,
     MonitorHandler.UpdateMonitorStatus (Some u) r = mret (WriteError 400 (rq_ID r) k msg)) /\
  exists k msg, MonitorHandler.UpdateMonitorStatus None r = mret (WriteError 401 (rq_ID r) k msg).
Proof using VL.
  intros Hreq Hen. unfold MonitorHandler.UpdateMonitorStatus. rewrite Hreq. split.
  - intros a. cbn [UserFromContext]. destruct (uuid_Parse _) as [e|id]; [by do 2 eexists|].
    destruct (validator_Struct _) eqn:E; [by do 2 eexists|].
    eapply (validator_required _ (FBool (up_Enable req)) [T_required]) in E; [|by left|by left].
    cbn in E. congruence.
  - by do 2 eexists.
Qed.

(** A valid request, up to the length of the URL, is one that the table takes. *)
Lemma validated_checks u c r id :
  validator_Struct (CreateMonitorRequest_fields c) = None ->
  row_Monitor id r = new_Monitor id true
    (MkCreateMonitorCmd u (cr_Url c) (cr_IntervalSec c) (cr_TimeoutSec c) (cr_LatencyThresholdMs c)
       (cr_ExpectedStatus c) (cr_AlertEmail c)) ->
  60 <= mr_interval_sec r /\ 120 <= mr_timeout_sec r /\ 0 < mr_latency_threshold_ms r /\
  100 <= mr_expected_status r <= 599 /\
  ((text_length (mr_url r) <= 2048)%nat -> monitor_checks r = true).
Proof using VL.
  intros Hv E. destruct r; injection E; cbn; intros; subst.
  pose proof (fun n m ts => validator_gte _ n m ts Hv) as Hg.
  pose proof (fun n m ts => validator_lte _ n m ts Hv) as Hl.
  pose proof (fun f ts => validator_required _ f ts Hv) as Hr.
  unfold CreateMonitorRequest_fields in *.
  assert (60 <= cr_IntervalSec c) by (eapply Hg; [do 2 right; left|by right; left]).
  assert (120 <= cr_TimeoutSec c) by (eapply Hg; [do 3 right; left|by right; left]).
  assert (0 <= cr_LatencyThresholdMs c) by (eapply Hg; [do 4 right; left|by right; left]).
  assert (cr_LatencyThresholdMs c <> 0) by (apply (Hr (FInt _) [T_required; T_gte 0]); [do 4 right; left|left]).
  assert (100 <= cr_ExpectedStatus c) by (eapply Hg; [do 5 right; left|by right; left]).
  assert (cr_ExpectedStatus c <= 599) by (eapply Hl; [do 5 right; left|by right; right; left]).
  split_and!; [lia..|]. intros Hlen. unfold monitor_checks; cbn. rewrite !bool_decide_eq_true_2 by lia. done.
Qed.

(** The request that a body stands for, if it can be decoded and is valid. *)
Definition accepted (body : string) (req : CreateMonitorRequest) : Prop :=
  decode_CreateMonitorRequest body = inr req /\ validator_Struct (CreateMonitorRequest_fields req) = None.

(** The user is in the table and has room for another monitor. *)
Definition has_quota (d : database) (u : UUID) : Prop :=
  exists r n, users d !! u = Some r /\ u_monitors_count r = Some n /\ n < 10.

(** A request changed nothing on either server. *)
Definition unchanged (w w' : world) : Prop := dview w' = dview w /\ rview w' = rview w.

(** The monitor of a request was created: it is new in the table, owned by the
    user of the token, enabled, with a schedule entry and the settings of the
    body, which are in the bounds of the API; the response names it. *)
Definition created_for (u : AuthenticatedUser) (req : CreateMonitorRequest) (rs : api_response) (w w' : world) : Prop :=
  exists id m,
    (exists i s, rs_Body rs = SuccessResponse i s (CreateMonitorResponse (uuid_String id))) /\
    monitors (dview w) !! id = None /\ monitors (dview w') = <[id := m]> (monitors (dview w)) /\
    row_Monitor id m = new_Monitor id true
      (MkCreateMonitorCmd (au_UserID u) (cr_Url req) (cr_IntervalSec req) (cr_TimeoutSec req)
         (cr_LatencyThresholdMs req) (cr_ExpectedStatus req) (cr_AlertEmail req)) /\
    60 <= mr_interval_sec m /\ 120 <= mr_timeout_sec m /\ 0 < mr_latency_threshold_ms m /\
    100 <= mr_expected_status m <= 599 /\
    is_Some (zset (rview w') scheduleKey !! uuid_String id).

(** C24: creating a monitor over HTTP, when nothing fails.  The response is 400
    exactly for a body that cannot be decoded or breaks a tag, and then nothing
    changes.  For an accepted body it is 201, and the monitor was created, if
    the user has fewer than ten monitors, and 403 without any change if not. *)
Theorem CreateMonitor_endpoint u r w p :
  wp no_fault (MonitorHandler.CreateMonitor (Some u) r) (MkSys w p) (fun rs σ' =>
    ((forall req, ~ accepted (rq_Body r) req) -> rs_Status rs = 400 /\ unchanged w (sw σ')) /\
    (forall req, accepted (rq_Body r) req ->
       (has_quota (dview w) (au_UserID u) -> rs_Status rs = 201 /\ created_for u req rs w (sw σ')) /\
       (~ has_quota (dview w) (au_UserID u) -> rs_Status rs = 403 /\ unchanged w (sw σ')))).
Proof using SL VL.
  unfold MonitorHandler.CreateMonitor, accepted. cbn [UserFromContext].
  destruct (decode_CreateMonitorRequest _) as [e|req] eqn:Ed.
  { apply wp_ret. split; [done|]. by intros req []. }
  destruct (validator_Struct _) eqn:Ev.
  { apply wp_ret. split; [done|]. intros ? [[= <-] ?]. congruence. }
  apply wp_bind, wp_CreateMonitor. intros w' [e|id] Ho; apply wp_ret; cbn in Ho;
    (split; [by intros H; destruct (H req)|]); intros ? [[= <-] _].
  - destruct Ho as (Hk & Hfull & Hd & Hv). split.
    + intros (x & n & Hx & Hn & Hlt). specialize (Hfull x n Hx Hn). lia.
    + intros _. split; [|done]. unfold IsKind in Hk. cbn. destruct (as_AppError e) as [a|]; [|done].
      by apply bool_decide_eq_true in Hk as ->.
  - destruct Ho as (d1 & m & t & (u0 & n & Hu0 & Hn0 & Hlt & Ed1) & Hn & _ & Hm & Hd & _ & Hv).
    split; [|intros []; by exists u0, n]. intros _. split; [done|].
    destruct (validated_checks _ _ _ _ Ev Hm) as (? & ? & ? & ? & _). exists id, m.
    split; [by eexists _, _|]. split; [done|]. cbn. rewrite Hd, Ed1. split; [done|].
    split_and!; try done; try lia.
    rewrite Hv. unfold scheduled_at. rewrite zset_set_zset_eq, lookup_insert_eq. eauto.
Qed.

(** C21: reading a monitor over HTTP.  A response 200 shows a monitor that the
    table says belongs to the user of the token, with its settings, whatever
    fails; when nothing fails, a well-formed identifier gives 200 or 404, and
    404 only for a monitor that is not the user's. *)
Theorem GetMonitor_endpoint good u r id w p :
  uuid_Parse (rq_monitorID r) = inr id ->
  coherent (rview w) (dview w) -> valid_db (dview w) ->
  wp good (MonitorHandler.GetMonitor (Some u) r) (MkSys w p) (fun rs σ' =>
    dview (sw σ') = dview w /\
    match rs_Body rs with
    | SuccessResponse _ _ d => rs_Status rs = 200 /\
        exists m row, d = D_GetMonitorResponse (MonitorHandler.to_response m) /\ m_ID m = id /\
          owned (dview w) (au_UserID u) id row /\ same_settings m (row_Monitor id row)
    | ErrorResponse _ k _ => good = no_fault ->
        rs_Status rs = 404 /\ forall row, ~ owned (dview w) (au_UserID u) id row
    end).
Proof using SL UL.
  intros Hid Hc Hvd. unfold MonitorHandler.GetMonitor. cbn [UserFromContext]. rewrite Hid.
  apply wp_bind, wp_GetMonitor; [done|]. intros w' o Hd _ _ _ _ Ho. destruct o as [e|m]; apply wp_ret;
    (split; [done|]); cbn.
  - intros Hg. destruct (Ho Hg) as [Hk Hno]. split; [|done].
    unfold IsKind in Hk. destruct (as_AppError e) as [a|]; [|done]. by apply bool_decide_eq_true in Hk as ->.
  - split; [done|]. destruct Ho as [Hu (row & Hr & Hs)]. exists m, row.
    pose proof Hs as Hs'. apply same_settings_fields in Hs' as (Hi & Hu' & _).
    split_and!; [done..| |done]. split; [done|]. by rewrite Hu in Hu'.
Qed.

(** C29: listing monitors over HTTP.  The page asked for is a number of rows
    between 1 and 2^31-1 from an offset that is not negative, whatever the
    query says; a response 200 shows that page of the user's own monitors, in
    the order of their last update, and nothing else is ever shown or changed. *)
Theorem GetAllMonitors_endpoint good u r w p :
  wp good (MonitorHandler.GetAllMonitors (Some u) r) (MkSys w p) (fun rs σ' =>
    dview (sw σ') = dview w /\ rview (sw σ') = rview w /\
    match rs_Body rs with
    | SuccessResponse _ _ d => rs_Status rs = 200 /\ exists limit offset ms,
        d = GetAllMonitorsResponse (uuid_String (au_UserID u)) limit offset
              (MonitorHandler.to_response <$> ms) /\
        1 <= limit < 2 ^ 31 /\ 0 <= offset < 2 ^ 31 /\ Z.of_nat (length ms) <= limit /\
        page (au_UserID u) limit offset (dview w) ms /\
        Forall (fun m => m_UserID m = au_UserID u) ms
    | ErrorResponse _ _ _ => good = no_fault ->
        rs_Status rs = 400 /\ (ParseInt32 (rq_limit r) = None \/ ParseInt32 (rq_offset r) = None)
    end).
Proof using SL.
  unfold MonitorHandler.GetAllMonitors. cbn [UserFromContext].
  destruct (ParseInt32 (rq_limit r)) as [limit|] eqn:El; [|apply wp_ret; cbn; auto].
  destruct (ParseInt32 (rq_offset r)) as [offset|] eqn:Eo; [|apply wp_ret; cbn; auto].
  apply ParseInt32_bounds in El, Eo.
  assert (exists l, (if decide (limit <= 0) then 10 else limit) = l /\ 1 <= l < 2 ^ 31) as (l & -> & Hl)
    by (case_decide; eexists; (split; [done|lia])).
  assert (exists o, (if decide (offset <= 0) then 0 else offset) = o /\ 0 <= o < 2 ^ 31) as (o & -> & Ho)
    by (case_decide; eexists; (split; [done|lia])).
  rewrite !int32_id by (unfold is_int32; lia).
  apply wp_bind, wp_GetAll. intros w' [e|ms] Hd Hv _ Hms; apply wp_ret; (split; [done|]); (split; [done|]);
    cbn; [done|]. split; [done|]. exists l, o, ms. split; [done|]. split; [done|]. split; [done|].
  pose proof Hms as (rows & [Hp _] & E). split; [|split; [done|]].
  - rewrite E, length_fmap, length_take. lia.
  - rewrite E, Forall_fmap. apply Forall_take, Forall_drop. rewrite Hp. apply Forall_forall.
    intros [i row] Hin. apply elem_of_map_to_list, map_lookup_filter_Some in Hin as [_ [_ Hu]]. done.
Qed.

(** [GET /users/get-profile] with a bearer token. *)
Definition with_token (tok : string) (r : http_request) : http_request :=
  MkRequest (rq_ID r) ("Bearer " +:+ tok) (rq_Body r) (rq_monitorID r) (rq_limit r) (rq_offset r).

Lemma bearer_token tok r :
  contains space tok = false -> Split space (rq_Authorization (with_token tok r)) = ["Bearer"; tok].
Proof using Type.
  intros H. change (rq_Authorization (with_token tok r)) with ("Bearer" +:+ String space tok).
  by rewrite Split_app, Split_single.
Qed.

(** A session: log in, then ask for the profile with the token. *)
Definition login_and_profile (ts : TokenService) (r1 r2 : http_request) : prog (option (string * api_response)) :=
  l ← UserHandler.LogIn ts None r1;
  match rs_Body l with
  | SuccessResponse _ _ (LogInResponse id tok) =>
      rs ← Handle ts UserHandler.GetProfile None (with_token tok r2); mret (Some (id, rs))
  | _ => mret None
  end.

(** What [GET /users/get-profile] shows of a user. *)
Definition shows_profile (d : database) (id : UUID) (rs : api_response) : Prop :=
  rs_Status rs = 200 /\ exists row i s n b, users d !! id = Some row /\
    rs_Body rs = SuccessResponse i s (GetProfileResponse (uuid_String id) (u_name row) (u_email row) n b).

Lemma wp_GetProfile u0 r id row w p (Φ : api_response -> sys -> Prop) :
  au_UserID u0 = id -> users (dview w) !! id = Some row ->
  (forall w' rs, dview w' = dview w -> later w w' -> shows_profile (dview w) id rs -> Φ rs (MkSys w' p)) ->
  wp no_fault (UserHandler.GetProfile (Some u0) r) (MkSys w p) Φ.
Proof using SL.
  intros Hid Hrow H. unfold UserHandler.GetProfile, User.Service.GetProfile, User.Repository.GetUserByID.
  cbn [UserFromContext]. rewrite Hid. apply wp_bind, wp_bind, wp_bind, wp_db.
  intros w' [e|o] Heff Hv Hl Hg; [done|]. cbn in Heff. destruct Heff as [-> Hd]. unfold by_id. cbn.
  rewrite Hrow. cbn. apply wp_ret, wp_ret, wp_ret, H; [done|done|]. split; [done|].
  exists row. by repeat eexists.
Qed.

(** C23: a session.  When the login succeeds it names the account that has the
    email and the password of the request, and the token gives that user's
    profile for as long as its time to live, counted from the start of the
    session, has not ended. *)
Theorem login_then_profile ts r1 r2 req w p :
  decode_LogInRequest (rq_Body r1) = inr req ->
  wp no_fault (login_and_profile ts r1 r2) (MkSys w p) (fun o σ' =>
    dview (sw σ') = dview w /\
    match o with
    | None => True
    | Some (sid, rs) => exists id, sid = uuid_String id /\
        account (dview w) (li_Email req) (li_Password req) id /\
        (gclock (sw σ') < Unix (gclock w + ts_tokenTTL ts) * Second -> shows_profile (dview w) id rs)
    end).
Proof using SL LL UL VL.
  intros Hreq. unfold login_and_profile, UserHandler.LogIn. rewrite Hreq. apply wp_bind.
  destruct (validator_Struct _) eqn:Ev; [by apply wp_ret, wp_ret|].
  assert (li_Email req <> "") as Hne.
  { apply (validator_required _ (FString (li_Email req)) [T_required; T_email] Ev); left. }
  apply wp_bind, wp_LogIn. cbn [lu_Email lu_Password]. intros w1 [e|[id tok]] _ Hd1 Hl1 Ho.
  { by apply wp_ret, wp_ret. }
  destruct Ho as (Hacc & now & Hn & Hsp & Htok). cbn [lr_UserID lr_AccessToken] in *.
  apply wp_ret. cbn [rs_Body WriteJSON lr_UserID lr_AccessToken]. apply wp_bind, wp_Handle.
  - intros w2 now' u (_ & Hd2 & Hl2) Hn' (tok' & c & Hs & Hv & _ & _ & _ & Hpu).
    rewrite bearer_token in Hs by done. injection Hs as <-.
    pose proof (proj1 (Htok (Unix (now + ts_tokenTTL ts) * Second - 1)) ltac:(lia)) as Hi.
    pose proof (token_valid_fun _ _ _ _ _ _ Hv Hi) as ->. cbn in Hpu. rewrite uuid_Parse_String in Hpu.
    injection Hpu as Hpu. destruct Hacc as (row & Hrow & Hacc).
    eapply wp_GetProfile; [done|by rewrite Hd2, Hd1|]. intros w3 rs Hd3 Hl3 Hrs. apply wp_ret.
    split; [cbn; congruence|]. exists id. split; [done|]. split; [by exists row|]. intros _.
    by rewrite Hd2, Hd1 in Hrs.
  - intros w2 now' rs (_ & Hd2 & Hl2) Hn' Hno Hrs. apply wp_ret. split; [cbn; congruence|].
    exists id. split; [done|]. split; [done|]. cbn. intros Hlt. exfalso.
    assert (Unix (gclock w + ts_tokenTTL ts) <= Unix (now + ts_tokenTTL ts)) as Hle
      by (apply Z.div_le_mono; unfold Second; lia).
    assert (now' < Unix (now + ts_tokenTTL ts) * Second) as Hlt' by (unfold Second in *; lia).
    apply Htok in Hlt'. eapply (Hno (MkAuthenticatedUser id (coerce (li_Email req)))).
    exists tok. eexists. rewrite bearer_token by done. split; [done|]. split; [exact Hlt'|]. cbn.
    rewrite uuid_Parse_String. split_and!; try done; [|by apply coerce_nonempty].
    intros E. pose proof (uuid_String_length id) as Hlen. by rewrite E in Hlen.
Qed.

(** The unique constraint on the email is violated; nothing else fails. *)
Definition unique_violation (c : cmd) : reply c -> Prop :=
  match c return reply c -> Prop with
  | Db (Q_CreateUser _ _ _) => fun o => o = inl (PgError "23505")
  | c => no_fault c
  end.

(** A taken email is answered 500.  The repository turns the violation of
    the unique constraint into the kind already_exist, which has no case in
    [GetHTTPStatus]: the response to registering an email twice has the
    status of an internal error instead of a conflict. *)
Theorem duplicate_email_is_500 u r req w p :
  decode_RegisterRequest (rq_Body r) = inr req ->
  validator_Struct (RegisterRequest_fields req) = None ->
  wp unique_violation (UserHandler.Register u r) (MkSys w p) (fun rs σ' =>
    rs = WriteError 500 (rq_ID r) AlreadyExists "user already exists").
Proof using SL.
  intros Hreq Hv. unfold UserHandler.Register, User.Service.Register, HashPassword. rewrite Hreq, Hv.
  apply wp_bind, wp_bind, wp_bind, wp_create_hash. intros w1 [e|h] _ _ Hg; [done|].
  apply wp_ret, wp_bind, wp_bind, wp_db. intros w2 o _ _ _ Ho. cbn in Ho. subst o.
  by apply wp_ret, wp_ret, wp_ret.
Qed.

End Properties.

(** ** Witnesses *)

(** A validator that checks the tags, and bodies that name a request. *)
Module RefAPI.

Definition check_tag (f : field) (t : tag) : bool :=
  match t, f with
  | T_required, FString s => bool_decide (s <> "")
  | T_required, FInt n => bool_decide (n <> 0)
  | T_required, FBool b => b
  | T_gte m, FInt n => bool_decide (m <= n)
  | T_lte m, FInt n => bool_decide (n <= m)
  | T_gte m, FString s => bool_decide (m <= Z.of_nat (text_length s))
  | T_lte m, FString s => bool_decide (Z.of_nat (text_length s) <= m)
  | _, _ => true
  end.

#[export] Instance validator : Validator := {
  validator_Struct fs :=
    if forallb (fun x => forallb (check_tag x.1) x.2) fs then None else Some (OtherError "validation failed")
}.

Lemma validator_tag fs f ts t :
  validator_Struct fs = None -> (f, ts) ∈ fs -> t ∈ ts -> check_tag f t = true.
Proof.
  cbn. destruct (forallb _ fs) eqn:E; [|done]. intros _ Hf Ht.
  apply forallb_forall with (x := (f, ts)) in E; [|by apply list_elem_of_In].
  apply forallb_forall with (x := t) in E; [done|by apply list_elem_of_In].
Qed.

#[export] Instance validator_laws : ValidatorLaws validator.
Proof.
  split; intros fs.
  - intros f ts H Hf Ht. pose proof (validator_tag _ _ _ _ H Hf Ht) as E.
    destruct f; cbn in *; try done; by apply bool_decide_eq_true in E.
  - intros n m ts H Hf Ht. pose proof (validator_tag _ _ _ _ H Hf Ht) as E. by apply bool_decide_eq_true in E.
  - intros n m ts H Hf Ht. pose proof (validator_tag _ _ _ _ H Hf Ht) as E. by apply bool_decide_eq_true in E.
Qed.

(** Bodies of requests. *)
Definition login_body : string :=
  print (JObject [("email", JString "ada@example.com"); ("password", JString "correct horse")]).
Definition register_body : string :=
  print (JObject [("name", JString "ada"); ("email", JString "ada@example.com");
                  ("password", JString "correct horse")]).
Definition create_body : string :=
  print (JObject [("url", JString "https://example.com"); ("alert_email", JString "a@b.c");
                  ("interval_sec", JInt 60); ("timeout_sec", JInt 120);
                  ("latency_threshold_ms", JInt 500); ("expected_status", JInt 200)]).
Definition disable_body : string := print (JObject [("enable", JBool false)]).

End RefAPI.

Section Witnesses.
#[local] Existing Instance Hex.lib.
#[local] Existing Instance Hex.laws.
#[local] Existing Instance RefWorld.services.
#[local] Existing Instance RefWorld.laws.
#[local] Existing Instance RefJwt.lib.
#[local] Existing Instance RefJwt.laws.
#[local] Existing Instance RefAPI.validator.
#[local] Existing Instance RefAPI.validator_laws.

Definition request_with (body : string) : http_request :=
  MkRequest "req-1" "" body (uuid_String Demo.uid1) "20" "0".
Definition demo_request : http_request := request_with RefAPI.disable_body.
Definition demo_user : AuthenticatedUser := MkAuthenticatedUser Demo.owner "ada@example.com".
Definition demo_sys : sys := MkSys demo_world RefWorld.proc10.

(** Status of the response of a run. *)
Definition status_of (q : prog api_response) : Z := match q with Ret rs => rs_Status rs | _ => 0 end.

Definition patch_route : route :=
  MkRoute PATCH "/api/v1/monitors/{monitorID}" [Handle demo_ts] MonitorHandler.UpdateMonitorStatus.

Lemma patch_route_in : patch_route ∈ RegisterRoutes demo_ts.
Proof. cbn. do 6 right. left. Qed.

Lemma errors_are_public_witness :
  status_of (run (serve_route patch_route demo_request) demo_sys).2 = 401 /\
  returns (serve_route patch_route demo_request) (answers demo_request).
Proof.
  split; [vm_compute; reflexivity|].
  exact (errors_are_public demo_ts patch_route demo_request patch_route_in).
Defined.

Lemma routes_authenticated_witness :
  protected patch_route /\
  exists Φ, wp any_reply (serve_route patch_route demo_request) demo_sys Φ.
Proof.
  assert (protected patch_route) as H by (split; discriminate).
  split; [exact H|]. eexists.
  exact (routes_authenticated demo_ts patch_route demo_request demo_world RefWorld.proc10 patch_route_in H).
Defined.

Lemma disable_request_rejected_witness :
  status_of (run (MonitorHandler.UpdateMonitorStatus (Some demo_user) demo_request) demo_sys).2 = 400 /\
  exists k msg, MonitorHandler.UpdateMonitorStatus (Some demo_user) demo_request =
    mret (WriteError 400 (rq_ID demo_request) k msg).
Proof.
  split; [vm_compute; reflexivity|].
  apply (proj1 (disable_request_rejected demo_request (MkUpdateMonitorStatusRequest false)
    ltac:(vm_compute; reflexivity) eq_refl) demo_user).
Defined.

Lemma CreateMonitor_endpoint_witness :
  status_of (run (MonitorHandler.CreateMonitor (Some demo_user) (request_with RefAPI.create_body)) demo_sys).2 = 201 /\
  exists Φ, wp no_fault (MonitorHandler.CreateMonitor (Some demo_user) (request_with RefAPI.create_body)) demo_sys Φ.
Proof.
  split; [vm_compute; reflexivity|]. eexists.
  exact (CreateMonitor_endpoint demo_user (request_with RefAPI.create_body) demo_world RefWorld.proc10).
Defined.

Lemma GetMonitor_endpoint_witness :
  status_of (run (MonitorHandler.GetMonitor (Some demo_user) demo_request) demo_sys).2 = 200 /\
  exists Φ, wp any_reply (MonitorHandler.GetMonitor (Some demo_user) demo_request) demo_sys Φ.
Proof.
  split; [vm_compute; reflexivity|]. eexists.
  apply (GetMonitor_endpoint any_reply demo_user demo_request Demo.uid1 demo_world RefWorld.proc10).
  - apply uuid_Parse_String.
  - exact demo_coherent.
  - exact demo_valid.
Defined.

Lemma GetAllMonitors_endpoint_witness :
  status_of (run (MonitorHandler.GetAllMonitors (Some demo_user) demo_request) demo_sys).2 = 200 /\
  exists Φ, wp no_fault (MonitorHandler.GetAllMonitors (Some demo_user) demo_request) demo_sys Φ.
Proof.
  split; [vm_compute; reflexivity|]. eexists.
  exact (GetAllMonitors_endpoint no_fault demo_user demo_request demo_world RefWorld.proc10).
Defined.

(** The session of a registered user. *)
Lemma login_then_profile_witness :
  match (run (login_and_profile demo_ts (request_with RefAPI.login_body) (request_with RefAPI.login_body)) (MkSys users_world RefWorld.proc10)).2 with
  | Ret (Some (_, rs)) => rs_Status rs | _ => 0 end = 200 /\
  exists Φ, wp no_fault (login_and_profile demo_ts (request_with RefAPI.login_body) (request_with RefAPI.login_body))
              (MkSys users_world RefWorld.proc10) Φ.
Proof.
  split; [vm_compute; reflexivity|]. eexists.
  apply (login_then_profile demo_ts (request_with RefAPI.login_body) (request_with RefAPI.login_body) (MkLogInRequest "ada@example.com" "correct horse")
           users_world RefWorld.proc10).
  vm_compute. reflexivity.
Defined.

(** The email of the request is that of the user in the table. *)
Lemma duplicate_email_is_500_witness :
  status_of (run (UserHandler.Register None (request_with RefAPI.register_body)) (MkSys users_world RefWorld.proc10)).2 = 500 /\
  exists Φ, wp unique_violation (UserHandler.Register None (request_with RefAPI.register_body))
              (MkSys users_world RefWorld.proc10) Φ.
Proof.
  split; [vm_compute; reflexivity|]. eexists.
  apply (duplicate_email_is_500 None (request_with RefAPI.register_body) (MkRegisterRequest "ada" "ada@example.com" "correct horse")
           users_world RefWorld.proc10); vm_compute; reflexivity.
Defined.

End Witnesses.
