(* ===== verification/Api.v ===== *)
(** * The API as a whole

    Theorems about every request to every route, from the bytes of its body to
    the bytes of the response: the cache stays coherent with the table without
    any assumption about the requests, since what the decoder lets through can
    be cached; and what is written can be read back. *)

From S2P Require Import Prelude AppError Types Redis Postgres Effects Rules Reference RedisStore.
From S2P Require Import Json Decode Security Http Dto User MonitorJSON MonitorSvc Handlers.
From stdpp Require Import gmap list strings pretty sorting.
#[local] Open Scope Z_scope.

(** ** Families of programs that contain every route *)

(** A statement that may insert a monitor. *)
Definition inserts_monitor (q : query) : Prop := match q with Q_CreateMonitor _ => True | _ => False end.

Section Closed.
Context {U : UuidLib} {L : JwtLib} {V : Validator} {S : Services}.
Context (P : forall A, prog A -> Prop).
Arguments P {A}.

(** A family of programs that is closed under sequencing and contains what the
    handlers call. *)
Record closed : Prop := {
  closed_ret {A} (a : A) : P (mret a);
  closed_bind {A B} (p : prog A) (f : A -> prog B) : P p -> (forall a, P (f a)) -> P (p ≫= f);
  closed_now : P (op TimeNow);
  closed_hash s : P (op (CreateHash s));
  closed_query q : ~ inserts_monitor q -> P (op (Db q));
  closed_create x c : storable_request (RCreate c) -> P (Service.CreateMonitor x c);
  closed_update x u id b : P (Service.UpdateMonitorStatus x u id b);
  closed_get x u id : P (Service.GetMonitor x u id)
}.

(** What was decoded can be cached. *)
Lemma decoded_storable body req u :
  decode_CreateMonitorRequest body = inr req ->
  storable_request (RCreate (MkCreateMonitorCmd u (cr_Url req) (cr_IntervalSec req) (cr_TimeoutSec req)
    (cr_LatencyThresholdMs req) (cr_ExpectedStatus req) (cr_AlertEmail req))).
Proof. intros (?&?&?&?&?&?)%decode_create_typed id b. by apply storable_intro. Qed.

Context (HP : closed).

(** Along the text of a program. *)
Ltac closed :=
  repeat match goal with
  | |- P (mret _) => apply (closed_ret HP)
  | |- P (_ ≫= _) => apply (closed_bind HP); [|intros ?]
  | |- P (op TimeNow) => apply (closed_now HP)
  | |- P (op (CreateHash ?s)) => apply (closed_hash HP s)
  | |- P (op (Db ?q)) => apply (closed_query HP q); exact (fun H => H)
  | |- P (Service.UpdateMonitorStatus _ _ _ _) => apply (closed_update HP)
  | |- P (Service.CreateMonitor _ _) => apply (closed_create HP)
  | |- P (Service.GetMonitor _ _ _) => apply (closed_get HP)
  | |- P (match ?x with _ => _ end) => destruct x eqn:?
  | |- _ => progress cbv zeta
  end.

Lemma closed_Register u r : P (UserHandler.Register u r).
Proof using HP.
  unfold UserHandler.Register, bad_request, User.Service.Register, HashPassword, User.Repository.CreateUser.
  closed.
Qed.

Lemma closed_LogIn ts u r : P (UserHandler.LogIn ts u r).
Proof using HP.
  unfold UserHandler.LogIn, bad_request, User.Service.LogIn, User.Repository.GetUserByEmail, GenerateAccessToken.
  closed.
Qed.

Lemma closed_GetProfile u r : P (UserHandler.GetProfile u r).
Proof using HP.
  unfold UserHandler.GetProfile, unauthorised, User.Service.GetProfile, User.Repository.GetUserByID. closed.
Qed.

Lemma closed_CreateMonitor u r : P (MonitorHandler.CreateMonitor u r).
Proof using HP.
  unfold MonitorHandler.CreateMonitor, unauthorised, bad_request. closed. by eapply decoded_storable.
Qed.

Lemma closed_GetMonitor u r : P (MonitorHandler.GetMonitor u r).
Proof using HP. unfold MonitorHandler.GetMonitor, unauthorised, bad_request. closed. Qed.

Lemma closed_GetAllMonitors u r : P (MonitorHandler.GetAllMonitors u r).
Proof using HP.
  unfold MonitorHandler.GetAllMonitors, unauthorised, bad_request, Service.GetAllMonitors,
    MonitorSvc.Repository.GetAll. closed.
Qed.

Lemma closed_UpdateMonitorStatus u r : P (MonitorHandler.UpdateMonitorStatus u r).
Proof using HP.
  unfold MonitorHandler.UpdateMonitorStatus, unauthorised, bad_request. closed.
Qed.

Lemma closed_Handle ts (next : api_handler) u r :
  (forall u, P (next u r)) -> P (Handle ts next u r).
Proof using HP. intros Hn. unfold Handle, ValidateAccessToken. closed. apply Hn. Qed.

Lemma closed_route ts rt r : rt ∈ RegisterRoutes ts -> P (serve_route rt r).
Proof using HP.
  intros Hin. cbn in Hin. repeat (apply elem_of_cons in Hin as [->|Hin]);
    [| | | | | | |by apply not_elem_of_nil in Hin]; unfold serve_route; cbn [rt_middlewares rt_handler foldr].
  - apply closed_Register.
  - apply closed_LogIn.
  - apply closed_Handle. intros u. apply closed_GetProfile.
  - apply closed_Handle. intros u. apply closed_CreateMonitor.
  - apply closed_Handle. intros u. apply closed_GetAllMonitors.
  - apply closed_Handle. intros u. apply closed_GetMonitor.
  - apply closed_Handle. intros u. apply closed_UpdateMonitorStatus.
Qed.

End Closed.

(** ** Every route keeps the cache coherent *)

(** A row that is inserted can be cached. *)
Definition storable_query (q : query) : Prop :=
  match q with
  | Q_CreateMonitor p => forall id b at_, storable (set_m_Enabled b (row_Monitor id (created_row p at_)))
  | _ => True
  end.

Section Coherent.
Context {U : UuidLib} {UL : UuidLaws U} {L : JwtLib} {V : Validator} {S : Services} {SL : ServiceLaws S}.

(** Every statement keeps the monitors, but for their flags, and adds only some
    that can be cached. *)
Lemma query_kept q d d' r :
  storable_query q -> query_spec q d d' r -> valid_db d -> monitors_kept d d' /\ valid_db d'.
Proof.
  intros Hq Hs Hv. assert (monitors d' = monitors d -> monitors_kept d d' /\ valid_db d') as Hsame.
  { intros E. split; [|intros id x b; rewrite E; apply Hv].
    intros id m (x & Hx & Hm). exists x. by rewrite E. }
  destruct q; cbn in Hs.
  - apply Hsame. by destruct Hs as (_ & _ & _ & ->).
  - apply Hsame. by destruct Hs as [_ ->].
  - apply Hsame. by destruct Hs as [-> _].
  - apply Hsame. unfold sql_increment in Hs. repeat case_match; by simplify_eq.
  - destruct Hs as (_ & Hn & _ & at_ & _ & ->). split; [by apply monitors_kept_insert|].
    intros id x b. cbn. destruct (decide (pgu_Bytes r = id)) as [<-|Hne].
    + rewrite lookup_insert_eq. intros [= <-]. apply Hq.
    + rewrite lookup_insert_ne by done. apply Hv.
  - apply Hsame. by destruct Hs as [_ ->].
  - apply Hsame. by destruct Hs as [_ ->].
  - apply Hsame. by destruct Hs as [-> _].
  - symmetry in Hs. split; [by eapply monitors_kept_enabled|].
    unfold sql_update_status, by_id in Hs. destruct (pgu_Valid id); [|by simplify_eq].
    destruct (monitors d !! pgu_Bytes id) as [row|] eqn:E; [|by simplify_eq].
    case_decide; [|by simplify_eq]. injection Hs as <- _.
    intros id' x b. cbn. destruct (decide (pgu_Bytes id = id')) as [<-|Hne].
    + rewrite lookup_insert_eq. intros [= <-]. by apply (Hv _ row b).
    + rewrite lookup_insert_ne by done. apply Hv.
  - apply Hsame. by destruct Hs as (_ & ? & ? & ? & _ & _ & _ & ->).
  - apply Hsame. by destruct Hs as [_ ->].
  - apply Hsame. destruct Hs as [Hs _]. by injection Hs as -> _.
Qed.

Lemma cache_inv_query q o w w' p p' :
  storable_query q -> db_effect q (dview w) (dview w') o -> rview w' = rview w ->
  cache_inv (MkSys w p) -> cache_inv (MkSys w' p').
Proof.
  intros Hq He Hv [Hc Hd]. unfold cache_inv. cbn in *. rewrite Hv.
  assert (dview w' = dview w \/ exists r, query_spec q (dview w) (dview w') r) as [->|[r Hr]];
    [destruct o; cbn in He; eauto|done|].
  destruct (query_kept q _ _ r Hq Hr Hd) as [Hk Hd']. split; [by eapply coherent_kept|done].
Qed.

(** The parameters of a creation. *)
Lemma storable_params c at_ id b :
  storable_request (RCreate c) ->
  storable (set_m_Enabled b (row_Monitor id (created_row (MkCreateMonitorParams (ToPgUUID (cm_UserID c))
    (cm_Url c) (cm_IntervalSec c) (cm_TimeoutSec c) (cm_LatencyThresholdMs c) (cm_ExpectedStatus c)
    (ToPgText (cm_AlertEmail c))) at_))).
Proof.
  intros H. assert (text_col (text_param (ToPgText (cm_AlertEmail c))) = ToPgText (cm_AlertEmail c)) as E.
  { unfold ToPgText. by case_decide. }
  unfold row_Monitor, set_m_Enabled, Repository.to_Monitor, monitor_cols, created_row. cbn. rewrite E.
  assert (FromPgText (ToPgText (cm_AlertEmail c)) = cm_AlertEmail c) as -> by apply FromPgText_To. apply H.
Qed.

Definition keeps_cache {A} (p : prog A) : Prop :=
  forall σ, cache_inv σ -> wp any_reply p σ (fun _ σ' => cache_inv σ').

Lemma keeps_closed : closed (@keeps_cache).
Proof using SL UL.
  split.
  - intros A a σ H. exact H.
  - intros A B p f Hp Hf σ H. apply wp_bind. eapply wp_mono; [by apply Hp|]. intros a σ' H'. by apply Hf.
  - intros [w p] H. apply wp_time_now. intros w' t _ (Hv & Hd & _) _. by eapply cache_inv_db.
  - intros s [w p] H. apply wp_create_hash. intros w' o (Hv & Hd & _) _ _. by eapply cache_inv_db.
  - intros q Hq [w p] H. apply wp_db. intros w' o He Hv _ _. eapply cache_inv_query; [|done..]. by destruct q.
  - intros x c Hc σ. by apply inv_CreateMonitor.
  - intros x u id b σ. apply inv_UpdateMonitorStatus.
  - intros x u id [w p] H. by apply wp_GetMonitor.
Qed.

(** What a process does to the cache: requests to its routes, and the calls of
    the executor and of the result workers. *)
Inductive activity :=
| HttpRequest (rt : route) (r : http_request)
| Load (x : ctx) (id : UUID)
| Reschedule (x : ctx) (id : UUID) (intervalSec : Z).

Definition perform (a : activity) : prog unit :=
  match a with
  | HttpRequest rt r => serve_route rt r ;; mret tt
  | Load x id => LoadMonitor x id ;; mret tt
  | Reschedule x id n => ScheduleMonitor x id n ""
  end.
Fixpoint perform_all (l : list activity) : prog unit :=
  match l with
  | [] => mret tt
  | a :: l => perform a ;; perform_all l
  end.
Definition routed (ts : TokenService) (a : activity) : Prop :=
  match a with HttpRequest rt _ => rt ∈ RegisterRoutes ts | _ => True end.

Lemma keeps_perform ts a : routed ts a -> keeps_cache (perform a).
Proof using SL UL.
  destruct a as [rt r|x id|x id n]; intros H; cbn [perform].
  - apply (closed_bind _ keeps_closed); [by eapply (closed_route _ keeps_closed)|intros _; apply (closed_ret _ keeps_closed)].
  - apply (closed_bind _ keeps_closed); [|intros _; apply (closed_ret _ keeps_closed)]. intros [w p] Hi. by apply wp_LoadMonitor.
  - intros σ Hi. by apply inv_ScheduleMonitor.
Qed.

(** The cache never contradicts the table.  Whatever requests arrive at
    whatever routes, with whatever bytes, among the loads and reschedules of the
    pipeline, and whatever fails in between, every cached monitor still is the
    row of the table with that identifier, up to the flag [Enabled]. *)
Theorem cache_stays_coherent ts l w p :
  Forall (routed ts) l -> coherent (rview w) (dview w) -> valid_db (dview w) ->
  wp any_reply (perform_all l) (MkSys w p) (fun _ σ' =>
    coherent (rview (sw σ')) (dview (sw σ')) /\ valid_db (dview (sw σ'))).
Proof using SL UL.
  intros Hl Hc Hv. assert (cache_inv (MkSys w p)) as Hi by done. revert Hi.
  generalize (MkSys w p) as σ. change (keeps_cache (perform_all l)).
  induction Hl as [|a l Ha _ IH]; [apply (closed_ret _ keeps_closed)|]. apply (closed_bind _ keeps_closed); [by eapply keeps_perform|].
  intros _. exact IH.
Qed.

End Coherent.

(** ** What is written *)

Lemma integral_body b : integral (body_json data_json b).
Proof.
  destruct b as [id msg d|id k msg]; cbn [body_json].
  - assert (forall m, integral (GetMonitorResponse_json m)) as Hm by (intros m; cbn; eauto 20).
    destruct d as [| | | |m|u l o ms|s]; cbn [data_json].
    6: { assert (foldr and True (List.map integral (GetMonitorResponse_json <$> ms))) as Hms.
         { induction ms as [|m ms IH]; [done|]. by split; [apply Hm|]. }
         cbn; split_and!; eauto. }
    6: case_decide.
    all: cbn; split_and!; eauto.
  - case_decide; by cbn.
Qed.

Lemma depth_body b : Z.of_nat (depth (body_json data_json b)) <= maxNestingDepth.
Proof.
  assert (depth (body_json data_json b) <= 4)%nat as H; [|unfold maxNestingDepth; lia].
  destruct b as [id msg d|id k msg]; cbn [body_json].
  - destruct d as [| | | |m|u l o ms|s]; cbn [data_json]; try (cbn; lia).
    + assert (foldr Nat.max 0%nat (List.map depth (GetMonitorResponse_json <$> ms)) <= 1)%nat.
      { induction ms as [|m ms IH]; [cbn; lia|]. cbn in *. lia. }
      cbn in *. lia.
    + case_decide; cbn; lia.
  - case_decide; cbn; lia.
Qed.

(** *** What a client reads *)

(** The member of an object with a name. *)
Fixpoint member (name : string) (l : list (string * json)) : option json :=
  match l with
  | [] => None
  | (n, v) :: l => if String.eqb n name then Some v else member name l
  end.

(** The value below a path of names. *)
Fixpoint at_path (path : list string) (v : json) : option json :=
  match path with
  | [] => Some v
  | name :: path => match v with JObject l => m ← member name l; at_path path m | _ => None end
  end.

(** A text is read as valid UTF-8. *)
Definition read_text (v : json) (path : list string) (s : string) : Prop :=
  at_path path v = Some (JString (coerce s)).
Definition read_int (v : json) (path : list string) (n : Z) : Prop := at_path path v = Some (JInt n).
Definition read_bool (v : json) (path : list string) (b : bool) : Prop := at_path path v = Some (JBool b).

(** A monitor, by the names of monitor/dto.go. *)
Record reads_monitor (v : json) (m : GetMonitorResponse) : Prop := {
  rm_id : read_text v ["id"] (gr_ID m);
  rm_url : read_text v ["url"] (gr_Url m);
  rm_mail : read_text v ["alert_mail"] (gr_AlertEmail m);
  rm_interval : read_int v ["interval_sec"] (gr_IntervalSec m);
  rm_timeout : read_int v ["timeout_sec"] (gr_TimeoutSec m);
  rm_latency : read_int v ["latency_threshold_ms"] (gr_LatencyThresholdMs m);
  rm_status : read_int v ["expected_status"] (gr_ExpectedStatus m);
  rm_enabled : read_bool v ["enabled"] (gr_Enabled m)
}.

(** The data of a response, by the names of the two dto.go. *)
Definition reads_data (v : json) (d : data) : Prop :=
  match d with
  | RegisterResponse id => read_text v ["data"; "user_id"] id
  | LogInResponse id tok =>
      read_text v ["data"; "user_id"] id /\ read_text v ["data"; "access_token"] tok
  | GetProfileResponse id name email n paid =>
      read_text v ["data"; "id"] id /\ read_text v ["data"; "name"] name /\
      read_text v ["data"; "email"] email /\ read_int v ["data"; "monitors_count"] n /\
      read_bool v ["data"; "is_paid_user"] paid
  | CreateMonitorResponse id => read_text v ["data"; "monitor_id"] id
  | D_GetMonitorResponse m => exists o, at_path ["data"] v = Some o /\ reads_monitor o m
  | GetAllMonitorsResponse id limit offset ms =>
      read_text v ["data"; "user_id"] id /\ read_int v ["data"; "limit"] limit /\
      read_int v ["data"; "offset"] offset /\
      exists l, at_path ["data"; "monitors"] v = Some (JArray l) /\ Forall2 reads_monitor l ms
  | D_string t => t <> "" -> read_text v ["data"] t
  end.

(** The response to a request, as its client reads the bytes: success, with the
    message and the data, or a kind of error with its status and a message. *)
Definition reads_response (r : http_request) (rs : api_response) (v : json) : Prop :=
  read_text v ["request_id"] (rq_ID r) /\
  match rs_Body rs with
  | SuccessResponse _ msg d =>
      (rs_Status rs = 200 \/ rs_Status rs = 201) /\ read_bool v ["success"] true /\
      read_text v ["message"] msg /\ at_path ["error"] v = None /\ reads_data v d
  | ErrorResponse _ _ _ => exists k msg,
      k ∈ kinds /\ msg ∈ public_messages /\ rs_Status rs = GetHTTPStatus k /\
      read_bool v ["success"] false /\ at_path ["error"; "kind"] v = Some (JString k) /\
      at_path ["error"; "message"] v = Some (JString msg) /\ at_path ["data"] v = None
  end.

(** Evaluates the names of the code, which are valid. *)
Ltac names :=
  repeat match goal with
  | |- context [coerce (String ?a ?t)] =>
      let x := eval vm_compute in (coerce (String a t)) in
      change (coerce (String a t)) with x
  end; cbn -[coerce JInt].

Lemma reads_monitor_json m : reads_monitor (coerce_json (GetMonitorResponse_json m)) m.
Proof.
  unfold GetMonitorResponse_json. cbn -[coerce JInt]. split; unfold read_text, read_int, read_bool; names; done.
Qed.

Lemma reads_data_json i msg d : reads_data (coerce_json (body_json data_json (SuccessResponse i msg d))) d.
Proof.
  destruct d as [id|id tok|id name email n paid|id|m|id limit offset ms|t]; cbn -[coerce JInt GetMonitorResponse_json];
    unfold read_text, read_int, read_bool.
  1-4: by names.
  - names. eexists. split; [done|]. apply reads_monitor_json.
  - names. do 3 (split; [done|]). eexists. split; [done|].
    induction ms as [|m ms IH]; cbn -[GetMonitorResponse_json]; constructor; [apply reads_monitor_json|done].
  - intros Ht. rewrite decide_False by done. by names.
Qed.

(** The texts of the errors are valid. *)
Lemma listed_coerce (l : list string) x :
  forallb (fun s => String.eqb (coerce s) s) l = true -> x ∈ l -> coerce x = x.
Proof.
  intros Hl Hx%list_elem_of_In. apply (proj1 (forallb_forall _ _) Hl), String.eqb_eq in Hx. exact Hx.
Qed.

Lemma kinds_coerce k : k ∈ kinds -> coerce k = k.
Proof. apply listed_coerce. vm_compute. reflexivity. Qed.
Lemma messages_coerce m : m ∈ public_messages -> coerce m = m /\ m <> "".
Proof.
  intros H. split; [apply (listed_coerce public_messages); [vm_compute; reflexivity|done]|].
  intros ->. apply (bool_decide_unpack (~ "" ∈ public_messages)) in H; [done|]. vm_compute. exact I.
Qed.

Lemma reads_answer r rs :
  answers r rs -> reads_response r rs (coerce_json (body_json data_json (rs_Body rs))).
Proof.
  intros [Hid Hp]. unfold reads_response, public_response in *.
  destruct rs as [st [i msg d|i k msg]]; cbn [rs_Body rs_Status body_id] in *; subst i.
  - split; [|split; [done|]; split; [|split; [|split; [|apply reads_data_json]]]];
      unfold read_text, read_bool; cbn -[coerce JInt data_json]; names; [done..|].
    destruct (data_json d); [|done]. by names.
  - destruct Hp as (Hm & Hk & Hst). destruct (messages_coerce msg Hm) as [Ec Hne].
    cbn -[coerce]. rewrite decide_False by done. pose proof (kinds_coerce k Hk) as Ek.
    split; [unfold read_text; by names|]. exists k, msg. do 3 (split; [done|]).
    unfold read_bool. names. rewrite Ek, Ec. done.
Qed.

(** C30: the bytes of the API.  Whatever the servers reply, every route writes
    one line that is safe inside an HTML page (no control character, no angle
    bracket and no ampersand) and that parses to JSON from which the client
    reads the identifier of its request and either success, a status 200 or
    201, a message and every field of the data under its name, or no success, a
    kind of error, the status of this kind and a public message.  Texts are
    read with invalid UTF-8 replaced. *)
Theorem response_wire {U : UuidLib} {L : JwtLib} {V : Validator} {S : Services} ts rt r :
  rt ∈ RegisterRoutes ts ->
  returns (serve_route rt r) (fun rs => exists line v,
    written rs = line +:+ byte1 10 /\ safe_text line /\
    parse (written rs) = Some v /\ reads_response r rs v).
Proof.
  intros Hrt. eapply returns_mono; [by apply (public_route ts)|]. intros rs Hrs.
  unfold written, encoded. do 2 eexists. split; [done|]. split; [apply safe_print, integral_body|].
  split; [apply parse_print_line; [apply integral_body|apply depth_body]|]. by apply reads_answer.
Qed.

(** ** Witness *)

Section Witnesses.
#[local] Existing Instance Hex.lib.
#[local] Existing Instance Hex.laws.
#[local] Existing Instance RefWorld.services.
#[local] Existing Instance RefWorld.laws.
#[local] Existing Instance RefJwt.lib.
#[local] Existing Instance RefAPI.validator.

(** A request without a token: what its client reads of the kind and of the
    message of the error. *)
Definition read_error (q : prog api_response) : option (json * json) :=
  match q with
  | Ret rs => v ← parse (written rs); k ← at_path ["error"; "kind"] v; m ← at_path ["error"; "message"] v;
              Some (k, m)
  | _ => None
  end.

Lemma response_wire_witness :
  read_error (run (serve_route patch_route demo_request) demo_sys).2 =
    Some (JString "unauthorised", JString "missing Authorization header") /\
  exists Φ, returns (serve_route patch_route demo_request) Φ.
Proof.
  split; [vm_compute; reflexivity|].
  eexists. exact (response_wire demo_ts patch_route demo_request patch_route_in).
Defined.

(** A login, a creation without a token, and a load by the executor. *)
Definition demo_activities : list activity :=
  [HttpRequest (MkRoute POST "/api/v1/users/login" [] (UserHandler.LogIn demo_ts)) (request_with RefAPI.login_body);
   HttpRequest (MkRoute POST "/api/v1/monitors/" [Handle demo_ts] MonitorHandler.CreateMonitor)
     (request_with RefAPI.create_body);
   Load CtxApp Demo.uid1; Reschedule CtxApp Demo.uid1 60].

Lemma cache_stays_coherent_witness :
  coherent (rview MonitorSvc.demo_world) (dview MonitorSvc.demo_world) /\
  wp any_reply (perform_all demo_activities) (MkSys MonitorSvc.demo_world RefWorld.proc10) (fun _ σ' =>
    coherent (rview (sw σ')) (dview (sw σ')) /\ valid_db (dview (sw σ'))).
Proof.
  split; [exact demo_coherent|].
  apply (cache_stays_coherent demo_ts); [|exact demo_coherent|exact demo_valid].
  repeat constructor.
Defined.

End Witnesses.
