(* ===== verification/Middleware.v ===== *)
(** * Logging: pkg/logger, internals/middleware/logging.go and its neighbours

    [Logger] is the outermost middleware of the router; chi's [RequestID], the
    class [ChiLib], is inside it.  The writer that counts the bytes of the
    response is chi's; what it counts is the status and the length of the body.
    chi's [Recoverer] and [Timeout] are left out: no handler panics, and a
    context that has ended shows in the replies of the servers.  [RequestID] and
    [Metrics] of this repository are not in the router. *)

From S2P Require Import Prelude AppError Types Redis Postgres Effects Rules Reference RedisStore.
From S2P Require Import Security Http Config Dto User MonitorSvc Handlers.
From stdpp Require Import gmap list strings pretty sorting.
#[local] Open Scope Z_scope.

(** ** logger.Init *)

Inductive level := DebugLevel | InfoLevel.
Inductive writer := Stdout | ConsoleWriter.

(** The settings of zerolog's global level and of the base logger. *)
Record zerolog_Logger := MkLogger {
  lg_level : level;
  lg_writer : writer;
  lg_service : string;
  lg_env : string;
  lg_caller : bool
}.

Definition Init (cfg : Config) : zerolog_Logger :=
  let prod := bool_decide (Env cfg = "production") in
  MkLogger (if prod then InfoLevel else DebugLevel) (if prod then Stdout else ConsoleWriter)
    (ServiceName cfg) (Env cfg) (negb prod).

(** ** Middlewares *)

(** What a middleware wraps: it serves a request. *)
Definition server : Type := http_request -> prog api_response.

Definition with_ID (id : string) (r : http_request) : http_request :=
  MkRequest id (rq_Authorization r) (rq_Body r) (rq_monitorID r) (rq_limit r) (rq_offset r).

(** The line that is logged for a request; the duration in nanoseconds. *)
Record log_entry := MkEntry {
  le_request_id : string;
  le_method : string;
  le_path : string;
  le_status : Z;
  le_bytes : Z;
  le_duration : Z
}.

(** logging.go: the deferred function runs after the handler, with the request
    that the middleware was given. *)
Definition Logger (Method Path : string) (next : server) (r : http_request) : prog (api_response * log_entry) :=
  start ← op TimeNow;
  rs ← next r;
  let reqID := rq_ID r in
  now ← op TimeNow;
  mret (rs, MkEntry reqID Method Path (rs_Status rs) (Z.of_nat (String.length (written rs))) (now - start)).

(** metrics.go: what the recorder observes. *)
Definition Metrics (Method Path : string) (next : server) (r : http_request)
    : prog (api_response * (string * string * Z)) :=
  start ← op TimeNow;
  rs ← next r;
  now ← op TimeNow;
  mret (rs, (Method, Path, now - start)).

(** request_id.go: the identifier of the header [X-Request-ID], or a new one,
    under the key ["request_id"] of the context.  [GetReqID] looks under chi's
    own key, so that the field [rq_ID] stays as it was. *)
Definition RequestID (header newString : string) (next : gmap string string -> server)
    (values : gmap string string) : server := fun r =>
  let requestID := if decide (header = "") then newString else header in
  next (<["request_id" := requestID]> values) r.

(** chi's middleware.RequestID: the identifier of the header or a new one, in the
    context of the request that it passes on. *)
Class ChiLib := { chi_request_id : http_request -> string }.
Class ChiLaws (C : ChiLib) := { chi_request_id_set r : chi_request_id r <> "" }.

Section Router.
Context {U : UuidLib} {L : JwtLib} {V : Validator} {S : Services} {C : ChiLib}.

(** [RegisterRoutes]: the middlewares around a route, from the outside in. *)
Definition serve_http (rt : route) (Method Path : string) : http_request -> prog (api_response * log_entry) :=
  Logger Method Path (fun r => serve_route rt (with_ID (chi_request_id r) r)).

(** The server gives the router requests whose context has no identifier. *)
Definition from_network (r : http_request) : Prop := rq_ID r = "".

(** C38: the log and the response of a request cannot be matched.  Whatever the
    servers reply, a request is answered and one line is logged, with the status
    and the length of that answer; the answer carries an identifier, but the
    line has none, since the identifier is given inside the middleware that
    logs. *)
Theorem log_without_request_id {CL : ChiLaws C} ts rt m path r :
  rt ∈ RegisterRoutes ts -> from_network r ->
  returns (serve_http rt m path r) (fun '(rs, e) =>
    public_response rs /\ body_id (rs_Body rs) <> "" /\
    le_status e = rs_Status rs /\ le_bytes e = Z.of_nat (String.length (written rs)) /\
    le_method e = m /\ le_path e = path /\ le_request_id e = "").
Proof.
  intros Hrt Hr. unfold serve_http, Logger. apply returns_any; [by apply returns_op|]. intros start.
  eapply returns_bind; [by eapply public_route|]. intros rs [Hid Hp].
  apply returns_any; [by apply returns_op|]. intros now. apply returns_ret. cbn.
  split; [done|]. split; [|by split_and!]. rewrite Hid. apply chi_request_id_set.
Qed.

End Router.

(** ** Witness *)

Section Witnesses.
#[local] Existing Instance Hex.lib.
#[local] Existing Instance RefWorld.services.
#[local] Existing Instance RefJwt.lib.
#[local] Existing Instance RefAPI.validator.

#[local] Instance chi : ChiLib := { chi_request_id _ := "host/abc-000001" }.
#[local] Instance chi_laws : ChiLaws chi.
Proof. by split. Qed.

Definition network_request : http_request := with_ID "" (request_with RefAPI.disable_body).
Definition logged : prog (api_response * log_entry) :=
  serve_http patch_route "PATCH" "/api/v1/monitors/x" network_request.

(** Without a token: 401 is answered and logged. *)
Lemma log_without_request_id_witness :
  (match (run logged demo_sys).2 with
   | Ret (rs, e) => (rs_Status rs, le_status e, body_id (rs_Body rs), le_request_id e)
   | _ => (0, 0, "", "")
   end) = (401, 401, "host/abc-000001", "") /\
  exists Φ, returns logged Φ.
Proof.
  split; [vm_compute; reflexivity|]. eexists.
  exact (log_without_request_id demo_ts patch_route "PATCH" "/api/v1/monitors/x" network_request
           patch_route_in eq_refl).
Defined.

End Witnesses.
