(* ===== verification/Executor.v ===== *)
(** * internals/modules/executor: the HTTP checks

    [handleJob] is the body of the loop of [startWork]: it loads the monitor
    of a job and tells for which monitor, if any, a goroutine is started;
    [httpCheck] is that goroutine.  The executor is written, and its theorems
    are proved, against the interface [MonitorService]. *)

From S2P Require Import Prelude AppError Types Redis Postgres Effects Rules Reference RedisStore.
From S2P Require Import Scheduler User MonitorSvc.
From stdpp Require Import gmap list strings pretty sorting.
#[local] Open Scope Z_scope.

(** ** executor.go *)

Definition classifyError (err : error) : string * bool :=
  if errors_Is is_DeadlineExceeded err then ("TIMEOUT", true)
  else match as_DNSError err with
  | Some _ => ("DNS_FAILURE", false)
  | None =>
    match as_NetError err with
    | Some netErr_Timeout => if netErr_Timeout then ("NETWORK_TIMEOUT", true)
                             else ("NETWORK_ERROR", true)
    | None => ("UNKNOWN_ERROR", true)
    end
  end.

Definition executeHTTPCheck (monitor : Monitor) : prog HTTPResult :=
  start ← op TimeNow;
  err ← op (NewRequest (m_Url monitor));
  match err with
  | Some _ =>
    now ← op TimeNow;
    mret (MkHTTPResult (m_ID monitor) false 0 0 "INVALID_REQUEST" false now 0 "")
  | None =>
    resp ← op (HttpDo (m_Url monitor) (15 * Second));
    t ← op TimeNow;
    let latency := Milliseconds (t - start) in
    match resp with
    | inl err =>
      let '(reason, isRetryable) := classifyError err in
      now ← op TimeNow;
      mret (MkHTTPResult (m_ID monitor) false 0 0 reason isRetryable now 0 "")
    | inr StatusCode =>
      let success := bool_decide (StatusCode = m_ExpectedStatus monitor) &&
                     bool_decide (latency <= m_LatencyThresholdMs monitor) in
      now ← op TimeNow;
      mret (MkHTTPResult (m_ID monitor) success StatusCode latency "" false now 0 "")
    end
  end.

(** The goroutine of a check, which holds a slot of the semaphore. *)
Definition httpCheck (monitor : Monitor) : prog unit :=
  defer (result ← executeHTTPCheck monitor; send (SendResult result) id) tt
        (fun _ => op ReleaseSem).

Section Executor.
Context {MS : MonitorService}.

Definition handleJob (job : JobPayload) : prog (option Monitor) :=
  r ← LoadMonitor CtxApp (job_MonitorID job);
  match r with
  | inl err =>
    if IsKind err NotFound then mret None
    else
      ScheduleMonitor CtxApp (job_MonitorID job) 5 "executor.start_work" ;;
      mret None
  | inr monitor =>
    if negb (m_Enabled monitor) then mret None
    else op AcquireSem ;; mret (Some monitor)
  end.

End Executor.

(** ** Lemmas *)

Section Check.
Context {S : Services} {SL : ServiceLaws S}.

(** An error and what it wraps, outermost first. *)
Fixpoint chain (e : error) : list error :=
  e :: match e with
       | AppError a => match e_Err a with Some i => chain i | None => [] end
       | OpError i | UrlError i | Wrapped _ i => chain i
       | _ => []
       end.

(** The reason to report for a failed request, and whether to retry: a deadline
    anywhere in the chain is a timeout; otherwise a DNS error anywhere in it is
    final; otherwise the outermost error that can say whether it is a timeout
    decides; otherwise the reason is unknown. *)
Inductive cause (e : error) : string -> bool -> Prop :=
| cause_deadline : DeadlineExceeded ∈ chain e -> cause e "TIMEOUT" true
| cause_dns t : DeadlineExceeded ∉ chain e -> DNSError t ∈ chain e -> cause e "DNS_FAILURE" false
| cause_network outer n inner b :
    DeadlineExceeded ∉ chain e -> (forall t, DNSError t ∉ chain e) ->
    chain e = outer ++ n :: inner -> Forall (fun e => Timeout e = None) outer -> Timeout n = Some b ->
    cause e (if b then "NETWORK_TIMEOUT" else "NETWORK_ERROR") true
| cause_unknown :
    DeadlineExceeded ∉ chain e -> (forall t, DNSError t ∉ chain e) ->
    Forall (fun e => Timeout e = None) (chain e) -> cause e "UNKNOWN_ERROR" true.

(** [errors.Is] and [errors.As] search the chain. *)
Lemma errors_find_chain {A} (f : error -> option A) e :
  match errors_find f e with
  | Some a => exists outer n inner, chain e = outer ++ n :: inner /\
                Forall (fun e => f e = None) outer /\ f n = Some a
  | None => Forall (fun e => f e = None) (chain e)
  end.
Proof using.
  assert (forall e rest, chain e = e :: rest -> f e = None ->
    forall i, rest = chain i ->
    match errors_find f i with
    | Some a => exists outer n inner, chain i = outer ++ n :: inner /\
                  Forall (fun e => f e = None) outer /\ f n = Some a
    | None => Forall (fun e => f e = None) (chain i)
    end ->
    match errors_find f i with
    | Some a => exists outer n inner, chain e = outer ++ n :: inner /\
                  Forall (fun e => f e = None) outer /\ f n = Some a
    | None => Forall (fun e => f e = None) (chain e)
    end) as Hstep.
  { intros e' rest E Hf i -> H. rewrite E. destruct (errors_find f i); [|by constructor].
    destruct H as (outer & n & inner & -> & Ho & Hn). exists (e' :: outer), n, inner.
    split; [done|]. split; [by constructor|done]. }
  assert (forall e rest a, chain e = e :: rest -> f e = Some a -> exists outer n inner,
    chain e = outer ++ n :: inner /\ Forall (fun e => f e = None) outer /\ f n = Some a) as Hhere.
  { intros e' rest a E Hf. exists [], e', rest. by split_and!. }
  revert e. fix IH 1. intros e.
  destruct e as [[k o [i|] msg s]| | | | | | | | | | |]; cbn [errors_find e_Err];
    (destruct (f _) eqn:Ef; [by eapply Hhere|]);
    first [by eapply Hstep; [..|apply IH] | by repeat constructor].
Qed.

Lemma errors_Is_chain e : errors_Is is_DeadlineExceeded e = true <-> DeadlineExceeded ∈ chain e.
Proof using.
  unfold errors_Is. pose proof (errors_find_chain is_DeadlineExceeded e) as H.
  destruct (errors_find _ e); split; try done.
  - destruct H as (outer & n & inner & -> & _ & Hn). intros _. apply elem_of_app. right.
    destruct n; try done. left.
  - intros Hin. rewrite Forall_forall in H. by apply H in Hin.
Qed.

Lemma as_DNSError_chain e : is_Some (as_DNSError e) <-> exists t, DNSError t ∈ chain e.
Proof using.
  unfold as_DNSError.
  pose proof (errors_find_chain (fun e => match e with DNSError t => Some t | _ => None end) e) as H.
  destruct (errors_find _ e) as [t|].
  - split; [intros _|by eexists]. destruct H as (outer & n & inner & -> & _ & Hn). exists t.
    apply elem_of_app. right. destruct n; try done. injection Hn as ->. left.
  - split; [by intros []|]. intros [t Hin]. rewrite Forall_forall in H. by apply H in Hin.
Qed.

Lemma classifyError_cause e : cause e (classifyError e).1 (classifyError e).2.
Proof using.
  unfold classifyError. pose proof (errors_Is_chain e) as H1. pose proof (as_DNSError_chain e) as H2.
  destruct (errors_Is is_DeadlineExceeded e); [by apply cause_deadline, H1|].
  assert (DeadlineExceeded ∉ chain e) as Hd by (intros H; by apply H1 in H).
  destruct (as_DNSError e) as [t|]; [destruct H2 as [[t' Ht] _]; [done|by eapply cause_dns]|].
  assert (forall t, DNSError t ∉ chain e) as Hn by (intros t Ht; destruct H2 as [_ H2]; by destruct H2; [exists t|]).
  unfold as_NetError. pose proof (errors_find_chain Timeout e) as H3. destruct (errors_find Timeout e) as [b|].
  - destruct H3 as (outer & n & inner & E & Ho & Hb). pose proof (cause_network e outer n inner b Hd Hn E Ho Hb).
    by destruct b.
  - by apply cause_unknown.
Qed.

(** What [executeHTTPCheck] reports for a monitor in every case, checked
    between two instants. *)
Record check_report (m : Monitor) (from to : Z) (r : HTTPResult) : Prop := {
  cr_id : r_MonitorID r = m_ID m;
  cr_interval : r_IntervalSec r = 0;
  cr_email : r_AlertEmail r = "";
  cr_checked : from <= r_CheckedAt r <= to
}.

(** What is reported of a failure. *)
Definition failure_report (r : HTTPResult) (reason : string) (retryable : bool) : Prop :=
  r_Success r = false /\ r_Status r = 0 /\ r_LatencyMs r = 0 /\ r_Reason r = reason /\ r_Retryable r = retryable.

(** What is reported of the outcome [o] of a request that took [d]. *)
Definition outcome_report (m : Monitor) (o : error + Z) (d : Z) (r : HTTPResult) : Prop :=
  match o with
  | inl e => failure_report r (r_Reason r) (r_Retryable r) /\ cause e (r_Reason r) (r_Retryable r)
  | inr status => r_Status r = status /\ r_LatencyMs r = Milliseconds d /\
             r_Reason r = "" /\ r_Retryable r = false /\
             (r_Success r = true <-> status = m_ExpectedStatus m /\
                                     Milliseconds d <= m_LatencyThresholdMs m)
  end.

(** A check in the world [w] that ends in [w']: the clock is read, the request
    is made, the clock is read for the latency, and again for the report. *)
Definition checked (m : Monitor) (w w' : world) (r : HTTPResult) : Prop :=
  exists w1 start, time_now w = (w1, start) /\
    match new_request (m_Url m) with
    | Some _ => failure_report r "INVALID_REQUEST" false /\ time_now w1 = (w', r_CheckedAt r)
    | None => exists w2 o w3 stop,
        http_do (m_Url m) (15 * Second) w1 = (w2, o) /\ time_now w2 = (w3, stop) /\
        outcome_report m o (stop - start) r /\ time_now w3 = (w', r_CheckedAt r)
    end.

Lemma wp_executeHTTPCheck good m w p (Φ : HTTPResult -> sys -> Prop) :
  (forall w' r, unobserved w w' -> check_report m (gclock w) (gclock w') r -> checked m w w' r ->
     Φ r (MkSys w' p)) ->
  wp good (executeHTTPCheck m) (MkSys w p) Φ.
Proof using SL.
  intros H. unfold executeHTTPCheck.
  assert (forall w1 w2, unobserved w w1 -> unobserved w1 w2 -> unobserved w w2) as Htr.
  { intros w1 w2 (? & ? & ?) (? & ? & ?). split; [congruence|]. split; [congruence|]. by etrans. }
  apply wp_bind, wp_time_now. intros w1 start E1 Hu1 Ht1.
  apply wp_bind, wp_new_request. destruct (new_request (m_Url m)) as [e|] eqn:En.
  - apply wp_bind, wp_time_now. intros w2 now E2 Hu2 Ht2. apply wp_ret, H; [by eapply Htr| |].
    + split; cbn; try done. destruct Hu1 as (_ & _ & []); lia.
    + exists w1, start. split; [done|]. by rewrite En.
  - apply wp_bind, wp_http. intros w2 o Eo Hu2.
    apply wp_bind, wp_time_now. intros w3 stop E3 Hu3 Ht3.
    assert (unobserved w w3) as Hu by (eapply Htr; [eapply Htr|]; done).
    assert (forall r w4 now, time_now w3 = (w4, now) -> unobserved w3 w4 -> gclock w3 <= now <= gclock w4 ->
      r_CheckedAt r = now -> r_MonitorID r = m_ID m -> r_IntervalSec r = 0 -> r_AlertEmail r = "" ->
      outcome_report m o (stop - start) r -> Φ r (MkSys w4 p)) as Hfin.
    { intros r w4 now E4 Hu4 Ht4 Hnow Hid Hiv Hem Ho. apply H; [by eapply Htr| |].
      - split; try done. destruct Hu as (_ & _ & []). lia.
      - exists w1, start. split; [done|]. rewrite En. exists w2, o, w3, stop.
        split; [done|]. split; [done|]. split; [done|]. by rewrite Hnow. }
    destruct o as [e|status].
    + pose proof (classifyError_cause e) as Hc. destruct (classifyError e) as [reason retry].
      apply wp_bind, wp_time_now. intros w4 now E4 Hu4 Ht4. apply wp_ret. by eapply Hfin.
    + apply wp_bind, wp_time_now. intros w4 now E4 Hu4 Ht4. apply wp_ret. eapply Hfin; try done.
      cbn. do 4 (split; [done|]). by rewrite andb_true_iff, !bool_decide_eq_true.
Qed.

End Check.

Section Jobs.
Context {U : UuidLib} {S : Services} {SL : ServiceLaws S}.

(** [handleJob], against the interface. *)
Lemma wp_handleJob_any {MS : MonitorService} {ML : MonitorServiceLaws S MS} job w p :
  (sem_used p < sem_cap p)%nat ->
  wp any_reply (handleJob job) (MkSys w p) (fun o σ' =>
    dview (sw σ') = dview w /\ later w (sw σ') /\
    (zsets (rview (sw σ')) = zsets (rview w) \/
     exists v, zsets v = zsets (rview w) /\
               rescheduled (uuid_String (job_MonitorID job)) v (rview (sw σ'))) /\
    match o with
    | None => sp σ' = p
    | Some m => m_Enabled m = true /\ zsets (rview (sw σ')) = zsets (rview w) /\
                sp σ' = set_sem (1 + sem_used p)%nat p
    end).
Proof using SL.
  intros Hsem. unfold handleJob. apply wp_bind. eapply wp_mono; [apply load_any|].
  intros o [w1 p1] (Hp & Hd & Hl & Hz & _). cbn in *. subst p1. destruct o as [e|m].
  - destruct (IsKind e NotFound); [by apply wp_ret; cbn; auto|].
    apply wp_bind. eapply wp_mono; [apply schedule_any|].
    intros ? [w2 p2] (Hp2 & Hd2 & Hl2 & HR). cbn in *. subst p2. apply wp_ret. cbn.
    split; [congruence|]. split; [by etrans|]. split; [|done].
    destruct HR as [->|HR]; [by left|right; eauto].
  - destruct (m_Enabled m) eqn:Em; cbn; [|apply wp_ret; cbn; by auto].
    apply wp_bind, wp_acquire; [done|]. apply wp_ret. cbn. split_and!; auto.
Qed.

Lemma tracked_zsets v v' : zsets v' = zsets v -> tracked v' = tracked v.
Proof. intros H. unfold tracked, zset. by rewrite H. Qed.

End Jobs.

(** ** Properties *)

Section Properties.
Context {U : UuidLib} {UL : UuidLaws U} {S : Services} {SL : ServiceLaws S}.

(** The classification of failed requests.  A deadline is a timeout;
    otherwise a DNS error anywhere in the chain is terminal, and it is the
    only failure that is not retried; otherwise the outermost error with a
    [Timeout] method decides.  For the errors that [http.Client.Do] is
    documented to return (all of type *url.Error) the answer UNKNOWN_ERROR
    does not occur. *)
Theorem classifyError_spec e :
  (errors_Is is_DeadlineExceeded e = true -> classifyError e = ("TIMEOUT", true)) /\
  ((classifyError e).2 = false <->
     errors_Is is_DeadlineExceeded e = false /\ is_Some (as_DNSError e)) /\
  ((classifyError e).2 = false <-> (classifyError e).1 = "DNS_FAILURE") /\
  (forall i, e = UrlError i ->
     (classifyError e).1 <> "UNKNOWN_ERROR" /\
     (errors_Is is_DeadlineExceeded i = false -> as_DNSError i = None ->
        classifyError e = if default false (Timeout i) then ("NETWORK_TIMEOUT", true)
                          else ("NETWORK_ERROR", true))).
Proof using.
  unfold classifyError. split; [by intros ->|].
  change (as_NetError e) with (errors_find Timeout e).
  destruct (errors_Is is_DeadlineExceeded e) eqn:E1; [|destruct (as_DNSError e) as [t|] eqn:E2]; cbn.
  - split; [naive_solver|]. split; [done|]. intros i ->. split; [done|]. intros E.
    change (errors_Is is_DeadlineExceeded (UrlError i)) with (errors_Is is_DeadlineExceeded i) in E1.
    congruence.
  - split; [naive_solver|]. split; [done|]. intros i ->. split; [done|]. intros _ E.
    change (as_DNSError (UrlError i)) with (as_DNSError i) in E2. congruence.
  - split; [|split].
    + split; [by destruct (errors_find Timeout e) as [[]|]|]. by intros [_ [? [=]]].
    + by destruct (errors_find Timeout e) as [[]|].
    + intros i ->. cbn. split; [by destruct (default false (Timeout i))|done].
Qed.

(** C34: what a check reports, whatever the site answers.  The check touches
    neither server.  An invalid URL gives INVALID_REQUEST without a request.  A
    failed request has status and latency 0 and the [cause] of its error: the
    reason, and whether to retry.  An answer gives its status and the measured
    latency, the time between the two readings of the clock around the request
    in milliseconds, and is a success exactly if it has the expected status and
    this latency is within the threshold.  Every result has the identifier of
    the monitor, but interval 0 and no alert address. *)
Theorem executeHTTPCheck_ok good m w p :
  wp good (executeHTTPCheck m) (MkSys w p) (fun r σ' =>
    sp σ' = p /\ rview (sw σ') = rview w /\ dview (sw σ') = dview w /\
    check_report m (gclock w) (gclock (sw σ')) r /\ checked m w (sw σ') r).
Proof using SL. apply wp_executeHTTPCheck. by intros w' r (Hv & Hd & _) Hr Ho. Qed.

(** The goroutine of a check gives its slot back.  With room in the result
    channel it ends, whatever the site answers, with exactly one result sent
    and one slot of the semaphore released. *)
Theorem httpCheck_releases good m w p :
  (0 < sem_used p)%nat -> ch_closed (resultChan p) = false -> ch_room (resultChan p) = true ->
  wp good (httpCheck m) (MkSys w p) (fun _ σ' =>
    exists r, r_MonitorID r = m_ID m /\
      sp σ' = set_sem (pred (sem_used p)) (set_resultChan (fun ch => ch_push ch r) p)).
Proof using SL.
  intros Hs Hc Hr. unfold httpCheck. apply wp_defer, wp_bind, wp_executeHTTPCheck.
  intros w' r _ [Hid _ _ _] _. apply wp_send_result; [done..|].
  apply wp_bind, wp_release; [done|]. apply wp_ret. exists r. by split.
Qed.

(** C12: the executor keeps jobs tracked.  Taking a job from the channel, when
    a slot of the semaphore is free, ends, whatever fails; the job stays in
    flight, perhaps it is scheduled again, and nothing else happens to the
    queue.  Either a check is started, for a monitor that is enabled, and
    exactly one more slot is held; or none is, and slots and channels are as
    before. *)
Theorem handleJob_tracked {MS : MonitorService} {ML : MonitorServiceLaws S MS} job w p :
  (sem_used p < sem_cap p)%nat -> uuid_String (job_MonitorID job) ∈ tracked (rview w) ->
  wp any_reply (handleJob job) (MkSys w p) (fun o σ' =>
    dview (sw σ') = dview w /\ tracked (rview (sw σ')) = tracked (rview w) /\
    zset (rview (sw σ')) inflightKey = zset (rview w) inflightKey /\
    match o with
    | Some m => m_Enabled m = true /\ sp σ' = set_sem (1 + sem_used p)%nat p
    | None => sp σ' = p
    end).
Proof using SL.
  intros Hsem Hin. eapply wp_mono; [by apply wp_handleJob_any|].
  intros o σ' (Hd & _ & Hq & Ho). split; [done|].
  assert (tracked (rview (sw σ')) = tracked (rview w) /\
          zset (rview (sw σ')) inflightKey = zset (rview w) inflightKey) as [-> ->].
  { destruct Hq as [Hz|(v & Hz & HR)].
    - split; [by apply tracked_zsets|]. unfold zset. by rewrite Hz.
    - assert (tracked v = tracked (rview w)) as Ht by (by apply tracked_zsets).
      rewrite <- Ht in Hin |- *. split; [by eapply rescheduled_tracked|].
      destruct HR as [sc ->]. rewrite zset_set_zset_ne by done. unfold zset. by rewrite Hz. }
  do 2 (split; [done|]). destruct o as [m|]; [|done]. by destruct Ho as (Hm & _ & ->).
Qed.

End Properties.

(** ** Witnesses *)

Section Witnesses.
#[local] Existing Instance Hex.lib.
#[local] Existing Instance Hex.laws.
#[local] Existing Instance RefWorld.services.
#[local] Existing Instance RefWorld.laws.

Definition demo_monitor : Monitor := row_Monitor Demo.uid1 (with_enabled true demo_row).

(** A site that answers 503. *)
Definition world503 : @world RefWorld.services := RefWorld.with_http [inr 503] demo_world.

Lemma executeHTTPCheck_ok_witness :
  (let '(_, _, q) := run (executeHTTPCheck demo_monitor) (MkSys world503 RefWorld.proc10) in
   match q with Ret r => (r_Success r, r_Status r, r_LatencyMs r) | _ => (true, 0, 0) end)
    = (false, 503, 100) /\
  exists Φ, wp any_reply (executeHTTPCheck demo_monitor) (MkSys world503 RefWorld.proc10) Φ.
Proof.
  split; [vm_compute; reflexivity|]. eexists.
  apply (executeHTTPCheck_ok any_reply demo_monitor world503 RefWorld.proc10).
Defined.

Definition proc_busy : proc := set_sem 1 RefWorld.proc10.

Lemma httpCheck_releases_witness :
  (0 < sem_used proc_busy)%nat /\
  wp any_reply (httpCheck demo_monitor) (MkSys world503 proc_busy) (fun _ σ' =>
    exists r, r_MonitorID r = m_ID demo_monitor /\
      sp σ' = set_sem (pred (sem_used proc_busy)) (set_resultChan (fun ch => ch_push ch r) proc_busy)).
Proof.
  split; [cbn; lia|]. apply httpCheck_releases; [cbn; lia|reflexivity|reflexivity].
Defined.

(** A world with the job of the demo monitor in flight, one second late. *)
Definition flight_redis : redis :=
  MkRedis {[inflightKey := {[uuid_String Demo.uid1 := Demo.ms0 - 1000]}]} ∅ ∅.
Definition enabled_db : database :=
  MkDatabase (users demo_db) {[Demo.uid1 := with_enabled true demo_row]} ∅.
Definition flight_world : @world RefWorld.services := RefWorld.start flight_redis enabled_db Demo.t0.

Lemma flight_tracked : uuid_String Demo.uid1 ∈ tracked (rview flight_world).
Proof. apply elem_of_tracked. right. eexists. vm_compute. reflexivity. Qed.

Lemma handleJob_tracked_witness :
  uuid_String Demo.uid1 ∈ tracked (rview flight_world) /\
  wp any_reply (handleJob (MkJobPayload Demo.uid1)) (MkSys flight_world RefWorld.proc10) (fun o σ' =>
    dview (sw σ') = dview flight_world /\
    tracked (rview (sw σ')) = tracked (rview flight_world) /\
    zset (rview (sw σ')) inflightKey = zset (rview flight_world) inflightKey /\
    match o with
    | Some m => m_Enabled m = true /\ sp σ' = set_sem (1 + sem_used RefWorld.proc10)%nat RefWorld.proc10
    | None => sp σ' = RefWorld.proc10
    end).
Proof.
  split; [exact flight_tracked|].
  apply (handleJob_tracked (MkJobPayload Demo.uid1) flight_world RefWorld.proc10);
    [cbn; lia|exact flight_tracked].
Defined.

End Witnesses.
