(* ===== verification/Result.v ===== *)
(** * internals/modules/result: what follows a check

    [Repository] is repository.go, [handleFailure] and [handleSuccess] are the
    workers' handlers (failure_worker.go, success_worker.go), [route] the body
    of the router's loop (processor.go).  [fail_step] is the specification of
    the failure policy, a small automaton over three facts of Redis; the
    handlers are proved to implement it. *)

From S2P Require Import Prelude AppError Types Redis Postgres Effects Rules Reference RedisStore.
From S2P Require Import Scheduler User MonitorSvc Executor.
From stdpp Require Import gmap list strings pretty sorting.
#[local] Open Scope Z_scope.

(** ** repository.go *)

Module Repository.

Definition Create (x : ctx) (startTime : Z) (e : HTTPResult) : prog (option error) :=
  let op_ := "repo.monitor_incident.create" in
  r ← op (Db (Q_CreateMonitorIncident (MkCreateMonitorIncidentParams
        (ToPgUUID (r_MonitorID e)) (MkPgTimestamptz startTime Finite true) true
        (int32 (r_Status e)) (int32 (r_LatencyMs e)))));
  match r with
  | inr _ => mret None
  | inl err => mret (Some (WrapRepoError op_ err false))
  end.

Definition GetByID (x : ctx) (incidentID : UUID) : prog (error + MonitorIncident) :=
  let op_ := "repo.monitor_incident.get" in
  r ← op (Db (Q_GetMonitorIncidentByID (ToPgUUID incidentID)));
  match one r with
  | inr mI => mret (inr (MkMonitorIncident (FromPgUUID (di_ID mI)) (FromPgUUID (di_MonitorID mI))
                (FromPgTimestamptz (di_StartTime mI)) (FromPgTimestamptz (di_EndTime mI))
                (di_Alerted mI) (di_HttpStatus mI) (di_LatencyMs mI)
                (FromPgTimestamptz (di_CreatedAt mI))))
  | inl err => mret (inl (WrapRepoError op_ err true))
  end.

Definition CloseIncident (x : ctx) (monitorID : UUID) (endTime : Z) : prog (option error) :=
  let op_ := "repo.monitor_incident.close_incident" in
  r ← op (Db (Q_CloseMonitorIncident (ToPgUUID monitorID) (ToPgTimestamptz endTime)));
  match r with
  | inr rowsAffected =>
    if decide (rowsAffected = 0) then
      mret (Some (AppError (MkError NotFound op_ None "resource not found" false)))
    else mret None
  | inl err => mret (Some (WrapRepoError op_ err false))
  end.

End Repository.

(** ** The handlers *)

Section Handlers.
Context {U : UuidLib} {MS : MonitorService}.

(** The part of [handleFailure] from "Case 3" on. *)
Definition failurePath (r : HTTPResult) : prog unit :=
  '(failCount, _, err) ← IncrementIncident CtxApp (r_MonitorID r);
  match err with
  | Some _ => mret tt
  | None =>
    if decide (failCount < 3) then mret tt
    else
      '(shouldAlert, err) ← MarkIncidentAlertedIfNotSet CtxApp (r_MonitorID r);
      if decide (err <> None \/ shouldAlert = false) then mret tt
      else
        MarkDBIncidentCreated CtxApp (r_MonitorID r) ;;
        now ← op TimeNow;
        Repository.Create CtxApp now r ;;
        send (SendAlert (MkAlertEvent (r_MonitorID r))) id
  end.

(** The body of [handleFailure]: its result is the value of [reschedule] when
    it returns. *)
Definition handleFailure_body (r : HTTPResult) : prog bool :=
  if decide (r_Reason r = "INVALID_REQUEST" \/ r_Reason r = "DNS_FAILURE") then
    StoreStatus CtxApp (r_MonitorID r) (r_Status r) (r_LatencyMs r) (r_CheckedAt r) ;;
    mret false
  else if r_Retryable r then
    '(retryCount, err) ← IncrementRetry CtxApp (r_MonitorID r);
    match err with
    | Some _ =>
      ScheduleMonitor CtxApp (r_MonitorID r) (r_IntervalSec r) "result.failure_worker" ;;
      mret false
    | None =>
      if decide (retryCount <= 2) then
        ScheduleMonitor CtxApp (r_MonitorID r) 5 "result.failure_worker" ;;
        mret false
      else
        ClearRetry CtxApp (r_MonitorID r) ;;
        failurePath r ;;
        mret true
    end
  else
    failurePath r ;;
    mret true.

Definition handleFailure (r : HTTPResult) : prog unit :=
  defer (handleFailure_body r) true (fun reschedule : bool =>
    AckJob CtxApp (uuid_String (r_MonitorID r)) ;;
    if reschedule then
      ScheduleMonitor CtxApp (r_MonitorID r) (r_IntervalSec r) "result.failure_worker"
    else mret tt) ;;
  mret tt.

Definition handleSuccess_body (r : HTTPResult) : prog unit :=
  StoreStatus CtxApp (r_MonitorID r) (r_Status r) (r_LatencyMs r) (r_CheckedAt r) ;;
  '(incident, err) ← GetIncident CtxApp (r_MonitorID r);
  match err with
  | Some _ => mret tt
  | None =>
    match incident with
    | None => mret tt
    | Some incident =>
      let dbIncident := bool_decide (default "" (incident !! "db_incident") = "true") in
      (if dbIncident then
         now ← op TimeNow;
         Repository.CloseIncident CtxApp (r_MonitorID r) now ;; mret tt
       else mret tt) ;;
      ClearIncident CtxApp (r_MonitorID r) ;;
      ClearRetry CtxApp (r_MonitorID r) ;;
      mret tt
    end
  end.

Definition handleSuccess (r : HTTPResult) : prog unit :=
  defer (handleSuccess_body r) tt (fun _ : unit =>
    AckJob CtxApp (uuid_String (r_MonitorID r)) ;;
    ScheduleMonitor CtxApp (r_MonitorID r) (r_IntervalSec r) "result.success_worker").

(** The body of the loop of [router]. *)
Definition route (r : HTTPResult) : prog unit :=
  if r_Success r then send (SendSuccess r) id else send (SendFailure r) id.

Definition cleanupRedis (x : ctx) (monitorID : UUID) : prog unit :=
  ClearIncident x monitorID ;; mret tt.

End Handlers.

(** ** The failure policy *)

(** What Redis knows of an outage: retries since the last counted failure,
    counted failures, whether the alert was given. *)
Record outage := MkOutage { o_retries : Z; o_failures : Z; o_alerted : bool }.

Definition no_outage : outage := MkOutage 0 0 false.

Inductive action :=
| Stop      (* monitoring ends *)
| Retry     (* checked again in five seconds *)
| Next      (* checked again after the interval *)
| Alert.    (* the same, with an alert and an incident in the database *)

#[export] Instance action_eq_dec : EqDecision action.
Proof. solve_decision. Defined.

(** A failed check: terminal, to be retried, or neither. *)
Inductive failure := Terminal | Retryable | Final.

#[export] Instance failure_eq_dec : EqDecision failure.
Proof. solve_decision. Defined.

Definition count_failure (o : outage) : outage * action :=
  let o := MkOutage (o_retries o) (o_failures o + 1) (o_alerted o) in
  if decide (o_failures o < 3) then (o, Next)
  else if o_alerted o then (o, Next)
  else (MkOutage (o_retries o) (o_failures o) true, Alert).

Definition fail_step (f : failure) (o : outage) : outage * action :=
  match f with
  | Terminal => (o, Stop)
  | Retryable =>
    if decide (o_retries o + 1 <= 2)
    then (MkOutage (o_retries o + 1) (o_failures o) (o_alerted o), Retry)
    else count_failure (MkOutage 0 (o_failures o) (o_alerted o))
  | Final => count_failure o
  end.

Definition failure_of (r : HTTPResult) : failure :=
  if decide (r_Reason r = "INVALID_REQUEST" \/ r_Reason r = "DNS_FAILURE") then Terminal
  else if r_Retryable r then Retryable else Final.

(** A run of failed checks. *)
Fixpoint fail_steps (fs : list failure) (o : outage) : outage * list action :=
  match fs with
  | [] => (o, [])
  | f :: fs => let '(o, a) := fail_step f o in
               let '(o, l) := fail_steps fs o in (o, a :: l)
  end.

Definition alerts (l : list action) : nat := length (filter (fun a => a = Alert) l).

(** *** Facts of the policy *)

Lemma count_failure_cases o o' a :
  count_failure o = (o', a) ->
  o_retries o' = o_retries o /\ o_failures o' = o_failures o + 1 /\
  (a = Alert /\ o_alerted o = false /\ o_alerted o' = true /\ 3 <= o_failures o' \/
   a = Next /\ o_alerted o' = o_alerted o /\ (o_failures o' < 3 \/ o_alerted o = true)).
Proof.
  unfold count_failure. destruct o as [r n b]; cbn. case_decide; [|destruct b]; intros [= <- <-]; cbn.
  - split_and!; [done..|]. right. auto.
  - split_and!; [done..|]. right. auto.
  - split_and!; [done..|]. left. split_and!; [done..|lia].
Qed.

(** The policy alerts when three failures were counted. *)
Definition policy_inv (o : outage) : Prop := o_alerted o = bool_decide (3 <= o_failures o).

Lemma fail_step_inv f o o' a :
  policy_inv o -> fail_step f o = (o', a) ->
  policy_inv o' /\ o_failures o <= o_failures o' /\
  (a = Alert <-> o_failures o < 3 <= o_failures o').
Proof.
  unfold policy_inv. intros Hi H.
  assert (forall o0, o_failures o0 = o_failures o -> o_alerted o0 = o_alerted o ->
    count_failure o0 = (o', a) ->
    o_alerted o' = bool_decide (3 <= o_failures o') /\ o_failures o <= o_failures o' /\
    (a = Alert <-> o_failures o < 3 <= o_failures o')) as Hc.
  { intros o0 E1 E2 Ho0. apply count_failure_cases in Ho0 as (_ & E & Hcase). rewrite E1, E2, Hi in *.
    destruct Hcase as [(-> & Hf & -> & H3)|(-> & -> & Hcase)].
    - apply bool_decide_eq_false in Hf. rewrite bool_decide_eq_true_2 by done.
      split; [done|]. split; [lia|]. split; [lia|done].
    - split; [|split; [lia|split; [done|]]].
      + apply bool_decide_ext. destruct Hcase as [|Ht]; [lia|]. apply bool_decide_eq_true in Ht. lia.
      + intros. destruct Hcase as [|Ht]; [lia|]. apply bool_decide_eq_true in Ht. lia. }
  destruct f; cbn [fail_step] in H.
  - injection H as <- <-. split; [done|]. split; [lia|]. split; [done|lia].
  - case_decide; [|by apply (Hc (MkOutage 0 (o_failures o) (o_alerted o)))].
    injection H as <- <-. cbn. split; [done|]. split; [lia|]. split; [done|lia].
  - by apply (Hc o).
Qed.

(** ** What Redis knows of an outage *)

Section Outage.
Context {U : UuidLib}.

Definition count (h : gmap string rval) : Z :=
  match h !! "failure_count" with Some (RInt n) => n | _ => 0 end.
Definition alerted (h : gmap string rval) : bool := bool_decide (is_Some (h !! "alerted")).
Definition retries (now : Z) (v : redis) (id : UUID) : Z :=
  match live now v (retryKey id) with Some (RInt n) => n | _ => 0 end.

Definition incident (v : redis) (id : UUID) : gmap string rval := hash v (incidentKey id).

(** The state of the policy for a monitor, at a time of Redis. *)
Definition outage_of (now : Z) (v : redis) (id : UUID) : outage :=
  MkOutage (retries now v id) (count (incident v id)) (alerted (incident v id)).

Lemma counter_count h n : counter (h !! "failure_count") = Some n -> n = count h.
Proof. unfold counter, count. destruct (h !! "failure_count") as [[k|s]|]; congruence. Qed.

Lemma counter_retries now v id n : counter (live now v (retryKey id)) = Some n -> n = retries now v id.
Proof. unfold counter, retries. destruct (live now v (retryKey id)) as [[k|s]|]; congruence. Qed.

Lemma retries_strs now v v' id :
  strs v' !! retryKey id = strs v !! retryKey id -> retries now v' id = retries now v id.
Proof. unfold retries, live. by intros ->. Qed.

(** No time limit of the retry counter runs out between two instants. *)
Definition no_expiry (id : UUID) (v : redis) (t t' : Z) : Prop :=
  t <= t' < t + Milliseconds (5 * Minute) /\
  forall x d, strs v !! retryKey id = Some (x, Some d) -> t < d -> t' < d.

Lemma live_no_expiry id v t t' t'' :
  no_expiry id v t t'' -> t <= t' <= t'' -> live t' v (retryKey id) = live t v (retryKey id).
Proof.
  intros [_ He] Ht. unfold live. destruct (strs v !! retryKey id) as [[x [d|]]|] eqn:E; [|done|done].
  specialize (He x d eq_refl). repeat case_decide; done || lia.
Qed.

Lemma retries_no_expiry id v t t' t'' :
  no_expiry id v t t'' -> t <= t' <= t'' -> retries t' v id = retries t v id.
Proof. intros H1 H2. unfold retries. by rewrite (live_no_expiry id v t t' t''). Qed.

(** What [IncrementRetry] leaves: [INCR] at one instant, [EXPIRE] at a later
    one. *)
Definition retry_incremented (id : UUID) (now1 now2 : Z) (v v' : redis) (n : Z) : Prop :=
  let k := retryKey id in
  let v1 := set_str k (Some (RInt n, if live now1 v k then (strs v !! k) ≫= snd else None)) v in
  n = retries now1 v id + 1 /\
  v' = match live now2 v1 k with
       | Some x => set_str k (Some (x, Some (now2 + Milliseconds (5 * Minute)))) v1
       | None => v1
       end.

Lemma retry_incremented_frame id now1 now2 v v' n :
  retry_incremented id now1 now2 v v' n ->
  zsets v' = zsets v /\ hashes v' = hashes v /\
  forall k, k <> retryKey id -> strs v' !! k = strs v !! k.
Proof.
  intros [_ ->]. destruct (live now2 _ _).
  - do 2 (split; [done|]). intros k Hk. rewrite !strs_set_str. by rewrite !decide_False.
  - do 2 (split; [done|]). intros k Hk. rewrite !strs_set_str. by rewrite !decide_False.
Qed.

(** In good time the counter goes up by one, and stays. *)
Lemma retry_incremented_ok id t now1 now2 t' v v' n :
  retry_incremented id now1 now2 v v' n -> t <= now1 -> now1 <= now2 -> now2 <= t' ->
  no_expiry id v t t' -> n = retries t v id + 1 /\ retries t' v' id = n.
Proof.
  intros [Hn Hv'] H1 H2 H3 He.
  assert (retries now1 v id = retries t v id) as E1 by (eapply retries_no_expiry; [done|lia]).
  assert (live now1 v (retryKey id) = live t v (retryKey id)) as E2
    by (eapply live_no_expiry; [done|lia]).
  split; [lia|].
  assert (live now2 (set_str (retryKey id) (Some (RInt n, if live now1 v (retryKey id)
            then (strs v !! retryKey id) ≫= snd else None)) v) (retryKey id) = Some (RInt n)) as E3.
  { unfold live at 1. rewrite strs_set_str, decide_True by done.
    destruct (live now1 v (retryKey id)) as [y|] eqn:Ey; cbn; [|done].
    unfold live in Ey. destruct He as [_ He].
    destruct (strs v !! retryKey id) as [[x [d|]]|]; cbn in *; [|done|done].
    case_decide; [|done]. specialize (He x d eq_refl ltac:(lia)). by rewrite decide_True by lia. }
  rewrite E3 in Hv'. subst v'. unfold retries, live. rewrite strs_set_str, decide_True by done.
  destruct He as [He _]. by rewrite decide_True by lia.
Qed.

End Outage.

(** ** Rules of the incident and retry calls *)

Section IncidentRules.
Context {U : UuidLib} {S : Services} {SL : ServiceLaws S}.
Context {good : forall c, reply c -> Prop} {G : RedisReliable good}.

Definition acked (id : UUID) (v : redis) : redis :=
  set_zset inflightKey (delete (uuid_String id) (zset v inflightKey)) v.

Lemma wp_AckJob x id w p (Φ : option error -> sys -> Prop) :
  (forall w', dview w' = dview w -> later w w' -> rview w' = acked id (rview w) ->
     Φ None (MkSys w' p)) ->
  wp good (AckJob x (uuid_String id)) (MkSys w p) Φ.
Proof using SL G.
  intros H. unfold AckJob. apply wp_bind, wp_rdb. intros w' n [Hv _] Hd Hl. by apply wp_ret, H.
Qed.

Definition status_fields (status latency checked : Z) : list (string * rval) :=
  [("status_code", RInt status); ("latency_ms", RInt latency); ("checked_at", RInt (Unix checked))].

Definition status_stored (r : HTTPResult) (v : redis) : redis :=
  set_hash (statusKey (r_MonitorID r))
    (hset_all (status_fields (r_Status r) (r_LatencyMs r) (r_CheckedAt r))
       (hash v (statusKey (r_MonitorID r)))) v.

Lemma wp_StoreStatus x r w p (Φ : option error -> sys -> Prop) :
  (forall w', dview w' = dview w -> later w w' -> rview w' = status_stored r (rview w) ->
     Φ None (MkSys w' p)) ->
  wp good (StoreStatus x (r_MonitorID r) (r_Status r) (r_LatencyMs r) (r_CheckedAt r)) (MkSys w p) Φ.
Proof using SL G.
  intros H. unfold StoreStatus. apply wp_retry_, wp_bind, wp_rdb. intros w' n [Hv _] Hd Hl.
  apply wp_ret. split; [done|]. by apply H.
Qed.

Lemma wp_DEL x k w p (Φ : option error -> sys -> Prop) :
  (forall w', dview w' = dview w -> later w w' -> rview w' = del k (rview w) -> Φ None (MkSys w' p)) ->
  wp good (retry_ x 2 (r ← rdb (DEL k); mret (err_of r))) (MkSys w p) Φ.
Proof using SL G.
  intros H. apply wp_retry_, wp_bind, wp_rdb. intros w' n [_ Hv] Hd Hl.
  apply wp_ret. split; [done|]. by apply H.
Qed.

Lemma wp_IncrementRetry x id w p (Φ : Z * option error -> sys -> Prop) :
  (forall w' now1 now2 n, dview w' = dview w -> later w w' ->
     rclock w <= now1 -> now1 <= now2 -> now2 <= rclock w' ->
     retry_incremented id now1 now2 (rview w) (rview w') n ->
     Φ (n, None) (MkSys w' p)) ->
  wp good (IncrementRetry x id) (MkSys w p) Φ.
Proof using SL G.
  intros H. unfold IncrementRetry. apply wp_retry, wp_bind, wp_rdb.
  intros w1 n (old & Hold & Hn & _ & Hv1) Hd1 Hl1. apply counter_retries in Hold.
  apply wp_bind, wp_rdb. intros w2 b Hv2 Hd2 Hl2. apply wp_ret. split; [done|]. cbn [fst snd].
  apply (H w2 (rclock w1) (rclock w2)); [congruence|by etrans|by destruct Hl1|by destruct Hl2|done|].
  split; [lia|]. cbn [rcall_spec] in Hv2. rewrite Hv1 in Hv2.
  destruct (live (rclock w2) _ _); by destruct Hv2 as [_ ->].
Qed.

(** The hash after [IncrementIncident] at time [t]. *)
Definition incident_incremented (t : Z) (h : gmap string rval) : gmap string rval :=
  let n := count h + 1 in
  let now := RInt (Unix t) in
  hset_all (if decide (n = 1) then [("first_failure_at", now); ("last_failure_at", now)]
            else [("last_failure_at", now)])
    (<["failure_count" := RInt n]> h).

Lemma incident_incremented_facts t h :
  count (incident_incremented t h) = count h + 1 /\
  alerted (incident_incremented t h) = alerted h /\
  incident_incremented t h !! "db_incident" = h !! "db_incident".
Proof. unfold incident_incremented, count, alerted, hset_all. case_decide; cbn; by simplify_map_eq. Qed.

Lemma wp_IncrementIncident x id w p (Φ : Z * bool * option error -> sys -> Prop) :
  (forall w' t first, dview w' = dview w -> later w w' ->
     rview w' = set_hash (incidentKey id) (incident_incremented t (incident (rview w) id)) (rview w) ->
     Φ (count (incident (rview w) id) + 1, first, None) (MkSys w' p)) ->
  wp good (IncrementIncident x id) (MkSys w p) Φ.
Proof using SL G.
  intros H. unfold IncrementIncident. apply wp_bind, wp_time_now. intros w0 t _ (Hv0 & Hd0 & Hl0) _.
  apply wp_bind, wp_retry, wp_bind, wp_rdb. intros w1 n (old & Hold & Hn & _ & Hv1) Hd1 Hl1.
  rewrite Hv0 in *. apply counter_count in Hold. fold (incident (rview w) id) in *. subst old.
  case_decide as Hn1; (apply wp_bind, wp_rdb; intros w2 k [Hv2 _] Hd2 Hl2; apply wp_ret; split; [done|];
    apply wp_ret; cbn [fst snd]; rewrite Hn; apply (H w2 t);
    [congruence|by do 2 (etrans; [done|])|]; rewrite Hn in *; unfold incident_incremented).
  - rewrite decide_True by done.
    by rewrite Hv2, Hv1, hash_set_hash_eq, set_hash_set_hash.
  - rewrite decide_False by done.
    by rewrite Hv2, Hv1, hash_set_hash_eq, set_hash_set_hash.
Qed.

Lemma wp_MarkAlertedIfNotSet x id w p (Φ : bool * option error -> sys -> Prop) :
  (forall w', dview w' = dview w -> later w w' ->
     (if alerted (incident (rview w) id) then rview w' = rview w
      else rview w' = set_hash (incidentKey id)
             (<["alerted" := RStr "true"]> (incident (rview w) id)) (rview w)) ->
     Φ (negb (alerted (incident (rview w) id)), None) (MkSys w' p)) ->
  wp good (MarkIncidentAlertedIfNotSet x id) (MkSys w p) Φ.
Proof using SL G.
  intros H. unfold MarkIncidentAlertedIfNotSet. apply wp_bind, wp_rdb.
  intros w' b Hs Hd Hl. apply wp_ret. cbn [rcall_spec] in Hs. fold (incident (rview w) id) in Hs.
  specialize (H w' Hd Hl). unfold alerted in H.
  destruct (incident (rview w) id !! "alerted"); destruct Hs as [-> Hv]; by apply H.
Qed.

Lemma wp_MarkDBIncident x id w p (Φ : option error -> sys -> Prop) :
  (forall w', dview w' = dview w -> later w w' ->
     rview w' = set_hash (incidentKey id)
             (<["db_incident" := RStr "true"]> (incident (rview w) id)) (rview w) ->
     Φ None (MkSys w' p)) ->
  wp good (MarkDBIncidentCreated x id) (MkSys w p) Φ.
Proof using SL G.
  intros H. unfold MarkDBIncidentCreated. apply wp_bind, wp_rdb.
  intros w' b [Hv _] Hd Hl. by apply wp_ret, H.
Qed.

Lemma wp_GetIncident x id w p (Φ : option (gmap string string) * option error -> sys -> Prop) :
  (forall w', dview w' = dview w -> later w w' -> rview w' = rview w ->
     Φ (Some (texts (incident (rview w) id)), None) (MkSys w' p)) ->
  wp good (GetIncident x id) (MkSys w p) Φ.
Proof using SL G.
  intros H. unfold GetIncident, hgetall. apply wp_bind, wp_rdb. intros w' h [-> Hv] Hd Hl.
  by apply wp_ret, H.
Qed.

(** The incident row of a result; the incident starts at a time of an interval. *)
Definition incident_inserted (r : HTTPResult) (t0 t1 : Z) (d d' : database) : Prop :=
  exists iid t at_, t0 <= t <= t1 /\ incidents d !! iid = None /\ is_Some (monitors d !! r_MonitorID r) /\
    let row := MkIncidentRow (r_MonitorID r) (t / Microsecond * Microsecond) None true (int32 (r_Status r)) (int32 (r_LatencyMs r)) at_ in
    incident_checks row = true /\ d' = set_incidents <[iid := row]> d.

Lemma wp_CreateIncident x t r w p (Φ : option error -> sys -> Prop) :
  (forall w' e, rview w' = rview w -> later w w' ->
     match e with
     | None => incident_inserted r t t (dview w) (dview w')
     | Some _ => dview w' = dview w \/ incident_inserted r t t (dview w) (dview w')
     end -> (good = no_fault -> e = None) -> Φ e (MkSys w' p)) ->
  wp good (Repository.Create x t r) (MkSys w p) Φ.
Proof using SL G.
  intros H. unfold Repository.Create. apply wp_bind, wp_db. intros w' o Heff Hv Hl Hg.
  cbn [query_reply db_effect query_spec] in *.
  destruct o as [e|u]; apply wp_ret, H; [done|done| |by intros ->|done|done| |done].
  - destruct Heff as [|(u & Hm & iid & t' & at_ & Hn & [= <-] & Hc & Hd)]; [by left|right].
    exists iid, t, at_. split; [lia|]. split_and!; done.
  - destruct Heff as (Hm & iid & t' & at_ & Hn & [= <-] & Hc & Hd). exists iid, t, at_. split; [lia|]. split_and!; done.
Qed.

End IncidentRules.

Section HandlerRules.
Context {U : UuidLib} {UL : UuidLaws U} {S : Services} {SL : ServiceLaws S}.
Context {MS : MonitorService} {ML : MonitorServiceLaws S MS}.
Context {good : forall c, reply c -> Prop} {G : RedisReliable good}.

(** The effect of an action outside Redis: an alert is sent, and an incident
    is inserted unless the statement fails. *)
Definition acted (a : action) (r : HTTPResult) (t0 t1 : Z) (d d' : database) (p p' : proc) : Prop :=
  match a with
  | Alert => p' = set_alertChan (fun ch => ch_push ch (MkAlertEvent (r_MonitorID r))) p /\
             (d' = d \/ incident_inserted r t0 t1 d d') /\
             (good = no_fault -> incident_inserted r t0 t1 d d')
  | _ => p' = p /\ d' = d
  end.

Lemma incident_inserted_within r t0 t1 u0 u1 d d' :
  u0 <= t0 -> t1 <= u1 -> incident_inserted r t0 t1 d d' -> incident_inserted r u0 u1 d d'.
Proof. intros H0 H1 (iid & t & at_ & Ht & H). exists iid, t, at_. split; [lia|exact H]. Qed.

Lemma acted_within a r t0 t1 u0 u1 d d' p p' :
  u0 <= t0 -> t1 <= u1 -> acted a r t0 t1 d d' p p' -> acted a r u0 u1 d d' p p'.
Proof.
  intros H0 H1. destruct a; try done. cbn. intros (Hp & Hd & Hn). split; [done|].
  split; [destruct Hd; [by left|right]|intros E; specialize (Hn E)]; by eapply incident_inserted_within.
Qed.

Lemma alerted_insert x h : alerted (<["alerted" := x]> h) = true.
Proof. unfold alerted. apply bool_decide_eq_true_2. by simplify_map_eq. Qed.

Lemma count_other k x h : k <> "failure_count" -> count (<[k := x]> h) = count h.
Proof. intros. unfold count. by rewrite lookup_insert_ne. Qed.

Lemma alerted_other k x h : k <> "alerted" -> alerted (<[k := x]> h) = alerted h.
Proof. intros. unfold alerted. by rewrite lookup_insert_ne. Qed.

Lemma wp_failurePath r w p (Φ : unit -> sys -> Prop) :
  ch_closed (alertChan p) = false -> ch_room (alertChan p) = true ->
  (forall w' p' h a, later w w' ->
     let h0 := incident (rview w) (r_MonitorID r) in
     count_failure (MkOutage 0 (count h0) (alerted h0)) = (MkOutage 0 (count h) (alerted h), a) ->
     rview w' = set_hash (incidentKey (r_MonitorID r)) h (rview w) ->
     h !! "db_incident" = (if decide (a = Alert) then Some (RStr "true") else h0 !! "db_incident") ->
     acted a r (gclock w) (gclock w') (dview w) (dview w') p p' -> Φ tt (MkSys w' p')) ->
  wp good (failurePath r) (MkSys w p) Φ.
Proof using SL G.
  intros Hop Hroom H. unfold failurePath. set (h0 := incident (rview w) (r_MonitorID r)) in *.
  apply wp_bind, wp_IncrementIncident. intros w1 t first Hd1 Hl1 Hv1. fold h0 in Hv1 |- *.
  set (h1 := incident_incremented t h0) in *.
  pose proof (incident_incremented_facts t h0) as (Hc1 & Ha1 & Hdb1). fold h1 in Hc1, Ha1, Hdb1.
  assert (incident (rview w1) (r_MonitorID r) = h1) as Hi1
    by (unfold incident; by rewrite Hv1, hash_set_hash_eq).
  unfold count_failure in H; cbn [o_failures o_alerted o_retries] in H. rewrite <- Hc1 in *.
  case_decide as Hlt.
  { apply wp_ret, (H w1 p h1 Next); [done| |done|done|by split].
    by rewrite Ha1. }
  apply wp_bind, wp_MarkAlertedIfNotSet. intros w2 Hd2 Hl2 Hv2. rewrite Hi1, Ha1 in *.
  destruct (alerted h0) eqn:Ea; cbn [negb].
  { rewrite decide_True by auto.
    apply wp_ret, (H w2 p h1 Next); [by etrans| |congruence|done|split; congruence].
    by rewrite Ha1. }
  rewrite decide_False by naive_solver.
  set (h2 := <["alerted" := RStr "true"]> h1) in *.
  assert (incident (rview w2) (r_MonitorID r) = h2) as Hi2
    by (unfold incident; by rewrite Hv2, hash_set_hash_eq).
  apply wp_bind, wp_MarkDBIncident. intros w3 Hd3 Hl3 Hv3. rewrite Hi2 in Hv3.
  apply wp_bind, wp_time_now. intros w4 t4 _ (Hv4 & Hd4 & Hl4) Ht4.
  apply wp_bind, wp_CreateIncident. intros w5 e Hv5 Hl5 He Hnf.
  apply wp_send_alert; [done..|].
  eapply (H w5 _ (<["db_incident" := RStr "true"]> h2) Alert).
  - by do 4 (etrans; [done|]).
  - rewrite count_other, alerted_other by done. unfold h2.
    by rewrite alerted_insert, count_other by done.
  - by rewrite Hv5, Hv4, Hv3, Hv2, Hv1, !set_hash_set_hash.
  - rewrite decide_True by done. by simplify_map_eq.
  - apply (acted_within _ _ t4 t4); [destruct Hl1, Hl2, Hl3; lia|destruct Hl5; lia|].
    cbn. rewrite Hd4, Hd3, Hd2, Hd1 in He. split; [done|].
    split; [destruct e; auto|]. intros E. by rewrite (Hnf E) in He.
Qed.

(** *** The handler of failures *)

(** When the job runs again. *)
Definition delay_of (a : action) (r : HTTPResult) : option Z :=
  match a with
  | Stop => None
  | Retry => Some 5
  | Next | Alert => Some (r_IntervalSec r)
  end.

(** Out of flight, and scheduled as the action says, at a time between [from]
    and [to]; nothing else changed in the queue. *)
Definition requeued (a : action) (r : HTTPResult) (from to : Z) (v v' : redis) : Prop :=
  let m := uuid_String (r_MonitorID r) in
  zset v' inflightKey = delete m (zset v inflightKey) /\
  match delay_of a r with
  | None => zset v' scheduleKey = zset v scheduleKey
  | Some n => exists t, from <= t <= to /\
      zset v' scheduleKey =
        <[m := float64_of_int (UnixMilli (t + n * Second))]> (zset v scheduleKey)
  end.

(** The outage of another monitor, and its status, are as before. *)
Definition others_kept (id : UUID) (v v' : redis) : Prop :=
  forall k, k <> retryKey id -> k <> incidentKey id -> k <> statusKey id ->
    strs v' !! k = strs v !! k /\ hash v' k = hash v k /\
    (k <> scheduleKey -> k <> inflightKey -> zset v' k = zset v k).

(** The state of the policy after the handler, read from Redis. *)
Definition stepped (r : HTTPResult) (w w' : world) (a : action) : Prop :=
  let id := r_MonitorID r in
  let v := rview w in
  let v' := rview w' in
  no_expiry id v (rclock w) (rclock w') ->
  fail_step (failure_of r) (outage_of (rclock w) v id) = (outage_of (rclock w') v' id, a).

(** What holds whatever the clock does: of the action and of the incident. *)
Definition counted_failure (r : HTTPResult) (v v' : redis) (a : action) : Prop :=
  let h := incident v (r_MonitorID r) in
  let h' := incident v' (r_MonitorID r) in
  match failure_of r with
  | Terminal => a = Stop /\ h' = h
  | Final => count_failure (MkOutage 0 (count h) (alerted h)) = (MkOutage 0 (count h') (alerted h'), a)
  | Retryable =>
      a = Retry /\ h' = h \/
      count_failure (MkOutage 0 (count h) (alerted h)) = (MkOutage 0 (count h') (alerted h'), a)
  end.

Lemma count_failure_retries n f b o a :
  count_failure (MkOutage 0 f b) = (o, a) ->
  count_failure (MkOutage n f b) = (MkOutage n (o_failures o) (o_alerted o), a).
Proof using. unfold count_failure; cbn. case_decide; [|destruct b]; intros [= <- <-]; done. Qed.

(** Everything the handler promises. *)
Record failure_handled (r : HTTPResult) (w w' : world) (p p' : proc) (a : action) : Prop := {
  fh_later : later w w';
  fh_step : stepped r w w' a;
  fh_count : counted_failure r (rview w) (rview w') a;
  fh_db : a = Alert -> incident (rview w') (r_MonitorID r) !! "db_incident" = Some (RStr "true");
  fh_queue : requeued a r (gclock w) (gclock w') (rview w) (rview w');
  fh_others : others_kept (r_MonitorID r) (rview w) (rview w');
  fh_acted : acted a r (gclock w) (gclock w') (dview w) (dview w') p p';
  fh_status : a = Stop -> hash (rview w') (statusKey (r_MonitorID r)) =
    hset_all (status_fields (r_Status r) (r_LatencyMs r) (r_CheckedAt r))
      (hash (rview w) (statusKey (r_MonitorID r)))
}.

(** The same before the queue was touched, at any later time [t']. *)
Record failure_staged (r : HTTPResult) (w w1 : world) (a : action) : Prop := {
  fs_step : forall t', rclock w1 <= t' -> no_expiry (r_MonitorID r) (rview w) (rclock w) t' ->
    fail_step (failure_of r) (outage_of (rclock w) (rview w) (r_MonitorID r)) =
      (outage_of t' (rview w1) (r_MonitorID r), a);
  fs_count : counted_failure r (rview w) (rview w1) a;
  fs_db : a = Alert -> incident (rview w1) (r_MonitorID r) !! "db_incident" = Some (RStr "true");
  fs_queue : zset (rview w1) inflightKey = zset (rview w) inflightKey /\
             zset (rview w1) scheduleKey = zset (rview w) scheduleKey;
  fs_others : others_kept (r_MonitorID r) (rview w) (rview w1);
  fs_status : a = Stop -> hash (rview w1) (statusKey (r_MonitorID r)) =
    hset_all (status_fields (r_Status r) (r_LatencyMs r) (r_CheckedAt r))
      (hash (rview w) (statusKey (r_MonitorID r)))
}.

(** The queue's part of the handler: what is done to the server after the
    stage. *)
Definition queue_part (a : action) (r : HTTPResult) (t : Z) (v : redis) : redis :=
  let id := r_MonitorID r in
  match delay_of a r with
  | None => acked id v
  | Some n => if decide (a = Retry) then acked id (scheduled_at id (t + n * Second) v)
              else scheduled_at id (t + n * Second) (acked id v)
  end.

Lemma zset_acked id v k :
  zset (acked id v) k = if decide (k = inflightKey) then delete (uuid_String id) (zset v inflightKey)
                        else zset v k.
Proof using. unfold acked. rewrite zset_set_zset. repeat case_decide; congruence. Qed.

Lemma zset_scheduled_at id t v k :
  zset (scheduled_at id t v) k =
    if decide (k = scheduleKey)
    then <[uuid_String id := float64_of_int (UnixMilli t)]> (zset v scheduleKey) else zset v k.
Proof using. unfold scheduled_at. rewrite zset_set_zset. repeat case_decide; congruence. Qed.

Lemma queue_part_frame a r t v :
  strs (queue_part a r t v) = strs v /\ hashes (queue_part a r t v) = hashes v /\
  (forall k, k <> scheduleKey -> k <> inflightKey -> zset (queue_part a r t v) k = zset v k).
Proof using.
  unfold queue_part. destruct (delay_of a r); [case_decide|]; do 2 (split; [done|]); intros k H1 H2;
    rewrite ?zset_acked, ?zset_scheduled_at; rewrite !decide_False by done;
    rewrite ?zset_acked, ?zset_scheduled_at; by rewrite ?decide_False by done.
Qed.

Lemma queue_part_requeued a r t from to v :
  (is_Some (delay_of a r) -> from <= t <= to) -> requeued a r from to v (queue_part a r t v).
Proof using.
  intros Ht. unfold requeued, queue_part. destruct (delay_of a r) as [n|]; [case_decide|].
  - rewrite zset_acked, decide_True, zset_scheduled_at, decide_False by done. split; [done|].
    exists t. split; [eauto|]. rewrite zset_acked, decide_False by done.
    by rewrite zset_scheduled_at, decide_True by done.
  - rewrite zset_scheduled_at, decide_False, zset_acked, decide_True by done. split; [done|].
    exists t. split; [eauto|]. rewrite zset_scheduled_at, decide_True by done.
    by rewrite zset_acked, decide_False by done.
  - rewrite !zset_acked. rewrite decide_True, decide_False by done. done.
Qed.

Lemma outage_of_frame t v v' id :
  strs v' = strs v -> hashes v' = hashes v -> outage_of t v' id = outage_of t v id.
Proof using. unfold outage_of, retries, live, incident, hash. by intros -> ->. Qed.

Lemma requeued_staged a r from to v v1 v' :
  zset v1 inflightKey = zset v inflightKey -> zset v1 scheduleKey = zset v scheduleKey ->
  requeued a r from to v1 v' -> requeued a r from to v v'.
Proof using. unfold requeued. by intros -> ->. Qed.

Lemma failure_finish r w w1 w' p p' a t :
  failure_staged r w w1 a -> later w w1 -> later w1 w' ->
  rview w' = queue_part a r t (rview w1) -> (is_Some (delay_of a r) -> gclock w <= t <= gclock w') ->
  acted a r (gclock w) (gclock w') (dview w) (dview w') p p' ->
  failure_handled r w w' p p' a.
Proof using.
  intros [H1 H2 H3 [H4 H5] H6 H7] Hl Hl' Hv Ht Ha.
  destruct (queue_part_frame a r t (rview w1)) as (Es & Eh & Ez).
  assert (forall k, hash (rview w') k = hash (rview w1) k) as Eh'.
  { intros k. unfold hash. by rewrite Hv, Eh. }
  split.
  - by etrans.
  - intros He. rewrite (outage_of_frame (rclock w') (rview w1) (rview w')); [apply H1; [by destruct Hl'|done]|by rewrite Hv..].
  - unfold counted_failure, incident in *. by rewrite Eh'.
  - unfold incident in *. by rewrite Eh'.
  - eapply requeued_staged; [done..|]. rewrite Hv. by apply queue_part_requeued.
  - intros k K1 K2 K3. destruct (H6 k K1 K2 K3) as (E1 & E2 & E3).
    split; [by rewrite Hv, Es|]. split; [by rewrite Eh'|].
    intros ??. rewrite Hv, Ez by done. by apply E3.
  - done.
  - intros E. rewrite Eh'. by apply H7.
Qed.

(** *** The stages *)

Lemma stage_terminal r w w1 :
  failure_of r = Terminal -> rview w1 = status_stored r (rview w) -> later w w1 ->
  failure_staged r w w1 Stop.
Proof using UL.
  intros Ht Hv [Hl _]. pose proof (statusKey_length (r_MonitorID r)) as Hsl.
  assert (incidentKey (r_MonitorID r) <> statusKey (r_MonitorID r)) as Hk by keys_differ.
  assert (hash (rview w1) (incidentKey (r_MonitorID r)) =
          hash (rview w) (incidentKey (r_MonitorID r))) as Hh.
  { rewrite Hv. unfold status_stored. by rewrite hash_set_hash_ne by done. }
  split.
  - intros t' Ht' He. rewrite Ht. cbn [fail_step]. unfold outage_of, incident. rewrite Hh.
    assert (strs (rview w1) = strs (rview w)) as Hs by by rewrite Hv.
    rewrite (retries_strs t' (rview w)) by by rewrite Hs.
    by rewrite (retries_no_expiry _ _ (rclock w) t' t') by (done || lia).
  - unfold counted_failure, incident. by rewrite Ht, Hh.
  - done.
  - by rewrite Hv.
  - intros k ???. rewrite Hv. split; [done|]. split; [|done].
    unfold status_stored. by rewrite hash_set_hash_ne by done.
  - intros _. rewrite Hv. unfold status_stored. by rewrite hash_set_hash_eq.
Qed.

Lemma stage_retry r w w1 now1 now2 n :
  failure_of r = Retryable -> later w w1 ->
  rclock w <= now1 -> now1 <= now2 -> now2 <= rclock w1 ->
  retry_incremented (r_MonitorID r) now1 now2 (rview w) (rview w1) n -> n <= 2 ->
  failure_staged r w w1 Retry.
Proof using UL.
  intros Ht [Hl _] H1 H2 H3 Hinc Hn.
  pose proof (retry_incremented_frame _ _ _ _ _ _ Hinc) as (Ez & Eh & Es).
  assert (forall k, hash (rview w1) k = hash (rview w) k) as Hh by (intros k; unfold hash; by rewrite Eh).
  assert (forall k, zset (rview w1) k = zset (rview w) k) as Hz by (intros k; unfold zset; by rewrite Ez).
  split.
  - intros t' Ht' He.
    destruct (retry_incremented_ok _ (rclock w) now1 now2 t' _ _ _ Hinc) as [En Er]; [done|done|lia|done|].
    rewrite Ht. unfold outage_of, incident. cbn [fail_step o_retries o_failures o_alerted].
    rewrite decide_True by lia. by rewrite Hh, Er, En.
  - unfold counted_failure, incident. rewrite Ht, Hh. by left.
  - done.
  - by rewrite !Hz.
  - intros k ???. split; [by apply Es|]. split; [apply Hh|]. intros ??. apply Hz.
  - done.
Qed.

(** A failure that is counted, from a state [wa] in which the retries have
    been cleared if there were any to clear. *)
Lemma stage_count r w wa w1 h a n :
  let h0 := incident (rview w) (r_MonitorID r) in
  later w wa -> later wa w1 ->
  (failure_of r = Final /\ rview wa = rview w \/
   failure_of r = Retryable /\ 2 < n /\ exists now1 now2 v,
     rclock w <= now1 /\ now1 <= now2 /\ now2 <= rclock wa /\
     retry_incremented (r_MonitorID r) now1 now2 (rview w) v n /\
     rview wa = del (retryKey (r_MonitorID r)) v) ->
  count_failure (MkOutage 0 (count h0) (alerted h0)) = (MkOutage 0 (count h) (alerted h), a) ->
  rview w1 = set_hash (incidentKey (r_MonitorID r)) h (rview wa) ->
  (a = Alert -> h !! "db_incident" = Some (RStr "true")) ->
  failure_staged r w w1 a.
Proof using UL.
  intros h0 [Hla _] [Hl1 _] Hcase Hcf Hv Hdb.
  assert (incidentKey (r_MonitorID r) <> retryKey (r_MonitorID r)) as Hk1 by keys_differ.
  assert (statusKey (r_MonitorID r) <> incidentKey (r_MonitorID r)) as Hk2 by keys_differ.
  assert (incident (rview w1) (r_MonitorID r) = h) as Hi
    by (unfold incident; by rewrite Hv, hash_set_hash_eq).
  assert (a <> Stop) as Has.
  { apply count_failure_cases in Hcf as (_ & _ & Hc). naive_solver. }
  assert (others_kept (r_MonitorID r) (rview w) (rview wa) /\
          (forall k, k <> retryKey (r_MonitorID r) -> zset (rview wa) k = zset (rview w) k)) as [Ho Hz].
  { destruct Hcase as [[_ ->]|(_ & _ & now1 & now2 & v & _ & _ & _ & Hinc & ->)]; [by split|].
    pose proof (retry_incremented_frame _ _ _ _ _ _ Hinc) as (Ez & Eh & Es).
    split; [intros k Hk _ _; split; [|split]|].
    - rewrite strs_del, decide_False by done. by apply Es.
    - rewrite hash_del, decide_False by done. unfold hash. by rewrite Eh.
    - intros ??. rewrite zset_del, decide_False by done. unfold zset. by rewrite Ez.
    - intros k Hk. rewrite zset_del, decide_False by done. unfold zset. by rewrite Ez. }
  split.
  - intros t' Ht' He. unfold outage_of. rewrite Hi. cbn [fail_step].
    assert (forall t, retries t (rview w1) (r_MonitorID r) = retries t (rview wa) (r_MonitorID r)) as Hr
      by (intros t; apply retries_strs; by rewrite Hv).
    rewrite Hr. fold h0. destruct Hcase as [[-> Hva]|(-> & Hn & now1 & now2 & v & K1 & K2 & K3 & Hinc & Hva)];
      cbn [fail_step o_retries o_failures o_alerted].
    + rewrite Hva. rewrite (retries_no_expiry _ _ (rclock w) t' t') by (done || lia).
      by rewrite (count_failure_retries _ _ _ _ _ Hcf).
    + destruct (retry_incremented_ok _ (rclock w) now1 now2 t' _ _ _ Hinc) as [En Er]; [done|done|lia|done|].
      rewrite decide_False by lia. rewrite Hcf. do 2 f_equal.
      unfold retries. rewrite Hva. unfold live. by rewrite strs_del, decide_True by done.
  - unfold counted_failure. rewrite Hi. fold h0.
    destruct Hcase as [[-> _]|(-> & _)]; [done|by right].
  - by rewrite Hi.
  - rewrite Hv, !zset_set_hash. split; apply Hz; keys_differ.
  - intros k K1 K2 K3. destruct (Ho k K1 K2 K3) as (E1 & E2 & E3).
    rewrite Hv, hash_set_hash_ne by done. split; [done|]. split; [done|]. exact E3.
  - done.
Qed.

(** The deferred function. *)
Lemma wp_tail_failure r a w w1 w2 p p' (Φ : unit -> sys -> Prop) :
  failure_staged r w w1 a -> later w w1 -> later w1 w2 -> a = Next \/ a = Alert ->
  rview w2 = rview w1 -> acted a r (gclock w) (gclock w2) (dview w) (dview w2) p p' ->
  (forall w', failure_handled r w w' p p' a -> Φ tt (MkSys w' p')) ->
  wp good (AckJob CtxApp (uuid_String (r_MonitorID r)) ;;
           ScheduleMonitor CtxApp (r_MonitorID r) (r_IntervalSec r) "result.failure_worker")
    (MkSys w2 p') Φ.
Proof using SL G ML.
  intros Hst Hl Hl2 Ha Hv2 Hact H.
  apply wp_bind, wp_AckJob. intros w3 Hd3 Hl3 Hv3.
  eapply wp_mono; [by apply schedule_ok|]. intros [] [w4 p4] (Hp & Hd & Hl4 & t & Ht & Hv4).
  cbn in *. subst p4. apply H. apply (failure_finish r w w1 w4 p p' a t); [done|done| | | |].
  - by do 2 (etrans; [done|]).
  - rewrite Hv4, Hv3, Hv2. unfold queue_part, delay_of. by destruct Ha as [-> | ->].
  - intros _. destruct Hl, Hl2, Hl3. lia.
  - rewrite Hd, Hd3. eapply acted_within; [| |exact Hact]; [lia|destruct Hl3, Hl4; lia].
Qed.

(** [failurePath] and the deferred function, from a state [wa] in which the
    retries have been cleared if there were any to clear. *)
Lemma wp_count_failure r w wa p n (Φ : unit -> sys -> Prop) :
  ch_closed (alertChan p) = false -> ch_room (alertChan p) = true ->
  later w wa -> dview wa = dview w ->
  (failure_of r = Final /\ rview wa = rview w \/
   failure_of r = Retryable /\ 2 < n /\ exists now1 now2 v,
     rclock w <= now1 /\ now1 <= now2 /\ now2 <= rclock wa /\
     retry_incremented (r_MonitorID r) now1 now2 (rview w) v n /\
     rview wa = del (retryKey (r_MonitorID r)) v) ->
  (forall w' p' a, failure_handled r w w' p p' a -> Φ tt (MkSys w' p')) ->
  wp good (failurePath r ;; mret true) (MkSys wa p) (fun (b : bool) σ' =>
    wp good ((AckJob CtxApp (uuid_String (r_MonitorID r)) ;;
              if b then ScheduleMonitor CtxApp (r_MonitorID r) (r_IntervalSec r) "result.failure_worker"
              else mret tt) ;; mret b) σ' (fun _ σ' => Φ tt σ')).
Proof using SL G ML UL.
  intros Hop Hroom Hl Hd Hcase H. apply wp_bind, wp_failurePath; [done|done|].
  intros w1 p1 h a Hl1 h0 Hcf Hv1 Hdb Hact.
  assert (incidentKey (r_MonitorID r) <> retryKey (r_MonitorID r)) as Hk by keys_differ.
  assert (h0 = incident (rview w) (r_MonitorID r)) as Eh0.
  { unfold h0, incident. destruct Hcase as [[_ ->]|(_ & _ & ? & ? & v & _ & _ & _ & Hinc & ->)]; [done|].
    rewrite hash_del, decide_False by done.
    pose proof (retry_incremented_frame _ _ _ _ _ _ Hinc) as (_ & Eh & _). unfold hash. by rewrite Eh. }
  assert (failure_staged r w w1 a) as Hst.
  { eapply (stage_count r w wa w1 h a n); [done|done|done|by rewrite <- Eh0|done|].
    intros ->. by rewrite Hdb, decide_True. }
  apply wp_ret, wp_bind. rewrite Hd in Hact.
  eapply (wp_tail_failure r a w w1); [done|by etrans|reflexivity| |done| |].
  - apply count_failure_cases in Hcf as (_ & _ & Hc). naive_solver.
  - eapply acted_within; [| |exact Hact]; [by destruct Hl|lia].
  - intros w' Hh. apply wp_ret. by eapply H.
Qed.

Lemma wp_handleFailure r w p (Φ : unit -> sys -> Prop) :
  ch_closed (alertChan p) = false -> ch_room (alertChan p) = true ->
  (forall w' p' a, failure_handled r w w' p p' a -> Φ tt (MkSys w' p')) ->
  wp good (handleFailure r) (MkSys w p) Φ.
Proof using SL G ML UL.
  intros Hop Hroom H. unfold handleFailure. apply (wp_bind _ (defer _ _ _)), wp_defer.
  assert (forall σ', Φ tt σ' -> wp good (mret tt) σ' Φ) as Hret by done.
  unfold handleFailure_body. destruct (decide (r_Reason r = _ \/ _)) as [Ht|Ht].
  { assert (failure_of r = Terminal) as Hf by (unfold failure_of; by rewrite decide_True).
    apply wp_bind, wp_StoreStatus. intros w1 Hd1 Hl1 Hv1. apply wp_ret, wp_bind, wp_bind, wp_AckJob.
    intros w2 Hd2 Hl2 Hv2. apply wp_ret, wp_ret, Hret, (H w2 p Stop).
    apply (failure_finish r w w1 w2 p p Stop 0); [by apply stage_terminal|done|done| | |].
    - done.
    - by intros [? [=]].
    - split; [done|congruence]. }
  destruct (r_Retryable r) eqn:Er.
  2: { assert (failure_of r = Final) as Hf by (unfold failure_of; by rewrite decide_False, Er).
    eapply wp_mono; [apply (wp_count_failure r w w p 0 Φ); [done|done|reflexivity|done|by left|done]|].
    intros b σ' Hb. eapply wp_mono; [exact Hb|]. intros ? σ'' HΦ. by apply Hret. }
  assert (failure_of r = Retryable) as Hf by (unfold failure_of; by rewrite decide_False, Er).
  apply wp_bind, wp_IncrementRetry. intros w1 now1 now2 n Hd1 Hl1 K1 K2 K3 Hinc.
  case_decide as Hn.
  - apply wp_bind. eapply wp_mono; [by apply schedule_ok|].
    intros [] [w2 p2] (Hp & Hd2 & Hl2 & t & Htt & Hv2). cbn in *. subst p2.
    apply wp_ret, wp_bind, wp_bind, wp_AckJob. intros w3 Hd3 Hl3 Hv3.
    apply wp_ret, wp_ret, Hret, (H w3 p Retry).
    apply (failure_finish r w w1 w3 p p Retry t).
    + by eapply stage_retry.
    + done.
    + by etrans.
    + rewrite Hv3, Hv2. done.
    + intros _. destruct Hl1, Hl2, Hl3. lia.
    + split; [done|congruence].
  - apply wp_bind. unfold ClearRetry. apply wp_DEL. intros w2 Hd2 Hl2 Hv2.
    eapply wp_mono; [apply (wp_count_failure r w w2 p n Φ); [done|done|by etrans|congruence| |done]|].
    + right. split; [done|]. split; [lia|]. exists now1, now2, (rview w1).
      destruct Hl2. split_and!; done || lia.
    + intros b σ' Hb. eapply wp_mono; [exact Hb|]. intros ? σ'' HΦ. by apply Hret.
Qed.

End HandlerRules.

(** ** The handler of successes *)

Section SuccessRules.
Context {U : UuidLib} {UL : UuidLaws U} {S : Services} {SL : ServiceLaws S}.
Context {MS : MonitorService} {ML : MonitorServiceLaws S MS}.
Context {good : forall c, reply c -> Prop} {G : RedisReliable good}.

(** What the close statement does to the incidents of a monitor, at a time of
    an interval. *)
Definition incidents_closed (id : UUID) (t0 t1 : Z) (d d' : database) : Prop :=
  exists t, t0 <= t <= t1 /\ d' = (sql_close (ToPgUUID id) (ToPgTimestamptz t) d).1.

Lemma incidents_closed_within id t t0 t1 d d' :
  t0 <= t <= t1 -> incidents_closed id t t d d' -> incidents_closed id t0 t1 d d'.
Proof using. intros Ht (t' & ? & E). exists t'. split; [lia|done]. Qed.

Definition has_db_incident (v : redis) (id : UUID) : bool :=
  bool_decide (default "" (texts (incident v id) !! "db_incident") = "true").

(** Everything the handler of successes promises. *)
Record success_handled (r : HTTPResult) (w w' : world) : Prop := {
  sh_later : later w w';
  sh_outage : forall t, outage_of t (rview w') (r_MonitorID r) = no_outage;
  sh_queue : requeued Next r (gclock w) (gclock w') (rview w) (rview w');
  sh_others : others_kept (r_MonitorID r) (rview w) (rview w');
  sh_status : hash (rview w') (statusKey (r_MonitorID r)) =
    hset_all (status_fields (r_Status r) (r_LatencyMs r) (r_CheckedAt r))
      (hash (rview w) (statusKey (r_MonitorID r)));
  sh_db : if has_db_incident (rview w) (r_MonitorID r)
          then let closed := incidents_closed (r_MonitorID r) (gclock w) (gclock w') (dview w) (dview w') in
               (dview w' = dview w \/ closed) /\ (good = no_fault -> closed)
          else dview w' = dview w
}.

Lemma wp_CloseIncident x id t w p (Φ : option error -> sys -> Prop) :
  (forall w' e, rview w' = rview w -> later w w' ->
     (dview w' = dview w \/ incidents_closed id t t (dview w) (dview w')) ->
     (good = no_fault -> incidents_closed id t t (dview w) (dview w')) -> Φ e (MkSys w' p)) ->
  wp good (Repository.CloseIncident x id t) (MkSys w p) Φ.
Proof using SL G.
  intros H. unfold Repository.CloseIncident. apply wp_bind, wp_db. intros w' o Heff Hv Hl Hg.
  cbn [query_reply db_effect query_spec] in *.
  assert (forall n, (dview w', n) = sql_close (ToPgUUID id) (ToPgTimestamptz t) (dview w) ->
    incidents_closed id t t (dview w) (dview w')) as Hc by (intros n E; exists t; split; [lia|by rewrite <- E]).
  destruct o as [e|n].
  - apply wp_ret, H; [done|done| |by intros ->].
    destruct Heff as [|[n [E _]]]; [by left|right; by eapply Hc].
  - destruct Heff as [E _]. apply Hc in E. case_decide; apply wp_ret, H; auto.
Qed.

(** The server after the body of the handler. *)
Definition recovered_view (r : HTTPResult) (v : redis) : redis :=
  del (retryKey (r_MonitorID r)) (del (incidentKey (r_MonitorID r)) (status_stored r v)).

Lemma recovered_view_facts r v t :
  outage_of t (recovered_view r v) (r_MonitorID r) = no_outage /\
  zset (recovered_view r v) inflightKey = zset v inflightKey /\
  zset (recovered_view r v) scheduleKey = zset v scheduleKey /\
  others_kept (r_MonitorID r) v (recovered_view r v) /\
  hash (recovered_view r v) (statusKey (r_MonitorID r)) =
    hset_all (status_fields (r_Status r) (r_LatencyMs r) (r_CheckedAt r))
      (hash v (statusKey (r_MonitorID r))).
Proof using UL.
  unfold recovered_view, status_stored. set (id := r_MonitorID r).
  assert (incidentKey id <> retryKey id) by keys_differ.
  assert (incidentKey id <> statusKey id) by keys_differ.
  assert (retryKey id <> statusKey id) by keys_differ.
  assert (retryKey id <> inflightKey /\ incidentKey id <> inflightKey) as [] by (split; keys_differ).
  assert (retryKey id <> scheduleKey /\ incidentKey id <> scheduleKey) as [] by (split; keys_differ).
  split_and!.
  - unfold outage_of, retries, live, incident. rewrite strs_del, !hash_del.
    rewrite decide_True by done. rewrite decide_False by done. by rewrite decide_True.
  - rewrite !zset_del. by rewrite !decide_False.
  - rewrite !zset_del. by rewrite !decide_False.
  - intros k ???. rewrite !strs_del, !hash_del, !zset_del, !decide_False by done.
    split; [done|]. split; [by rewrite hash_set_hash_ne|done].
  - rewrite !hash_del, !decide_False by done. by rewrite hash_set_hash_eq.
Qed.

Lemma wp_handleSuccess r w p (Φ : unit -> sys -> Prop) :
  (forall w', success_handled r w w' -> Φ tt (MkSys w' p)) ->
  wp good (handleSuccess r) (MkSys w p) Φ.
Proof using SL G ML UL.
  intros H. unfold handleSuccess, handleSuccess_body. apply wp_defer.
  apply wp_bind, wp_StoreStatus. intros w1 Hd1 Hl1 Hv1.
  apply wp_bind, wp_GetIncident. intros w2 Hd2 Hl2 Hv2.
  assert (incident (rview w1) (r_MonitorID r) = incident (rview w) (r_MonitorID r)) as Hi.
  { unfold incident. rewrite Hv1. unfold status_stored. apply hash_set_hash_ne. keys_differ. }
  rewrite Hi. fold (has_db_incident (rview w) (r_MonitorID r)).
  apply wp_bind.
  eapply wp_mono with (Φ1 := fun _ σ3 => sp σ3 = p /\ rview (sw σ3) = rview w2 /\ later w2 (sw σ3) /\
    if has_db_incident (rview w) (r_MonitorID r)
    then let closed := incidents_closed (r_MonitorID r) (gclock w) (gclock (sw σ3)) (dview w) (dview (sw σ3)) in
         (dview (sw σ3) = dview w \/ closed) /\ (good = no_fault -> closed)
    else dview (sw σ3) = dview w).
  { destruct (has_db_incident (rview w) (r_MonitorID r)).
    - apply wp_bind, wp_time_now. intros w3 t _ (Hv3 & Hd3 & Hl3) Ht.
      apply wp_bind, wp_CloseIncident. intros w4 e Hv4 Hl4 Hc Hnf. apply wp_ret. cbn.
      rewrite Hd3, Hd2, Hd1 in *. split; [done|]. split; [congruence|]. split; [by etrans|].
      assert (gclock w <= t <= gclock w4) as Hin by (destruct Hl1, Hl2, Hl4; lia).
      split; [destruct Hc as [|Hc]; [by left|right]|intros E; specialize (Hnf E)];
        by eapply incidents_closed_within.
    - apply wp_ret. cbn. split; [done|]. split; [done|]. split; [reflexivity|]. congruence. }
  intros [] [w3 p3] (Hp & Hv3 & Hl3 & Hdb). cbn in *. subst p3.
  apply wp_bind. unfold ClearIncident. apply wp_DEL. intros w4 Hd4 Hl4 Hv4.
  apply wp_bind. unfold ClearRetry. apply wp_DEL. intros w5 Hd5 Hl5 Hv5.
  apply wp_ret, wp_bind, wp_bind, wp_AckJob. intros w6 Hd6 Hl6 Hv6.
  eapply wp_mono; [by apply schedule_ok|]. intros [] [w7 p7] (Hp & Hd7 & Hl7 & t & Ht & Hv7).
  cbn in *. subst p7. apply wp_ret, H.
  assert (rview w5 = recovered_view r (rview w)) as E5 by (by rewrite Hv5, Hv4, Hv3, Hv2, Hv1).
  assert (rview w7 = queue_part Next r t (recovered_view r (rview w))) as E7
    by (by rewrite Hv7, Hv6, E5).
  assert (later w w7) as Hl by (by do 6 (etrans; [done|])).
  destruct (recovered_view_facts r (rview w) 0) as (_ & F1 & F2 & F3 & F4).
  destruct (queue_part_frame Next r t (recovered_view r (rview w))) as (Es & Eh & Ez).
  split.
  - done.
  - intros t'. rewrite (outage_of_frame t' (recovered_view r (rview w))) by by rewrite E7.
    apply recovered_view_facts.
  - eapply requeued_staged; [exact F1|exact F2|]. rewrite E7. apply queue_part_requeued.
    intros _. destruct Hl1, Hl2, Hl3, Hl4, Hl5, Hl6. lia.
  - intros k K1 K2 K3. destruct (F3 k K1 K2 K3) as (E1 & E2 & E3). rewrite E7, Es.
    split; [done|]. split; [unfold hash in *; by rewrite Eh|]. intros ??. rewrite Ez by done. by apply E3.
  - unfold hash at 1. rewrite E7, Eh. exact F4.
  - rewrite Hd7, Hd6, Hd5, Hd4. destruct (has_db_incident _ _); [|exact Hdb].
    assert (gclock w3 <= gclock w7) as Hle by (destruct Hl4, Hl5, Hl6, Hl7; lia).
    assert (forall d, incidents_closed (r_MonitorID r) (gclock w) (gclock w3) (dview w) d ->
      incidents_closed (r_MonitorID r) (gclock w) (gclock w7) (dview w) d) as Hwid
      by (intros d (t' & ? & E); exists t'; split; [lia|done]).
    cbn zeta in *. destruct Hdb as [Hdb Hnf]. split; [destruct Hdb as [|Hc]; auto|auto].
Qed.

End SuccessRules.

(** ** Properties *)

Section Properties.
Context {U : UuidLib} {UL : UuidLaws U} {S : Services} {SL : ServiceLaws S}.
Context {MS : MonitorService} {ML : MonitorServiceLaws S MS}.

(** Failed checks handled one after the other. *)
Fixpoint handle_all (rs : list HTTPResult) : prog unit :=
  match rs with
  | [] => mret tt
  | r :: rs => handleFailure r ;; handle_all rs
  end.

(** The alerts for a monitor that wait in the alert channel. *)
Definition alert_count (id : UUID) (p : proc) : nat :=
  length (filter (fun a => a = MkAlertEvent id) (ch_buf (alertChan p))).

(** The alert was given exactly if three failures were counted. *)
Definition policy_ok (h : gmap string rval) : Prop := alerted h = bool_decide (3 <= count h).

Lemma policy_count h h' a :
  policy_ok h -> count_failure (MkOutage 0 (count h) (alerted h)) = (MkOutage 0 (count h') (alerted h'), a) ->
  policy_ok h' /\ count h' = count h + 1 /\ (a = Alert <-> count h < 3 <= count h').
Proof using.
  intros Hok Hcf.
  destruct (fail_step_inv Final (MkOutage 0 (count h) (alerted h)) _ a Hok Hcf) as (H1 & _ & H2).
  apply count_failure_cases in Hcf as (_ & Hn & _). by cbn in *.
Qed.

(** The channel after an action. *)
Lemma acted_channel {good} a r t0 t1 d d' p p' id :
  acted (good := good) a r t0 t1 d d' p p' ->
  alert_count id p' = (alert_count id p +
    if decide (a = Alert /\ r_MonitorID r = id) then 1 else 0)%nat /\
  ch_closed (alertChan p') = ch_closed (alertChan p) /\ ch_cap (alertChan p') = ch_cap (alertChan p) /\
  (length (ch_buf (alertChan p')) <= 1 + length (ch_buf (alertChan p)))%nat.
Proof using.
  intros H. unfold alert_count.
  assert (p' = p -> a <> Alert -> length (filter (fun a => a = MkAlertEvent id) (ch_buf (alertChan p'))) =
    (length (filter (fun a => a = MkAlertEvent id) (ch_buf (alertChan p))) +
     if decide (a = Alert /\ r_MonitorID r = id) then 1 else 0)%nat /\
    ch_closed (alertChan p') = ch_closed (alertChan p) /\ ch_cap (alertChan p') = ch_cap (alertChan p) /\
    (length (ch_buf (alertChan p')) <= 1 + length (ch_buf (alertChan p)))%nat) as Hsame.
  { intros -> Ha. rewrite decide_False by naive_solver. split_and!; [lia|done|done|lia]. }
  destruct a; [destruct H; by apply Hsame..|]. destruct H as (-> & _). cbn.
  rewrite filter_app, !length_app, filter_cons. cbn. split; [|split_and!; [done|done|lia]].
  f_equal. destruct (decide (r_MonitorID r = id)) as [<-|Hne].
  - rewrite decide_True by done. by rewrite decide_True by done.
  - rewrite decide_False by naive_solver. by rewrite decide_False by naive_solver.
Qed.

(** One handled failure, seen from any monitor. *)
Lemma handled_step {good} r w w' p p' a id :
  failure_handled (good := good) r w w' p p' a -> policy_ok (incident (rview w) id) ->
  let f := count (incident (rview w) id) in
  let f' := count (incident (rview w') id) in
  policy_ok (incident (rview w') id) /\ f <= f' /\
  (r_MonitorID r = id -> failure_of r = Final -> f' = f + 1) /\ (r_MonitorID r <> id -> f' = f) /\
  (a = Alert /\ r_MonitorID r = id <-> f < 3 <= f').
Proof using UL.
  intros [_ _ Hc _ _ Ho _ _] Hok f f'. subst f f'.
  destruct (decide (r_MonitorID r = id)) as [<-|Hne].
  - assert (forall b, count_failure (MkOutage 0 (count (incident (rview w) (r_MonitorID r)))
                        (alerted (incident (rview w) (r_MonitorID r)))) =
              (MkOutage 0 (count (incident (rview w') (r_MonitorID r)))
                 (alerted (incident (rview w') (r_MonitorID r))), b) ->
              policy_ok (incident (rview w') (r_MonitorID r)) /\
              count (incident (rview w') (r_MonitorID r)) = count (incident (rview w) (r_MonitorID r)) + 1 /\
              (b = Alert <-> count (incident (rview w) (r_MonitorID r)) < 3 <=
                 count (incident (rview w') (r_MonitorID r)))) as Hp
      by (intros b; by apply policy_count).
    unfold counted_failure in Hc. destruct (failure_of r).
    + destruct Hc as [-> ->]. split; [done|]. split; [lia|]. split; [done|]. split; [done|].
      split; [by intros []|lia].
    + destruct Hc as [[-> ->]|Hc].
      * split; [done|]. split; [lia|]. split; [done|]. split; [done|]. split; [by intros []|lia].
      * apply Hp in Hc as (H1 & H2 & H3). split_and!; [done|lia|done|done|]. tauto.
    + apply Hp in Hc as (H1 & H2 & H3). split_and!; [done|lia|done|done|]. tauto.
  - assert (incident (rview w') id = incident (rview w) id) as ->.
    { unfold incident. apply Ho; [keys_differ|by intros E%(inj incidentKey)|keys_differ]. }
    split; [done|]. split; [lia|]. split; [done|]. split; [done|]. split; [by intros []|lia].
Qed.

(** C6: the failure handler implements the failure policy.  If Redis does not
    fail, whatever Postgres does and with room for an alert, handling a failed
    check ends and takes the step of [fail_step] on what Redis knows of the
    outage (unless the five minutes of the retry counter run out in between);
    the job is acknowledged and scheduled as the action of the step says; an
    alert is sent exactly for the action [Alert], with an incident in the
    database unless the statement fails; nothing changes for other monitors. *)
Theorem handleFailure_refines good {G : RedisReliable good} r w p :
  ch_closed (alertChan p) = false -> ch_room (alertChan p) = true ->
  wp good (handleFailure r) (MkSys w p) (fun _ σ' =>
    exists a, failure_handled (good := good) r w (sw σ') p (sp σ') a).
Proof using SL ML UL. intros H1 H2. apply wp_handleFailure; [done|done|eauto]. Qed.

(** C8: the success handler ends the outage.  If Redis does not fail, whatever
    Postgres does, after a successful check nothing of the outage is left, the
    status is stored, the job is acknowledged and scheduled after the interval
    of the result, the open incidents are closed in the database exactly if
    Redis says that there is one (unless the statement fails), and nothing
    changes for other monitors. *)
Theorem handleSuccess_refines good {G : RedisReliable good} r w p :
  wp good (handleSuccess r) (MkSys w p) (fun _ σ' =>
    sp σ' = p /\ success_handled (good := good) r w (sw σ')).
Proof using SL ML UL. apply wp_handleSuccess. by split. Qed.

(** C7: one alert for an outage, when Redis answers.  From a state where each
    monitor is marked as alerted exactly when three of its failures have been
    counted, as long as no command of Redis fails, the channel of the alerts is
    open and it has room for one message per failure that is handled: however
    many checks of however many monitors fail, in whatever order and for
    whatever reasons, exactly one alert is sent for a monitor when its third
    failure is counted, and none before or after; each failure that is neither
    terminal nor to be retried counts.  (When Redis fails, what is left of it is
    the invariant of the pool: at most one alert between two clearings.) *)
Theorem alert_once good {G : RedisReliable good} rs w p :
  ch_closed (alertChan p) = false ->
  (length (ch_buf (alertChan p)) + length rs <= ch_cap (alertChan p))%nat ->
  (forall id, policy_ok (incident (rview w) id)) ->
  wp good (handle_all rs) (MkSys w p) (fun _ σ' => forall id,
    let f := count (incident (rview w) id) in
    let f' := count (incident (rview (sw σ')) id) in
    policy_ok (incident (rview (sw σ')) id) /\ f <= f' /\
    alert_count id (sp σ') = (alert_count id p + if decide (f < 3 <= f')%Z then 1 else 0)%nat /\
    ((forall r, r ∈ rs -> failure_of r = Final) ->
       f' = f + Z.of_nat (length (filter (fun r => r_MonitorID r = id) rs)))).
Proof using SL ML UL.
  revert w p. induction rs as [|r rs IH]; intros w p Hop Hroom Hok; cbn [handle_all].
  { apply wp_ret. intros id. cbn. rewrite decide_False by lia. split_and!; [done|lia|lia|lia]. }
  apply wp_bind, wp_handleFailure; [done|apply bool_decide_eq_true_2; cbn in Hroom; lia|].
  intros w1 p1 a Hh.
  destruct (acted_channel _ _ _ _ _ _ _ _ uuid_Nil (fh_acted _ _ _ _ _ _ Hh)) as (_ & Hop1 & Hcap1 & Hlen1).
  eapply wp_mono.
  { apply IH; [congruence|cbn in Hroom; lia|]. intros id. by eapply handled_step. }
  intros ? σ2 H2 id. specialize (H2 id). cbn in H2. destruct H2 as (K1 & K2 & K3 & K4).
  destruct (handled_step _ _ _ _ _ _ id Hh (Hok id)) as (_ & J2 & J3 & J4 & J5).
  destruct (acted_channel _ _ _ _ _ _ _ _ id (fh_acted _ _ _ _ _ _ Hh)) as (J6 & _).
  cbv beta zeta in *. split; [done|]. split; [lia|]. split.
  - rewrite K3, J6. destruct (decide (a = Alert /\ r_MonitorID r = id)) as [E|E];
      rewrite J5 in E; repeat case_decide; lia.
  - intros Hall. rewrite K4 by (intros r' Hr'; apply Hall; by right).
    rewrite filter_cons. destruct (decide (r_MonitorID r = id)) as [E|E]; cbn [length].
    + rewrite (J3 E) by (apply Hall; by left). lia.
    + rewrite (J4 E). lia.
Qed.

(** C37: the outage of a site that cannot be reached leaves no incident.  For
    the result of a request without an answer (status 0) the constraint on
    http_status never lets the row in: when the alert is sent, Redis says that
    there is an incident in the database, and there is none. *)
Theorem unreachable_no_incident good {G : RedisReliable good} r w p :
  r_Status r = 0 -> ch_closed (alertChan p) = false -> ch_room (alertChan p) = true ->
  wp good (handleFailure r) (MkSys w p) (fun _ σ' =>
    dview (sw σ') = dview w /\
    (sp σ' <> p -> has_db_incident (rview (sw σ')) (r_MonitorID r) = true)).
Proof using SL ML UL.
  intros Hs H1 H2. apply wp_handleFailure; [done|done|]. intros w' p' a Hh.
  assert (~ incident_inserted r (gclock w) (gclock w') (dview w) (dview w')) as Hno.
  { intros (iid & t & at_ & _ & _ & _ & Hchk & _). rewrite Hs in Hchk. done. }
  pose proof (fh_acted _ _ _ _ _ _ Hh) as Ha. pose proof (fh_db _ _ _ _ _ _ Hh) as Hdb.
  cbn [sw sp]. destruct a; cbn in Ha; [destruct Ha as [-> ->]; done..|].
  destruct Ha as (_ & [Hd|Hd] & _); [|done]. split; [done|]. intros _.
  unfold has_db_incident, texts. rewrite lookup_fmap, (Hdb eq_refl). done.
Qed.

(** C36: the interval of a monitor is not respected.  When a check and the
    handling of its result succeed, the next check is scheduled at once, or
    after five seconds for a retry, or not at all, whatever the interval of
    the monitor is: [executeHTTPCheck] leaves the interval of the result 0. *)
Theorem interval_ignored m w p :
  ch_closed (alertChan p) = false -> ch_room (alertChan p) = true ->
  wp db_may_fail
    (r ← executeHTTPCheck m; if r_Success r then handleSuccess r else handleFailure r)
    (MkSys w p) (fun _ σ' =>
      zset (rview (sw σ')) scheduleKey = zset (rview w) scheduleKey \/
      exists t n, gclock w <= t <= gclock (sw σ') /\ (n = 0 \/ n = 5) /\
        zset (rview (sw σ')) scheduleKey =
          <[uuid_String (m_ID m) := float64_of_int (UnixMilli (t + n * Second))]>
            (zset (rview w) scheduleKey)).
Proof using SL ML UL.
  intros H1 H2. apply wp_bind, wp_executeHTTPCheck. intros w1 r (Hv1 & _ & Hl1) [Hid Hiv _ _] _.
  assert (forall a w', requeued a r (gclock w1) (gclock w') (rview w1) (rview w') ->
    zset (rview w') scheduleKey = zset (rview w) scheduleKey \/
    exists t n, gclock w <= t <= gclock w' /\ (n = 0 \/ n = 5) /\
      zset (rview w') scheduleKey =
        <[uuid_String (m_ID m) := float64_of_int (UnixMilli (t + n * Second))]>
          (zset (rview w) scheduleKey)) as Hq.
  { intros a w' [_ Hs]. rewrite Hv1, Hid in Hs.
    destruct (delay_of a r) as [n|] eqn:En; [right|by left].
    destruct Hs as (t & Ht & Hs). exists t, n. destruct Hl1. split; [lia|]. split; [|done].
    destruct a; cbn in En; [done|..]; injection En as <-; auto. }
  destruct (r_Success r).
  - apply wp_handleSuccess. intros w' Hh. eapply Hq, (sh_queue _ _ _ Hh).
  - apply wp_handleFailure; [done|done|]. intros w' p' a Hh. eapply Hq, (fh_queue _ _ _ _ _ _ Hh).
Qed.

End Properties.

(** ** Witnesses *)

Section Witnesses.
#[local] Existing Instance Hex.lib.
#[local] Existing Instance Hex.laws.
#[local] Existing Instance RefWorld.services.
#[local] Existing Instance RefWorld.laws.

(** The results of the demo monitor: a wrong status, a refused connection, a
    success. *)
Definition result503 : HTTPResult := MkHTTPResult Demo.uid1 false 503 100 "" false Demo.t0 0 "".
Definition result_refused : HTTPResult :=
  MkHTTPResult Demo.uid1 false 0 0 "NETWORK_ERROR" true Demo.t0 0 "".
Definition result_ok : HTTPResult := MkHTTPResult Demo.uid1 true 200 100 "" false Demo.t0 0 "".

(** The third retry of the third counted failure is due. *)
Definition outage_redis : redis :=
  MkRedis {[inflightKey := {[uuid_String Demo.uid1 := Demo.ms0 + 1000]}]}
    {[incidentKey Demo.uid1 := {["failure_count" := RInt 2; "last_failure_at" := RInt 0]}]}
    {[retryKey Demo.uid1 := (RInt 2, Some (Demo.ms0 + 60000))]}.
Definition outage_world : @world RefWorld.services := RefWorld.start outage_redis enabled_db Demo.t0.

(** The policy says [Alert], and the run sends one. *)
Lemma handleFailure_refines_witness :
  (fail_step (failure_of result_refused)
     (outage_of (rclock outage_world) (rview outage_world) Demo.uid1)).2 = Alert /\
  (let '(_, σ', _) := run (handleFailure result_refused) (MkSys outage_world RefWorld.proc10) in
   length (ch_buf (alertChan (sp σ')))) = 1%nat /\
  wp db_may_fail (handleFailure result_refused) (MkSys outage_world RefWorld.proc10) (fun _ σ' =>
    exists a, failure_handled (good := db_may_fail) result_refused outage_world (sw σ')
                RefWorld.proc10 (sp σ') a).
Proof.
  split; [vm_compute; reflexivity|]. split; [vm_compute; reflexivity|].
  apply (handleFailure_refines db_may_fail result_refused outage_world RefWorld.proc10); reflexivity.
Defined.

Lemma handleSuccess_refines_witness :
  wp db_may_fail (handleSuccess result_ok) (MkSys outage_world RefWorld.proc10) (fun _ σ' =>
    sp σ' = RefWorld.proc10 /\
    success_handled (good := db_may_fail) result_ok outage_world (sw σ')).
Proof. apply (handleSuccess_refines db_may_fail result_ok outage_world RefWorld.proc10). Defined.

Lemma flight_policy id : policy_ok (incident (rview flight_world) id).
Proof. done. Qed.

(** Four failures with a wrong status give one alert. *)
Lemma alert_once_witness :
  (forall id, policy_ok (incident (rview flight_world) id)) /\
  (let '(_, σ', _) := run (handle_all (repeat result503 4)) (MkSys flight_world RefWorld.proc10) in
   alert_count Demo.uid1 (sp σ')) = 1%nat /\
  exists Φ, wp db_may_fail (handle_all (repeat result503 4)) (MkSys flight_world RefWorld.proc10) Φ.
Proof.
  split; [exact flight_policy|]. split; [vm_compute; reflexivity|]. eexists.
  apply (alert_once db_may_fail (repeat result503 4) flight_world RefWorld.proc10);
    [reflexivity|cbn; lia|exact flight_policy].
Defined.

Lemma unreachable_no_incident_witness :
  r_Status result_refused = 0 /\
  wp db_may_fail (handleFailure result_refused) (MkSys outage_world RefWorld.proc10) (fun _ σ' =>
    dview (sw σ') = dview outage_world /\
    (sp σ' <> RefWorld.proc10 ->
       has_db_incident (rview (sw σ')) (r_MonitorID result_refused) = true)).
Proof.
  split; [reflexivity|].
  apply (unreachable_no_incident db_may_fail result_refused outage_world RefWorld.proc10); reflexivity.
Defined.

Lemma interval_ignored_witness :
  m_IntervalSec demo_monitor = 60 /\
  exists Φ, wp db_may_fail
    (r ← executeHTTPCheck demo_monitor; if r_Success r then handleSuccess r else handleFailure r)
    (MkSys flight_world RefWorld.proc10) Φ.
Proof.
  split; [reflexivity|]. eexists.
  apply (interval_ignored demo_monitor flight_world RefWorld.proc10); reflexivity.
Defined.

End Witnesses.
