(* ===== verification/Pipeline.v ===== *)
(** * The components together: interleavings

    The service is a pool of tasks over one world: the ticks of the scheduler
    and of the reclaimer, the executor's workers and the goroutines of the
    checks, the router, the result workers, the alert workers and the HTTP
    requests, of any number of processes (cmd/api/main.go, the [Run] and
    [Start] methods).  A step of the pool is one command of one task, or a task
    that starts, ends or spawns; the model has as many workers as there is work
    for, so that it has every interleaving that a bounded number of workers
    has.  The channels are open; their closing is the
    subject of Container and Shutdown.

    The theorems are about every run of the pool.  They rest on [obeys]: each
    task follows a protocol, whatever the others do. *)

From S2P Require Import Prelude AppError Types Redis Postgres Effects Rules Reference RedisStore.
From S2P Require Import Scheduler Security Http User MonitorSvc Handlers Executor Result.
From stdpp Require Import gmap list strings pretty sorting.
#[local] Open Scope Z_scope.

(** ** alert/service.go *)

(** The body of the loop of [handleAlerts]: the event is logged. *)
Definition handleAlert (alert : AlertEvent) : prog unit := mret tt.

(** ** The pool *)

(** A task: the executor's worker with one job, which may end with a monitor to
    check; the goroutine of a check; anything else. *)
Inductive task :=
| TJob (p : prog (option Monitor))
| TCheck (p : prog unit)
| TWork (p : prog unit).

Section Pool.
Context {U : UuidLib} {L : JwtLib} {V : Validator} {S : Services}.

(** The world, the channels of each process, and the tasks with the process
    that runs them. *)
Record pool := MkPool { pl_world : world; pl_procs : list proc; pl_tasks : list (nat * task) }.

Definition pop {A} (ch : chan A) : chan A := MkChan (tail (ch_buf ch)) (ch_cap ch) (ch_closed ch).

(** The tasks that can start in a process, and what they take from its
    channels. *)
Inductive start : proc -> proc -> task -> Prop :=
| start_scheduler sc p : start p p (TWork (doWorkWithReliability sc))
| start_reclaimer rc p : start p p (TWork (reclaim rc))
| start_request ts rt r p : rt ∈ RegisterRoutes ts -> start p p (TWork (serve_route rt r ;; mret tt))
| start_job j l p : ch_buf (jobChan p) = j :: l -> start p (set_jobChan pop p) (TJob (handleJob j))
| start_route r l p : ch_buf (resultChan p) = r :: l -> start p (set_resultChan pop p) (TWork (route r))
| start_success r l p :
    ch_buf (successChan p) = r :: l -> start p (set_successChan pop p) (TWork (handleSuccess r))
| start_failure r l p :
    ch_buf (failureChan p) = r :: l -> start p (set_failureChan pop p) (TWork (handleFailure r))
| start_alert a l p :
    ch_buf (alertChan p) = a :: l -> start p (set_alertChan pop p) (TWork (handleAlert a)).

(** What a task does next: a command, or its end with the task it spawns. *)
Inductive task_step : task -> forall c, (reply c -> task) -> Prop :=
| step_job c k : task_step (TJob (Op c k)) c (fun r => TJob (k r))
| step_check c k : task_step (TCheck (Op c k)) c (fun r => TCheck (k r))
| step_work c k : task_step (TWork (Op c k)) c (fun r => TWork (k r)).

Inductive task_end : task -> option task -> Prop :=
| end_job_none : task_end (TJob (Ret None)) None
| end_job_some m : task_end (TJob (Ret (Some m))) (Some (TCheck (httpCheck m)))
| end_check : task_end (TCheck (Ret tt)) None
| end_work : task_end (TWork (Ret tt)) None.

Definition replace {A} (j : nat) (o : option A) (l : list A) : list A :=
  match o with Some x => <[j := x]> l | None => delete j l end.

(** A step; commands are observed. *)
Inductive step : pool -> option event -> pool -> Prop :=
| step_cmd w ps ts i j t c k p w' p' r :
    ts !! j = Some (i, t) -> task_step t c k -> ps !! i = Some p ->
    exec c (MkSys w p) = Reply (MkSys w' p') r ->
    step (MkPool w ps ts) (Some (existT c r)) (MkPool w' (<[i := p']> ps) (<[j := (i, k r)]> ts))
| step_start w ps ts i p p' t :
    ps !! i = Some p -> start p p' t ->
    step (MkPool w ps ts) None (MkPool w (<[i := p']> ps) (ts ++ [(i, t)]))
| step_end w ps ts i j t o :
    ts !! j = Some (i, t) -> task_end t o ->
    step (MkPool w ps ts) None (MkPool w ps (replace j ((fun t' => (i, t')) <$> o) ts))
| step_time w ps ts w' : unobserved w w' -> step (MkPool w ps ts) None (MkPool w' ps ts).

(** A run and the commands observed in it. *)
Inductive steps : pool -> list event -> pool -> Prop :=
| steps_nil P : steps P [] P
| steps_cons P e P1 tr P2 :
    step P e P1 -> steps P1 tr P2 -> steps P (option_list e ++ tr) P2.

End Pool.
Arguments pool _ : clear implicits.

(** ** The protocol of a task *)

(** What a task holds: whether it is the goroutine of a check, a slot of the
    semaphore, the right to send an alert for an incident. *)
Record ghost := MkGhost { g_check : bool; g_held : nat; g_token : option string }.

Definition keeps_hashes (s : script) (ks : list string) (xs : list Z) : Prop :=
  forall now v v' a, lua_spec (s ks xs) now v v' a -> hashes v' = hashes v.

Section Protocol.
Context {U : UuidLib}.

(** Requests are made only by checks, and checks do nothing without a slot; an
    alert is sent only with the right to it. *)
Definition allowed (q : ghost) (c : cmd) : Prop :=
  (g_check q = true -> g_held q = 1%nat) /\
  match c with
  | Redis (Call (HSETNX _ f _)) => g_token q = None /\ f = "alerted"
  | Redis (EVAL s ks xs) => keeps_hashes s ks xs
  | SendAlert a => g_token q = Some (incidentKey (a_MonitorID a))
  | AcquireSem => g_held q = 0%nat
  | ReleaseSem => g_held q = 1%nat
  | HttpDo _ _ => g_check q = true
  | _ => True
  end.

Definition after_redis (q : ghost) (c : rcmd) : error + rcmd_reply c -> ghost :=
  match c with
  | Call (HSETNX k _ _) => fun r =>
      match r with
      | inr true => MkGhost (g_check q) (g_held q) (Some k)
      | _ => q
      end
  | _ => fun _ => q
  end.

Definition after (q : ghost) (c : cmd) : reply c -> ghost :=
  match c with
  | Redis c => after_redis q c
  | SendAlert _ => fun _ => MkGhost (g_check q) (g_held q) None
  | AcquireSem => fun _ => MkGhost (g_check q) 1 (g_token q)
  | ReleaseSem => fun _ => MkGhost (g_check q) 0 (g_token q)
  | _ => fun _ => q
  end.

(** Replies of open channels. *)
Definition open_reply (c : cmd) : reply c -> Prop :=
  match c with
  | SendResult _ | SendSuccess _ | SendFailure _ | SendAlert _ => fun r => r = true
  | TrySendJob _ _ => fun r => r <> SendOnClosed
  | _ => fun _ => True
  end.

Definition follows {A} (p : prog A) (q : ghost) (Φ : A -> ghost -> Prop) : Prop :=
  obeys allowed after open_reply p q Φ.

(** Programs that have nothing to do with slots and alerts. *)
Definition plain {A} (p : prog A) : Prop :=
  forall q, (g_check q = true -> g_held q = 1%nat) -> follows p q (fun _ q' => q' = q).

Definition plain_cmd (c : cmd) : Prop :=
  match c with
  | Redis (Call (HSETNX _ _ _)) | SendAlert _ | AcquireSem | ReleaseSem | HttpDo _ _ => False
  | Redis (EVAL s ks xs) => keeps_hashes s ks xs
  | _ => True
  end.

Lemma plain_ret {A} (a : A) : plain (mret a).
Proof. by intros q Hq. Qed.

Lemma plain_bind {A B} (p : prog A) (f : A -> prog B) :
  plain p -> (forall a, plain (f a)) -> plain (p ≫= f).
Proof.
  intros Hp Hf q Hq. apply obeys_bind. eapply obeys_mono; [by apply Hp|]. intros a q' ->. by apply Hf.
Qed.

Lemma plain_after c q r : plain_cmd c -> after q c r = q.
Proof. destruct c as [[[]|]| | | | | | | | | | | | | |]; cbn; done. Qed.

Lemma plain_op c : plain_cmd c -> plain (op c).
Proof.
  intros Hc q Hq. apply obeys_op.
  - split; [done|]. destruct c as [[[]|]| | | | | | | | | | | | | |]; cbn in *; done.
  - intros r _. by apply plain_after.
Qed.

Lemma plain_send c f :
  plain_cmd c -> (forall r, open_reply c r -> f r = true) -> plain (send c f).
Proof.
  intros Hc Hf q Hq. unfold send. apply obeys_bind. apply obeys_op.
  - split; [done|]. destruct c as [[[]|]| | | | | | | | | | | | | |]; cbn in *; done.
  - intros r Hr. rewrite (plain_after c q r Hc), (Hf r Hr). by apply obeys_ret.
Qed.

Lemma plain_retry {V} x n (fn : V -> prog (V * option error)) v :
  (forall v, plain (fn v)) -> plain (retry x fn n v).
Proof.
  intros Hfn. unfold retry. generalize 0 as i, (@None error) as err. revert v.
  induction n as [|n IH]; intros v i err; cbn [retry_from]; [apply plain_ret|].
  apply plain_bind; [done|]. intros [v' [e|]]; [|apply plain_ret].
  apply plain_bind; [by apply plain_op|]. intros [ce|]; [apply plain_ret|apply IH].
Qed.

Lemma plain_range {A} (xs : list A) body : (forall x, plain (body x)) -> plain (range xs body).
Proof.
  intros Hb. induction xs as [|x xs IH]; cbn [range]; [apply plain_ret|].
  apply plain_bind; [done|]. intros []; [done|apply plain_ret].
Qed.

End Protocol.

(** Proves that a program is plain, along its text. *)
Ltac plain :=
  repeat match goal with
  | |- plain (_ ≫= _) => apply plain_bind; [|intros ?]
  | |- plain (mret _) => apply plain_ret
  | |- plain (retry _ _ _ _) => apply plain_retry; intros ?
  | |- plain (op _) => apply plain_op; first [exact I | assumption]
  | |- plain (rdb _) => apply plain_op; exact I
  | |- plain _ => solve [auto with monit]
  | |- plain (match ?x with _ => _ end) => destruct x
  | |- plain (let '(_, _) := ?x in _) => destruct x
  | |- _ => progress unfold hgetall, retry_
  end.

(** ** The tasks follow the protocol *)

Section Plain.
Context {U : UuidLib}.

Lemma plain_Schedule x m t : plain (Schedule x m t).
Proof. unfold Schedule. plain. Qed.

Lemma plain_ClearIncident x id : plain (ClearIncident x id).
Proof. unfold ClearIncident. plain. Qed.

Lemma plain_ScheduleMonitor x id n o : plain (Service.ScheduleMonitor x id n o).
Proof. unfold Service.ScheduleMonitor. plain. apply plain_Schedule. Qed.

Lemma plain_getCached x id : plain (Service.getCachedMonitor x id).
Proof. unfold Service.getCachedMonitor. cbn [cache_GetMonitor redis_cache]. unfold GetMonitor. plain. Qed.

Lemma plain_cacheMonitor x m : plain (Service.cacheMonitor x m).
Proof. unfold Service.cacheMonitor. cbn [cache_SetMonitor redis_cache]. unfold SetMonitor. plain. Qed.

#[local] Hint Resolve plain_Schedule plain_ClearIncident plain_ScheduleMonitor plain_getCached
  plain_cacheMonitor : monit.

Lemma plain_LoadMonitor x id : plain (Service.LoadMonitor x id).
Proof.
  unfold Service.LoadMonitor, MonitorSvc.Repository.GetByID. plain.
Qed.

(** The API does nothing with slots and alerts. *)
Lemma served_plain c : served c -> plain_cmd c.
Proof. by destruct c as [[[]|]| | | | | | | | | | | | | |]. Qed.

Lemma returns_plain {A} (p : prog A) (Φ : A -> Prop) : returns p Φ -> plain p.
Proof.
  intros H q Hq. unfold returns, follows, obeys in *. induction p as [a|m|c k IH]; cbn in *; [done|done|].
  destruct H as [Hc Hk]. apply served_plain in Hc. pose proof (plain_op c Hc q Hq) as [Ha _].
  split; [done|]. intros r _. rewrite plain_after by done. by apply IH, Hk.
Qed.

Lemma plain_route r : plain (route r).
Proof. unfold route. destruct (r_Success r); by apply plain_send. Qed.

Lemma keeps_hashes_fetch sk ik xs : keeps_hashes fetchAndMoveToInflightScript [sk; ik] xs.
Proof.
  intros now v v' a H. unfold fetchAndMoveToInflightScript in H.
  apply lua_spec_bind in H as (v1 & items & H1 & H2). cbn in H1.
  destruct H1 as (v2 & items' & [-> _] & -> & ->).
  apply lua_spec_bind in H2 as (v3 & u & H3 & [-> _]).
  eapply lua_for_fold in H3; [|intros; by eapply move_body]. rewrite H3. apply moves_frame.
Qed.

Lemma keeps_hashes_reclaim ik sk xs : keeps_hashes reclaimMonitorsScript [ik; sk] xs.
Proof.
  intros now v v' a H. unfold reclaimMonitorsScript in H.
  apply lua_spec_bind in H as (v1 & items & H1 & H2). cbn in H1.
  destruct H1 as (v2 & items' & [-> _] & -> & ->).
  apply lua_spec_bind in H2 as (v3 & u & H3 & [-> _]).
  eapply lua_for_fold in H3; [|intros; by eapply move_body]. rewrite H3. apply moves_frame.
Qed.

Lemma plain_addJitter d : 0 < Z.quot d 10 -> plain (addJitter d).
Proof. intros H. unfold addJitter, rand_Int63n. rewrite decide_False by lia. plain. Qed.

Lemma plain_dispatch m : plain (dispatch m).
Proof.
  unfold dispatch. destruct (uuid_Parse m) as [e|id]; [apply plain_ret|].
  intros q Hq. apply obeys_bind, obeys_op; [done|]. intros r Hr.
  destruct r; [by apply plain_ret|by apply plain_ret| |done]. cbn [after].
  assert (forall p : prog bool, plain p -> follows p q (fun _ q' => q' = q)) as H by (intros p Hp; by apply Hp).
  apply H. plain. by apply plain_addJitter.
Qed.

Lemma plain_doWork sc : plain (doWorkWithReliability sc).
Proof.
  unfold doWorkWithReliability, FetchAndMoveToInflight. plain.
  - apply plain_op. apply keeps_hashes_fetch.
  - all: apply plain_range; apply plain_dispatch.
Qed.

Lemma plain_reclaim rc : plain (reclaim rc).
Proof. unfold reclaim, ReclaimMonitors. plain. apply plain_op, keeps_hashes_reclaim. Qed.

Lemma plain_handleSuccess r : plain (handleSuccess r).
Proof.
  intros q Hq. unfold handleSuccess. apply obeys_defer.
  assert (plain (handleSuccess_body r)) as Hb.
  { unfold handleSuccess_body, StoreStatus, GetIncident, Repository.CloseIncident, ClearRetry. plain. }
  eapply obeys_mono; [by apply Hb|]. intros [] q' ->.
  assert (plain ((AckJob CtxApp (uuid_String (r_MonitorID r)) ;;
    ScheduleMonitor CtxApp (r_MonitorID r) (r_IntervalSec r) "result.success_worker") ;; mret tt)) as Ht.
  { unfold AckJob. plain. apply plain_ScheduleMonitor. }
  by apply Ht.
Qed.

End Plain.

Section Tasks.
Context {U : UuidLib}.

Lemma follows_plain {A} (p : prog A) q (Φ : A -> ghost -> Prop) :
  plain p -> (g_check q = true -> g_held q = 1%nat) -> (forall a, Φ a q) -> follows p q Φ.
Proof. intros Hp Hq HΦ. eapply obeys_mono; [by apply Hp|]. intros a q' ->. apply HΦ. Qed.

(** The part of the failure handler that may alert. *)
Lemma follows_failurePath r q :
  g_check q = false -> g_token q = None ->
  follows (failurePath r) q (fun _ q' => g_held q' = g_held q /\ g_check q' = false).
Proof.
  intros Hc Ht. assert (g_check q = true -> g_held q = 1%nat) as Hq by congruence.
  unfold failurePath. apply obeys_bind, follows_plain; [|done|].
  { unfold IncrementIncident. plain. }
  intros [[n first] [e|]]; [by apply obeys_ret|].
  case_decide; [by apply obeys_ret|].
  apply obeys_bind. unfold MarkIncidentAlertedIfNotSet. apply obeys_bind, obeys_op; [done|].
  intros [e|b] _; apply obeys_ret; [rewrite decide_True by auto; by apply obeys_ret|].
  destruct b; cbn [after after_redis]; [|rewrite decide_True by auto; by apply obeys_ret].
  rewrite decide_False by naive_solver.
  set (q1 := MkGhost (g_check q) (g_held q) (Some (incidentKey (r_MonitorID r)))).
  assert (g_check q1 = true -> g_held q1 = 1%nat) as Hq1 by (cbn; congruence).
  apply obeys_bind, follows_plain; [unfold MarkDBIncidentCreated; plain|done|]. intros _.
  apply obeys_bind, follows_plain; [plain|done|]. intros now.
  apply obeys_bind, follows_plain; [unfold Repository.Create; plain|done|]. intros e.
  unfold send. apply obeys_bind, obeys_op; [by split|]. intros ? ->. by apply obeys_ret.
Qed.

Lemma follows_handleFailure r q :
  g_check q = false -> g_token q = None ->
  follows (handleFailure r) q (fun _ q' => g_held q' = g_held q /\ g_check q' = false).
Proof.
  intros Hc Ht. assert (g_check q = true -> g_held q = 1%nat) as Hq by congruence.
  unfold handleFailure. apply (obeys_bind _ _ _ (defer _ _ _)), obeys_defer.
  assert (forall (b : bool) q', g_held q' = g_held q /\ g_check q' = false ->
    follows ((AckJob CtxApp (uuid_String (r_MonitorID r)) ;;
              if b then ScheduleMonitor CtxApp (r_MonitorID r) (r_IntervalSec r) "result.failure_worker"
              else mret tt) ;; mret b) q'
      (fun _ q' => follows (mret tt) q' (fun _ q' => g_held q' = g_held q /\ g_check q' = false))) as Htail.
  { intros b q' [H1 H2]. apply follows_plain; [|congruence|].
    - unfold AckJob. plain. apply plain_ScheduleMonitor.
    - intros _. by apply obeys_ret. }
  eapply obeys_mono with (Φ1 := fun _ q' => g_held q' = g_held q /\ g_check q' = false);
    [|intros b q'; apply Htail].
  unfold handleFailure_body. case_decide.
  { apply follows_plain; [|done|done]. unfold StoreStatus. plain. }
  destruct (r_Retryable r).
  - apply obeys_bind, follows_plain; [unfold IncrementRetry; plain|done|].
    intros [n [e|]]; [|case_decide].
    + apply follows_plain; [|done|done]. plain. apply plain_ScheduleMonitor.
    + apply follows_plain; [|done|done]. plain. apply plain_ScheduleMonitor.
    + apply obeys_bind, follows_plain; [unfold ClearRetry; plain|done|]. intros _.
      apply obeys_bind. eapply obeys_mono; [by apply follows_failurePath|]. intros ? q' Hq'.
      by apply obeys_ret.
  - apply obeys_bind. eapply obeys_mono; [by apply follows_failurePath|]. intros ? q' Hq'.
    by apply obeys_ret.
Qed.

Lemma follows_httpCheck m q :
  g_check q = true -> g_held q = 1%nat -> follows (httpCheck m) q (fun _ q' => g_held q' = 0%nat).
Proof.
  intros Hc Hh. assert (g_check q = true -> g_held q = 1%nat) as Hq by done.
  unfold httpCheck. apply obeys_defer, obeys_bind.
  assert (follows (executeHTTPCheck m) q (fun _ q' => q' = q)) as He.
  { unfold executeHTTPCheck. apply obeys_bind, follows_plain; [plain|done|]. intros t0.
    apply obeys_bind, follows_plain; [plain|done|]. intros [e|].
    { apply follows_plain; [plain|done|done]. }
    apply obeys_bind, obeys_op; [done|]. intros o _. cbn [after].
    apply follows_plain; [plain|done|done]. }
  eapply obeys_mono; [exact He|]. intros r q' ->.
  apply obeys_bind, obeys_op; [by split|]. intros ? ->. apply obeys_ret, obeys_bind, obeys_op; [by split|].
  intros ? _. by apply obeys_ret.
Qed.

Lemma follows_handleJob j q :
  g_check q = false -> g_held q = 0%nat ->
  follows (handleJob j) q (fun o q' => g_held q' = match o with Some _ => 1 | None => 0 end%nat /\
                                       g_token q' = g_token q).
Proof.
  intros Hc Hh. assert (g_check q = true -> g_held q = 1%nat) as Hq by congruence.
  unfold handleJob. apply obeys_bind, follows_plain; [apply plain_LoadMonitor|done|].
  intros [e|m].
  - destruct (IsKind e NotFound); [by apply obeys_ret|].
    apply obeys_bind, follows_plain; [apply plain_ScheduleMonitor|done|]. intros _. by apply obeys_ret.
  - destruct (negb (m_Enabled m)); [by apply obeys_ret|].
    apply obeys_bind, obeys_op; [by split|]. intros ? _. by apply obeys_ret.
Qed.

End Tasks.

(** ** The invariant of the pool *)

Section Invariant.
Context {U : UuidLib} {UL : UuidLaws U} {L : JwtLib} {V : Validator}
        {S : Services} {SL : ServiceLaws S}.

(** A task follows the protocol from what it holds on. *)
Definition task_ok (t : task) (q : ghost) : Prop :=
  match t with
  | TJob p => g_check q = false /\
      follows p q (fun o q' => g_held q' = match o with Some _ => 1 | None => 0 end%nat)
  | TCheck p => g_check q = true /\ follows p q (fun _ q' => g_held q' = 0%nat)
  | TWork p => g_check q = false /\ follows p q (fun _ q' => g_held q' = 0%nat)
  end.

Definition idle : ghost := MkGhost false 0 None.

Lemma start_ok p p' t : start p p' t -> task_ok t idle.
Proof.
  intros H. destruct H; cbn; (split; [done|]).
  - apply follows_plain; [apply plain_doWork|done|done].
  - apply follows_plain; [apply plain_reclaim|done|done].
  - apply follows_plain; [|done|done]. apply plain_bind; [|intros ?; apply plain_ret].
    by eapply returns_plain, public_route.
  - eapply obeys_mono; [by apply follows_handleJob|]. by intros o q' [? _].
  - apply follows_plain; [apply plain_route|done|done].
  - apply follows_plain; [apply plain_handleSuccess|done|done].
  - eapply obeys_mono; [by apply follows_handleFailure|]. by intros ? q' [? _].
  - by apply obeys_ret.
Qed.

(** One command of a task. *)
Lemma task_ok_step t c k q r :
  task_ok t q -> task_step t c k -> open_reply c r -> allowed q c /\ task_ok (k r) (after q c r).
Proof.
  assert (g_check (after q c r) = g_check q) as Hg.
  { destruct c as [[[]|]| | | | | | | | | | | | | |]; cbn; try done. by destruct r as [e|[]]. }
  intros Ht Hs Hr. destruct Hs; cbn in Ht |- *; destruct Ht as [Hc [Hok Hk]];
    (split; [done|]); (split; [congruence|]); by apply Hk.
Qed.

(** The end of a task. *)
Lemma task_ok_end t o q :
  task_ok t q -> task_end t o ->
  match o with
  | None => g_held q = 0%nat
  | Some t' => g_held q = 1%nat /\ task_ok t' (MkGhost true 1 None)
  end.
Proof.
  intros Ht He. destruct He; cbn in Ht |- *; destruct Ht as [Hc Ht]; try done.
  split; [done|]. split; [done|]. by apply follows_httpCheck.
Qed.

(** *** One command of the world *)

Definition open (p : proc) : Prop :=
  ch_closed (jobChan p) = false /\ ch_closed (resultChan p) = false /\
  ch_closed (successChan p) = false /\ ch_closed (failureChan p) = false /\
  ch_closed (alertChan p) = false.

(** On open channels: the reply is that of an open channel, the channels stay
    open, and the semaphore counts the slots that the protocol says. *)
Lemma exec_open c w p w' p' r q :
  open p -> exec c (MkSys w p) = Reply (MkSys w' p') r -> allowed q c ->
  open_reply c r /\ open p' /\ sem_cap p' = sem_cap p /\
  (sem_used p' + g_held q = sem_used p + g_held (after q c r))%nat /\
  (sem_used p <= sem_cap p -> sem_used p' <= sem_cap p')%nat.
Proof.
  intros Ho He [_ Ha]. pose proof Ho as (H1 & H2 & H3 & H4 & H5).
  destruct c; cbn [exec] in He.
  - apply exec_ext in He as [_ ->]. split_and!; try done. destruct c as [[]|]; cbn; try done.
    destruct r as [e|[]]; done.
  - apply exec_ext in He as [_ ->]. done.
  - apply exec_ext in He as [_ ->]. done.
  - apply exec_ext in He as [_ ->]. done.
  - apply exec_ext in He as [_ ->]. done.
  - injection He as <- <- <-. done.
  - apply exec_ext in He as [_ ->]. done.
  - unfold exec_try_send_job in He. cbn [sw sp] in He. rewrite H1 in He. cbn in He.
    destruct (ch_room (jobChan p)), (ctx_done x w);
      [destruct (select_first w) as [w1 []]| | |]; injection He as <- <- <-; done.
  - apply exec_send_open in He as [-> [= -> ->]]; done.
  - apply exec_send_open in He as [-> [= -> ->]]; done.
  - apply exec_send_open in He as [-> [= -> ->]]; done.
  - apply exec_send_open in He as [-> [= -> ->]]; done.
  - cbn in Ha. case_decide as Hs; [|done]. injection He as <- <- <-. cbn [sw sp] in *.
    split_and!; try done; cbn; lia.
  - cbn in Ha. case_decide as Hs; [|done]. injection He as <- <- <-. cbn [sw sp] in *.
    split_and!; try done; cbn; lia.
  - apply exec_ext in He as [_ ->]. done.
Qed.

Lemma exec_rview c w p w' p' r :
  exec c (MkSys w p) = Reply (MkSys w' p') r ->
  match c return reply c -> Prop with
  | Redis rc => fun o => call_effect rc (rclock w') (rview w) (rview w') o
  | _ => fun _ => rview w' = rview w
  end r.
Proof using SL.
  intros He.
  destruct c; cbn [exec] in He; try (by apply exec_send_cases in He as [(_ & _ & [= -> _])|(_ & _ & [= -> _])]).
  - apply exec_ext in He as [He _]. destruct r; cbn; eauto using redis_ok, redis_err.
  - apply exec_ext in He as [He _]. by apply db_frame in He as [? _].
  - apply exec_ext in He as [He _]. by apply time_now_ok in He as [[? _] _].
  - apply exec_ext in He as [He _]. by apply int63n_ok in He as [[? _] _].
  - apply exec_ext in He as [He _]. by apply after_or_done_ok in He as [[? _] _].
  - by injection He as <- _ _.
  - apply exec_ext in He as [He _]. by apply http_do_frame in He as [? _].
  - unfold exec_try_send_job in He. cbn [sw sp] in He.
    destruct (ch_closed _), (ch_room _), (ctx_done x w); cbn in He;
      try (destruct (select_first w) as [w1 b] eqn:Es; apply select_frame in Es as [Ev _];
           destruct b); injection He as <- _ _; done.
  - case_decide; [|done]. by injection He as <- _ _.
  - case_decide; [|done]. by injection He as <- _ _.
  - apply exec_ext in He as [He _]. by apply create_hash_frame in He as [? _].
Qed.

(** *** Alerts *)

Definition weight (b : bool) : nat := if b then 1 else 0.

(** The alert of a monitor was given, says Redis. *)
Definition given (id : UUID) (v : redis) : nat := weight (alerted (incident v id)).

(** A task may send an alert for a monitor. *)
Definition may_alert (id : UUID) (q : ghost) : nat :=
  weight (bool_decide (g_token q = Some (incidentKey id))).

Definition is_alert (id : UUID) (e : event) : bool :=
  match projT1 e with SendAlert a => bool_decide (a_MonitorID a = id) | _ => false end.

Definition is_clear (id : UUID) (e : event) : bool :=
  match projT1 e with Redis (Call (DEL k)) => bool_decide (k = incidentKey id) | _ => false end.

Definition count_events (f : event -> bool) (tr : list event) : nat := sum_list_with (weight ∘ f) tr.

Lemma weight_le (b1 b2 : bool) : (b1 = true -> b2 = true) -> (weight b1 <= weight b2)%nat.
Proof. destruct b1, b2; cbn; lia. Qed.

Lemma alerted_hset fs h : alerted h = true -> alerted (hset_all fs h) = true.
Proof.
  unfold hset_all. revert h. induction fs as [|f fs IH]; intros h H; cbn [fold_left]; [done|].
  apply IH. unfold alerted in *. apply bool_decide_eq_true_2. apply bool_decide_eq_true in H.
  destruct (decide (f.1 = "alerted")) as [->|Hne]; [rewrite lookup_insert_eq; eauto|].
  by rewrite lookup_insert_ne.
Qed.

(** Only [DEL] takes the mark away. *)
Lemma given_call c now v v' r id :
  rcall_spec c now v v' r -> c <> DEL (incidentKey id) -> (given id v <= given id v')%nat.
Proof using UL.
  intros H Hd. apply weight_le. intros Ha.
  assert (hash v' (incidentKey id) = hash v (incidentKey id) -> alerted (incident v' id) = true) as Hsame
    by (unfold incident; by intros ->).
  assert (forall k h, v' = set_hash k h v -> (k = incidentKey id -> alerted h = true) ->
    alerted (incident v' id) = true) as Hset.
  { intros k h -> Hh. unfold incident. rewrite hash_set_hash. case_decide as Hk; [auto|]. exact Ha. }
  destruct c; cbn [rcall_spec] in H.
  - apply Hsame. by destruct H as [-> _].
  - apply Hsame. by destruct H as [-> _].
  - apply Hsame. by destruct H as [-> _].
  - apply Hsame. by destruct H as (z & -> & _).
  - destruct H as (old & _ & _ & _ & Hv). eapply Hset; [exact Hv|]. intros ->.
    by apply (alerted_hset [(field, _)]).
  - destruct H as [Hv _]. eapply Hset; [exact Hv|]. intros ->. by apply alerted_hset.
  - destruct (hash v key !! field); destruct H as [_ Hv]; [apply Hsame; by rewrite Hv|].
    eapply Hset; [exact Hv|]. intros ->. by apply (alerted_hset [(field, _)]).
  - apply Hsame. by destruct H as [_ ->].
  - apply Hsame. by destruct H as [_ ->].
  - apply Hsame. by destruct H as (old & _ & _ & _ & ->).
  - apply Hsame. destruct (live now v key); by destruct H as [_ ->].
  - apply Hsame. assert (v' = del key v) as -> by apply H. rewrite hash_del, decide_False; [done|]. intros ->. by apply Hd.
  - apply Hsame. by destruct H as [_ ->].
  - apply Hsame. by rewrite H.
Qed.

(** One command moves at most one unit from the mark to the right and from the
    right to the alert. *)
Lemma alert_step c w p w' p' r q id :
  allowed q c -> exec c (MkSys w p) = Reply (MkSys w' p') r ->
  (weight (is_alert id (existT c r)) + may_alert id (after q c r) + given id (rview w) <=
   may_alert id q + weight (is_clear id (existT c r)) + given id (rview w'))%nat.
Proof using SL UL.
  intros [_ Ha] He. apply exec_rview in He.
  assert (forall v, (given id v <= 1)%nat) as H1 by (intros v; unfold given; destruct (alerted _); cbn; lia).
  destruct c as [rc|q0| |n|x d|url|url d|x j|r0|r0|r0|a| | |pw]; cbn [is_alert is_clear projT1 after weight];
    try (rewrite He; unfold may_alert; cbn [g_token]; lia).
  2: { rewrite He. cbn in Ha. unfold may_alert. rewrite Ha. cbn [g_token].
       rewrite (bool_decide_eq_false_2 (None = _)) by done.
       destruct (decide (a_MonitorID a = id)) as [<-|Hne].
       - rewrite !bool_decide_eq_true_2 by done. cbn. lia.
       - rewrite (bool_decide_eq_false_2 (a_MonitorID a = id)) by done. cbn. lia. }
  destruct rc as [c|s ks xs].
  2: { cbn [after_redis]. assert (hashes (rview w') = hashes (rview w)) as Eh.
       { destruct r as [e|a]; cbn in He, Ha; [destruct He as [->|[a Hs]]; [done|]|]; by eapply Ha. }
       unfold given, incident, hash. rewrite Eh. lia. }
  destruct (decide (c = DEL (incidentKey id))) as [->|Hd].
  { cbn [is_clear after_redis]. rewrite bool_decide_eq_true_2 by done. cbn.
    specialize (H1 (rview w)). lia. }
  assert (given id (rview w) <= given id (rview w'))%nat as Hg.
  { destruct r as [e|n]; cbn in He; [destruct He as [->|[n Hn]]; [done|]|]; by eapply given_call. }
  destruct c; cbn [after_redis]; try lia.
  destruct r as [e|[]]; [lia| |lia]. cbn in He, Ha. destruct Ha as [Ht ->].
  unfold may_alert. rewrite Ht. cbn [g_token]. rewrite (bool_decide_eq_false_2 (None = _)) by done.
  destruct (decide (key = incidentKey id)) as [->|Hne].
  - rewrite bool_decide_eq_true_2 by done. unfold given, alerted, incident.
    destruct (hash (rview w) (incidentKey id) !! "alerted") eqn:E; [by destruct He as [? _]|].
    destruct He as [_ ->]. rewrite hash_set_hash_eq, lookup_insert_eq.
    rewrite (bool_decide_eq_true_2 (is_Some (Some value))) by eauto.
    rewrite bool_decide_eq_false_2 by (by intros [? [=]]). cbn. lia.
  - rewrite bool_decide_eq_false_2; [cbn; lia|congruence].
Qed.

(** *** Steps of the pool *)

(** A task of a process with what it holds. *)
Notation gtask := ((nat * task) * ghost)%type (only parsing).

(** The slots held by the tasks of process [i], the rights to alert. *)
Definition slot_of (i : nat) (x : gtask) : nat := if decide (x.1.1 = i) then g_held x.2 else 0%nat.
Definition slots (i : nat) : list gtask -> nat := sum_of (slot_of i).
Definition rights (id : UUID) : list gtask -> nat := sum_of (fun x => may_alert id x.2).

(** What the invariant says of a process with [n] slots held by tasks. *)
Definition proc_ok (n : nat) (p : proc) : Prop :=
  open p /\ n = sem_used p /\ (sem_used p <= sem_cap p)%nat.

Record pool_ok (P : pool S) (l : list gtask) : Prop := {
  po_tasks : pl_tasks P = l.*1;
  po_follow : Forall (fun x => task_ok x.1.2 x.2) l;
  po_procs : forall i p, pl_procs P !! i = Some p -> proc_ok (slots i l) p
}.

Lemma start_proc p p' t n : start p p' t -> proc_ok n p -> proc_ok n p'.
Proof using. intros H Ho. destruct H; exact Ho. Qed.

Lemma gtask_lookup P l j i t :
  pool_ok P l -> pl_tasks P !! j = Some (i, t) -> exists q, l !! j = Some ((i, t), q) /\ task_ok t q.
Proof using.
  intros [Ht Hf _] Hj. rewrite Ht, list_lookup_fmap in Hj.
  apply fmap_Some in Hj as ([it q] & E & [= <-]). exists q. split; [done|].
  rewrite Forall_lookup in Hf. exact (Hf j _ E).
Qed.

Lemma procs_insert (ps : list proc) l l' i p' :
  (forall i p, ps !! i = Some p -> proc_ok (slots i l) p) ->
  proc_ok (slots i l') p' ->
  (forall i', i' <> i -> slots i' l' = slots i' l) ->
  forall i' p, <[i := p']> ps !! i' = Some p -> proc_ok (slots i' l') p.
Proof using.
  intros Hps Hp' Hl i' p. rewrite list_lookup_insert_Some. intros [(<- & <- & _)|[Hne H]]; [done|].
  rewrite Hl by done. by apply Hps.
Qed.

(** A task moves to the state [(i, t'), q'] of its process. *)
Lemma slots_insert l i i' j t q t' q' :
  l !! j = Some ((i, t), q) ->
  slots i' (<[j := ((i, t'), q')]> l) =
  if decide (i' = i) then (slots i l + g_held q' - g_held q)%nat else slots i' l.
Proof using.
  intros H. pose proof (sum_of_insert (slot_of i') l j _ ((i, t'), q') H) as E. unfold slots.
  change (slot_of i' (i, t, q)) with (if decide (i = i') then g_held q else 0%nat) in E.
  change (slot_of i' (i, t', q')) with (if decide (i = i') then g_held q' else 0%nat) in E.
  destruct (decide (i' = i)) as [->|D].
  - rewrite !decide_True in E by done. lia.
  - rewrite !decide_False in E by congruence. lia.
Qed.

(** The rights to alert and the alerts given, along a step: the potential that
    only clearing an incident raises. *)
Definition alert_balance (id : UUID) (P P' : pool S) (tr : list event) (l l' : list gtask) : Prop :=
  (count_events (is_alert id) tr + rights id l' + given id (rview (pl_world P)) <=
   rights id l + count_events (is_clear id) tr + given id (rview (pl_world P')))%nat.

Definition pool_step_ok (P P' : pool S) (tr : list event) (l : list gtask) : Prop :=
  exists l', pool_ok P' l' /\ forall id, alert_balance id P P' tr l l'.

Lemma pool_ok_cmd w ps ts i j t c k p w' p' r l :
  pool_ok (MkPool w ps ts) l ->
  ts !! j = Some (i, t) -> task_step t c k -> ps !! i = Some p ->
  exec c (MkSys w p) = Reply (MkSys w' p') r ->
  pool_step_ok (MkPool w ps ts) (MkPool w' (<[i := p']> ps) (<[j := (i, k r)]> ts)) [existT c r] l.
Proof using SL UL.
  intros Hok Hj Hts Hp He. pose proof Hok as [Ht Hf Hps]. cbn [pl_world pl_procs pl_tasks] in *.
  destruct (gtask_lookup _ _ j i t Hok Hj) as (q & Hl & Htq).
  assert (allowed q c) as Ha by (destruct Hts; cbn in Htq; by destruct Htq as [_ [? _]]).
  destruct (Hps i p Hp) as (Ho & Hu & Hle).
  destruct (exec_open c w p w' p' r q Ho He Ha) as (Hr & Hop & Hcap & Hused & Hle').
  destruct (task_ok_step t c k q r Htq Hts Hr) as [_ Hk].
  exists (<[j := ((i, k r), after q c r)]> l). split; [split; cbn [pl_procs pl_tasks]|].
  - by rewrite Ht, list_fmap_insert.
  - by apply Forall_insert.
  - eapply procs_insert; [exact Hps| |].
    + rewrite (slots_insert _ _ _ _ _ _ _ _ Hl), decide_True by done. split; [done|].
      split; [lia|by apply Hle'].
    + intros i' Hne. by rewrite (slots_insert _ _ _ _ _ _ _ _ Hl), decide_False.
  - intros id. pose proof (alert_step c w p w' p' r q id Ha He) as Hw. unfold alert_balance, rights.
    pose proof (sum_of_insert (fun x => may_alert id x.2) l j _ ((i, k r), after q c r) Hl) as Ht'.
    cbn in Ht'. unfold count_events. cbn [option_list sum_list_with pl_world]. unfold compose. lia.
Qed.

Lemma pool_ok_start w ps ts i p p' t l :
  pool_ok (MkPool w ps ts) l -> ps !! i = Some p -> start p p' t ->
  pool_step_ok (MkPool w ps ts) (MkPool w (<[i := p']> ps) (ts ++ [(i, t)])) [] l.
Proof using.
  intros [Ht Hf Hps] Hp Hst. cbn [pl_world pl_procs pl_tasks] in *.
  assert (forall i', slots i' (l ++ [((i, t), idle)]) = slots i' l) as Hsl.
  { intros i'. unfold slots. rewrite sum_of_snoc.
    assert (slot_of i' (i, t, idle) = 0%nat) as -> by (unfold slot_of; by case_decide). lia. }
  exists (l ++ [((i, t), idle)]). split; [split; cbn [pl_procs pl_tasks]|].
  - by rewrite Ht, fmap_app.
  - apply Forall_app. split; [done|]. constructor; [|done]. by eapply start_ok.
  - eapply procs_insert; [exact Hps| |by intros; apply Hsl].
    rewrite Hsl. eapply start_proc; [done|]. by apply Hps.
  - intros id. unfold alert_balance, rights. rewrite sum_of_snoc. cbn.
    assert (may_alert id idle = 0%nat) as -> by (unfold may_alert; by rewrite bool_decide_eq_false_2).
    lia.
Qed.

Lemma pool_ok_end w ps ts i j t o l :
  pool_ok (MkPool w ps ts) l -> ts !! j = Some (i, t) -> task_end t o ->
  pool_step_ok (MkPool w ps ts) (MkPool w ps (replace j ((fun t' => (i, t')) <$> o) ts)) [] l.
Proof using.
  intros Hok Hj Hend. pose proof Hok as [Ht Hf Hps]. cbn [pl_world pl_procs pl_tasks] in *.
  destruct (gtask_lookup _ _ j i t Hok Hj) as (q & Hl & Htq).
  pose proof (task_ok_end t o q Htq Hend) as Hq.
  destruct o as [t'|]; cbn [replace fmap option_fmap option_map].
  - destruct Hq as [Hq Ht']. exists (<[j := ((i, t'), MkGhost true 1 None)]> l).
    split; [split; cbn [pl_procs pl_tasks]|].
    + by rewrite Ht, list_fmap_insert.
    + by apply Forall_insert.
    + intros i' p H. rewrite (slots_insert _ _ _ _ _ _ _ _ Hl). specialize (Hps i' p H).
      case_decide as D; [subst i'|done]. cbn. rewrite Hq.
      by replace (slots i l + 1 - 1)%nat with (slots i l) by lia.
    + intros id. unfold alert_balance, rights.
      pose proof (sum_of_insert (fun x => may_alert id x.2) l j _ ((i, t'), MkGhost true 1 None) Hl) as Hx.
      cbn in Hx. assert (may_alert id (MkGhost true 1 None) = 0%nat) as E
        by (unfold may_alert; by rewrite bool_decide_eq_false_2).
      rewrite E in Hx. cbn. lia.
  - exists (delete j l). split; [split; cbn [pl_procs pl_tasks]|].
    + by rewrite Ht, !delete_take_drop, fmap_app, fmap_take, fmap_drop.
    + rewrite delete_take_drop. apply Forall_app. split; [by apply Forall_take|by apply Forall_drop].
    + intros i' p H. specialize (Hps i' p H).
      pose proof (sum_of_delete (slot_of i') l j _ Hl) as Hx.
      assert (slot_of i' (i, t, q) = 0%nat) as E.
      { unfold slot_of; cbn. case_decide; [by rewrite Hq|done]. }
      unfold slots in *. rewrite E in Hx.
      by replace (sum_of (slot_of i') (delete j l)) with (sum_of (slot_of i') l) by lia.
    + intros id. unfold alert_balance, rights.
      pose proof (sum_of_delete (fun x => may_alert id x.2) l j _ Hl) as Hx. cbn in Hx. cbn. lia.
Qed.

(** The tasks and what they hold after a step. *)
Lemma pool_ok_step P e P' l :
  step P e P' -> pool_ok P l -> pool_step_ok P P' (option_list e) l.
Proof using SL UL.
  intros Hs Hok. destruct Hs as [* Hj Hts Hp He|* Hp Hst|* Hj Hend|w ps ts w' Hu].
  - by eapply pool_ok_cmd.
  - by eapply pool_ok_start.
  - by eapply pool_ok_end.
  - exists l. split; [by destruct Hok|]. intros id. unfold alert_balance. cbn. destruct Hu as [-> _]. lia.
Qed.

Lemma pool_ok_steps P tr P' l : steps P tr P' -> pool_ok P l -> pool_step_ok P P' tr l.
Proof using SL UL.
  intros Hs. revert l. induction Hs as [P|P e P1 tr P2 H1 H2 IH]; intros l Hok.
  - exists l. split; [done|]. intros id. unfold alert_balance. cbn. lia.
  - destruct (pool_ok_step P e P1 l H1 Hok) as (l1 & Hok1 & Hw1).
    destruct (IH l1 Hok1) as (l2 & Hok2 & Hw2). exists l2. split; [done|].
    intros id. specialize (Hw1 id). specialize (Hw2 id). unfold alert_balance, count_events in *.
    rewrite !sum_list_with_app. lia.
Qed.

(** A pool before anything runs: no task, open channels, no slot taken. *)
Definition fresh (P : pool S) : Prop :=
  pl_tasks P = [] /\
  forall i p, pl_procs P !! i = Some p -> open p /\ sem_used p = 0%nat.

Lemma fresh_ok P : fresh P -> pool_ok P [].
Proof using.
  intros [Ht Hp]. split; [done|done|].
  intros i p H. destruct (Hp i p H) as [Ho E]. split; [done|]. rewrite E. cbn. split; [done|lia].
Qed.

End Invariant.

(** ** Properties *)

Section Properties.
Context {U : UuidLib} {UL : UuidLaws U} {L : JwtLib} {V : Validator}
        {S : Services} {SL : ServiceLaws S}.

(** C5: alerts do not multiply.  However the tasks of however many processes
    interleave and whatever fails, a monitor is alerted again only after its
    incident was cleared (by a success or by disabling it): in every run, the
    alerts for a monitor are at most one more than the clearings of its
    incident, and no more than them if the alert was given before. *)
Theorem alerts_between_clears P tr P' id :
  fresh P -> steps P tr P' ->
  (count_events (is_alert id) tr + given id (rview (pl_world P)) <=
   count_events (is_clear id) tr + 1)%nat.
Proof using SL UL.
  intros Hf Hs. destruct (pool_ok_steps P tr P' [] Hs (fresh_ok P Hf)) as (l' & _ & Hw).
  specialize (Hw id). unfold alert_balance in Hw. cbn in Hw. assert (given id (rview (pl_world P')) <= 1)%nat; [|lia].
  unfold given. destruct (alerted _); cbn; lia.
Qed.

(** The checks of process [i] that are still running. *)
Definition is_running (i : nat) (it : nat * task) : bool :=
  match it.2 with TCheck (Op _ _) => bool_decide (it.1 = i) | _ => false end.

Definition running_checks (i : nat) (P : pool S) : nat :=
  sum_list_with (weight ∘ is_running i) (pl_tasks P).

Lemma running_slots i P l : pool_ok P l -> (running_checks i P <= slots i l)%nat.
Proof using.
  intros [Ht Hf _]. unfold running_checks, slots, sum_of, slot_of. rewrite Ht. clear Ht.
  induction Hf as [|[[i' t] q] l Hq Hf IH]; cbn; [lia|].
  assert (weight (is_running i (i', t)) <= if decide (i' = i) then g_held q else 0)%nat; [|lia].
  unfold is_running; cbn. destruct t as [p|[a|m|c k]|p]; cbn; try lia.
  cbn in Hq. destruct Hq as [Hc [[Hh _] _]]. case_decide as Hi.
  - rewrite bool_decide_eq_true_2 by done. rewrite Hh by done. cbn. lia.
  - rewrite bool_decide_eq_false_2 by done. cbn. lia.
Qed.

(** C14: the semaphore bounds the load.  In every run of the pool a process has
    at most as many checks running, and so at most as many HTTP requests under
    way, as its semaphore has slots; no slot is lost: those in use are exactly
    those held by tasks. *)
Theorem checks_bounded P tr P' i p :
  fresh P -> steps P tr P' -> pl_procs P' !! i = Some p ->
  (running_checks i P' <= sem_used p <= sem_cap p)%nat /\
  (pl_tasks P' = [] -> sem_used p = 0%nat).
Proof using SL UL.
  intros Hf Hs Hp.
  destruct (pool_ok_steps P tr P' [] Hs (fresh_ok P Hf)) as (l' & Hok & _).
  destruct (po_procs _ _ Hok i p Hp) as (_ & Hsl & Hle). pose proof (running_slots i P' l' Hok).
  split; [lia|]. intros Hn. rewrite (po_tasks _ _ Hok) in Hn. apply fmap_nil_inv in Hn as ->.
  by rewrite <- Hsl.
Qed.

(** No task of the pool ever panics, however the tasks interleave and
    whatever the services answer, as long as the channels are open. *)
Theorem no_panic P tr P' i t msg :
  fresh P -> steps P tr P' -> (i, t) ∈ pl_tasks P' ->
  t <> TWork (Panic msg) /\ t <> TCheck (Panic msg) /\ t <> TJob (Panic msg).
Proof using SL UL.
  intros Hf Hs Ht.
  destruct (pool_ok_steps P tr P' [] Hs (fresh_ok P Hf)) as (l' & Hok & _).
  apply list_elem_of_lookup in Ht as [j Hj].
  destruct (gtask_lookup _ _ _ _ _ Hok Hj) as (q & _ & Hq).
  split_and!; intros ->; cbn in Hq; by destruct Hq as [_ []].
Qed.

End Properties.

(** ** Runs to evaluate *)

Section Drive.
Context {U : UuidLib} {L : JwtLib} {V : Validator} {S : Services}.

Lemma steps_app (P P1 P2 : pool S) tr1 tr2 :
  steps P tr1 P1 -> steps P1 tr2 P2 -> steps P (tr1 ++ tr2) P2.
Proof.
  intros H1 H2. induction H1 as [|P e P' tr P'' H H1 IH]; [done|].
  rewrite <- app_assoc. eapply steps_cons; [done|]. by apply IH.
Qed.

Lemma steps_started (P P1 P2 : pool S) tr :
  steps P [] P1 -> steps P1 tr P2 -> steps P tr P2.
Proof. apply steps_app. Qed.

(** The next command of a task. *)
Definition next (t : task) : option {c : cmd & reply c -> task} :=
  match t with
  | TJob (Op c k) => Some (existT c (fun r => TJob (k r)))
  | TCheck (Op c k) => Some (existT c (fun r => TCheck (k r)))
  | TWork (Op c k) => Some (existT c (fun r => TWork (k r)))
  | _ => None
  end.

(** The end of a task, and the task it spawns. *)
Definition ended (t : task) : option (option task) :=
  match t with
  | TJob (Ret (Some m)) => Some (Some (TCheck (httpCheck m)))
  | TJob (Ret None) | TCheck (Ret tt) | TWork (Ret tt) => Some None
  | _ => None
  end.

(** One step of the task at [j], if it has one. *)
Definition advance (j : nat) (P : pool S) : list event * pool S :=
  match pl_tasks P !! j with
  | None => ([], P)
  | Some (i, t) =>
      match ended t with
      | Some o => ([], MkPool (pl_world P) (pl_procs P) (replace j ((fun t' => (i, t')) <$> o) (pl_tasks P)))
      | None =>
          match next t, pl_procs P !! i with
          | Some (existT c k), Some p =>
              match exec c (MkSys (pl_world P) p) with
              | Reply σ r =>
                  ([existT c r], MkPool (sw σ) (<[i := sp σ]> (pl_procs P)) (<[j := (i, k r)]> (pl_tasks P)))
              | _ => ([], P)
              end
          | _, _ => ([], P)
          end
      end
  end.

(** The tasks that run, in turn. *)
Fixpoint drive (js : list nat) (P : pool S) : list event * pool S :=
  match js with
  | [] => ([], P)
  | j :: js => let '(e, P1) := advance j P in let '(tr, P2) := drive js P1 in (e ++ tr, P2)
  end.

Lemma advance_steps j P :
  advance j P = ([], P) \/ exists e, step P e (advance j P).2 /\ (advance j P).1 = option_list e.
Proof.
  destruct P as [w ps ts]. unfold advance. cbn [pl_world pl_procs pl_tasks].
  destruct (ts !! j) as [[i t]|] eqn:Hj; [|by left].
  destruct (ended t) as [o|] eqn:He.
  { right. exists None. split; [|done]. eapply step_end; [done|].
    destruct t as [[[]| |]|[[]| |]|[[]| |]]; cbn in He; try discriminate He;
      injection He as <-; constructor. }
  destruct (next t) as [[c k]|] eqn:Hn; [|by left]. destruct (ps !! i) as [p|] eqn:Hp; [|by left].
  destruct (exec c (MkSys w p)) as [[w' p'] r|] eqn:E; [|by left].
  right. exists (Some (existT c r)). split; [|done]. eapply step_cmd; [done| |done|done].
  destruct t as [[]|[]|[]]; cbn in Hn; try done; inversion Hn; subst; simplify_eq; constructor.
Qed.

Lemma drive_steps js P : steps P (drive js P).1 (drive js P).2.
Proof.
  revert P. induction js as [|j js IH]; intros P; cbn [drive]; [constructor|].
  pose proof (advance_steps j P) as H. destruct (advance j P) as [e P1]. specialize (IH P1).
  destruct (drive js P1) as [tr P2]. cbn in *. destruct H as [[= -> ->]|(o & Hs & ->)]; [done|].
  by eapply steps_cons.
Qed.

End Drive.

(** ** Witnesses *)

Section Witnesses.
#[local] Existing Instance Hex.lib.
#[local] Existing Instance Hex.laws.
#[local] Existing Instance RefWorld.services.
#[local] Existing Instance RefWorld.laws.
#[local] Existing Instance RefJwt.lib.
#[local] Existing Instance RefAPI.validator.

(** A process with four failed results to handle. *)
Definition failing_proc : proc :=
  set_failureChan (fun _ => MkChan (repeat result503 4) 10 false) RefWorld.proc10.
Definition failing_pool : pool RefWorld.services := MkPool flight_world [failing_proc] [].

(** Four workers take them, and run in turn. *)
Definition failing_workers : pool RefWorld.services :=
  MkPool flight_world [set_failureChan pop (set_failureChan pop (set_failureChan pop
    (set_failureChan pop failing_proc)))] (repeat (0%nat, TWork (handleFailure result503)) 4).

Definition round_robin (n : nat) : list nat := concat (repeat [0; 1; 2; 3]%nat n).

Lemma failing_started : steps failing_pool [] failing_workers.
Proof.
  do 4 (eapply (steps_cons _ None); [eapply (step_start _ _ _ 0); [reflexivity|by eapply start_failure]|]).
  constructor.
Qed.

Lemma fresh_process w p : open p -> sem_used p = 0%nat -> fresh (MkPool w [p] []).
Proof. intros Ho Hu. split; [done|]. intros [|i] q H; [by injection H as <-|done]. Qed.

(** A process with a job, the worker that takes it, and the check it starts. *)
Definition job_proc : proc :=
  set_jobChan (fun _ => MkChan [MkJobPayload Demo.uid1] 10 false) RefWorld.proc10.
Definition job_pool : pool RefWorld.services := MkPool flight_world [job_proc] [].
Definition job_worker : pool RefWorld.services :=
  MkPool flight_world [set_jobChan pop job_proc] [(0%nat, TJob (handleJob (MkJobPayload Demo.uid1)))].

Lemma job_started : steps job_pool [] job_worker.
Proof.
  eapply (steps_cons _ None); [eapply (step_start _ _ _ 0); [reflexivity|by eapply start_job]|]. constructor.
Qed.

Definition failing_run := drive (round_robin 12) failing_workers.
Definition job_run (n : nat) := drive (repeat 0%nat n) job_worker.

(** The four failures, handled in turn, give one alert. *)
Lemma alerts_between_clears_witness :
  fresh failing_pool /\ steps failing_pool failing_run.1 failing_run.2 /\
  count_events (is_alert Demo.uid1) failing_run.1 = 1%nat /\
  (count_events (is_alert Demo.uid1) failing_run.1 + given Demo.uid1 (rview (pl_world failing_pool)) <=
   count_events (is_clear Demo.uid1) failing_run.1 + 1)%nat.
Proof.
  assert (fresh failing_pool) as Hf by (apply fresh_process; [by repeat split|reflexivity]).
  assert (steps failing_pool failing_run.1 failing_run.2) as Hs
    by exact (steps_app failing_pool failing_workers failing_run.2 [] failing_run.1 failing_started
      (drive_steps (round_robin 12) failing_workers)).
  split; [exact Hf|]. split; [exact Hs|]. split; [vm_compute; reflexivity|].
  exact (alerts_between_clears failing_pool failing_run.1 failing_run.2 Demo.uid1 Hf Hs).
Defined.

Lemma job_run_steps n : fresh job_pool /\ steps job_pool (job_run n).1 (job_run n).2.
Proof.
  split; [apply fresh_process; [by repeat split|reflexivity]|].
  exact (steps_app job_pool job_worker (job_run n).2 [] (job_run n).1 job_started
    (drive_steps (repeat 0%nat n) job_worker)).
Qed.

(** A check is running, with one of the ten slots. *)
Lemma checks_bounded_witness :
  exists p, pl_procs (job_run 7).2 !! 0%nat = Some p /\ running_checks 0 (job_run 7).2 = 1%nat /\
    ((running_checks 0 (job_run 7).2 <= sem_used p <= sem_cap p)%nat /\
     (pl_tasks (job_run 7).2 = [] -> sem_used p = 0%nat)).
Proof.
  eexists. split; [vm_compute; reflexivity|]. split; [vm_compute; reflexivity|].
  destruct (job_run_steps 7) as [Hf Hs].
  apply (checks_bounded job_pool (job_run 7).1 (job_run 7).2 0 _ Hf Hs). vm_compute; reflexivity.
Defined.

(** The first task of a pool. *)
Definition first_task (P : pool RefWorld.services) : task :=
  match pl_tasks P with (_, t) :: _ => t | [] => TWork (mret tt) end.

Lemma first_task_in P i : head (pl_tasks P).*1 = Some i -> (i, first_task P) ∈ pl_tasks P.
Proof. unfold first_task. destruct (pl_tasks P) as [|[j t] l]; intros [= ->]. left. Qed.

Lemma no_panic_witness :
  head (pl_tasks (job_run 7).2).*1 = Some 0%nat /\
  first_task (job_run 7).2 <> TWork (Panic "send on closed channel") /\
  first_task (job_run 7).2 <> TCheck (Panic "send on closed channel") /\
  first_task (job_run 7).2 <> TJob (Panic "send on closed channel").
Proof.
  assert (head (pl_tasks (job_run 7).2).*1 = Some 0%nat) as H by (vm_compute; reflexivity).
  split; [exact H|]. destruct (job_run_steps 7) as [Hf Hs].
  exact (no_panic job_pool (job_run 7).1 (job_run 7).2 0 _ _ Hf Hs (first_task_in _ _ H)).
Defined.

End Witnesses.
