(* ===== verification/Protocol.v ===== *)
(** * Protocols of tasks, lifted to the pool

    Pipeline shows one invariant of the pool from a protocol that every task
    follows.  This file does the same once and for all: from an automaton over
    the commands of a task ([ok], [δ]), the states in which tasks may end, and
    an invariant of the world, the channels and the states of the tasks that
    one command, one start and one end keep, it follows that the invariant
    holds in every run of the pool.  Coherence and Delivery are its clients. *)

From S2P Require Import Prelude AppError Types Redis Postgres Effects Rules Reference RedisStore.
From S2P Require Import Scheduler Security Http User MonitorSvc Handlers Executor Result Pipeline.
From stdpp Require Import gmap list strings pretty sorting.
#[local] Open Scope Z_scope.

Section Lift.
Context {U : UuidLib} {UL : UuidLaws U} {L : JwtLib} {V : Validator}
        {S : Services} {SL : ServiceLaws S}.

(** The protocol: what a command is allowed in, what its reply changes, which
    replies are considered; how a job may end, and anything else. *)
Context {Q : Type} (ok : Q -> cmd -> Prop) (δ : Q -> forall c : cmd, reply c -> Q)
        (good : forall c, reply c -> Prop)
        (job_ends : option Monitor -> Q -> Prop) (ends : Q -> Prop).

Definition task_follows (t : task) (q : Q) : Prop :=
  match t with
  | TJob p => obeys ok δ good p q job_ends
  | TCheck p | TWork p => obeys ok δ good p q (fun _ q' => ends q')
  end.

Lemma task_follows_step t c k q :
  task_follows t q -> task_step t c k ->
  ok q c /\ forall r, good c r -> task_follows (k r) (δ q c r).
Proof using. intros Ht Hs. by destruct Hs; destruct Ht. Qed.

(** The runs considered, and the invariant. *)
Context (permitted : event -> Prop) (I : world -> list proc -> list Q -> Prop).

Record kept : Prop := {
  kept_cmd w ps qs i j q c p w' p' r :
    I w ps qs -> qs !! j = Some q -> ok q c -> ps !! i = Some p -> open p ->
    exec c (MkSys w p) = Reply (MkSys w' p') r -> open_reply c r -> permitted (existT c r) ->
    good c r /\ I w' (<[i := p']> ps) (<[j := δ q c r]> qs);
  kept_start w ps qs i p p' t :
    I w ps qs -> ps !! i = Some p -> start p p' t ->
    exists q, task_follows t q /\ I w (<[i := p']> ps) (qs ++ [q]);
  kept_end w ps qs j q :
    I w ps qs -> qs !! j = Some q -> ends q \/ job_ends None q -> I w ps (delete j qs);
  kept_check w ps qs j q m :
    I w ps qs -> qs !! j = Some q -> job_ends (Some m) q ->
    exists q', task_follows (TCheck (httpCheck m)) q' /\ I w ps (<[j := q']> qs);
  kept_time w w' ps qs : I w ps qs -> unobserved w w' -> I w' ps qs
}.

Definition tasks_follow (P : pool S) (qs : list Q) : Prop :=
  Forall2 (fun it q => task_follows it.2 q) (pl_tasks P) qs.

Definition holds (P : pool S) : Prop :=
  (exists l, pool_ok P l) /\
  exists qs, tasks_follow P qs /\ I (pl_world P) (pl_procs P) qs.

(** What a command does to the tables. *)
Lemma exec_dview c w p w' p' r :
  exec c (MkSys w p) = Reply (MkSys w' p') r ->
  match c return reply c -> Prop with
  | Db s => fun o => db_effect s (dview w) (dview w') o
  | _ => fun _ => dview w' = dview w
  end r.
Proof using SL.
  intros He.
  destruct c; cbn [exec] in He; try (by apply exec_send_cases in He as [(_ & _ & [= -> _])|(_ & _ & [= -> _])]).
  - apply exec_ext in He as [He _]. by apply redis_frame in He as [? _].
  - apply exec_ext in He as [He _]. destruct r; cbn; eauto using db_ok, db_err.
  - apply exec_ext in He as [He _]. by apply time_now_ok in He as [(_ & ? & _) _].
  - apply exec_ext in He as [He _]. by apply int63n_ok in He as [(_ & ? & _) _].
  - apply exec_ext in He as [He _]. by apply after_or_done_ok in He as [(_ & ? & _) _].
  - by injection He as <- _ _.
  - apply exec_ext in He as [He _]. by apply http_do_frame in He as (_ & ? & _).
  - unfold exec_try_send_job in He. cbn [sw sp] in He.
    destruct (ch_closed _), (ch_room _), (ctx_done x w); cbn in He;
      try (destruct (select_first w) as [w1 b] eqn:Es; apply select_frame in Es as (_ & Ev & _);
           destruct b); injection He as <- _ _; done.
  - case_decide; [|done]. by injection He as <- _ _.
  - case_decide; [|done]. by injection He as <- _ _.
  - apply exec_ext in He as [He _]. by apply create_hash_frame in He as (_ & ? & _).
Qed.

(** The reply of a command in the pool is that of an open channel. *)
Lemma pool_open_reply w ps ts l i j t c k p w' p' r :
  pool_ok (MkPool w ps ts) l -> ts !! j = Some (i, t) -> task_step t c k -> ps !! i = Some p ->
  exec c (MkSys w p) = Reply (MkSys w' p') r -> open p /\ open_reply c r.
Proof using SL.
  intros Hok Hj Hts Hp He. destruct (gtask_lookup _ _ j i t Hok Hj) as (q & Hl & Htq).
  assert (allowed q c) as Ha by (destruct Hts; cbn in Htq; by destruct Htq as [_ [? _]]).
  destruct (po_procs _ _ Hok i p Hp) as (Ho & _). split; [done|].
  by destruct (exec_open c w p w' p' r q Ho He Ha).
Qed.

Lemma holds_step P e P' :
  kept -> step P e P' -> Forall permitted (option_list e) -> holds P -> holds P'.
Proof using SL UL.
  intros HK Hs Hperm [[l Hok] (qs & Hf & HI)].
  split; [by destruct (pool_ok_step P e P' l Hs Hok) as (l' & ? & _); exists l'|].
  unfold tasks_follow in *.
  destruct Hs as [w ps ts i j t c k p w' p' r Hj Hts Hp He|w ps ts i p p' t Hp Hst|w ps ts i j t o Hj Hend|w ps ts w' Hu];
    cbn [pl_world pl_procs pl_tasks] in *.
  - destruct (pool_open_reply _ _ _ _ _ _ _ _ _ _ _ _ _ Hok Hj Hts Hp He) as [Hop Hr].
    destruct (Forall2_lookup_l _ _ _ _ _ Hf Hj) as (q & Hq & Htq). cbn in Htq.
    destruct (task_follows_step t c k q Htq Hts) as [Hokq Hk].
    apply Forall_cons_1 in Hperm as [Hperm _].
    destruct (kept_cmd HK _ _ _ i j q c p w' p' r HI Hq Hokq Hp Hop He Hr Hperm) as [Hg HI'].
    exists (<[j := δ q c r]> qs). split; [|done]. apply Forall2_insert; [done|]. by apply Hk.
  - destruct (kept_start HK _ _ _ i p p' t HI Hp Hst) as (q & Hq & HI').
    exists (qs ++ [q]). split; [|done]. apply Forall2_app; [done|]. by constructor.
  - destruct (Forall2_lookup_l _ _ _ _ _ Hf Hj) as (q & Hq & Htq). cbn in Htq.
    assert (ends q \/ job_ends None q -> exists qs, Forall2 (fun it q => task_follows it.2 q) (delete j ts) qs /\
      I w ps qs) as Hdel.
    { intros He. exists (delete j qs). split; [by apply Forall2_delete|]. by eapply (kept_end HK). }
    destruct Hend; cbn [replace fmap option_fmap option_map]; [apply Hdel; by right| |apply Hdel; by left..].
    destruct (kept_check HK _ _ _ j q m HI Hq Htq) as (q' & Hq' & HI').
    exists (<[j := q']> qs). split; [|done]. by apply Forall2_insert.
  - exists qs. split; [done|]. by eapply (kept_time HK).
Qed.

(** Every command of a run is one that a task was allowed. *)
Lemma holds_trace P tr P' :
  kept -> holds P -> steps P tr P' -> Forall permitted tr -> Forall (fun e => exists q, ok q (projT1 e)) tr.
Proof using SL UL.
  intros HK H Hs Hperm. induction Hs as [P|P e P1 tr P2 H1 H2 IH]; [constructor|].
  apply Forall_app in Hperm as [Hp1 Hp2]. apply Forall_app. split; [|by eapply IH; [eapply holds_step|]].
  destruct H as [_ (qs & Hf & _)]. unfold tasks_follow in Hf.
  destruct H1 as [w ps ts i j t c k p w' p' r Hj Hts Hp He| | |]; cbn; try constructor; [|constructor].
  destruct (Forall2_lookup_l _ _ _ _ _ Hf Hj) as (q & Hq & Htq). exists q.
  by destruct (task_follows_step t c k q Htq Hts).
Qed.

(** What holds at the start of a run. *)
Lemma holds_fresh P : Pipeline.fresh P -> I (pl_world P) (pl_procs P) [] -> holds P.
Proof using SL UL.
  intros Hf HI. split; [exists []; by apply fresh_ok|]. exists []. split; [|done].
  unfold tasks_follow. destruct Hf as [-> _]. constructor.
Qed.

Lemma holds_steps P tr P' :
  kept -> Pipeline.fresh P -> I (pl_world P) (pl_procs P) [] -> steps P tr P' -> Forall permitted tr ->
  exists qs, tasks_follow P' qs /\ I (pl_world P') (pl_procs P') qs.
Proof using SL UL.
  intros HK Hf HI Hs Hperm. assert (holds P) as H by by apply holds_fresh. clear Hf HI. induction Hs as [P|P e P1 tr P2 H1 H2 IH]; [by destruct H|].
  apply Forall_app in Hperm as [Hp1 Hp2]. apply IH; [done|]. by eapply holds_step.
Qed.

End Lift.
