(* ===== verification/Coherence.v ===== *)
(** * The cache under concurrency

    Api shows that requests served one after the other keep the cache coherent
    with the table.  Here the requests, the executor's workers and everything
    else are interleaved, command by command, in any number of processes: a
    monitor may be read by one task, changed by a second and cached by the
    first.  The cache stays coherent, because a task caches only what it read,
    and of a row that was read only the flag [Enabled] can change.  The protocol
    is an automaton whose state is the list of the monitors that the task has
    read; Protocol lifts it to the pool. *)

From S2P Require Import Prelude AppError Types Redis Postgres Effects Rules Reference RedisStore.
From S2P Require Import Scheduler Security Http User MonitorJSON MonitorSvc Handlers Api Executor Result Pipeline Protocol.
From stdpp Require Import gmap list strings pretty sorting.
#[local] Open Scope Z_scope.

(** ** The protocol *)

Definition keeps_strs (s : script) (ks : list string) (xs : list Z) : Prop :=
  forall now v v' a, lua_spec (s ks xs) now v v' a -> strs v' = strs v.

Section Protocol.
Context {U : UuidLib}.

(** What a task knows of the tables: the monitors it has read, and a user for
    whom it has counted a monitor that it has not inserted yet. *)
Record knowledge := MkKnowledge { k_read : list Monitor; k_credit : option UUID }.

(** Only what was read is cached, and under its identifier; only what was
    counted is inserted. *)
Definition may (q : knowledge) (c : cmd) : Prop :=
  match c with
  | Redis (Call (SET k data _)) => exists m, m ∈ k_read q /\ k = cacheKey (m_ID m) /\ json_Marshal m = inr data
  | Redis (Call (INCR k)) => forall i, k <> cacheKey i
  | Redis (EVAL s ks xs) => keeps_strs s ks xs
  | Db (Q_CreateMonitor p) => storable_query (Q_CreateMonitor p) /\ k_credit q = Some (pgu_Bytes (cmp_UserID p))
  | _ => True
  end.

Definition row_read (s : query) : error + query_reply s -> option GetMonitorRow :=
  match s with
  | Q_GetMonitorByID _ | Q_GetMonitor _ _ => fun r => match r with inr o => o | inl _ => None end
  | _ => fun _ => None
  end.

Definition credit_after (s : query) (o : option UUID) : error + query_reply s -> option UUID :=
  match s with
  | Q_IncrementMonitorCount i => fun r =>
      match r with
      | inr rows => if decide (rows = 0) then o else Some (pgu_Bytes i)
      | inl _ => o
      end
  | Q_CreateMonitor _ => fun _ => None
  | _ => fun _ => o
  end.

Definition learns (q : knowledge) (c : cmd) : reply c -> knowledge :=
  match c with
  | Db s => fun r => MkKnowledge (option_list (MonitorSvc.Repository.to_Monitor <$> row_read s r) ++ k_read q)
                                 (credit_after s (k_credit q) r)
  | _ => fun _ => q
  end.

Lemma may_storable q s : may q (Db s) -> storable_query s.
Proof. by destruct s; intros []. Qed.

Definition obeying {A} (p : prog A) (q : knowledge) (Φ : A -> knowledge -> Prop) : Prop :=
  obeys may learns open_reply p q Φ.

(** Programs that follow the protocol whatever is known. *)
Definition safe {A} (p : prog A) : Prop := forall q, obeying p q (fun _ _ => True).

Definition safe_cmd (c : cmd) : Prop :=
  match c with
  | Redis (Call (SET _ _ _)) => False
  | Redis (Call (INCR k)) => forall i, k <> cacheKey i
  | Redis (EVAL s ks xs) => keeps_strs s ks xs
  | Db s => ~ inserts_monitor s
  | _ => True
  end.

Lemma safe_ret {A} (a : A) : safe (mret a).
Proof. by intros q. Qed.

Lemma safe_bind {A B} (p : prog A) (f : A -> prog B) :
  safe p -> (forall a, safe (f a)) -> safe (p ≫= f).
Proof.
  intros Hp Hf q. apply obeys_bind. eapply obeys_mono; [apply Hp|]. intros a q' _. by apply Hf.
Qed.

Lemma safe_may q c : safe_cmd c -> may q c.
Proof. destruct c as [[[]|]|[]| | | | | | | | | | | | |]; try done. by intros []. Qed.

Lemma safe_op c : safe_cmd c -> safe (op c).
Proof. intros Hc q. apply obeys_op; [by apply safe_may|done]. Qed.

Lemma safe_send c f : safe_cmd c -> (forall r, open_reply c r -> f r = true) -> safe (send c f).
Proof.
  intros Hc Hf q. unfold send. apply obeys_bind, obeys_op; [by apply safe_may|].
  intros r Hr. by rewrite (Hf r Hr).
Qed.

Lemma safe_retry {V} x n (fn : V -> prog (V * option error)) v :
  (forall v, safe (fn v)) -> safe (retry x fn n v).
Proof.
  intros Hfn. unfold retry. generalize 0 as i, (@None error) as err. revert v.
  induction n as [|n IH]; intros v i err; cbn [retry_from]; [apply safe_ret|].
  apply safe_bind; [done|]. intros [v' [e|]]; [|apply safe_ret].
  apply safe_bind; [by apply safe_op|]. intros [ce|]; [apply safe_ret|apply IH].
Qed.

Lemma safe_range {A} (xs : list A) body : (forall x, safe (body x)) -> safe (range xs body).
Proof.
  intros Hb. induction xs as [|x xs IH]; cbn [range]; [apply safe_ret|].
  apply safe_bind; [done|]. intros []; [done|apply safe_ret].
Qed.

Lemma safe_defer {A} (p : prog A) v f : safe p -> (forall a, safe (f a)) -> safe (defer p v f).
Proof.
  intros Hp Hf q. apply obeys_defer. eapply obeys_mono; [apply Hp|]. intros a q' _.
  apply obeys_bind. eapply obeys_mono; [apply Hf|]. intros _ q'' _. by apply obeys_ret.
Qed.

End Protocol.

(** Along the text of a program. *)
Ltac safe :=
  repeat match goal with
  | |- safe (_ ≫= _) => apply safe_bind; [|intros ?]
  | |- safe (mret _) => apply safe_ret
  | |- safe (retry _ _ _ _) => apply safe_retry; intros ?
  | |- safe (defer _ _ _) => apply safe_defer; [|intros ?]
  | |- safe (send _ _) => apply safe_send; [exact I|done]
  | |- safe (op _) => apply safe_op; first [exact I | exact (fun H => H) | assumption]
  | |- safe (rdb _) => apply safe_op; exact I
  | |- safe _ => solve [auto with monit]
  | |- safe (match ?x with _ => _ end) => destruct x
  | |- safe (let '(_, _) := ?x in _) => destruct x
  | |- _ => progress unfold hgetall, retry_
  end.

(** ** The tasks follow it *)

Section Tasks.
Context {U : UuidLib} {UL : UuidLaws U}.

Lemma safe_Schedule x m t : safe (Schedule x m t).
Proof. unfold Schedule. safe. Qed.

Lemma safe_ScheduleMonitor x id n o : safe (Service.ScheduleMonitor x id n o).
Proof. unfold Service.ScheduleMonitor. safe. apply safe_Schedule. Qed.

Lemma safe_AckJob x m : safe (AckJob x m).
Proof. unfold AckJob. safe. Qed.

Lemma safe_getCached x id : safe (Service.getCachedMonitor x id).
Proof. unfold Service.getCachedMonitor. cbn [cache_GetMonitor redis_cache]. unfold GetMonitor. safe. Qed.

#[local] Hint Resolve safe_Schedule safe_ScheduleMonitor safe_AckJob safe_getCached : monit.

(** Caching a monitor that was read. *)
Lemma obeying_cacheMonitor x m q (Φ : option error -> knowledge -> Prop) :
  m ∈ k_read q -> (forall e, Φ e q) -> obeying (Service.cacheMonitor x m) q Φ.
Proof.
  intros Hm H. unfold Service.cacheMonitor. destruct (json_Marshal_ok m) as [data E]. rewrite E.
  cbn [cache_SetMonitor redis_cache]. unfold SetMonitor.
  apply obeys_bind, obeys_op; [by exists m|]. intros r _. apply obeys_ret, H.
Qed.

(** What the repository returns was read. *)
Definition was_read (o : error + Monitor) (q : knowledge) : Prop := forall m, o = inr m -> m ∈ k_read q.

Lemma obeying_GetByID x id q : obeying (MonitorSvc.Repository.GetByID x id) q was_read.
Proof.
  unfold MonitorSvc.Repository.GetByID. apply obeys_bind, obeys_op; [exact I|].
  intros [e|[row|]] _; apply obeys_ret; intros m; [done| |done]. intros [= <-]. by left.
Qed.

Lemma obeying_Get x u id q : obeying (MonitorSvc.Repository.Get x u id) q was_read.
Proof.
  unfold MonitorSvc.Repository.Get. apply obeys_bind, obeys_op; [exact I|].
  intros [e|[row|]] _; apply obeys_ret; intros m; [done| |done]. intros [= <-]. by left.
Qed.

Lemma safe_cache_read (p : prog (error + Monitor)) x :
  (forall q, obeying p q was_read) ->
  safe (r ← p; match r with
               | inl err => mret (inl err)
               | inr mDB => Service.cacheMonitor x mDB ;; mret (inr mDB)
               end : prog (error + Monitor)).
Proof.
  intros Hp q. apply obeys_bind. eapply obeys_mono; [apply Hp|]. intros [e|m] q' Hr; [by apply obeys_ret|].
  apply obeys_bind, obeying_cacheMonitor; [by apply Hr|]. intros e. by apply obeys_ret.
Qed.

Lemma safe_LoadMonitor x id : safe (Service.LoadMonitor x id).
Proof.
  unfold Service.LoadMonitor. apply safe_bind; [auto with monit|]. intros [e|m]; [|apply safe_ret].
  apply safe_cache_read. intros q. apply obeying_GetByID.
Qed.

Lemma safe_GetMonitor x u id : safe (Service.GetMonitor x u id).
Proof.
  unfold Service.GetMonitor. apply safe_bind; [auto with monit|]. intros c.
  assert (safe (r ← MonitorSvc.Repository.Get x u id;
                match r with
                | inl err => mret (inl err)
                | inr mDB => Service.cacheMonitor x mDB ;; mret (inr mDB)
                end : prog (error + Monitor))) as H by (apply safe_cache_read; intros q; apply obeying_Get).
  destruct c as [e|m]; [exact H|]. case_decide; [apply safe_ret|exact H].
Qed.

Lemma safe_IncrementRetry x id : safe (IncrementRetry x id).
Proof.
  unfold IncrementRetry. apply safe_retry. intros v. apply safe_bind.
  - apply safe_op. cbn. intros i H. unfold cacheKey in H. revert H. change (retryKey id <> cacheKey i).
    unfold cacheKey. keys_differ.
  - intros r. safe.
Qed.

Lemma safe_ClearIncident x id : safe (ClearIncident x id).
Proof. unfold ClearIncident. safe. Qed.

Lemma safe_disable x id : safe (Service.disableMonitor x id).
Proof.
  unfold Service.disableMonitor. cbn [cache_DelMonitor cache_DelSchedule cache_ClearIncident
    cache_DelStatus redis_cache]. unfold DelMonitor, DelSchedule, DelStatus. safe. apply safe_ClearIncident.
Qed.

(** A creation inserts only after it has counted. *)
Lemma safe_CreateMonitor x c : storable_request (RCreate c) -> safe (Service.CreateMonitor x c).
Proof.
  intros Hc q. unfold Service.CreateMonitor. cbn [IncrementMonitorCount user_service].
  unfold User.Service.IncrementMonitorCount, User.Repository.IncrementMonitorCount.
  apply obeys_bind, obeys_bind, obeys_op; [exact I|]. intros [e|rows] _; [by do 2 apply obeys_ret|].
  case_decide as Hrows; [by do 2 apply obeys_ret|]. apply obeys_ret.
  unfold MonitorSvc.Repository.Create. apply obeys_bind, obeys_bind, obeys_op.
  - split; [intros id b at_; by apply storable_params|]. cbn. by rewrite decide_False.
  - intros [e|i] _; apply obeys_ret; [by apply obeys_ret|].
    assert (safe (Service.ScheduleMonitor x (FromPgUUID i) (cm_IntervalSec c) "service.monitor.create_monitor" ;;
      mret (inr (FromPgUUID i)) : prog (error + UUID))) as H by safe. apply H.
Qed.

Lemma safe_UpdateMonitorStatus x u id b : safe (Service.UpdateMonitorStatus x u id b).
Proof.
  unfold Service.UpdateMonitorStatus, MonitorSvc.Repository.Get, MonitorSvc.Repository.SetEnabled. safe.
  apply safe_disable.
Qed.

Lemma safe_closed : closed (@safe _).
Proof.
  split.
  - intros A a. apply safe_ret.
  - intros A B p f. apply safe_bind.
  - safe.
  - intros s. safe.
  - intros q Hq. by apply safe_op.
  - apply safe_CreateMonitor.
  - apply safe_UpdateMonitorStatus.
  - apply safe_GetMonitor.
Qed.

#[local] Hint Resolve safe_LoadMonitor safe_IncrementRetry safe_ClearIncident : monit.

Lemma safe_moves s from to xs :
  (forall now v v' a, lua_spec (s [from; to] xs) now v v' a ->
     exists score items, v' = moves from to score items v) -> keeps_strs s [from; to] xs.
Proof. intros H now v v' a Hs. destruct (H now v v' a Hs) as (score & items & ->). apply moves_frame. Qed.

Lemma safe_dispatch m : safe (dispatch m).
Proof.
  unfold dispatch. destruct (uuid_Parse m) as [e|id]; [apply safe_ret|].
  intros q. apply obeys_bind, obeys_op; [done|]. intros r Hr.
  assert (safe (now ← op TimeNow; jitter ← addJitter (2 * Second); Schedule CtxApp m (now + jitter) ;; mret true)) as Hs.
  { unfold addJitter, rand_Int63n. rewrite decide_False by (by apply Z.lt_nge). safe. }
  destruct r; [by apply obeys_ret|by apply obeys_ret|apply Hs|done].
Qed.

Lemma safe_doWork sc : safe (doWorkWithReliability sc).
Proof.
  unfold doWorkWithReliability, FetchAndMoveToInflight. safe.
  - apply safe_op, safe_moves. intros now v v' x H.
    apply fetchAndMove_script in H as (items & _ & _ & ->). eauto.
  - all: apply safe_range; apply safe_dispatch.
Qed.

Lemma safe_reclaim rc : safe (reclaim rc).
Proof.
  unfold reclaim, ReclaimMonitors. safe. apply safe_op, safe_moves. intros now v v' x H.
  apply reclaim_script in H as (items & _ & _ & ->). eauto.
Qed.

Lemma safe_route r : safe (route r).
Proof. unfold route. safe. Qed.

Lemma safe_handleSuccess r : safe (handleSuccess r).
Proof.
  unfold handleSuccess, handleSuccess_body, StoreStatus, GetIncident, Result.Repository.CloseIncident, ClearRetry.
  safe. apply safe_ScheduleMonitor.
Qed.

Lemma safe_failurePath r : safe (failurePath r).
Proof.
  unfold failurePath, IncrementIncident, MarkIncidentAlertedIfNotSet, MarkDBIncidentCreated, Result.Repository.Create.
  safe.
Qed.

Lemma safe_handleFailure r : safe (handleFailure r).
Proof.
  unfold handleFailure, handleFailure_body, StoreStatus, ClearRetry.
  safe; first [apply safe_failurePath | apply safe_ScheduleMonitor].
Qed.

Lemma safe_httpCheck m : safe (httpCheck m).
Proof. unfold httpCheck, executeHTTPCheck. safe. Qed.

Lemma safe_handleJob j : safe (handleJob j).
Proof.
  unfold handleJob. safe; first [apply safe_LoadMonitor | apply safe_ScheduleMonitor].
Qed.

End Tasks.

(** ** The invariant *)

Section Invariant.
Context {U : UuidLib} {UL : UuidLaws U} {L : JwtLib} {V : Validator}
        {S : Services} {SL : ServiceLaws S}.

(** A monitor that was read is in the table still, up to its flag. *)
Definition known (d : database) (m : Monitor) : Prop := agrees d (m_ID m) m /\ storable m.

Definition coherence (w : world) (ps : list proc) (qs : list knowledge) : Prop :=
  coherent (rview w) (dview w) /\ valid_db (dview w) /\ Forall (Forall (known (dview w)) ∘ k_read) qs.

Lemma coherence_kept w w' ps ps' qs qs' :
  coherence w ps qs -> monitors_kept (dview w) (dview w') -> valid_db (dview w') ->
  coherent (rview w') (dview w') ->
  Forall (fun q => q ∈ qs \/ Forall (known (dview w')) (k_read q)) qs' -> coherence w' ps' qs'.
Proof using.
  intros (_ & _ & Hq) Hk Hv Hc Hqs. split_and!; [done..|].
  eapply Forall_impl; [exact Hqs|]. intros q [Hin|H]; [|done].
  rewrite Forall_forall in Hq. eapply Forall_impl; [by apply Hq|].
  intros m [Ha Hs]. split; [by apply Hk|done].
Qed.

(** A row that is read is known, if the table can be cached. *)
Lemma row_known s d d' r row :
  query_spec s d d' r -> row_read s (inr r) = Some row -> valid_db d ->
  d' = d /\ known d (MonitorSvc.Repository.to_Monitor row).
Proof using.
  intros Hs Hr Hv.
  assert (forall i x, monitors d !! i = Some x -> row = monitor_cols i x -> known d (MonitorSvc.Repository.to_Monitor row)) as H.
  { intros i x Hx ->. split; [|exact (Hv i x (mr_enabled x) Hx)]. by exists x. }
  destruct s; try done; cbn in Hs, Hr; subst r; destruct Hs as [Hs ->]; (split; [done|]).
  - unfold sql_get_monitor_by_id in Hs. destruct (by_id (monitors d) id) as [x|] eqn:E; [|done].
    injection Hs as ->. unfold by_id in E. destruct (pgu_Valid id); [|done]. by eapply H.
  - symmetry in Hs. apply sql_get_monitor_owner in Hs as (x & E & _ & ->).
    unfold by_id in E. destruct (pgu_Valid id); [|done]. by eapply H.
Qed.

(** An allowed call leaves what is in the cache, or caches what is known. *)
Lemma call_coherent c now v v' r q d :
  may q (Redis (Call c)) -> Forall (known d) (k_read q) -> rcall_spec c now v v' r -> coherent v d -> coherent v' d.
Proof using UL.
  intros Ha Hq Hs Hc.
  assert ((forall k x o, strs v' !! k = Some (x, o) -> exists o', strs v !! k = Some (x, o')) -> coherent v' d) as Hsub.
  { intros H id x o m Hx Hm. destruct (H _ _ _ Hx) as [o' Ho]. by eapply Hc. }
  assert (strs v' = strs v -> coherent v' d) as Hsame by (intros E; apply Hsub; rewrite E; eauto).
  destruct c; cbn [rcall_spec] in Hs.
  - apply Hsame. by destruct Hs as [-> _].
  - apply Hsame. by destruct Hs as [-> _].
  - apply Hsame. by destruct Hs as [-> _].
  - apply Hsame. by destruct Hs as (z & -> & _).
  - apply Hsame. by destruct Hs as (old & _ & _ & _ & ->).
  - apply Hsame. by destruct Hs as [-> _].
  - apply Hsame. destruct (hash v key !! field); by destruct Hs as [_ ->].
  - apply Hsame. by destruct Hs as [_ ->].
  - apply Hsame. by destruct Hs as [_ ->].
  - destruct Hs as (old & _ & _ & _ & ->). intros id x o m Hx Hm. rewrite strs_set_str in Hx.
    case_decide as Hk; [by destruct (Ha id)|by eapply Hc].
  - destruct (live now v key) as [y|] eqn:E; [|apply Hsame; by destruct Hs as [_ ->]].
    destruct Hs as [_ ->]. apply Hsub. intros k x o. rewrite strs_set_str. case_decide as Hk; [|eauto].
    intros [= <- <-]. subst k. by eapply live_cached.
  - apply Hsub. intros k x o. assert (v' = del key v) as -> by apply Hs. rewrite strs_del. case_decide; [done|eauto].
  - apply Hsame. by destruct Hs as [_ ->].
  - destruct Ha as (m & Hm & -> & Hd). rewrite Forall_forall in Hq. destruct (Hq m Hm) as [Hag Hst].
    eapply coherent_cached; [exact Hag|exact Hst| |exact Hc]. exists data. split; [done|exact Hs].
Qed.

Lemma redis_coherent c now v v' o q d :
  may q (Redis c) -> Forall (known d) (k_read q) -> call_effect c now v v' o -> coherent v d -> coherent v' d.
Proof using UL.
  intros Ha Hq He Hc. assert (v' = v \/ exists r, rcmd_spec c now v v' r) as [->|[r Hr]];
    [destruct o; cbn in He; eauto|done|].
  destruct c as [c|s ks xs]; [by eapply call_coherent|].
  assert (strs v' = strs v) as E by (by eapply Ha). intros id x o' m. rewrite E. apply Hc.
Qed.

Lemma safe_follows t : (match t with
                        | TJob p => safe p
                        | TCheck p | TWork p => safe p
                        end) ->
  task_follows may learns open_reply (fun _ _ => True) (fun _ => True) t (MkKnowledge [] None).
Proof using. destruct t; intros H; apply H. Qed.

Lemma start_safe p p' t : start p p' t ->
  task_follows may learns open_reply (fun _ _ => True) (fun _ => True) t (MkKnowledge [] None).
Proof using UL.
  intros H. apply safe_follows. destruct H.
  - apply safe_doWork.
  - apply safe_reclaim.
  - apply safe_bind; [by eapply (closed_route _ safe_closed)|intros; apply safe_ret].
  - apply safe_handleJob.
  - apply safe_route.
  - apply safe_handleSuccess.
  - apply safe_handleFailure.
  - apply safe_ret.
Qed.

Lemma coherence_cmd w ps qs i j q c p w' p' r :
  coherence w ps qs -> qs !! j = Some q -> may q c -> exec c (MkSys w p) = Reply (MkSys w' p') r ->
  coherence w' (<[i := p']> ps) (<[j := learns q c r]> qs).
Proof using SL UL.
  intros Hi Hq Ha He. pose proof Hi as (Hc & Hv & Hk).
  pose proof (exec_rview _ _ _ _ _ _ He) as Er. pose proof (exec_dview _ _ _ _ _ _ He) as Ed.
  assert (Forall (known (dview w)) (k_read q)) as Hkq by (rewrite Forall_lookup in Hk; by apply (Hk j)).
  assert (forall q', (q' = q \/ Forall (known (dview w')) (k_read q')) ->
    Forall (fun q0 => q0 ∈ qs \/ Forall (known (dview w')) (k_read q0)) (<[j := q']> qs)) as Hins.
  { intros q' Hq'. apply Forall_insert.
    - apply Forall_forall. auto.
    - destruct Hq' as [->|]; [left; by eapply list_elem_of_lookup_2|by right]. }
  destruct c as [rc|s| |n|x d|url|url d|x k|r0|r0|r0|a| | |pw]; cbn [learns];
    try (eapply coherence_kept; [exact Hi|by rewrite Ed|by rewrite Ed|by rewrite Ed, Er|apply Hins; by left]).
  - eapply coherence_kept; [exact Hi|by rewrite Ed|by rewrite Ed| |apply Hins; by left].
    rewrite Ed. by eapply redis_coherent.
  - assert (monitors_kept (dview w) (dview w') /\ valid_db (dview w')) as [Hkept Hv'].
    { assert (dview w' = dview w \/ exists x, query_spec s (dview w) (dview w') x) as [->|[x Hx]];
        [destruct r; cbn in Ed; eauto|done|]. eapply query_kept; [by eapply may_storable|done|done]. }
    eapply coherence_kept; [exact Hi|done|done|rewrite Er; by eapply coherent_kept|].
    apply Hins. right. cbn [k_read]. apply Forall_app. split.
    + destruct (row_read s r) as [row|] eqn:E; [|constructor]. cbn.
      destruct r as [e|x]; [by destruct s|]. destruct (row_known s _ _ x row Ed E Hv) as [Hd Hrow].
      rewrite Hd. by constructor.
    + eapply Forall_impl; [exact Hkq|]. intros m [Hm Hst]. split; [by apply Hkept|done].
Qed.

Lemma coherence_is_kept :
  kept may learns open_reply (fun _ _ => True) (fun _ => True) (fun _ => True) coherence.
Proof using SL UL.
  split.
  - intros w ps qs i j q c p w' p' r Hi Hq Ha _ _ He Hr _. split; [done|]. by eapply coherence_cmd.
  - intros w ps qs i p p' t Hi _ Hs. exists (MkKnowledge [] None). split; [by eapply start_safe|].
    eapply coherence_kept; [exact Hi|done|apply Hi|apply Hi|]. apply Forall_app. split.
    + apply Forall_forall. auto.
    + constructor; [by right|done].
  - intros w ps qs j q Hi _ _. eapply coherence_kept; [exact Hi|done|apply Hi|apply Hi|].
    apply Forall_forall. intros x Hx. left. rewrite delete_take_drop in Hx.
    apply elem_of_app in Hx as [Hx|Hx]; [by eapply elem_of_take in Hx as (n & Hx & _); eapply list_elem_of_lookup_2|].
    apply list_elem_of_lookup in Hx as [n Hx]. rewrite lookup_drop in Hx. by eapply list_elem_of_lookup_2.
  - intros w ps qs j q m Hi Hq _. exists (MkKnowledge [] None). split; [apply safe_follows, safe_httpCheck|].
    eapply coherence_kept; [exact Hi|done|apply Hi|apply Hi|]. apply Forall_insert; [|by right].
    apply Forall_forall. auto.
  - intros w w' ps qs Hi (Hv & Hd & _). eapply coherence_kept; [exact Hi|by rewrite Hd|rewrite Hd; apply Hi|
      rewrite Hv, Hd; apply Hi|]. apply Forall_forall. auto.
Qed.

(** C18: the cache never contradicts the table, under concurrency.  However the
    tasks of however many processes interleave, command by command (requests
    with any bytes, loads, checks, result workers), and whatever fails, every
    cached monitor is the row of the table with that identifier, up to the flag
    [Enabled], and every row can be cached. *)
Theorem cache_coherent_interleaved P tr P' :
  Pipeline.fresh P ->
  coherent (rview (pl_world P)) (dview (pl_world P)) -> valid_db (dview (pl_world P)) ->
  steps P tr P' ->
  coherent (rview (pl_world P')) (dview (pl_world P')) /\ valid_db (dview (pl_world P')).
Proof using SL UL.
  intros Hf Hc Hv Hs.
  destruct (holds_steps _ _ _ _ _ _ _ P tr P' coherence_is_kept Hf (conj Hc (conj Hv (Forall_nil_2 _))) Hs)
    as (qs & _ & Hc' & Hv' & _); [by apply Forall_forall|done].
Qed.

End Invariant.

(** ** Witness *)

Section Witnesses.
#[local] Existing Instance Hex.lib.
#[local] Existing Instance Hex.laws.
#[local] Existing Instance RefWorld.services.
#[local] Existing Instance RefWorld.laws.
#[local] Existing Instance RefJwt.lib.
#[local] Existing Instance RefAPI.validator.

(** Two workers load the same monitor, which is not cached, at the same time. *)
Definition two_jobs : proc :=
  set_jobChan (fun _ => MkChan [MkJobPayload Demo.uid1; MkJobPayload Demo.uid1] 10 false) RefWorld.proc10.
Definition uncached : @world RefWorld.services := RefWorld.start (MkRedis ∅ ∅ ∅) demo_db Demo.t0.
Definition load_pool : pool RefWorld.services := MkPool uncached [two_jobs] [].
Definition load_workers : pool RefWorld.services :=
  MkPool uncached [set_jobChan pop (set_jobChan pop two_jobs)]
    (repeat (0%nat, TJob (handleJob (MkJobPayload Demo.uid1))) 2).
Definition load_run := drive [0; 1; 0; 1; 0; 1]%nat load_workers.

Definition is_set (e : event) : bool :=
  match projT1 e with Redis (Call (SET _ _ _)) => true | _ => false end.

Lemma load_started : steps load_pool [] load_workers.
Proof.
  do 2 (eapply (steps_cons _ None); [eapply (step_start _ _ _ 0); [reflexivity|by eapply start_job]|]).
  constructor.
Qed.

Lemma load_steps : steps load_pool load_run.1 load_run.2.
Proof.
  exact (steps_app load_pool load_workers load_run.2 [] load_run.1 load_started
    (drive_steps [0; 1; 0; 1; 0; 1]%nat load_workers)).
Qed.

Lemma cache_coherent_interleaved_witness :
  (Pipeline.fresh load_pool /\ count_events is_set load_run.1 = 2%nat) /\
  coherent (rview (pl_world load_run.2)) (dview (pl_world load_run.2)) /\
  valid_db (dview (pl_world load_run.2)).
Proof.
  assert (Pipeline.fresh load_pool) as Hf by (apply fresh_process; [by repeat split|reflexivity]).
  split; [split; [exact Hf|vm_compute; reflexivity]|].
  assert (coherent (rview (pl_world load_pool)) (dview (pl_world load_pool))) as Hc
    by (intros id x o m Hx; discriminate Hx).
  exact (cache_coherent_interleaved load_pool load_run.1 load_run.2 Hf Hc demo_valid load_steps).
Defined.

End Witnesses.
