(* ===== verification/Quota.v ===== *)
(** * The quota under concurrency

    A creation counts a monitor in one statement and inserts it in another, and
    any number of requests of the same user may do so at the same time.  No
    user gets more monitors than were counted: what a task has counted and not
    inserted yet is its credit (the protocol is that of Coherence), and the
    monitors of a user together with the credits of all tasks never exceed the
    count. *)

From S2P Require Import Prelude AppError Types Redis Postgres Effects Rules Reference RedisStore.
From S2P Require Import Scheduler Security Http User MonitorSvc Handlers Api Executor Result Pipeline Protocol Coherence.
From stdpp Require Import gmap list strings pretty sorting.
#[local] Open Scope Z_scope.

(** ** The tables *)

(** Every monitor is that of a user, as the foreign key says. *)
Definition owners_exist (d : database) : Prop :=
  forall i r, monitors d !! i = Some r -> is_Some (users d !! mr_user_id r).

(** The monitors and the credits of a user are covered by its count, which is
    at most ten. *)
Record covered (d : database) (credit : UUID -> nat) : Prop := {
  cv_count : forall u r c, users d !! u = Some r -> u_monitors_count r = Some c ->
               owned_count d u + Z.of_nat (credit u) <= c <= 10;
  cv_owners : owners_exist d;
  cv_credit : forall u, (0 < credit u)%nat -> is_Some (users d !! u)
}.

Lemma covered_quota d credit : covered d credit -> quota_inv d.
Proof. intros [H _ _] u r c Hu Hc. specialize (H u r c Hu Hc). lia. Qed.

Lemma covered_le d credit credit' :
  (forall u, credit' u <= credit u)%nat -> covered d credit -> covered d credit'.
Proof.
  intros Hle [H1 H2 H3]. split; [|done|].
  - intros u r c Hu Hc. specialize (H1 u r c Hu Hc). specialize (Hle u). lia.
  - intros u Hu. apply H3. specialize (Hle u). lia.
Qed.

Lemma owned_count_insert i r d u :
  monitors d !! i = None ->
  owned_count (set_monitors <[i := r]> d) u = owned_count d u + Z.of_nat (weight (bool_decide (mr_user_id r = u))).
Proof.
  intros Hn. unfold owned_count. cbn. case_bool_decide as Hu.
  - rewrite map_filter_insert_True by done. rewrite map_size_insert_None; [cbn; lia|].
    apply map_lookup_filter_None. by left.
  - rewrite map_filter_insert_False by done. rewrite delete_id by done. cbn. lia.
Qed.

(** A user that does not exist owns nothing. *)
Lemma owned_count_none d u : owners_exist d -> users d !! u = None -> owned_count d u = 0.
Proof.
  intros Ho Hu. unfold owned_count. rewrite (map_empty_filter_2 (owns u)); [done|].
  intros i r Hr Hown. destruct (Ho i r Hr) as [x Hx]. unfold owns in Hown. cbn in Hown. congruence.
Qed.

(** The user that a statement counts for, and the one it inserts for. *)
Definition gains (s : query) : query_reply s -> UUID -> nat :=
  match s with
  | Q_IncrementMonitorCount i => fun n u => weight (bool_decide (n <> 0 /\ u = pgu_Bytes i))
  | _ => fun _ _ => 0%nat
  end.

Definition spends (s : query) (u : UUID) : nat :=
  match s with
  | Q_CreateMonitor p => weight (bool_decide (pgu_Bytes (cmp_UserID p) = u))
  | _ => 0%nat
  end.

(** Nothing about users and monitors changes. *)
Lemma covered_same d d' credit :
  users d' = users d -> monitors d' = monitors d -> covered d credit -> covered d' credit.
Proof.
  intros Hu Hm [H1 H2 H3]. split.
  - intros u r c. unfold owned_count. rewrite Hu, Hm. apply H1.
  - intros i r. rewrite Hu, Hm. apply H2.
  - intros u. rewrite Hu. apply H3.
Qed.

Lemma covered_new_user d credit i r :
  users d !! i = None -> u_monitors_count r = Some 0 -> covered d credit ->
  covered (set_users <[i := r]> d) credit.
Proof.
  intros Hn Hr [H1 H2 H3].
  assert (forall u, is_Some (users d !! u) -> is_Some (<[i := r]> (users d) !! u)) as Hs.
  { intros u Hu. apply lookup_insert_is_Some. destruct (decide (i = u)); auto. }
  split; [|intros j x Hx; apply Hs, (H2 j x Hx)|intros u Hu; apply Hs, (H3 u Hu)].
  intros u x c. cbn. rewrite lookup_insert_Some. intros [[<- <-]|[Hne Hx]] Hc; [|by eapply H1].
  assert (c = 0) as -> by congruence. assert (owned_count (set_users <[i:=r]> d) i = owned_count d i) as -> by done.
  rewrite (owned_count_none d i H2 Hn).
  destruct (decide (0 < credit i)%nat) as [Hc'|]; [|lia]. destruct (H3 i Hc') as [y Hy]. congruence.
Qed.

Lemma covered_counted d credit i r r' c :
  users d !! i = Some r -> u_monitors_count r = Some c -> c < 10 -> u_monitors_count r' = Some (c + 1) ->
  covered d credit ->
  covered (set_users <[i := r']> d) (fun u => credit u + weight (bool_decide (u = i)))%nat.
Proof.
  intros Hi Hc Hlt Hc' [H1 H2 H3].
  assert (forall u, is_Some (users d !! u) -> is_Some (<[i := r']> (users d) !! u)) as Hs.
  { intros u Hu. apply lookup_insert_is_Some. destruct (decide (i = u)); auto. }
  split; [|intros j x Hx; apply Hs, (H2 j x Hx)|].
  - intros u x n. cbn. rewrite lookup_insert_Some. intros [[<- <-]|[Hne Hx]] Hn.
    + specialize (H1 _ _ _ Hi Hc). rewrite bool_decide_eq_true_2 by done.
      assert (n = c + 1) as -> by congruence. change (owned_count (set_users <[i:=r']> d) i) with (owned_count d i).
      cbn. lia.
    + rewrite bool_decide_eq_false_2 by done. specialize (H1 _ _ _ Hx Hn). cbn.
      change (owned_count (set_users <[i:=r']> d) u) with (owned_count d u). lia.
  - intros u Hu. cbn. apply Hs. case_bool_decide as E; [subst; eauto|]. apply H3. cbn in Hu. lia.
Qed.

Lemma covered_inserted d credit i r :
  monitors d !! i = None -> is_Some (users d !! mr_user_id r) -> (1 <= credit (mr_user_id r))%nat ->
  covered d credit ->
  covered (set_monitors <[i := r]> d) (fun u => credit u - weight (bool_decide (mr_user_id r = u)))%nat.
Proof.
  intros Hn Hu Hcr [H1 H2 H3]. split.
  - intros u x c Hx Hc. rewrite owned_count_insert by done. specialize (H1 _ _ _ Hx Hc).
    case_bool_decide as E; [subst u|]; cbn; lia.
  - intros j x. cbn. rewrite lookup_insert_Some. intros [[<- <-]|[_ Hx]]; [done|by eapply H2].
  - intros u Hpos. apply H3. lia.
Qed.

Lemma owners_enabled i b u d d' n :
  sql_update_status i b u d = (d', n) -> owners_exist d -> owners_exist d' /\ users d' = users d.
Proof.
  unfold sql_update_status, by_id. intros H Ho. destruct (pgu_Valid i); [|by simplify_eq].
  destruct (monitors d !! pgu_Bytes i) as [r|] eqn:E; [|by simplify_eq].
  case_decide; [|by simplify_eq]. injection H as <- _. split; [|done].
  intros j x. cbn. rewrite lookup_insert_Some. intros [[_ <-]|[_ Hx]]; [exact (Ho _ _ E)|by eapply Ho].
Qed.

(** One statement. *)
Lemma query_covered s d d' y credit :
  query_spec s d d' y -> (forall u, spends s u <= credit u)%nat -> covered d credit ->
  covered d' (fun u => credit u + gains s y u - spends s u)%nat.
Proof.
  intros Hs Hsp Hc.
  assert (forall d1, d1 = d -> covered d1 (fun u => credit u + 0 - 0)%nat) as Hsame.
  { intros d1 ->. eapply covered_le; [|exact Hc]. intros u. cbn. lia. }
  destruct s; cbn [query_spec gains spends] in *.
  - destruct Hs as (_ & Hn & _ & ->). eapply covered_le; [|by apply covered_new_user]. intros u. cbn. lia.
  - apply Hsame. by destruct Hs.
  - apply Hsame. by destruct Hs.
  - assert (covered d (fun u => credit u + weight (bool_decide (0%Z <> 0%Z /\ u = pgu_Bytes id)) - 0)%nat) as Hnone.
    { eapply covered_le; [|exact Hc]. intros u. rewrite bool_decide_eq_false_2 by naive_solver. cbn. lia. }
    unfold sql_increment in Hs. destruct (by_id (users d) id) as [r|] eqn:Er.
    2: by injection Hs as -> ->.
    destruct (u_monitors_count r) as [c|] eqn:Ec.
    2: by injection Hs as -> ->.
    case_decide as Hlt.
    2: by injection Hs as -> ->.
    injection Hs as -> ->. unfold by_id in Er. destruct (pgu_Valid id); [|done].
    eapply covered_le; [|by eapply covered_counted]. intros u. cbn.
    assert (weight (bool_decide (1%Z <> 0%Z /\ u = pgu_Bytes id)) <= weight (bool_decide (u = pgu_Bytes id)))%nat; [|lia].
    apply weight_le. rewrite !bool_decide_eq_true. by intros [_ ?].
  - destruct Hs as (_ & Hn & [x Hx] & at_ & _ & ->). unfold by_id in Hx.
    destruct (pgu_Valid (cmp_UserID p)); [|done].
    eapply covered_le; [|apply (covered_inserted d credit _ (created_row p at_)); [done|by exists x| |done]].
    + intros u. cbn. lia.
    + specialize (Hsp (pgu_Bytes (cmp_UserID p))). by rewrite bool_decide_eq_true_2 in Hsp.
  - apply Hsame. by destruct Hs.
  - apply Hsame. by destruct Hs.
  - apply Hsame. by destruct Hs.
  - symmetry in Hs. destruct Hc as [H1 H2 H3].
    destruct (owners_enabled _ _ _ _ _ _ Hs H2) as [Ho Hu].
    split; [|done|intros u; rewrite Hu; intros Hpos; apply H3; lia].
    intros u r c. rewrite Hu, (owned_count_enabled _ _ _ _ _ _ _ Hs). intros Hx Hn.
    specialize (H1 _ _ _ Hx Hn). lia.
  - destruct Hs as (_ & ? & ? & ? & _ & _ & _ & ->).
    eapply covered_le; [|eapply (covered_same d); [done|done|exact Hc]]. intros u. cbn. lia.
  - apply Hsame. by destruct Hs.
  - destruct Hs as [Hs _]. injection Hs as -> _.
    eapply covered_le; [|eapply (covered_same d); [done|done|exact Hc]]. intros u. cbn. lia.
Qed.

(** ** The invariant *)

Section Invariant.
Context {U : UuidLib} {UL : UuidLaws U} {L : JwtLib} {V : Validator}
        {S : Services} {SL : ServiceLaws S}.

(** What the tasks have counted for a user and not inserted. *)
Definition credit_of (u : UUID) (q : knowledge) : nat := weight (bool_decide (k_credit q = Some u)).
Definition credits (qs : list knowledge) (u : UUID) : nat := sum_of (credit_of u) qs.

Definition quota_covered (w : world) (ps : list proc) (qs : list knowledge) : Prop :=
  covered (dview w) (credits qs).

Lemma credit_none u l : credit_of u (MkKnowledge l None) = 0%nat.
Proof using. unfold credit_of. by rewrite bool_decide_eq_false_2. Qed.

Lemma credits_insert qs j q q' u :
  qs !! j = Some q -> (credits (<[j := q']> qs) u + credit_of u q = credits qs u + credit_of u q')%nat.
Proof using. apply sum_of_insert. Qed.

Lemma credit_le_credits qs j q u : qs !! j = Some q -> (credit_of u q <= credits qs u)%nat.
Proof using. intros Hq. by apply sum_of_elem, list_elem_of_lookup_2 with j. Qed.

(** The credit of a task that runs a statement. *)
Lemma credit_query q s (r : error + query_reply s) u :
  may q (Db s) ->
  (spends s u <= credit_of u q /\
   credit_of u (learns q (Db s) r) <=
     credit_of u q + match r with inr y => gains s y u | inl _ => 0 end - spends s u)%nat.
Proof using.
  intros Hm. unfold credit_of. cbn [learns k_credit].
  destruct s; cbn [credit_after spends gains]; try (destruct r; cbn; lia).
  - destruct r as [e|n]; [cbn; lia|]. split; [cbn; lia|]. change (query_reply (Q_IncrementMonitorCount id)) with Z in *. case_decide as Hn; [lia|].
    assert (weight (bool_decide (Some (pgu_Bytes id) = Some u)) <= weight (bool_decide (n <> 0%Z /\ u = pgu_Bytes id)))%nat; [|lia].
    apply weight_le. rewrite !bool_decide_eq_true. intros [=]. by split.
  - destruct Hm as [_ ->]. split.
    + apply weight_le. rewrite !bool_decide_eq_true. by intros ->.
    + rewrite (bool_decide_eq_false_2 (None = _)) by done. cbn. lia.
Qed.

Lemma quota_is_kept :
  kept may learns open_reply (fun _ _ => True) (fun _ => True) (fun _ => True) quota_covered.
Proof using SL UL.
  split.
  - intros w ps qs i j q c p w' p' r Hi Hq Ha _ _ He Hr _. split; [done|]. unfold quota_covered in *.
    pose proof (exec_dview _ _ _ _ _ _ He) as Ed.
    destruct c as [rc|s| |n|x d|url|url d|x k|r0|r0|r0|a| | |pw]; cbn [learns];
      try (rewrite Ed; eapply covered_le; [|exact Hi]; intros u; by rewrite (list_insert_id qs)).
    assert (forall u, spends s u <= credits qs u)%nat as Hsp.
    { intros u. destruct (credit_query q s r u Ha) as [Hs _]. pose proof (credit_le_credits _ _ _ u Hq). lia. }
    assert (forall u, credits (<[j := learns q (Db s) r]> qs) u <=
      credits qs u + match r with inr y => gains s y u | inl _ => 0 end - spends s u)%nat as Hle.
    { intros u. destruct (credit_query q s r u Ha) as [Hs Hl]. pose proof (credit_le_credits _ _ _ u Hq).
      pose proof (credits_insert qs j q (learns q (Db s) r) u Hq). lia. }
    eapply covered_le; [exact Hle|]. destruct r as [e|y]; [|by apply (query_covered s (dview w))].
    destruct Ed as [->|[y Hy]]; [|eapply covered_le; [|by eapply (query_covered s (dview w) _ y)]; intros u; cbn; lia].
    eapply covered_le; [|exact Hi]. intros u. cbn. lia.
  - intros w ps qs i p p' t Hi _ Hs. exists (MkKnowledge [] None). split; [by eapply start_safe|].
    eapply covered_le; [|exact Hi]. intros u. unfold credits. rewrite sum_of_snoc, credit_none. lia.
  - intros w ps qs j q Hi Hq _. eapply covered_le; [|exact Hi]. intros u. unfold credits.
    pose proof (sum_of_delete (credit_of u) qs j q Hq). lia.
  - intros w ps qs j q m Hi Hq _. exists (MkKnowledge [] None). split; [apply safe_follows, safe_httpCheck|].
    eapply covered_le; [|exact Hi]. intros u. pose proof (credits_insert qs j q (MkKnowledge [] None) u Hq) as E.
    rewrite credit_none in E. lia.
  - intros w w' ps qs Hi (_ & Hd & _). unfold quota_covered. by rewrite Hd.
Qed.

(** C20: the quota is sound under concurrency.  However many requests of
    however many users are served at the same time, by however many processes,
    interleaved with registrations and with the rest of the pipeline, and
    whatever fails, no user has more monitors than were counted for it, and no
    count exceeds ten. *)
Theorem quota_interleaved P tr P' :
  Pipeline.fresh P -> quota_inv (dview (pl_world P)) -> owners_exist (dview (pl_world P)) ->
  steps P tr P' ->
  quota_inv (dview (pl_world P')) /\ owners_exist (dview (pl_world P')).
Proof using SL UL.
  intros Hf Hq Ho Hs. assert (quota_covered (pl_world P) (pl_procs P) []) as Hi.
  { split; [|done|intros u; cbn; lia]. intros u r c Hu Hc. specialize (Hq u r c Hu Hc). cbn. lia. }
  destruct (holds_steps _ _ _ _ _ _ _ P tr P' quota_is_kept Hf Hi Hs) as (qs & _ & Hc); [by apply Forall_forall|].
  split; [by eapply covered_quota|by destruct Hc].
Qed.

End Invariant.

(** ** Witness *)

Section Witnesses.
#[local] Existing Instance Hex.lib.
#[local] Existing Instance Hex.laws.
#[local] Existing Instance RefWorld.services.
#[local] Existing Instance RefWorld.laws.
#[local] Existing Instance RefJwt.lib.
#[local] Existing Instance RefAPI.validator.

(** A user that has been counted nine monitors, and two requests with its token
    that create one, at the same time. *)
Definition nine_db : database :=
  MkDatabase {[Demo.owner := MkUserRow "ann" "ann@example.org" "h" (Some 9) (Some false)]}
             {[Demo.uid1 := demo_row]} ∅.
Definition nine_world : @world RefWorld.services := RefWorld.start (MkRedis ∅ ∅ ∅) nine_db Demo.t0.
Definition ann_token : string :=
  match (run (GenerateAccessToken demo_ts (MkRequestClaims (uuid_String Demo.owner) "ann@example.org" None None None))
           (MkSys nine_world RefWorld.proc10)).2 with Ret (inr t) => t | _ => "" end.
Definition create_route : Handlers.route :=
  MkRoute POST "/api/v1/monitors/" [Handle demo_ts] MonitorHandler.CreateMonitor.
Definition create_request : http_request := with_token ann_token (request_with RefAPI.create_body).
Definition nine_pool : pool RefWorld.services := MkPool nine_world [RefWorld.proc10] [].
Definition two_creations : pool RefWorld.services :=
  MkPool nine_world [RefWorld.proc10] (repeat (0%nat, TWork (serve_route create_route create_request ;; mret tt)) 2).
Definition creations_run := drive (concat (repeat [0; 1]%nat 12)) two_creations.

Lemma create_route_in : create_route ∈ RegisterRoutes demo_ts.
Proof. cbn. do 3 right. left. Qed.

Lemma creations_started : steps nine_pool [] two_creations.
Proof.
  do 2 (eapply (steps_cons _ None);
    [eapply (step_start _ _ _ 0); [reflexivity|exact (start_request demo_ts create_route create_request _ create_route_in)]|]).
  constructor.
Qed.

Definition inserts (e : event) : bool := match projT1 e with Db (Q_CreateMonitor _) => true | _ => false end.
Definition counts_one (e : event) : bool :=
  match projT1 e with Db (Q_IncrementMonitorCount _) => true | _ => false end.

(** Both count, one inserts. *)
Lemma quota_interleaved_witness :
  (count_events counts_one creations_run.1 = 2%nat /\ count_events inserts creations_run.1 = 1%nat) /\
  quota_inv (dview (pl_world creations_run.2)) /\ owners_exist (dview (pl_world creations_run.2)).
Proof.
  split; [split; vm_compute; reflexivity|].
  assert (Pipeline.fresh nine_pool) as Hf by (apply fresh_process; [by repeat split|reflexivity]).
  assert (quota_inv (dview (pl_world nine_pool))) as Hq.
  { intros u r c Hu Hc. cbn in Hu. apply lookup_singleton_Some in Hu as [<- <-].
    cbn in Hc. injection Hc as <-. unfold owned_count. cbn.
    rewrite map_filter_singleton_True by done. rewrite map_size_singleton. lia. }
  assert (owners_exist (dview (pl_world nine_pool))) as Ho.
  { intros i r Hr. cbn in Hr. apply lookup_singleton_Some in Hr as [_ <-]. eexists. apply lookup_singleton_eq. }
  exact (quota_interleaved nine_pool creations_run.1 creations_run.2 Hf Hq Ho
    (steps_started nine_pool two_creations creations_run.2 creations_run.1 creations_started
      (drive_steps (concat (repeat [0; 1]%nat 12)) two_creations))).
Defined.

End Witnesses.
