(* ===== verification/Debt.v ===== *)
(** * What a task owes a monitor

    The scheduler, the workers, the router, the result handlers and the
    reclaimer pass the monitors on to each other through Redis and through
    channels.  Here one monitor is watched.  What a task owes it is the state of
    an automaton over the commands of the task: how often it has the monitor to
    pass on, and how often it may acknowledge its job.  The tasks pass on what
    they were given, and nothing else.  Delivery draws the conclusions for the
    pool. *)

From S2P Require Import Prelude AppError Types Redis Postgres Effects Rules Reference RedisStore.
From S2P Require Import Scheduler Security Http User MonitorJSON MonitorSvc Handlers Api Executor Result Pipeline.
From stdpp Require Import gmap list strings pretty sorting.
#[local] Open Scope Z_scope.

(** ** The protocol *)

Section Protocol.
Context {U : UuidLib} (watched : UUID).

(** The member of the queues, and the texts that do not stand for it in
    another spelling. *)
Definition member : string := uuid_String watched.
Definition canon (m : string) : Prop := uuid_Parse m = inr watched -> m = member.

Definition canonical (v : redis) : Prop :=
  forall k m, k = scheduleKey \/ k = inflightKey -> is_Some (zset v k !! m) -> canon m.

Record debt := MkDebt { claims : nat; acks : nat }.

(** The command passes the monitor on: to the schedule or to a channel. *)
Definition passes (c : cmd) : reply c -> bool :=
  match c with
  | Redis (Call (ZADD k items)) => fun _ => bool_decide (k = scheduleKey /\ member ∈ items.*2)
  | TrySendJob _ j => fun r => match r with Sent => bool_decide (job_MonitorID j = watched) | _ => false end
  | SendResult r | SendSuccess r | SendFailure r => fun _ => bool_decide (r_MonitorID r = watched)
  | _ => fun _ => false
  end.

(** What a script that takes from the schedule returns. *)
Definition fetched (ks : list string) (a : lua_val) : list string :=
  match head ks, a with
  | Some k, LuaList l => if decide (k = scheduleKey) then lua_strings l else []
  | _, _ => []
  end.

Definition occurrences (l : list string) : nat := sum_of (fun m => weight (bool_decide (m = member))) l.

(** How often the command hands the monitor to the task. *)
Definition takes (c : cmd) : reply c -> nat :=
  match c with
  | Redis (EVAL _ ks _) => fun r => match r with inr a => occurrences (fetched ks a) | inl _ => 0%nat end
  | _ => fun _ => 0%nat
  end.

(** The command acknowledges the job of the monitor. *)
Definition acknowledges (c : cmd) : bool :=
  match c with
  | Redis (Call (ZREM k m)) => bool_decide (k = inflightKey /\ m = member)
  | _ => false
  end.

Definition owing (q : debt) (c : cmd) (r : reply c) : debt :=
  MkDebt (claims q - weight (passes c r) + takes c r) (acks q - weight (acknowledges c)).

(** *** What the scripts do *)

Definition scheduled (v : redis) : nat := weight (bool_decide (is_Some (zset v scheduleKey !! member))).

Record moves_watched (ks : list string) (v v' : redis) (a : lua_val) : Prop := {
  (** from the schedule, to the task that is given it *)
  mw_schedule : is_Some (zset v scheduleKey !! member) ->
    is_Some (zset v' scheduleKey !! member) \/ member ∈ fetched ks a;
  (** from what is in flight, to the schedule *)
  mw_inflight : is_Some (zset v inflightKey !! member) ->
    is_Some (zset v' inflightKey !! member) \/ is_Some (zset v' scheduleKey !! member);
  (** once, unless something was reclaimed *)
  mw_once : head ks = Some scheduleKey \/ a = LuaInt 0 -> (scheduled v' + occurrences (fetched ks a) <= scheduled v)%nat;
  mw_canonical : canonical v -> canonical v' /\ Forall canon (fetched ks a)
}.

Definition queue_script (s : script) (ks : list string) (xs : list Z) : Prop :=
  forall now v v' a, lua_spec (s ks xs) now v v' a -> moves_watched ks v v' a.

(** *** What a task may do

    Only who has the monitor passes it on; only the handler of a result
    acknowledges the job; the queues are touched in no other way. *)
Definition permits (q : debt) (c : cmd) : Prop :=
  match c with
  | Redis (Call (ZADD k items)) =>
      k = scheduleKey /\ (member ∈ items.*2 -> 1 <= claims q)%nat /\ Forall canon items.*2
  | Redis (Call (ZREM k m)) =>
      (acknowledges c = true -> 1 <= acks q)%nat /\ ~ (k = scheduleKey /\ m = member)
  | Redis (Call (ZPOPMIN _ _)) => False
  | Redis (Call (DEL k)) => k <> scheduleKey /\ k <> inflightKey
  | Redis (EVAL s ks xs) => queue_script s ks xs
  | TrySendJob _ j => (job_MonitorID j = watched -> 1 <= claims q)%nat
  | SendResult r | SendSuccess r | SendFailure r => (r_MonitorID r = watched -> 1 <= claims q)%nat
  | _ => True
  end.

(** *** What happens to the monitor from outside

    It is there and enabled, and nobody changes that: no request enables or
    disables it, none creates one with its identifier; no failure stops it;
    the commands that schedule it and those that fetch from the schedule do not
    fail; the scheduler is not stopped. *)
Definition undisturbed (c : cmd) : reply c -> bool :=
  match c with
  | Redis (Call (ZADD k items)) => fun r =>
      match r with inr _ => true | inl _ => bool_decide (~ (k = scheduleKey /\ member ∈ items.*2)) end
  | Redis (EVAL _ ks _) => fun r =>
      match r with inr _ => true | inl _ => bool_decide (head ks <> Some scheduleKey) end
  | Redis (Call (Redis.GET k)) => fun r =>
      if decide (k = cacheKey watched) then
        match r with
        | inr (Some data) => match json_Unmarshal data with inr m => m_Enabled m | inl _ => true end
        | _ => true
        end
      else true
  | Db (Q_GetMonitorByID i) => fun r =>
      if decide (i = ToPgUUID watched) then
        match r with
        | inr (Some row) => gm_Enabled row
        | inr None => false
        | inl e => negb (errors_Is is_ErrNoRows e)
        end
      else true
  | Db (Q_UpdateMonitorStatus i _ _) => fun r =>
      match r with inr rows => bool_decide (i = ToPgUUID watched -> rows = 0) | inl _ => true end
  | Db (Q_CreateMonitor _) => fun r =>
      match r with inr i => bool_decide (FromPgUUID i <> watched) | inl _ => true end
  | TrySendJob _ _ => fun r => match r with CtxDone => false | _ => true end
  | SendFailure r => fun _ => bool_decide (~ (r_MonitorID r = watched /\ failure_of r = Terminal))
  | _ => fun _ => true
  end.

(** The cache and the table answer with the monitor that was asked for. *)
Definition honest (c : cmd) : reply c -> Prop :=
  match c with
  | Redis (Call (Redis.GET k)) => fun r =>
      forall i data m, k = cacheKey i -> r = inr (Some data) -> json_Unmarshal data = inr m -> m_ID m = i
  | Db (Q_GetMonitorByID i) | Db (Q_GetMonitor i _) => fun r =>
      forall row, r = inr (Some row) -> FromPgUUID (gm_ID row) = FromPgUUID i
  | _ => fun _ => True
  end.

(** The schedule holds no other spelling. *)
Definition proper (c : cmd) : reply c -> Prop :=
  match c with
  | Redis (EVAL _ ks _) => fun r => match r with inr a => Forall canon (fetched ks a) | inl _ => True end
  | _ => fun _ => True
  end.

Definition favourable (c : cmd) (r : reply c) : Prop :=
  open_reply c r /\ undisturbed c r = true /\ honest c r /\ proper c r.

Definition owes {A} (p : prog A) (q : debt) (Φ : A -> debt -> Prop) : Prop :=
  obeys permits owing favourable p q Φ.

(** *** Programs that pass the monitor on [n] times *)

Definition less (n : nat) (q : debt) : debt := MkDebt (claims q - n) (acks q).

Definition pays {A} (n : nat) (p : prog A) : Prop :=
  forall q, (n <= claims q)%nat -> owes p q (fun _ q' => q' = less n q).

Lemma less_0 q : less 0 q = q.
Proof. destruct q. unfold less; cbn. f_equal. lia. Qed.

Lemma less_less n1 n2 q : less n2 (less n1 q) = less (n1 + n2) q.
Proof. unfold less; cbn. f_equal. lia. Qed.

Lemma pays_then {A} (p : prog A) n q (Φ : A -> debt -> Prop) :
  pays n p -> (n <= claims q)%nat -> (forall a, Φ a (less n q)) -> owes p q Φ.
Proof. intros Hp Hq HΦ. eapply obeys_mono; [by apply Hp|]. by intros a q' ->. Qed.

Lemma pays_ret {A} (a : A) : pays 0 (mret a).
Proof. intros q _. apply obeys_ret. by rewrite less_0. Qed.

Lemma pays_bind {A B} n1 n2 (p : prog A) (f : A -> prog B) :
  pays n1 p -> (forall a, pays n2 (f a)) -> pays (n1 + n2) (p ≫= f).
Proof.
  intros Hp Hf q Hq. apply obeys_bind. eapply pays_then; [exact Hp|lia|]. intros a.
  eapply pays_then; [apply Hf|cbn; lia|]. intros b. apply less_less.
Qed.

Lemma pays_bind_l {A B} n (p : prog A) (f : A -> prog B) :
  pays 0 p -> (forall a, pays n (f a)) -> pays n (p ≫= f).
Proof. apply (pays_bind 0 n). Qed.

Lemma pays_bind_r {A B} n (p : prog A) (f : A -> prog B) :
  pays n p -> (forall a, pays 0 (f a)) -> pays n (p ≫= f).
Proof. intros H1 H2. rewrite <- (Nat.add_0_r n). by apply pays_bind. Qed.

(** Commands that do not concern the queue. *)
Definition calm_cmd (c : cmd) : Prop :=
  match c with
  | Redis (Call (ZADD _ _ | ZREM _ _ | ZPOPMIN _ _)) | Redis (EVAL _ _ _) => False
  | Redis (Call (DEL k)) => k <> scheduleKey /\ k <> inflightKey
  | TrySendJob _ _ | SendResult _ | SendSuccess _ | SendFailure _ => False
  | _ => True
  end.

Lemma calm_permits c q : calm_cmd c -> permits q c.
Proof. by destruct c as [[[]|]| | | | | | | | | | | | | |]. Qed.

Lemma calm_owing c q r : calm_cmd c -> owing q c r = q.
Proof.
  intros Hc. unfold owing.
  assert (passes c r = false /\ takes c r = 0%nat /\ acknowledges c = false) as (-> & -> & ->)
    by (destruct c as [[[]|]| | | | | | | | | | | | | |]; done).
  destruct q. cbn. f_equal; lia.
Qed.

Lemma pays_op c : calm_cmd c -> pays 0 (op c).
Proof.
  intros Hc q _. apply obeys_op; [by apply calm_permits|]. intros r _. by rewrite less_0, calm_owing.
Qed.

(** One command that concerns nobody, and then the rest. *)
Lemma owes_calm {A} c (k : reply c -> prog A) q (Φ : A -> debt -> Prop) :
  calm_cmd c -> (forall r, favourable c r -> owes (k r) q Φ) -> owes (op c ≫= k) q Φ.
Proof.
  intros Hc Hk. apply obeys_bind, obeys_op; [by apply calm_permits|]. intros r Hr.
  rewrite calm_owing by done. by apply Hk.
Qed.

Lemma pays_send c f : calm_cmd c -> (forall r, open_reply c r -> f r = true) -> pays 0 (send c f).
Proof.
  intros Hc Hf q Hq. unfold send. apply owes_calm; [done|]. intros r [Hr _].
  rewrite (Hf r Hr). by apply pays_ret.
Qed.

Lemma pays_retry {V} x n (fn : V -> prog (V * option error)) v :
  (forall v, pays 0 (fn v)) -> pays 0 (retry x fn n v).
Proof.
  intros Hfn. unfold retry. generalize 0 as i, (@None error) as err. revert v.
  induction n as [|n IH]; intros v i err; cbn [retry_from]; [apply pays_ret|].
  apply pays_bind_l; [done|]. intros [v' [e|]]; [|apply pays_ret].
  apply pays_bind_l; [by apply pays_op|]. intros [ce|]; [apply pays_ret|apply IH].
Qed.

(** Before the rest of a program. *)
Lemma owes_pays {A B} (p : prog A) (f : A -> prog B) n q (Φ : B -> debt -> Prop) :
  pays n p -> (n <= claims q)%nat -> (forall a, owes (f a) (less n q) Φ) -> owes (p ≫= f) q Φ.
Proof. intros Hp Hq Hf. apply obeys_bind. by eapply pays_then. Qed.

Lemma owes_neutral {A B} (p : prog A) (f : A -> prog B) q (Φ : B -> debt -> Prop) :
  pays 0 p -> (forall a, owes (f a) q Φ) -> owes (p ≫= f) q Φ.
Proof. intros Hp Hf. eapply owes_pays; [exact Hp|lia|]. intros a. rewrite less_0. apply Hf. Qed.

(** From a program without claims to one without claims. *)
Definition clear {A} (p : prog A) : Prop :=
  forall q, claims q = 0%nat -> owes p q (fun _ q' => claims q' = 0%nat).

Lemma pays_clear {A} (p : prog A) : pays 0 p -> clear p.
Proof. intros Hp q Hq. eapply pays_then; [done|lia|]. intros _. cbn. lia. Qed.

Lemma clear_bind {A B} (p : prog A) (f : A -> prog B) : clear p -> (forall a, clear (f a)) -> clear (p ≫= f).
Proof. intros Hp Hf q Hq. apply obeys_bind. eapply obeys_mono; [by apply Hp|]. intros a q'. apply Hf. Qed.

End Protocol.

(** Along the text of a program that does not concern the queue. *)
Ltac calm :=
  repeat match goal with
  | |- pays _ 0 (_ ≫= _) => apply pays_bind_l; [|intros ?]
  | |- pays _ 0 (mret _) => apply pays_ret
  | |- pays _ 0 (retry _ _ _ _) => apply pays_retry; intros ?
  | |- pays _ 0 (send _ _) => apply pays_send; [exact I|done]
  | |- pays _ 0 (op _) => apply pays_op; first [exact I | split; keys_differ]
  | |- pays _ 0 (rdb _) => apply pays_op; first [exact I | split; keys_differ]
  | |- pays _ 0 _ => solve [auto with monit]
  | |- pays _ 0 (match ?x with _ => _ end) => destruct x
  | |- pays _ 0 (let '(_, _) := ?x in _) => destruct x
  | |- _ => progress unfold hgetall, retry_
  end.

(** ** The tasks *)

Section Tasks.
Context {U : UuidLib} {UL : UuidLaws U} (watched : UUID).
Notation pays := (pays watched).
Notation owes := (owes watched).
Notation member := (member watched).
Notation canon := (canon watched).
Notation clear := (clear watched).

(** What the task of a monitor owes. *)
Definition share (id : UUID) : nat := weight (bool_decide (id = watched)).
Definition share_of (m : string) : nat := weight (bool_decide (m = member)).

Lemma share_of_String id : share_of (uuid_String id) = share id.
Proof using UL.
  unfold share_of, share. f_equal. apply bool_decide_ext. unfold Debt.member.
  split; [apply (inj uuid_String)|by intros ->].
Qed.

Lemma share_watched id : id = watched -> share id = 1%nat.
Proof using. intros ->. unfold share. by rewrite bool_decide_eq_true_2. Qed.

Lemma share_other id : id <> watched -> share id = 0%nat.
Proof using. intros H. unfold share. by rewrite bool_decide_eq_false_2. Qed.

Lemma share_pos id : (1 <= share id)%nat -> id = watched.
Proof using. unfold share. case_bool_decide; cbn; [done|lia]. Qed.

Lemma canon_String id : canon (uuid_String id).
Proof using UL. unfold Debt.canon. rewrite uuid_Parse_String. by intros [= ->]. Qed.

(** *** The schedule *)

Lemma owing_ZADD q m s (r : reply (Redis (Call (ZADD scheduleKey [(s, m)])))) :
  owing watched q (Redis (Call (ZADD scheduleKey [(s, m)]))) r = less (share_of m) q.
Proof using.
  unfold owing, less, share_of; cbn. f_equal; [|lia].
  rewrite Nat.add_0_r. do 2 f_equal. apply bool_decide_ext. rewrite list_elem_of_singleton. naive_solver.
Qed.

Lemma permits_ZADD q m s :
  canon m -> (share_of m <= claims q)%nat -> permits watched q (Redis (Call (ZADD scheduleKey [(s, m)]))).
Proof using.
  intros Hm Hq. split; [done|]. split; [|by repeat constructor].
  cbn. intros E%list_elem_of_singleton. subst m. unfold share_of in Hq. by rewrite bool_decide_eq_true_2 in Hq.
Qed.

Lemma pays_Schedule x m t : canon m -> pays (share_of m) (Schedule x m t).
Proof using.
  intros Hc. destruct (decide (m = member)) as [->|Hm].
  - intros q Hq. unfold Schedule, retry_, retry. cbn [retry_from].
    apply obeys_bind, obeys_bind, obeys_bind, obeys_bind, obeys_op; [by apply permits_ZADD|].
    intros [e|n] (_ & Hu & _).
    + cbn in Hu. apply bool_decide_eq_true in Hu. destruct Hu. split; [done|left].
    + do 4 apply obeys_ret. apply owing_ZADD.
  - assert (share_of m = 0%nat) as E by (unfold share_of; by rewrite bool_decide_eq_false_2).
    rewrite E. unfold Schedule, retry_. apply pays_bind_l; [|intros; calm]. apply pays_retry. intros u.
    apply pays_bind_l; [|intros; calm]. apply pays_bind_l; [|intros; calm].
    intros q _. apply obeys_op; [apply permits_ZADD; [done|lia]|]. intros r _. by rewrite owing_ZADD, E.
Qed.

Lemma pays_ScheduleMonitor x id n o : pays (share id) (Service.ScheduleMonitor x id n o).
Proof using UL.
  unfold Service.ScheduleMonitor. apply pays_bind_l; [by apply pays_op|]. intros now.
  apply pays_bind_r; [|intros; apply pays_ret]. rewrite <- share_of_String.
  apply pays_Schedule, canon_String.
Qed.

Lemma owes_AckJob x id q (Φ : option error -> debt -> Prop) :
  (share id <= acks q)%nat -> (forall e, Φ e (MkDebt (claims q) (acks q - share id))) ->
  owes (AckJob x (uuid_String id)) q Φ.
Proof using UL.
  intros Hle HΦ. assert (weight (acknowledges watched (Redis (Call (ZREM inflightKey (uuid_String id))))) = share id) as E.
  { rewrite <- share_of_String. unfold share_of; cbn. f_equal. apply bool_decide_ext. naive_solver. }
  unfold AckJob. apply obeys_bind, obeys_op.
  - cbn. split; [|by intros [? _]]. intros H. cbn in E. rewrite H in E. cbn in E. lia.
  - intros r _. apply obeys_ret. unfold owing. rewrite E. cbn. rewrite Nat.sub_0_r, Nat.add_0_r. apply HΦ.
Qed.

(** *** The scheduler and the reclaimer *)

Lemma pays_addJitter : pays 0 (addJitter (2 * Second)).
Proof using. unfold addJitter, rand_Int63n. rewrite decide_False by (by apply Z.lt_nge). calm. Qed.

(** Whatever it is given, [dispatch] passes it on and goes on. *)
Lemma owes_dispatch m q (Φ : bool -> debt -> Prop) :
  canon m -> (share_of m <= claims q)%nat -> Φ true (less (share_of m) q) -> owes (dispatch m) q Φ.
Proof using UL.
  intros Hm Hq HΦ. unfold dispatch. destruct (uuid_Parse m) as [e|id] eqn:Hp.
  { apply obeys_ret. assert (share_of m = 0%nat) as E; [|by rewrite E, less_0 in HΦ].
    unfold share_of. rewrite bool_decide_eq_false_2; [done|]. intros ->. unfold Debt.member in Hp.
    by rewrite uuid_Parse_String in Hp. }
  assert (share id = share_of m) as E.
  { unfold share, share_of. f_equal. apply bool_decide_ext. split.
    - intros ->. by apply Hm.
    - intros ->. unfold Debt.member in Hp. rewrite uuid_Parse_String in Hp. by injection Hp. }
  apply obeys_bind, obeys_op; [cbn; intros Hid; rewrite (share_watched _ Hid) in E; lia|].
  intros r (Ho & Hu & _). destruct r; [|done| |done].
  - apply obeys_ret. unfold owing; cbn. rewrite Nat.add_0_r, Nat.sub_0_r. fold (share id). by rewrite E.
  - assert (owing watched q (TrySendJob CtxApp (MkJobPayload id)) Full = q) as ->.
    { destruct q. unfold owing; cbn. f_equal; lia. }
    apply owes_calm; [exact I|]. intros now _. apply owes_neutral; [apply pays_addJitter|]. intros jitter.
    eapply owes_pays; [by apply pays_Schedule|done|]. intros _. by apply obeys_ret.
Qed.

Lemma owes_dispatch_all ms q :
  Forall canon ms -> claims q = occurrences watched ms ->
  owes (range ms dispatch) q (fun _ q' => claims q' = 0%nat).
Proof using UL.
  intros Hms. revert q. induction Hms as [|m ms Hm Hms IH]; intros q Hq; cbn [range]; [by apply obeys_ret|].
  change (occurrences watched (m :: ms)) with (share_of m + occurrences watched ms)%nat in Hq.
  apply obeys_bind, owes_dispatch; [done|lia|]. apply IH. cbn. lia.
Qed.

Lemma scheduled_lookup v v' :
  zset v' scheduleKey !! member = zset v scheduleKey !! member -> scheduled watched v' = scheduled watched v.
Proof using. unfold scheduled. by intros ->. Qed.

Lemma occurrences_once ms : NoDup ms -> occurrences watched ms = weight (bool_decide (member ∈ ms)).
Proof using.
  induction 1 as [|m ms Hm Hms IH]; [by rewrite bool_decide_eq_false_2 by apply not_elem_of_nil|].
  change (occurrences watched (m :: ms)) with (share_of m + occurrences watched ms)%nat. rewrite IH. unfold share_of.
  destruct (decide (m = member)) as [->|Hne].
  - rewrite (bool_decide_eq_true_2 (member = member)), (bool_decide_eq_false_2 (member ∈ ms)) by done.
    by rewrite bool_decide_eq_true_2 by left.
  - rewrite (bool_decide_eq_false_2 (m = member)) by done. cbn. f_equal. apply bool_decide_ext.
    rewrite elem_of_cons. naive_solver.
Qed.

Lemma moves_canonical from to score items v :
  from <> to -> (forall m, m ∈ items -> is_Some (zset v from !! m)) ->
  from = scheduleKey \/ from = inflightKey ->
  canonical watched v -> canonical watched (moves from to score items v) /\ Forall canon items.
Proof using.
  intros Hne Hin Hf Hv. assert (Forall canon items) as Hi.
  { apply Forall_forall. intros m Hm. by apply (Hv from), Hin. }
  split; [|done]. intros k m Hk Hm.
  destruct (decide (m ∈ items)) as [|Hmi]; [by eapply Forall_forall|].
  apply (Hv k); [done|]. destruct (decide (k = from)) as [->|]; [|destruct (decide (k = to)) as [->|]].
  - by rewrite moves_from, decide_False in Hm.
  - by rewrite moves_to, decide_False in Hm.
  - by rewrite moves_other in Hm.
Qed.

Lemma fetch_script now limit vis :
  queue_script watched fetchAndMoveToInflightScript [scheduleKey; inflightKey] [now; limit; vis].
Proof using.
  intros t v v' a H. apply fetchAndMove_script in H as (items & -> & Hz & ->).
  assert (fetched [scheduleKey; inflightKey] (LuaList (LuaStr <$> items)) = items) as E.
  { cbn. rewrite decide_True by done. unfold lua_strings. clear.
    induction items as [|x items IH]; cbn; [done|]. by f_equal. }
  assert (forall m, m ∈ items -> is_Some (zset v scheduleKey !! m)) as Hin.
  { intros m [s Hs%map_lookup_filter_Some]%(zr_due _ _ _ _ Hz). exists s. apply Hs. }
  split; rewrite ?E.
  - rewrite moves_from by done. destruct (decide (member ∈ items)); auto.
  - rewrite moves_to by done. destruct (decide (member ∈ items)); eauto.
  - intros _. rewrite occurrences_once by apply (zr_nodup _ _ _ _ Hz). unfold scheduled.
    rewrite moves_from by done. case_decide as Hm; [|by rewrite (bool_decide_eq_false_2 (member ∈ items)), Nat.add_0_r by done].
    rewrite (bool_decide_eq_true_2 _ (Hin _ Hm)), (bool_decide_eq_true_2 (member ∈ items)) by done.
    rewrite bool_decide_eq_false_2 by apply is_Some_None. done.
  - apply moves_canonical; auto.
Qed.

Lemma reclaim_moves now limit :
  queue_script watched reclaimMonitorsScript [inflightKey; scheduleKey] [now; limit].
Proof using.
  intros t v v' a H. apply reclaim_script in H as (items & -> & Hz & ->).
  assert (forall m, m ∈ items -> is_Some (zset v inflightKey !! m)) as Hin.
  { intros m [s Hs%map_lookup_filter_Some]%(zr_due _ _ _ _ Hz). exists s. apply Hs. }
  split; cbn [fetched head].
  - rewrite moves_to by done. destruct (decide (member ∈ items)); eauto.
  - rewrite moves_from, moves_to by done. destruct (decide (member ∈ items)); eauto.
  - intros [H|H]; [discriminate H|]. injection H as H. destruct items; [cbn; lia|cbn in H; lia].
  - intros Hv. split; [|constructor]. apply moves_canonical; auto.
Qed.

Lemma owes_doWork sc q :
  claims q = 0%nat -> owes (doWorkWithReliability sc) q (fun _ q' => claims q' = 0%nat).
Proof using UL.
  intros Hq. unfold doWorkWithReliability, FetchAndMoveToInflight.
  apply owes_calm; [exact I|]. intros now _. apply obeys_bind, obeys_bind, obeys_op; [apply fetch_script|].
  intros [e|a] (_ & Hu & _ & Hp); [discriminate Hu|]. cbn [proper] in Hp.
  assert (claims (owing watched q (Redis (EVAL fetchAndMoveToInflightScript [scheduleKey; inflightKey]
    [UnixMilli now; sc_batchSize sc; Milliseconds (sc_visibilityTimeout sc)])) (inr a)) =
    occurrences watched (fetched [scheduleKey; inflightKey] a)) as E by (cbn; rewrite Hq; done).
  destruct a as [z|str|l]; [apply obeys_ret; by rewrite decide_True..|].
  apply obeys_ret. case_decide as Hl; [|by apply owes_dispatch_all].
  apply obeys_ret. rewrite E. cbn. by apply nil_length_inv in Hl as ->.
Qed.

Lemma owes_reclaim rc q :
  claims q = 0%nat -> owes (reclaim rc) q (fun _ q' => claims q' = 0%nat).
Proof using.
  intros Hq. unfold reclaim, ReclaimMonitors.
  apply owes_calm; [exact I|]. intros now _. apply obeys_bind, obeys_bind, obeys_op; [apply reclaim_moves|].
  intros [e|a] _; [do 2 apply obeys_ret; cbn; lia|].
  destruct a; do 2 apply obeys_ret; cbn; rewrite ?decide_False by done; cbn; lia.
Qed.

(** *** The executor *)

(** What is read of the monitor [i]. *)
Definition read_as (i : UUID) (o : error + Monitor) : Prop :=
  match o with
  | inr m => m_ID m = i /\ (i = watched -> m_Enabled m = true)
  | inl e => i = watched -> IsKind e NotFound = false
  end.

Lemma owes_getCached x i q :
  owes (Service.getCachedMonitor x i) q (fun o q' => q' = q /\ forall m, o = inr m -> read_as i o).
Proof using.
  unfold Service.getCachedMonitor. cbn [cache_GetMonitor redis_cache]. unfold GetMonitor.
  apply obeys_bind, owes_calm; [exact I|]. intros r (_ & Hu & Hh & _).
  destruct r as [e|[data|]]; cbn [nil_err].
  - destruct (is_RedisNil e); do 2 apply obeys_ret; (split; [done|]); intros m [=].
  - apply obeys_ret. destruct (json_Unmarshal data) as [e|m] eqn:Em; apply obeys_ret; (split; [done|]).
    + intros m [=].
    + intros m' _. split; [by eapply Hh|]. intros ->. cbn in Hu. by rewrite decide_True, Em in Hu.
  - destruct (is_RedisNil RedisNil); do 2 apply obeys_ret; (split; [done|]); intros m [=].
Qed.

Lemma pays_getCached x i : pays 0 (Service.getCachedMonitor x i).
Proof using. intros q _. eapply obeys_mono; [apply owes_getCached|]. intros o q' [-> _]. by rewrite less_0. Qed.

Lemma owes_GetByID x i q :
  owes (MonitorSvc.Repository.GetByID x i) q (fun o q' => q' = q /\ read_as i o).
Proof using.
  unfold MonitorSvc.Repository.GetByID. apply owes_calm; [exact I|]. intros r (_ & Hu & Hh & _).
  destruct r as [e|[row|]]; cbn [one]; apply obeys_ret; (split; [done|]).
  - intros ->. apply WrapRepoError_found, negb_true_iff. cbn in Hu. by rewrite decide_True in Hu.
  - split; [by apply (Hh row)|]. intros ->. cbn in Hu. by rewrite decide_True in Hu.
  - intros ->. cbn in Hu. by rewrite decide_True in Hu.
Qed.

Lemma pays_cacheMonitor x m : pays 0 (Service.cacheMonitor x m).
Proof using. unfold Service.cacheMonitor. cbn [cache_SetMonitor redis_cache]. unfold SetMonitor. calm. Qed.

(** The watched monitor is loaded, and is enabled, or its load fails in a way
    that has the job scheduled again. *)
Lemma owes_LoadMonitor x i q :
  owes (Service.LoadMonitor x i) q (fun o q' => q' = q /\ read_as i o).
Proof using.
  unfold Service.LoadMonitor. apply obeys_bind. eapply obeys_mono; [apply owes_getCached|].
  intros [e|m] q' [-> Hc]; [|apply obeys_ret; split; [done|by eapply Hc]].
  apply obeys_bind. eapply obeys_mono; [apply owes_GetByID|].
  intros [e'|m] q' [-> Hr]; [by apply obeys_ret|].
  apply owes_neutral; [apply pays_cacheMonitor|]. intros e'. by apply obeys_ret.
Qed.

Lemma owes_handleJob j q :
  claims q = share (job_MonitorID j) ->
  owes (handleJob j) q (fun o q' => claims q' = match o with Some m => share (m_ID m) | None => 0%nat end).
Proof using UL.
  intros Hq. unfold handleJob. apply obeys_bind. eapply obeys_mono; [apply owes_LoadMonitor|].
  intros [e|m] q' [-> Hr]; cbn [read_as] in Hr.
  - destruct (IsKind e NotFound) eqn:Ek.
    { apply obeys_ret. rewrite Hq. apply share_other. intros Hj. by discriminate (Hr Hj). }
    eapply owes_pays; [apply pays_ScheduleMonitor|lia|]. intros _. apply obeys_ret. cbn. lia.
  - destruct Hr as [Hid Hen]. destruct (m_Enabled m) eqn:Em; cbn [negb].
    + apply owes_calm; [exact I|]. intros _ _. apply obeys_ret. by rewrite Hid.
    + apply obeys_ret. rewrite Hq. apply share_other. intros Hj. by discriminate (Hen Hj).
Qed.

(** What sending a result pays. *)
Lemma owes_send c r q (Φ : unit -> debt -> Prop) :
  c = SendResult r \/ c = SendSuccess r \/ c = SendFailure r ->
  (share (r_MonitorID r) <= claims q)%nat -> Φ tt (less (share (r_MonitorID r)) q) ->
  forall f : reply c -> bool, (forall b, open_reply c b -> f b = true) -> owes (send c f) q Φ.
Proof using.
  intros Hc Hq HΦ f Hf. unfold send. apply obeys_bind, obeys_op.
  - destruct Hc as [->|[->| ->]]; cbn; intros Hid; by rewrite (share_watched _ Hid) in Hq.
  - intros b (Ho & _). rewrite (Hf b Ho). apply obeys_ret.
    assert (owing watched q c b = less (share (r_MonitorID r)) q) as ->; [|done].
    unfold owing, less. destruct Hc as [->|[->| ->]]; cbn; by rewrite Nat.add_0_r, Nat.sub_0_r.
Qed.

Lemma owes_executeHTTPCheck m q :
  owes (executeHTTPCheck m) q (fun r q' => q' = q /\ r_MonitorID r = m_ID m).
Proof using.
  unfold executeHTTPCheck. apply owes_calm; [exact I|]. intros t0 _. apply owes_calm; [exact I|]. intros [e|] _.
  { apply owes_calm; [exact I|]. intros now _. by apply obeys_ret. }
  apply owes_calm; [exact I|]. intros o _. apply owes_calm; [exact I|]. intros t1 _.
  destruct o as [e|status]; [destruct (classifyError e)|];
    (apply owes_calm; [exact I|]; intros now _; by apply obeys_ret).
Qed.

Lemma owes_httpCheck m q :
  claims q = share (m_ID m) -> owes (httpCheck m) q (fun _ q' => claims q' = 0%nat).
Proof using.
  intros Hq. unfold httpCheck. apply obeys_defer, obeys_bind.
  eapply obeys_mono; [apply owes_executeHTTPCheck|]. intros r q' [-> Hr].
  eapply owes_send; [by left|rewrite Hr; lia| |by intros ? ->].
  apply owes_calm; [exact I|]. intros _ _. apply obeys_ret. cbn. rewrite Hr. lia.
Qed.

Lemma owes_route r q :
  claims q = share (r_MonitorID r) -> owes (route r) q (fun _ q' => claims q' = 0%nat).
Proof using.
  intros Hq. unfold route. destruct (r_Success r); (eapply owes_send; [eauto|lia| |by intros ? ->]); cbn; lia.
Qed.

(** *** The result processor *)

Lemma pays_StoreStatus x i c l t : pays 0 (StoreStatus x i c l t).
Proof using. unfold StoreStatus. calm. Qed.

Lemma pays_ClearIncident x i : pays 0 (ClearIncident x i).
Proof using UL. unfold ClearIncident. calm. Qed.

Lemma pays_ClearRetry x i : pays 0 (ClearRetry x i).
Proof using UL. unfold ClearRetry. calm. Qed.

Lemma pays_IncrementRetry x i : pays 0 (IncrementRetry x i).
Proof using. unfold IncrementRetry. calm. Qed.

#[local] Hint Resolve pays_StoreStatus pays_ClearIncident pays_ClearRetry pays_getCached pays_cacheMonitor : monit.

Lemma pays_handleSuccess_body r : pays 0 (handleSuccess_body r).
Proof using UL. unfold handleSuccess_body, GetIncident, Result.Repository.CloseIncident. calm. Qed.

Lemma pays_failurePath r : pays 0 (failurePath r).
Proof using.
  unfold failurePath, IncrementIncident, MarkIncidentAlertedIfNotSet, MarkDBIncidentCreated, Result.Repository.Create.
  calm.
Qed.

Lemma owes_handleSuccess r q :
  claims q = share (r_MonitorID r) -> acks q = share (r_MonitorID r) ->
  owes (handleSuccess r) q (fun _ q' => claims q' = 0%nat).
Proof using UL.
  intros Hc Ha. unfold handleSuccess. apply obeys_defer.
  eapply pays_then; [apply pays_handleSuccess_body|lia|]. intros []. rewrite less_0.
  apply obeys_bind, obeys_bind, owes_AckJob; [lia|]. intros e.
  eapply pays_then; [apply pays_ScheduleMonitor|cbn; lia|]. intros _. apply obeys_ret. cbn. lia.
Qed.

(** What is left to do when the body of the failure handler ends: the job is to
    be acknowledged, and the monitor scheduled if [reschedule] is set. *)
Definition to_reschedule (r : HTTPResult) (q : debt) (reschedule : bool) (q' : debt) : Prop :=
  acks q' = acks q /\ claims q' = if reschedule then share (r_MonitorID r) else 0%nat.

Lemma owes_handleFailure_body r q :
  (r_MonitorID r = watched -> failure_of r <> Terminal) -> claims q = share (r_MonitorID r) ->
  owes (handleFailure_body r) q (to_reschedule r q).
Proof using UL.
  intros Hr Hq. unfold handleFailure_body. unfold failure_of in Hr. case_decide.
  { apply owes_neutral; [apply pays_StoreStatus|]. intros _. apply obeys_ret. split; [done|].
    rewrite Hq. apply share_other. intros Hid. by apply Hr. }
  assert (owes (failurePath r ;; mret true) q (to_reschedule r q)) as Hp.
  { apply owes_neutral; [apply pays_failurePath|]. intros _. by apply obeys_ret. }
  assert (forall n, owes (ScheduleMonitor CtxApp (r_MonitorID r) n "result.failure_worker" ;; mret false) q
    (to_reschedule r q)) as Hs.
  { intros n. eapply owes_pays; [apply pays_ScheduleMonitor|lia|]. intros _. apply obeys_ret.
    split; cbn; [done|lia]. }
  destruct (r_Retryable r); [|exact Hp].
  apply owes_neutral; [apply pays_IncrementRetry|]. intros [n [e|]]; [apply Hs|].
  case_decide; [apply Hs|]. apply owes_neutral; [apply pays_ClearRetry|]. intros _. exact Hp.
Qed.

Lemma owes_handleFailure r q :
  (r_MonitorID r = watched -> failure_of r <> Terminal) ->
  claims q = share (r_MonitorID r) -> acks q = share (r_MonitorID r) ->
  owes (handleFailure r) q (fun _ q' => claims q' = 0%nat).
Proof using UL.
  intros Hr Hc Ha. unfold handleFailure. apply (obeys_bind _ _ _ (defer _ _ _)), obeys_defer.
  eapply obeys_mono; [by apply owes_handleFailure_body|]. intros b q' [Ha' Hc'].
  apply obeys_bind, obeys_bind, owes_AckJob; [lia|]. intros e. destruct b.
  - eapply pays_then; [apply pays_ScheduleMonitor|cbn; lia|]. intros _. do 2 apply obeys_ret. cbn. lia.
  - do 3 apply obeys_ret. cbn. lia.
Qed.

(** *** Requests *)

(** Another monitor is nobody's business. *)
Lemma clear_ScheduleMonitor x i n o : i <> watched -> clear (Service.ScheduleMonitor x i n o).
Proof using UL. intros Hi. apply pays_clear. rewrite <- (share_other i Hi). apply pays_ScheduleMonitor. Qed.

Lemma clear_DelSchedule x i : i <> watched -> clear (DelSchedule x (uuid_String i)).
Proof using UL.
  intros Hi. apply pays_clear. unfold DelSchedule. apply pays_bind_l; [|intros; calm].
  intros q _. assert (acknowledges watched (Redis (Call (ZREM scheduleKey (uuid_String i)))) = false) as E
    by (apply bool_decide_eq_false_2; by intros [? _]).
  apply obeys_op.
  - cbn [permits]. rewrite E. split; [done|]. intros [_ H]. by apply (inj uuid_String) in H.
  - intros r _. unfold owing, less. rewrite E. cbn. f_equal; lia.
Qed.

Lemma clear_disable x i : i <> watched -> clear (Service.disableMonitor x i).
Proof using UL.
  intros Hi. unfold Service.disableMonitor. cbn [cache_DelMonitor cache_DelSchedule cache_ClearIncident
    cache_DelStatus redis_cache]. apply clear_bind; [apply pays_clear; unfold DelMonitor; calm|]. intros _.
  apply clear_bind; [by apply clear_DelSchedule|]. intros _. apply pays_clear. unfold DelStatus. calm.
Qed.

Lemma clear_CreateMonitor x c : clear (Service.CreateMonitor x c).
Proof using UL.
  unfold Service.CreateMonitor. cbn [IncrementMonitorCount user_service].
  unfold User.Service.IncrementMonitorCount, User.Repository.IncrementMonitorCount.
  apply clear_bind; [apply pays_clear; calm|]. intros [e|]; [apply pays_clear, pays_ret|].
  unfold MonitorSvc.Repository.Create. intros q Hq. apply obeys_bind, owes_calm; [exact I|].
  intros [e|i] (_ & Hu & _); apply obeys_ret; [by apply obeys_ret|].
  cbn in Hu. apply bool_decide_eq_true in Hu. revert q Hq.
  apply (clear_bind watched (Service.ScheduleMonitor x (FromPgUUID i) (cm_IntervalSec c) _)
    (fun _ => mret (inr (FromPgUUID i)))); [by apply clear_ScheduleMonitor|].
  intros _. apply pays_clear, pays_ret.
Qed.

Lemma clear_UpdateMonitorStatus x u i b : clear (Service.UpdateMonitorStatus x u i b).
Proof using UL.
  intros q Hq. unfold Service.UpdateMonitorStatus, MonitorSvc.Repository.Get.
  apply obeys_bind, owes_calm; [exact I|]. intros r (_ & _ & Hh & _).
  destruct r as [e|[row|]]; cbn [one]; apply obeys_ret; [by apply obeys_ret| |by apply obeys_ret].
  specialize (Hh row eq_refl). case_decide; [by apply obeys_ret|].
  unfold MonitorSvc.Repository.SetEnabled. apply obeys_bind, owes_calm; [exact I|].
  intros [e|rows] (_ & Hu & _); [by do 2 apply obeys_ret|]. cbn in Hu. apply bool_decide_eq_true in Hu.
  case_decide as Hr; [by do 2 apply obeys_ret|]. apply obeys_ret.
  assert (i <> watched) as Hi by (intros ->; by apply Hr, Hu). revert q Hq.
  apply (clear_bind watched (if b then Service.ScheduleMonitor x _ _ _ else Service.disableMonitor x i)
    (fun _ => mret (inr true))); [|intros _; apply pays_clear, pays_ret].
  destruct b; [|by apply clear_disable]. apply clear_ScheduleMonitor. cbn. by rewrite Hh.
Qed.

Lemma pays_GetMonitor x u i : pays 0 (Service.GetMonitor x u i).
Proof using. unfold Service.GetMonitor, MonitorSvc.Repository.Get. calm. Qed.

Lemma clear_closed : closed (@Debt.clear _ watched).
Proof using UL.
  split.
  - intros A a. apply pays_clear, pays_ret.
  - intros A B p f. apply clear_bind.
  - by apply pays_clear, pays_op.
  - intros s. by apply pays_clear, pays_op.
  - intros q _. by apply pays_clear, pays_op.
  - intros x c _. apply clear_CreateMonitor.
  - apply clear_UpdateMonitorStatus.
  - intros. apply pays_clear, pays_GetMonitor.
Qed.

End Tasks.
