(* ===== verification/Delivery.v ===== *)
(** * Every monitor is delivered, once

    From the protocol of Debt it follows, in every interleaving, that a monitor
    is never forgotten: it is in the queue, in a channel, or owed by a task that
    passes it on before it ends.  And it is not doubled: as long as nothing is
    reclaimed it is in at most one of these places, once. *)

From S2P Require Import Prelude AppError Types Redis Postgres Effects Rules Reference RedisStore.
From S2P Require Import Scheduler Security Http User MonitorJSON MonitorSvc Handlers Api Executor Result Pipeline Protocol Coherence Debt.
From stdpp Require Import gmap list strings pretty sorting.
#[local] Open Scope Z_scope.

(** ** The invariant *)

Section Invariant.
Context {U : UuidLib} {UL : UuidLaws U} {L : JwtLib} {V : Validator}
        {S : Services} {SL : ServiceLaws S} (watched : UUID).
Notation member := (member watched).
Notation share := (share watched).

(** How often the monitor is in the channels of a process. *)
Definition jobs_for (ch : chan JobPayload) : nat := sum_of (fun j => share (job_MonitorID j)) (ch_buf ch).
Definition results_for (ch : chan HTTPResult) : nat := sum_of (fun r => share (r_MonitorID r)) (ch_buf ch).
Definition carried (p : proc) : nat :=
  (jobs_for (jobChan p) + results_for (resultChan p) + results_for (successChan p) + results_for (failureChan p))%nat.

(** No result on its way stops the monitor. *)
Definition no_stop (p : proc) : Prop :=
  Forall (fun r => r_MonitorID r = watched -> failure_of r <> Terminal) (ch_buf (failureChan p)).

(** The monitor is scheduled, or [n] times on its way, or in flight with a job
    that nobody is about to acknowledge. *)
Definition alive (v : redis) (n a : nat) : Prop :=
  is_Some (zset v scheduleKey !! member) \/ (1 <= n)%nat \/ (is_Some (zset v inflightKey !! member) /\ a = 0%nat).

Definition remembered (w : world) (ps : list proc) (qs : list debt) : Prop :=
  alive (rview w) (sum_of claims qs + sum_of carried ps) (sum_of acks qs) /\ Forall no_stop ps /\
  canonical watched (rview w).

(** The monitor is scheduled or on its way once at most. *)
Definition single (v : redis) (n : nat) : Prop := (scheduled watched v + n <= 1)%nat.

Definition undoubled (w : world) (ps : list proc) (qs : list debt) : Prop :=
  single (rview w) (sum_of claims qs + sum_of carried ps) /\ Forall no_stop ps /\ canonical watched (rview w).

Definition same_queues (v v' : redis) : Prop := forall k, k = scheduleKey \/ k = inflightKey -> zset v' k = zset v k.

Lemma same_alive v v' n n' a a' :
  same_queues v v' -> (n <= n')%nat -> (a' <= a)%nat -> alive v n a -> alive v' n' a'.
Proof using.
  intros Hz Hn Ha. unfold alive. rewrite !Hz by auto.
  intros [H|[H|[H ->]]]; [by left|right; left; lia|]. right; right. split; [done|lia].
Qed.

Lemma same_single v v' n n' : same_queues v v' -> (n' <= n)%nat -> single v n -> single v' n'.
Proof using. intros Hz Hn. unfold single, scheduled. rewrite Hz by auto. lia. Qed.

Lemma same_canonical v v' : same_queues v v' -> canonical watched v -> canonical watched v'.
Proof using. intros Hz H k m Hk. rewrite Hz by done. by apply H. Qed.

Lemma same_refl v : same_queues v v.
Proof using. by intros k _. Qed.

Lemma zadd_all_is_Some items (z : gmap string Z) m :
  m ∈ items.*2 \/ is_Some (z !! m) -> is_Some (zadd_all items z !! m).
Proof using.
  unfold zadd_all. revert z. induction items as [|[s x] items IH]; intros z H; cbn in *.
  - by destruct H as [[]%elem_of_nil|].
  - apply IH. destruct (decide (m = x)) as [->|Hne]; [right; rewrite lookup_insert_eq; eauto|].
    rewrite lookup_insert_ne by done. rewrite elem_of_cons in H. naive_solver.
Qed.

(** The calls that do not name a sorted set leave them alone. *)
Definition names_zset (c : rcall) : bool :=
  match c with ZADD _ _ | ZREM _ _ | ZPOPMIN _ _ | DEL _ => true | _ => false end.

Lemma rcall_zsets c now v v' r k :
  names_zset c = false -> rcall_spec c now v v' r -> zset v' k = zset v k.
Proof using.
  intros Hn Hs. destruct c; try discriminate Hn; cbn [rcall_spec] in Hs; clear Hn.
  - by destruct Hs as [-> _].
  - by destruct Hs as (? & _ & _ & _ & ->).
  - by destruct Hs as [-> _].
  - destruct (hash v key !! field); by destruct Hs as [_ ->].
  - by destruct Hs as [_ ->].
  - by destruct Hs as [_ ->].
  - by destruct Hs as (? & _ & _ & _ & ->).
  - destruct (live now v key); by destruct Hs as [_ ->].
  - by destruct Hs as [_ ->].
  - by rewrite Hs.
Qed.

(** What the calls of the code do to the queues. *)
Inductive queue_call : rcall -> redis -> redis -> Prop :=
| queue_add items v :
    Forall (canon watched) items.*2 ->
    queue_call (ZADD scheduleKey items) v (set_zset scheduleKey (zadd_all items (zset v scheduleKey)) v)
| queue_remove k m v :
    ~ (k = scheduleKey /\ m = member) -> queue_call (ZREM k m) v (set_zset k (delete m (zset v k)) v)
| queue_calm c v v' : calm_cmd (Redis (Call c)) -> same_queues v v' -> queue_call c v v'.

Lemma call_queue c now v v' y q :
  rcall_spec c now v v' y -> permits watched q (Redis (Call c)) -> queue_call c v v'.
Proof using.
  intros Hs Hp. destruct (names_zset c) eqn:Hz.
  2: { apply queue_calm; [by destruct c|]. intros k _. by eapply rcall_zsets. }
  destruct c as [k items|k m| |k count| | | | | | | |k| | ]; try discriminate Hz; cbn [rcall_spec] in Hs; clear Hz.
  - destruct Hs as [-> _], Hp as (-> & _ & Hc). by constructor.
  - destruct Hs as [-> _], Hp as [_ Hk]. by constructor.
  - done.
  - apply queue_calm; [exact Hp|]. intros k' Hk'. assert (v' = del k v) as -> by apply Hs.
    rewrite zset_del, decide_False; [done|]. destruct Hp as [H1 H2]. by destruct Hk'; subst.
Qed.

Lemma effect_queue c now v v' (o : error + rreply c) q :
  call_effect (Call c) now v v' o -> permits watched q (Redis (Call c)) -> v' = v \/ queue_call c v v'.
Proof using.
  intros He Hp. destruct o as [e|y]; [destruct He as [->|[y Hy]]; [by left|]|];
    right; by eapply call_queue.
Qed.

(** The same for scripts, whose effect may go without an answer. *)
Lemma effect_script s ks xs now v v' o q :
  call_effect (EVAL s ks xs) now v v' o -> permits watched q (Redis (EVAL s ks xs)) ->
  undisturbed watched (Redis (EVAL s ks xs)) o = true ->
  v' = v /\ (exists e, o = inl e) \/
  exists y, moves_watched watched ks v v' y /\ (o = inr y \/ fetched ks y = [] /\ exists e, o = inl e).
Proof using.
  intros He Hp Hu. destruct o as [e|y]; [|right; exists y; split; [by eapply Hp|by left]].
  destruct He as [->|[y Hy]]; [left; eauto|right]. exists y. split; [by eapply Hp|right]. split; [|eauto].
  cbn in Hu. apply bool_decide_eq_true in Hu. unfold fetched. destruct (head ks); [|done].
  destruct y; try done. rewrite decide_False; [done|congruence].
Qed.

(** *** A command of Redis leaves the monitor alive *)

Lemma queue_alive c v v' (o : error + rreply c) n a q :
  queue_call c v v' -> permits watched q (Redis (Call c)) -> alive v (claims q + n) (acks q + a) ->
  alive v' (claims (owing watched q (Redis (Call c)) o) + n) (acks (owing watched q (Redis (Call c)) o) + a).
Proof using.
  intros Hq Hp Hal. destruct Hq as [items v Hc|k m v Hk|c v v' Hc Hz].
  - cbn. rewrite Nat.add_0_r, Nat.sub_0_r. case_bool_decide as Hin; cbn.
    + left. rewrite zset_set_zset_eq. apply zadd_all_is_Some. left. apply Hin.
    + rewrite Nat.sub_0_r. destruct Hal as [H|[H|[H ->]]]; [left|by right; left|right; right; split; [|done]].
      * rewrite zset_set_zset_eq. apply zadd_all_is_Some. by right.
      * by rewrite zset_set_zset_ne.
  - destruct Hp as [Hp _]. cbn in Hp |- *. rewrite Nat.add_0_r, Nat.sub_0_r.
    destruct Hal as [H|[H|[H Ha]]]; [left|by right; left|].
    + rewrite zset_set_zset. destruct (decide (k = scheduleKey)) as [->|]; [|done].
      rewrite lookup_delete_ne; [done|]. intros ->. by apply Hk.
    + case_bool_decide as Hi; cbn; [specialize (Hp eq_refl); lia|].
      right; right. split; [|lia]. rewrite zset_set_zset.
      destruct (decide (k = inflightKey)) as [->|]; [|done].
      rewrite lookup_delete_ne; [done|]. intros ->. by apply Hi.
  - rewrite (calm_owing watched) by done. by eapply same_alive.
Qed.

Lemma redis_alive c now v v' (o : error + rcmd_reply c) n a q :
  call_effect c now v v' o -> permits watched q (Redis c) -> undisturbed watched (Redis c) o = true ->
  alive v (claims q + n) (acks q + a) ->
  alive v' (claims (owing watched q (Redis c) o) + n) (acks (owing watched q (Redis c) o) + a).
Proof using.
  intros He Hp Hu Hal. destruct c as [c|s ks xs].
  - destruct o as [e|y]; [|eapply queue_alive; [by eapply call_queue|done|done]].
    destruct (effect_queue _ _ _ _ _ _ He Hp) as [->|Hq]; [|by eapply queue_alive].
    assert (claims q <= claims (owing watched q (Redis (Call c)) (inl e)))%nat as Hc.
    { destruct c; cbn in Hu |- *; try lia. apply bool_decide_eq_true in Hu.
      rewrite bool_decide_eq_false_2 by done. cbn. lia. }
    eapply same_alive; [apply same_refl| | |exact Hal]; [lia|cbn; lia].
  - destruct (effect_script _ _ _ _ _ _ _ _ He Hp Hu) as [[-> [e ->]]|(y & [H1 H2 _ _] & Ho)].
    { eapply same_alive; [apply same_refl| | |exact Hal]; cbn; lia. }
    cbn. rewrite !Nat.sub_0_r. destruct Hal as [H|[H|[H ->]]].
    + destruct (H1 H) as [|Hin]; [by left|]. right; left.
      destruct Ho as [->|[E _]]; [|by rewrite E in Hin; apply not_elem_of_nil in Hin].
      apply (sum_of_elem (fun m => weight (bool_decide (m = member)))) in Hin.
      rewrite bool_decide_eq_true_2 in Hin by done. unfold occurrences. cbn in Hin. lia.
    + right; left. lia.
    + destruct (H2 H); [right; right; split; [done|lia]|by left].
Qed.

(** *** And single *)

(** Nothing is reclaimed: no job outlives its deadline. *)
Definition unreclaimed (c : cmd) : reply c -> Prop :=
  match c with
  | Redis (EVAL _ ks _) => fun r => head ks <> Some scheduleKey -> r = inr (LuaInt 0)
  | _ => fun _ => True
  end.

Lemma scheduled_le v : (scheduled watched v <= 1)%nat.
Proof using. unfold scheduled. destruct (bool_decide _); cbn; lia. Qed.

Lemma queue_single c v v' (o : error + rreply c) n q :
  queue_call c v v' -> permits watched q (Redis (Call c)) -> single v (claims q + n) ->
  single v' (claims (owing watched q (Redis (Call c)) o) + n).
Proof using.
  intros Hq Hp Hs. unfold single in *. destruct Hq as [items v Hc|k m v Hk|c v v' Hc Hz].
  - destruct Hp as (_ & Hp & _). cbn. rewrite Nat.add_0_r. case_bool_decide as Hin; cbn.
    + destruct Hin as [_ Hin]. specialize (Hp Hin).
      pose proof (scheduled_le (set_zset scheduleKey (zadd_all items (zset v scheduleKey)) v)). lia.
    + assert (scheduled watched (set_zset scheduleKey (zadd_all items (zset v scheduleKey)) v) = scheduled watched v) as ->;
        [|lia]. apply scheduled_lookup. rewrite zset_set_zset_eq. apply zadd_all_lookup_ne. intros H. by apply Hin.
  - cbn. rewrite Nat.add_0_r, Nat.sub_0_r.
    assert (scheduled watched (set_zset k (delete m (zset v k)) v) = scheduled watched v) as ->; [|done].
    apply scheduled_lookup. rewrite zset_set_zset. destruct (decide (k = scheduleKey)) as [->|]; [|done].
    rewrite lookup_delete_ne; [done|]. intros ->. by apply Hk.
  - rewrite (calm_owing watched) by done. by eapply same_single.
Qed.

Lemma redis_single c now v v' (o : error + rcmd_reply c) n q :
  call_effect c now v v' o -> permits watched q (Redis c) -> undisturbed watched (Redis c) o = true ->
  unreclaimed (Redis c) o -> single v (claims q + n) ->
  single v' (claims (owing watched q (Redis c) o) + n).
Proof using.
  intros He Hp Hu Hr Hs. destruct c as [c|s ks xs].
  - destruct (effect_queue _ _ _ _ _ _ He Hp) as [->|Hq]; [|by eapply queue_single].
    eapply same_single; [apply same_refl| |exact Hs]. assert (takes watched (Redis (Call c)) o = 0%nat) as E by done.
    unfold owing. rewrite E. cbn [claims]. lia.
  - destruct (effect_script _ _ _ _ _ _ _ _ He Hp Hu) as [[-> [e ->]]|(y & [_ _ H3 _] & Ho)].
    { eapply same_single; [apply same_refl| |exact Hs]; cbn; lia. }
    unfold single in *. cbn. rewrite Nat.sub_0_r. cbn in Hr.
    destruct (decide (head ks = Some scheduleKey)) as [Hk|Hk].
    + destruct Ho as [->|(_ & e & ->)]; [|cbn in Hu; by apply bool_decide_eq_true in Hu].
      specialize (H3 (or_introl Hk)). lia.
    + specialize (Hr Hk). destruct Ho as [->|(_ & e & ->)]; [|discriminate Hr]. injection Hr as ->.
      specialize (H3 (or_intror eq_refl)). lia.
Qed.

(** *** And in one spelling *)

Lemma redis_canonical c now v v' (o : error + rcmd_reply c) q :
  call_effect c now v v' o -> permits watched q (Redis c) -> undisturbed watched (Redis c) o = true ->
  canonical watched v -> canonical watched v' /\ proper watched (Redis c) o.
Proof using.
  intros He Hp Hu Hv. destruct c as [c|s ks xs].
  - split; [|by destruct c]. destruct (effect_queue _ _ _ _ _ _ He Hp) as [->|Hq]; [done|].
    destruct Hq as [items v Hc|k m v Hk|c v v' Hc Hz]; [| |by eapply same_canonical]; intros k' m' Hk' Hm.
    + rewrite zset_set_zset in Hm. destruct (decide (scheduleKey = k')) as [<-|]; [|by eapply Hv].
      destruct (decide (m' ∈ items.*2)) as [Hin|Hin]; [by eapply Forall_forall|].
      rewrite zadd_all_lookup_ne in Hm by done. by eapply Hv.
    + rewrite zset_set_zset in Hm. destruct (decide (k = k')) as [<-|]; [|by eapply Hv].
      destruct Hm as [x Hx%lookup_delete_Some]. eapply Hv; [exact Hk'|]. exists x. apply Hx.
  - destruct (effect_script _ _ _ _ _ _ _ _ He Hp Hu) as [[-> [e ->]]|(y & [_ _ _ H4] & Ho)]; [done|].
    destruct (H4 Hv) as [Hv' Hc]. split; [done|]. by destruct Ho as [->|(_ & e & ->)].
Qed.

(** *** Channels *)

(** The sum over a channel with one more item. *)
Ltac carry := unfold carried, jobs_for, results_for; cbn; rewrite sum_of_snoc; unfold Debt.share in *; lia.

(** What a command does to the channels: what is passed on is carried. *)
Lemma exec_carried c w p w' p' r :
  open p -> exec c (MkSys w p) = Reply (MkSys w' p') r ->
  carried p' = (carried p + match c with Redis _ => 0 | _ => weight (passes watched c r) end)%nat /\
  (no_stop p -> undisturbed watched c r = true -> no_stop p').
Proof using.
  intros (H1 & H2 & H3 & H4 & H5) He.
  assert (forall (x : proc) n, n = 0%nat -> carried x = carried p -> failureChan x = failureChan p ->
    carried x = (carried p + n)%nat /\ (no_stop p -> undisturbed watched c r = true -> no_stop x)) as Hsem.
  { intros x n -> -> E. unfold no_stop. rewrite E. split; [lia|done]. }
  destruct c as [rc|s| |n|x d|url|url d|x k|r0|r0|r0|a0| | |pw]; cbn [exec] in He;
    try (apply exec_ext in He as [_ ->]; by apply Hsem).
  - injection He as _ <- _. by apply Hsem.
  - unfold exec_try_send_job in He. cbn [sw sp] in He. rewrite H1 in He. cbn in He.
    destruct (ch_room (jobChan p)), (ctx_done x w);
      [destruct (select_first w) as [w1 []]| | |]; injection He as <- <- <-;
      try (by apply Hsem); (split; [|done]); carry.
  - apply exec_send_open in He as [-> [= -> ->]]; [|done]. by split; [carry|].
  - apply exec_send_open in He as [-> [= -> ->]]; [|done]. by split; [carry|].
  - apply exec_send_open in He as [-> [= -> ->]]; [|done]. split.
    + carry.
    + intros Hn Hu. apply Forall_app. split; [exact Hn|]. constructor; [|done].
      cbn in Hu. apply bool_decide_eq_true in Hu. intros Hid Ht. by apply Hu.
  - apply exec_send_open in He as [-> [= -> ->]]; [|done]. by apply Hsem.
  - case_decide; [|done]. injection He as _ <- _. by apply Hsem.
  - case_decide; [|done]. injection He as _ <- _. by apply Hsem.
Qed.

(** *** The invariant is kept *)

Definition may_end (o : option Monitor) (q : debt) : Prop :=
  claims q = match o with Some m => share (m_ID m) | None => 0%nat end.
Definition permitted (e : event) : Prop :=
  undisturbed watched (projT1 e) (projT2 e) = true /\ honest (projT1 e) (projT2 e).

Notation task_follows := (task_follows (permits watched) (owing watched) (favourable watched) may_end
  (fun q => claims q = 0%nat)).

Lemma start_follows p p' t :
  start p p' t -> no_stop p ->
  exists q, task_follows t q /\ (claims q + carried p' = carried p)%nat /\ (acks q <= claims q)%nat /\ no_stop p'.
Proof using UL.
  intros Hst Hn. set (for_ i := MkDebt (share i) (share i)).
  destruct Hst as [sc p|rc p|ts rt r p Hin|j l p E|r l p E|r l p E|r l p E|a l p E].
  - exists (MkDebt 0 0). split; [by apply owes_doWork|done].
  - exists (MkDebt 0 0). split; [by apply owes_reclaim|done].
  - exists (MkDebt 0 0). split; [|done]. cbn. apply (clear_bind watched); [|intros; apply pays_clear, pays_ret|done].
    by eapply (closed_route _ (clear_closed watched)).
  - exists (for_ (job_MonitorID j)). split; [|split; [|done]].
    + by apply owes_handleJob.
    + unfold carried, jobs_for, pop. cbn. rewrite E. unfold sum_of; cbn. lia.
  - exists (for_ (r_MonitorID r)). split; [by apply owes_route|split; [|done]].
    unfold carried, results_for, pop. cbn. rewrite E. unfold sum_of; cbn. lia.
  - exists (for_ (r_MonitorID r)). split; [by apply owes_handleSuccess|split; [|done]].
    unfold carried, results_for, pop. cbn. rewrite E. unfold sum_of; cbn. lia.
  - unfold no_stop in Hn. rewrite E in Hn. apply Forall_cons_1 in Hn as [Hr Hn].
    exists (for_ (r_MonitorID r)). split; [by apply owes_handleFailure|].
    unfold no_stop, carried, results_for, pop. cbn. rewrite E. unfold sum_of; cbn. split; [lia|done].
  - exists (MkDebt 0 0). by split; [apply obeys_ret|].
Qed.

(** What holds after a command whatever is counted. *)
Lemma command_favourable w ps i q c p w' p' r :
  Forall no_stop ps -> canonical watched (rview w) -> permits watched q c -> ps !! i = Some p -> open p ->
  exec c (MkSys w p) = Reply (MkSys w' p') r -> open_reply c r -> permitted (existT c r) ->
  favourable watched c r /\ Forall no_stop (<[i := p']> ps) /\ canonical watched (rview w').
Proof using SL.
  intros Hns Hcan Hok Hp Hop He Hor [Hu Hh].
  destruct (exec_carried c w p w' p' r Hop He) as [_ Hn]. pose proof (exec_rview _ _ _ _ _ _ He) as Er.
  assert (canonical watched (rview w') /\ proper watched c r) as [Hcan' Hpr].
  { destruct c; try (by rewrite Er). by eapply redis_canonical. }
  split; [by repeat split|]. split; [|done]. apply Forall_insert; [done|]. apply Hn; [|done].
  rewrite Forall_lookup in Hns. by eapply Hns.
Qed.

Section Counting.
Context (ps : list proc) (qs : list debt) (i j : nat) (q : debt) (c : cmd) (p p' : proc) (r : reply c).
Context (Hq : qs !! j = Some q) (Hp : ps !! i = Some p).

Definition others : nat := (sum_of claims (delete j qs) + sum_of carried ps)%nat.

Lemma claims_before : (sum_of claims qs + sum_of carried ps = claims q + others)%nat.
Proof using Hq. pose proof (sum_of_delete claims qs j q Hq). unfold others. lia. Qed.

Lemma acks_before : (sum_of acks qs = acks q + sum_of acks (delete j qs))%nat.
Proof using Hq. pose proof (sum_of_delete acks qs j q Hq). lia. Qed.

Lemma claims_after :
  (sum_of claims (<[j := owing watched q c r]> qs) + sum_of carried (<[i := p']> ps) + carried p =
   claims (owing watched q c r) + others + carried p')%nat.
Proof using Hq Hp.
  pose proof (sum_of_insert carried ps i p p' Hp). pose proof (sum_of_delete claims qs j q Hq).
  pose proof (sum_of_insert claims qs j q (owing watched q c r) Hq). unfold others. lia.
Qed.

Lemma acks_after :
  (sum_of acks (<[j := owing watched q c r]> qs) = acks (owing watched q c r) + sum_of acks (delete j qs))%nat.
Proof using Hq.
  pose proof (sum_of_delete acks qs j q Hq).
  pose proof (sum_of_insert acks qs j q (owing watched q c r) Hq). lia.
Qed.

End Counting.

(** The claim that a command passes on is covered. *)
Lemma passes_covered q c r : permits watched q c -> (weight (passes watched c r) <= claims q)%nat.
Proof using.
  intros Hok. assert (forall b : bool, (b = true -> 1 <= claims q)%nat -> (weight b <= claims q)%nat) as H.
  { intros [] Hb; cbn; [by apply Hb|lia]. }
  apply H. destruct c as [[[]|]| | | | | | | | | | | | | |]; cbn in Hok |- *; try done;
    try (rewrite bool_decide_eq_true; naive_solver). destruct r; try done. by rewrite bool_decide_eq_true.
Qed.

(** A command on no server and no queue: what is passed on is carried. *)
Lemma sent_on c w p w' p' r q n :
  open p -> exec c (MkSys w p) = Reply (MkSys w' p') r -> permits watched q c ->
  match c with Redis _ => False | _ => True end ->
  (claims (owing watched q c r) + n + carried p' = claims q + n + carried p)%nat /\ acks (owing watched q c r) = acks q.
Proof using.
  intros Hop He Hok Hc. destruct (exec_carried c w p w' p' r Hop He) as [Hcar _].
  pose proof (passes_covered q c r Hok).
  assert (carried p' = carried p + weight (passes watched c r))%nat by (by destruct c).
  assert (takes watched c r = 0%nat /\ acknowledges watched c = false) as [Et Ea] by (by destruct c).
  unfold owing. rewrite Et, Ea. cbn [claims acks weight]. split; lia.
Qed.

Lemma remembered_is_kept :
  kept (permits watched) (owing watched) (favourable watched) may_end (fun q => claims q = 0%nat) permitted remembered.
Proof using SL UL.
  split.
  - intros w ps qs i j q c p w' p' r (Hal & Hns & Hcan) Hq Hok Hp Hop He Hor Hper.
    destruct (command_favourable _ _ _ _ _ _ _ _ _ Hns Hcan Hok Hp Hop He Hor Hper) as (Hf & Hns' & Hcan').
    split; [done|]. split; [|done]. pose proof (claims_after ps qs i j q c p p' r Hq Hp) as Ha.
    rewrite (acks_after qs j q c r Hq). rewrite (claims_before ps qs j q Hq), (acks_before qs j q Hq) in Hal.
    pose proof (exec_rview _ _ _ _ _ _ He) as Er.
    destruct c as [rc|s| |n|x d|url|url d|x k|r0|r0|r0|a0| | |pw];
      try (destruct (sent_on _ w p w' p' r q (others ps qs j) Hop He Hok I) as [Hc ->];
           rewrite Er; eapply same_alive; [apply same_refl| |done|exact Hal]; lia).
    destruct (exec_carried _ _ _ _ _ _ Hop He) as [Hcar _].
    eapply same_alive; [apply same_refl| |done|eapply redis_alive; [exact Er|done|apply Hper|exact Hal]]. lia.
  - intros w ps qs i p p' t (Hal & Hns & Hcan) Hp Hst.
    destruct (start_follows p p' t Hst) as (q & Ht & Hc & Ha & Hn); [rewrite Forall_lookup in Hns; by eapply Hns|].
    exists q. split; [done|]. split; [|split; [by apply Forall_insert|done]].
    pose proof (sum_of_insert carried ps i p p' Hp) as E1. rewrite !sum_of_snoc.
    destruct Hal as [H|[H|[H Hz]]]; [by left|right; left; lia|].
    destruct (decide (1 <= claims q)%nat); [right; left; lia|right; right; split; [done|lia]].
  - intros w ps qs j q [Hal Hns] Hq Hend. split; [|done]. assert (claims q = 0%nat) by (by destruct Hend).
    pose proof (sum_of_delete claims qs j q Hq). pose proof (sum_of_delete acks qs j q Hq).
    eapply same_alive; [apply same_refl| | |exact Hal]; lia.
  - intros w ps qs j q m [Hal Hns] Hq Hend. exists (MkDebt (share (m_ID m)) 0).
    split; [by apply owes_httpCheck|]. split; [|done]. unfold may_end in Hend.
    pose proof (sum_of_insert claims qs j q (MkDebt (share (m_ID m)) 0) Hq) as E2.
    pose proof (sum_of_insert acks qs j q (MkDebt (share (m_ID m)) 0) Hq) as E3. cbn in E2, E3.
    eapply same_alive; [apply same_refl| | |exact Hal]; lia.
  - intros w w' ps qs Hi (Hv & _). unfold remembered. by rewrite Hv.
Qed.

Lemma undoubled_is_kept :
  kept (permits watched) (owing watched) (favourable watched) may_end (fun q => claims q = 0%nat)
    (fun e => permitted e /\ unreclaimed (projT1 e) (projT2 e)) undoubled.
Proof using SL UL.
  split.
  - intros w ps qs i j q c p w' p' r (Hs & Hns & Hcan) Hq Hok Hp Hop He Hor [Hper Hun].
    destruct (command_favourable _ _ _ _ _ _ _ _ _ Hns Hcan Hok Hp Hop He Hor Hper) as (Hf & Hns' & Hcan').
    split; [done|]. split; [|done]. pose proof (claims_after ps qs i j q c p p' r Hq Hp) as Ha.
    rewrite (claims_before ps qs j q Hq) in Hs. pose proof (exec_rview _ _ _ _ _ _ He) as Er.
    destruct c as [rc|s| |n|x d|url|url d|x k|r0|r0|r0|a0| | |pw];
      try (destruct (sent_on _ w p w' p' r q (others ps qs j) Hop He Hok I) as [Hc _];
           rewrite Er; eapply same_single; [apply same_refl| |exact Hs]; lia).
    destruct (exec_carried _ _ _ _ _ _ Hop He) as [Hcar _].
    eapply same_single; [apply same_refl| |eapply redis_single; [exact Er|done|apply Hper|done|exact Hs]]. lia.
  - intros w ps qs i p p' t (Hs & Hns & Hcan) Hp Hst.
    destruct (start_follows p p' t Hst) as (q & Ht & Hc & Ha & Hn); [rewrite Forall_lookup in Hns; by eapply Hns|].
    exists q. split; [done|]. split; [|split; [by apply Forall_insert|done]].
    pose proof (sum_of_insert carried ps i p p' Hp) as E1. rewrite !sum_of_snoc.
    eapply same_single; [apply same_refl| |exact Hs]. lia.
  - intros w ps qs j q [Hs Hns] Hq _. split; [|done]. pose proof (sum_of_delete claims qs j q Hq).
    eapply same_single; [apply same_refl| |exact Hs]. lia.
  - intros w ps qs j q m [Hs Hns] Hq Hend. exists (MkDebt (share (m_ID m)) 0).
    split; [by apply owes_httpCheck|]. split; [|done]. unfold may_end in Hend.
    pose proof (sum_of_insert claims qs j q (MkDebt (share (m_ID m)) 0) Hq) as E2. cbn in E2.
    eapply same_single; [apply same_refl| |exact Hs]. lia.
  - intros w w' ps qs Hi (Hv & _). unfold undoubled. by rewrite Hv.
Qed.

(** *** Who is responsible *)

(** Under replies that favour the monitor, a program passes it on before it
    ends, or ends with a result that does. *)
Fixpoint discharges {A} (ends_with : A -> Prop) (p : prog A) : Prop :=
  match p with
  | Ret a => ends_with a
  | Panic _ => False
  | Op c k => forall r, favourable watched c r -> passes watched c r = true \/ discharges ends_with (k r)
  end.

(** A task that will pass the monitor on; a job may end with its check. *)
Definition responsible (t : task) : Prop :=
  match t with
  | TJob p => discharges (fun o => exists m, o = Some m /\ m_ID m = watched) p
  | TCheck p | TWork p => discharges (fun _ => False) p
  end.

Lemma owes_discharges {A} (p : prog A) q (Φ : A -> debt -> Prop) (Ψ : A -> Prop) :
  owes watched p q Φ -> (1 <= claims q)%nat -> (forall a q', Φ a q' -> (1 <= claims q')%nat -> Ψ a) ->
  discharges Ψ p.
Proof using.
  intros Hp Hq HΨ. revert q Hp Hq. induction p as [a|msg|c k IH]; intros q Hp Hq; cbn [discharges].
  - by eapply HΨ.
  - done.
  - intros r Hr. destruct (passes watched c r) eqn:E; [by left|right].
    destruct Hp as [_ Hk]. eapply IH; [by apply Hk|]. unfold owing; rewrite E; cbn. lia.
Qed.

Lemma follows_responsible t q : task_follows t q -> (1 <= claims q)%nat -> responsible t.
Proof using.
  intros Ht Hq. destruct t as [p|p|p]; cbn in Ht |- *; (eapply owes_discharges; [exact Ht|exact Hq|]).
  - intros [m|] q' He Hq'; unfold may_end in He; [|lia]. exists m. split; [done|]. apply share_pos. lia.
  - intros a q' He Hq'. cbn in He. lia.
  - intros a q' He Hq'. cbn in He. lia.
Qed.

(** A reply that hands the monitor to nobody. *)
Definition benign (c : cmd) : reply c :=
  match c with
  | Redis (Call c) => match c with ZADD _ _ => inr 0 | _ => inl (OtherError "i/o timeout") end
  | Redis (EVAL _ _ _) => inr (LuaInt 0)
  | Db _ => inl (OtherError "conn closed")
  | TimeNow | Int63n _ => 0
  | AfterOrDone _ _ | NewRequest _ => None
  | HttpDo _ _ => inl (OtherError "timeout")
  | TrySendJob _ _ => Full
  | SendResult _ | SendSuccess _ | SendFailure _ | SendAlert _ => true
  | AcquireSem | ReleaseSem => tt
  | CreateHash _ => inl (OtherError "")
  end.

Lemma benign_favourable q c :
  permits watched q c -> claims q = 0%nat ->
  favourable watched c (benign c) /\ claims (owing watched q c (benign c)) = 0%nat /\
  passes watched c (benign c) = false.
Proof using.
  intros Hok Hq. pose proof (passes_covered q c (benign c) Hok) as Hp.
  assert (passes watched c (benign c) = false) as E by (destruct (passes _ _ _); cbn in Hp; [lia|done]).
  rewrite E. split; [|split; [|done]].
  - assert (honest c (benign c)) as Hh.
    { destruct c as [[[]|]|[]| | | | | | | | | | | | |]; cbn; try done; by intros i data m _ [=]. }
    assert (undisturbed watched c (benign c) = true) as Hu.
    { destruct c as [[[]|]|[]| | | | | | | | | | | | |]; cbn; try done; try (by case_decide).
      cbn in Hok. apply bool_decide_eq_true. intros [Hid _]. specialize (Hok Hid). lia. }
    split; [by destruct c|]. split; [done|]. split; [done|].
    destruct c as [[|]| | | | | | | | | | | | | |]; try done. cbn. unfold fetched. by destruct (head keys).
  - unfold owing. rewrite E. cbn [claims]. rewrite Hq.
    destruct c as [[|]| | | | | | | | | | | | | |]; try done. cbn. unfold fetched. by destruct (head keys).
Qed.

(** Who owes nothing is not responsible. *)
Lemma idle_discharges {A} (p : prog A) q (Φ : A -> debt -> Prop) (Ψ : A -> Prop) :
  owes watched p q Φ -> claims q = 0%nat -> (forall a q', Φ a q' -> claims q' = 0%nat -> ~ Ψ a) ->
  ~ discharges Ψ p.
Proof using.
  intros Hp Hq HΨ. revert q Hp Hq. induction p as [a|msg|c k IH]; intros q Hp Hq; cbn [discharges].
  - by eapply HΨ.
  - by intros [].
  - intros Hd. destruct Hp as [Hok Hk]. destruct (benign_favourable q c Hok Hq) as (Hf & Hc & Hn).
    destruct (Hd _ Hf) as [Hp|Hp]; [congruence|]. by eapply IH; [apply Hk|exact Hc|].
Qed.

Lemma follows_idle t q : task_follows t q -> responsible t -> (1 <= claims q)%nat.
Proof using.
  intros Ht Hr. destruct (decide (claims q = 0%nat)) as [Hq|]; [exfalso|lia]. revert Hr.
  destruct t as [p|p|p]; cbn in Ht |- *; (eapply idle_discharges; [exact Ht|exact Hq|]).
  - intros o q' He Hq' (m & -> & Hm). unfold may_end in He. rewrite (share_watched _ _ Hm) in He. lia.
  - by intros a q' _ _ [].
  - by intros a q' _ _ [].
Qed.

(** The monitor is in a channel of a process. *)
Definition in_channel (p : proc) : Prop :=
  MkJobPayload watched ∈ ch_buf (jobChan p) \/
  exists r, r_MonitorID r = watched /\
    r ∈ ch_buf (resultChan p) ++ ch_buf (successChan p) ++ ch_buf (failureChan p).

Lemma jobs_for_pos ch : (1 <= jobs_for ch)%nat <-> MkJobPayload watched ∈ ch_buf ch.
Proof using.
  split.
  - intros ([i] & Hi & Hs)%sum_of_pos. by apply share_pos in Hs as <-.
  - intros Hi. apply (sum_of_elem (fun j => share (job_MonitorID j))) in Hi. cbn in Hi.
    unfold Debt.share in Hi. by rewrite bool_decide_eq_true_2 in Hi.
Qed.

Lemma results_for_pos ch : (1 <= results_for ch)%nat <-> exists r, r_MonitorID r = watched /\ r ∈ ch_buf ch.
Proof using.
  split.
  - intros (r & Hr & Hs)%sum_of_pos. apply share_pos in Hs. eauto.
  - intros (r & Hid & Hr). apply (sum_of_elem (fun r => share (r_MonitorID r))) in Hr. cbn in Hr.
    unfold Debt.share in Hr. by rewrite bool_decide_eq_true_2 in Hr.
Qed.

Lemma carried_in_channel p : (1 <= carried p)%nat <-> in_channel p.
Proof using.
  unfold in_channel. rewrite <- jobs_for_pos.
  pose proof (results_for_pos (resultChan p)) as H1. pose proof (results_for_pos (successChan p)) as H2.
  pose proof (results_for_pos (failureChan p)) as H3. unfold carried. split.
  - intros Hp. destruct (decide (1 <= jobs_for (jobChan p))%nat); [by left|right].
    assert (1 <= results_for (resultChan p) \/ 1 <= results_for (successChan p) \/ 1 <= results_for (failureChan p))%nat
      as [(r & ? & Hr)%H1|[(r & ? & Hr)%H2|(r & ? & Hr)%H3]] by lia; exists r; rewrite !elem_of_app; auto.
  - intros [|(r & Hr & [Hi|[Hi|Hi]%elem_of_app]%elem_of_app)]; [lia|..].
    + pose proof (proj2 H1 (ex_intro _ r (conj Hr Hi))). lia.
    + pose proof (proj2 H2 (ex_intro _ r (conj Hr Hi))). lia.
    + pose proof (proj2 H3 (ex_intro _ r (conj Hr Hi))). lia.
Qed.

(** *** The replies of a run are honest *)

Lemma row_Monitor_id i x : m_ID (row_Monitor i x) = i.
Proof using. exact (FromPgUUID_To i). Qed.

Lemma exec_honest c w p w' p' r :
  exec c (MkSys w p) = Reply (MkSys w' p') r -> coherent (rview w) (dview w) -> honest c r.
Proof using SL.
  intros He Hc. pose proof (exec_rview _ _ _ _ _ _ He) as Er. pose proof (exec_dview _ _ _ _ _ _ He) as Ed.
  destruct c as [[[]|]|[]| | | | | | | | | | | | |]; try done.
  - intros i data m -> -> Hm. destruct Er as [Ho _].
    destruct (live (rclock w') (rview w) (cacheKey i)) as [y|] eqn:El; [|discriminate Ho].
    injection Ho as ->. apply live_cached in El as [o Ho].
    destruct (Hc _ _ _ _ Ho Hm) as (x & _ & Hs). apply same_settings_fields in Hs as [-> _]. apply row_Monitor_id.
  - intros row ->. destruct Ed as [Ho _]. unfold sql_get_monitor_by_id, by_id in Ho. unfold FromPgUUID at 2.
    destruct (pgu_Valid id); [|discriminate Ho].
    destruct (monitors (dview w) !! _) as [x|]; [|discriminate Ho]. by injection Ho as ->.
  - intros row ->. destruct Ed as [Ho _]. symmetry in Ho. apply sql_get_monitor_owner in Ho as (x & E & _ & ->).
    unfold by_id in E. unfold FromPgUUID at 2. by destruct (pgu_Valid id).
Qed.

Lemma steps_honest P tr P' :
  Pipeline.fresh P -> coherent (rview (pl_world P)) (dview (pl_world P)) -> valid_db (dview (pl_world P)) ->
  steps P tr P' -> Forall (fun e => honest (projT1 e) (projT2 e)) tr.
Proof using SL UL.
  intros Hf Hc Hv Hs. assert (holds may learns open_reply (fun _ _ => True) (fun _ => True) coherence P) as H.
  { split; [exists []; by apply fresh_ok|]. exists []. split; [|by split].
    unfold tasks_follow. destruct Hf as [-> _]. constructor. }
  clear Hf Hc Hv. induction Hs as [P|P e P1 tr P2 H1 H2 IH]; [constructor|]. apply Forall_app. split.
  - destruct H as [_ (qs & _ & Hc & _)]. destruct H1; cbn; try constructor; [|constructor].
    by eapply exec_honest.
  - apply IH. eapply holds_step; [apply coherence_is_kept|done| |done]. by apply Forall_forall.
Qed.

(** *** The theorems *)

(** Where a run starts: nothing has begun, the cache and the table agree, no
    result that is final is on its way, and the queue has no second spelling of
    the monitor. *)
Record begins (P : pool S) : Prop := {
  bg_fresh : Pipeline.fresh P;
  bg_coherent : coherent (rview (pl_world P)) (dview (pl_world P));
  bg_valid : valid_db (dview (pl_world P));
  bg_no_stop : Forall no_stop (pl_procs P);
  bg_canonical : canonical watched (rview (pl_world P))
}.

Definition is_undisturbed (e : event) : bool := undisturbed watched (projT1 e) (projT2 e).

Lemma run_permitted P tr P' :
  begins P -> steps P tr P' -> Forall is_undisturbed tr -> Forall permitted tr.
Proof using SL UL.
  intros [Hf Hc Hv _ _] Hs Hu. apply Forall_and. split; [|by eapply steps_honest].
  eapply Forall_impl; [exact Hu|]. intros e. apply Is_true_true_1.
Qed.

(** What is remembered at the start of a run is at its end. *)
Lemma run_remembers P tr P' :
  begins P -> steps P tr P' -> Forall is_undisturbed tr ->
  uuid_String watched ∈ tracked (rview (pl_world P)) \/ (exists p, p ∈ pl_procs P /\ in_channel p) ->
  exists qs, tasks_follow (permits watched) (owing watched) (favourable watched) may_end
      (fun q => claims q = 0%nat) P' qs /\ remembered (pl_world P') (pl_procs P') qs.
Proof using SL UL.
  intros Hb Hs Hu Hin. pose proof (run_permitted P tr P' Hb Hs Hu) as Hp. destruct Hb as [Hf _ _ Hns Hcan].
  assert (remembered (pl_world P) (pl_procs P) []) as Hr.
  { split; [|done]. unfold alive. destruct Hin as [[?|?]%elem_of_tracked|(p & Hp' & Hi)]; [by left|by right; right|].
    right; left. apply carried_in_channel in Hi. apply (sum_of_elem carried) in Hp'. cbn. lia. }
  exact (holds_steps _ _ _ _ _ _ _ P tr P' remembered_is_kept Hf Hr Hs Hp).
Qed.

(** C1: no monitor is forgotten.  However the tasks of however many processes
    interleave, a monitor that was in the queue or in a channel still is, or a
    task has it and will pass it on before it ends (to the schedule, to a
    channel, or to a check that does), as long as nobody enables or disables
    it, it is not deleted or stopped by a final failure, the commands that
    schedule it or fetch from the schedule do not fail, and the scheduler is
    not stopped.  Other failures of Redis and Postgres, timeouts, lost workers'
    jobs that are reclaimed and full channels do no harm. *)
Theorem no_monitor_forgotten P tr P' :
  begins P -> steps P tr P' -> Forall is_undisturbed tr ->
  uuid_String watched ∈ tracked (rview (pl_world P)) \/ (exists p, p ∈ pl_procs P /\ in_channel p) ->
  uuid_String watched ∈ tracked (rview (pl_world P')) \/
  (exists p, p ∈ pl_procs P' /\ in_channel p) \/
  (exists i t, (i, t) ∈ pl_tasks P' /\ responsible t).
Proof using SL UL.
  intros Hb Hs Hu Hin. destruct (run_remembers P tr P' Hb Hs Hu Hin) as (qs & Hq & Hal & _).
  unfold alive in Hal. destruct Hal as [H|[H|[H _]]].
  - left. apply elem_of_tracked. by left.
  - right. destruct (decide (1 <= sum_of carried (pl_procs P'))%nat) as [Hc'|Hc'].
    + left. apply sum_of_pos in Hc' as (p & Hp' & Hi). exists p. split; [done|]. by apply carried_in_channel.
    + right. assert (0 < sum_of claims qs)%nat as (q & Hq' & Hcl)%sum_of_pos by lia.
      apply list_elem_of_lookup in Hq' as [j Hj].
      destruct (Forall2_lookup_r _ _ _ _ _ Hq Hj) as ([i t] & Ht & Hft).
      exists i, t. split; [by eapply list_elem_of_lookup_2|]. by eapply follows_responsible.
  - left. apply elem_of_tracked. by right.
Qed.

(** How often the monitor waits: in the schedule, and in the channels. *)
Definition waiting (P : pool S) : nat :=
  (scheduled watched (rview (pl_world P)) + sum_of carried (pl_procs P))%nat.

(** C2: no monitor is doubled.  Under the same conditions, and as long as
    nothing is reclaimed (no job outlives the visibility timeout), a monitor
    that waits once, in the schedule or in a channel, does so at most once at
    any time, however the tasks of however many processes interleave; while a
    task is responsible for it, it does not wait, and no other task is
    responsible: it is never checked twice at once. *)
Theorem no_monitor_doubled P tr P' :
  begins P -> steps P tr P' -> Forall is_undisturbed tr ->
  Forall (fun e => unreclaimed (projT1 e) (projT2 e)) tr ->
  (waiting P <= 1)%nat ->
  (waiting P' <= 1)%nat /\
  forall j i t, pl_tasks P' !! j = Some (i, t) -> responsible t ->
    waiting P' = 0%nat /\
    forall j' i' t', pl_tasks P' !! j' = Some (i', t') -> responsible t' -> j' = j.
Proof using SL UL.
  intros Hb Hs Hu Hun Hone. pose proof (run_permitted P tr P' Hb Hs Hu) as Hp. destruct Hb as [Hf _ _ Hns Hcan].
  assert (undoubled (pl_world P) (pl_procs P) []) as Hi by by split.
  destruct (holds_steps _ _ _ _ _ _ _ P tr P' undoubled_is_kept Hf Hi Hs) as (qs & Hq & Hone' & _);
    [by apply Forall_and|]. unfold single in Hone'. unfold waiting in *.
  assert (forall j i t, pl_tasks P' !! j = Some (i, t) -> responsible t ->
    exists q, qs !! j = Some q /\ 1 <= claims q)%nat as Hresp.
  { intros j i t Hj Hr. destruct (Forall2_lookup_l _ _ _ _ _ Hq Hj) as (q & Hqj & Hft).
    exists q. split; [done|]. by eapply follows_idle. }
  split; [lia|]. intros j i t Hj Hr. destruct (Hresp j i t Hj Hr) as (q & Hqj & Hcl).
  pose proof (sum_of_elem claims qs q (list_elem_of_lookup_2 _ _ _ Hqj)). split; [lia|].
  intros j' i' t' Hj' Hr'. destruct (Hresp j' i' t' Hj' Hr') as (q' & Hqj' & Hcl').
  destruct (decide (j' = j)) as [|Hne]; [done|]. pose proof (sum_of_two claims qs j' j q' q Hne Hqj' Hqj). lia.
Qed.

End Invariant.

(** ** Witness *)

Section Witnesses.
#[local] Existing Instance Hex.lib.
#[local] Existing Instance Hex.laws.
#[local] Existing Instance RefWorld.services.
#[local] Existing Instance RefWorld.laws.
#[local] Existing Instance RefJwt.lib.
#[local] Existing Instance RefAPI.validator.

(** A monitor that is due, and a process with nothing to do. *)
Definition due_redis : redis := MkRedis {[scheduleKey := {[uuid_String Demo.uid1 := Demo.ms0 - 1000]}]} ∅ ∅.
Definition due_world : @world RefWorld.services := RefWorld.start due_redis enabled_db Demo.t0.
Definition due_pool : pool RefWorld.services := MkPool due_world [RefWorld.proc10] [].

(** Starts a task for the first item that waits in a channel of the first
    process, or a tick of the scheduler. *)
Definition launch (P : pool RefWorld.services) : pool RefWorld.services :=
  match pl_procs P with
  | [] => P
  | p :: ps =>
    let started p' t := MkPool (pl_world P) (p' :: ps) (pl_tasks P ++ [(0%nat, t)]) in
    match ch_buf (jobChan p), ch_buf (resultChan p), ch_buf (successChan p) with
    | j :: _, _, _ => started (set_jobChan pop p) (TJob (handleJob j))
    | [], r :: _, _ => started (set_resultChan pop p) (TWork (route r))
    | [], [], r :: _ => started (set_successChan pop p) (TWork (handleSuccess r))
    | [], [], [] => started p (TWork (doWorkWithReliability sc0))
    end
  end.

Lemma launch_steps P : steps P [] (launch P).
Proof.
  destruct P as [w [|p ps] ts]; [constructor|].
  eapply (steps_cons _ None); [|constructor]. unfold launch. cbn [pl_procs pl_world pl_tasks].
  destruct (ch_buf (jobChan p)) eqn:Ej; [destruct (ch_buf (resultChan p)) eqn:Er;
    [destruct (ch_buf (successChan p)) eqn:Es|]|];
    (eapply (step_start w (p :: ps) ts 0); [reflexivity|]).
  - apply start_scheduler.
  - by eapply start_success.
  - by eapply start_route.
  - by eapply start_job.
Qed.

(** One task after the other. *)
Fixpoint rounds (n : nat) (P : pool RefWorld.services) : list event * pool RefWorld.services :=
  match n with
  | O => ([], P)
  | S n => let '(tr1, P1) := drive (repeat 0%nat 25) (launch P) in
           let '(tr2, P2) := rounds n P1 in (tr1 ++ tr2, P2)
  end.

Lemma rounds_steps n P : steps P (rounds n P).1 (rounds n P).2.
Proof.
  revert P. induction n as [|n IH]; intros P; cbn [rounds]; [constructor|].
  pose proof (drive_steps (repeat 0%nat 25) (launch P)) as H.
  destruct (drive (repeat 0%nat 25) (launch P)) as [tr1 P1]. specialize (IH P1).
  destruct (rounds n P1) as [tr2 P2].
  exact (steps_app P (launch P) P2 [] (tr1 ++ tr2) (launch_steps P) (steps_app (launch P) P1 P2 tr1 tr2 H IH)).
Qed.

(** The scheduler fetches it, a worker checks it, the result is routed and
    handled: it is passed on four times, and at the end it is scheduled. *)
Definition cycle := rounds 4 due_pool.
Definition is_passed (e : event) : bool := passes Demo.uid1 (projT1 e) (projT2 e).

Lemma due_begins : begins Demo.uid1 due_pool.
Proof.
  split.
  - apply fresh_process; [by repeat split|reflexivity].
  - intros id x o m Hx. discriminate Hx.
  - intros id r b Hr. cbn in Hr. apply lookup_singleton_Some in Hr as [_ <-]. apply (demo_storable id b).
  - repeat constructor.
  - intros k m [->| ->] [s Hs]; [|discriminate Hs].
    assert (zset due_redis scheduleKey = {[uuid_String Demo.uid1 := Demo.ms0 - 1000]}) as E by reflexivity.
    change (zset due_redis scheduleKey !! m = Some s) in Hs. rewrite E in Hs. apply lookup_singleton_Some in Hs as [<- _]. apply canon_String.
Qed.

Lemma cycle_undisturbed : Forall (is_undisturbed Demo.uid1) cycle.1.
Proof. apply forallb_True. vm_compute. exact I. Qed.

(** No script but the fetch runs. *)
Definition fetches (e : event) : bool :=
  match projT1 e with Redis (EVAL _ ks _) => bool_decide (head ks = Some scheduleKey) | _ => true end.

Lemma cycle_unreclaimed : Forall (fun e => unreclaimed (projT1 e) (projT2 e)) cycle.1.
Proof.
  assert (Forall fetches cycle.1) as H by (apply forallb_True; vm_compute; exact I).
  eapply Forall_impl; [exact H|]. intros [c r]. unfold fetches. cbn.
  destruct c as [[|s ks xs]| | | | | | | | | | | | | |]; try done.
  cbn. by intros ?%bool_decide_unpack.
Qed.

Lemma no_monitor_forgotten_witness :
  (count_events is_passed cycle.1 = 4%nat /\ pl_tasks cycle.2 = [] /\
   zset (rview (pl_world cycle.2)) scheduleKey !! uuid_String Demo.uid1 = Some (Demo.ms0 + 100)) /\
  (uuid_String Demo.uid1 ∈ tracked (rview (pl_world cycle.2)) \/
   (exists p, p ∈ pl_procs cycle.2 /\ in_channel Demo.uid1 p) \/
   (exists i t, (i, t) ∈ pl_tasks cycle.2 /\ responsible Demo.uid1 t)).
Proof.
  split; [split; [vm_compute; reflexivity|split; vm_compute; reflexivity]|].
  assert (uuid_String Demo.uid1 ∈ tracked (rview (pl_world due_pool))) as Ht
    by (apply elem_of_tracked; left; eexists; vm_compute; reflexivity).
  exact (no_monitor_forgotten Demo.uid1 due_pool cycle.1 cycle.2 due_begins (rounds_steps 4 due_pool)
    cycle_undisturbed (or_introl Ht)).
Defined.

Lemma no_monitor_doubled_witness :
  waiting Demo.uid1 due_pool = 1%nat /\ waiting Demo.uid1 cycle.2 = 1%nat /\
  ((waiting Demo.uid1 cycle.2 <= 1)%nat /\
   forall j i t, pl_tasks cycle.2 !! j = Some (i, t) -> responsible Demo.uid1 t ->
     waiting Demo.uid1 cycle.2 = 0%nat /\
     forall j' i' t', pl_tasks cycle.2 !! j' = Some (i', t') -> responsible Demo.uid1 t' -> j' = j).
Proof.
  assert (waiting Demo.uid1 due_pool = 1%nat) as Hw by (vm_compute; reflexivity).
  split; [exact Hw|]. split; [vm_compute; reflexivity|].
  assert (waiting Demo.uid1 due_pool <= 1)%nat as Hle by (rewrite Hw; lia).
  exact (no_monitor_doubled Demo.uid1 due_pool cycle.1 cycle.2 due_begins (rounds_steps 4 due_pool)
    cycle_undisturbed cycle_unreclaimed Hle).
Defined.

(** *** Reclaiming doubles

    A job that waits in the channel for longer than the visibility timeout is
    reclaimed and fetched again: the monitor waits twice. *)

(** Starts a tick in the first process. *)
Definition tick (p : prog unit) (P : pool RefWorld.services) : pool RefWorld.services :=
  MkPool (pl_world P) (pl_procs P) (pl_tasks P ++ [(0%nat, TWork p)]).

Definition later_by (d : Z) (P : pool RefWorld.services) : pool RefWorld.services :=
  MkPool (RefWorld.elapse d (pl_world P)) (pl_procs P) (pl_tasks P).

Lemma later_by_steps d P : steps P [] (later_by d P).
Proof.
  destruct P as [w ps ts]. eapply (steps_cons _ None); [|constructor]. apply step_time.
  split; [done|]. split; [done|]. split; cbn; lia.
Qed.

Lemma tick_steps p P q : head (pl_procs P) = Some q -> start q q (TWork p) -> steps P [] (tick p P).
Proof.
  destruct P as [w [|q' ps] ts]; intros [= ->] Hs. eapply (steps_cons _ None); [|constructor].
  exact (step_start w (q :: ps) ts 0 q q (TWork p) eq_refl Hs).
Qed.

(** The visibility timeout passes, the reclaimer ticks, and the scheduler. *)
Definition overdue (P : pool RefWorld.services) := later_by (31 * Second) P.
Definition reclaimed P := drive (repeat 0%nat 5) (tick (reclaim rc0) (overdue P)).
Definition refetched P := drive (repeat 0%nat 25) (tick (doWorkWithReliability sc0) (reclaimed P).2).

Lemma head_proc P : pl_procs P <> [] -> exists q, head (pl_procs P) = Some q.
Proof. destruct (pl_procs P); [done|]. eauto. Qed.

Lemma reclaimed_steps P : pl_procs P <> [] -> steps P (reclaimed P).1 (reclaimed P).2.
Proof.
  intros H. eapply steps_started; [apply (later_by_steps (31 * Second))|].
  destruct (head_proc (overdue P)) as [q Hq]; [by destruct P|].
  eapply steps_started; [eapply tick_steps; [exact Hq|apply (start_reclaimer rc0)]|apply drive_steps].
Qed.

Lemma refetched_steps P :
  pl_procs P <> [] -> pl_procs (reclaimed P).2 <> [] ->
  steps P ((reclaimed P).1 ++ (refetched P).1) (refetched P).2.
Proof.
  intros H H'. eapply steps_app; [by apply reclaimed_steps|].
  destruct (head_proc (reclaimed P).2) as [q Hq]; [done|].
  eapply steps_started; [eapply tick_steps; [exact Hq|apply (start_scheduler sc0)]|apply drive_steps].
Qed.

Definition queued := rounds 1 due_pool.

(** The condition of [no_monitor_doubled] on reclaiming is necessary. *)
Lemma reclaiming_doubles :
  exists P tr P', begins Demo.uid1 P /\ steps P tr P' /\ Forall (is_undisturbed Demo.uid1) tr /\
    waiting Demo.uid1 P = 1%nat /\ waiting Demo.uid1 P' = 2%nat.
Proof.
  exists due_pool, (queued.1 ++ (reclaimed queued.2).1 ++ (refetched queued.2).1), (refetched queued.2).2.
  split; [exact due_begins|].
  split; [eapply steps_app; [apply (rounds_steps 1)|apply (refetched_steps queued.2); by vm_compute]|].
  split; [apply forallb_True; vm_compute; exact I|]. split; vm_compute; reflexivity.
Qed.

End Witnesses.
