(* ===== verification/Hazards.v ===== *)
(** * Two hazards of the queue

    A monitor that is disabled while its job is in the queue: the executor drops
    the job without acknowledging it and the reclaimer brings it back, so that
    in every interleaving it stays in the queue for ever and is never checked.

    A job that is acknowledged before the monitor is scheduled: when Redis
    refuses to write the schedule in between, the monitor is in no queue. *)

From S2P Require Import Prelude AppError Types Redis Postgres Effects Rules Reference RedisStore.
From S2P Require Import Scheduler Security Http User MonitorJSON MonitorSvc Handlers Api Executor Result Pipeline Protocol Coherence Debt Delivery.
From stdpp Require Import gmap list strings pretty sorting.
#[local] Open Scope Z_scope.

(** ** The protocol of the tasks *)

Section Protocol.
Context {U : UuidLib} (watched : UUID).
Notation member := (member watched).

(** A script that moves members between the queues. *)
Definition keeps_tracked (s : script) (ks : list string) (xs : list Z) : Prop :=
  forall now v v' a, lua_spec (s ks xs) now v v' a -> tracked v' = tracked v.

(** The commands that do not take the monitor out of the queue, and say nothing
    about a check of it. *)
Definition sparing (c : cmd) : Prop :=
  match c with
  | Redis (Call (ZREM k m)) => k = scheduleKey \/ k = inflightKey -> m <> member
  | Redis (Call (ZPOPMIN _ _)) => False
  | Redis (Call (DEL k)) => k <> scheduleKey /\ k <> inflightKey
  | Redis (EVAL s ks xs) => keeps_tracked s ks xs
  | SendResult r | SendSuccess r | SendFailure r => r_MonitorID r <> watched
  | _ => True
  end.

(** The monitor is found disabled (or not at all) whenever it is loaded, and no
    request changes that. *)
Definition found_disabled (c : cmd) : reply c -> bool :=
  match c with
  | Redis (Call (Redis.GET k)) => fun r =>
      if decide (k = cacheKey watched) then
        match r with
        | inr (Some data) => match json_Unmarshal data with inr m => negb (m_Enabled m) | inl _ => true end
        | _ => true
        end
      else true
  | Db (Q_GetMonitorByID i) => fun r =>
      if decide (i = ToPgUUID watched) then
        match r with inr (Some row) => negb (gm_Enabled row) | _ => true end
      else true
  | Db (Q_UpdateMonitorStatus i _ _) => fun r =>
      match r with inr rows => bool_decide (i = ToPgUUID watched -> rows = 0) | inl _ => true end
  | _ => fun _ => true
  end.

Definition considered (c : cmd) (r : reply c) : Prop :=
  open_reply c r /\ found_disabled c r = true /\ honest c r.

(** Whatever the replies are, [p] runs only such commands and returns with [Φ]. *)
Definition spares {A} (p : prog A) (Φ : A -> Prop) : Prop :=
  obeys (Q := unit) (fun _ c => sparing c) (fun _ _ _ => tt) considered p tt (fun a _ => Φ a).

Definition spared {A} (p : prog A) : Prop := spares p (fun _ => True).

Lemma spares_ret {A} (a : A) (Φ : A -> Prop) : Φ a -> spares (mret a) Φ.
Proof. done. Qed.

Lemma spares_mono {A} (p : prog A) (Φ Ψ : A -> Prop) :
  spares p Φ -> (forall a, Φ a -> Ψ a) -> spares p Ψ.
Proof. intros Hp H. eapply obeys_mono; [exact Hp|]. intros a q. apply H. Qed.

Lemma spares_bind {A B} (p : prog A) (f : A -> prog B) (Φ : A -> Prop) (Ψ : B -> Prop) :
  spares p Φ -> (forall a, Φ a -> spares (f a) Ψ) -> spares (p ≫= f) Ψ.
Proof.
  intros Hp Hf. apply obeys_bind. eapply obeys_mono; [exact Hp|]. intros a [] Ha. by apply Hf.
Qed.

Lemma spares_any {A B} (p : prog A) (f : A -> prog B) (Ψ : B -> Prop) :
  spared p -> (forall a, spares (f a) Ψ) -> spares (p ≫= f) Ψ.
Proof. intros Hp Hf. eapply spares_bind; [exact Hp|]. intros a _. apply Hf. Qed.

Lemma spares_op c (Φ : reply c -> Prop) :
  sparing c -> (forall r, considered c r -> Φ r) -> spares (op c) Φ.
Proof. intros Hc H. by apply obeys_op. Qed.

Lemma spared_op c : sparing c -> spared (op c).
Proof. intros Hc. by apply spares_op. Qed.

Lemma spared_send c f : sparing c -> (forall r, open_reply c r -> f r = true) -> spared (send c f).
Proof.
  intros Hc Hf. unfold send. eapply spares_bind; [apply spares_op; [done|]|].
  - intros r Hr. exact Hr.
  - intros r (Hr & _). by rewrite (Hf r Hr).
Qed.

Lemma spared_retry {V} x n (fn : V -> prog (V * option error)) v :
  (forall v, spared (fn v)) -> spared (retry x fn n v).
Proof.
  intros Hfn. unfold retry. generalize 0 as i, (@None error) as err. revert v.
  induction n as [|n IH]; intros v i err; cbn [retry_from]; [done|].
  apply spares_any; [done|]. intros [v' [e|]]; [|done].
  apply spares_any; [by apply spared_op|]. intros [ce|]; [done|apply IH].
Qed.

Lemma spared_range {A} (xs : list A) body : (forall x, spared (body x)) -> spared (range xs body).
Proof.
  intros Hb. induction xs as [|x xs IH]; cbn [range]; [done|].
  apply spares_any; [done|]. intros []; done.
Qed.

Lemma spared_defer {A} (p : prog A) v f :
  spared p -> (forall a, spared (f a)) -> spared (defer p v f).
Proof.
  intros Hp Hf. apply obeys_defer. eapply obeys_mono; [exact Hp|]. intros a [] _.
  by apply (spares_any (f a) (fun _ => mret a)).
Qed.

End Protocol.

(** Along the text of a program. *)
Ltac spare :=
  repeat match goal with
  | |- spares _ (_ ≫= _) _ => apply spares_any; [|intros ?]
  | |- spared _ (_ ≫= _) => apply spares_any; [|intros ?]
  | |- spares _ (mret _) _ => exact I
  | |- spared _ (mret _) => exact I
  | |- spares ?w ?p (fun _ => True) => change (spared w p)
  | |- spared _ (retry _ _ _ _) => apply spared_retry; intros ?
  | |- spared _ (op _) => apply spared_op; first [exact I | split; keys_differ]
  | |- spared _ (rdb _) => apply spared_op; first [exact I | split; keys_differ]
  | |- spared _ (send _ _) => apply spared_send; [first [exact I | assumption]|done]
  | |- spared _ _ => solve [auto with monit]
  | |- spared _ (match ?x with _ => _ end) => destruct x
  | |- spared _ (let '(_, _) := ?x in _) => destruct x
  | |- _ => progress unfold hgetall, retry_
  end.

(** ** The tasks *)

Section Tasks.
Context {U : UuidLib} {UL : UuidLaws U} (watched : UUID).
Notation spared := (spared watched).
Notation spares := (spares watched).

Lemma spared_Schedule x m t : spared (Schedule x m t).
Proof using.
  unfold Schedule. spare.
Qed.

Lemma spared_ScheduleMonitor x id n o : spared (Service.ScheduleMonitor x id n o).
Proof using. unfold Service.ScheduleMonitor. spare. apply spared_Schedule. Qed.

Lemma spared_ClearIncident x id : spared (ClearIncident x id).
Proof using UL. unfold ClearIncident. spare. Qed.

Lemma spared_ClearRetry x id : spared (ClearRetry x id).
Proof using UL. unfold ClearRetry. spare. Qed.

Lemma spared_StoreStatus x i c l t : spared (StoreStatus x i c l t).
Proof using. unfold StoreStatus. spare. Qed.

Lemma spared_cacheMonitor x m : spared (Service.cacheMonitor x m).
Proof using. unfold Service.cacheMonitor. cbn [cache_SetMonitor redis_cache]. unfold SetMonitor. spare. Qed.

Lemma spared_AckJob x id : id <> watched -> spared (AckJob x (uuid_String id)).
Proof using UL.
  intros Hid. unfold AckJob. apply spares_any; [|done]. apply spared_op. intros _ E. by apply Hid, (inj uuid_String).
Qed.

#[local] Hint Resolve spared_Schedule spared_ScheduleMonitor spared_ClearIncident spared_ClearRetry
  spared_StoreStatus spared_cacheMonitor : monit.

(** *** The scheduler and the reclaimer *)

Lemma fetch_keeps_tracked sk now limit vis :
  sk = scheduleKey -> keeps_tracked fetchAndMoveToInflightScript [sk; inflightKey] [now; limit; vis].
Proof using.
  intros -> t v v' a H. apply fetchAndMove_script in H as (items & _ & Hz & ->).
  apply tracked_fetch. intros m. by apply (zrange_in _ _ _ _ _ Hz).
Qed.

Lemma reclaim_keeps_tracked now limit :
  keeps_tracked reclaimMonitorsScript [inflightKey; scheduleKey] [now; limit].
Proof using.
  intros t v v' a H. apply reclaim_script in H as (items & _ & Hz & ->).
  apply tracked_reclaim. intros m. by apply (zrange_in _ _ _ _ _ Hz).
Qed.

Lemma spared_dispatch m : spared (dispatch m).
Proof using.
  unfold dispatch. destruct (uuid_Parse m) as [e|id]; [done|].
  eapply spares_bind; [apply (spares_op _ _ (open_reply _)); [exact I|by intros r (? & _)]|].
  intros [| | |] Hr; try done. change (spared (now ← op TimeNow; jitter ← addJitter (2 * Second);
    Schedule CtxApp m (now + jitter) ;; mret true)).
  unfold addJitter, rand_Int63n. rewrite decide_False by (by apply Z.lt_nge). spare.
Qed.

Lemma spared_doWork sc : spared (doWorkWithReliability sc).
Proof using.
  unfold doWorkWithReliability, FetchAndMoveToInflight.
  apply spares_any; [by apply spared_op|]. intros now. apply spares_any.
  - apply spares_any; [by apply spared_op, fetch_keeps_tracked|]. intros [e|[]]; done.
  - intros [monitors [e|]]; [done|]. case_decide; [done|]. apply spared_range, spared_dispatch.
Qed.

Lemma spared_reclaim rc : spared (reclaim rc).
Proof using.
  unfold reclaim, ReclaimMonitors.
  apply spares_any; [by apply spared_op|]. intros now. apply spares_any; [|by intros []].
  apply spares_any; [apply spared_op, reclaim_keeps_tracked|]. intros [e|[]]; done.
Qed.

(** *** The executor *)

(** What is loaded for the monitor [i]. *)
Definition loaded (i : UUID) (o : error + Monitor) : Prop :=
  forall m, o = inr m -> m_ID m = i /\ (i = watched -> m_Enabled m = false).

Lemma spares_getCached x i : spares (Service.getCachedMonitor x i) (loaded i).
Proof using.
  unfold Service.getCachedMonitor. cbn [cache_GetMonitor redis_cache]. unfold GetMonitor.
  eapply spares_bind with (Φ := fun o => forall data m, o = inr data -> json_Unmarshal data = inr m ->
    m_ID m = i /\ (i = watched -> m_Enabled m = false)).
  - eapply spares_bind; [apply (spares_op _ _ (considered watched _)); [exact I|done]|].
    intros r (_ & Hu & Hh). destruct r as [e|[data|]]; cbn [nil_err].
    + by destruct (is_RedisNil e).
    + apply spares_ret. intros data' m [= <-] Hm. split; [by eapply Hh|]. intros ->.
      cbn in Hu. rewrite decide_True, Hm in Hu by done. by apply negb_true_iff.
    + by destruct (is_RedisNil RedisNil).
  - intros [e|data] Hd; [done|]. destruct (json_Unmarshal data) as [e|m] eqn:Em; apply spares_ret; [done|].
    intros m' [= <-]. by eapply Hd.
Qed.

Lemma spares_GetByID x i : spares (MonitorSvc.Repository.GetByID x i) (loaded i).
Proof using.
  unfold MonitorSvc.Repository.GetByID.
  eapply spares_bind; [apply (spares_op _ _ (considered watched _)); [exact I|done]|].
  intros r (_ & Hu & Hh). destruct r as [e|[row|]]; cbn [one]; apply spares_ret; [done| |done].
  intros m [= <-]. split; [by apply (Hh row)|]. intros ->. cbn in Hu.
  rewrite decide_True in Hu by done. by apply negb_true_iff.
Qed.

Lemma spares_LoadMonitor x i : spares (Service.LoadMonitor x i) (loaded i).
Proof using.
  unfold Service.LoadMonitor. eapply spares_bind; [apply spares_getCached|].
  intros [e|m] Hc; [|by apply spares_ret].
  eapply spares_bind; [apply spares_GetByID|]. intros [e'|m] Hr; [by apply spares_ret|].
  apply spares_any; [apply spared_cacheMonitor|]. intros e'. by apply spares_ret.
Qed.

Definition not_watched (o : option Monitor) : Prop := forall m, o = Some m -> m_ID m <> watched.

Lemma spares_handleJob j : spares (handleJob j) not_watched.
Proof using.
  unfold handleJob. cbn [LoadMonitor ScheduleMonitor monitor_service].
  eapply spares_bind; [apply spares_LoadMonitor|]. intros [e|m] Hm.
  - destruct (IsKind e NotFound); [by apply spares_ret|].
    apply spares_any; [apply spared_ScheduleMonitor|]. intros _. by apply spares_ret.
  - destruct (m_Enabled m) eqn:Em; cbn [negb]; [|by apply spares_ret].
    apply spares_any; [by apply spared_op|]. intros _. apply spares_ret. intros m' [= <-].
    destruct (Hm m eq_refl) as [-> Hw]. intros E. by rewrite (Hw E) in Em.
Qed.

Lemma spares_executeHTTPCheck m : spares (executeHTTPCheck m) (fun r => r_MonitorID r = m_ID m).
Proof using.
  unfold executeHTTPCheck. apply spares_any; [by apply spared_op|]. intros t0.
  apply spares_any; [by apply spared_op|]. intros [e|].
  { apply spares_any; [by apply spared_op|]. intros now. by apply spares_ret. }
  apply spares_any; [by apply spared_op|]. intros o. apply spares_any; [by apply spared_op|]. intros t1.
  destruct o as [e|status]; [destruct (classifyError e)|];
    (apply spares_any; [by apply spared_op|]; intros now; by apply spares_ret).
Qed.

Lemma spared_httpCheck m : m_ID m <> watched -> spared (httpCheck m).
Proof using.
  intros Hm. unfold httpCheck. apply spared_defer; [|intros _; by apply spared_op].
  eapply spares_bind; [apply spares_executeHTTPCheck|]. intros r Hr.
  apply spared_send; [|done]. cbn. congruence.
Qed.

(** *** The result processor *)

Lemma spared_route r : r_MonitorID r <> watched -> spared (route r).
Proof using. intros Hr. unfold route. destruct (r_Success r); by apply spared_send. Qed.

Lemma spared_handleSuccess r : r_MonitorID r <> watched -> spared (handleSuccess r).
Proof using UL.
  intros Hr. unfold handleSuccess. apply spared_defer.
  - unfold handleSuccess_body, GetIncident, Result.Repository.CloseIncident. spare.
  - intros _. apply spares_any; [by apply spared_AckJob|]. intros _. apply spared_ScheduleMonitor.
Qed.

Lemma spared_failurePath r : spared (failurePath r).
Proof using.
  unfold failurePath, IncrementIncident, MarkIncidentAlertedIfNotSet, MarkDBIncidentCreated, Result.Repository.Create.
  spare.
Qed.

Lemma spared_handleFailure r : r_MonitorID r <> watched -> spared (handleFailure r).
Proof using UL.
  intros Hr. unfold handleFailure. apply (spares_any _ (defer _ _ _)); [|done]. apply spared_defer.
  - unfold handleFailure_body, IncrementRetry. pose proof spared_failurePath.
    cbn [ScheduleMonitor monitor_service]. spare.
  - intros b. apply spares_any; [by apply spared_AckJob|]. intros _.
    destruct b; [apply spared_ScheduleMonitor|done].
Qed.

(** *** Requests *)

Lemma spared_disable x i : i <> watched -> spared (Service.disableMonitor x i).
Proof using UL.
  intros Hi. unfold Service.disableMonitor. cbn [cache_DelMonitor cache_DelSchedule cache_ClearIncident
    cache_DelStatus redis_cache]. unfold DelMonitor, DelStatus, DelSchedule.
  apply spares_any; [spare|]. intros _. apply spares_any.
  - apply spares_any; [|done]. apply spared_op. intros _ E. by apply Hi, (inj uuid_String).
  - intros _. spare.
Qed.

Lemma spared_UpdateMonitorStatus x u i b : spared (Service.UpdateMonitorStatus x u i b).
Proof using UL.
  unfold Service.UpdateMonitorStatus, MonitorSvc.Repository.Get.
  apply spares_any; [spare|]. intros [e|m]; [done|]. case_decide; [done|].
  eapply spares_bind with (Φ := fun o => o = None -> i <> watched).
  - unfold MonitorSvc.Repository.SetEnabled.
    eapply spares_bind; [apply (spares_op _ _ (considered watched _)); [exact I|done]|].
    intros [e|rows] (_ & Hu & _); [by apply spares_ret|]. cbn in Hu. apply bool_decide_eq_true in Hu.
    case_decide as Hr; apply spares_ret; [done|]. intros _ ->. by apply Hr, Hu.
  - intros [e|] Hi; [done|]. apply spares_any; [|done].
    destruct b; [apply spared_ScheduleMonitor|by apply spared_disable, Hi].
Qed.

Lemma spared_closed : closed (fun A (p : prog A) => spared p).
Proof using UL.
  split.
  - done.
  - intros A B p f Hp Hf. by apply spares_any.
  - by apply spared_op.
  - intros s. by apply spared_op.
  - intros q _. by apply spared_op.
  - intros x c _. unfold Service.CreateMonitor. cbn [IncrementMonitorCount user_service].
    unfold User.Service.IncrementMonitorCount, User.Repository.IncrementMonitorCount, MonitorSvc.Repository.Create.
    spare.
  - apply spared_UpdateMonitorStatus.
  - intros x u id. pose proof (fun x i => spares_mono _ _ _ (fun _ => True) (spares_getCached x i) (fun _ _ => I)).
    unfold Service.GetMonitor, MonitorSvc.Repository.Get. spare. apply H.
Qed.

End Tasks.

(** ** A disabled monitor in the pool *)

Section Disabled.
Context {U : UuidLib} {UL : UuidLaws U} {L : JwtLib} {V : Validator}
        {S : Services} {SL : ServiceLaws S} (watched : UUID).
Notation member := (member watched).
Notation sparing := (sparing watched).

(** No result of a check of the monitor is on its way. *)
Definition unchecked (p : proc) : Prop :=
  Forall (fun r => r_MonitorID r <> watched) (ch_buf (resultChan p) ++ ch_buf (successChan p) ++ ch_buf (failureChan p)).

(** It is in the queue, and nothing is on its way. *)
Definition stuck (w : world) (ps : list proc) (_ : list unit) : Prop :=
  member ∈ tracked (rview w) /\ Forall unchecked ps.

Lemma call_tracked c now v v' y :
  rcall_spec c now v v' y -> sparing (Redis (Call c)) -> member ∈ tracked v -> member ∈ tracked v'.
Proof using.
  intros Hs Hok. unfold Debt.member. rewrite !elem_of_tracked. destruct (names_zset c) eqn:Hz.
  2: { by rewrite !(rcall_zsets c now v v' y _ Hz Hs). }
  destruct c as [k items|k m| |k count| | | | | | | |k| | ]; try discriminate Hz; cbn [rcall_spec] in Hs; clear Hz.
  - destruct Hs as [-> _]. rewrite !zset_set_zset. intros H.
    destruct (decide (k = scheduleKey)) as [->|]; [|destruct (decide (k = inflightKey)) as [->|]];
      rewrite ?decide_True by done; rewrite ?(decide_False (P := scheduleKey = _)) by done; naive_solver eauto using zadd_all_is_Some.
  - destruct Hs as [-> _]. rewrite !zset_set_zset. cbn in Hok.
    destruct (decide (k = scheduleKey)) as [->|]; [|destruct (decide (k = inflightKey)) as [->|]];
      repeat (rewrite decide_True by done || rewrite decide_False by done); try done;
      (rewrite lookup_delete_ne; [done|intros E; by apply Hok; auto]).
  - done.
  - assert (v' = del k v) as -> by apply Hs. destruct Hok as [H1 H2]. by rewrite !zset_del, !decide_False.
Qed.

Lemma redis_tracked c now v v' (o : error + rcmd_reply c) :
  call_effect c now v v' o -> sparing (Redis c) -> member ∈ tracked v -> member ∈ tracked v'.
Proof using.
  intros He Hok Hin. assert (v' = v \/ exists y, rcmd_spec c now v v' y) as [->|[y Hy]] by (destruct o; eauto); [done|].
  destruct c as [c|sc ks xs]; [by eapply call_tracked|]. by rewrite (Hok _ _ _ _ Hy).
Qed.

Lemma exec_unchecked c w p w' p' r :
  exec c (MkSys w p) = Reply (MkSys w' p') r -> sparing c -> unchecked p -> unchecked p'.
Proof using.
  intros He Hok Hp. unfold unchecked in *. rewrite !Forall_app in *. destruct Hp as (H1 & H2 & H3).
  destruct c as [rc|s| |n|x d|url|url d|x k|r0|r0|r0|a0| | |pw]; cbn [exec] in He;
    try (by apply exec_ext in He as [_ ->]);
    try (apply exec_send_cases in He as [(_ & _ & [= _ ->])|(_ & _ & [= _ ->])]; [done|];
         split_and!; cbn; try done; apply Forall_app; by split; [|constructor]).
  - by injection He as _ <- _.
  - unfold exec_try_send_job in He. cbn [sw sp] in He.
    destruct (ch_closed (jobChan p)), (ch_room (jobChan p)), (ctx_done x w); cbn in He;
      try (destruct (select_first w) as [w1 []]); by injection He as _ <- _.
  - case_decide; [|done]. by injection He as _ <- _.
  - case_decide; [|done]. by injection He as _ <- _.
Qed.

Definition shown (e : event) : Prop :=
  found_disabled watched (projT1 e) (projT2 e) = true /\ honest (projT1 e) (projT2 e).

Notation task_follows := (task_follows (fun (_ : unit) c => sparing c) (fun _ _ _ => tt)
  (considered watched) (fun o _ => not_watched watched o) (fun _ => True)).

Lemma start_spared p p' t : start p p' t -> unchecked p -> task_follows t tt /\ unchecked p'.
Proof using UL.
  intros Hst Hp. pose proof Hp as Hp'. unfold unchecked in Hp. rewrite !Forall_app in Hp. destruct Hp as (H1 & H2 & H3).
  destruct Hst as [sc p|rc p|ts rt r p Hin|j l p E|r l p E|r l p E|r l p E|a l p E].
  - split; [apply spared_doWork|done].
  - split; [apply spared_reclaim|done].
  - split; [|done]. cbn. apply (spares_any watched (serve_route rt r) (fun _ => mret tt)); [|done].
    by apply (closed_route _ (spared_closed watched) ts).
  - split; [apply spares_handleJob|done].
  - rewrite E in H1. apply Forall_cons_1 in H1 as [Hr H1]. split; [by apply spared_route|].
    unfold unchecked. rewrite !Forall_app. cbn. by rewrite E.
  - rewrite E in H2. apply Forall_cons_1 in H2 as [Hr H2]. split; [by apply spared_handleSuccess|].
    unfold unchecked. rewrite !Forall_app. cbn. by rewrite E.
  - rewrite E in H3. apply Forall_cons_1 in H3 as [Hr H3]. split; [by apply spared_handleFailure|].
    unfold unchecked. rewrite !Forall_app. cbn. by rewrite E.
  - split; [done|]. exact Hp'.
Qed.

Lemma stuck_is_kept :
  kept (fun (_ : unit) c => sparing c) (fun _ _ _ => tt) (considered watched)
    (fun o _ => not_watched watched o) (fun _ => True) shown stuck.
Proof using SL UL.
  split.
  - intros w ps qs i j q c p w' p' r [Ht Hps] _ Hok Hp _ He Hr [Hs Hh]. split; [by split|].
    pose proof (exec_rview _ _ _ _ _ _ He) as Er. split.
    + destruct c; try (by rewrite Er). by eapply redis_tracked.
    + apply Forall_insert; [done|]. eapply exec_unchecked; [done..|]. rewrite Forall_lookup in Hps. by eapply Hps.
  - intros w ps qs i p p' t [Ht Hps] Hp Hst. exists tt.
    destruct (start_spared p p' t Hst) as [Hf Hp']; [rewrite Forall_lookup in Hps; by eapply Hps|].
    split; [done|]. split; [done|]. by apply Forall_insert.
  - by intros.
  - intros w ps qs j q m HI _ Hm. exists tt. split; [|done]. by apply spared_httpCheck, Hm.
  - intros w w' ps qs [Ht Hps] (Hv & _). split; [by rewrite Hv|done].
Qed.

(** A fetch with room for all due members takes each of them. *)
Lemma zrange_all z max limit l m s :
  zrange_spec z max limit l -> (size (due max z) <= Z.to_nat limit)%nat ->
  z !! m = Some s -> s <= max -> m ∈ l.
Proof using.
  intros Hz Hsz Hm Hs. pose proof (zrange_drains max max limit z l ltac:(lia) Hz) as Hd.
  assert (due max (fold_left (fun z k => delete k z) l z) = ∅) as E by (apply map_size_empty_inv; lia).
  destruct (decide (m ∈ l)) as [|Hn]; [done|].
  assert (due max (fold_left (fun z k => delete k z) l z) !! m = Some s) as E'.
  { apply elem_of_due. split; [|done]. by rewrite fold_left_delete_lookup, decide_False. }
  by rewrite E, lookup_empty in E'.
Qed.

(** C35: the job of a disabled monitor circulates for ever.  A monitor is in the
    queue, no result of it is on its way, and from now on it is found disabled
    whenever it is loaded and no request changes that.  Then in every
    interleaving of the tasks, however long and whatever fails, it stays in the
    queue and is never checked: no result of it is ever sent, and no task
    acknowledges its job or ends with a check of it.  Neither half of the queue
    holds it: while it is in flight, ticks of the reclaimer after its deadline
    put it back in the schedule, due at once; while it is scheduled and due, a
    fetch that takes all due monitors puts it in flight again. *)
Theorem disabled_job_circulates P tr P' :
  Pipeline.fresh P -> coherent (rview (pl_world P)) (dview (pl_world P)) -> valid_db (dview (pl_world P)) ->
  uuid_String watched ∈ tracked (rview (pl_world P)) -> Forall unchecked (pl_procs P) ->
  steps P tr P' -> Forall (fun e => found_disabled watched (projT1 e) (projT2 e)) tr ->
  let v := rview (pl_world P') in
  uuid_String watched ∈ tracked v /\
  Forall unchecked (pl_procs P') /\
  Forall (fun e => projT1 e <> Redis (Call (ZREM scheduleKey (uuid_String watched))) /\
                   projT1 e <> Redis (Call (ZREM inflightKey (uuid_String watched)))) tr /\
  (forall i m, (i, TJob (Ret (Some m))) ∈ pl_tasks P' -> m_ID m <> watched) /\
  (forall s T n rc p, zset v inflightKey !! uuid_String watched = Some s -> s <= T ->
     0 <= rc_limit rc <= 2 ^ 53 -> 0 <= T <= 2 ^ 53 -> T * Millisecond <= gclock (pl_world P') ->
     (size (due T (zset v inflightKey)) <= n * Z.to_nat (rc_limit rc))%nat ->
     wp no_fault (ticks n (reclaim rc)) (MkSys (pl_world P') p) (fun _ σ' =>
       zset (rview (sw σ')) inflightKey !! uuid_String watched = None /\
       exists t, gclock (pl_world P') <= t <= gclock (sw σ') /\
         zset (rview (sw σ')) scheduleKey !! uuid_String watched = Some (tonumber (UnixMilli t)))) /\
  (forall s now limit vis p, zset v scheduleKey !! uuid_String watched = Some s -> s <= UnixMilli now ->
     0 <= limit <= 2 ^ 53 -> 0 <= UnixMilli now -> 0 <= Milliseconds vis ->
     UnixMilli now + Milliseconds vis <= 2 ^ 53 ->
     (size (due (UnixMilli now) (zset v scheduleKey)) <= Z.to_nat limit)%nat ->
     wp no_fault (FetchAndMoveToInflight CtxApp fetchAndMoveToInflightScript now limit vis)
       (MkSys (pl_world P') p) (fun '(jobs, _) σ' =>
       uuid_String watched ∈ jobs /\
       zset (rview (sw σ')) inflightKey !! uuid_String watched = Some (UnixMilli now + Milliseconds vis))).
Proof using SL UL.
  intros Hf Hc Hv Hin Hun Hs Hd.
  assert (Forall shown tr) as Hsh.
  { apply Forall_and. split; [|by eapply steps_honest]. eapply Forall_impl; [exact Hd|]. intros e. apply Is_true_true_1. }
  assert (stuck (pl_world P) (pl_procs P) []) as Hst by by split.
  destruct (holds_steps _ _ _ _ _ _ _ P tr P' stuck_is_kept Hf Hst Hs Hsh) as (qs & Hq & Ht & Hps).
  split; [done|]. split; [done|]. split_and!.
  - eapply Forall_impl; [eapply holds_trace; [exact stuck_is_kept|by apply holds_fresh|exact Hs|exact Hsh]|].
    intros [c r] [_ Hok]. cbn [projT1] in *. split; intros ->; cbn in Hok; by apply Hok; auto.
  - intros i m (j & Hj)%list_elem_of_lookup. destruct (Forall2_lookup_l _ _ _ _ _ Hq Hj) as (q & _ & Hn).
    by apply Hn.
  - intros s T n rc p Hm HsT Hl HTb HT Hsz. eapply wp_mono; [by apply wp_reclaim_recovers|].
    intros _ σ' (_ & _ & Hrec). specialize (Hrec member). unfold Debt.member in Hrec. rewrite Hm in Hrec.
    destruct (Hrec HsT) as (H1 & t & H2 & _ & H3). eauto.
  - intros s now limit vis p Hm Hsn Hl H0 Hvis Hsum Hsz. apply wp_fetchAndMove.
    intros w' jobs err Hfe _ _ Hnf. rewrite (Hnf eq_refl) in Hfe. destruct Hfe as [Hz Hv'].
    rewrite !tonumber_exact in Hz by lia.
    assert (uuid_String watched ∈ jobs) as Hj by (eapply zrange_all; [exact Hz|done|exact Hm|done]).
    split; [done|]. cbn [sw]. rewrite Hv', moves_to, decide_True, deadline_exact by done. done.
Qed.

End Disabled.

(** ** A job that is lost *)

Section Lost.
Context {U : UuidLib} {UL : UuidLaws U} {S : Services} {SL : ServiceLaws S}.

(** Redis refuses to add to the schedule, as a server that has reached its
    memory limit does, while it still takes members out of sets. *)
Definition refuses_schedule : Prop :=
  forall items w w' o, redis_exec (Call (ZADD scheduleKey items)) w = (w', o) ->
    rview w' = rview w /\ ~ is_ok o.

(** The acknowledgement of a job is answered; anything else may fail. *)
Definition ack_answered (c : cmd) : reply c -> Prop :=
  match c return reply c -> Prop with
  | Redis (Call (ZREM _ _)) => is_ok
  | _ => fun _ => True
  end.

Context (Href : refuses_schedule).

(** Commands that change nothing in the queues at such a server. *)
Definition idle_cmd (c : cmd) : Prop :=
  served c /\
  match c with
  | Redis (Call (ZADD k _)) => k = scheduleKey
  | Redis (Call (ZREM _ _ | ZPOPMIN _ _)) => False
  | Redis (Call (DEL k)) => k <> scheduleKey /\ k <> inflightKey
  | _ => True
  end.

(** What they leave: the members of a queue. *)
Lemma idle_exec c w p w' p' r k :
  exec c (MkSys w p) = Reply (MkSys w' p') r -> idle_cmd c -> k = scheduleKey \/ k = inflightKey ->
  zset (rview w') k = zset (rview w) k.
Proof using SL Href.
  intros He [Hsv Hc] Hk. pose proof (exec_rview _ _ _ _ _ _ He) as Er.
  destruct c as [[c|]|s| |n|x d|url|url d|x j|r0|r0|r0|a0| | |pw]; try done; try (by rewrite Er).
  assert (rview w' = rview w \/ exists y, rcall_spec c (rclock w') (rview w) (rview w') y) as [->|[y Hy]]
    by (destruct r; cbn in Er; eauto); [done|].
  destruct (names_zset c) eqn:Hz; [|by eapply rcall_zsets].
  destruct c as [k' items|k' m| |k' count| | | | | | | |k'| | ]; try discriminate Hz; try done; clear Hz.
  - subst k'. cbn [exec] in He. apply exec_ext in He as [He _]. by apply Href in He as [-> _].
  - assert (rview w' = del k' (rview w)) as -> by apply Hy. rewrite zset_del, decide_False; [done|].
    destruct Hc. by destruct Hk; subst.
Qed.

(** Programs that consist of them. *)
Definition idles {A} (p : prog A) : Prop :=
  obeys (Q := unit) (fun _ c => idle_cmd c) (fun _ _ _ => tt) any_reply p tt (fun _ _ => True).

Lemma wp_idles {A} (p : prog A) w pr (Φ : A -> sys -> Prop) :
  idles p ->
  (forall a w', (forall k, k = scheduleKey \/ k = inflightKey -> zset (rview w') k = zset (rview w) k) ->
     Φ a (MkSys w' pr)) ->
  wp ack_answered p (MkSys w pr) Φ.
Proof using SL Href.
  unfold idles, obeys, wp. revert w. induction p as [a|m|c k IH]; intros w; cbn; [by intros _ H; apply H|done|].
  intros [Hc Hk] H. unfold I_exec. destruct (exec c (MkSys w pr)) as [[w1 p1] r|] eqn:He.
  - assert (p1 = pr) as ->.
    { destruct Hc as [Hsv _]. destruct c; cbn in Hsv; try done; cbn [exec] in He; by apply exec_ext in He as [_ ->]. }
    intros _. apply IH; [by apply Hk|]. intros a w' Hz. apply H. intros k' Hk'. rewrite Hz by done.
    by eapply idle_exec.
  - destruct Hc as [Hsv _]. destruct c; cbn in Hsv; try done; cbn [exec] in He; unfold ext in He;
      by match type of He with context [let '(_, _) := ?e in _] => destruct e end.
Qed.

Lemma idles_bind {A B} (p : prog A) (f : A -> prog B) : idles p -> (forall a, idles (f a)) -> idles (p ≫= f).
Proof using. intros Hp Hf. apply obeys_bind. eapply obeys_mono; [exact Hp|]. intros a [] _. apply Hf. Qed.

Lemma idles_op c : idle_cmd c -> idles (op c).
Proof using. intros H. by apply obeys_op. Qed.

Lemma idles_retry {V} x n (fn : V -> prog (V * option error)) v :
  (forall v, idles (fn v)) -> idles (retry x fn n v).
Proof using.
  intros Hfn. unfold retry. generalize 0 as i, (@None error) as err. revert v.
  induction n as [|n IH]; intros v i err; cbn [retry_from]; [done|].
  apply idles_bind; [done|]. intros [v' [e|]]; [|done].
  apply idles_bind; [by apply idles_op|]. intros [ce|]; [done|apply IH].
Qed.

Ltac idles :=
  repeat match goal with
  | |- idles (_ ≫= _) => apply idles_bind; [|intros ?]
  | |- idles (mret _) => exact I
  | |- idles (retry _ _ _ _) => apply idles_retry; intros ?
  | |- idles (op _) => apply idles_op; split; [exact I|first [exact I | reflexivity | split; keys_differ]]
  | |- idles (rdb _) => apply idles_op; split; [exact I|first [exact I | reflexivity | split; keys_differ]]
  | |- idles (match ?x with _ => _ end) => destruct x
  | |- idles (let '(_, _) := ?x in _) => destruct x
  | |- _ => progress unfold hgetall, retry_
  end.

Lemma idles_handleSuccess_body r : idles (handleSuccess_body r).
Proof using UL.
  unfold handleSuccess_body, GetIncident, Result.Repository.CloseIncident, StoreStatus, ClearIncident, ClearRetry.
  idles.
Qed.

Lemma idles_ScheduleMonitor x i n o : idles (Service.ScheduleMonitor x i n o).
Proof using. unfold Service.ScheduleMonitor. cbn [cache_Schedule redis_cache]. unfold Schedule. idles. Qed.

(** C39: acknowledging before scheduling can lose a monitor.  If Redis answers
    the acknowledgement of the job and refuses to add to the schedule, whatever
    else succeeds or fails, the success handler returns as if nothing had
    happened and a monitor that was not scheduled before is neither in flight
    nor scheduled: it is never checked again, and no reclaimer finds it. *)
Theorem handleSuccess_can_lose_job r w p :
  zset (rview w) scheduleKey !! uuid_String (r_MonitorID r) = None ->
  wp ack_answered (handleSuccess r) (MkSys w p) (fun _ σ' =>
    sp σ' = p /\ uuid_String (r_MonitorID r) ∉ tracked (rview (sw σ'))).
Proof using SL UL Href.
  intros Hs. unfold handleSuccess. apply wp_defer, wp_idles; [apply idles_handleSuccess_body|].
  intros [] w1 Hz1. apply wp_bind, wp_bind. unfold AckJob. apply wp_bind, wp_redis.
  intros w2 o Heff _ _ Ho. destruct o as [e|n]; [done|]. cbn in Heff. destruct Heff as [Hv2 _].
  apply wp_ret, wp_idles; [apply idles_ScheduleMonitor|]. intros [] w3 Hz3. apply wp_ret. split; [done|].
  rewrite elem_of_tracked. cbn. rewrite !Hz3, Hv2 by auto.
  rewrite zset_set_zset_ne, zset_set_zset_eq, lookup_delete_eq by done.
  rewrite Hz1, Hs by auto. by intros [[]|[]].
Qed.

End Lost.

(** ** Witnesses *)

(** The reference world with a Redis that refuses to add to the schedule. *)
Module FullRedis.

Definition oom : error := OtherError "OOM command not allowed when used memory > 'maxmemory'.".

Definition redis_exec (c : rcmd) (w : @world RefWorld.services) : @world RefWorld.services * (error + rcmd_reply c) :=
  match c return @world RefWorld.services * (error + rcmd_reply c) with
  | Call (ZADD k items) =>
      if decide (k = scheduleKey) then (w, inl oom) else @Effects.redis_exec RefWorld.services (Call (ZADD k items)) w
  | c => @Effects.redis_exec RefWorld.services c w
  end.

#[local] Existing Instance RefWorld.services.
#[local] Existing Instance RefWorld.laws.

Lemma full_exec_cases c w w' o :
  redis_exec c w = (w', o) -> @Effects.redis_exec RefWorld.services c w = (w', o) \/ w' = w /\ o = inl oom.
Proof.
  destruct c as [[]|]; cbn [redis_exec]; try by left. case_decide; [|by left]. intros [= <- <-]. by right.
Qed.

Definition services : Services := {|
  world := @world RefWorld.services;
  rview := rview;
  dview := dview;
  rclock := rclock;
  gclock := gclock;
  Effects.redis_exec := redis_exec;
  db_exec := db_exec;
  time_now := time_now;
  int63n := int63n;
  after_or_done := after_or_done;
  new_request := new_request;
  http_do := http_do;
  ctx_done := ctx_done;
  select_first := select_first;
  create_hash := create_hash;
  compare_hash := compare_hash
|}.

Lemma laws : ServiceLaws services.
Proof.
  destruct RefWorld.laws as [L1 L2 L3 L4 L5 L6 L7 L8 L9 L10 L11 L12 L13 L14].
  split; [| | | |exact L5|exact L6|exact L7|exact L8|exact L9|exact L10|exact L11|exact L12|exact L13|exact L14];
    cbn.
  - intros c w w' r [H|[_ [=]]]%full_exec_cases. by apply L1.
  - intros c w w' e [H|[-> _]]%full_exec_cases; [by apply (L2 c w w' e)|by left].
  - intros c w w' o [H|[-> _]]%full_exec_cases; [by apply (L3 c w w' o)|]. split; [done|]. split; lia.
  - intros k w w'. apply L4.
Qed.

Lemma refuses : @refuses_schedule services.
Proof.
  intros items w w' o. cbn. unfold redis_exec. rewrite decide_True by done. intros [= <- <-].
  split; [done|]. by intros H.
Qed.

End FullRedis.

Section Witnesses.
#[local] Existing Instance Hex.lib.
#[local] Existing Instance Hex.laws.
#[local] Existing Instance RefWorld.services.
#[local] Existing Instance RefWorld.laws.
#[local] Existing Instance RefJwt.lib.
#[local] Existing Instance RefAPI.validator.

Definition lost_start : @sys FullRedis.services := @MkSys FullRedis.services flight_world RefWorld.proc10.
Definition lost_run := @run FullRedis.services unit (handleSuccess result_ok) lost_start.

(** The acknowledgements of a run: whether each was answered. *)
Definition ack_answer (c : cmd) : reply c -> option bool :=
  match c return reply c -> option bool with
  | Redis (Call (ZREM _ _)) => fun o => Some (if o then false else true)
  | _ => fun _ => None
  end.

Definition acknowledged (tr : list event) : list bool := omap (fun e => ack_answer (projT1 e) (projT2 e)) tr.

(** The job in flight of the demo monitor: before the handler it is in the
    queue, after it, it is not, although the acknowledgement was answered and
    the handler returned. *)
Lemma handleSuccess_can_lose_job_witness :
  uuid_String Demo.uid1 ∈ tracked (rview flight_world) /\
  zset (rview flight_world) scheduleKey !! uuid_String Demo.uid1 = None /\
  acknowledged lost_run.1.1 = [true] /\ lost_run.2 = Ret tt /\
  @wp FullRedis.services ack_answered unit (handleSuccess result_ok) lost_start
    (fun _ σ' => sp σ' = RefWorld.proc10 /\ uuid_String Demo.uid1 ∉ tracked (rview (sw σ'))).
Proof.
  split; [exact flight_tracked|]. split; [vm_compute; reflexivity|]. split; [vm_compute; reflexivity|].
  split; [vm_compute; reflexivity|].
  apply (@handleSuccess_can_lose_job Hex.lib Hex.laws FullRedis.services FullRedis.laws FullRedis.refuses
    result_ok flight_world RefWorld.proc10).
  vm_compute. reflexivity.
Defined.

(** A monitor that is due, and disabled. *)
Definition off_db : database :=
  MkDatabase (users demo_db) {[Demo.uid1 := with_enabled false demo_row]} ∅.
Definition off_pool : pool RefWorld.services :=
  MkPool (RefWorld.start due_redis off_db Demo.t0) [RefWorld.proc10] [].

(** The scheduler fetches it and a worker drops its job; the reclaimer brings it
    back, and the scheduler fetches it again. *)
Definition dropped := rounds 2 off_pool.
Definition lap : list event := dropped.1 ++ (reclaimed dropped.2).1 ++ (refetched dropped.2).1.

Lemma lap_steps : steps off_pool lap (refetched dropped.2).2.
Proof.
  unfold lap. eapply steps_app; [apply (rounds_steps 2)|].
  apply (refetched_steps dropped.2); by vm_compute.
Qed.

Lemma off_valid : coherent (rview (pl_world off_pool)) (dview (pl_world off_pool)) /\ valid_db (dview (pl_world off_pool)).
Proof.
  split; [intros id x o m Hx; discriminate Hx|].
  intros id r b Hr. cbn in Hr. apply lookup_singleton_Some in Hr as [_ <-]. apply (demo_storable id b).
Qed.

Lemma lap_disabled : Forall (fun e => found_disabled Demo.uid1 (projT1 e) (projT2 e)) lap.
Proof. apply forallb_True. vm_compute. exact I. Qed.

Definition in_set (k : string) (P : pool RefWorld.services) : bool :=
  bool_decide (is_Some (zset (rview (pl_world P)) k !! uuid_String Demo.uid1)).

Lemma disabled_job_circulates_witness :
  (in_set scheduleKey off_pool, in_set inflightKey dropped.2, pl_tasks dropped.2,
   in_set scheduleKey (reclaimed dropped.2).2, in_set inflightKey (refetched dropped.2).2) =
    (true, true, [], true, true) /\
  uuid_String Demo.uid1 ∈ tracked (rview (pl_world (refetched dropped.2).2)).
Proof.
  split; [vm_compute; reflexivity|].
  assert (uuid_String Demo.uid1 ∈ tracked (rview (pl_world off_pool))) as Ht
    by (apply elem_of_tracked; left; eexists; vm_compute; reflexivity).
  refine (proj1 (disabled_job_circulates Demo.uid1 off_pool lap (refetched dropped.2).2 _ (proj1 off_valid)
    (proj2 off_valid) Ht _ lap_steps lap_disabled)).
  - apply fresh_process; [by repeat split|reflexivity].
  - repeat constructor.
Defined.

End Witnesses.
