(* ===== verification/Container.v ===== *)
(** * internals/app/container.go and cmd/api/main.go: the life of a process

    [main] loads the configuration, connects and either ends with an error or
    serves until the signal.  [NewContainer] wires the components from the configuration; [main_start]
    starts their goroutines.  A goroutine is one of the loops of the components
    ([startWork], [router], the result workers, [handleAlerts], the two
    tickers) or a check.  The main goroutine waits for the signal, shuts the
    HTTP server down and then runs [Shutdown], step by step.  [lstep] is the step relation of a process: one
    command of a goroutine, one internal step of it (it takes from its channel,
    ends a turn, leaves its loop), one step of the main goroutine, or anything
    that happens elsewhere in the world. *)

From S2P Require Import Prelude AppError Types Redis Postgres Effects Rules Reference RedisStore.
From S2P Require Import Scheduler Security Http Config Infra User MonitorSvc Handlers Executor Result Pipeline.
From stdpp Require Import gmap list strings pretty sorting.
#[local] Open Scope Z_scope.

(** ** The constructors *)

(** executor.go, processor.go, alert/service.go: the fields that the
    configuration sets; the channels are in [proc]. *)
Record Executor := MkExecutor { ex_workerCount : Z }.
Record ResultProcessor := MkResultProcessor { rp_successWorkerCount : Z; rp_failureWorkerCount : Z }.
Record AlertService := MkAlertService { al_workerCount : Z }.

Definition NewScheduler (cfg : SchedulerConfig) : Scheduler :=
  MkScheduler (scc_Interval cfg) (scc_BatchSize cfg) (scc_VisibilityTimeout cfg).
Definition NewReclaimer (cfg : ReclaimerConfig) : Reclaimer :=
  MkReclaimer (rcc_Interval cfg) (rcc_Limit cfg).
Definition NewExecutor (cfg : ExecutorConfig) : Executor := MkExecutor (exc_WorkerCount cfg).
Definition NewResultProcessor (cfg : ResultProcessorConfig) : ResultProcessor :=
  MkResultProcessor (rpc_SuccessWorkerCount cfg) (rpc_FailureWorkerCount cfg).
Definition NewAlertService (cfg : AlertConfig) : AlertService := MkAlertService (alc_WorkerCount cfg).
Definition NewTokenService (cfg : AuthConfig) : TokenService :=
  MkTokenService (auth_Secret cfg) (auth_TokenTTL cfg).

Record Container := MkContainer {
  c_redis : redis_Options;
  c_tokenSvc : TokenService;
  c_Reclaimer : Reclaimer;
  c_Scheduler : Scheduler;
  c_Executor : Executor;
  c_ResultPro : ResultProcessor;
  c_AlertSvc : AlertService;
  c_proc : proc   (* the channels that are made *)
}.

(** [make(chan T, size)]: a negative size panics. *)
Definition make_chan (T : Type) (size : Z) : option (chan T) :=
  if decide (size < 0) then None else Some (ch_make T (Z.to_nat size)).

(** The channels of [NewContainer], [NewExecutor] and [NewResultProcessor]. *)
Definition make_channels (cfg : Config) : option proc :=
  jobs ← make_chan JobPayload (app_JobChannelSize (App cfg));
  results ← make_chan HTTPResult (app_ResultChannelSize (App cfg));
  alerts ← make_chan AlertEvent (app_AlertChannelSize (App cfg));
  httpSem ← make_chan unit (exc_HTTPSemCount (ExecutorCfg cfg));
  successes ← make_chan HTTPResult (rpc_SuccessChannelSize (ResultProcessorCfg cfg));
  failures ← make_chan HTTPResult (rpc_FailureChannelSize (ResultProcessorCfg cfg));
  Some (MkProc jobs results successes failures alerts 0 (ch_cap httpSem)).

(** The container, an error, or the panic of [make].  The repositories, the
    services of users and monitors and the handlers have no field that the
    configuration sets: they are the definitions of User, MonitorSvc and
    Handlers, wired together by the instances of their classes. *)
Definition NewContainer {R : RedisLib} (cfg : Config) : option (error + Container) :=
  match redis_New (RedisCfg cfg) with
  | inl err => Some (inl err)
  | inr redisClient =>
    p ← make_channels cfg;
    Some (inr (MkContainer redisClient (NewTokenService (Auth cfg)) (NewReclaimer (ReclaimerCfg cfg))
      (NewScheduler (SchedulerCfg cfg)) (NewExecutor (ExecutorCfg cfg))
      (NewResultProcessor (ResultProcessorCfg cfg)) (NewAlertService (AlertCfg cfg)) p))
  end.

(** ** internals/server/server.go *)

Record Server := MkServer { srv_Addr : string }.
Definition server_New (addr : string) : Server := MkServer addr.

(** The end of [ListenAndServe]: after a shutdown, or with an error, at which
    the goroutine of [Start] ends the process. *)
Inductive serve_end := ErrServerClosed | ServeError (err : error).
Definition Server_Start (e : serve_end) : option (string * error) :=
  match e with
  | ErrServerClosed => None
  | ServeError err => Some ("HTTP server crashed", err)
  end.

(** ** The goroutines *)

(** A goroutine that loops over a channel or a ticker: at the head of its loop,
    or in a turn of it. *)
Inductive worker (A : Type) := Waiting | Busy (p : prog A).
Arguments Waiting {_}.
Arguments Busy {_}.

Inductive goroutine :=
| GScheduler (w : worker unit)           (* Scheduler.Run *)
| GReclaimer (w : worker unit)           (* Reclaimer.Run *)
| GWorker (w : worker (option Monitor))  (* Executor.startWork *)
| GCheck (p : prog unit)                 (* the goroutine of a check *)
| GRouter (w : worker unit)              (* ResultProcessor.router *)
| GClosing                               (* the same, after close(failureChan) *)
| GSuccess (w : worker unit)             (* ResultProcessor.successWorker *)
| GFailure (w : worker unit)             (* ResultProcessor.failureWorker *)
| GAlert (w : worker unit).              (* AlertService.handleAlerts *)

(** The wait groups of the executor, the result processor and the alerts. *)
Record wait_groups := MkWG { workerWg : nat; httpWg : nat; resultWG : nat; alertWG : nat }.

Definition add_workerWg n g := MkWG (n + workerWg g) (httpWg g) (resultWG g) (alertWG g).
Definition add_httpWg n g := MkWG (workerWg g) (n + httpWg g) (resultWG g) (alertWG g).
Definition add_resultWG n g := MkWG (workerWg g) (httpWg g) (n + resultWG g) (alertWG g).
Definition add_alertWG n g := MkWG (workerWg g) (httpWg g) (resultWG g) (n + alertWG g).

(** [wg.Done()]: panics at zero. *)
Definition done_workerWg g :=
  match workerWg g with O => None | S n => Some (MkWG n (httpWg g) (resultWG g) (alertWG g)) end.
Definition done_httpWg g :=
  match httpWg g with O => None | S n => Some (MkWG (workerWg g) n (resultWG g) (alertWG g)) end.
Definition done_resultWG g :=
  match resultWG g with O => None | S n => Some (MkWG (workerWg g) (httpWg g) n (alertWG g)) end.
Definition done_alertWG g :=
  match alertWG g with O => None | S n => Some (MkWG (workerWg g) (httpWg g) (resultWG g) n) end.

Definition negative_wg : string := "sync: negative WaitGroup counter".
Definition close_closed : string := "close of closed channel".

Definition close_ch {A} (ch : chan A) : chan A := MkChan (ch_buf ch) (ch_cap ch) true.

(** Where the main goroutine is: waiting for the signal, in the shutdown of the
    server, at a statement of [Shutdown], at its end, or in a panic. *)
Inductive stage :=
| Serving | StopServer | CloseJob | WaitWorkers | WaitHttp | CloseResult | WaitResults
| CloseAlert | WaitAlerts | CloseRedis | Returned | MainPanic (msg : string).

Section Machine.
Context {U : UuidLib} {S : Services}.

Record service := MkService {
  sv_world : world;
  sv_proc : proc;
  sv_wg : wait_groups;
  sv_gs : list goroutine;
  sv_main : stage
}.

(** ** Start *)

Definition spawn (g : goroutine) (s : service) : service :=
  MkService (sv_world s) (sv_proc s) (sv_wg s) (sv_gs s ++ [g]) (sv_main s).
Definition update_wg (f : wait_groups -> wait_groups) (s : service) : service :=
  MkService (sv_world s) (sv_proc s) (f (sv_wg s)) (sv_gs s) (sv_main s).

(** The first statements of [Run]. *)
Definition Scheduler_Run (sc : Scheduler) : goroutine :=
  GScheduler (Busy (if decide (sc_interval sc <= 0) then Panic "scheduler interval must be > 0" else mret tt)).
Definition Reclaimer_Run (rc : Reclaimer) : goroutine :=
  GReclaimer (Busy (if decide (rc_interval rc <= 0) then Panic "reclaim loop interval must be > 0" else mret tt)).

(** [for range n { body }] *)
Definition for_range (n : Z) (body : service -> service) (s : service) : service :=
  Nat.iter (Z.to_nat n) body s.

Definition StartWorkers (ew : Executor) : service -> service :=
  for_range (ex_workerCount ew) (fun s => spawn (GWorker Waiting) (update_wg (add_workerWg 1) s)).

Definition StartResultProcessor (rp : ResultProcessor) (s : service) : service :=
  let s := for_range (rp_successWorkerCount rp)
             (fun s => spawn (GSuccess Waiting) (update_wg (add_resultWG 1) s)) s in
  let s := for_range (rp_failureWorkerCount rp)
             (fun s => spawn (GFailure Waiting) (update_wg (add_resultWG 1) s)) s in
  spawn (GRouter Waiting) s.

Definition AlertService_Run (al : AlertService) (s : service) : service :=
  let s := update_wg (add_alertWG (Z.to_nat (al_workerCount al))) s in
  for_range (al_workerCount al) (spawn (GAlert Waiting)) s.

(** [main], up to the wait for the signal. *)
Definition main_start (c : Container) (w : world) : service :=
  let s := MkService w (c_proc c) (MkWG 0 0 0 0) [] Serving in
  let s := spawn (Reclaimer_Run (c_Reclaimer c)) s in
  let s := spawn (Scheduler_Run (c_Scheduler c)) s in
  let s := StartWorkers (c_Executor c) s in
  let s := StartResultProcessor (c_ResultPro c) s in
  AlertService_Run (c_AlertSvc c) s.

(** [main]: it ends the process with a message, panics, or serves. *)
Inductive boot :=
| Fatal (msg : string) (err : error)
| BootPanic
| Running (srv : Server) (c : Container) (s : service).

Definition main {SV : StructValidator} {Vi : ViperLib} {P : PgxLib} {R : RedisLib} (w : world) : boot :=
  match LoadConfig "env.yaml" with
  | inl err => Fatal "failed to load config" err
  | inr cfg =>
    match ConnectToDB (DB cfg) with
    | inl (err, _) => Fatal "failed to initialize db pool" err
    | inr dbPool =>
      match NewContainer cfg with
      | None => BootPanic
      | Some (inl err) => Fatal "failed to initialize dependencies" err
      | Some (inr container) => Running (server_New ":8080") container (main_start container w)
      end
    end
  end.

(** ** Steps *)

Context (c : Container).

(** The next command of a goroutine. *)
Inductive g_step : goroutine -> forall k : cmd, (reply k -> goroutine) -> Prop :=
| g_scheduler k f : g_step (GScheduler (Busy (Op k f))) k (fun r => GScheduler (Busy (f r)))
| g_reclaimer k f : g_step (GReclaimer (Busy (Op k f))) k (fun r => GReclaimer (Busy (f r)))
| g_worker k f : g_step (GWorker (Busy (Op k f))) k (fun r => GWorker (Busy (f r)))
| g_check k f : g_step (GCheck (Op k f)) k (fun r => GCheck (f r))
| g_router k f : g_step (GRouter (Busy (Op k f))) k (fun r => GRouter (Busy (f r)))
| g_success k f : g_step (GSuccess (Busy (Op k f))) k (fun r => GSuccess (Busy (f r)))
| g_failure k f : g_step (GFailure (Busy (Op k f))) k (fun r => GFailure (Busy (f r)))
| g_alert k f : g_step (GAlert (Busy (Op k f))) k (fun r => GAlert (Busy (f r))).

(** The head of a loop over a channel: a turn with the next element; or, when
    the channel is closed and empty, what follows the loop. *)
Definition range_chan {A B} (ch : chan A) (turn : A -> list B) (leave : list B) : list B :=
  match ch_buf ch with
  | x :: _ => turn x
  | [] => if ch_closed ch then leave else []
  end.

(** What follows a loop: a deferred [wg.Done()] and the end. *)
Definition leave_wg (p : proc) (o : option wait_groups) (wg : wait_groups) (panic : goroutine)
    : list (proc * wait_groups * list goroutine) :=
  match o with Some wg' => [(p, wg', [])] | None => [(p, wg, [panic])] end.

(** The internal steps of a goroutine: what becomes of the channels, the wait
    groups and the goroutine (gone, itself, or itself and what it spawned).

    [Run] of the scheduler and of the reclaimer: the [select] of a tick and of
    the end of the context. *)
Definition scheduler_moves (done : bool) (w : worker unit) (p : proc) (wg : wait_groups)
    : list (proc * wait_groups * list goroutine) :=
  match w with
  | Waiting => (p, wg, [GScheduler (Busy (doWorkWithReliability (c_Scheduler c)))]) ::
               (if done then [(p, wg, [])] else [])
  | Busy (Ret _) => [(p, wg, [GScheduler Waiting])]
  | _ => []
  end.

Definition reclaimer_moves (done : bool) (w : worker unit) (p : proc) (wg : wait_groups)
    : list (proc * wait_groups * list goroutine) :=
  match w with
  | Waiting => (p, wg, [GReclaimer (Busy (reclaim (c_Reclaimer c)))]) ::
               (if done then [(p, wg, [])] else [])
  | Busy (Ret _) => [(p, wg, [GReclaimer Waiting])]
  | _ => []
  end.

(** [startWork]: a turn ends with the goroutine of a check or without. *)
Definition startWork (w : worker (option Monitor)) (p : proc) (wg : wait_groups)
    : list (proc * wait_groups * list goroutine) :=
  match w with
  | Waiting =>
      range_chan (jobChan p) (fun job => [(set_jobChan pop p, wg, [GWorker (Busy (handleJob job))])])
        (leave_wg p (done_workerWg wg) wg (GWorker (Busy (Panic negative_wg))))
  | Busy (Ret None) => [(p, wg, [GWorker Waiting])]
  | Busy (Ret (Some m)) => [(p, add_httpWg 1 wg, [GWorker Waiting; GCheck (httpCheck m)])]
  | _ => []
  end.

(** The end of a check: [ew.httpWg.Done()]. *)
Definition check_done (pr : prog unit) (p : proc) (wg : wait_groups)
    : list (proc * wait_groups * list goroutine) :=
  match pr with
  | Ret _ => leave_wg p (done_httpWg wg) wg (GCheck (Panic negative_wg))
  | _ => []
  end.

(** [router], and its last statement. *)
Definition router (w : worker unit) (p : proc) (wg : wait_groups)
    : list (proc * wait_groups * list goroutine) :=
  match w with
  | Waiting =>
      range_chan (resultChan p) (fun r => [(set_resultChan pop p, wg, [GRouter (Busy (route r))])])
        (if ch_closed (failureChan p) then [(p, wg, [GRouter (Busy (Panic close_closed))])]
         else [(set_failureChan close_ch p, wg, [GClosing])])
  | Busy (Ret _) => [(p, wg, [GRouter Waiting])]
  | _ => []
  end.

Definition router_closing (p : proc) (wg : wait_groups) : list (proc * wait_groups * list goroutine) :=
  if ch_closed (successChan p) then [(p, wg, [GRouter (Busy (Panic close_closed))])]
  else [(set_successChan close_ch p, wg, [])].

Definition successWorker (w : worker unit) (p : proc) (wg : wait_groups)
    : list (proc * wait_groups * list goroutine) :=
  match w with
  | Waiting =>
      range_chan (successChan p) (fun r => [(set_successChan pop p, wg, [GSuccess (Busy (handleSuccess r))])])
        (leave_wg p (done_resultWG wg) wg (GSuccess (Busy (Panic negative_wg))))
  | Busy (Ret _) => [(p, wg, [GSuccess Waiting])]
  | _ => []
  end.

Definition failureWorker (w : worker unit) (p : proc) (wg : wait_groups)
    : list (proc * wait_groups * list goroutine) :=
  match w with
  | Waiting =>
      range_chan (failureChan p) (fun r => [(set_failureChan pop p, wg, [GFailure (Busy (handleFailure r))])])
        (leave_wg p (done_resultWG wg) wg (GFailure (Busy (Panic negative_wg))))
  | Busy (Ret _) => [(p, wg, [GFailure Waiting])]
  | _ => []
  end.

Definition handleAlerts (w : worker unit) (p : proc) (wg : wait_groups)
    : list (proc * wait_groups * list goroutine) :=
  match w with
  | Waiting =>
      range_chan (alertChan p) (fun a => [(set_alertChan pop p, wg, [GAlert (Busy (handleAlert a))])])
        (leave_wg p (done_alertWG wg) wg (GAlert (Busy (Panic negative_wg))))
  | Busy (Ret _) => [(p, wg, [GAlert Waiting])]
  | _ => []
  end.

Definition moves (done : bool) (g : goroutine) (p : proc) (wg : wait_groups)
    : list (proc * wait_groups * list goroutine) :=
  match g with
  | GScheduler w => scheduler_moves done w p wg
  | GReclaimer w => reclaimer_moves done w p wg
  | GWorker w => startWork w p wg
  | GCheck pr => check_done pr p wg
  | GRouter w => router w p wg
  | GClosing => router_closing p wg
  | GSuccess w => successWorker w p wg
  | GFailure w => failureWorker w p wg
  | GAlert w => handleAlerts w p wg
  end.

(** [close(ch)] of the main goroutine. *)
Definition main_close {A} (get : proc -> chan A) (set : (chan A -> chan A) -> proc -> proc)
    (p : proc) (next : stage) : option (proc * stage) :=
  if ch_closed (get p) then Some (p, MainPanic close_closed) else Some (set close_ch p, next).

Definition main_wait (n : nat) (p : proc) (next : stage) : option (proc * stage) :=
  match n with O => Some (p, next) | Datatypes.S _ => None end.

(** The next statement of the main goroutine, unless it has to wait.
    [Server.Shutdown] returns when no request is served any more or after ten
    seconds; its error is only logged.  The requests use none of the channels:
    they are part of what happens elsewhere. *)
Definition Shutdown (done : bool) (m : stage) (p : proc) (wg : wait_groups) : option (proc * stage) :=
  match m with
  | Serving => if done then Some (p, StopServer) else None
  | StopServer => Some (p, CloseJob)
  | CloseJob => main_close jobChan set_jobChan p WaitWorkers
  | WaitWorkers => main_wait (workerWg wg) p WaitHttp
  | WaitHttp => main_wait (httpWg wg) p CloseResult
  | CloseResult => main_close resultChan set_resultChan p WaitResults
  | WaitResults => main_wait (resultWG wg) p CloseAlert
  | CloseAlert => main_close alertChan set_alertChan p WaitAlerts
  | WaitAlerts => main_wait (alertWG wg) p CloseRedis
  | CloseRedis => Some (p, Returned)
  | Returned | MainPanic _ => None
  end.

(** The loops of the tickers run until they see that the context is done;
    nothing waits for them. *)
Definition is_ticker (g : goroutine) : bool :=
  match g with GScheduler _ | GReclaimer _ => true | _ => false end.

(** Who makes a step: a goroutine that [Shutdown] waits for, or the main
    goroutine; a ticker's loop; the rest of the world. *)
Inductive who := Progress | Ticker | Elsewhere.

Definition of_g (g : goroutine) : who := if is_ticker g then Ticker else Progress.

Inductive lstep : service -> who -> service -> Prop :=
| lstep_cmd w p wg gs m j g k f w' p' r :
    gs !! j = Some g -> g_step g k f -> exec k (MkSys w p) = Reply (MkSys w' p') r ->
    lstep (MkService w p wg gs m) (of_g g) (MkService w' p' wg (put j [f r] gs) m)
| lstep_move w p wg gs m j g p' wg' gs' :
    gs !! j = Some g -> (p', wg', gs') ∈ moves (ctx_done CtxApp w) g p wg ->
    lstep (MkService w p wg gs m) (of_g g) (MkService w p' wg' (put j gs' gs) m)
| lstep_main w p wg gs m p' m' :
    Shutdown (ctx_done CtxApp w) m p wg = Some (p', m') ->
    lstep (MkService w p wg gs m) Progress (MkService w p' wg gs m')
| lstep_world w p wg gs m w' :
    lstep (MkService w p wg gs m) Elsewhere (MkService w' p wg gs m).

(** A run, with who made its steps. *)
Inductive lsteps : service -> list who -> service -> Prop :=
| lsteps_nil s : lsteps s [] s
| lsteps_cons s x s1 tr s2 : lstep s x s1 -> lsteps s1 tr s2 -> lsteps s (x :: tr) s2.

End Machine.
