(* ===== verification/Budget.v ===== *)
(** * How much work a turn of a goroutine is

    Every turn of a loop of the pipeline issues a bounded number of commands,
    and only those of its stage: a check sends results, the router sends to the
    workers, the failure workers send alerts, the executor's workers take slots
    of the semaphore.  [spends] is an automaton that charges the commands to a
    budget; a send costs what handling the element will cost, so that the
    budgets of the stages add up to a bound on the work of the pipeline.
    [ticks] is the protocol of the two tickers, whose turns are not bounded.  The
    last part is what commands do to the channels and their [load]: a command
    pays for what it adds ([exec_pays]).  Shutdown and Drain are the clients. *)

From S2P Require Import Prelude AppError Types Redis Postgres Effects Rules Reference RedisStore.
From S2P Require Import Scheduler Security Http User MonitorJSON MonitorSvc Handlers Executor Result Pipeline.
From stdpp Require Import gmap list strings pretty sorting.
#[local] Open Scope Z_scope.

Inductive role := RWorker | RCheck | RRouter | RSuccess | RFailure | RAlert.

(** Whether a slot of the semaphore is held, and what may still be spent. *)
Record budget := MkBudget { b_held : bool; b_fuel : nat }.

(** The budgets of a turn, and what an element of a channel weighs. *)
Notation fuel_alert := 0%nat.
Notation fuel_failure := 40%nat.
Notation fuel_success := 30%nat.
Notation fuel_route := 44%nat.
Notation fuel_check := 60%nat.
Notation fuel_job := 80%nat.
Notation w_alert := 2%nat.
Notation w_failure := 42%nat.
Notation w_success := 32%nat.
Notation w_result := 46%nat.
Notation w_job := 82%nat.

Definition price (c : cmd) : nat :=
  match c with
  | SendResult _ => S w_result
  | SendSuccess _ => S w_success
  | SendFailure _ => S w_failure
  | SendAlert _ => S w_alert
  | _ => 1
  end.

Definition quiet_cmd (c : cmd) : Prop :=
  match c with
  | SendResult _ | SendSuccess _ | SendFailure _ | SendAlert _ | TrySendJob _ _
  | AcquireSem | ReleaseSem => False
  | _ => True
  end.

Section Spends.
Context (ρ : role).

(** The commands of a stage. *)
Definition may (held : bool) (c : cmd) : Prop :=
  match c with
  | AcquireSem => ρ = RWorker /\ held = false
  | ReleaseSem => ρ = RCheck /\ held = true
  | SendResult _ => ρ = RCheck
  | SendSuccess _ | SendFailure _ => ρ = RRouter
  | SendAlert _ => ρ = RFailure
  | TrySendJob _ _ => False
  | _ => True
  end.

Definition affords (q : budget) (c : cmd) : Prop :=
  may (b_held q) c /\ (price c <= b_fuel q)%nat.

Definition held_after (held : bool) (c : cmd) : bool :=
  match c with AcquireSem => true | ReleaseSem => false | _ => held end.

Definition charge (q : budget) (c : cmd) (r : reply c) : budget :=
  MkBudget (held_after (b_held q) c) (b_fuel q - price c).

(** From budget [q] on, with open channels, [p] issues only commands of its
    stage that it can pay, does not panic, and ends with [Φ]. *)
Definition spends {A} (p : prog A) (q : budget) (Φ : A -> budget -> Prop) : Prop :=
  obeys affords charge open_reply p q Φ.

End Spends.

(** Programs that stay off the channels and the semaphore, with at most [n]
    commands. *)
Definition quiet {A} (n : nat) (p : prog A) : Prop :=
  forall ρ q, (n <= b_fuel q)%nat ->
    spends ρ p q (fun _ q' => b_held q' = b_held q /\ (b_fuel q <= b_fuel q' + n)%nat).

Lemma quiet_ret {A} n (a : A) : quiet n (mret a).
Proof. intros ρ q Hq. apply obeys_ret. split; [done|lia]. Qed.

Lemma quiet_price c : quiet_cmd c -> price c = 1%nat.
Proof. by destruct c. Qed.

Lemma quiet_op c n : quiet_cmd c -> quiet (S n) (op c).
Proof.
  intros Hc ρ q Hq. apply obeys_op.
  - split; [by destruct c|]. rewrite quiet_price by done. lia.
  - intros r _. unfold charge. rewrite quiet_price by done. split; [by destruct c|]. cbn. lia.
Qed.

Lemma quiet_bind {A B} n m (p : prog A) (f : A -> prog B) :
  quiet n p -> (forall a, quiet m (f a)) -> quiet (n + m) (p ≫= f).
Proof.
  intros Hp Hf ρ q Hq. apply obeys_bind. eapply obeys_mono; [apply Hp; lia|].
  intros a q' [Hh Hl]. eapply obeys_mono; [apply Hf; lia|]. intros b q'' [Hh' Hl']. split; [congruence|lia].
Qed.

Lemma quiet_mono {A} n m (p : prog A) : quiet n p -> (n <= m)%nat -> quiet m p.
Proof.
  intros Hp Hn ρ q Hq. eapply obeys_mono; [apply Hp; lia|]. intros a q' [? ?]. split; [done|lia].
Qed.

(** A quiet first part of a program. *)
Lemma quiet_first {A B} n m (p : prog A) (f : A -> prog B) :
  quiet n p -> (n <= m)%nat -> (forall a, quiet (m - n) (f a)) -> quiet m (p ≫= f).
Proof. intros Hp Hn Hf. replace m with (n + (m - n))%nat by lia. by apply quiet_bind. Qed.

Lemma quiet_cmd_first {B} m c (f : reply c -> prog B) :
  quiet_cmd c -> (forall r, quiet m (f r)) -> quiet (S m) (op c ≫= f).
Proof. intros Hc Hf. apply (quiet_bind 1); [by apply quiet_op|done]. Qed.

Lemma quiet_retry {V} x n c (fn : V -> prog (V * option error)) v :
  (forall v, quiet c (fn v)) -> quiet (n * S c) (retry x fn n v).
Proof.
  intros Hfn. unfold retry. generalize 0 as i, (@None error) as err. revert v.
  induction n as [|n IH]; intros v i err; cbn [retry_from]; [apply quiet_ret|].
  replace (S n * S c)%nat with (c + S (n * S c))%nat by lia.
  apply quiet_bind; [done|]. intros [v' [e|]]; [|apply quiet_ret].
  apply quiet_cmd_first; [done|]. intros [ce|]; [apply quiet_ret|apply IH].
Qed.

Lemma quiet_then {A B} n (p : prog A) (f : A -> B) : quiet n p -> quiet n (p ≫= fun a => mret (f a)).
Proof. intros H. replace n with (n + 0)%nat by lia. apply quiet_bind; [done|]. intros a. apply quiet_ret. Qed.

Lemma quiet_retry_ x n c (fn : prog (option error)) : quiet c fn -> quiet (n * S c) (retry_ x n fn).
Proof.
  intros Hfn. unfold retry_. replace (n * S c)%nat with (n * S c + 0)%nat by lia.
  apply quiet_bind; [|by intros [? ?]; apply quiet_ret].
  apply quiet_retry. intros ?. by apply quiet_then.
Qed.

(** A quiet program in a turn. *)
Lemma spends_quiet {A} ρ n (p : prog A) q (Φ : A -> budget -> Prop) :
  quiet n p -> (n <= b_fuel q)%nat ->
  (forall a f, (b_fuel q <= f + n)%nat -> Φ a (MkBudget (b_held q) f)) -> spends ρ p q Φ.
Proof.
  intros Hp Hn HΦ. eapply obeys_mono; [by apply Hp|]. intros a [h f] [Hh Hf]; cbn in *. subst h. by apply HΦ.
Qed.

(** Proves that a program is quiet, along its text. *)
Ltac quiet :=
  repeat match goal with
  | |- quiet _ (mret _) => apply quiet_ret
  | |- quiet (S _) (op _ ≫= _) => apply quiet_cmd_first; [exact I|intros ?]
  | |- quiet (S _) (rdb _ ≫= _) => apply quiet_cmd_first; [exact I|intros ?]
  | |- quiet (S _) (op _) => apply quiet_op; exact I
  | |- quiet _ (match ?x with _ => _ end) => destruct x
  | |- quiet _ (let '(_, _) := ?x in _) => destruct x
  | |- _ => solve [eauto with monit]
  | |- quiet _ (?p ≫= _) => eapply quiet_first; [solve [eauto with monit]|lia|intros ?]
  end.

(** ** The calls of the pipeline *)

Section Costs.
Context {U : UuidLib}.

Lemma quiet_Schedule x m t : quiet 6 (Schedule x m t).
Proof. apply (quiet_retry_ x 3 1). quiet. Qed.

Lemma quiet_AckJob x m : quiet 1 (AckJob x m).
Proof. unfold AckJob. quiet. Qed.

Lemma quiet_ClearIncident x id : quiet 4 (ClearIncident x id).
Proof. apply (quiet_retry_ x 2 1). quiet. Qed.

Lemma quiet_ClearRetry x id : quiet 4 (ClearRetry x id).
Proof. apply (quiet_retry_ x 2 1). quiet. Qed.

Lemma quiet_StoreStatus x id a b d : quiet 4 (StoreStatus x id a b d).
Proof. apply (quiet_retry_ x 2 1). quiet. Qed.

Lemma quiet_IncrementRetry x id : quiet 6 (IncrementRetry x id).
Proof. apply (quiet_retry x 2 2). intros v. quiet. Qed.

Lemma quiet_IncrementIncident x id : quiet 10 (IncrementIncident x id).
Proof.
  unfold IncrementIncident. apply quiet_cmd_first; [done|]. intros t.
  apply (quiet_first 9); [|lia|intros [[? ?] ?]; apply quiet_ret].
  apply (quiet_retry x 3 2). intros [? first]. quiet.
Qed.

Lemma quiet_GetIncident x id : quiet 1 (GetIncident x id).
Proof.
  unfold GetIncident, hgetall. quiet.
Qed.

Lemma quiet_MarkDB x id : quiet 1 (MarkDBIncidentCreated x id).
Proof. unfold MarkDBIncidentCreated. quiet. Qed.

Lemma quiet_MarkAlerted x id : quiet 1 (MarkIncidentAlertedIfNotSet x id).
Proof. unfold MarkIncidentAlertedIfNotSet. quiet. Qed.

Lemma quiet_CreateIncident x t r : quiet 1 (Result.Repository.Create x t r).
Proof. unfold Result.Repository.Create. quiet. Qed.

Lemma quiet_CloseIncident x id t : quiet 1 (Result.Repository.CloseIncident x id t).
Proof. unfold Result.Repository.CloseIncident. quiet. Qed.

Lemma quiet_ScheduleMonitor x id n o : quiet 7 (Service.ScheduleMonitor x id n o).
Proof.
  unfold Service.ScheduleMonitor. apply quiet_cmd_first; [done|]. intros t.
  cbn [cache_Schedule redis_cache]. apply quiet_then, quiet_Schedule.
Qed.

Lemma quiet_cacheMonitor x m : quiet 1 (Service.cacheMonitor x m).
Proof.
  unfold Service.cacheMonitor. destruct (json_Marshal m); [apply quiet_ret|].
  cbn [cache_SetMonitor redis_cache]. unfold SetMonitor. quiet.
Qed.

Lemma quiet_getCached x id : quiet 1 (Service.getCachedMonitor x id).
Proof.
  unfold Service.getCachedMonitor. cbn [cache_GetMonitor redis_cache]. unfold GetMonitor.
  apply (quiet_first 1); [quiet|lia|]. intros ?. quiet.
Qed.

Lemma quiet_LoadMonitor x id : quiet 3 (Service.LoadMonitor x id).
Proof.
  unfold Service.LoadMonitor. apply (quiet_first 1); [apply quiet_getCached|lia|]. intros [e|m]; [|apply quiet_ret].
  unfold MonitorSvc.Repository.GetByID. apply (quiet_first 1); [quiet|lia|]. intros [e'|m]; [apply quiet_ret|].
  apply quiet_then, quiet_cacheMonitor.
Qed.

End Costs.

#[export] Hint Resolve quiet_Schedule quiet_AckJob quiet_ClearIncident quiet_ClearRetry quiet_StoreStatus
  quiet_IncrementRetry quiet_IncrementIncident quiet_GetIncident quiet_MarkDB quiet_MarkAlerted
  quiet_CreateIncident quiet_CloseIncident quiet_ScheduleMonitor quiet_cacheMonitor quiet_getCached
  quiet_LoadMonitor : monit.

(** ** The turns *)

Section Turns.
Context {U : UuidLib}.

(** A slot is held exactly when a check is to be started, and then its budget is left. *)
Definition job_done (o : option Monitor) (q : budget) : Prop :=
  match o with
  | Some _ => b_held q = true /\ (fuel_check < b_fuel q)%nat
  | None => b_held q = false
  end.

Lemma spends_handleJob j : spends RWorker (handleJob j) (MkBudget false fuel_job) job_done.
Proof.
  unfold handleJob. apply obeys_bind. eapply (spends_quiet _ 3); [apply quiet_LoadMonitor|cbn; lia|].
  intros [e|m] f Hf; cbn in Hf |- *.
  - destruct (IsKind e NotFound); [by apply obeys_ret|].
    apply obeys_bind. eapply (spends_quiet _ 7); [apply quiet_ScheduleMonitor|cbn; lia|].
    intros ? f' Hf'. by apply obeys_ret.
  - destruct (negb (m_Enabled m)); [by apply obeys_ret|].
    apply obeys_bind, obeys_op; [split; [done|cbn; lia]|]. intros ? _. apply obeys_ret. cbn. split; [done|lia].
Qed.

Lemma quiet_executeHTTPCheck m : quiet 5 (executeHTTPCheck m).
Proof.
  unfold executeHTTPCheck. apply quiet_cmd_first; [done|]. intros start.
  apply quiet_cmd_first; [done|]. intros [e|]; [quiet|].
  apply quiet_cmd_first; [done|]. intros o. apply quiet_cmd_first; [done|]. intros t.
  destruct o as [e|n]; [destruct (classifyError e)|]; quiet.
Qed.

Lemma spends_httpCheck m :
  spends RCheck (httpCheck m) (MkBudget true fuel_check) (fun _ q => b_held q = false).
Proof.
  unfold httpCheck. apply obeys_defer, obeys_bind.
  eapply (spends_quiet _ 5); [apply quiet_executeHTTPCheck|cbn; lia|]. intros r f Hf; cbn in Hf |- *.
  unfold send. apply obeys_bind, obeys_op; [split; [done|cbn; lia]|]. intros ? ->. apply obeys_ret.
  apply obeys_bind, obeys_op; [split; [done|cbn; lia]|]. intros ? _. by apply obeys_ret.
Qed.

Lemma spends_route r : spends RRouter (route r) (MkBudget false fuel_route) (fun _ q => b_held q = false).
Proof.
  unfold route, send. destruct (r_Success r); apply obeys_bind, obeys_op; (split; [done|cbn; lia]) || intros ? ->;
    by apply obeys_ret.
Qed.

Lemma quiet_handleSuccess_body r : quiet 15 (handleSuccess_body r).
Proof.
  unfold handleSuccess_body. apply (quiet_first 4); [apply quiet_StoreStatus|lia|]. intros ?.
  apply (quiet_first 1); [apply quiet_GetIncident|lia|]. intros [incident err].
  destruct err; [apply quiet_ret|]. destruct incident as [h|]; [|apply quiet_ret].
  apply (quiet_first 2); [|lia|intros ?].
  - destruct (bool_decide _); [|apply quiet_ret]. apply quiet_cmd_first; [done|]. intros t.
    apply quiet_then, quiet_CloseIncident.
  - apply (quiet_first 4); [apply quiet_ClearIncident|lia|]. intros ?. apply quiet_then. apply quiet_ClearRetry.
Qed.

Lemma spends_handleSuccess r :
  spends RSuccess (handleSuccess r) (MkBudget false fuel_success) (fun _ q => b_held q = false).
Proof.
  unfold handleSuccess. apply obeys_defer.
  eapply (spends_quiet _ 15); [apply quiet_handleSuccess_body|cbn; lia|]. intros ? f Hf; cbn in Hf |- *.
  assert (quiet 8 ((AckJob CtxApp (uuid_String (r_MonitorID r)) ;;
    ScheduleMonitor CtxApp (r_MonitorID r) (r_IntervalSec r) "result.success_worker") ;; mret a)) as H.
  { apply quiet_then. apply (quiet_first 1); [apply quiet_AckJob|lia|]. intros ?. apply quiet_ScheduleMonitor. }
  eapply (spends_quiet _ 8); [exact H|cbn; lia|done].
Qed.

(** The part that may alert, from a budget that pays for it. *)
Lemma spends_failurePath r f (Φ : unit -> budget -> Prop) :
  (18 <= f)%nat -> (forall f', (f <= f' + 18)%nat -> Φ tt (MkBudget false f')) ->
  spends RFailure (failurePath r) (MkBudget false f) Φ.
Proof.
  intros Hf HΦ. unfold failurePath. apply obeys_bind.
  eapply (spends_quiet _ 10); [apply quiet_IncrementIncident|cbn; lia|]. intros [[n first] err] f1 H1; cbn in H1 |- *.
  destruct err; [apply obeys_ret, HΦ; lia|]. case_decide; [apply obeys_ret, HΦ; lia|].
  apply obeys_bind. eapply (spends_quiet _ 1); [apply quiet_MarkAlerted|cbn; lia|].
  intros [should err] f2 H2; cbn in H2 |- *. case_decide; [apply obeys_ret, HΦ; lia|].
  apply obeys_bind. eapply (spends_quiet _ 1); [apply quiet_MarkDB|cbn; lia|]. intros ? f3 H3; cbn in H3 |- *.
  apply obeys_bind, obeys_op; [split; [done|cbn; lia]|]. intros t _. cbn.
  apply obeys_bind. eapply (spends_quiet _ 1); [apply quiet_CreateIncident|cbn; lia|]. intros ? f4 H4; cbn in H4 |- *.
  unfold send. apply obeys_bind, obeys_op; [split; [done|cbn; lia]|]. intros ? ->. apply obeys_ret, HΦ. cbn. lia.
Qed.

Lemma spends_handleFailure r :
  spends RFailure (handleFailure r) (MkBudget false fuel_failure) (fun _ q => b_held q = false).
Proof.
  unfold handleFailure. apply (obeys_bind _ _ _ (defer _ _ _)), obeys_defer.
  eapply obeys_mono with (Φ1 := fun _ q => b_held q = false /\ (8 <= b_fuel q)%nat).
  2: { intros b [h f] [Hh Hf]; cbn in Hh, Hf. subst h.
       assert (quiet 8 ((AckJob CtxApp (uuid_String (r_MonitorID r)) ;;
         if b then ScheduleMonitor CtxApp (r_MonitorID r) (r_IntervalSec r) "result.failure_worker"
         else mret tt) ;; mret b)) as H.
       { apply quiet_then. apply (quiet_first 1); [apply quiet_AckJob|lia|]. intros ?.
         destruct b; [apply quiet_ScheduleMonitor|apply quiet_ret]. }
       eapply (spends_quiet _ 8); [exact H|cbn; lia|]. intros ? f' _. by apply obeys_ret. }
  unfold handleFailure_body. case_decide.
  { eapply (spends_quiet _ 4); [apply quiet_then, quiet_StoreStatus|cbn; lia|]. intros ? f Hf; cbn in *. split; [done|lia]. }
  destruct (r_Retryable r).
  - apply obeys_bind. eapply (spends_quiet _ 6); [apply quiet_IncrementRetry|cbn; lia|].
    intros [n err] f Hf; cbn in Hf |- *. destruct err; [|case_decide].
    + eapply (spends_quiet _ 7); [apply quiet_then, quiet_ScheduleMonitor|cbn; lia|]. intros ? f' Hf'; cbn in *. split; [done|lia].
    + eapply (spends_quiet _ 7); [apply quiet_then, quiet_ScheduleMonitor|cbn; lia|]. intros ? f' Hf'; cbn in *. split; [done|lia].
    + apply obeys_bind. eapply (spends_quiet _ 4); [apply quiet_ClearRetry|cbn; lia|]. intros ? f' Hf'; cbn in Hf' |- *.
      apply obeys_bind, spends_failurePath; [lia|]. intros f'' Hf''. apply obeys_ret. cbn. split; [done|lia].
  - apply obeys_bind, spends_failurePath; [lia|]. intros f'' Hf''. apply obeys_ret. cbn. split; [done|lia].
Qed.

Lemma spends_handleAlert a :
  spends RAlert (handleAlert a) (MkBudget false fuel_alert) (fun _ q => b_held q = false).
Proof. by apply obeys_ret. Qed.

End Turns.

(** ** The tickers *)

(** The commands of the scheduler: those off the channels, and offers of jobs;
    the reclaimer stays off the channels.  A panic follows only an offer that
    found the channel closed. *)
Definition ticker_cmd (c : cmd) : Prop :=
  match c with TrySendJob _ _ => True | c => quiet_cmd c end.

Definition saw_closed (b : bool) (c : cmd) : reply c -> bool :=
  match c with
  | TrySendJob _ _ => fun r => match r with SendOnClosed => true | _ => b end
  | _ => fun _ => b
  end.

(** [p] issues commands of [cmds]; [b] tells whether it saw the channel closed. *)
Definition ticks {A} (cmds : cmd -> Prop) (p : prog A) (b : bool) (Φ : A -> bool -> Prop) : Prop :=
  interp (I_auto (fun _ => cmds) saw_closed any_reply) (fun b => b = true) p b Φ.

Section Tickers.
Context {U : UuidLib}.

Lemma ticks_mono {A} cmds (p : prog A) b (Φ1 Φ2 : A -> bool -> Prop) :
  ticks cmds p b Φ1 -> (forall a b', Φ1 a b' -> Φ2 a b') -> ticks cmds p b Φ2.
Proof. intros H HΦ. revert H. apply interp_mono; [apply I_auto_mono|done]. Qed.

Lemma ticks_bind {A B} cmds (p : prog A) (f : A -> prog B) b Φ :
  ticks cmds p b (fun a b' => ticks cmds (f a) b' Φ) -> ticks cmds (p ≫= f) b Φ.
Proof. apply interp_bind_2, I_auto_mono. Qed.

Lemma ticks_weaken {A} (cmds cmds' : cmd -> Prop) (p : prog A) b Φ :
  (forall c, cmds c -> cmds' c) -> ticks cmds p b Φ -> ticks cmds' p b Φ.
Proof.
  intros Hc. revert b. unfold ticks. induction p as [a|m|c k IH]; intros b; cbn; [done|done|].
  intros [H Hk]. split; [by apply Hc|]. intros r Hr. by apply IH, Hk.
Qed.

(** The success workers may only do what is off the channels. *)
Lemma ticks_spends {A} (p : prog A) q (Φ : A -> budget -> Prop) b :
  spends RSuccess p q Φ -> ticks quiet_cmd p b (fun _ b' => b' = b).
Proof.
  revert q. unfold ticks. induction p as [a|m|c k IH]; intros q; cbn; [done|done|].
  intros [[Hm _] Hk]. assert (quiet_cmd c) as Hc by (destruct c; cbn in *; naive_solver). split; [done|].
  intros r _. replace (saw_closed b c r) with b by (by destruct c). eapply IH, Hk. by destruct c.
Qed.

Lemma ticks_quiet {A} n (p : prog A) b : quiet n p -> ticks quiet_cmd p b (fun _ b' => b' = b).
Proof. intros H. exact (ticks_spends p _ _ b (H RSuccess (MkBudget false n) (Nat.le_refl _))). Qed.

Lemma ticks_then {A B} n (p : prog A) (f : A -> prog B) Φ :
  quiet n p -> (forall a, ticks ticker_cmd (f a) false Φ) -> ticks ticker_cmd (p ≫= f) false Φ.
Proof.
  intros Hp Hf. apply ticks_bind. eapply ticks_mono.
  - eapply ticks_weaken; [|by eapply ticks_quiet]. by intros [].
  - intros a b' ->. apply Hf.
Qed.

Lemma ticks_ret {A} cmds (a : A) b (Φ : A -> bool -> Prop) : Φ a b -> ticks cmds (mret a) b Φ.
Proof. done. Qed.

Lemma ticks_range {A} (xs : list A) body :
  (forall x, ticks ticker_cmd (body x) false (fun _ b => b = false)) ->
  ticks ticker_cmd (range xs body) false (fun _ b => b = false).
Proof.
  intros H. induction xs as [|x xs IH]; cbn [range]; [by apply ticks_ret|].
  apply ticks_bind. eapply ticks_mono; [apply H|]. by intros [] b ->.
Qed.

Lemma ticks_dispatch m : ticks ticker_cmd (dispatch m) false (fun _ b => b = false).
Proof.
  unfold dispatch. destruct (uuid_Parse m) as [e|id]; [by apply ticks_ret|].
  apply ticks_bind. split; [done|]. intros r _. destruct r; try done.
  apply (ticks_then 1); [by apply quiet_op|]. intros now.
  apply (ticks_then 1).
  { unfold addJitter, rand_Int63n. case_decide; [done|]. by apply quiet_then, quiet_op. }
  intros jitter. apply (ticks_then 6); [apply quiet_Schedule|]. intros ?. by apply ticks_ret.
Qed.

Lemma ticks_doWork sc : ticks ticker_cmd (doWorkWithReliability sc) false (fun _ b => b = false).
Proof.
  unfold doWorkWithReliability. apply (ticks_then 1); [by apply quiet_op|]. intros now.
  apply (ticks_then 1); [unfold FetchAndMoveToInflight; quiet|].
  intros [l err]. destruct err; [by apply ticks_ret|]. case_decide; [by apply ticks_ret|].
  apply ticks_range, ticks_dispatch.
Qed.

Lemma ticks_reclaim rc : ticks quiet_cmd (reclaim rc) false (fun _ b => b = false).
Proof.
  apply (ticks_quiet 2). unfold reclaim, ReclaimMonitors. apply quiet_cmd_first; [done|]. intros now.
  apply (quiet_first 1); [quiet|lia|]. intros [? ?]. quiet.
Qed.

End Tickers.

(** ** What a command does to the channels *)

Definition keeps {A} (ch ch' : chan A) : Prop :=
  ch_closed ch' = ch_closed ch /\ ch_cap ch' = ch_cap ch /\
  (ch_closed ch = true -> ch_buf ch' = ch_buf ch) /\
  (length (ch_buf ch) <= length (ch_buf ch'))%nat.

Lemma keeps_refl {A} (ch : chan A) : keeps ch ch.
Proof. by split_and!. Qed.

Lemma keeps_push {A} (ch : chan A) x : ch_closed ch = false -> keeps ch (ch_push ch x).
Proof. intros H. split_and!; [done|done|by rewrite H|]. cbn. rewrite length_app. lia. Qed.
#[export] Hint Resolve keeps_refl keeps_push : monit.

(** What the elements of the channels weigh. *)
Definition load (p : proc) : nat :=
  w_job * length (ch_buf (jobChan p)) + w_result * length (ch_buf (resultChan p)) +
  w_success * length (ch_buf (successChan p)) + w_failure * length (ch_buf (failureChan p)) +
  w_alert * length (ch_buf (alertChan p)).

(** The capacities. *)
Definition caps (p : proc) : list nat :=
  [ch_cap (jobChan p); ch_cap (resultChan p); ch_cap (successChan p); ch_cap (failureChan p);
   ch_cap (alertChan p); sem_cap p].

(** The channels and the semaphore hold at least one element, as in every
    process that is started with a loaded configuration (Shutdown: [startable]). *)
Definition roomy (p : proc) : Prop := Forall (lt 0%nat) (caps p).

Record keeps_channels (p p' : proc) : Prop := {
  kp_job : keeps (jobChan p) (jobChan p');
  kp_result : keeps (resultChan p) (resultChan p');
  kp_success : keeps (successChan p) (successChan p');
  kp_failure : keeps (failureChan p) (failureChan p');
  kp_alert : keeps (alertChan p) (alertChan p');
  kp_cap : sem_cap p' = sem_cap p
}.

Lemma keeps_caps p p' : keeps_channels p p' -> caps p' = caps p.
Proof.
  intros [(_ & Kj & _) (_ & Kr & _) (_ & Ks & _) (_ & Kf & _) (_ & Ka & _) Kc]. unfold caps.
  by rewrite Kj, Kr, Ks, Kf, Ka, Kc.
Qed.

Lemma caps_sem p p' : caps p' = caps p -> sem_cap p' = sem_cap p.
Proof. by intros [= _ _ _ _ _ H]. Qed.

Section Exec.
Context {S : Services}.

(** A command that is off the channels and the semaphore changes neither. *)
Lemma exec_quiet c w p w' p' r :
  quiet_cmd c -> exec c (MkSys w p) = Reply (MkSys w' p') r -> p' = p.
Proof.
  intros Hc He. destruct c; try done; cbn [exec] in He; try (by apply exec_ext in He as [_ ?]).
  by injection He as _ <- _.
Qed.

Lemma exec_try_cases x j w p w' p' r :
  exec_try_send_job x j (MkSys w p) = Reply (MkSys w' p') r ->
  (p' = p /\ (r = SendOnClosed -> ch_closed (jobChan p) = true)) \/
  (r = Sent /\ ch_closed (jobChan p) = false /\ p' = set_jobChan (fun ch => ch_push ch j) p).
Proof.
  unfold exec_try_send_job. cbn [sw sp].
  destruct (ch_closed (jobChan p)) eqn:Ec, (ch_room (jobChan p)), (ctx_done x w); cbn;
    try destruct (select_first w) as [w1 []]; intros [= <- <- <-]; naive_solver.
Qed.

(** No command closes a channel or takes from one, and nothing enters a
    channel that is closed. *)
Lemma exec_keeps c w p w' p' r :
  exec c (MkSys w p) = Reply (MkSys w' p') r -> keeps_channels p p'.
Proof.
  intros He. destruct c; cbn [exec] in He;
    try (apply exec_ext in He as [_ ->]; by split);
    try (apply exec_send_cases in He as [(-> & H & [= -> ->])|(-> & H & [= -> ->])]; split; cbn in *; auto with monit; fail).
  - injection He as <- <- <-. by split.
  - apply exec_try_cases in He as [[-> _]|(_ & H & ->)]; split; cbn; auto with monit.
  - case_decide; [|done]. injection He as <- <- <-. by split.
  - case_decide; [|done]. injection He as <- <- <-. by split.
Qed.

(** The reply to a send tells whether the channel is open. *)
Lemma exec_reply c w p w' p' r :
  exec c (MkSys w p) = Reply (MkSys w' p') r ->
  match c return reply c -> Prop with
  | SendResult _ => fun b => b = negb (ch_closed (resultChan p))
  | SendSuccess _ => fun b => b = negb (ch_closed (successChan p))
  | SendFailure _ => fun b => b = negb (ch_closed (failureChan p))
  | SendAlert _ => fun b => b = negb (ch_closed (alertChan p))
  | _ => fun _ => True
  end r.
Proof.
  intros He. destruct c; try done; cbn [exec] in He;
    apply exec_send_cases in He as [(-> & H & _)|(-> & H & _)]; cbn in H; by rewrite H.
Qed.

(** A command of a stage pays for what it adds to the load, and moves the slots
    of the semaphore as its budget says. *)
Lemma exec_pays ρ c w p w' p' r q :
  affords ρ q c -> exec c (MkSys w p) = Reply (MkSys w' p') r ->
  (load p' + b_fuel (charge q c r) < load p + b_fuel q)%nat /\
  (sem_used p' + weight (b_held q) = sem_used p + weight (b_held (charge q c r)))%nat /\
  (sem_used p <= sem_cap p -> sem_used p' <= sem_cap p')%nat.
Proof.
  intros [Hm Hp] He. destruct c; cbn [exec] in He; cbn [charge b_fuel b_held held_after may price] in *;
    try (apply exec_ext in He as [_ ->]; split_and!; [lia|done|done]);
    try (apply exec_send_cases in He as [(-> & H & [= -> ->])|(-> & H & [= -> ->])]; cbn in *;
      unfold load; cbn; rewrite ?length_app; cbn; split_and!; (done || lia)).
  - injection He as <- <- <-. split_and!; [lia|done|done].
  - done.
  - destruct Hm as [_ ->]. case_decide; [|done]. injection He as <- <- <-. unfold load; cbn in *. split_and!; lia.
  - destruct Hm as [_ ->]. case_decide; [|done]. injection He as <- <- <-. unfold load; cbn in *. split_and!; lia.
Qed.

(** A command of a ticker, which may only offer jobs. *)
Lemma exec_ticker b c w p w' p' r :
  ticker_cmd c -> exec c (MkSys w p) = Reply (MkSys w' p') r ->
  sem_used p' = sem_used p /\ (ch_closed (jobChan p) = true -> load p' = load p) /\
  (saw_closed b c r = true -> b = true \/ ch_closed (jobChan p) = true) /\
  resultChan p' = resultChan p /\ successChan p' = successChan p /\
  failureChan p' = failureChan p /\ alertChan p' = alertChan p.
Proof.
  intros Hc He. destruct c; try done;
    try (apply exec_quiet in He as ->; [split_and!; auto|done]).
  cbn [exec] in He. apply exec_try_cases in He as [[-> H]|(-> & H & ->)]; cbn.
  - split_and!; try done. destruct r; auto.
  - split_and!; try done; [congruence|auto].
Qed.

End Exec.
