(* ===== verification/Drain.v ===== *)
(** * The running pipeline drains

    A pool in which nothing new is set off (no tick, no request, no time) comes
    to rest: every run of what was begun ends, whatever the servers reply and in
    whatever order the tasks run, and it ends only when no task is left and the
    channels are empty.  The stages pay for what they send (Budget); a tick or a
    request has no bound that is known beforehand, but its program is a
    well-founded tree.  Both are put together lexicographically ([lower]).
    With Delivery it follows that a monitor is back in the queue then. *)

From S2P Require Import Prelude AppError Types Redis Postgres Effects Rules Reference RedisStore.
From S2P Require Import Scheduler Security Http User MonitorJSON MonitorSvc Handlers Api Executor Result Pipeline Protocol Coherence Debt Delivery Budget.
From Stdlib Require Import Relation_Operators Lexicographic_Product Wf_nat.
From stdpp Require Import gmap list strings pretty sorting.
#[local] Open Scope Z_scope.

(** ** Orders *)

(** What is left of a program after a command. *)
Definition subterm {A} (p' p : prog A) : Prop :=
  match p with Op c k => exists r, p' = k r | _ => False end.

(** One of the programs runs a command, or is gone. *)
Inductive fewer {A} : list (prog A) -> list (prog A) -> Prop :=
| fewer_step p p' l : subterm p' p -> fewer (p' :: l) (p :: l)
| fewer_end p l : fewer l (p :: l)
| fewer_cons p l l' : fewer l' l -> fewer (p :: l') (p :: l).

Lemma fewer_wf A : well_founded (@fewer A).
Proof.
  intros l. induction l as [|p l IHl]; [constructor; intros l' H; inversion H|].
  revert p. induction IHl as [l Hl IHl]. intros p. induction p as [a|m|c k IHp]; constructor; intros l' H;
    inversion H as [p0 p1 l0 Hs|p0 l0|p0 l0 l1 Hf]; subst;
    try (exact (Acc_intro _ Hl)); try (by apply IHl).
  destruct Hs as [r ->]. apply IHp.
Qed.

Lemma fewer_app {A} (l0 l1 l l' : list (prog A)) : fewer l' l -> fewer (l0 ++ l' ++ l1) (l0 ++ l ++ l1).
Proof.
  intros H. induction l0 as [|p l0 IH]; [|by apply fewer_cons].
  cbn. induction H as [p p' l Hs|p l|p l l' H IH]; cbn; by constructor.
Qed.

(** First the programs without a budget, then the number. *)
Definition lower {A} : list (prog A) * nat -> list (prog A) * nat -> Prop := slexprod _ _ fewer lt.

Lemma lower_wf A : well_founded (@lower A).
Proof. apply wf_slexprod; [apply fewer_wf|apply lt_wf]. Qed.

Section Drain.
Context {U : UuidLib} {UL : UuidLaws U} {L : JwtLib} {V : Validator}
        {S : Services} {SL : ServiceLaws S}.

(** ** Work that was begun *)

(** How many elements wait in the channels of a process. *)
Definition backlog (p : proc) : nat :=
  length (ch_buf (jobChan p)) + length (ch_buf (resultChan p)) + length (ch_buf (successChan p)) +
  length (ch_buf (failureChan p)) + length (ch_buf (alertChan p)).

(** The steps of a pool in which no tick and no request starts: a command of a
    task, the end of one, and the start of one that takes an element from a
    channel. *)
Inductive works : pool S -> option event -> pool S -> Prop :=
| works_cmd w ps ts i j t c k p w' p' r :
    ts !! j = Some (i, t) -> task_step t c k -> ps !! i = Some p ->
    exec c (MkSys w p) = Reply (MkSys w' p') r ->
    works (MkPool w ps ts) (Some (existT c r)) (MkPool w' (<[i := p']> ps) (<[j := (i, k r)]> ts))
| works_take w ps ts i p p' t :
    ps !! i = Some p -> start p p' t -> (backlog p' < backlog p)%nat ->
    works (MkPool w ps ts) None (MkPool w (<[i := p']> ps) (ts ++ [(i, t)]))
| works_end w ps ts i j t o :
    ts !! j = Some (i, t) -> task_end t o ->
    works (MkPool w ps ts) None (MkPool w ps (replace j ((fun t' => (i, t')) <$> o) ts)).

Lemma works_step P e P' : works P e P' -> step P e P'.
Proof using. intros []; econstructor; eauto. Qed.

(** Every run of such steps from [P], of which those that are not [permitted]
    are not considered, is finite, and where it can go on no further [Φ]
    holds. *)
Inductive settles (permitted : event -> Prop) (Φ : pool S -> Prop) (P : pool S) : Prop :=
| settled : (forall e P', ~ works P e P') -> Φ P -> settles permitted Φ P
| settling :
    (exists e P', works P e P') ->
    (forall e P', works P e P' -> Forall permitted (option_list e) -> settles permitted Φ P') ->
    settles permitted Φ P.

(** At rest: no task, nothing in the channels, no slot taken. *)
Definition drained (P : pool S) : Prop :=
  pl_tasks P = [] /\ Forall (fun p => backlog p = 0%nat /\ sem_used p = 0%nat) (pl_procs P).

(** ** The tasks and what they may still do *)

Inductive stage := Ticking | Spending (ρ : role) (q : budget).

(** A program that only offers jobs, as ticks do, or stays off the channels. *)
Definition offers (p : prog unit) : Prop :=
  obeys (Q := unit) (fun _ => ticker_cmd) (fun _ _ _ => tt) open_reply p tt (fun _ _ => True).

Definition on_stage (t : task) (s : stage) : Prop :=
  match s, t with
  | Ticking, TWork p => offers p
  | Ticking, _ => False
  | Spending ρ q, TJob p => spends ρ p q job_done
  | Spending ρ q, (TCheck p | TWork p) => spends ρ p q (fun _ _ => True)
  end.

Definition cost (s : stage) : nat :=
  match s with Ticking => 0 | Spending _ q => Datatypes.S (b_fuel q) end.

Definition tree (x : (nat * task) * stage) : option (prog unit) :=
  match x with ((_, TWork p), Ticking) => Some p | _ => None end.

(** The measure of a pool whose tasks are at these stages. *)
Definition size (ps : list proc) (l : list ((nat * task) * stage)) : list (prog unit) * nat :=
  (omap tree l, (sum_of load ps + sum_of (fun x => cost x.2) l)%nat).

Definition begun (P : pool S) (l : list ((nat * task) * stage)) : Prop :=
  pl_tasks P = l.*1 /\ Forall (fun x => on_stage x.1.2 x.2) l.

Lemma ticks_offers (cmds : cmd -> Prop) (p : prog unit) Φ :
  (forall c, cmds c -> ticker_cmd c) -> Budget.ticks cmds p false Φ -> offers p.
Proof using.
  intros Hc. unfold Budget.ticks, offers, obeys. induction p as [a|m|c k IH]; cbn; [done|done|].
  intros [H Hk]. split; [by apply Hc|]. intros r Hr. apply IH.
  assert (saw_closed false c r = false) as E by (destruct c; try done; by destruct r).
  rewrite <- E. by apply Hk.
Qed.

Lemma returns_offers (p : prog unit) Φ : returns p Φ -> offers p.
Proof using.
  unfold returns, offers, obeys. induction p as [a|m|c k IH]; cbn; [done|done|].
  intros [H Hk]. split; [by destruct c|]. intros r _. by apply IH, Hk.
Qed.

(** A task that starts is paid for by what it takes. *)
Lemma start_on_stage p p' t :
  start p p' t ->
  exists s, on_stage t s /\ (load p' + cost s <= load p)%nat /\ ((backlog p' < backlog p)%nat -> load p' + cost s < load p)%nat /\
    (s = Ticking -> p' = p).
Proof using.
  intros H. destruct H as [sc p|rc p|ts rt r p Hrt|j l p Hb|r l p Hb|r l p Hb|r l p Hb|a l p Hb].
  1-3: exists Ticking; split; [|cbn; split_and!; [lia|lia|done]].
  1: by eapply ticks_offers, ticks_doWork.
  1: eapply ticks_offers, ticks_reclaim; by intros [].
  1: eapply returns_offers, (returns_bind _ _ _ (fun _ => True)); [by eapply public_route|intros ? _; by apply returns_ret].
  all: match goal with
       | |- context [handleJob] => exists (Spending RWorker (MkBudget false fuel_job)); split; [apply spends_handleJob|]
       | |- context [route] => exists (Spending RRouter (MkBudget false fuel_route)); split;
           [eapply obeys_mono; [apply spends_route|done]|]
       | |- context [handleSuccess] => exists (Spending RSuccess (MkBudget false fuel_success)); split;
           [eapply obeys_mono; [apply spends_handleSuccess|done]|]
       | |- context [handleFailure] => exists (Spending RFailure (MkBudget false fuel_failure)); split;
           [eapply obeys_mono; [apply spends_handleFailure|done]|]
       | _ => exists (Spending RAlert (MkBudget false fuel_alert)); split;
           [eapply obeys_mono; [apply spends_handleAlert|done]|]
       end; unfold load, backlog, cost, b_fuel; cbn -[Nat.mul]; rewrite Hb; cbn [tail length];
       (split_and!; [lia|lia|done]).
Qed.

(** ** Every step of it lowers the measure *)

Lemma lower_put ps ps' l j x ys :
  l !! j = Some x ->
  fewer (omap tree ys) (omap tree [x]) \/
  omap tree ys = omap tree [x] /\
    (sum_of load ps' + sum_of (fun x => cost x.2) ys < sum_of load ps + cost x.2)%nat ->
  lower (size ps' (put j ys l)) (size ps l).
Proof using.
  intros Hj H. unfold size, lower. pose proof (sum_of_put (fun x => cost x.2) l j x ys Hj) as Hc.
  assert (omap tree l = omap tree (take j l) ++ omap tree [x] ++ omap tree (drop (Datatypes.S j) l)) as ->.
  { rewrite <- (take_drop_middle l j x Hj) at 1. rewrite omap_app. f_equal.
    change (x :: drop (Datatypes.S j) l) with ([x] ++ drop (Datatypes.S j) l). apply omap_app. }
  unfold put. rewrite !omap_app. destruct H as [H|[-> H]]; [by apply left_slex, fewer_app|].
  apply right_slex. unfold put in Hc. cbn beta in Hc. lia.
Qed.

Lemma begun_put P P' l j ys :
  begun P l -> pl_tasks P' = put j ys.*1 (pl_tasks P) -> Forall (fun x => on_stage x.1.2 x.2) ys ->
  begun P' (put j ys l).
Proof using. intros [Ht Hf] E Hy. split; [by rewrite E, Ht, fmap_put|by apply Forall_put]. Qed.

Lemma begun_lookup P l j i t :
  begun P l -> pl_tasks P !! j = Some (i, t) -> exists s, l !! j = Some ((i, t), s) /\ on_stage t s.
Proof using.
  intros [Ht Hf] Hj. rewrite Ht, list_lookup_fmap in Hj.
  apply fmap_Some in Hj as ([it s] & E & [= <-]). exists s. split; [done|]. exact (Forall_lookup_1 _ _ _ _ Hf E).
Qed.

(** The stage after a command. *)
Definition stage_next (s : stage) (c : cmd) (r : reply c) : stage :=
  match s with Ticking => Ticking | Spending ρ q => Spending ρ (charge q c r) end.

Lemma on_stage_step t c k s r :
  on_stage t s -> task_step t c k -> open_reply c r ->
  on_stage (k r) (stage_next s c r) /\
  match s with
  | Ticking => forall i, fewer (omap tree [((i, k r), s)]) (omap tree [((i, t), s)])
  | Spending ρ q => affords ρ q c
  end.
Proof using.
  intros Ht Hs Hr. destruct s as [|ρ q], Hs as [c k|c k|c k]; cbn in Ht |- *; try done;
    destruct Ht as [Ha Hk]; (split; [by apply Hk|]); try done.
  intros i. apply fewer_step. by exists r.
Qed.

Lemma cmd_lower P l i j t c k p w' p' r :
  begun P l -> pl_tasks P !! j = Some (i, t) -> task_step t c k -> pl_procs P !! i = Some p ->
  exec c (MkSys (pl_world P) p) = Reply (MkSys w' p') r -> open_reply c r ->
  exists l', begun (MkPool w' (<[i := p']> (pl_procs P)) (<[j := (i, k r)]> (pl_tasks P))) l' /\
    lower (size (<[i := p']> (pl_procs P)) l') (size (pl_procs P) l).
Proof using.
  intros Hb Hj Hts Hp He Hr. destruct (begun_lookup P l j i t Hb Hj) as (s & Hl & Hs).
  destruct (on_stage_step t c k s r Hs Hts Hr) as [Hk Hn].
  exists (put j [((i, k r), stage_next s c r)] l). split.
  - apply (begun_put P); [done| |by constructor]. symmetry. exact (put_insert j _ (i, k r) _ Hj).
  - eapply lower_put; [exact Hl|]. destruct s as [|ρ q]; [left; apply Hn|right].
    split; [by destruct t as [| |p1], (k r)|]. destruct (exec_pays _ _ _ _ _ _ _ _ Hn He) as (Hld & _).
    pose proof (sum_of_insert load (pl_procs P) i p p' Hp). cbn -[load charge] in *. unfold sum_of in *. cbn -[load charge] in *. lia.
Qed.

Lemma take_lower P l i p p' t :
  begun P l -> pl_procs P !! i = Some p -> start p p' t ->
  exists l', begun (MkPool (pl_world P) (<[i := p']> (pl_procs P)) (pl_tasks P ++ [(i, t)])) l' /\
    ((backlog p' < backlog p)%nat -> lower (size (<[i := p']> (pl_procs P)) l') (size (pl_procs P) l)).
Proof using UL.
  intros [Ht Hf] Hp Hst. destruct (start_on_stage p p' t Hst) as (s & Hs & _ & Hlt & Htick).
  exists (l ++ [((i, t), s)]). split.
  - split; cbn [pl_tasks]; [by rewrite Ht, fmap_app|]. apply Forall_app. split; [done|]. by constructor.
  - intros Hq. specialize (Hlt Hq). unfold size, lower. rewrite omap_app, sum_of_snoc.
    assert (omap tree [((i, t), s)] = []) as ->.
    { destruct s; [rewrite Htick in Hq by done; lia|]. by destruct t. }
    rewrite app_nil_r. apply right_slex. pose proof (sum_of_insert load (pl_procs P) i p p' Hp). cbn [snd] in *. lia.
Qed.

Lemma end_lower P l i j t o :
  begun P l -> pl_tasks P !! j = Some (i, t) -> task_end t o ->
  exists l', begun (MkPool (pl_world P) (pl_procs P) (replace j ((fun t' => (i, t')) <$> o) (pl_tasks P))) l' /\
    lower (size (pl_procs P) l') (size (pl_procs P) l).
Proof using.
  intros Hb Hj Hend. destruct (begun_lookup P l j i t Hb Hj) as (s & Hl & Hs).
  destruct Hend as [|m| |]; cbn [replace fmap option_fmap option_map].
  2: { destruct s as [|ρ q]; [done|]. destruct Hs as [_ Hq].
       exists (put j [((i, TCheck (httpCheck m)), Spending RCheck (MkBudget true fuel_check))] l). split.
       - apply (begun_put P); [done|symmetry; exact (put_insert j _ (i, TCheck (httpCheck m)) _ Hj)|].
         constructor; [|done]. eapply obeys_mono; [apply spends_httpCheck|done].
       - eapply lower_put; [exact Hl|]. right. split; [done|]. unfold sum_of. cbn. lia. }
  all: rewrite <- put_delete; exists (put j [] l); (split; [by apply (begun_put P)|]);
    (eapply lower_put; [exact Hl|]); (destruct s as [|ρ q]; [left|right]); try done; try (apply fewer_end);
    (split; [done|]); unfold sum_of; cbn; lia.
Qed.

(** ** Where no step is possible, nothing is left *)

(** What every reachable pool has. *)
Record ready (P : pool S) : Prop := {
  rd_begun : exists l, begun P l;
  rd_ok : exists g, pool_ok P g;
  rd_roomy : Forall roomy (pl_procs P);
  rd_housed : Forall (fun it => it.1 < length (pl_procs P))%nat (pl_tasks P)
}.

Lemma fresh_ready P : Pipeline.fresh P -> Forall roomy (pl_procs P) -> ready P.
Proof using.
  intros Hf Hr. pose proof Hf as [Ht _]. split; [exists []; by split|exists []; by apply fresh_ok|done|by rewrite Ht].
Qed.

Lemma start_caps p p' t : start p p' t -> caps p' = caps p.
Proof using. by intros []. Qed.

Lemma Forall_replace {A} (R : A -> Prop) j o l : Forall R l -> (forall x, o = Some x -> R x) -> Forall R (replace j o l).
Proof using. destruct o; cbn; intros Hl Ho; [apply Forall_insert; auto|by apply Forall_delete]. Qed.

Lemma ready_step P e P' : step P e P' -> ready P -> ready P'.
Proof using SL UL.
  intros Hs [[l Hl] [g Hok] Hr Hh].
  destruct (pool_ok_step P e P' g Hs Hok) as (g' & Hok' & _).
  destruct Hs as [w ps ts i j t c k p w' p' r Hj Hts Hp He|w ps ts i p p' t Hp Hst|w ps ts i j t o Hj Hend|w ps ts w' Hu];
    cbn [pl_procs pl_tasks] in *; (split; [|by exists g'|..]); cbn [pl_procs pl_tasks]; rewrite ?length_insert; try done.
  - destruct (pool_open_reply _ _ _ _ _ _ _ _ _ _ _ _ _ Hok Hj Hts Hp He) as [_ Hrep].
    destruct (cmd_lower _ l i j t c k p w' p' r Hl Hj Hts Hp He Hrep) as (l' & ? & _). by exists l'.
  - apply Forall_insert; [done|]. unfold roomy. rewrite (keeps_caps _ _ (exec_keeps _ _ _ _ _ _ He)).
    exact (Forall_lookup_1 _ _ _ _ Hr Hp).
  - apply Forall_insert; [done|]. exact (Forall_lookup_1 _ _ _ _ Hh Hj).
  - destruct (take_lower _ l i p p' t Hl Hp Hst) as (l' & ? & _). by exists l'.
  - apply Forall_insert; [done|]. unfold roomy. rewrite (start_caps _ _ _ Hst). exact (Forall_lookup_1 _ _ _ _ Hr Hp).
  - apply Forall_app. split; [done|]. constructor; [|done]. by eapply lookup_lt_Some.
  - destruct (end_lower _ l i j t o Hl Hj Hend) as (l' & ? & _). by exists l'.
  - apply Forall_replace; [done|]. intros x Hx. destruct o; inversion Hx; subst. exact (Forall_lookup_1 _ _ _ _ Hh Hj).
  - exists l. by destruct Hl.
Qed.

Lemma ready_steps P tr P' : steps P tr P' -> ready P -> ready P'.
Proof using SL UL. induction 1; [done|]. eauto using ready_step. Qed.

(** A command finds empty channels: it goes through, unless it waits for the
    semaphore. *)
Lemma exec_goes c w p q :
  roomy p -> backlog p = 0%nat -> (g_held q <= sem_used p)%nat -> allowed q c ->
  (exists w' p' r, exec c (MkSys w p) = Reply (MkSys w' p') r) \/ (g_held q = 0%nat /\ (sem_cap p <= sem_used p)%nat).
Proof using.
  intros Hr Hq Hh [_ Ha]. unfold roomy, caps in Hr. unfold backlog in Hq.
  apply Forall_cons_1 in Hr as [_ Hr]. repeat (apply Forall_cons_1 in Hr as [? Hr]).
  assert (forall A get set (x : A), length (ch_buf (get p)) = 0%nat -> (0 < ch_cap (get p))%nat ->
    exists w' p' r, exec_send get set x (MkSys w p) = Reply (MkSys w' p') r) as Hsend.
  { intros A get set x Hn Hc. unfold exec_send, ch_room; cbn [sp sw]. rewrite Hn.
    rewrite bool_decide_eq_true_2 by done. destruct (ch_closed _); eauto. }
  destruct c; cbn [exec]; try (left; apply Hsend; [lia|done]);
    try (left; unfold ext; cbn [sp sw]; match goal with |- context [let '(_, _) := ?x in _] => destruct x end; by eauto).
  - left. by eauto.
  - left. unfold exec_try_send_job; cbn [sp sw].
    destruct (ch_closed (jobChan p)), (ch_room (jobChan p)), (ctx_done x w); cbn;
      try destruct (select_first w) as [w1 []]; by eauto.
  - case_decide as D; cbn in *; [left; by eauto|right]. split; [done|lia].
  - case_decide as D; cbn in *; [left; by eauto|lia].
Qed.

Definition can_go (P : pool S) : Prop := exists e P', works P e P'.

(** What waits in a channel can be taken. *)
Lemma backlog_taken P : Forall (fun p => backlog p = 0%nat) (pl_procs P) \/ can_go P.
Proof using.
  destruct (decide (Forall (fun p => backlog p = 0%nat) (pl_procs P))) as [H|H]; [by left|right].
  apply not_Forall_Exists, Exists_exists in H as (p & Hp & Hq); [|apply _]. apply list_elem_of_lookup in Hp as [i Hi].
  assert (exists p' t, start p p' t /\ (backlog p' < backlog p)%nat) as (p' & t & Hst & Hlt).
  { cbn in Hq. unfold backlog in Hq.
    destruct (ch_buf (jobChan p)) eqn:Ej;
      [destruct (ch_buf (resultChan p)) eqn:Er; [destruct (ch_buf (successChan p)) eqn:Es;
         [destruct (ch_buf (failureChan p)) eqn:Ef; [destruct (ch_buf (alertChan p)) eqn:Ea; [done|]|]|]|]|];
      eexists _, _; (split; [econstructor; done|]); unfold backlog; cbn; rewrite ?Ej, ?Er, ?Es, ?Ef, ?Ea; cbn; lia. }
  destruct P as [w ps ts]. eexists _, _. by eapply works_take.
Qed.

(** A task has a step, unless it waits for the semaphore. *)
Lemma task_goes P g j i t q p :
  pool_ok P g -> Forall roomy (pl_procs P) -> Forall (fun p => backlog p = 0%nat) (pl_procs P) ->
  g !! j = Some ((i, t), q) -> pl_procs P !! i = Some p ->
  can_go P \/ (g_held q = 0%nat /\ (sem_cap p <= sem_used p)%nat).
Proof using.
  intros Hok Hr Hz Hg Hp. pose proof Hok as [Ht Hf Hps].
  assert (pl_tasks P !! j = Some (i, t)) as Hj by (by rewrite Ht, list_lookup_fmap, Hg).
  pose proof (Forall_lookup_1 _ _ _ _ Hf Hg) as Hq. cbn [fst snd] in Hq.
  assert (g_held q <= sem_used p)%nat as Hle.
  { destruct (Hps i p Hp) as (_ & <- & _). pose proof (sum_of_elem (slot_of i) g _ (list_elem_of_lookup_2 _ _ _ Hg)) as E.
    unfold slots. unfold slot_of in E at 1. cbn in E. by rewrite decide_True in E. }
  assert ((exists o, task_end t o) \/ exists c k, task_step t c k /\ allowed q c) as [[o Ho]|(c & k & Hs & Ha)].
  { destruct t as [[[m|]|m|c k]|[[]|m|c k]|[[]|m|c k]]; cbn in Hq; destruct Hq as [_ Hq]; try done;
      try (left; eexists; first [apply end_job_some|apply end_job_none|apply end_check|apply end_work]; fail); right; eexists _, _; (split; [constructor|by destruct Hq]). }
  - left. destruct P as [w ps ts]. eexists _, _. by eapply works_end.
  - destruct (exec_goes c (pl_world P) p q (Forall_lookup_1 _ _ _ _ Hr Hp) (Forall_lookup_1 _ _ _ _ Hz Hp) Hle Ha)
      as [(w' & p' & r & He)|H]; [left|by right].
    destruct P as [w ps ts]. eexists _, _. by eapply works_cmd.
Qed.

(** A pool where no step is possible is drained: a task that waits for a slot
    waits for a check, which can go on. *)
Lemma ready_progress P : ready P -> drained P \/ can_go P.
Proof using.
  intros [_ [g Hok] Hr Hh]. destruct (backlog_taken P) as [Hz|]; [|by right].
  pose proof Hok as [Ht _ Hps]. assert (forall i t q j, g !! j = Some ((i, t), q) -> exists p, pl_procs P !! i = Some p) as Hhome.
  { intros i t q j Hj. apply lookup_lt_is_Some_2. apply (Forall_lookup_1 _ _ j (i, t) Hh). by rewrite Ht, list_lookup_fmap, Hj. }
  destruct g as [|[[i t] q] g'] eqn:Eg; [left|right].
  - split; [done|]. apply Forall_lookup. intros i p Hp. split; [exact (Forall_lookup_1 _ _ _ _ Hz Hp)|].
    by destruct (Hps i p Hp) as (_ & <- & _).
  - rewrite <- Eg in *. assert (g !! 0%nat = Some ((i, t), q)) as Hg by by rewrite Eg.
    destruct (Hhome _ _ _ _ Hg) as [p Hp].
    destruct (task_goes P g 0 i t q p Hok Hr Hz Hg Hp) as [|[_ Hfull]]; [done|].
    pose proof (Forall_lookup_1 _ _ _ _ Hr Hp) as Hrp. unfold roomy, caps in Hrp.
    repeat (apply Forall_cons_1 in Hrp as [? Hrp]). destruct (Hps i p Hp) as (_ & Hsl & _).
    assert (0 < slots i g)%nat as ([[i' t'] q'] & [j' Hj']%list_elem_of_lookup & Hpos)%sum_of_pos by lia.
    unfold slot_of in Hpos. cbn in Hpos. case_decide as D; [subst i'|lia].
    destruct (task_goes P g j' i t' q' p Hok Hr Hz Hj' Hp) as [|[H0' _]]; [done|lia].
Qed.

Lemma works_lower P e P' l :
  works P e P' -> ready P -> begun P l ->
  exists l', begun P' l' /\ lower (size (pl_procs P') l') (size (pl_procs P) l).
Proof using SL UL.
  intros Hw [_ [g Hok] _ _] Hl.
  destruct Hw as [w ps ts i j t c k p w' p' r Hj Hts Hp He|w ps ts i p p' t Hp Hst Hlt|w ps ts i j t o Hj Hend].
  - destruct (pool_open_reply _ _ _ _ _ _ _ _ _ _ _ _ _ Hok Hj Hts Hp He) as [_ Hrep].
    exact (cmd_lower _ l i j t c k p w' p' r Hl Hj Hts Hp He Hrep).
  - destruct (take_lower _ l i p p' t Hl Hp Hst) as (l' & ? & Hlow). exists l'. split; [done|by apply Hlow].
  - exact (end_lower _ l i j t o Hl Hj Hend).
Qed.

Lemma drained_stuck P e P' : drained P -> ~ works P e P'.
Proof using.
  intros [Ht Hz] Hw. destruct Hw as [w ps ts i j t c k p w' p' r Hj|w ps ts i p p' t Hp Hst Hlt|w ps ts i j t o Hj];
    cbn [pl_tasks pl_procs] in *; [by rewrite Ht in Hj| |by rewrite Ht in Hj].
  apply (Forall_lookup_1 _ _ _ _ Hz) in Hp as [? _]. lia.
Qed.

(** The pool comes to rest, with what every run of its steps keeps. *)
Lemma ready_settles permitted (J Φ : pool S -> Prop) P :
  (forall Q e Q', step Q e Q' -> Forall permitted (option_list e) -> ready Q -> J Q -> J Q') ->
  (forall Q, drained Q -> ready Q -> J Q -> Φ Q) ->
  ready P -> J P -> settles permitted Φ P.
Proof using SL UL.
  intros HJ HΦ Hr. pose proof Hr as [[l Hl] _ _ _].
  remember (size (pl_procs P) l) as n eqn:En. revert P l Hl En Hr.
  induction (lower_wf unit n) as [n _ IH]. intros P l Hl -> Hr HP.
  destruct (ready_progress P Hr) as [Hd|Hgo].
  - apply settled; [|by apply HΦ]. intros e P'. by apply drained_stuck.
  - apply settling; [done|]. intros e P' Hw Hperm. pose proof (works_step _ _ _ Hw) as Hs.
    destruct (works_lower P e P' l Hw Hr Hl) as (l' & Hl' & Hlow).
    eapply IH; [exact Hlow|exact Hl'|done|by eapply ready_step|by eapply HJ].
Qed.

(** ** The theorems *)

(** C4: the pipeline drains.  From every state that a run of the pool reaches,
    whatever is in the channels and under way (checks, results, alerts, ticks,
    requests), if nothing new is set off then every continuation is finite,
    whatever the servers reply and however the tasks of however many processes
    interleave, and it stops only when no task is left, every channel is empty
    and every slot is free: nothing deadlocks, and nothing goes on for ever. *)
Theorem pipeline_drains P tr P' :
  Pipeline.fresh P -> Forall roomy (pl_procs P) -> steps P tr P' ->
  settles (fun _ => True) drained P'.
Proof using SL UL.
  intros Hf Hr Hs. apply (ready_settles _ (fun _ => True)); [done|done| |done].
  eapply ready_steps; [done|]. by apply fresh_ready.
Qed.

(** The queue has the monitor when nothing else can have it. *)
Lemma drained_tracked watched P qs :
  drained P -> tasks_follow (permits watched) (owing watched) (favourable watched) (may_end watched)
    (fun q => claims q = 0%nat) P qs ->
  remembered watched (pl_world P) (pl_procs P) qs -> uuid_String watched ∈ tracked (rview (pl_world P)).
Proof using.
  intros [Ht Hz] Hq [Hal _]. unfold tasks_follow in Hq. rewrite Ht in Hq. apply Forall2_nil_inv_l in Hq as ->.
  apply elem_of_tracked. destruct Hal as [H|[H|[H _]]]; [by left| |by right]. exfalso.
  apply sum_of_pos in H as (p & Hp & Hc). rewrite Forall_forall in Hz. destruct (Hz p Hp) as [Hq0 _].
  unfold backlog in Hq0. unfold carried, jobs_for, results_for in Hc.
  rewrite !(nil_length_inv (ch_buf _)) in Hc by lia. cbn in Hc. lia.
Qed.

(** C3: every check that was begun comes back to the queue.  A monitor that was
    in the queue or in a channel may be anywhere in the pipeline when nothing
    new is set off any more; every continuation ends, and then the monitor is
    in the queue again (scheduled, or in flight, from where the reclaimer
    schedules it), as long as nobody disables or deletes it, no final failure
    stops it, and the commands that schedule it do not fail. *)
Theorem monitor_returns watched P tr P' :
  begins watched P -> Forall roomy (pl_procs P) -> steps P tr P' -> Forall (is_undisturbed watched) tr ->
  uuid_String watched ∈ tracked (rview (pl_world P)) \/ (exists p, p ∈ pl_procs P /\ in_channel watched p) ->
  settles (is_undisturbed watched)
    (fun Q => drained Q /\ uuid_String watched ∈ tracked (rview (pl_world Q))) P'.
Proof using SL UL.
  intros Hb Hr Hs Hu Hin.
  apply (ready_settles _ (fun Q => exists tr, steps P tr Q /\ Forall (is_undisturbed watched) tr)).
  - intros Q e Q' Hstep Hperm _ (tr' & Hs' & Hu'). exists (tr' ++ option_list e).
    split; [|by apply Forall_app]. eapply steps_app; [done|].
    rewrite <- (app_nil_r (option_list e)). by eapply steps_cons, steps_nil.
  - intros Q Hd _ (tr' & Hs' & Hu'). split; [done|].
    destruct (run_remembers watched P tr' Q Hb Hs' Hu' Hin) as (qs & Hq & Hrem). by eapply drained_tracked.
  - eapply ready_steps; [done|]. apply fresh_ready; [by destruct Hb|done].
  - by exists tr.
Qed.

End Drain.

(** ** Witnesses *)

Section Witnesses.
#[local] Existing Instance Hex.lib.
#[local] Existing Instance Hex.laws.
#[local] Existing Instance RefWorld.services.
#[local] Existing Instance RefWorld.laws.
#[local] Existing Instance RefJwt.lib.
#[local] Existing Instance RefAPI.validator.

(** The job of a monitor was taken, its check sends the request: a slot is
    taken, and the monitor is not in the queue, only in flight. *)
Definition checking := drive (repeat 0%nat 7) (launch queued.2).
Definition begun_run : list event := queued.1 ++ checking.1.

Lemma checking_steps : steps queued.2 checking.1 checking.2.
Proof.
  exact (steps_started queued.2 (launch queued.2) checking.2 checking.1 (launch_steps queued.2)
    (drive_steps (repeat 0%nat 7) (launch queued.2))).
Qed.

Lemma begun_steps : steps due_pool begun_run checking.2.
Proof. exact (steps_app due_pool queued.2 checking.2 queued.1 checking.1 (rounds_steps 1 due_pool) checking_steps). Qed.

Lemma due_roomy : Forall roomy (pl_procs due_pool).
Proof. constructor; [|constructor]. unfold roomy. cbn. repeat constructor; lia. Qed.

Lemma pipeline_drains_witness :
  running_checks 0 checking.2 = 1%nat /\ length (pl_tasks checking.2) = 1%nat /\
  settles (fun _ => True) drained checking.2.
Proof.
  split; [vm_compute; reflexivity|]. split; [vm_compute; reflexivity|].
  exact (pipeline_drains due_pool begun_run checking.2 (bg_fresh _ _ due_begins) due_roomy begun_steps).
Defined.

Lemma begun_undisturbed : Forall (is_undisturbed Demo.uid1) begun_run.
Proof. apply forallb_True. vm_compute. exact I. Qed.

(** While its check is under way, the monitor is in flight, with no job in a
    channel: the task of the check has it. *)
Lemma monitor_returns_witness :
  waiting Demo.uid1 due_pool = 1%nat /\ waiting Demo.uid1 checking.2 = 0%nat /\
  settles (is_undisturbed Demo.uid1)
    (fun Q => drained Q /\ uuid_String Demo.uid1 ∈ tracked (rview (pl_world Q))) checking.2.
Proof.
  split; [vm_compute; reflexivity|]. split; [vm_compute; reflexivity|].
  assert (uuid_String Demo.uid1 ∈ tracked (rview (pl_world due_pool))) as Ht
    by (apply elem_of_tracked; left; eexists; vm_compute; reflexivity).
  exact (monitor_returns Demo.uid1 due_pool begun_run checking.2 due_begins due_roomy begun_steps
    begun_undisturbed (or_introl Ht)).
Defined.

End Witnesses.
