(* ===== verification/Shutdown.v ===== *)
(** * The shutdown of a process

    The pipeline drains in the order of [Shutdown]: the invariant [phases]
    relates where the main goroutine is to which channels are closed, which
    goroutines are left and what the wait groups count.  From it and the
    budgets of the turns follow: nothing but the scheduler can panic; when
    [Shutdown] returns every channel is empty and every goroutine it waited
    for is gone; and it does return, after a bounded number of steps. *)

From S2P Require Import Prelude AppError Types Redis Postgres Effects Rules Reference RedisStore.
From S2P Require Import Scheduler Security Http Config Infra User MonitorSvc Handlers Executor Result Pipeline.
From S2P Require Import Container Budget.
From stdpp Require Import gmap list strings pretty sorting.
#[local] Open Scope Z_scope.

(** ** Goroutines with their budgets *)

Notation ann := (goroutine * budget)%type (only parsing).

Section Invariant.
Context {U : UuidLib} {S : Services}.

Definition tick_safe (cmds : cmd -> Prop) (jc : bool) (w : worker unit) : Prop :=
  match w with
  | Waiting => True
  | Busy p => exists b, (b = true -> jc = true) /\ ticks cmds p b (fun _ _ => True)
  end.

(** A turn within its budget. *)
Definition turn {A} (ρ : role) (n : nat) (w : worker A) (q : budget) (Φ : A -> budget -> Prop) : Prop :=
  match w with
  | Waiting => b_held q = false
  | Busy p => (b_fuel q <= n)%nat /\ spends ρ p q Φ /\ (ρ = RWorker \/ b_held q = false)
  end.

Definition free {A} (a : A) (q : budget) : Prop := b_held q = false.

(** What is known of a goroutine; [jc] tells whether the jobs are closed. *)
Definition g_ok (jc : bool) (x : ann) : Prop :=
  match x.1 with
  | GScheduler w => b_held x.2 = false /\ tick_safe ticker_cmd jc w
  | GReclaimer w => b_held x.2 = false /\ tick_safe quiet_cmd false w
  | GWorker w => turn RWorker fuel_job w x.2 job_done
  | GCheck p => (b_fuel x.2 <= fuel_check)%nat /\ spends RCheck p x.2 free
  | GRouter w => turn RRouter fuel_route w x.2 free
  | GClosing => b_held x.2 = false
  | GSuccess w => turn RSuccess fuel_success w x.2 free
  | GFailure w => turn RFailure fuel_failure w x.2 free
  | GAlert w => turn RAlert fuel_alert w x.2 free
  end.

(** What is still to be done by a goroutine. *)
Definition cost (x : ann) : nat :=
  match x.1 with
  | GScheduler _ | GReclaimer _ => 0
  | GCheck _ => 1 + b_fuel x.2
  | GClosing => 1
  | GRouter Waiting => 2
  | GRouter (Busy _) => 3 + b_fuel x.2
  | GWorker Waiting | GSuccess Waiting | GFailure Waiting | GAlert Waiting => 1
  | GWorker (Busy _) | GSuccess (Busy _) | GFailure (Busy _) | GAlert (Busy _) => 2 + b_fuel x.2
  end.

Definition is_worker (g : goroutine) : bool := match g with GWorker _ => true | _ => false end.
Definition is_check (g : goroutine) : bool := match g with GCheck _ => true | _ => false end.
Definition is_router (g : goroutine) : bool := match g with GRouter _ => true | _ => false end.
Definition is_closing (g : goroutine) : bool := match g with GClosing => true | _ => false end.
Definition is_success (g : goroutine) : bool := match g with GSuccess _ => true | _ => false end.
Definition is_failure (g : goroutine) : bool := match g with GFailure _ => true | _ => false end.
Definition is_alerter (g : goroutine) : bool := match g with GAlert _ => true | _ => false end.

Definition count (f : goroutine -> bool) (l : list ann) : nat := sum_of (fun x => weight (f x.1)) l.
Definition slots_held (l : list ann) : nat := sum_of (fun x => weight (b_held x.2)) l.
Definition costs (l : list ann) : nat := sum_of cost l.

Definition shut {A} (ch : chan A) : nat := weight (ch_closed ch).
Definition len {A} (ch : chan A) : nat := length (ch_buf ch).

Definition rank (m : stage) : nat :=
  match m with
  | Serving => 0 | StopServer => 1 | CloseJob => 2 | WaitWorkers => 3 | WaitHttp => 4 | CloseResult => 5
  | WaitResults => 6 | CloseAlert => 7 | WaitAlerts => 8 | CloseRedis => 9 | Returned => 10 | MainPanic _ => 0
  end.

(** The numbers of workers that were started. *)
Context (n_w n_s n_f n_a : nat).

(** Where the main goroutine is, which channels are closed and which goroutines
    are left.  A worker leaves its loop only when its channel is closed and
    empty, so that if one is missing there is nothing left to do. *)
Record phases (k : nat) (p : proc) (wg : wait_groups) (l : list ann) : Prop := {
  ph_job : shut (jobChan p) = 1%nat <-> (3 <= k)%nat;
  ph_result : shut (resultChan p) = 1%nat <-> (6 <= k)%nat;
  ph_alert : shut (alertChan p) = 1%nat <-> (8 <= k)%nat;
  ph_router : (count is_router l + count is_closing l <= 1)%nat;
  ph_failure : shut (failureChan p) = 1%nat <-> count is_router l = 0%nat;
  ph_success : shut (successChan p) = 1%nat <-> (count is_router l + count is_closing l = 0)%nat;
  ph_routed : count is_router l = 0%nat -> shut (resultChan p) = 1%nat /\ len (resultChan p) = 0%nat;
  ph_w : count is_worker l = n_w \/ shut (jobChan p) = 1%nat /\ len (jobChan p) = 0%nat;
  ph_s : count is_success l = n_s \/ shut (successChan p) = 1%nat /\ len (successChan p) = 0%nat;
  ph_f : count is_failure l = n_f \/ shut (failureChan p) = 1%nat /\ len (failureChan p) = 0%nat;
  ph_a : count is_alerter l = n_a \/ shut (alertChan p) = 1%nat /\ len (alertChan p) = 0%nat;
  ph_no_worker : (4 <= k)%nat -> count is_worker l = 0%nat;
  ph_no_check : (5 <= k)%nat -> count is_check l = 0%nat;
  ph_no_handler : (7 <= k)%nat -> (count is_success l + count is_failure l = 0)%nat;
  ph_no_alerter : (9 <= k)%nat -> count is_alerter l = 0%nat;
  ph_workerWg : workerWg wg = count is_worker l;
  ph_httpWg : httpWg wg = count is_check l;
  ph_resultWG : resultWG wg = (count is_success l + count is_failure l)%nat;
  ph_alertWG : alertWG wg = count is_alerter l
}.

Record inv (s : service) (l : list ann) : Prop := {
  i_gs : sv_gs s = l.*1;
  i_ok : Forall (g_ok (ch_closed (jobChan (sv_proc s)))) l;
  i_held : sem_used (sv_proc s) = slots_held l;
  i_cap : (sem_used (sv_proc s) <= sem_cap (sv_proc s))%nat;
  i_caps : Forall (lt 0%nat) (caps (sv_proc s));
  i_phases : phases (rank (sv_main s)) (sv_proc s) (sv_wg s) l;
  i_main : forall msg, sv_main s <> MainPanic msg
}.

(** What [Shutdown] may still have to do. *)
Definition measure (s : service) (l : list ann) : nat := load (sv_proc s) + costs l + (10 - rank (sv_main s)).

(** *** Lemmas on the parts *)

Lemma shut_le {A} (ch : chan A) : (shut ch <= 1)%nat.
Proof. unfold shut. destruct (ch_closed ch); cbn; lia. Qed.

Lemma shut_true {A} (ch : chan A) : shut ch = 1%nat <-> ch_closed ch = true.
Proof. unfold shut. by destruct (ch_closed ch). Qed.

Lemma shut_false {A} (ch : chan A) : shut ch = 0%nat <-> ch_closed ch = false.
Proof. unfold shut. by destruct (ch_closed ch). Qed.

Lemma keeps_shut {A} (ch ch' : chan A) : keeps ch ch' ->
  shut ch' = shut ch /\ (shut ch = 1%nat -> len ch' = len ch).
Proof. intros (Hc & _ & Hb & _). unfold shut, len. rewrite Hc. split; [done|]. intros H. rewrite Hb; [done|]. by apply shut_true. Qed.

Lemma count_put f l j x ys :
  l !! j = Some x -> (count f (put j ys l) + weight (f x.1) = count f l + count f ys)%nat.
Proof. intros H. apply (sum_of_put (fun x => weight (f x.1)) l j x ys H). Qed.

Lemma slots_put l j x ys :
  l !! j = Some x -> (slots_held (put j ys l) + weight (b_held x.2) = slots_held l + slots_held ys)%nat.
Proof. intros H. apply (sum_of_put (fun x => weight (b_held x.2)) l j x ys H). Qed.

Lemma costs_put l j x ys : l !! j = Some x -> (costs (put j ys l) + cost x = costs l + costs ys)%nat.
Proof. apply sum_of_put. Qed.

Lemma count_nil f : count f [] = 0%nat.
Proof. done. Qed.
Lemma count_cons f x l : count f (x :: l) = (weight (f x.1) + count f l)%nat.
Proof. done. Qed.
Lemma slots_cons x l : slots_held (x :: l) = (weight (b_held x.2) + slots_held l)%nat.
Proof. done. Qed.
Lemma slots_nil : slots_held [] = 0%nat.
Proof. done. Qed.
Lemma costs_cons x l : costs (x :: l) = (cost x + costs l)%nat.
Proof. done. Qed.
Lemma costs_nil : costs [] = 0%nat.
Proof. done. Qed.

End Invariant.

(** The counts after a replacement, as facts for [lia]. *)
Ltac counts H ys :=
  pose proof (count_put is_worker _ _ _ ys H); pose proof (count_put is_check _ _ _ ys H);
  pose proof (count_put is_router _ _ _ ys H); pose proof (count_put is_closing _ _ _ ys H);
  pose proof (count_put is_success _ _ _ ys H); pose proof (count_put is_failure _ _ _ ys H);
  pose proof (count_put is_alerter _ _ _ ys H); pose proof (slots_put _ _ _ ys H);
  pose proof (costs_put _ _ _ ys H);
  rewrite ?count_cons, ?count_nil, ?slots_cons, ?slots_nil, ?costs_cons, ?costs_nil in *;
  cbn [is_worker is_check is_router is_closing is_success is_failure is_alerter weight fst snd
       b_held b_fuel cost] in *.

Ltac shuts p :=
  pose proof (shut_le (jobChan p)); pose proof (shut_le (resultChan p));
  pose proof (shut_le (successChan p)); pose proof (shut_le (failureChan p));
  pose proof (shut_le (alertChan p)).

(** Each clause of [phases] from the same clause of [H], and the equations of
    the context. *)
Lemma shut_pop {A} (ch : chan A) : shut (pop ch) = shut ch.
Proof. done. Qed.
Lemma shut_close {A} (ch : chan A) : shut (close_ch ch) = 1%nat.
Proof. done. Qed.
Lemma len_close {A} (ch : chan A) : len (close_ch ch) = len ch.
Proof. done. Qed.

Ltac channels :=
  cbn [set_jobChan set_resultChan set_successChan set_failureChan set_alertChan
       jobChan resultChan successChan failureChan alertChan
       workerWg httpWg resultWG alertWG add_workerWg add_httpWg add_resultWG add_alertWG];
  rewrite ?shut_pop, ?shut_close, ?len_close.
Ltac from P := pose proof P; channels; lia.
Ltac phase_split H :=
  split;
  [from (ph_job _ _ _ _ _ _ _ _ H) | from (ph_result _ _ _ _ _ _ _ _ H) | from (ph_alert _ _ _ _ _ _ _ _ H)
   | from (ph_router _ _ _ _ _ _ _ _ H) | from (ph_failure _ _ _ _ _ _ _ _ H) | from (ph_success _ _ _ _ _ _ _ _ H)
   | from (ph_routed _ _ _ _ _ _ _ _ H) | from (ph_w _ _ _ _ _ _ _ _ H) | from (ph_s _ _ _ _ _ _ _ _ H)
   | from (ph_f _ _ _ _ _ _ _ _ H) | from (ph_a _ _ _ _ _ _ _ _ H) | from (ph_no_worker _ _ _ _ _ _ _ _ H)
   | from (ph_no_check _ _ _ _ _ _ _ _ H) | from (ph_no_handler _ _ _ _ _ _ _ _ H) | from (ph_no_alerter _ _ _ _ _ _ _ _ H)
   | from (ph_workerWg _ _ _ _ _ _ _ _ H) | from (ph_httpWg _ _ _ _ _ _ _ _ H) | from (ph_resultWG _ _ _ _ _ _ _ _ H)
   | from (ph_alertWG _ _ _ _ _ _ _ _ H)].

Section Preservation.
Context {U : UuidLib} {S : Services} (c : Container).
Context (n_w n_s n_f n_a : nat).
#[local] Notation phases := (phases n_w n_s n_f n_a).
#[local] Notation inv := (inv n_w n_s n_f n_a).

(** The commands of goroutines of the same kinds do not change the phase. *)
Lemma phases_keep k p wg l p' l' :
  phases k p wg l -> keeps_channels p p' ->
  count is_worker l' = count is_worker l -> count is_check l' = count is_check l ->
  count is_router l' = count is_router l -> count is_closing l' = count is_closing l ->
  count is_success l' = count is_success l -> count is_failure l' = count is_failure l ->
  count is_alerter l' = count is_alerter l -> phases k p' wg l'.
Proof.
  intros Hph [Kj Kr Ks Kf Ka _] E1 E2 E3 E4 E5 E6 E7.
  apply keeps_shut in Kj as [? ?], Kr as [? ?], Ks as [? ?], Kf as [? ?], Ka as [? ?].
  shuts p. phase_split Hph.
Qed.

(** A command of a goroutine that [Shutdown] waits for. *)
Lemma g_ok_step jc g q k f :
  is_ticker g = false -> g_ok jc (g, q) -> g_step g k f ->
  (exists ρ, affords ρ q k /\ (forall r, open_reply k r -> g_ok jc (f r, charge q k r)) /\
     (ρ = RWorker -> is_worker g = true) /\ (ρ = RCheck -> is_check g = true) /\
     (ρ = RRouter -> is_router g = true) /\ (ρ = RFailure -> is_failure g = true)) /\
  forall r, (cost (f r, charge q k r) + b_fuel q = cost (g, q) + b_fuel (charge q k r))%nat /\
    is_worker (f r) = is_worker g /\ is_check (f r) = is_check g /\ is_router (f r) = is_router g /\
    is_closing (f r) = is_closing g /\ is_success (f r) = is_success g /\
    is_failure (f r) = is_failure g /\ is_alerter (f r) = is_alerter g.
Proof.
  assert (forall ρ r, affords ρ q k -> ρ = RWorker \/ b_held q = false -> ρ <> RCheck ->
    ρ = RWorker \/ b_held (charge q k r) = false) as Hheld.
  { intros ρ r [Hm _] [->|Hq] Hρ; [by left|]. destruct k; cbn in Hm |- *; tauto. }
  intros Ht Hg Hs. destruct Hs; try done; cbn in Hg;
    destruct Hg as [Hf Hg]; lazymatch type of Hg with _ /\ (_ \/ _) => destruct Hg as [[Ha Hk] Hh] | _ => destruct Hg as [Ha Hk] end.
  all: split; [eexists; split; [exact Ha|split; [|by repeat split]]|].
  all: try (intros r Hr; split; [etrans; [apply Nat.le_sub_l|exact Hf]|
    first [exact (Hk r Hr)|split; [exact (Hk r Hr)|by apply Hheld]]]).
  all: intros r; clear Hk Ha; unfold cost; cbn [fst snd]; split; [lia|by repeat split].
Qed.

(** *** Internal steps *)

Lemma range_chan_elem {A B} (ch : chan A) (turn : A -> list B) leave x :
  x ∈ range_chan ch turn leave ->
  (exists y l, ch_buf ch = y :: l /\ x ∈ turn y) \/ (ch_buf ch = [] /\ ch_closed ch = true /\ x ∈ leave).
Proof.
  unfold range_chan. destruct (ch_buf ch) as [|y l]; [|eauto 10].
  destruct (ch_closed ch); [auto|]. by intros ?%not_elem_of_nil.
Qed.

(** What an internal step of the goroutine at [j] does: it keeps the phase and
    the slots, and leaves less to do. *)
Definition move_ok (k : nat) (p : proc) (wg : wait_groups) (l : list ann) (j : nat) (x : ann)
    (p' : proc) (wg' : wait_groups) (gs' : list goroutine) : Prop :=
  exists ys, gs' = ys.*1 /\ Forall (g_ok (ch_closed (jobChan p))) ys /\
    ch_closed (jobChan p') = ch_closed (jobChan p) /\ sem_used p' = sem_used p /\ caps p' = caps p /\
    phases k p' wg' (put j ys l) /\ slots_held ys = weight (b_held x.2) /\
    (load p' + costs ys < load p + cost x)%nat.

Lemma count_pos f l j x : l !! j = Some x -> f x.1 = true -> (1 <= count f l)%nat.
Proof using.
  intros H Hf. pose proof (count_put f l j x [] H) as E. rewrite Hf in E. cbn in E. lia.
Qed.

(** The load when an element is taken, or a channel closed. *)
Lemma len_pop {A} (ch : chan A) y l : ch_buf ch = y :: l -> len ch = Datatypes.S (len (pop ch)).
Proof using. unfold len, pop. cbn. by intros ->. Qed.

Lemma load_len p : load p =
  (w_job * len (jobChan p) + w_result * len (resultChan p) + w_success * len (successChan p) +
   w_failure * len (failureChan p) + w_alert * len (alertChan p))%nat.
Proof using. done. Qed.

Lemma load_pop p :
  (forall y l, ch_buf (jobChan p) = y :: l -> (load (set_jobChan pop p) + w_job = load p)%nat) /\
  (forall y l, ch_buf (resultChan p) = y :: l -> (load (set_resultChan pop p) + w_result = load p)%nat) /\
  (forall y l, ch_buf (successChan p) = y :: l -> (load (set_successChan pop p) + w_success = load p)%nat) /\
  (forall y l, ch_buf (failureChan p) = y :: l -> (load (set_failureChan pop p) + w_failure = load p)%nat) /\
  (forall y l, ch_buf (alertChan p) = y :: l -> (load (set_alertChan pop p) + w_alert = load p)%nat).
Proof using.
  split_and!; intros y l H; apply len_pop in H; rewrite !load_len; channels; lia.
Qed.

(** The facts about a goroutine that is replaced by [ys]. *)
Ltac becomes H Hl ys :=
  exists ys; counts Hl ys; split; [reflexivity|]; split;
  [|split; [reflexivity|]; split; [reflexivity|]; split; [reflexivity|]; split;
    [phase_split H|]; split; [rewrite ?slots_cons, ?slots_nil; cbn [b_held fst snd weight]|
                              rewrite ?costs_cons, ?costs_nil; cbn [cost b_fuel fst snd]]].

(** A turn begins with the element [b] of the channel [Hb] speaks of. *)
Ltac takes Hph Hl Hg Hm Hb ys spends :=
  apply list_elem_of_singleton in Hm as [= -> -> ->];
  pose proof (len_pop _ _ _ Hb);
  first [apply (proj1 (load_pop _)) in Hb | apply (proj1 (proj2 (load_pop _))) in Hb
        | apply (proj1 (proj2 (proj2 (load_pop _)))) in Hb | apply (proj1 (proj2 (proj2 (proj2 (load_pop _))))) in Hb
        | apply (proj2 (proj2 (proj2 (proj2 (load_pop _))))) in Hb];
  becomes Hph Hl ys; [constructor; [split; [done|split; [apply spends|by auto]]|done]|by rewrite Hg|lia].

(** The goroutine of a wait group leaves its loop; [Hwg] says what is counted. *)
Ltac leaves Hph Hl Hg Hm Hb Hc Hwg :=
  pose proof Hwg; unfold leave_wg, done_workerWg, done_resultWG, done_alertWG in Hm;
  match type of Hm with context [match ?n with _ => _ end] => destruct n as [|n']; [lia|] end;
  apply list_elem_of_singleton in Hm as [= -> -> ->]; apply shut_true in Hc;
  match type of Hb with ch_buf ?ch = [] => assert (len ch = 0%nat) by (unfold len; by rewrite Hb) end;
  becomes Hph Hl (@nil ann); [done|by rewrite Hg|lia].

(** A turn ends. *)
Ltac ends Hph Hl Hg Hm ys :=
  apply list_elem_of_singleton in Hm as [= -> -> ->]; destruct Hg as (_ & Hg & _);
  becomes Hph Hl ys; [by constructor|done|lia].

Lemma move_worker k p wg l j w q p' wg' gs' done :
  phases k p wg l -> l !! j = Some (GWorker w, q) -> g_ok (ch_closed (jobChan p)) (GWorker w, q) ->
  (p', wg', gs') ∈ moves c done (GWorker w) p wg -> move_ok k p wg l j (GWorker w, q) p' wg' gs'.
Proof.
  intros Hph Hl Hg Hm. pose proof (count_pos is_worker l j _ Hl eq_refl) as H1.
  shuts p. destruct w as [|[[m|]|msg|k0 f]]; cbn in Hm; try (by apply not_elem_of_nil in Hm).
  - cbn in Hg. apply range_chan_elem in Hm as [(y & b & Hb & Hm)|(Hb & Hc & Hm)].
    + takes Hph Hl Hg Hm Hb [(GWorker (Busy (handleJob y)), MkBudget false fuel_job)] spends_handleJob.
    + leaves Hph Hl Hg Hm Hb Hc (ph_workerWg _ _ _ _ _ _ _ _ Hph).
  - apply list_elem_of_singleton in Hm as [= -> -> ->]. destruct Hg as (_ & [Hh Hf] & _).
    assert (k < 4)%nat by from (ph_no_worker _ _ _ _ _ _ _ _ Hph).
    becomes Hph Hl [(GWorker Waiting, MkBudget false 0); (GCheck (httpCheck m), MkBudget true fuel_check)].
    + constructor; [done|]. constructor; [|done]. split; [done|apply spends_httpCheck].
    + by rewrite Hh.
    + lia.
  - ends Hph Hl Hg Hm [(@GWorker Waiting, q)].
Qed.

Lemma move_check k p wg l j pr q p' wg' gs' done :
  phases k p wg l -> l !! j = Some (GCheck pr, q) -> g_ok (ch_closed (jobChan p)) (GCheck pr, q) ->
  (p', wg', gs') ∈ moves c done (GCheck pr) p wg -> move_ok k p wg l j (GCheck pr, q) p' wg' gs'.
Proof.
  intros Hph Hl Hg Hm. pose proof (count_pos is_check l j _ Hl eq_refl) as H1.
  shuts p. destruct pr as [[]|msg|k0 f]; cbn in Hm; try (by apply not_elem_of_nil in Hm).
  pose proof (ph_httpWg _ _ _ _ _ _ _ _ Hph) as Hwg. unfold leave_wg, done_httpWg in Hm.
  destruct (httpWg wg) as [|n]; [lia|]. apply list_elem_of_singleton in Hm as [= -> -> ->].
  destruct Hg as [_ Hg]. becomes Hph Hl (@nil ann); [done|by rewrite Hg|lia].
Qed.

Lemma move_success k p wg l j w q p' wg' gs' done :
  phases k p wg l -> l !! j = Some (GSuccess w, q) -> g_ok (ch_closed (jobChan p)) (GSuccess w, q) ->
  (p', wg', gs') ∈ moves c done (GSuccess w) p wg -> move_ok k p wg l j (GSuccess w, q) p' wg' gs'.
Proof.
  intros Hph Hl Hg Hm. pose proof (count_pos is_success l j _ Hl eq_refl) as H1.
  shuts p. destruct w as [|[[]|msg|k0 f]]; cbn in Hm; try (by apply not_elem_of_nil in Hm).
  - cbn in Hg. apply range_chan_elem in Hm as [(y & b & Hb & Hm)|(Hb & Hc & Hm)].
    + takes Hph Hl Hg Hm Hb [(GSuccess (Busy (handleSuccess y)), MkBudget false fuel_success)] spends_handleSuccess.
    + leaves Hph Hl Hg Hm Hb Hc (ph_resultWG _ _ _ _ _ _ _ _ Hph).
  - ends Hph Hl Hg Hm [(@GSuccess Waiting, q)].
Qed.

Lemma move_failure k p wg l j w q p' wg' gs' done :
  phases k p wg l -> l !! j = Some (GFailure w, q) -> g_ok (ch_closed (jobChan p)) (GFailure w, q) ->
  (p', wg', gs') ∈ moves c done (GFailure w) p wg -> move_ok k p wg l j (GFailure w, q) p' wg' gs'.
Proof.
  intros Hph Hl Hg Hm. pose proof (count_pos is_failure l j _ Hl eq_refl) as H1.
  shuts p. destruct w as [|[[]|msg|k0 f]]; cbn in Hm; try (by apply not_elem_of_nil in Hm).
  - cbn in Hg. apply range_chan_elem in Hm as [(y & b & Hb & Hm)|(Hb & Hc & Hm)].
    + takes Hph Hl Hg Hm Hb [(GFailure (Busy (handleFailure y)), MkBudget false fuel_failure)] spends_handleFailure.
    + leaves Hph Hl Hg Hm Hb Hc (ph_resultWG _ _ _ _ _ _ _ _ Hph).
  - ends Hph Hl Hg Hm [(@GFailure Waiting, q)].
Qed.

Lemma move_alert k p wg l j w q p' wg' gs' done :
  phases k p wg l -> l !! j = Some (GAlert w, q) -> g_ok (ch_closed (jobChan p)) (GAlert w, q) ->
  (p', wg', gs') ∈ moves c done (GAlert w) p wg -> move_ok k p wg l j (GAlert w, q) p' wg' gs'.
Proof.
  intros Hph Hl Hg Hm. pose proof (count_pos is_alerter l j _ Hl eq_refl) as H1.
  shuts p. destruct w as [|[[]|msg|k0 f]]; cbn in Hm; try (by apply not_elem_of_nil in Hm).
  - cbn in Hg. apply range_chan_elem in Hm as [(y & b & Hb & Hm)|(Hb & Hc & Hm)].
    + takes Hph Hl Hg Hm Hb [(GAlert (Busy (handleAlert y)), MkBudget false fuel_alert)] spends_handleAlert.
    + leaves Hph Hl Hg Hm Hb Hc (ph_alertWG _ _ _ _ _ _ _ _ Hph).
  - ends Hph Hl Hg Hm [(@GAlert Waiting, q)].
Qed.

Lemma move_router k p wg l j w q p' wg' gs' done :
  phases k p wg l -> l !! j = Some (GRouter w, q) -> g_ok (ch_closed (jobChan p)) (GRouter w, q) ->
  (p', wg', gs') ∈ moves c done (GRouter w) p wg -> move_ok k p wg l j (GRouter w, q) p' wg' gs'.
Proof.
  intros Hph Hl Hg Hm. pose proof (count_pos is_router l j _ Hl eq_refl) as H1.
  pose proof (ph_router _ _ _ _ _ _ _ _ Hph) as H2.
  shuts p. destruct w as [|[[]|msg|k0 f]]; cbn in Hm; try (by apply not_elem_of_nil in Hm).
  - cbn in Hg. apply range_chan_elem in Hm as [(y & b & Hb & Hm)|(Hb & Hc & Hm)].
    + takes Hph Hl Hg Hm Hb [(GRouter (Busy (route y)), MkBudget false fuel_route)] spends_route.
    + assert (ch_closed (failureChan p) = false) as Ho.
      { apply shut_false. from (ph_failure _ _ _ _ _ _ _ _ Hph). }
      rewrite Ho in Hm. apply list_elem_of_singleton in Hm as [= -> -> ->].
      apply shut_true in Hc. apply shut_false in Ho.
      assert (len (resultChan p) = 0%nat) by (unfold len; by rewrite Hb).
      becomes Hph Hl [(@GClosing, q)]; [by constructor|done|].
      rewrite !load_len. channels. lia.
  - ends Hph Hl Hg Hm [(@GRouter Waiting, q)].
Qed.

Lemma move_closing k p wg l j q p' wg' gs' done :
  phases k p wg l -> l !! j = Some (GClosing, q) -> g_ok (ch_closed (jobChan p)) (GClosing, q) ->
  (p', wg', gs') ∈ moves c done GClosing p wg -> move_ok k p wg l j (GClosing, q) p' wg' gs'.
Proof.
  intros Hph Hl Hg Hm. pose proof (count_pos is_closing l j _ Hl eq_refl) as H1.
  pose proof (ph_router _ _ _ _ _ _ _ _ Hph) as H2. shuts p. cbn in Hm, Hg.
  assert (ch_closed (successChan p) = false) as Ho.
  { apply shut_false. from (ph_success _ _ _ _ _ _ _ _ Hph). }
  unfold router_closing in Hm. rewrite Ho in Hm. apply list_elem_of_singleton in Hm as [= -> -> ->]. apply shut_false in Ho.
  becomes Hph Hl (@nil ann); [done|by rewrite Hg|]. rewrite !load_len. channels. lia.
Qed.

(** The internal steps of a ticker leave everything else as it is. *)
Lemma move_ticker k p wg l j g q p' wg' gs' done :
  is_ticker g = true -> phases k p wg l -> l !! j = Some (g, q) -> g_ok (ch_closed (jobChan p)) (g, q) ->
  (p', wg', gs') ∈ moves c done g p wg ->
  exists ys, gs' = ys.*1 /\ Forall (g_ok (ch_closed (jobChan p))) ys /\ p' = p /\
    phases k p wg' (put j ys l) /\ slots_held ys = 0%nat /\ costs ys = 0%nat.
Proof.
  intros Ht Hph Hl Hg Hm.
  assert (p' = p /\ wg' = wg /\ (gs' = [] \/ exists g', gs' = [g'] /\ g_ok (ch_closed (jobChan p)) (g', MkBudget false 0) /\
    is_ticker g' = true)) as (-> & -> & Hgs).
  { destruct g as [w|w| | | | | | |]; try done; destruct w as [|[[]|msg|k0 f]]; cbn in Hm;
      try (by apply not_elem_of_nil in Hm); try (apply list_elem_of_singleton in Hm as [= -> -> ->]; do 2 (split; [done|]); right; eexists;
        split; [done|]; by repeat split).
    all: apply elem_of_cons in Hm as [[= -> -> ->]|Hm];
      [|destruct done; [apply list_elem_of_singleton in Hm as [= -> -> ->]; auto|by apply not_elem_of_nil in Hm]].
    all: split; [done|]; split; [done|]; right; eexists; split; [done|]; split; [|done]; split; [done|].
    all: exists false; split; [done|]; eapply ticks_mono; [|done].
    - apply ticks_doWork.
    - apply ticks_reclaim. }
  shuts p. destruct Hgs as [->|(g' & -> & Hg' & Ht')].
  - exists []. destruct g; try done; counts Hl (@nil ann); do 3 (split; [done|]); split; [phase_split Hph|done|phase_split Hph|done].
  - exists [(g', MkBudget false 0)]. split; [done|]. split; [by constructor|]. split; [done|].
    destruct g; try done; destruct g'; try done;
      match goal with |- context [put j ?ys l] => counts Hl ys end; (split; [phase_split Hph|by split]).
Qed.

(** A step of the main goroutine. *)
Lemma g_ok_closed jc x : g_ok jc x -> g_ok true x.
Proof.
  destruct x as [[w|w| | | | | | |] q]; cbn; try done; intros [Hq Hw]; (split; [done|]);
    destruct w as [|p]; cbn in *; try done; destruct Hw as (b & _ & H); exists b; by split.
Qed.

Lemma main_ok m p wg l p' m' done :
  phases (rank m) p wg l -> Shutdown done m p wg = Some (p', m') ->
  phases (rank m') p' wg l /\ (rank m < rank m' <= 10)%nat /\ load p' = load p /\
  sem_used p' = sem_used p /\ caps p' = caps p /\ (forall msg, m' <> MainPanic msg) /\
  (ch_closed (jobChan p') = ch_closed (jobChan p) \/ ch_closed (jobChan p') = true).
Proof.
  intros Hph Hm. shuts p.
  assert (forall n next, main_wait n p next = Some (p', m') -> n = 0%nat /\ p' = p /\ m' = next) as Hwait.
  { intros [|n] next; cbn; [by intros [= <- <-]|done]. }
  destruct m; cbn [Shutdown] in Hm; cbn [rank] in Hph |- *.
  - destruct done; [|done]. injection Hm as <- <-. cbn [rank]. split_and!; auto; try lia. phase_split Hph.
  - injection Hm as <- <-. cbn [rank]. split_and!; auto; try lia. phase_split Hph.
  - assert (ch_closed (jobChan p) = false) as Ho by (apply shut_false; from (ph_job _ _ _ _ _ _ _ _ Hph)).
    unfold main_close in Hm. rewrite Ho in Hm. injection Hm as <- <-. cbn [rank].
    split_and!; auto; try lia. phase_split Hph.
  - apply Hwait in Hm as (Hz & -> & ->). cbn [rank]. split_and!; auto; try lia.
    rewrite (ph_workerWg _ _ _ _ _ _ _ _ Hph) in Hz. phase_split Hph.
  - apply Hwait in Hm as (Hz & -> & ->). cbn [rank]. split_and!; auto; try lia.
    rewrite (ph_httpWg _ _ _ _ _ _ _ _ Hph) in Hz. phase_split Hph.
  - assert (ch_closed (resultChan p) = false) as Ho by (apply shut_false; from (ph_result _ _ _ _ _ _ _ _ Hph)).
    unfold main_close in Hm. rewrite Ho in Hm. injection Hm as <- <-. cbn [rank].
    split_and!; auto; try lia. phase_split Hph.
  - apply Hwait in Hm as (Hz & -> & ->). cbn [rank]. split_and!; auto; try lia.
    rewrite (ph_resultWG _ _ _ _ _ _ _ _ Hph) in Hz. phase_split Hph.
  - assert (ch_closed (alertChan p) = false) as Ho by (apply shut_false; from (ph_alert _ _ _ _ _ _ _ _ Hph)).
    unfold main_close in Hm. rewrite Ho in Hm. injection Hm as <- <-. cbn [rank].
    split_and!; auto; try lia. phase_split Hph.
  - apply Hwait in Hm as (Hz & -> & ->). cbn [rank]. split_and!; auto; try lia.
    rewrite (ph_alertWG _ _ _ _ _ _ _ _ Hph) in Hz. phase_split Hph.
  - injection Hm as <- <-. cbn [rank]. split_and!; auto; try lia. phase_split Hph.
  - done.
  - done.
Qed.

(** *** Steps *)

(** After a step by [x]: what is left to do has become less if it was a step of
    the pipeline, and has not grown otherwise once the jobs are closed. *)
Definition step_ok (s : service) (l : list ann) (x : who) (s' : service) : Prop :=
  exists l', inv s' l' /\ (ch_closed (jobChan (sv_proc s)) = true -> ch_closed (jobChan (sv_proc s')) = true) /\
    (rank (sv_main s) <= rank (sv_main s'))%nat /\
    match x with
    | Progress => (measure s' l' < measure s l)%nat
    | _ => ch_closed (jobChan (sv_proc s)) = true -> measure s' l' = measure s l
    end.

Lemma lookup_ann (l : list ann) j g : l.*1 !! j = Some g -> exists q, l !! j = Some (g, q).
Proof using. intros H. apply list_lookup_fmap_Some in H as ([g' q] & -> & H). by exists q. Qed.

(** The reply of a command of the pipeline is that of an open channel. *)
Lemma pipeline_reply ρ q k0 k w p w' p' r wg l g j :
  phases k p wg l -> l !! j = Some (g, q) -> affords ρ q k0 ->
  (ρ = RCheck -> is_check g = true) -> (ρ = RRouter -> is_router g = true) -> (ρ = RFailure -> is_failure g = true) ->
  exec k0 (MkSys w p) = Reply (MkSys w' p') r -> open_reply k0 r.
Proof.
  intros Hph Hl [Hm _] H1 H2 H3 He. apply exec_reply in He. shuts p.
  assert (forall f, f g = true -> (1 <= count f l)%nat) as Hpos by (intros f Hf; by apply (count_pos f l j _ Hl)).
  destruct k0; cbn in Hm, He |- *; try done.
  - assert (ch_closed (resultChan p) = false) as Ho; [|by rewrite He, Ho].
    apply shut_false. pose proof (Hpos is_check (H1 Hm)).
    pose proof (ph_no_check _ _ _ _ _ _ _ _ Hph). from (ph_result _ _ _ _ _ _ _ _ Hph).
  - assert (ch_closed (successChan p) = false) as Ho; [|by rewrite He, Ho].
    apply shut_false. pose proof (Hpos is_router (H2 Hm)). from (ph_success _ _ _ _ _ _ _ _ Hph).
  - assert (ch_closed (failureChan p) = false) as Ho; [|by rewrite He, Ho].
    apply shut_false. pose proof (Hpos is_router (H2 Hm)). from (ph_failure _ _ _ _ _ _ _ _ Hph).
  - assert (ch_closed (alertChan p) = false) as Ho; [|by rewrite He, Ho].
    apply shut_false. pose proof (Hpos is_failure (H3 Hm)).
    pose proof (ph_no_handler _ _ _ _ _ _ _ _ Hph). from (ph_alert _ _ _ _ _ _ _ _ Hph).
Qed.

Definition same_kind (g g' : goroutine) : Prop :=
  is_worker g' = is_worker g /\ is_check g' = is_check g /\ is_router g' = is_router g /\
  is_closing g' = is_closing g /\ is_success g' = is_success g /\
  is_failure g' = is_failure g /\ is_alerter g' = is_alerter g.

Lemma same_tickers g g' : is_ticker g = true -> is_ticker g' = true -> same_kind g g'.
Proof using. destruct g; try done; by destruct g'. Qed.

Lemma phases_cmd k p wg l p' j g q g' q' :
  phases k p wg l -> keeps_channels p p' -> l !! j = Some (g, q) -> same_kind g g' ->
  phases k p' wg (put j [(g', q')] l).
Proof.
  intros Hph Hk Hl (E1 & E2 & E3 & E4 & E5 & E6 & E7).
  assert (forall h, h g' = h g -> count h (put j [(g', q')] l) = count h l) as Hc.
  { intros h E. pose proof (count_put h _ _ _ [(g', q')] Hl) as H.
    rewrite count_cons, count_nil in H. cbn [fst] in H. rewrite E in H. lia. }
  apply (phases_keep _ _ _ _ _ _ Hph Hk); by apply Hc.
Qed.

(** The facts of the invariant that a command changes: the slots and the load. *)
Lemma inv_cmd s l j g q g' q' w' p' :
  inv s l -> l !! j = Some (g, q) -> same_kind g g' -> keeps_channels (sv_proc s) p' ->
  g_ok (ch_closed (jobChan p')) (g', q') ->
  (sem_used p' + weight (b_held q) = sem_used (sv_proc s) + weight (b_held q'))%nat ->
  (sem_used p' <= sem_cap p')%nat ->
  inv (MkService w' p' (sv_wg s) (put j [g'] (sv_gs s)) (sv_main s)) (put j [(g', q')] l).
Proof.
  intros [Hgs Hok Hheld Hcap Hcaps Hph Hmain] Hl Hkind Hk Hg Hsem Hle.
  pose proof (kp_job _ _ Hk) as (Hjc & _).
  split; cbn [sv_gs sv_proc sv_wg sv_main]; [| | |done| | |done].
  - by rewrite fmap_put, Hgs.
  - apply Forall_put; [by rewrite Hjc|by constructor].
  - pose proof (slots_put l j _ [(g', q')] Hl) as E. rewrite slots_cons, slots_nil in E. cbn in E. lia.
  - by rewrite (keeps_caps _ _ Hk).
  - by eapply phases_cmd.
Qed.

(** A command of a ticker. *)
Lemma ticker_step jc g q k f :
  is_ticker g = true -> g_ok jc (g, q) -> g_step g k f ->
  exists b, ticker_cmd k /\ (b = true -> jc = true) /\
    forall r jc', (saw_closed b k r = true -> jc' = true) -> g_ok jc' (f r, q) /\ is_ticker (f r) = true.
Proof.
  intros Ht Hg Hs. destruct Hs as [k f|k f| | | | | | ]; try done; cbn in Hg; destruct Hg as [Hq (b & Hb & Hc & Hrun)]; exists b.
  - do 2 (split; [done|]). intros r jc' Hjc. split; [|done]. split; [done|]. exists (saw_closed b k r).
    split; [done|]. by apply Hrun.
  - assert (b = false) as -> by (destruct b; [by specialize (Hb eq_refl)|done]).
    split; [by destruct k|]. split; [done|]. intros r jc' _. split; [|done]. split; [done|].
    exists (saw_closed false k r). split; [by destruct k|]. by apply Hrun.
Qed.

Lemma step_cmd s l j g k f w' p' r :
  inv s l -> sv_gs s !! j = Some g -> g_step g k f ->
  exec k (MkSys (sv_world s) (sv_proc s)) = Reply (MkSys w' p') r ->
  step_ok s l (of_g g) (MkService w' p' (sv_wg s) (put j [f r] (sv_gs s)) (sv_main s)).
Proof.
  intros Hi Hj Hs He. pose proof Hi as [Hgs Hok Hheld Hcap Hcaps Hph Hmain]. rewrite Hgs in Hj.
  apply lookup_ann in Hj as [q Hl]. pose proof (Forall_lookup_1 _ _ _ _ Hok Hl) as Hg.
  pose proof (exec_keeps _ _ _ _ _ _ He) as Hk. pose proof (kp_job _ _ Hk) as (Hjc & _).
  unfold of_g. destruct (is_ticker g) eqn:Ht.
  - destruct (ticker_step _ _ _ _ _ Ht Hg Hs) as (b & Hc & Hb & Hnext).
    destruct (Hnext r (ch_closed (jobChan p'))) as [Hg' Ht'].
    { rewrite Hjc. intros H. destruct (exec_ticker b k _ _ _ _ r Hc He) as (_ & _ & Hsc & _).
      destruct (Hsc H); auto. }
    destruct (exec_ticker b k _ _ _ _ r Hc He) as (Hsem & Hload & _).
    exists (put j [(f r, q)] l). split; [|split; [cbn; by rewrite Hjc|split; [done|]]].
    + apply (inv_cmd s l j g q); try done; [by apply same_tickers|lia|]. by rewrite Hsem, (kp_cap _ _ Hk).
    + intros Hcl. unfold measure; cbn [sv_proc sv_main]. rewrite (Hload Hcl).
      pose proof (costs_put l j _ [(f r, q)] Hl) as E. rewrite costs_cons, costs_nil in E.
      assert (cost (f r, q) = 0%nat) as E1 by (by destruct (f r)).
      assert (cost (g, q) = 0%nat) as E2 by (by destruct g). lia.
  - destruct (g_ok_step _ _ _ _ _ Ht Hg Hs) as [(ρ & Ha & Hnext & _ & H1 & H2 & H3) Hkind].
    destruct (Hkind r) as [Hcost Hsame].
    pose proof (pipeline_reply _ _ _ _ _ _ _ _ _ _ _ _ _ Hph Hl Ha H1 H2 H3 He) as Ho.
    destruct (exec_pays _ _ _ _ _ _ _ _ Ha He) as (Hload & Hsem & Hle).
    exists (put j [(f r, charge q k r)] l). split; [|split; [cbn; by rewrite Hjc|split; [done|]]].
    + apply (inv_cmd s l j g q); try done; [|auto]. rewrite Hjc. by apply Hnext.
    + unfold measure; cbn [sv_proc sv_main].
      pose proof (costs_put l j _ [(f r, charge q k r)] Hl) as E. rewrite costs_cons, costs_nil in E. lia.
Qed.

Lemma step_move s l j g p' wg' gs' :
  inv s l -> sv_gs s !! j = Some g ->
  (p', wg', gs') ∈ moves c (ctx_done CtxApp (sv_world s)) g (sv_proc s) (sv_wg s) ->
  step_ok s l (of_g g) (MkService (sv_world s) p' wg' (put j gs' (sv_gs s)) (sv_main s)).
Proof.
  intros [Hgs Hok Hheld Hcap Hcaps Hph Hmain] Hj Hm. rewrite Hgs in Hj.
  apply lookup_ann in Hj as [q Hl]. pose proof (Forall_lookup_1 _ _ _ _ Hok Hl) as Hg.
  unfold of_g. destruct (is_ticker g) eqn:Ht.
  - destruct (move_ticker _ _ _ _ _ _ _ _ _ _ _ Ht Hph Hl Hg Hm) as (ys & -> & Hys & -> & Hph' & Hs & Hc).
    assert (cost (g, q) = 0%nat /\ b_held q = false) as [Hc0 Hq].
    { destruct g; try done; cbn in Hg; by destruct Hg. }
    exists (put j ys l). split; [split; cbn [sv_gs sv_proc sv_wg sv_main]; try done|split; [done|split; [done|]]].
    + by rewrite fmap_put, Hgs.
    + by apply Forall_put.
    + pose proof (slots_put l j _ ys Hl) as E. rewrite Hs in E. cbn [snd] in E. rewrite Hq in E. cbn in E. lia.
    + intros _. unfold measure; cbn [sv_proc sv_main]. pose proof (costs_put l j _ ys Hl). lia.
  - assert (move_ok (rank (sv_main s)) (sv_proc s) (sv_wg s) l j (g, q) p' wg' gs') as
      (ys & -> & Hys & Hjc & Hsem & Hcap' & Hph' & Hs & Hlt).
    { destruct g as [w|w|w|pr|w| |w|w|w]; try done;
        eauto using move_worker, move_check, move_router, move_closing, move_success, move_failure, move_alert. }
    exists (put j ys l). split; [split; cbn [sv_gs sv_proc sv_wg sv_main]; try done|split; [cbn; by rewrite Hjc|split; [done|]]].
    + by rewrite fmap_put, Hgs.
    + rewrite Hjc. by apply Forall_put.
    + pose proof (slots_put l j _ ys Hl) as E. cbn [snd] in E, Hs. lia.
    + apply caps_sem in Hcap'. lia.
    + by rewrite Hcap'.
    + unfold measure; cbn [sv_proc sv_main]. pose proof (costs_put l j _ ys Hl). lia.
Qed.

Lemma step_main s l p' m' :
  inv s l -> Shutdown (ctx_done CtxApp (sv_world s)) (sv_main s) (sv_proc s) (sv_wg s) = Some (p', m') ->
  step_ok s l Progress (MkService (sv_world s) p' (sv_wg s) (sv_gs s) m').
Proof.
  intros [Hgs Hok Hheld Hcap Hcaps Hph Hmain] Hm.
  destruct (main_ok _ _ _ _ _ _ _ Hph Hm) as (Hph' & Hr & Hload & Hsem & Hcap' & Hm' & Hjc).
  exists l. split; [split; cbn [sv_gs sv_proc sv_wg sv_main]; try done|split; [|split]].
  - destruct Hjc as [->| ->]; [done|]. eapply Forall_impl; [exact Hok|]. intros x. apply g_ok_closed.
  - lia.
  - apply caps_sem in Hcap'. lia.
  - by rewrite Hcap'.
  - cbn. intros H. destruct Hjc; congruence.
  - cbn. lia.
  - unfold measure; cbn [sv_proc sv_main]. lia.
Qed.

Lemma step_inv s x s' l : inv s l -> lstep c s x s' -> step_ok s l x s'.
Proof.
  intros Hi Hs. destruct Hs as [* Hj Hs He|* Hj Hm|* Hm|*].
  - eapply (step_cmd _ _ _ _ _ _ _ _ _ Hi); eauto.
  - eapply (step_move _ _ _ _ _ _ _ Hi); eauto.
  - eapply (step_main _ _ _ _ Hi); eauto.
  - exists l. destruct Hi. by split.
Qed.

(** *** Nothing gets stuck *)

Definition can (s : service) : Prop := exists s', lstep c s Progress s'.

Definition full {A} (ch : chan A) : Prop := ch_closed ch = false /\ (ch_cap ch <= len ch)%nat.

(** Why a command of the pipeline would have to wait. *)
Lemma blocked_cases ρ q k w p :
  affords ρ q k -> exec k (MkSys w p) = Blocked ->
  (ρ = RWorker /\ b_held q = false /\ (sem_cap p <= sem_used p)%nat) \/
  (ρ = RCheck /\ b_held q = true /\ sem_used p = 0%nat) \/
  (ρ = RCheck /\ full (resultChan p)) \/ (ρ = RFailure /\ full (alertChan p)) \/
  (ρ = RRouter /\ (full (successChan p) \/ full (failureChan p))).
Proof using.
  intros [Hm _] He.
  assert (forall A get set (x : A), exec_send get set x (MkSys w p) = Blocked -> full (get p)) as Hsend.
  { intros A get set x. unfold exec_send; cbn. destruct (ch_closed (get p)) eqn:E; [done|].
    unfold ch_room. case_bool_decide; [done|]. intros _. split; [done|]. unfold len. lia. }
  destruct k; cbn [exec] in He; cbn [may] in Hm; try done;
    try (unfold ext in He; cbn in He; match type of He with context [let '(_, _) := ?x in _] => by destruct x end).
  - apply Hsend in He. tauto.
  - apply Hsend in He. tauto.
  - apply Hsend in He. tauto.
  - apply Hsend in He. tauto.
  - destruct Hm as [-> Hh]. case_decide as D; [done|]. cbn in D. left. split_and!; [done|done|lia].
  - destruct Hm as [-> Hh]. case_decide as D; [done|]. cbn in D. right; left. split_and!; [done|done|lia].
Qed.

(** A goroutine in a turn: its turn is over, or it has a next command. *)
Definition in_turn (g : goroutine) : Prop :=
  match g with
  | GScheduler _ | GReclaimer _ | GClosing => False
  | GWorker Waiting | GRouter Waiting | GSuccess Waiting | GFailure Waiting | GAlert Waiting => False
  | _ => True
  end.

Lemma can_move s j g x :
  sv_gs s !! j = Some g -> is_ticker g = false ->
  x ∈ moves c (ctx_done CtxApp (sv_world s)) g (sv_proc s) (sv_wg s) -> can s.
Proof using.
  intros Hj Ht Hx. destruct x as [[p' wg'] gs']. destruct s as [w p wg gs m]. cbn in *.
  pose proof (lstep_move c w p wg gs m j g p' wg' gs' Hj Hx) as H. unfold of_g in H. rewrite Ht in H. by eexists.
Qed.

Lemma can_turn s l j g q :
  inv s l -> l !! j = Some (g, q) -> in_turn g ->
  can s \/ exists k ρ, affords ρ q k /\ exec k (MkSys (sv_world s) (sv_proc s)) = Blocked /\
    (ρ = RWorker -> is_worker g = true) /\ (ρ = RCheck -> is_check g = true) /\
    (ρ = RRouter -> is_router g = true) /\ (ρ = RFailure -> is_failure g = true).
Proof.
  intros Hi Hl Ht. pose proof (Forall_lookup_1 _ _ _ _ (i_ok _ _ _ _ _ _ Hi) Hl) as Hg.
  assert (sv_gs s !! j = Some g) as Hj.
  { rewrite (i_gs _ _ _ _ _ _ Hi). by rewrite list_lookup_fmap, Hl. }
  assert (is_ticker g = false) as Hti by (by destruct g).
  assert ((exists x, x ∈ moves c (ctx_done CtxApp (sv_world s)) g (sv_proc s) (sv_wg s)) \/
    exists k f, g_step g k f) as [[x Hx]|(k & f & Hs)].
  { destruct g as [w|w|w|p|w| |w|w|w]; try done.
    - destruct w as [|[[m|]|msg|k f]]; try done; [left; eexists; left|left; eexists; left|by destruct Hg as (_ & [] & _)|right; eauto using g_step].
    - destruct p as [[]|msg|k f]; [left|by destruct Hg as [_ []]|right; eauto using g_step].
      unfold moves, check_done, leave_wg. destruct (done_httpWg _); eexists; left.
    - destruct w as [|[[]|msg|k f]]; try done; [left; eexists; left|by destruct Hg as (_ & [] & _)|right; eauto using g_step].
    - destruct w as [|[[]|msg|k f]]; try done; [left; eexists; left|by destruct Hg as (_ & [] & _)|right; eauto using g_step].
    - destruct w as [|[[]|msg|k f]]; try done; [left; eexists; left|by destruct Hg as (_ & [] & _)|right; eauto using g_step].
    - destruct w as [|[[]|msg|k f]]; try done; [left; eexists; left|by destruct Hg as (_ & [] & _)|right; eauto using g_step]. }
  - left. by eapply can_move.
  - destruct (g_ok_step _ _ _ _ _ Hti Hg Hs) as [(ρ & Ha & _ & Hr) _].
    destruct (exec k (MkSys (sv_world s) (sv_proc s))) as [[w' p'] r|] eqn:He; [left|right; by exists k, ρ].
    destruct s as [w p wg gs m]. cbn in *.
    pose proof (lstep_cmd c w p wg gs m j g k f w' p' r Hj Hs He) as H. unfold of_g in H. rewrite Hti in H. by eexists.
Qed.

(** The head of a loop over a channel that has an element or is closed. *)
Lemma range_chan_some {A B} (ch : chan A) (turn : A -> list B) leave :
  (0 < len ch \/ shut ch = 1)%nat -> (forall y, exists x, x ∈ turn y) -> (exists x, x ∈ leave) ->
  exists x, x ∈ range_chan ch turn leave.
Proof using.
  intros Hch Ht Hl. unfold range_chan, len in *. destruct (ch_buf ch) as [|y b]; [|apply Ht].
  destruct Hch as [Hch|Hch]; [cbn in Hch; lia|]. apply shut_true in Hch. by rewrite Hch.
Qed.

Lemma leave_wg_some p o wg g : exists x, x ∈ leave_wg p o wg g.
Proof using. destruct o; cbn; eexists; left. Qed.

Lemma count_exists f l : (0 < count f l)%nat -> exists j g q, l !! j = Some (g, q) /\ f g = true.
Proof using.
  intros H. apply sum_of_pos in H as ([g q] & Hin & Hf). apply list_elem_of_lookup in Hin as [j Hj].
  exists j, g, q. split; [done|]. cbn in Hf. destruct (f g); [done|cbn in Hf; lia].
Qed.

Context (Hn_s : (0 < n_s)%nat) (Hn_f : (0 < n_f)%nat) (Hn_a : (0 < n_a)%nat).

Lemma inv_lookup s l j g q : inv s l -> l !! j = Some (g, q) -> sv_gs s !! j = Some g.
Proof. intros Hi Hl. rewrite (i_gs _ _ _ _ _ _ Hi). by rewrite list_lookup_fmap, Hl. Qed.

(** Alert workers never wait while there is an alert, or no more can come. *)
Lemma can_alert s l :
  inv s l -> (0 < count is_alerter l)%nat ->
  (0 < len (alertChan (sv_proc s)) \/ shut (alertChan (sv_proc s)) = 1)%nat -> can s.
Proof.
  intros Hi Hc Hch. apply count_exists in Hc as (j & g & q & Hl & Hg). destruct g as [| | | | | | | |[|pr]]; try done.
  - assert (exists x, x ∈ moves c (ctx_done CtxApp (sv_world s)) (GAlert Waiting) (sv_proc s) (sv_wg s)) as [x Hx].
    { apply range_chan_some; [done|intros y; eexists; left|apply leave_wg_some]. }
    by eapply can_move; [eapply inv_lookup| |].
  - destruct (can_turn _ _ _ _ _ Hi Hl I) as [|(k & ρ & Ha & Hb & H1 & H2 & H3 & H4)]; [done|].
    destruct (blocked_cases _ _ _ _ _ Ha Hb) as [(-> & _)|[(-> & _)|[(-> & _)|[(-> & _)|(-> & _)]]]];
      by (discriminate (H1 eq_refl) || discriminate (H2 eq_refl) || discriminate (H3 eq_refl) || discriminate (H4 eq_refl)).
Qed.

Lemma cap_pos s l : inv s l -> (0 < ch_cap (resultChan (sv_proc s)) /\ 0 < ch_cap (successChan (sv_proc s)) /\
  0 < ch_cap (failureChan (sv_proc s)) /\ 0 < ch_cap (alertChan (sv_proc s)) /\ 0 < sem_cap (sv_proc s))%nat.
Proof.
  intros Hi. pose proof (i_caps _ _ _ _ _ _ Hi) as H. unfold caps in H.
  by repeat (apply Forall_cons_1 in H as [? H]).
Qed.

Lemma can_failure s l :
  inv s l -> (0 < count is_failure l)%nat ->
  (0 < len (failureChan (sv_proc s)) \/ shut (failureChan (sv_proc s)) = 1)%nat -> can s.
Proof.
  intros Hi Hc Hch. apply count_exists in Hc as (j & g & q & Hl & Hg). destruct g as [| | | | | | |[|pr]|]; try done.
  - assert (exists x, x ∈ moves c (ctx_done CtxApp (sv_world s)) (GFailure Waiting) (sv_proc s) (sv_wg s)) as [x Hx].
    { apply range_chan_some; [done|intros y; eexists; left|apply leave_wg_some]. }
    by eapply can_move; [eapply inv_lookup| |].
  - destruct (can_turn _ _ _ _ _ Hi Hl I) as [|(k & ρ & Ha & Hb & H1 & H2 & H3 & H4)]; [done|].
    destruct (blocked_cases _ _ _ _ _ Ha Hb) as [(-> & _)|[(-> & _)|[(-> & _)|[(-> & Ho & Hfull)|(-> & _)]]]];
      try by (discriminate (H1 eq_refl) || discriminate (H2 eq_refl) || discriminate (H3 eq_refl)).
    apply shut_false in Ho. destruct (cap_pos _ _ Hi) as (_ & _ & _ & Hcap & _).
    apply (can_alert s l Hi); [|left; lia]. from (ph_a _ _ _ _ _ _ _ _ (i_phases _ _ _ _ _ _ Hi)).
Qed.

Lemma can_success s l :
  inv s l -> (0 < count is_success l)%nat ->
  (0 < len (successChan (sv_proc s)) \/ shut (successChan (sv_proc s)) = 1)%nat -> can s.
Proof.
  intros Hi Hc Hch. apply count_exists in Hc as (j & g & q & Hl & Hg). destruct g as [| | | | | |[|pr]| |]; try done.
  - assert (exists x, x ∈ moves c (ctx_done CtxApp (sv_world s)) (GSuccess Waiting) (sv_proc s) (sv_wg s)) as [x Hx].
    { apply range_chan_some; [done|intros y; eexists; left|apply leave_wg_some]. }
    by eapply can_move; [eapply inv_lookup| |].
  - destruct (can_turn _ _ _ _ _ Hi Hl I) as [|(k & ρ & Ha & Hb & H1 & H2 & H3 & H4)]; [done|].
    destruct (blocked_cases _ _ _ _ _ Ha Hb) as [(-> & _)|[(-> & _)|[(-> & _)|[(-> & _)|(-> & _)]]]];
      by (discriminate (H1 eq_refl) || discriminate (H2 eq_refl) || discriminate (H3 eq_refl) || discriminate (H4 eq_refl)).
Qed.

Lemma can_router s l :
  inv s l -> (0 < count is_router l + count is_closing l)%nat ->
  (0 < len (resultChan (sv_proc s)) \/ shut (resultChan (sv_proc s)) = 1)%nat -> can s.
Proof.
  intros Hi Hc Hch. pose proof (i_phases _ _ _ _ _ _ Hi) as Hph. destruct (cap_pos _ _ Hi) as (_ & Hcs & Hcf & _).
  destruct (decide (0 < count is_router l)%nat) as [Hr|Hr].
  - apply count_exists in Hr as (j & g & q & Hl & Hg). destruct g as [| | | |[|pr]| | | |]; try done.
    + assert (exists x, x ∈ moves c (ctx_done CtxApp (sv_world s)) (GRouter Waiting) (sv_proc s) (sv_wg s)) as [x Hx].
      { apply range_chan_some; [done|intros y; eexists; left|destruct (ch_closed _); eexists; left]. }
      by eapply can_move; [eapply inv_lookup| |].
    + destruct (can_turn _ _ _ _ _ Hi Hl I) as [|(k & ρ & Ha & Hb & H1 & H2 & H3 & H4)]; [done|].
      destruct (blocked_cases _ _ _ _ _ Ha Hb) as [(-> & _)|[(-> & _)|[(-> & _)|[(-> & _)|(-> & [[Ho Hfull]|[Ho Hfull]])]]]];
        try by (discriminate (H1 eq_refl) || discriminate (H2 eq_refl) || discriminate (H4 eq_refl)).
      * apply shut_false in Ho. apply (can_success s l Hi); [|left; lia]. from (ph_s _ _ _ _ _ _ _ _ Hph).
      * apply shut_false in Ho. apply (can_failure s l Hi); [|left; lia]. from (ph_f _ _ _ _ _ _ _ _ Hph).
  - assert (0 < count is_closing l)%nat as Hg by lia. apply count_exists in Hg as (j & g & q & Hl & Hg). destruct g; try done.
    assert (exists x, x ∈ moves c (ctx_done CtxApp (sv_world s)) GClosing (sv_proc s) (sv_wg s)) as [x Hx].
    { unfold moves, router_closing. destruct (ch_closed _); eexists; left. }
    by eapply can_move; [eapply inv_lookup| |].
Qed.

Lemma can_check s l : inv s l -> (0 < count is_check l)%nat -> can s.
Proof.
  intros Hi Hc. pose proof (i_phases _ _ _ _ _ _ Hi) as Hph. destruct (cap_pos _ _ Hi) as (Hcr & _).
  apply count_exists in Hc as (j & g & q & Hl & Hg). destruct g; try done.
  destruct (can_turn _ _ _ _ _ Hi Hl I) as [|(k & ρ & Ha & Hb & H1 & H2 & H3 & H4)]; [done|].
  destruct (blocked_cases _ _ _ _ _ Ha Hb) as [(-> & _)|[(-> & Hh & Hz)|[(-> & Ho & Hfull)|[(-> & _)|(-> & _)]]]];
    try by (discriminate (H1 eq_refl) || discriminate (H3 eq_refl) || discriminate (H4 eq_refl)).
  - pose proof (slots_put l j _ [] Hl) as E. rewrite slots_nil in E. cbn [snd] in E. rewrite Hh in E. cbn in E.
    rewrite (i_held _ _ _ _ _ _ Hi) in Hz. lia.
  - apply shut_false in Ho. apply (can_router s l Hi); [|left; lia]. from (ph_routed _ _ _ _ _ _ _ _ Hph).
Qed.

(** Slots are held only by workers in a turn and by checks. *)
Lemma holder jc g q :
  g_ok jc (g, q) -> b_held q = true -> (exists pr, g = GWorker (Busy pr)) \/ exists pr, g = GCheck pr.
Proof using.
  assert (forall A (ρ : role) n (w : worker A) Φ, ρ <> RWorker -> turn ρ n w q Φ -> b_held q = false) as Hturn.
  { intros A ρ n [|pr] Φ Hρ; cbn; [done|]. intros (_ & _ & [?|?]); done. }
  intros Hg Hq. destruct g as [w|w|[|pr]|pr|w| |w|w|w]; cbn in Hg; eauto; exfalso;
    first [congruence|apply Hturn in Hg; [congruence|done]|destruct Hg; congruence].
Qed.

Lemma can_worker s l :
  inv s l -> (0 < count is_worker l)%nat -> shut (jobChan (sv_proc s)) = 1%nat -> can s.
Proof.
  intros Hi Hc Hch. pose proof (i_phases _ _ _ _ _ _ Hi) as Hph. destruct (cap_pos _ _ Hi) as (_ & _ & _ & _ & Hcap).
  apply count_exists in Hc as (j & g & q & Hl & Hg). destruct g as [| |[|pr]| | | | | |]; try done.
  - assert (exists x, x ∈ moves c (ctx_done CtxApp (sv_world s)) (GWorker Waiting) (sv_proc s) (sv_wg s)) as [x Hx].
    { apply range_chan_some; [auto|intros y; eexists; left|apply leave_wg_some]. }
    by eapply can_move; [eapply inv_lookup| |].
  - destruct (can_turn _ _ _ _ _ Hi Hl I) as [|(k & ρ & Ha & Hb & H1 & H2 & H3 & H4)]; [done|].
    destruct (blocked_cases _ _ _ _ _ Ha Hb) as [(-> & Hh & Hfull)|[(-> & _)|[(-> & _)|[(-> & _)|(-> & _)]]]];
      try by (discriminate (H2 eq_refl) || discriminate (H3 eq_refl) || discriminate (H4 eq_refl)).
    assert (0 < slots_held l)%nat as Hpos by (rewrite <- (i_held _ _ _ _ _ _ Hi); lia).
    apply sum_of_pos in Hpos as ([g' q'] & Hin & Hheld). apply list_elem_of_lookup in Hin as [j' Hl'].
    cbn in Hheld. assert (b_held q' = true) as Hq' by (destruct (b_held q'); [done|cbn in Hheld; lia]).
    pose proof (Forall_lookup_1 _ _ _ _ (i_ok _ _ _ _ _ _ Hi) Hl') as Hg'.
    assert ((exists pr', g' = GWorker (Busy pr')) \/ exists pr', g' = GCheck pr') as [[pr' ->]|[pr' ->]].
    { by eapply holder. }
    + destruct (can_turn _ _ _ _ _ Hi Hl' I) as [|(k' & ρ' & Ha' & Hb' & H1' & H2' & H3' & H4')]; [done|].
      destruct (blocked_cases _ _ _ _ _ Ha' Hb') as [(-> & Hh' & _)|[(-> & _)|[(-> & _)|[(-> & _)|(-> & _)]]]];
        try by (discriminate (H2' eq_refl) || discriminate (H3' eq_refl) || discriminate (H4' eq_refl)). congruence.
    + apply (can_check s l Hi). pose proof (count_pos is_check _ _ _ Hl' eq_refl). lia.
Qed.

(** Once the jobs are closed, something of the pipeline can go on until
    [Shutdown] has returned. *)
Lemma progress s l : inv s l -> (3 <= rank (sv_main s))%nat -> sv_main s <> Returned -> can s.
Proof.
  intros Hi Hk Hret. pose proof (i_phases _ _ _ _ _ _ Hi) as Hph.
  assert (forall p' m', Shutdown (ctx_done CtxApp (sv_world s)) (sv_main s) (sv_proc s) (sv_wg s) = Some (p', m') -> can s) as Hmain.
  { intros p' m' H. destruct s as [w p wg gs m]. eexists. by apply lstep_main. }
  shuts (sv_proc s). destruct (sv_main s) eqn:Em; cbn [rank] in *; try lia; cbn [Shutdown] in Hmain; unfold main_wait in Hmain.
  - destruct (workerWg (sv_wg s)) as [|n] eqn:En; [by eapply Hmain|].
    apply (can_worker s l Hi); [rewrite (ph_workerWg _ _ _ _ _ _ _ _ Hph) in En; lia|from (ph_job _ _ _ _ _ _ _ _ Hph)].
  - destruct (httpWg (sv_wg s)) as [|n] eqn:En; [by eapply Hmain|].
    apply (can_check s l Hi). rewrite (ph_httpWg _ _ _ _ _ _ _ _ Hph) in En. lia.
  - unfold main_close in Hmain. destruct (ch_closed (resultChan (sv_proc s))); by eapply Hmain.
  - destruct (resultWG (sv_wg s)) as [|n] eqn:En; [by eapply Hmain|]. rewrite (ph_resultWG _ _ _ _ _ _ _ _ Hph) in En.
    destruct (decide (0 < count is_router l + count is_closing l)%nat) as [Hr|Hr].
    { apply (can_router s l Hi Hr). right. from (ph_result _ _ _ _ _ _ _ _ Hph). }
    destruct (decide (0 < count is_success l)%nat) as [Hs|Hs].
    + apply (can_success s l Hi Hs). right. from (ph_success _ _ _ _ _ _ _ _ Hph).
    + apply (can_failure s l Hi); [lia|]. right. from (ph_failure _ _ _ _ _ _ _ _ Hph).
  - unfold main_close in Hmain. destruct (ch_closed (alertChan (sv_proc s))); by eapply Hmain.
  - destruct (alertWG (sv_wg s)) as [|n] eqn:En; [by eapply Hmain|]. rewrite (ph_alertWG _ _ _ _ _ _ _ _ Hph) in En.
    apply (can_alert s l Hi); [lia|]. right. from (ph_alert _ _ _ _ _ _ _ _ Hph).
  - by eapply Hmain.
  - done.
Qed.

End Preservation.

(** *** Runs *)

Definition is_progress (x : who) : bool := match x with Progress => true | _ => false end.
Definition progresses (tr : list who) : nat := sum_of (fun x => weight (is_progress x)) tr.

Section Runs.
Context {U : UuidLib} {S : Services} (c : Container).
Context (n_w n_s n_f n_a : nat).
#[local] Notation inv := (inv n_w n_s n_f n_a).

Lemma steps_inv s tr s' l :
  inv s l -> lsteps c s tr s' ->
  exists l', inv s' l' /\ (ch_closed (jobChan (sv_proc s)) = true -> ch_closed (jobChan (sv_proc s')) = true /\
    (measure s' l' + progresses tr <= measure s l)%nat).
Proof.
  intros Hi Hs. revert l Hi. induction Hs as [s|s x s1 tr s2 H1 H2 IH]; intros l Hi.
  - exists l. split; [done|]. intros ?. split; [done|]. cbn. lia.
  - destruct (step_inv c _ _ _ _ _ _ _ _ Hi H1) as (l1 & Hi1 & Hc1 & _ & Hm1).
    destruct (IH l1 Hi1) as (l2 & Hi2 & Hm2). exists l2. split; [done|]. intros Hc.
    destruct (Hm2 (Hc1 Hc)) as [Hc2 Hm]. split; [done|].
    change (progresses (x :: tr)) with (weight (is_progress x) + progresses tr)%nat.
    destruct x; cbn [is_progress weight]; [lia|specialize (Hm1 Hc); lia..].
Qed.

(** The most a goroutine may still have to do. *)
Definition max_cost (g : goroutine) : nat :=
  match g with
  | GScheduler _ | GReclaimer _ => 0
  | GCheck _ => Datatypes.S fuel_check
  | GClosing => 1
  | GRouter _ => 3 + fuel_route
  | GWorker _ => 2 + fuel_job
  | GSuccess _ => 2 + fuel_success
  | GFailure _ => 2 + fuel_failure
  | GAlert _ => 2 + fuel_alert
  end.

(** A bound on the steps that are left: what is in the channels, the
    goroutines, and the statements of [Shutdown]. *)
Definition work (s : service) : nat := load (sv_proc s) + sum_of max_cost (sv_gs s) + 10.

Lemma measure_work s l : inv s l -> (measure s l <= work s)%nat.
Proof.
  intros Hi. unfold measure, work. rewrite (i_gs _ _ _ _ _ _ Hi).
  assert (costs l <= sum_of max_cost l.*1)%nat; [|lia].
  pose proof (i_ok _ _ _ _ _ _ Hi) as Hok. clear Hi. induction Hok as [|[g q] l Hg Hok IH]; [done|].
  rewrite costs_cons. change (sum_of max_cost (((g, q) :: l).*1)) with (max_cost g + sum_of max_cost l.*1)%nat.
  assert (cost (g, q) <= max_cost g)%nat; [|lia].
  destruct g as [w|w|w|pr|w| |w|w|w]; try done; cbn [g_ok fst snd] in Hg;
    try (destruct w as [|pr]; cbn [turn] in Hg); cbn [cost max_cost fst snd]; try lia; destruct Hg as [Hf _]; lia.
Qed.

End Runs.

(** *** The start *)

Section Start.
Context {U : UuidLib} {S : Services}.

Lemma repeat_snoc {A} (x : A) n : repeat x (Datatypes.S n) = repeat x n ++ [x].
Proof. apply repeat_cons. Qed.

Lemma for_range_spawn n g f s :
  for_range n (fun s => spawn g (update_wg f s)) s =
  MkService (sv_world s) (sv_proc s) (Nat.iter (Z.to_nat n) f (sv_wg s))
    (sv_gs s ++ repeat g (Z.to_nat n)) (sv_main s).
Proof.
  unfold for_range. induction (Z.to_nat n) as [|m IH].
  - cbn. rewrite app_nil_r. by destruct s.
  - rewrite Nat.iter_succ, IH, repeat_snoc, app_assoc. done.
Qed.

Lemma for_range_spawn_only n g s :
  for_range n (spawn g) s =
  MkService (sv_world s) (sv_proc s) (sv_wg s) (sv_gs s ++ repeat g (Z.to_nat n)) (sv_main s).
Proof.
  unfold for_range. induction (Z.to_nat n) as [|m IH].
  - cbn. rewrite app_nil_r. by destruct s.
  - rewrite Nat.iter_succ, IH, repeat_snoc, app_assoc. done.
Qed.

Lemma iter_workerWg n g : Nat.iter n (add_workerWg 1) g = add_workerWg n g.
Proof. induction n as [|n IH]; [by destruct g|]. rewrite Nat.iter_succ, IH. done. Qed.
Lemma iter_resultWG n g : Nat.iter n (add_resultWG 1) g = add_resultWG n g.
Proof. induction n as [|n IH]; [by destruct g|]. rewrite Nat.iter_succ, IH. done. Qed.

Lemma sum_of_repeat {A} (f : A -> nat) x n : sum_of f (repeat x n) = (n * f x)%nat.
Proof. unfold sum_of. induction n as [|n IH]; cbn; [done|]. by rewrite IH. Qed.

(** The goroutines and the wait groups after [main] has started them. *)
Lemma main_start_eq c w :
  let n_w := Z.to_nat (ex_workerCount (c_Executor c)) in
  let n_s := Z.to_nat (rp_successWorkerCount (c_ResultPro c)) in
  let n_f := Z.to_nat (rp_failureWorkerCount (c_ResultPro c)) in
  let n_a := Z.to_nat (al_workerCount (c_AlertSvc c)) in
  main_start c w = MkService w (c_proc c) (MkWG n_w 0 (n_f + n_s) n_a)
    ([Reclaimer_Run (c_Reclaimer c); Scheduler_Run (c_Scheduler c)] ++ repeat (GWorker Waiting) n_w ++
     repeat (GSuccess Waiting) n_s ++ repeat (GFailure Waiting) n_f ++ [GRouter Waiting] ++
     repeat (GAlert Waiting) n_a) Serving.
Proof.
  intros n_w n_s n_f n_a. unfold main_start, StartWorkers, StartResultProcessor, AlertService_Run.
  rewrite !for_range_spawn, for_range_spawn_only. unfold spawn, update_wg. cbn [sv_world sv_proc sv_wg sv_gs sv_main].
  rewrite iter_workerWg, !iter_resultWG. cbn [app]. rewrite <- !app_assoc. cbn [app].
  f_equal. unfold add_workerWg, add_resultWG, add_alertWG; cbn. f_equal; lia.
Qed.

(** What the configuration gives to the start. *)
Record startable (c : Container) : Prop := {
  st_interval : 0 < sc_interval (c_Scheduler c);
  st_reclaim : 0 < rc_interval (c_Reclaimer c);
  st_workers : 0 < ex_workerCount (c_Executor c);
  st_success : 0 < rp_successWorkerCount (c_ResultPro c);
  st_failure : 0 < rp_failureWorkerCount (c_ResultPro c);
  st_alert : 0 < al_workerCount (c_AlertSvc c);
  st_open : open (c_proc c);
  st_empty : ch_buf (jobChan (c_proc c)) = [];
  st_sem : sem_used (c_proc c) = 0%nat;
  st_caps : roomy (c_proc c)
}.

Lemma NewContainer_startable `{StructValidator} `{RedisLib} cfg c :
  well_formed cfg -> NewContainer cfg = Some (inr c) -> startable c.
Proof.
  intros []. unfold NewContainer. destruct (redis_New _); [done|].
  unfold make_channels, make_chan. do 6 (rewrite decide_False by lia; cbn [mbind option_bind]). intros [= <-].
  split; cbn; try lia; try done. unfold roomy, caps. repeat (apply Forall_cons; split; [cbn; lia|]). done.
Qed.

(** The invariant holds at the start. *)
Lemma start_inv c w :
  startable c ->
  inv (Z.to_nat (ex_workerCount (c_Executor c))) (Z.to_nat (rp_successWorkerCount (c_ResultPro c)))
      (Z.to_nat (rp_failureWorkerCount (c_ResultPro c))) (Z.to_nat (al_workerCount (c_AlertSvc c)))
      (main_start c w) ((fun g => (g, MkBudget false 0)) <$> sv_gs (main_start c w)).
Proof.
  intros [Hi Hr Hw Hs Hf Ha Ho He Hsem Hcaps]. rewrite main_start_eq. cbn zeta.
  set (nw := Z.to_nat (ex_workerCount _)). set (ns := Z.to_nat (rp_successWorkerCount _)).
  set (nf := Z.to_nat (rp_failureWorkerCount _)). set (na := Z.to_nat (al_workerCount _)).
  assert (forall f gs, count f ((fun g => (g, MkBudget false 0)) <$> gs) = sum_of (fun g => weight (f g)) gs) as Hcount.
  { intros f gs. unfold count, sum_of. induction gs as [|g gs IH]; cbn; [done|]. by rewrite IH. }
  split; cbn [sv_gs sv_proc sv_main sv_wg]; [| | | |done| |done].
  - rewrite <- list_fmap_compose. symmetry. apply list_fmap_id.
  - unfold Reclaimer_Run, Scheduler_Run. rewrite !decide_False by lia.
    apply Forall_fmap. repeat (apply Forall_app; split);
      try (apply Forall_forall; intros g Hg%list_elem_of_In%repeat_spec; by subst g);
      (repeat apply Forall_cons_2); try done; (split; [done|]); exists false; by split.
  - rewrite Hsem. unfold slots_held, sum_of. generalize ([Reclaimer_Run (c_Reclaimer c); Scheduler_Run (c_Scheduler c)] ++
      repeat (GWorker Waiting) nw ++ repeat (GSuccess Waiting) ns ++ repeat (GFailure Waiting) nf ++ [GRouter Waiting] ++
      repeat (GAlert Waiting) na) as gs. intros gs. induction gs as [|g gs IH]; cbn; [done|]. by rewrite <- IH.
  - rewrite Hsem. lia.
  - destruct Ho as (H1 & H2 & H3 & H4 & H5). split; rewrite ?Hcount, ?sum_of_app, ?sum_of_repeat; cbn;
      unfold shut; rewrite ?H1, ?H2, ?H3, ?H4, ?H5; cbn; lia.
Qed.

End Start.

(** ** Properties *)

Section Properties.
Context {U : UuidLib} {S : Services}.
Context {SV : StructValidator} {SVL : StructValidatorLaws SV} {Vi : ViperLib} {P : PgxLib} {RL : RedisLib}.

(** The state [s] occurs in a run of the process, from the first statement of
    [main]. *)
Definition reaches (c : Container) (w : world) (s : service) : Prop :=
  exists srv s0 tr, main w = Running srv c s0 /\ lsteps c s0 tr s.

(** What [main] has done when it serves. *)
Lemma main_running w srv c s0 :
  main w = Running srv c s0 ->
  exists cfg, LoadConfig "env.yaml" = inr cfg /\ NewContainer cfg = Some (inr c) /\ s0 = main_start c w.
Proof.
  unfold main. destruct (LoadConfig _) as [|cfg]; [done|]. destruct (ConnectToDB _) as [[]|]; [done|].
  destruct (NewContainer cfg) as [[|c']|] eqn:E; try done. intros [= _ <- <-]. eauto.
Qed.

Lemma main_serves w cfg pool c :
  LoadConfig "env.yaml" = inr cfg -> ConnectToDB (DB cfg) = inr pool -> NewContainer cfg = Some (inr c) ->
  main w = Running (server_New ":8080") c (main_start c w).
Proof. intros H1 H2 H3. unfold main. by rewrite H1, H2, H3. Qed.

Lemma loaded_well_formed path cfg : LoadConfig path = inr cfg -> well_formed cfg.
Proof using SVL.
  unfold LoadConfig. destruct (ReadInConfig _) as [|st]; [done|]. destruct (Unmarshal _ _) as [|cfg']; [done|].
  destruct (validateConfig_cases cfg') as [[-> Hwf]|(_ & lines & _ & _ & ->)]; [|done]. by intros [= <-].
Qed.

Lemma reaches_inv c w s :
  reaches c w s ->
  exists n_w n_s n_f n_a l, inv n_w n_s n_f n_a s l /\ (0 < n_w /\ 0 < n_s /\ 0 < n_f /\ 0 < n_a)%nat.
Proof using SVL.
  intros (srv & s0 & tr & Hm & Hs). destruct (main_running _ _ _ _ Hm) as (cfg & Hcfg & Hc & ->).
  pose proof (NewContainer_startable cfg c (loaded_well_formed _ _ Hcfg) Hc) as Hst. pose proof (start_inv c w Hst) as Hi.
  destruct (steps_inv c _ _ _ _ _ _ _ _ Hi Hs) as (l & Hi' & _). destruct Hst.
  do 5 eexists. split; [exact Hi'|]. lia.
Qed.

(** An empty, open channel of a size. *)
Definition fresh {A} (n : Z) (ch : chan A) : Prop := ch = MkChan [] (Z.to_nat n) false /\ 0 < n.

(** The goroutines of a configuration: the two tickers past the checks of their
    intervals, the pools of workers, and the router. *)
Definition configured (cfg : Config) : list goroutine :=
  [GReclaimer (Busy (mret tt)); GScheduler (Busy (mret tt)); GRouter Waiting] ++
  repeat (GWorker Waiting) (Z.to_nat (exc_WorkerCount (ExecutorCfg cfg))) ++
  repeat (GSuccess Waiting) (Z.to_nat (rpc_SuccessWorkerCount (ResultProcessorCfg cfg))) ++
  repeat (GFailure Waiting) (Z.to_nat (rpc_FailureWorkerCount (ResultProcessorCfg cfg))) ++
  repeat (GAlert Waiting) (Z.to_nat (alc_WorkerCount (AlertCfg cfg))).

(** C31: the start of the process.  [main] never panics: it ends with the error of
    the first of configuration, database and Redis that fails, or it serves.
    Then the configuration is well formed; the scheduler, the reclaimer and the
    token service have its settings; every channel and the semaphore is empty,
    open and of its configured size; the goroutines are, up to order, those of
    [configured], so many of each kind; and each pool is counted by its wait
    group. *)
Theorem main_boots w :
  match main w with
  | BootPanic => False
  | Fatal _ err =>
      LoadConfig "env.yaml" = inl err \/ exists cfg, LoadConfig "env.yaml" = inr cfg /\
        ((exists o, ConnectToDB (DB cfg) = inl (err, o)) \/
         (exists pool, ConnectToDB (DB cfg) = inr pool) /\ redis_New (RedisCfg cfg) = inl err)
  | Running srv c s => exists cfg pool,
      LoadConfig "env.yaml" = inr cfg /\ well_formed cfg /\
      ConnectToDB (DB cfg) = inr pool /\ redis_New (RedisCfg cfg) = inr (c_redis c) /\
      sv_main s = Serving /\
      c_Scheduler c = MkScheduler (scc_Interval (SchedulerCfg cfg)) (scc_BatchSize (SchedulerCfg cfg))
        (scc_VisibilityTimeout (SchedulerCfg cfg)) /\
      c_Reclaimer c = MkReclaimer (rcc_Interval (ReclaimerCfg cfg)) (rcc_Limit (ReclaimerCfg cfg)) /\
      c_tokenSvc c = MkTokenService (auth_Secret (Auth cfg)) (auth_TokenTTL (Auth cfg)) /\
      fresh (app_JobChannelSize (App cfg)) (jobChan (sv_proc s)) /\
      fresh (app_ResultChannelSize (App cfg)) (resultChan (sv_proc s)) /\
      fresh (app_AlertChannelSize (App cfg)) (alertChan (sv_proc s)) /\
      fresh (rpc_SuccessChannelSize (ResultProcessorCfg cfg)) (successChan (sv_proc s)) /\
      fresh (rpc_FailureChannelSize (ResultProcessorCfg cfg)) (failureChan (sv_proc s)) /\
      sem_used (sv_proc s) = 0%nat /\ Z.of_nat (sem_cap (sv_proc s)) = exc_HTTPSemCount (ExecutorCfg cfg) /\
      sv_gs s ≡ₚ configured cfg /\
      Z.of_nat (workerWg (sv_wg s)) = exc_WorkerCount (ExecutorCfg cfg) /\ httpWg (sv_wg s) = 0%nat /\
      Z.of_nat (resultWG (sv_wg s)) =
        rpc_SuccessWorkerCount (ResultProcessorCfg cfg) + rpc_FailureWorkerCount (ResultProcessorCfg cfg) /\
      Z.of_nat (alertWG (sv_wg s)) = alc_WorkerCount (AlertCfg cfg)
  end.
Proof using SVL.
  unfold main. destruct (LoadConfig "env.yaml") as [e|cfg] eqn:El; [by left|].
  destruct (ConnectToDB (DB cfg)) as [[e o]|pool] eqn:Ec; [right; eauto|].
  pose proof (loaded_well_formed _ _ El) as Hwf. pose proof Hwf as [].
  unfold NewContainer. destruct (redis_New (RedisCfg cfg)) as [e|opt] eqn:Er; [right; eauto 10|].
  unfold make_channels, make_chan. do 6 (rewrite decide_False by lia; cbn [mbind option_bind]).
  exists cfg, pool. rewrite main_start_eq.
  cbn [c_Reclaimer c_Scheduler c_Executor c_ResultPro c_AlertSvc ex_workerCount rp_successWorkerCount
       rp_failureWorkerCount al_workerCount NewExecutor NewResultProcessor NewAlertService sv_gs].
  unfold fresh, ch_make, Reclaimer_Run, Scheduler_Run, configured. cbn [rc_interval sc_interval NewReclaimer NewScheduler].
  rewrite !decide_False by lia. split_and!; try done; cbn; try lia.
  do 2 apply perm_skip. rewrite !app_assoc. symmetry. apply Permutation_middle.
Qed.

Definition panicked (g : goroutine) : Prop :=
  match g with
  | GWorker (Busy (Panic _)) | GCheck (Panic _)
  | GScheduler (Busy (Panic _)) | GReclaimer (Busy (Panic _)) | GRouter (Busy (Panic _))
  | GSuccess (Busy (Panic _)) | GFailure (Busy (Panic _)) | GAlert (Busy (Panic _)) => True
  | _ => False
  end.

(** C17: only the scheduler can panic.  In every run of a process, start and
    shutdown included, whatever the services answer: no send on a closed
    channel, no second close, no negative wait group and no refused interval,
    in any goroutine, except that the scheduler may panic after the main
    goroutine has closed the channel of the jobs. *)
Theorem only_scheduler_panics c w s :
  reaches c w s ->
  (forall g, g ∈ sv_gs s -> panicked g ->
     (exists p, g = GScheduler p) /\ ch_closed (jobChan (sv_proc s)) = true) /\
  (forall msg, sv_main s <> MainPanic msg).
Proof using SVL.
  intros (n_w & n_s & n_f & n_a & l & Hi & _)%reaches_inv. split; [|apply (i_main _ _ _ _ _ _ Hi)].
  intros g Hin Hp. rewrite (i_gs _ _ _ _ _ _ Hi) in Hin. apply list_elem_of_fmap in Hin as ([g' q] & -> & Hin).
  pose proof (proj1 (Forall_forall _ _) (i_ok _ _ _ _ _ _ Hi) _ Hin) as Hg. cbn [fst] in Hp |- *.
  destruct g' as [w0|w0|w0|pr|w0| |w0|w0|w0]; try done.
  - split; [by eexists|]. destruct w0 as [|[]]; try done. destruct Hg as (_ & b & Hb & Hpn). by apply Hb.
  - destruct w0 as [|[]]; try done. destruct Hg as (_ & b & Hb & Hpn). by specialize (Hb Hpn).
  - destruct w0 as [|[]]; try done. by destruct Hg as (_ & [] & _).
  - destruct pr; try done. by destruct Hg as [_ []].
  - destruct w0 as [|[]]; try done. by destruct Hg as (_ & [] & _).
  - destruct w0 as [|[]]; try done. by destruct Hg as (_ & [] & _).
  - destruct w0 as [|[]]; try done. by destruct Hg as (_ & [] & _).
  - destruct w0 as [|[]]; try done. by destruct Hg as (_ & [] & _).
Qed.

(** C16: a shutdown drains the pipeline.  When [Shutdown] has returned, every
    channel is closed and empty, every slot of the semaphore is free, the wait
    groups are at zero, and of all goroutines only the loops of the two
    tickers can be left: every job, result and alert that entered a channel
    was taken out and handled to the end. *)
Theorem shutdown_drains c w s :
  reaches c w s -> sv_main s = Returned ->
  (forall g, g ∈ sv_gs s -> is_ticker g = true) /\
  jobChan (sv_proc s) = MkChan [] (ch_cap (jobChan (sv_proc s))) true /\
  resultChan (sv_proc s) = MkChan [] (ch_cap (resultChan (sv_proc s))) true /\
  successChan (sv_proc s) = MkChan [] (ch_cap (successChan (sv_proc s))) true /\
  failureChan (sv_proc s) = MkChan [] (ch_cap (failureChan (sv_proc s))) true /\
  alertChan (sv_proc s) = MkChan [] (ch_cap (alertChan (sv_proc s))) true /\
  sem_used (sv_proc s) = 0%nat /\ sv_wg s = MkWG 0 0 0 0.
Proof using SVL.
  intros (n_w & n_s & n_f & n_a & l & Hi & Hn & Hn1 & Hn2 & Hn3)%reaches_inv Hm.
  pose proof (i_phases _ _ _ _ _ _ Hi) as Hph. rewrite Hm in Hph. cbn [rank] in Hph.
  assert (forall A (ch : chan A), shut ch = 1%nat -> len ch = 0%nat -> ch = MkChan [] (ch_cap ch) true) as Hch.
  { intros A [b n cl] H1 H2. apply shut_true in H1. cbn in *. subst cl. by destruct b. }
  assert (count is_worker l = 0 /\ count is_check l = 0 /\ count is_success l = 0 /\ count is_failure l = 0 /\
    count is_alerter l = 0)%nat as (E1 & E2 & E3 & E4 & E5).
  { pose proof (ph_no_worker _ _ _ _ _ _ _ _ Hph). pose proof (ph_no_check _ _ _ _ _ _ _ _ Hph).
    pose proof (ph_no_handler _ _ _ _ _ _ _ _ Hph). from (ph_no_alerter _ _ _ _ _ _ _ _ Hph). }
  pose proof (ph_s _ _ _ _ _ _ _ _ Hph) as Hs. destruct Hs as [Hs|[Hs1 Hs2]]; [lia|].
  pose proof (ph_f _ _ _ _ _ _ _ _ Hph) as Hf. destruct Hf as [Hf|[Hf1 Hf2]]; [lia|].
  pose proof (ph_a _ _ _ _ _ _ _ _ Hph) as Ha. destruct Ha as [Ha|[Ha1 Ha2]]; [lia|].
  pose proof (ph_w _ _ _ _ _ _ _ _ Hph) as Hw. destruct Hw as [Hw|[Hw1 Hw2]]; [lia|].
  assert (count is_router l + count is_closing l = 0)%nat as E6 by from (ph_success _ _ _ _ _ _ _ _ Hph).
  destruct (ph_routed _ _ _ _ _ _ _ _ Hph) as [Hr1 Hr2]; [lia|].
  assert (forall f g q, (g, q) ∈ l -> f g = true -> (1 <= count f l)%nat) as Hpos.
  { intros f g q Hin Hf. apply list_elem_of_lookup in Hin as [j Hj]. by apply (count_pos f l j _ Hj). }
  split.
  { intros g Hin. rewrite (i_gs _ _ _ _ _ _ Hi) in Hin. apply list_elem_of_fmap in Hin as ([g' q] & -> & Hin).
    cbn [fst]. destruct g'; try done; exfalso.
    - pose proof (Hpos is_worker _ _ Hin eq_refl). lia.
    - pose proof (Hpos is_check _ _ Hin eq_refl). lia.
    - pose proof (Hpos is_router _ _ Hin eq_refl). lia.
    - pose proof (Hpos is_closing _ _ Hin eq_refl). lia.
    - pose proof (Hpos is_success _ _ Hin eq_refl). lia.
    - pose proof (Hpos is_failure _ _ Hin eq_refl). lia.
    - pose proof (Hpos is_alerter _ _ Hin eq_refl). lia. }
  do 5 (split; [by apply Hch|]). split.
  - rewrite (i_held _ _ _ _ _ _ Hi). destruct (decide (slots_held l = 0%nat)) as [|Hne]; [done|]. exfalso.
    assert (0 < slots_held l)%nat as Hp by lia. apply sum_of_pos in Hp as ([g q] & Hin & Hq).
    pose proof (proj1 (Forall_forall _ _) (i_ok _ _ _ _ _ _ Hi) _ Hin) as Hg. cbn in Hq.
    destruct (holder _ _ _ Hg) as [[pr ->]|[pr ->]]; [by destruct (b_held q); [|cbn in Hq; lia]| |].
    + pose proof (Hpos is_worker _ _ Hin eq_refl). lia.
    + pose proof (Hpos is_check _ _ Hin eq_refl). lia.
  - pose proof (ph_workerWg _ _ _ _ _ _ _ _ Hph). pose proof (ph_httpWg _ _ _ _ _ _ _ _ Hph).
    pose proof (ph_resultWG _ _ _ _ _ _ _ _ Hph). pose proof (ph_alertWG _ _ _ _ _ _ _ _ Hph).
    destruct (sv_wg s) as [a b d e]. cbn in *. f_equal; lia.
Qed.

(** C15: a shutdown terminates.  Once the jobs are closed, every run has at most
    [work s] further steps of the pipeline and of the main goroutine, a number
    computed from the lengths of the channels and the goroutines that are left,
    whatever the services answer and whatever happens elsewhere; and as long
    as [Shutdown] has not returned such a step is possible: it neither runs
    for ever nor gets stuck. *)
Theorem shutdown_terminates c w s tr s' :
  reaches c w s -> ch_closed (jobChan (sv_proc s)) = true -> lsteps c s tr s' ->
  (progresses tr <= work s)%nat /\
  (sv_main s' <> Returned -> exists s'', lstep c s' Progress s'').
Proof using SVL.
  intros (n_w & n_s & n_f & n_a & l & Hi & _ & Hn1 & Hn2 & Hn3)%reaches_inv Hc Hs.
  destruct (steps_inv c _ _ _ _ _ _ _ _ Hi Hs) as (l' & Hi' & Hm). destruct (Hm Hc) as [Hc' Hle]. split.
  - pose proof (measure_work _ _ _ _ _ _ Hi). lia.
  - intros Hr. apply (progress c n_w n_s n_f n_a Hn1 Hn2 Hn3 s' l' Hi'); [|done].
    apply shut_true in Hc'. from (ph_job _ _ _ _ _ _ _ _ (i_phases _ _ _ _ _ _ Hi')).
Qed.

End Properties.

(** ** Runs to evaluate *)

Section Drive.
Context {U : UuidLib} {S : Services} (c : Container).

(** The next command of a goroutine. *)
Definition g_next (g : goroutine) : option {k : cmd & reply k -> goroutine} :=
  match g with
  | GScheduler (Busy (Op k f)) => Some (existT k (fun r => GScheduler (Busy (f r))))
  | GReclaimer (Busy (Op k f)) => Some (existT k (fun r => GReclaimer (Busy (f r))))
  | GWorker (Busy (Op k f)) => Some (existT k (fun r => GWorker (Busy (f r))))
  | GCheck (Op k f) => Some (existT k (fun r => GCheck (f r)))
  | GRouter (Busy (Op k f)) => Some (existT k (fun r => GRouter (Busy (f r))))
  | GSuccess (Busy (Op k f)) => Some (existT k (fun r => GSuccess (Busy (f r))))
  | GFailure (Busy (Op k f)) => Some (existT k (fun r => GFailure (Busy (f r))))
  | GAlert (Busy (Op k f)) => Some (existT k (fun r => GAlert (Busy (f r))))
  | _ => None
  end.

(** One step of the goroutine at [j], the first internal one if there are two. *)
Definition step_g (j : nat) (s : service) : option (who * service) :=
  g ← sv_gs s !! j;
  match g_next g with
  | Some (existT k f) =>
      match exec k (MkSys (sv_world s) (sv_proc s)) with
      | Reply σ r => Some (of_g g, MkService (sw σ) (sp σ) (sv_wg s) (put j [f r] (sv_gs s)) (sv_main s))
      | Blocked => None
      end
  | None =>
      match moves c (ctx_done CtxApp (sv_world s)) g (sv_proc s) (sv_wg s) with
      | (p', wg', gs') :: _ => Some (of_g g, MkService (sv_world s) p' wg' (put j gs' (sv_gs s)) (sv_main s))
      | [] => None
      end
  end.

Definition step_m (s : service) : option (who * service) :=
  match Shutdown (ctx_done CtxApp (sv_world s)) (sv_main s) (sv_proc s) (sv_wg s) with
  | Some (p', m') => Some (Progress, MkService (sv_world s) p' (sv_wg s) (sv_gs s) m')
  | None => None
  end.

Fixpoint first_g (js : list nat) (s : service) : option (who * service) :=
  match js with
  | [] => None
  | j :: js =>
      match sv_gs s !! j with
      | Some g => if is_ticker g then first_g js s
                  else match step_g j s with Some r => Some r | None => first_g js s end
      | None => None
      end
  end.

(** At most [n] steps of the pipeline, the main goroutine first. *)
Fixpoint drain (n : nat) (s : service) : list who * service :=
  match n with
  | O => ([], s)
  | Datatypes.S n =>
      match (match step_m s with Some r => Some r | None => first_g (seq 0 (length (sv_gs s))) s end) with
      | Some (x, s1) => let '(tr, s2) := drain n s1 in (x :: tr, s2)
      | None => ([], s)
      end
  end.

(** The goroutine at [j], at most [n] times. *)
Fixpoint turns (n j : nat) (s : service) : list who * service :=
  match n with
  | O => ([], s)
  | Datatypes.S n =>
      match step_g j s with
      | Some (x, s1) => let '(tr, s2) := turns n j s1 in (x :: tr, s2)
      | None => ([], s)
      end
  end.

Lemma step_g_step j s x s' : step_g j s = Some (x, s') -> lstep c s x s'.
Proof.
  destruct s as [w p wg gs m]. unfold step_g. cbn [sv_gs sv_world sv_proc sv_wg sv_main].
  destruct (gs !! j) as [g|] eqn:Hj; [|done]. cbn [mbind option_bind].
  destruct (g_next g) as [[k f]|] eqn:Hn.
  - destruct (exec k (MkSys w p)) as [[w' p'] r|] eqn:He; [|done]. intros [= <- <-].
    eapply lstep_cmd; [exact Hj| |exact He].
    destruct g as [[|[]]|[|[]]|[|[]]|[]|[|[]]| |[|[]]|[|[]]|[|[]]]; cbn in Hn; try done; inversion Hn; subst;
      simplify_eq; constructor.
  - destruct (moves _ _ _ _ _) as [|[[p' wg'] gs'] l] eqn:Hm; [done|]. intros [= <- <-].
    eapply lstep_move; [exact Hj|]. rewrite Hm. left.
Qed.

Lemma step_m_step s x s' : step_m s = Some (x, s') -> lstep c s x s'.
Proof.
  destruct s as [w p wg gs m]. unfold step_m. cbn. destruct (Shutdown _ _ _ _) as [[p' m']|] eqn:E; [|done].
  intros [= <- <-]. by apply lstep_main.
Qed.

Lemma first_g_step js s x s' : first_g js s = Some (x, s') -> lstep c s x s'.
Proof.
  induction js as [|j js IH]; cbn; [done|]. destruct (sv_gs s !! j) as [g|]; [|done].
  destruct (is_ticker g); [done|]. destruct (step_g j s) as [[x1 s1]|] eqn:E; [|done].
  intros [= <- <-]. by eapply step_g_step.
Qed.

Lemma drain_steps n s : lsteps c s (drain n s).1 (drain n s).2.
Proof.
  revert s. induction n as [|n IH]; intros s; cbn [drain]; [constructor|].
  assert (forall x s1, (match step_m s with Some r => Some r | None => first_g (seq 0 (length (sv_gs s))) s end) = Some (x, s1) ->
    lstep c s x s1) as H.
  { intros x s1. destruct (step_m s) as [[x2 s2]|] eqn:E; [intros [= <- <-]; by eapply step_m_step|].
    intros H. by eapply first_g_step. }
  destruct (match step_m s with Some r => Some r | None => _ end) as [[x s1]|]; [|constructor].
  specialize (IH s1). destruct (drain n s1) as [tr s2]. cbn in *. econstructor; [by apply H|done].
Qed.

Lemma turns_steps n j s : lsteps c s (turns n j s).1 (turns n j s).2.
Proof.
  revert s. induction n as [|n IH]; intros s; cbn [turns]; [constructor|].
  destruct (step_g j s) as [[x s1]|] eqn:E; [|constructor]. specialize (IH s1).
  destruct (turns n j s1) as [tr s2]. cbn in *. econstructor; [by eapply step_g_step|done].
Qed.

Lemma lsteps_app s1 tr1 s2 tr2 s3 : lsteps c s1 tr1 s2 -> lsteps c s2 tr2 s3 -> lsteps c s1 (tr1 ++ tr2) s3.
Proof.
  induction 1 as [s|s x s1 tr s2 H1 H2 IH]; [done|]. intros H. cbn. econstructor; [done|]. by apply IH.
Qed.

End Drive.

(** ** Witnesses *)

Section Witnesses.
#[local] Existing Instance Hex.lib.
#[local] Existing Instance RefWorld.services.
#[local] Existing Instance RefConfig.viper_lib.
#[local] Existing Instance RefConfig.validator.
#[local] Existing Instance RefConfig.validator_laws.

#[local] Instance redis_up : RedisLib := {
  redis_ParseURL s := inr (MkOptions s 0 0 0 0 0 0 0);
  redis_Ping _ _ := None
}.
#[local] Instance postgres_up : PgxLib := {
  pgxpool_ParseConfig s := inr (MkPoolConfig s 0 0 0 0);
  pgx_pool := unit;
  pgxpool_NewWithConfig _ := inr tt;
  pool_Ping _ _ := None
}.

Definition no_container : Container :=
  MkContainer (MkOptions "" 0 0 0 0 0 0 0) (MkTokenService "" 0) (MkReclaimer 0 0) (MkScheduler 0 0 0)
    (MkExecutor 0) (MkResultProcessor 0 0) (MkAlertService 0) RefWorld.proc10.

Definition demo_container : Container :=
  match NewContainer demo_config with Some (inr c) => c | _ => no_container end.

(** Two monitors are due; one of them exists, and its site answers 503. *)
Definition life_world : @world RefWorld.services :=
  RefWorld.with_http [inr 503] (RefWorld.start Demo.queue enabled_db Demo.t0).

(** The service starts; the scheduler ticks and hands out the jobs; the signal
    comes, and the main goroutine closes the channel of the jobs. *)
Definition life0 : service := main_start demo_container life_world.
Definition life1 := turns demo_container 7 1 life0.
Definition signal (s : service) : service :=
  MkService (RefWorld.cancelled (sv_world s)) (sv_proc s) (sv_wg s) (sv_gs s) (sv_main s).
Definition life2 := drain demo_container 3 (signal life1.2).
(** Everything else goes on until nothing is left to do. *)
Definition life3 := drain demo_container 600 life2.2.

Lemma signal_step c s : lsteps c s [Elsewhere] (signal s).
Proof. destruct s. econstructor; [apply lstep_world|constructor]. Qed.

Lemma demo_runs : main life_world = Running (server_New ":8080") demo_container life0.
Proof.
  assert (LoadConfig "env.yaml" = inr demo_config) as H1 by (vm_compute; reflexivity).
  assert (NewContainer demo_config = Some (inr demo_container)) as H2 by (vm_compute; reflexivity).
  assert (ConnectToDB (DB demo_config) = inr tt) as H3 by (vm_compute; reflexivity).
  exact (main_serves life_world demo_config tt demo_container H1 H3 H2).
Qed.

Lemma life2_steps : lsteps demo_container life0 (life1.1 ++ [Elsewhere] ++ life2.1) life2.2.
Proof.
  exact (lsteps_app demo_container life0 life1.1 life1.2 ([Elsewhere] ++ life2.1) life2.2
    (turns_steps demo_container 7 1 life0)
    (lsteps_app demo_container life1.2 [Elsewhere] (signal life1.2) life2.1 life2.2
      (signal_step demo_container life1.2) (drain_steps demo_container 3 (signal life1.2)))).
Qed.

Lemma life3_steps : lsteps demo_container life2.2 life3.1 life3.2.
Proof. exact (drain_steps demo_container 600 life2.2). Qed.

Lemma demo_reaches tr s : lsteps demo_container life0 tr s -> reaches demo_container life_world s.
Proof. intros H. exists (server_New ":8080"), life0, tr. split; [exact demo_runs|exact H]. Qed.

(** The same without the first tick: the scheduler ticks after the close. *)
Definition close2 := drain demo_container 3 (signal life0).
Definition panic3 := turns demo_container 8 1 close2.2.

Lemma panic3_steps : lsteps demo_container life0 ([Elsewhere] ++ close2.1 ++ panic3.1) panic3.2.
Proof.
  exact (lsteps_app demo_container life0 [Elsewhere] (signal life0) (close2.1 ++ panic3.1) panic3.2
    (signal_step demo_container life0)
    (lsteps_app demo_container (signal life0) close2.1 close2.2 panic3.1 panic3.2
      (drain_steps demo_container 3 (signal life0)) (turns_steps demo_container 8 1 close2.2))).
Qed.

Definition panickedb (g : goroutine) : bool :=
  match g with GScheduler (Busy (Panic _)) => true | _ => false end.

Lemma panickedb_spec g : panickedb g = true -> panicked g.
Proof. by destruct g as [[|[]]| | | | | | | |]. Qed.

(** The goroutine of the scheduler is the second. *)
Definition second (s : service) : goroutine := nth 1 (sv_gs s) GClosing.

Lemma second_in s : Nat.ltb 1 (length (sv_gs s)) = true -> second s ∈ sv_gs s.
Proof. intros H%Nat.ltb_lt. unfold second. apply list_elem_of_In, nth_In. lia. Qed.

(** With the configuration of the README. *)
Lemma main_boots_witness :
  main life_world = Running (server_New ":8080") demo_container life0 /\
  exists cfg, well_formed cfg /\ sv_gs life0 ≡ₚ configured cfg.
Proof.
  split; [exact demo_runs|]. pose proof (main_boots life_world) as H. rewrite demo_runs in H.
  destruct H as (cfg & pool & _ & Hwf & _ & _ & _ & _ & _ & _ & _ & _ & _ & _ & _ & _ & _ & Hg & _).
  exists cfg. split; [exact Hwf|exact Hg].
Defined.

Lemma only_scheduler_panics_witness :
  panicked (second panic3.2) /\
  (exists p, second panic3.2 = GScheduler p) /\ ch_closed (jobChan (sv_proc panic3.2)) = true.
Proof.
  assert (panicked (second panic3.2)) as Hp by (apply panickedb_spec; vm_compute; reflexivity).
  split; [exact Hp|].
  exact (proj1 (only_scheduler_panics demo_container life_world panic3.2 (demo_reaches _ _ panic3_steps))
    (second panic3.2) (second_in panic3.2 ltac:(vm_compute; reflexivity)) Hp).
Defined.

Definition stage_rank (s : service) : nat := rank (sv_main s).

Lemma returned s : stage_rank s = 10%nat -> sv_main s = Returned.
Proof. unfold stage_rank. by destruct (sv_main s). Qed.

(** Two jobs are in the channel when it is closed; 248 steps later the
    shutdown has returned, and of 213 goroutines the two tickers are left. *)
Lemma shutdown_drains_witness :
  (len (jobChan (sv_proc life2.2)), length (sv_gs life0), length (sv_gs life3.2)) = (2, 213, 2)%nat /\
  (forall g, g ∈ sv_gs life3.2 -> is_ticker g = true) /\ sem_used (sv_proc life3.2) = 0%nat.
Proof.
  split; [vm_compute; reflexivity|].
  assert (sv_main life3.2 = Returned) as Hr by (apply returned; vm_compute; reflexivity).
  destruct (shutdown_drains demo_container life_world life3.2
    (demo_reaches _ _ (lsteps_app _ _ _ _ _ _ life2_steps life3_steps)) Hr) as (H1 & _ & _ & _ & _ & _ & H2 & _).
  split; [exact H1|exact H2].
Defined.

Lemma shutdown_terminates_witness :
  (progresses life3.1, work life2.2) = (248, 10541)%nat /\ (progresses life3.1 <= work life2.2)%nat.
Proof.
  split; [vm_compute; reflexivity|].
  assert (ch_closed (jobChan (sv_proc life2.2)) = true) as Hc by (vm_compute; reflexivity).
  exact (proj1 (shutdown_terminates demo_container life_world life2.2 life3.1 life3.2
    (demo_reaches _ _ life2_steps) Hc life3_steps)).
Defined.

End Witnesses.
